(* ===== verification/_CoqProject ===== *)
-Q . S2P
Prelude.v
Runtime.v
Dispatch.v
Wire.v
Session.v
Membership.v
Outgoing.v
Landing.v
Typed.v
Raw.v
Stats.v
Handle.v
Peer.v
Stream.v
Conduit.v
Pipe.v
Polled.v
Attended.v
Connection.v
Dialling.v
Blobs.v
Transfer.v
Gossip.v
Topic.v
Docs.v
Document.v
Endpoint.v
Fleet.v
Answers.v
Requests.v
TopicTask.v
DocTask.v
Subscriptions.v
Live.v
Game.v
Reentry.v
Career.v
Crossing.v
Lobby.v
