(* ===== verification/Prelude.v ===== *)
(** * gdiroh: a model of the transport and of its Godot bindings

    gdiroh is a Godot extension, written in Rust under [src/gdiroh/src/], that
    gives games peer-to-peer connections over iroh (QUIC): a multiplayer session
    with a host and clients, raw connections and streams, blobs, gossip topics
    and shared documents. Everything hangs off one endpoint. Network work runs in
    tasks on a Tokio runtime; Godot objects on the main thread talk to those tasks
    through unbounded channels and poll them once per frame. This library models
    the state that code keeps and every operation on it, and proves what a game
    relies on.

    ** Parts, and where they are

    - [Prelude]: machine integers with their wrap-around ([bytes::Buf] and
      [BufMut] readers and writers of big-endian integers), unbounded channels
      ([Chan]: a queue and whether the receiver is alive), the iteration order of
      a [HashMap] ([HashOrder]: any duplicate-free listing of the keys),
      [Display], and lemmas and tactics used throughout.
    - [Runtime] ([runtime.rs]): the process-wide runtime and its leases.
    - [Dispatch] ([dispatch.rs]): the registry of ALPNs, admission of incoming
      attempts, routing of handshaken connections. Its class [AlpnRegistry] is
      what the sessions, the endpoint, blobs, gossip and docs use: their theorems
      hold of any implementation, and the instance [registry_interface] shows
      that the registry is one.
    - The multiplayer session ([session.rs]). [Wire]: the codec of control
      messages, stream and datagram framing, and the reader tasks, byte by byte.
      [Session]: the task as a step function, one step per arm of its [select!],
      over a [State] whose methods are the source's. [Membership]: what the host
      queues to whom, and what its clients conclude from it. [Typed]: the integer
      types of the source as an invariant of that state. [Handle]: the main
      thread's [Session], over any [AlpnRegistry]. [Live]: handle and task joined
      by their two channels and the shared map, scheduled in any way. [Lobby]: the
      tasks of a host and of its guests joined by the bytes of their control
      streams, under any delivery and any schedule.
    - [Peer] ([peer.rs]): [IrohPeer], the [MultiplayerPeerExtension], with the
      signals it emits inline and the callables connected to them calling back.
      [Game]: that peer, driven by a game, over a [Live] session: one session from
      [host] or [join] on, the callables connected to the signals leaving the peer
      alone ([passive]). [Reentry]: the poll event by event, with callables that use
      the peer in the middle of it, as Godot's [MultiplayerAPI] does. [Career]:
      that peer through any number of sessions, the tasks of those it let go still
      at work.
    - From one game to another. [Outgoing]: what a session puts on one of its
      connections, read off its effects, against the parcels ordered over it.
      [Landing]: what the datagram reader of the other end makes of those that
      land. [Crossing]: two [Game]s with a connection between them; the sender's
      frames and datagrams cross it in pieces and in any order, the readers of
      [Wire] cut them into packets, and the receiver polls and fetches.
    - [Raw] ([raw.rs]): the event queue of a connection, and a stream as a handle
      with a writer and a reader task; [Stream] ([stream.rs]): that stream as
      Godot's [StreamPeer]. [Conduit]: two such objects, their tasks and the QUIC
      stream between them; [Pipe]: each direction of it as an abstract pipe.
    - [Polled]: the frame subscription and drain loop that [connection.rs],
      [transfer.rs], [topic.rs] and [document.rs] each write out, as the class
      [Polled]; [Connection], [Transfer], [Topic] and [Document] are instances.
      [Dialling]: a [Connection] with the tasks of [Raw] behind it, from the dial
      or the accept to its end, through any frames and calls.
      [Attended]: such an object whose handle also takes commands, run together
      with the task that takes them, in any interleaving; and what becomes of it
      when the runtime drops that task.
    - [Blobs], [Gossip], [Docs] ([blobs.rs], [gossip.rs], [docs.rs]): the tasks
      behind transfers, topics and documents.
    - [Endpoint] ([endpoint.rs]): configuration, bind, listening, the services
      started on first use, questions to the stores, the poll on the frame
      signal, and closing. [Requests]: the calls that hand out an object, over the
      jobs of [Blobs], through to the signals of the [Transfer] they return, and
      the readouts. [TopicTask], [DocTask] and [Subscriptions]: topics and
      documents, from the call that hands out the object, through their tasks as
      instances of [Attended], to the last signal. [Answers]: the questions, from
      the call through the tasks of [Blobs] and [Docs] to the signal or the line in
      the log. [Fleet]: any number of endpoints, sharing the one runtime.
    - [Stats] ([stats.rs], [error.rs], [log.rs], [puppy.rs]): iroh's counters as
      dictionaries, and the lines printed.

    Files follow the source: a record per struct with its fields, an inductive
    type per enum with its variants, a definition per method. Where the source
    mutates [&mut self] the definition returns the new state; where it spawns,
    sends or closes something outside that state, the record keeps what was done,
    in order ([effects], [sent_events], [emitted] and the like). Tasks are step
    functions, and a run of them is a fold over a list of inputs in the order
    they happen, so a theorem about all lists is about all interleavings.

    ** What is shown

    - The whole session: with a host, its guests and the bytes between them, a
      guest that has read what it was sent holds the host's set of members and has
      told its game exactly that set; from every reachable lobby, delivering and
      reading is enough to get there. With a handle and its task, the two never
      disagree whatever the interleaving, and a dropped handle ends the task. With
      a game on top, the signals, packets, id and status are those of what the
      session said, and the packets put are what the session sends, whatever the
      callables connected to its signals do to the peer meanwhile.
    - Session after session: a peer holds at most the latest one, those before it
      send nothing put later and can end, signals come session by session, and
      packets are handed out in order and once, lost only by [close] (which is also
      the only thing that keeps them out of the next session).
    - From game to game: a connection carries the parcels ordered over it and
      nothing else; of the packets one game puts, another fetches the reliable
      ones in order and without a gap, of the ordered ones a subsequence (as long
      as a channel has had no more than [2^31 - 1] of them), of the others each at
      most once; and what a guest puts, its host can fetch after a poll, once it
      was delivered.
    - The wire: encoding then decoding a control message is the identity; no
      input makes the decoder panic on a 64-bit target, and exactly which frames do
      on a 32-bit one, where the length guard wraps; what a writer put on a stream is what the
      reader delivers, in order; the readers terminate on any bytes; ordered
      datagrams reach the game in order and those the reader drops are exactly
      the stale ones; how far apart two of them may be for its test to be right
      (it is wrong for a late datagram from before the counter wrapped).
    - The session: every client's view of who is present is the host's; joins and
      departures alternate; ids are never reused; a reliable packet reaches the
      peers Godot's target names and no other; an oversized datagram goes
      reliably instead; what a host does with a control frame from a client; ids,
      channels and sequence numbers stay within the source's types.
    - The registry: one owner per ALPN, whatever the interleaving of threads; the
      list given to the endpoint is the claimed one as long as publications do not
      overlap (they can, and then it may not be); connections reach the protocol
      they negotiated, whatever the order of claims, releases and handshakes; what
      is turned away, and how a peer's setting gets there.
    - What scripts ask: a blob call hands out an object exactly when its arguments
      parse and its service can run, and the object reports one outcome; a
      question accepted is answered once, with what the store said to it; a ticket
      leads another endpoint back to the one it names; metrics read back.
    - Resources: the runtime is up exactly while a lease lives, and every endpoint
      that is bound or binding has one, however many come and go; two sessions never
      host on one endpoint; the endpoint is subscribed to frames exactly while it
      waits for something, except for the questions no one will answer.
    - Streams: writes go out in order and once, ended by at most one finish or
      reset, or by a write that fails and leaves a first part of its chunk; reads return the bytes of the network in order, whole reads are all
      or nothing, frames survive any chunking; what is left after [close]. With the
      network between two objects, each direction is a pipe: what was accepted
      before the first finish, abort or drop is what it carries, a clean end is
      known only with all of it at hand, and what was put can be read.
    - Topics and documents: what a script broadcasts, joins or asks reaches iroh
      in order and once, whatever else happens meanwhile; the signals are what the
      task reported, none lost while the object is kept; a document's questions are
      answered in order, each by its own kind; the handle goes with the last word.
      A task that the runtime drops is never missed: its object waits for a last
      word nobody will say.
    - Connections: the signals, the datagrams and the openness of the object are
      those of what its tasks reported, over any frames and calls; it gives up its
      queue exactly at a close; a failed dial says so and nothing else. A transfer's
      signals likewise follow its task.
    - The multiplayer peer: packets and signals come out in the order the session
      sent them; two uses of it that lose a session, and a schedule (a welcome
      handled after the loss of the host) that leaves it connected to nothing.

    Theorems that start with a [C] and a number in their comment are the
    properties of the library; the others are its lemmas. A property with
    hypotheses is followed by a witness that applies it to a concrete run.

    ** Bounds and fuel

    - Peer ids are [i32]s counted up from [FIRST_CLIENT_ID]. The host's theorems
      ask for at most [max_accepts] accepted connections: past the last [i32] the
      source starts over at [FIRST_CLIENT_ID], as the model does, and an id may
      then be given twice. A lobby takes at most [max_joins] guests, for which
      every [Welcome] fits the [u32] length of its frame.
    - Arithmetic that leaves its type wraps, as in a release build: negating
      the least [i32] gives itself. Conversions between widths ([as]) are written
      out where they can lose something. A [usize] has 64 bits, except in
      [Wire.decode_at], which takes its width: the build also targets 32-bit ARM.
    - Draining a channel takes one round more than the queue is long. Draining a
      listener takes [backlog] + 1 rounds. A waiting stream read takes at most one
      round per report queued or still to arrive, and two more. A waiting
      datagram read takes one per event ahead, and two more. The reader of a
      stream consumes at least four bytes per round. Each is proved enough: the
      functions are shown to return, not only to be right when they do.
      A wait for something that never comes is [None].

    ** Not modelled, and why

    - iroh, iroh-blobs, iroh-gossip, iroh-docs, Tokio and Godot: what their calls
      return is an argument or an input. The network loses, delays, reorders and
      duplicates datagrams as the list of them given to the reader says; a stream
      is the list of bytes that arrived. In [Crossing] a datagram arrives at most
      once, as QUIC drops packets it has seen, and iroh hands over a connection
      once ([fresh_input]).
    - The runtime dropping tasks when the last lease goes: shown for the objects of
      [Attended] ([kill]) and for the questions of [Answers]; the other tasks are
      taken to run until they return.
    - Callables on the peer's signals that poll it again while it polls ([Reentry]
      allows every other call on a session).
    - Poisoned locks: no code under a lock of the source panics in the model.
    - The scene tree is there whenever the endpoint starts or stops polling; the
      objects of [Polled] take its presence as an argument.
    - The randomness of [generate_secret_key]; floats, which are of an abstract
      type with the operations applied to them; the registration of the extension
      with the engine ([lib.rs], but for [on_stage_deinit]); [testing.rs].

    ** Where it goes from here

    Callables that start another session while the peer polls, beyond what [Peer]
    shows of them; [Crossing] and [Career] with the callables of [Reentry]; the
    endpoint when the scene tree is gone; a stream of [Conduit] behind the accept
    queue of its connection. *)

From stdpp Require Export base tactics list gmap sets strings pretty.
From Stdlib Require Export ZArith Lia Sorted.
From Stdlib Require Strings.Byte.
From Stdlib Require Export Init.Byte.

#[global] Open Scope Z_scope.

(** ** Notation *)

Declare Scope gdiroh_scope.
Delimit Scope gdiroh_scope with gdiroh.
#[global] Open Scope gdiroh_scope.

(** [st |> f |> g]: the statements [f; g;] of a method with [&mut self],
    read as state transformers applied from left to right. *)
Notation "x |> f" := (f x)
  (at level 50, left associativity, only parsing) : gdiroh_scope.

(** ** Machine integers

    A Rust [i32], [u32] or [usize] is a [Z]; the operations that can leave the
    type's range are written with their wrap-around. *)

Definition i32_min : Z := -2147483648.
Definition i32_max : Z := 2147483647.
Definition u32_max : Z := 4294967295.
Definition two32 : Z := 4294967296.

Definition is_i32 (z : Z) : Prop := i32_min ≤ z ≤ i32_max.
Definition is_u32 (z : Z) : Prop := 0 ≤ z ≤ u32_max.

#[export] Instance is_i32_dec z : Decision (is_i32 z).
Proof. unfold is_i32. apply _. Defined.
#[export] Instance is_u32_dec z : Decision (is_u32 z).
Proof. unfold is_u32. apply _. Defined.

(** [z as u32]. *)
Definition to_u32 (z : Z) : Z := z mod two32.

(** [z as i32]: the two's complement reading of the low 32 bits. *)
Definition to_i32 (z : Z) : Z :=
  let u := to_u32 z in if decide (u ≤ i32_max) then u else u - two32.

Definition u32_wrapping_add (a b : Z) : Z := to_u32 (a + b).
Definition u32_wrapping_sub (a b : Z) : Z := to_u32 (a - b).
Definition i32_wrapping_add (a b : Z) : Z := to_i32 (a + b).

(** [-z] on [i32] in a build without overflow checks: [i32::MIN] is its own
    negation. *)
Definition i32_neg (z : Z) : Z := to_i32 (- z).

(** [a.saturating_sub(b)] on [usize]. *)
Definition usize_saturating_sub (a b : Z) : Z := Z.max 0 (a - b).

(** [z as i64] for a [u64]. *)
Definition u64_as_i64 (z : Z) : Z := if decide (z < 2 ^ 63) then z else z - 2 ^ 64.

Ltac unfold_ints :=
  unfold is_i32, is_u32, u32_wrapping_add, u32_wrapping_sub, i32_wrapping_add,
    i32_neg, usize_saturating_sub, to_i32, to_u32, i32_min, i32_max, u32_max,
    two32 in *.

(** [ints] decides goals about the machine integers: it exposes the ranges,
    splits the sign test of [to_i32] and hands over to [lia]. *)
Ltac ints :=
  unfold_ints; repeat case_decide; Z.div_mod_to_equations; lia.

Lemma to_u32_small z : is_u32 z → to_u32 z = z.
Proof. ints. Qed.

Lemma to_u32_range z : is_u32 (to_u32 z).
Proof. ints. Qed.

Lemma to_i32_small z : is_i32 z → to_i32 z = z.
Proof. ints. Qed.

Lemma to_i32_range z : is_i32 (to_i32 z).
Proof. ints. Qed.

Lemma to_u32_to_i32 z : to_u32 (to_i32 z) = to_u32 z.
Proof. ints. Qed.

Lemma to_i32_to_u32 z : to_i32 (to_u32 z) = to_i32 z.
Proof. unfold to_i32, to_u32. by rewrite Z.mod_mod by (unfold two32; lia). Qed.

(** ** Bytes *)

#[export] Instance byte_eq_dec : EqDecision byte := Strings.Byte.byte_eq_dec.

#[export] Program Instance byte_countable : Countable byte :=
  inj_countable Strings.Byte.to_N Strings.Byte.of_N _.
Next Obligation. intros b. apply Strings.Byte.of_to_N. Qed.

Abbreviation bytes := (list byte).

Definition Z_of_byte (b : byte) : Z := Z.of_N (Strings.Byte.to_N b).

(** [z as u8]. *)
Definition byte_of_Z (z : Z) : byte :=
  default x00 (Strings.Byte.of_N (Z.to_N (z mod 256))).

Lemma Z_of_byte_range b : 0 ≤ Z_of_byte b < 256.
Proof. by destruct b. Qed.

Lemma Z_of_byte_of_Z z : Z_of_byte (byte_of_Z z) = z mod 256.
Proof.
  unfold Z_of_byte, byte_of_Z.
  assert (0 ≤ z mod 256 < 256) as Hb by (apply Z.mod_pos_bound; lia).
  destruct (Strings.Byte.of_N (Z.to_N (z mod 256))) as [b|] eqn:E; simpl.
  - apply Strings.Byte.to_of_N in E. rewrite E. by rewrite Z2N.id by lia.
  - apply Strings.Byte.of_N_None_iff in E. lia.
Qed.

(** *** Big-endian fields

    [bytes::BufMut::put_i32], [put_u32] and [i32::to_be_bytes] write the four
    bytes of the two's complement representation, most significant first. *)

Definition put_u8 (z : Z) : bytes := [byte_of_Z z].

Definition put_u32 (z : Z) : bytes :=
  [byte_of_Z (z / 16777216); byte_of_Z (z / 65536); byte_of_Z (z / 256); byte_of_Z z].

Definition put_i32 (z : Z) : bytes := put_u32 (to_u32 z).

(** [bytes::Buf::get_u8] and friends advance the buffer and panic when it is
    too short; the panic is [None]. *)
Definition get_u8 (b : bytes) : option (Z * bytes) :=
  match b with
  | x :: rest => Some (Z_of_byte x, rest)
  | [] => None
  end.

Definition get_u32 (b : bytes) : option (Z * bytes) :=
  match b with
  | b3 :: b2 :: b1 :: b0 :: rest =>
      Some (Z_of_byte b3 * 16777216 + Z_of_byte b2 * 65536
            + Z_of_byte b1 * 256 + Z_of_byte b0, rest)
  | _ => None
  end.

Definition get_i32 (b : bytes) : option (Z * bytes) :=
  match get_u32 b with
  | Some (u, rest) => Some (to_i32 u, rest)
  | None => None
  end.

Lemma get_put_u8 z rest : 0 ≤ z < 256 → get_u8 (put_u8 z ++ rest) = Some (z, rest).
Proof. intros. simpl. rewrite Z_of_byte_of_Z, Z.mod_small by lia. done. Qed.

Lemma get_put_u32 z rest : get_u32 (put_u32 z ++ rest) = Some (to_u32 z, rest).
Proof.
  simpl. rewrite !Z_of_byte_of_Z. do 2 f_equal. ints.
Qed.

Lemma get_put_i32 z rest : get_i32 (put_i32 z ++ rest) = Some (to_i32 z, rest).
Proof.
  unfold get_i32, put_i32. rewrite get_put_u32.
  do 2 f_equal. by rewrite !to_i32_to_u32.
Qed.

Lemma get_u32_put z : get_u32 (put_u32 z) = Some (to_u32 z, []).
Proof. by rewrite <- (get_put_u32 z []), app_nil_r. Qed.

Lemma get_i32_put z : get_i32 (put_i32 z) = Some (to_i32 z, []).
Proof. by rewrite <- (get_put_i32 z []), app_nil_r. Qed.

(** Bytes are the encoding of what is read from them. *)
Lemma byte_of_Z_eq z b : z mod 256 = Z_of_byte b → byte_of_Z z = b.
Proof.
  intros Hz. unfold byte_of_Z. rewrite Hz. by destruct b.
Qed.

Lemma put_get_u8 b z rest : get_u8 b = Some (z, rest) → put_u8 z ++ rest = b.
Proof.
  destruct b as [|x b]; [done|]. intros [= <- <-]. unfold put_u8. cbn. f_equal.
  apply byte_of_Z_eq. pose proof (Z_of_byte_range x). by apply Z.mod_small.
Qed.

Lemma put_get_u32 b z rest : get_u32 b = Some (z, rest) → put_u32 z ++ rest = b.
Proof.
  destruct b as [|b3 [|b2 [|b1 [|b0 b]]]]; try done. intros [= <- <-]. unfold put_u32. cbn [app].
  pose proof (Z_of_byte_range b3). pose proof (Z_of_byte_range b2).
  pose proof (Z_of_byte_range b1). pose proof (Z_of_byte_range b0).
  repeat f_equal; apply byte_of_Z_eq; Z.div_mod_to_equations; lia.
Qed.

Lemma put_get_i32 b z rest : get_i32 b = Some (z, rest) → put_i32 z ++ rest = b.
Proof.
  unfold get_i32. destruct (get_u32 b) as [[u r]|] eqn:Hb; [|done]. intros [= <- <-].
  unfold put_i32. rewrite to_u32_to_i32. apply put_get_u32. rewrite to_u32_small; [done|].
  destruct b as [|b3 [|b2 [|b1 [|b0 b]]]]; try done. injection Hb as <- <-.
  pose proof (Z_of_byte_range b3). pose proof (Z_of_byte_range b2).
  pose proof (Z_of_byte_range b1). pose proof (Z_of_byte_range b0). ints.
Qed.

Lemma length_put_u32 z : length (put_u32 z) = 4%nat.
Proof. done. Qed.

Lemma length_put_i32 z : length (put_i32 z) = 4%nat.
Proof. done. Qed.

Lemma get_u32_some b : (4 ≤ length b)%nat → ∃ u, get_u32 b = Some (u, drop 4 b) ∧ is_u32 u.
Proof.
  destruct b as [|b3 [|b2 [|b1 [|b0 rest]]]]; simpl; try lia. intros _.
  eexists; split; [done|].
  pose proof (Z_of_byte_range b3). pose proof (Z_of_byte_range b2).
  pose proof (Z_of_byte_range b1). pose proof (Z_of_byte_range b0). ints.
Qed.

Lemma get_i32_some b : (4 ≤ length b)%nat → ∃ i, get_i32 b = Some (i, drop 4 b) ∧ is_i32 i.
Proof.
  intros (u & Hu & _)%get_u32_some. unfold get_i32. rewrite Hu.
  eauto using to_i32_range.
Qed.

#[global] Arguments put_u8 : simpl never.
#[global] Arguments put_u32 : simpl never.
#[global] Arguments put_i32 : simpl never.
#[global] Arguments get_u32 : simpl never.
#[global] Arguments get_i32 : simpl never.

(** [b.len()], a [usize]. *)
Definition len {A} (l : list A) : Z := Z.of_nat (length l).

Lemma len_nonneg {A} (l : list A) : 0 ≤ len l.
Proof. unfold len. lia. Qed.

Lemma len_app {A} (l k : list A) : len (l ++ k) = len l + len k.
Proof. unfold len. rewrite length_app. lia. Qed.

(** ** Unbounded channels

    [tokio::sync::mpsc::unbounded_channel]: the queue, and whether the
    receiving half still exists. Sending to a dropped receiver is the only
    failure. *)

Record Chan (A : Type) : Type := mk_chan {
  queue : list A;
  receiver_alive : bool;
}.
Arguments mk_chan {A}. Arguments queue {A}. Arguments receiver_alive {A}.

Definition unbounded_channel {A} : Chan A := mk_chan [] true.

(** [tx.send(x)]; the boolean is [is_ok()]. *)
Definition chan_send {A} (c : Chan A) (x : A) : Chan A * bool :=
  if receiver_alive c then (mk_chan (queue c ++ [x]) true, true) else (c, false).

(** [rx.try_recv().ok()]. *)
Definition chan_try_recv {A} (c : Chan A) : option A * Chan A :=
  match queue c with
  | x :: rest => (Some x, mk_chan rest (receiver_alive c))
  | [] => (None, c)
  end.

(** Dropping the receiver discards what is queued. *)
Definition chan_drop_receiver {A} (c : Chan A) : Chan A := mk_chan [] false.

(** [while let Some(x) = rx.try_recv() { pending.push(x) }], run against the
    queue as it stands. *)
Fixpoint drain_fuel {A} (fuel : nat) (c : Chan A) (pending : list A) : list A * Chan A :=
  match fuel with
  | O => (pending, c)
  | S fuel =>
      match chan_try_recv c with
      | (Some x, c') => drain_fuel fuel c' (pending ++ [x])
      | (None, c') => (pending, c')
      end
  end.

Definition chan_drain {A} (c : Chan A) : list A * Chan A :=
  drain_fuel (S (length (queue c))) c [].

Lemma drain_fuel_spec {A} n (c : Chan A) pending :
  (length (queue c) < n)%nat →
  drain_fuel n c pending = (pending ++ queue c, mk_chan [] (receiver_alive c)).
Proof.
  revert c pending. induction n as [|n IH]; intros [q a] pending Hn; simpl in *; [lia|].
  destruct q as [|x q]; simpl.
  - by rewrite app_nil_r.
  - rewrite IH by (simpl in *; lia). by rewrite <- app_assoc.
Qed.

Lemma chan_drain_spec {A} (c : Chan A) :
  chan_drain c = (queue c, mk_chan [] (receiver_alive c)).
Proof. unfold chan_drain. by rewrite drain_fuel_spec by lia. Qed.

(** ** Hash maps

    A [HashMap] or [HashSet] is a [gmap] or [gset]. Its iteration order is
    unspecified, so the definitions that iterate take it from an instance of
    this class and the theorems hold for every instance. *)

Class HashOrder : Type := {
  hash_keys : ∀ {K} `{Countable K} {V : Type}, gmap K V → list K;
  hash_keys_perm : ∀ {K} `{Countable K} {V : Type} (m : gmap K V),
    hash_keys m ≡ₚ (map_to_list m).*1;
}.

(** A concrete order, for evaluation. *)
Definition listing_order : HashOrder.
Proof.
  refine {| hash_keys K _ _ V m := (map_to_list m).*1 |}. done.
Defined.

Section hash_order.
Context `{HashOrder} {K} `{Countable K} {V : Type}.
Implicit Types m : gmap K V.

Lemma elem_of_hash_keys m k : k ∈ hash_keys m ↔ k ∈ dom m.
Proof.
  rewrite hash_keys_perm, elem_of_dom, list_elem_of_fmap. split.
  - intros ((k', v) & -> & Hkv). apply elem_of_map_to_list in Hkv. by exists v.
  - intros [v Hv]. exists (k, v). by rewrite elem_of_map_to_list.
Qed.

Lemma NoDup_hash_keys m : NoDup (hash_keys m).
Proof. rewrite hash_keys_perm. apply NoDup_fst_map_to_list. Qed.

End hash_order.

(** ** Display

    Rust's [Display] for the identifiers whose text form iroh defines. *)

Class Display (A : Type) : Type := to_string : A → string.

(** ** Runs

    A task is a fold of its step function over the inputs it is handed, so an
    invariant of the step is an invariant of every run. *)

Lemma foldl_invariant {S I} (step : S → I → S) (P : S → Prop) (ok : I → Prop) s ins :
  P s → Forall ok ins → (∀ s i, P s → ok i → P (step s i)) → P (foldl step s ins).
Proof.
  intros Hs Hok Hstep. revert s Hs.
  induction Hok as [|i ins Hi _ IH]; intros s Hs; simpl; eauto.
Qed.

Lemma foldl_preserves {S I} (step : S → I → S) (P : S → Prop) s ins :
  P s → (∀ s i, P s → P (step s i)) → P (foldl step s ins).
Proof. intros. eapply (foldl_invariant step P (λ _, True)); eauto using Forall_true. Qed.

(** The same for a step relation. *)
Lemma rtc_invariant {A} (R : relation A) (P : A → Prop) x y :
  P x → (∀ a b, R a b → P a → P b) → rtc R x y → P y.
Proof. intros Hx Hstep Hr. induction Hr; eauto. Qed.

Lemma mjoin_fmap_cons {A B} (f : A → list B) x xs :
  mjoin (f <$> x :: xs) = f x ++ mjoin (f <$> xs).
Proof. done. Qed.

Lemma omap_snoc {A B} (f : A → option B) l x :
  omap f (l ++ [x]) = omap f l ++ match f x with Some y => [y] | None => [] end.
Proof. rewrite omap_app. simpl. by destruct (f x). Qed.

(** Picking from a list by index: distinct indices pick no element twice, and
    increasing ones keep the order. *)
Lemma omap_lookup_cons {A} (a : A) l (js : list nat) :
  omap ((a :: l) !!.) (S <$> js) = omap (l !!.) js.
Proof. by induction js as [|j js IH]; cbn; rewrite ?IH. Qed.

Lemma omap_lookup_seq {A} (l : list A) : omap (l !!.) (seq 0 (length l)) = l.
Proof.
  induction l as [|a l IH]; [done|]. cbn [length seq omap list_omap lookup list_lookup].
  change (list_omap ?f ?k) with (omap f k). rewrite <- fmap_S_seq. by rewrite omap_lookup_cons, IH.
Qed.

Lemma omap_Permutation {A B} (f : A → option B) l k : l ≡ₚ k → omap f l ≡ₚ omap f k.
Proof.
  induction 1 as [|x l k _ IH|x y l|l k m _ IH1 _ IH2]; cbn; [done|destruct (f x); [by constructor|done]| |].
  - destruct (f x), (f y); by try constructor.
  - etrans; [exact IH1|exact IH2].
Qed.

Lemma sublist_omap {A B} (f : A → option B) l k : l `sublist_of` k → omap f l `sublist_of` omap f k.
Proof.
  induction 1 as [|x l k _ IH|x l k _ IH]; cbn; [constructor|by destruct (f x); [constructor|]|].
  by destruct (f x); [constructor|].
Qed.

Lemma filter_prefix {A} (P : A → Prop) `{∀ x, Decision (P x)} (l k : list A) :
  l `prefix_of` k → base.filter P l `prefix_of` base.filter P k.
Proof. intros [m ->]. rewrite filter_app. by apply prefix_app_r. Qed.

Lemma sublist_filter_mono {A} (P : A → Prop) `{∀ x, Decision (P x)} l k :
  l `sublist_of` k → base.filter P l `sublist_of` base.filter P k.
Proof.
  induction 1 as [|x l k _ IH|x l k _ IH]; [constructor|..]; rewrite ?filter_cons; repeat case_decide;
    by try constructor.
Qed.

Lemma submseteq_filter_mono {A} (P : A → Prop) `{∀ x, Decision (P x)} l k :
  l ⊆+ k → base.filter P l ⊆+ base.filter P k.
Proof.
  intros (m & Hs & Hp)%submseteq_sublist_l. rewrite <- Hp.
  by apply sublist_submseteq, sublist_filter_mono.
Qed.

Lemma omap_lookup_submseteq {A} (l : list A) (js : list nat) :
  NoDup js → Forall (λ j, j < length l)%nat js → omap (l !!.) js ⊆+ l.
Proof.
  intros Hnd Hj. transitivity (omap (l !!.) (seq 0 (length l))); [|by rewrite omap_lookup_seq].
  assert (js ⊆+ seq 0 (length l)) as (k & Hk & Hp)%submseteq_sublist_l.
  { apply NoDup_submseteq; [done|]. intros j Hin. apply elem_of_seq.
    rewrite Forall_forall in Hj. apply Hj in Hin. lia. }
  rewrite <- (omap_Permutation _ _ _ Hp). by apply sublist_submseteq, sublist_omap.
Qed.

Lemma omap_lookup_sublist {A} (l : list A) (js : list nat) :
  StronglySorted lt js → omap (l !!.) js `sublist_of` l.
Proof.
  revert js. induction l as [|a l IH]; intros js Hs.
  { assert (omap (@nil A !!.) js = []) as ->; [by clear; induction js|constructor]. }
  assert (∀ js, Forall (lt 0) js → StronglySorted lt js →
    ∃ ks, js = S <$> ks ∧ StronglySorted lt ks) as Hshift.
  { clear. induction js as [|j js IH]; intros Hp Hs; [by exists []; split; [|constructor]|].
    apply Forall_cons in Hp as [Hj Hp]. apply StronglySorted_inv in Hs as [Hs Hlt].
    destruct (IH Hp Hs) as (ks & -> & Hks). destruct j as [|j]; [lia|]. exists (j :: ks).
    split; [done|]. constructor; [done|]. rewrite Forall_fmap in Hlt.
    eapply Forall_impl; [exact Hlt|]. cbn. lia. }
  destruct js as [|[|j] js]; [apply sublist_nil_l| |].
  - apply StronglySorted_inv in Hs as [Hs Hlt]. destruct (Hshift js Hlt Hs) as (ks & -> & Hks).
    change (omap ((a :: l) !!.) (0%nat :: (S <$> ks))) with (a :: omap ((a :: l) !!.) (S <$> ks)).
    rewrite omap_lookup_cons. by constructor; apply IH.
  - destruct (Hshift (S j :: js)) as (ks & -> & Hks); [|done|].
    + apply StronglySorted_inv in Hs as [_ Hlt]. constructor; [lia|].
      eapply Forall_impl; [exact Hlt|]. cbn. lia.
    + rewrite omap_lookup_cons. constructor. by apply IH.
Qed.

(** ** Automation *)

(** [by_decision] proves a closed decidable proposition by evaluating its
    decision procedure. *)
Ltac by_decision := refine (bool_decide_unpack _ _); vm_compute; exact I.

Create HintDb gdiroh discriminated.
#[export] Hint Resolve to_u32_range to_i32_range len_nonneg Z_of_byte_range : gdiroh.
#[export] Hint Resolve NoDup_hash_keys : gdiroh.

Create Rewrite HintDb wire.
#[export] Hint Rewrite @get_put_u32 get_put_i32 @len_app @length_app
  length_put_u32 length_put_i32 : wire.
