(* ===== verification/Runtime.v ===== *)
(** * The shared runtime ([runtime.rs])

    [SHARED] is a process-wide slot: the Tokio runtime, if one is up, and the
    number of live leases. Runtimes are numbered in the order they are built;
    the world around the slot remembers how many were built and which were shut
    down, and in what order. *)

From S2P Require Import Prelude.

(** ** State and operations *)

Record Shared : Type := mk_shared {
  runtime : option nat;
  holders : nat;
}.

Record World : Type := mk_world {
  shared : Shared;
  built : nat;
  stopped : list nat;
}.

Definition initial : World := mk_world (mk_shared None 0) 0 [].

(** [Lease::acquire]. [buildable] is whether [Builder::build] succeeds; the
    result is whether a lease was handed out. *)
Definition acquire (buildable : bool) (w : World) : World * bool :=
  let sh := shared w in
  match runtime sh with
  | Some r => (mk_world (mk_shared (Some r) (S (holders sh))) (built w) (stopped w), true)
  | None =>
      if buildable then
        (mk_world (mk_shared (Some (built w)) (S (holders sh))) (S (built w)) (stopped w), true)
      else (w, false)
  end.

(** [Drop for Lease]: the count saturates at zero. *)
Definition drop_lease (w : World) : World :=
  let sh := shared w in
  let holders' := pred (holders sh) in
  if decide (0 < holders')%nat then
    mk_world (mk_shared (runtime sh) holders') (built w) (stopped w)
  else
    match runtime sh with
    | None => mk_world (mk_shared None holders') (built w) (stopped w)
    | Some r => mk_world (mk_shared None holders') (built w) (stopped w ++ [r])
    end.

(** [shutdown], the backstop for extension unload. *)
Definition shutdown (w : World) : World :=
  match runtime (shared w) with
  | None => mk_world (mk_shared None 0) (built w) (stopped w)
  | Some r => mk_world (mk_shared None 0) (built w) (stopped w ++ [r])
  end.

(** The extension's hook for a stage of the engine coming down. *)
Inductive InitStage : Type := Core | Servers | Scene | Editor.

#[export] Instance init_stage_eq_dec : EqDecision InitStage.
Proof. solve_decision. Defined.

Definition on_stage_deinit (stage : InitStage) (w : World) : World :=
  if decide (stage = Scene) then shutdown w else w.

(** [spawn]: whether there was a runtime to take the task. *)
Definition spawn (w : World) : bool := bool_decide (is_Some (runtime (shared w))).

(** [handle], [detach_handle], [detach]: an ambient runtime is preferred, as
    for code that already runs inside a task. *)
Definition handle (ambient : option nat) (w : World) : option nat :=
  match ambient with
  | Some h => Some h
  | None => runtime (shared w)
  end.

Definition detach_handle (ambient : option nat) (w : World) : bool :=
  match ambient with
  | Some _ => true
  | None => spawn w
  end.

Definition detach (ambient : option nat) (w : World) : bool := detach_handle ambient w.

(** ** The life of the slot

    A state of the process is the world and the number of live [Lease] values:
    a lease is dropped only if it exists. *)

Inductive lease_step : World * nat → World * nat → Prop :=
  | step_acquired b w w' n :
      acquire b w = (w', true) → lease_step (w, n) (w', S n)
  | step_not_acquired b w w' n :
      acquire b w = (w', false) → lease_step (w, n) (w', n)
  | step_drop w n :
      lease_step (w, S n) (drop_lease w, n).

Inductive step : World * nat → World * nat → Prop :=
  | step_lease s s' : lease_step s s' → step s s'
  | step_stage_ends stage w n : step (w, n) (on_stage_deinit stage w, n).

(** A runtime is up exactly while the count is positive, and every runtime
    built was stopped once, oldest first, except the one still up. *)
Definition coherent (w : World) : Prop :=
  (is_Some (runtime (shared w)) ↔ (0 < holders (shared w))%nat) ∧
  stopped w ++ option_list (runtime (shared w)) = seq 0 (built w).

Lemma coherent_initial : coherent initial.
Proof. split; [|done]. cbn. split; [by intros []|lia]. Qed.

Lemma acquire_coherent b w w' ok :
  coherent w → acquire b w = (w', ok) →
  coherent w' ∧ holders (shared w') = ((if ok then 1 else 0) + holders (shared w))%nat.
Proof.
  intros [Hup Hst] Ha. unfold acquire in Ha.
  destruct w as [[r h] bt st]; cbn in *.
  destruct r as [r|]; [|destruct b]; simplify_eq; cbn; (split; [|lia]).
  - split; cbn; [|done]. split; [lia|eauto].
  - split; cbn; [split; [lia|eauto]|].
    rewrite app_nil_r in Hst. by rewrite Hst, <- seq_S.
  - split; cbn; [|done]. done.
Qed.

Lemma drop_coherent w :
  coherent w → coherent (drop_lease w) ∧ holders (shared (drop_lease w)) = pred (holders (shared w)).
Proof.
  intros [Hup Hst]. unfold drop_lease.
  destruct w as [[r h] bt st]; cbn in *.
  case_decide; [|destruct r as [r|]]; cbn; (split; [|done]); split; cbn.
  - rewrite Hup. lia.
  - done.
  - split; [by intros []|lia].
  - by rewrite app_nil_r.
  - split; [by intros []|lia].
  - done.
Qed.

Lemma shutdown_coherent w : coherent w → coherent (shutdown w) ∧ holders (shared (shutdown w)) = 0%nat.
Proof.
  intros [Hup Hst]. unfold shutdown.
  destruct w as [[[r|] h] bt st]; cbn in *; (split; [|done]); split; cbn;
    try (split; [by intros []|lia]); by rewrite ?app_nil_r in *.
Qed.

Lemma lease_step_coherent s s' :
  lease_step s s' → coherent s.1 →
  coherent s'.1 ∧ (holders (shared s.1) = s.2 → holders (shared s'.1) = s'.2)
  ∧ ((holders (shared s.1) ≤ s.2)%nat → (holders (shared s'.1) ≤ s'.2)%nat).
Proof.
  destruct 1 as [b w w' n Ha|b w w' n Ha|w n]; cbn; intros Hc.
  - destruct (acquire_coherent b w w' true Hc Ha) as [? ->]. split_and!; [done|lia|lia].
  - destruct (acquire_coherent b w w' false Hc Ha) as [? ->]. split_and!; [done|lia|lia].
  - destruct (drop_coherent w Hc) as [? ->]. split_and!; [done|lia|lia].
Qed.

(** ** Properties *)

(** C27: the runtime lives exactly as long as its leases. In every run of
    acquires and drops, with builds that may fail at any point, a runtime is up
    exactly when at least one lease is live, the count is the number of live
    leases, and each runtime ever built was stopped exactly once, in order,
    save the one that is up. *)
Theorem runtime_lives_as_long_as_leases w live :
  rtc lease_step (initial, 0%nat) (w, live) →
  (is_Some (runtime (shared w)) ↔ (0 < live)%nat) ∧
  holders (shared w) = live ∧
  stopped w ++ option_list (runtime (shared w)) = seq 0 (built w).
Proof.
  intros Hr.
  assert (coherent (w, live).1 ∧ holders (shared (w, live).1) = (w, live).2) as [[Hup Hst] Hn].
  { apply (rtc_invariant lease_step (λ s, coherent s.1 ∧ holders (shared s.1) = s.2)) with (initial, 0%nat);
      [by split; [apply coherent_initial|]| |done].
    intros s s' Hs [Hc Hn]. destruct (lease_step_coherent _ _ Hs Hc) as (? & ? & _). auto. }
  cbn in *. split_and!; [by rewrite Hup, Hn|done|done].
Qed.

Lemma runtime_lives_as_long_as_leases_witness :
  (is_Some (runtime (shared (mk_world (mk_shared (Some 0%nat) 1) 1 []))) ↔ (0 < 1)%nat) ∧
  holders (shared (mk_world (mk_shared (Some 0%nat) 1) 1 [])) = 1%nat ∧
  [] ++ option_list (Some 0%nat) = seq 0 1.
Proof.
  refine (runtime_lives_as_long_as_leases (mk_world (mk_shared (Some 0%nat) 1) 1 []) 1 _).
  eapply rtc_l; [apply (step_not_acquired false); reflexivity|].
  eapply rtc_l; [apply (step_acquired true); reflexivity|].
  eapply rtc_l; [apply (step_acquired false); reflexivity|].
  eapply rtc_l; [apply step_drop|]. apply rtc_refl.
Defined.

(** with the unload backstop in the picture as well, no runtime outlives the
    last lease, none is shut down twice, and the slot never holds a runtime
    nobody counted. *)
Lemma shutdown_keeps_runtime_coherent w live :
  rtc step (initial, 0%nat) (w, live) →
  (is_Some (runtime (shared w)) → (0 < live)%nat) ∧
  (holders (shared w) ≤ live)%nat ∧ NoDup (stopped w) ∧
  (runtime (shared w) = None ↔ holders (shared w) = 0%nat).
Proof.
  intros Hr.
  assert (coherent (w, live).1 ∧ (holders (shared (w, live).1) ≤ (w, live).2)%nat)
    as [[Hup Hst] Hn].
  { apply (rtc_invariant step (λ s, coherent s.1 ∧ (holders (shared s.1) ≤ s.2)%nat)) with (initial, 0%nat);
      [by split; [apply coherent_initial|]| |done].
    intros s s' Hs [Hc Hn]. destruct Hs as [s s' Hs|stage w' n].
    - destruct (lease_step_coherent _ _ Hs Hc) as (? & _ & ?). auto.
    - cbn. unfold on_stage_deinit. case_decide; [|done].
      destruct (shutdown_coherent w' Hc) as [? H0]. split; [done|lia]. }
  cbn in *. split_and!.
  - intros H%Hup. lia.
  - done.
  - assert (NoDup (stopped w ++ option_list (runtime (shared w)))) as Hnd
      by (rewrite Hst; apply NoDup_seq).
    by apply NoDup_app in Hnd as [? _].
  - destruct (runtime (shared w)) as [r|].
    + split; [done|]. intros H0. assert (0 < holders (shared w))%nat by (apply Hup; eauto). lia.
    + split; [|done]. intros _. destruct (holders (shared w)); [done|].
      assert (is_Some (@None nat)) as [? ?] by (apply Hup; lia). done.
Qed.

Lemma shutdown_keeps_runtime_coherent_witness :
  (is_Some (runtime (shared (mk_world (mk_shared None 0) 1 [0%nat]))) → (0 < 1)%nat) ∧
  (0 ≤ 1)%nat ∧ NoDup [0%nat] ∧ (@None nat = None ↔ 0%nat = 0%nat).
Proof.
  refine (shutdown_keeps_runtime_coherent (mk_world (mk_shared None 0) 1 [0%nat]) 1 _).
  eapply rtc_l; [apply step_lease, (step_acquired true); reflexivity|].
  eapply rtc_l; [apply (step_stage_ends Scene)|]. apply rtc_refl.
Defined.
