(* ===== verification/Dispatch.v ===== *)
(** * The dispatcher of an endpoint ([dispatch.rs])

    One accept loop per endpoint routes inbound connections by ALPN to whoever
    claimed it. The registry is shared by every clone of the dispatcher; the
    channels and the refusal flags behind its [Arc]s live in stores of their
    own, so that a registration and the registry see the same ones.

    [AlpnRegistry] is what the rest of the crate relies on. *)

From S2P Require Import Prelude.

(** ** The interface *)

Class AlpnRegistry (R Reg : Type) : Type := {
  held : R → gset bytes;
  registered_alpn : Reg → bytes;
  register : bytes → R → R * option Reg;
  release : Reg → R → R;
  (** the refusal flag of a registration, and a store into one *)
  refusals_of : Reg → nat;
  store_refusal : nat → bool → R → R;
  (** the next connection waiting at a registration, and how many there are *)
  next_inbound : Reg → R → option nat * R;
  backlog : Reg → R → nat;
  register_free a r : a ∉ held r →
    ∃ r' g, register a r = (r', Some g) ∧ registered_alpn g = a ∧ held r' = {[a]} ∪ held r;
  register_held a r : a ∈ held r → register a r = (r, None);
  release_held g r : held (release g r) = held r ∖ {[registered_alpn g]};
  store_refusal_held n b r : held (store_refusal n b r) = held r;
  next_inbound_held g r : held (next_inbound g r).2 = held r;
  next_inbound_backlog g r :
    match next_inbound g r with
    | (Some _, r') => backlog g r = S (backlog g r')
    | (None, _) => backlog g r = 0%nat
    end;
}.

Section alpn_registry.
Context `{AlpnRegistry R Reg}.
Implicit Types r : R.

Lemma register_some a r r' g :
  register a r = (r', Some g) →
  (a ∉ held r) ∧ registered_alpn g = a ∧ held r' = {[a]} ∪ held r.
Proof.
  intros Hr. destruct (decide (a ∈ held r)) as [Hin|Hin].
  - rewrite register_held in Hr by done. by inversion Hr.
  - destruct (register_free a r Hin) as (r2 & g2 & Hr2 & ? & ?). rewrite Hr in Hr2. by simplify_eq.
Qed.

Lemma register_none a r r' : register a r = (r', None) → a ∈ held r ∧ r' = r.
Proof.
  intros Hr. destruct (decide (a ∈ held r)) as [Hin|Hin].
  - rewrite register_held in Hr by done. by injection Hr as <-.
  - destruct (register_free a r Hin) as (r2 & g2 & Hr2 & ? & ?). rewrite Hr in Hr2. by simplify_eq.
Qed.

(** A released ALPN can be claimed again. *)
Lemma register_again g r :
  ∃ r' g', register (registered_alpn g) (release g r) = (r', Some g').
Proof.
  destruct (register_free (registered_alpn g) (release g r)) as (r' & g' & ? & _).
  { rewrite release_held. set_solver. }
  eauto.
Qed.
End alpn_registry.

(** ** State *)

(** Close codes. *)
Definition NO_LISTENER : Z := 1.
Definition REFUSED : Z := 2.

(** A connection, as a handle. *)
Definition Conn : Type := nat.

(** [Protocol]: the channel and the flag, by their place in the stores. *)
Record Protocol : Type := mk_protocol {
  connections : nat;
  refuse : nat;
}.

Record Registry : Type := mk_registry {
  protocols : gmap bytes Protocol;
  (** what [Endpoint::set_alpns] was last called with *)
  alpns : gset bytes;
  inbounds : gmap nat (Chan Conn);
  flags : gmap nat bool;
  fresh_id : nat;
}.

Record Registration : Type := mk_registration {
  claim : bytes;
  incoming : nat;
  refusals : nat;
}.

(** ** Operations *)

Definition start : Registry := mk_registry ∅ ∅ ∅ ∅ 0.

(** [publish_alpns] takes the keys under the lock and hands them to the endpoint
    after the lock is released. *)
Definition collect_alpns (r : Registry) : gset bytes := dom (protocols r).

Definition set_alpns (a : gset bytes) (r : Registry) : Registry :=
  mk_registry (protocols r) a (inbounds r) (flags r) (fresh_id r).

Definition publish_alpns (r : Registry) : Registry := set_alpns (collect_alpns r) r.

(** The part of [register] under the lock. *)
Definition insert_protocol (alpn : bytes) (r : Registry) : Registry * option Registration :=
  match protocols r !! alpn with
  | Some _ => (r, None)
  | None =>
      let id := fresh_id r in
      (mk_registry (<[alpn := mk_protocol id id]> (protocols r)) (alpns r)
         (<[id := unbounded_channel]> (inbounds r)) (<[id := false]> (flags r)) (S id),
       Some (mk_registration alpn id id))
  end.

Definition register_alpn (alpn : bytes) (r : Registry) : Registry * option Registration :=
  match insert_protocol alpn r with
  | (r, None) => (r, None)
  | (r, Some g) => (publish_alpns r, Some g)
  end.

(** The part of [Drop for Claim] under the lock. *)
Definition remove_protocol (alpn : bytes) (r : Registry) : Registry :=
  mk_registry (delete alpn (protocols r)) (alpns r) (inbounds r) (flags r) (fresh_id r).

(** [Drop for Claim]. *)
Definition drop_claim (alpn : bytes) (r : Registry) : Registry :=
  publish_alpns (remove_protocol alpn r).

(** Dropping the receiving half. *)
Definition drop_inbound (id : nat) (r : Registry) : Registry :=
  mk_registry (protocols r) (alpns r) (alter chan_drop_receiver id (inbounds r)) (flags r)
    (fresh_id r).

(** Dropping a whole [Registration]: its fields in declaration order. *)
Definition drop_registration (g : Registration) (r : Registry) : Registry :=
  drop_inbound (incoming g) (drop_claim (claim g) r).

(** [Registration::split]. *)
Definition split (g : Registration) : bytes * nat := (claim g, incoming g).

(** [Registration::try_accept]; [accept] is the same with a wait in front. *)
Definition try_accept (g : Registration) (r : Registry) : option Conn * Registry :=
  match inbounds r !! incoming g with
  | None => (None, r)
  | Some c =>
      let '(got, c') := chan_try_recv c in
      (got, mk_registry (protocols r) (alpns r) (<[incoming g := c']> (inbounds r)) (flags r)
              (fresh_id r))
  end.

(** Storing into the flag of [Registration::refusals]. *)
Definition set_refuse (flag : nat) (b : bool) (r : Registry) : Registry :=
  mk_registry (protocols r) (alpns r) (inbounds r) (<[flag := b]> (flags r)) (fresh_id r).

Definition refusing (p : Protocol) (r : Registry) : bool := default false (flags r !! refuse p).

Definition wanted (r : Registry) (alpn : bytes) : bool :=
  match protocols r !! alpn with
  | Some p => negb (refusing p r)
  | None => false
  end.

(** [offer] is the ALPN list of the ClientHello, when it could be read; an item
    of it may still be malformed. *)
Definition offers_wanted_alpn (offer : option (list (option bytes))) (r : Registry)
  : option bool :=
  match offer with
  | None => None
  | Some offered =>
      Some (existsb (λ a, match a with Some alpn => wanted r alpn | None => false end) offered)
  end.

(** One round of [accept_loop]: [false] is [incoming.refuse()], [true] hands
    the connection attempt to [dispatch]. *)
Definition admits (offer : option (list (option bytes))) (r : Registry) : bool :=
  negb (bool_decide (offers_wanted_alpn offer r = Some false)).

(** What [dispatch] decided while it held the lock. *)
Inductive Route : Type :=
  | Noise
  | CloseWith (c : Conn) (code : Z) (reason : string)
  | SendTo (id : nat) (c : Conn).

(** [dispatch] up to the end of its locked scope. The arguments are what
    [incoming.accept()], [accepting.alpn()] and [accepting.await] returned. *)
Definition dispatch_route (accepted : bool) (alpn : option bytes) (connection : option Conn)
    (r : Registry) : Route :=
  if accepted then
    match alpn, connection with
    | Some alpn, Some c =>
        match protocols r !! alpn with
        | Some p => if refusing p r then CloseWith c REFUSED "not accepting connections"
                    else SendTo (connections p) c
        | None => CloseWith c NO_LISTENER "no listener for that protocol"
        end
    | _, _ => Noise
    end
  else Noise.

(** The rest of [dispatch]: the send happens after the lock is released. *)
Definition dispatch_send (id : nat) (c : Conn) (r : Registry) : Registry :=
  match inbounds r !! id with
  | None => r
  | Some ch =>
      mk_registry (protocols r) (alpns r) (<[id := (chan_send ch c).1]> (inbounds r)) (flags r)
        (fresh_id r)
  end.

(** ** The registry implements the interface *)

#[global] Program Instance registry_interface : AlpnRegistry Registry Registration := {|
  held r := dom (protocols r);
  registered_alpn := claim;
  register := register_alpn;
  release := drop_registration;
  refusals_of := refusals;
  store_refusal := set_refuse;
  next_inbound := try_accept;
  backlog g r := match inbounds r !! incoming g with Some c => length (queue c) | None => 0%nat end;
|}.
Next Obligation.
  intros a r Ha. apply not_elem_of_dom in Ha. unfold register_alpn, insert_protocol. rewrite Ha.
  do 2 eexists. split_and!; [done..|]. cbn. by rewrite dom_insert_L.
Qed.
Next Obligation.
  intros a r [p Hp]%elem_of_dom. unfold register_alpn, insert_protocol. by rewrite Hp.
Qed.
Next Obligation. intros g r. cbn. by rewrite dom_delete_L. Qed.
Next Obligation. done. Qed.
Next Obligation.
  intros g r. cbn. unfold try_accept. destruct (inbounds r !! incoming g) as [c|]; [|done].
  unfold chan_try_recv. by destruct (queue c).
Qed.
Next Obligation.
  intros g r. cbn. unfold try_accept. destruct (inbounds r !! incoming g) as [c|] eqn:Hc; [|done].
  unfold chan_try_recv. destruct (queue c) eqn:Hq; cbn; [done|]. by rewrite lookup_insert_eq.
Qed.

(** ** The dispatcher at work

    Claims are taken and dropped on the main thread and in tasks, so the steps
    here are what one lock makes atomic. A [System] is the registry with the
    registrations somebody holds, the connections [dispatch] has routed but not
    yet sent, and the threads inside [publish_alpns]. *)

(** A thread in [publish_alpns]: the keys it has taken, if it has, and the
    channel its registration drops afterwards, if it is dropping a whole one
    rather than a [Claim] on its own or taking one. *)
Record Publisher : Type := mk_publisher {
  collected : option (gset bytes);
  dropping : option nat;
}.

Record System : Type := mk_system {
  registry : Registry;
  live : list Registration;
  in_flight : list (nat * Conn);
  publishing : list Publisher;
}.

Definition drop_if (id : option nat) (r : Registry) : Registry :=
  match id with Some id => drop_inbound id r | None => r end.

Definition started : System := mk_system start [] [] [].

Section routing.
(** [connection.alpn()]: the protocol the two sides settled on. *)
Variable negotiated : Conn → bytes.

(** [serial] asks that no claim is taken or dropped while another thread is
    still publishing; the source does not. *)
Variable serial : bool.

Definition may_publish (ps : list Publisher) : Prop := serial = true → ps = [].

Inductive dispatch_step : System → System → Prop :=
  | step_claim a r r' g l f ps :
      may_publish ps → insert_protocol a r = (r', Some g) →
      dispatch_step (mk_system r l f ps) (mk_system r' (g :: l) f (ps ++ [mk_publisher None None]))
  | step_refused_claim a r r' l f ps :
      insert_protocol a r = (r', None) →
      dispatch_step (mk_system r l f ps) (mk_system r' l f ps)
  | step_release r l1 g l2 f ps d :
      may_publish ps → d = None ∨ d = Some (incoming g) →
      dispatch_step (mk_system r (l1 ++ g :: l2) f ps)
        (mk_system (remove_protocol (claim g) r) (l1 ++ l2) f (ps ++ [mk_publisher None d]))
  | step_collect r l f p1 d p2 :
      dispatch_step (mk_system r l f (p1 ++ mk_publisher None d :: p2))
        (mk_system r l f (p1 ++ mk_publisher (Some (collect_alpns r)) d :: p2))
  | step_publish r l f p1 a d p2 :
      dispatch_step (mk_system r l f (p1 ++ mk_publisher (Some a) d :: p2))
        (mk_system (drop_if d (set_alpns a r)) l f (p1 ++ p2))
  | step_set_refuse r l f ps g b :
      g ∈ l → dispatch_step (mk_system r l f ps) (mk_system (set_refuse (refusals g) b r) l f ps)
  | step_accept r l f ps g :
      g ∈ l → dispatch_step (mk_system r l f ps) (mk_system (try_accept g r).2 l f ps)
  | step_route r l f ps c id :
      dispatch_route true (Some (negotiated c)) (Some c) r = SendTo id c →
      dispatch_step (mk_system r l f ps) (mk_system r l ((id, c) :: f) ps)
  | step_send r l f1 id c f2 ps :
      dispatch_step (mk_system r l (f1 ++ (id, c) :: f2) ps)
                    (mk_system (dispatch_send id c r) l (f1 ++ f2) ps).

(** What [register] and [Drop for Registration] do when nothing comes between
    their steps. *)
Lemma register_run a r r' g l f :
  register_alpn a r = (r', Some g) →
  rtc dispatch_step (mk_system r l f []) (mk_system r' (g :: l) f []).
Proof.
  unfold register_alpn. destruct (insert_protocol a r) as [r1 [g1|]] eqn:Hi; [|done].
  intros [= <- <-]. eapply rtc_l; [by eapply step_claim|].
  eapply rtc_l; [apply (step_collect _ _ _ [])|]. eapply rtc_l; [apply (step_publish _ _ _ [])|].
  apply rtc_refl.
Qed.

Lemma drop_registration_run r l1 g l2 f :
  rtc dispatch_step (mk_system r (l1 ++ g :: l2) f [])
    (mk_system (drop_registration g r) (l1 ++ l2) f []).
Proof.
  eapply rtc_l; [eapply step_release; [done|by right]|].
  eapply rtc_l; [apply (step_collect _ _ _ [])|]. eapply rtc_l; [apply (step_publish _ _ _ [])|].
  apply rtc_refl.
Qed.

(** What a lone publisher is about to publish, or has published, is current. *)
Definition published (r : Registry) (ps : list Publisher) : Prop :=
  match ps with
  | [] => alpns r = collect_alpns r
  | [p] => ∀ a, collected p = Some a → a = collect_alpns r
  | _ => False
  end.

(** Every registration in the registry is held by somebody and the other way
    round, and a channel only ever carries connections for the ALPN it was made
    for. *)
Record routed (owner : nat → option bytes) (s : System) : Prop := {
  routed_alpns : serial = true → published (registry s) (publishing s);
  routed_live g : g ∈ live s →
    protocols (registry s) !! claim g = Some (mk_protocol (incoming g) (refusals g));
  routed_distinct : NoDup (claim <$> live s);
  routed_dom a : a ∈ dom (protocols (registry s)) → a ∈ claim <$> live s;
  routed_owner a p : protocols (registry s) !! a = Some p → owner (connections p) = Some a;
  routed_flags a p : protocols (registry s) !! a = Some p → refuse p = connections p;
  routed_fresh id : (fresh_id (registry s) ≤ id)%nat → owner id = None;
  routed_queue id ch c : inbounds (registry s) !! id = Some ch → c ∈ queue ch →
    owner id = Some (negotiated c);
  routed_flight id c : (id, c) ∈ in_flight s → owner id = Some (negotiated c);
}.

Lemma routed_start : routed (λ _, None) started.
Proof. split; cbn; try set_solver; try done. constructor. Qed.

Lemma routed_claim owner a r r' g l f ps :
  may_publish ps → insert_protocol a r = (r', Some g) → routed owner (mk_system r l f ps) →
  routed (λ id, if decide (id = fresh_id r) then Some a else owner id)
    (mk_system r' (g :: l) f (ps ++ [mk_publisher None None])).
Proof.
  intros Hps Hr [Ha Hl Hnd Hdom Hown Hfl Hfr Hq Hf]. cbn in *.
  unfold insert_protocol in Hr. destruct (protocols r !! a) eqn:Hp; simplify_eq.
  assert (a ∉ claim <$> l) as Hnew.
  { intros (g & -> & Hg)%list_elem_of_fmap. apply Hl in Hg. congruence. }
  split; cbn.
  - intros ->%Hps. done.
  - intros g [->|Hg]%elem_of_cons; cbn; [by rewrite lookup_insert_eq|].
    rewrite lookup_insert_ne; [by apply Hl|]. intros ->. apply Hnew, list_elem_of_fmap. eauto.
  - by constructor.
  - intros b. rewrite dom_insert_L. intros [->%elem_of_singleton|Hb]%elem_of_union; set_solver.
  - intros b p. destruct (decide (a = b)) as [->|Hne].
    + rewrite lookup_insert_eq. intros [= <-]. cbn. by rewrite decide_True.
    + rewrite lookup_insert_ne by done. intros Hb%Hown.
      rewrite decide_False; [done|]. intros Heq. rewrite Heq, Hfr in Hb; [done|lia].
  - intros b p. destruct (decide (a = b)) as [->|Hne].
    + rewrite lookup_insert_eq. by intros [= <-].
    + rewrite lookup_insert_ne by done. apply Hfl.
  - intros id Hid. rewrite decide_False by lia. apply Hfr. lia.
  - intros id ch c. destruct (decide (fresh_id r = id)) as [<-|Hne].
    + rewrite lookup_insert_eq. intros [= <-]. cbn. set_solver.
    + rewrite lookup_insert_ne, decide_False by done. apply Hq.
  - intros id c Hc. rewrite decide_False; [by apply Hf|].
    intros ->. apply Hf in Hc. rewrite Hfr in Hc; [done|lia].
Qed.

Lemma routed_release owner r l1 g l2 f ps d :
  may_publish ps → routed owner (mk_system r (l1 ++ g :: l2) f ps) →
  routed owner (mk_system (remove_protocol (claim g) r) (l1 ++ l2) f (ps ++ [mk_publisher None d])).
Proof.
  intros Hps [Ha Hl Hnd Hdom Hown Hfl Hfr Hq Hf]. cbn in *.
  rewrite fmap_app, fmap_cons in Hnd. apply NoDup_app in Hnd as (Hn1 & Hd & [Hg Hn2]%NoDup_cons).
  assert (∀ g', g' ∈ l1 ++ l2 → claim g' ≠ claim g) as Hother.
  { intros g' [Hg'|Hg']%elem_of_app Heq.
    - apply (Hd (claim g')); [apply list_elem_of_fmap; eauto|]. rewrite Heq. set_solver.
    - apply Hg. rewrite <- Heq. apply list_elem_of_fmap. eauto. }
  split; cbn; [|..|done|done].
  - intros ->%Hps. done.
  - intros g' Hg'. rewrite lookup_delete_ne by (symmetry; eauto). apply Hl. set_solver.
  - rewrite fmap_app. apply NoDup_app. split_and!; [done| |done]. set_solver.
  - intros b. rewrite dom_delete_L. intros [Hb Hne]%elem_of_difference.
    apply Hdom in Hb. rewrite fmap_app, fmap_cons in Hb. rewrite fmap_app. set_solver.
  - intros b p [_ Hb]%lookup_delete_Some. by apply Hown.
  - intros b p [_ Hb]%lookup_delete_Some. by apply (Hfl b).
  - done.
Qed.

(** Steps that leave the claims alone: what is published and what is queued may
    change. *)
Lemma routed_same_claims owner r r' l f f' ps ps' :
  routed owner (mk_system r l f ps) →
  protocols r' = protocols r → fresh_id r' = fresh_id r →
  (serial = true → published r' ps') →
  (∀ id ch c, inbounds r' !! id = Some ch → c ∈ queue ch → owner id = Some (negotiated c)) →
  (∀ id c, (id, c) ∈ f' → owner id = Some (negotiated c)) →
  routed owner (mk_system r' l f' ps').
Proof.
  intros [Ha Hl Hnd Hdom Hown Hfl Hfr Hq Hf] Hp Hfr' Hpub Hib Hf'. cbn in *.
  split; cbn; rewrite ?Hp, ?Hfr'; auto.
Qed.

Lemma routed_collect owner r l f p1 d p2 :
  routed owner (mk_system r l f (p1 ++ mk_publisher None d :: p2)) →
  routed owner (mk_system r l f (p1 ++ mk_publisher (Some (collect_alpns r)) d :: p2)).
Proof.
  intros Hs. apply (routed_same_claims _ _ _ _ _ _ _ _ Hs); try done; try apply Hs.
  intros Hser. pose proof (routed_alpns _ _ Hs Hser) as Ha. cbn in *.
  destruct p1 as [|? [|]], p2; cbn in *; try done. by intros ? [= <-].
Qed.

Lemma routed_publish owner r l f p1 a d p2 :
  routed owner (mk_system r l f (p1 ++ mk_publisher (Some a) d :: p2)) →
  routed owner (mk_system (drop_if d (set_alpns a r)) l f (p1 ++ p2)).
Proof.
  intros Hs.
  apply (routed_same_claims _ _ _ _ _ _ _ _ Hs); [by destruct d|by destruct d| | |apply Hs].
  - intros Hser. pose proof (routed_alpns _ _ Hs Hser) as Ha. cbn in *.
    destruct p1 as [|? [|]], p2; cbn in *; try done. rewrite (Ha a eq_refl). by destruct d.
  - intros id ch c. destruct d as [d|]; cbn; [|apply (routed_queue _ _ Hs)].
    rewrite lookup_alter. case_decide as Hid; [|apply (routed_queue _ _ Hs)].
    intros (ch' & Hch' & ->)%fmap_Some. cbn. set_solver.
Qed.

Lemma routed_accept owner r l f ps g :
  routed owner (mk_system r l f ps) → routed owner (mk_system (try_accept g r).2 l f ps).
Proof.
  intros Hs. unfold try_accept. destruct (inbounds r !! incoming g) as [ch|] eqn:Hch; [|done].
  unfold chan_try_recv. destruct (queue ch) as [|c q] eqn:Hqu;
    apply (routed_same_claims _ _ _ _ _ _ _ _ Hs); try done; try apply Hs; cbn.
  - rewrite insert_id by done. apply Hs.
  - intros id ch' c'. destruct (decide (incoming g = id)) as [<-|Hne].
    + rewrite lookup_insert_eq. intros [= <-] Hc. apply (routed_queue _ _ Hs _ ch); [done|].
      cbn in Hc. rewrite Hqu. set_solver.
    + rewrite lookup_insert_ne by done. apply Hs.
Qed.

Lemma routed_route owner r l f ps c id :
  dispatch_route true (Some (negotiated c)) (Some c) r = SendTo id c →
  routed owner (mk_system r l f ps) → routed owner (mk_system r l ((id, c) :: f) ps).
Proof.
  intros Hr Hs. apply (routed_same_claims _ _ _ _ _ _ _ _ Hs); try done; try apply Hs.
  intros id' c' [[= -> ->]|Hin]%elem_of_cons; [|by apply (routed_flight _ _ Hs)].
  cbn in Hr. destruct (protocols r !! negotiated c) as [p|] eqn:Hp; [|done].
  destruct (refusing p r); simplify_eq. by apply (routed_owner _ _ Hs) in Hp.
Qed.

Lemma routed_send owner r l f1 id c f2 ps :
  routed owner (mk_system r l (f1 ++ (id, c) :: f2) ps) →
  routed owner (mk_system (dispatch_send id c r) l (f1 ++ f2) ps).
Proof.
  intros Hs. assert (∀ id' c', (id', c') ∈ f1 ++ f2 → owner id' = Some (negotiated c')) as Hf.
  { intros id' c' Hin. apply (routed_flight _ _ Hs). cbn. set_solver. }
  unfold dispatch_send. destruct (inbounds r !! id) as [ch|] eqn:Hch;
    apply (routed_same_claims _ _ _ _ _ _ _ _ Hs); try done; try apply Hs; cbn.
  intros id' ch' c'. destruct (decide (id = id')) as [<-|Hne].
  - rewrite lookup_insert_eq. intros [= <-]. unfold chan_send.
    destruct (receiver_alive ch); cbn; rewrite ?elem_of_app, ?list_elem_of_singleton.
    + intros [Hc|Hc]; [by eapply (routed_queue _ _ Hs)|].
      subst. apply (routed_flight _ _ Hs). cbn. set_solver.
    + by eapply (routed_queue _ _ Hs).
  - rewrite lookup_insert_ne by done. apply Hs.
Qed.

Lemma routed_step owner s s' :
  dispatch_step s s' → routed owner s → ∃ owner', routed owner' s'.
Proof.
  destruct 1 as [? ? ? ? ? ? ? Hps Hi|a r r' ? ? ? Hi| | | | | | |]; intros Hs;
    eauto using routed_claim, routed_release, routed_collect, routed_publish, routed_accept,
      routed_route, routed_send; exists owner.
  - unfold insert_protocol in Hi. destruct (protocols r !! a); by simplify_eq.
  - by apply (routed_same_claims _ _ _ _ _ _ _ _ Hs); try done; apply Hs.
Qed.

Lemma routed_reachable s : rtc dispatch_step started s → ∃ owner, routed owner s.
Proof.
  intros Hr. apply (rtc_invariant dispatch_step (λ s, ∃ owner, routed owner s)) with started;
    [eauto using routed_start| |done].
  intros s1 s2 Hs [owner Ho]. eauto using routed_step.
Qed.
End routing.

(** ** Properties *)

(** C22: an ALPN has one owner at a time, whatever the order in which threads
    take and drop claims: no two live registrations share an ALPN, and claiming
    one succeeds exactly when no live registration holds it. As long as claims
    are not taken or dropped while another thread publishes, the ALPNs the
    endpoint negotiates are, between publications, exactly those claimed. *)
Theorem one_owner_per_alpn negotiated serial s :
  rtc (dispatch_step negotiated serial) started s →
  NoDup (claim <$> live s) ∧
  (∀ a, is_Some (register_alpn a (registry s)).2 ↔ a ∉ claim <$> live s) ∧
  (serial = true → publishing s = [] → ∀ a, a ∈ alpns (registry s) ↔ a ∈ claim <$> live s).
Proof.
  intros (owner & [Ha Hl Hnd Hdom Hown Hfl Hfr Hq Hf])%routed_reachable.
  assert (∀ a, a ∈ dom (protocols (registry s)) ↔ a ∈ claim <$> live s) as Hiff.
  { intros a. split; [apply Hdom|]. intros (g & -> & Hg%Hl)%list_elem_of_fmap.
    apply elem_of_dom. eauto. }
  split_and!; [done| |].
  - intros a. rewrite <- Hiff, not_elem_of_dom. unfold register_alpn, insert_protocol.
    destruct (protocols (registry s) !! a); cbn; split; try done; try (by intros [? ?]); eauto.
  - intros Hser Hps. specialize (Ha Hser). rewrite Hps in Ha. cbn in Ha. by rewrite Ha.
Qed.

Lemma one_owner_per_alpn_witness :
  let r1 := (register_alpn [x61] start).1 in
  let g1 := mk_registration [x61] 0 0 in
  NoDup (claim <$> [g1]) ∧
  (∀ a, is_Some (register_alpn a r1).2 ↔ a ∉ claim <$> [g1]) ∧
  (true = true → @nil Publisher = [] → ∀ a, a ∈ alpns r1 ↔ a ∈ claim <$> [g1]).
Proof.
  intros r1 g1. refine (one_owner_per_alpn (λ _, [x61]) true (mk_system r1 [g1] [] []) _).
  apply (register_run _ _ [x61]). reflexivity.
Defined.

(** Without that proviso a claim can stay unpublished: a thread that drops a
    claim takes the keys, another claims a second ALPN and publishes, and the
    first then publishes what it had. Nothing is left to do, the second ALPN is
    held, and the endpoint does not negotiate it. *)
Lemma stale_publication_hides_a_claim negotiated :
  ∃ s, rtc (dispatch_step negotiated false) started s ∧ publishing s = [] ∧
    claim <$> live s = [[x62]] ∧ alpns (registry s) = ∅.
Proof.
  eexists. split.
  { etrans; [apply (register_run _ _ [x61]); reflexivity|].
    eapply rtc_l; [apply (step_release _ _ _ []); [done|by right]|].
    eapply rtc_l; [apply (step_collect _ _ _ _ _ [])|].
    eapply rtc_l; [apply (step_claim _ _ [x62]); [done|reflexivity]|].
    eapply rtc_l; [apply (step_collect _ _ _ _ _ [_])|].
    eapply rtc_l; [apply (step_publish _ _ _ _ _ [_])|].
    eapply rtc_l; [apply (step_publish _ _ _ _ _ [])|]. apply rtc_refl. }
  by vm_compute.
Qed.

(** C21: connections are routed by the protocol both sides settled on. Whatever
    the order of claims, releases, publications, refusals, handshakes and sends,
    a connection waiting at a live registration negotiated that registration's
    ALPN; a connection routed before a claim was released never turns up at a
    registration for another protocol. *)
Theorem connections_reach_their_protocol negotiated s g ch c :
  rtc (dispatch_step negotiated false) started s →
  g ∈ live s → inbounds (registry s) !! incoming g = Some ch → c ∈ queue ch →
  negotiated c = claim g.
Proof.
  intros (owner & [Ha Hl Hnd Hdom Hown Hfl Hfr Hq Hf])%routed_reachable Hg Hch Hc.
  pose proof (Hq _ _ _ Hch Hc) as H1. apply Hl, Hown in Hg. cbn in Hg. congruence.
Qed.

Lemma connections_reach_their_protocol_witness :
  let neg := (λ c : Conn, if decide (c = 7%nat) then [x61] else [x62]) in
  neg 7%nat = claim (mk_registration [x61] 0 0).
Proof.
  intros neg.
  set (r1 := (register_alpn [x61] start).1).
  set (r2 := (register_alpn [x62] r1).1).
  refine (connections_reach_their_protocol neg
    (mk_system (dispatch_send 0%nat 7%nat r2) [mk_registration [x62] 1 1; mk_registration [x61] 0 0]
      [] [])
    (mk_registration [x61] 0 0) (mk_chan [7%nat] true) 7%nat _ _ _ _).
  - etrans; [apply (register_run _ _ [x61]); reflexivity|].
    etrans; [apply (register_run _ _ [x62]); reflexivity|].
    eapply rtc_l; [apply (step_route _ _ _ _ _ _ 7%nat); reflexivity|].
    eapply rtc_l; [apply (step_send _ _ _ _ [] 0%nat 7%nat [])|]. apply rtc_refl.
  - right; left.
  - reflexivity.
  - left.
Defined.

(** Who is turned away, and when. An attempt is refused before the
    handshake only when its offer could be read and names no protocol that is
    claimed and accepting; after the handshake the connection goes to the
    claimant of its ALPN unless that claimant is refusing (closed with code 2)
    or there is none (closed with code 1). So a protocol that starts to refuse
    mid-handshake still turns the peer away. *)
Lemma turned_away_exactly_when_unwanted r offer alpn c :
  (admits offer r = false ↔
     ∃ offered, offer = Some offered ∧ ∀ a, Some a ∈ offered → wanted r a = false) ∧
  (wanted r alpn = true →
     ∃ p, protocols r !! alpn = Some p ∧
       dispatch_route true (Some alpn) (Some c) r = SendTo (connections p) c) ∧
  (wanted r alpn = false →
     dispatch_route true (Some alpn) (Some c) r =
       match protocols r !! alpn with
       | Some _ => CloseWith c REFUSED "not accepting connections"
       | None => CloseWith c NO_LISTENER "no listener for that protocol"
       end).
Proof.
  split_and!.
  - unfold admits, offers_wanted_alpn. rewrite negb_false_iff, bool_decide_eq_true.
    destruct offer as [offered|]; [|by split; [|intros (? & ? & ?)]].
    split.
    + intros [= He]. exists offered. split; [done|]. intros a Ha.
      destruct (wanted r a) eqn:Hw; [|done]. rewrite <- He. symmetry.
      apply existsb_exists. exists (Some a). by rewrite <- list_elem_of_In.
    + intros (? & [= <-] & Hall). f_equal. apply not_true_iff_false.
      rewrite existsb_exists. intros ([a|] & Hin & Hw); [|done].
      rewrite Hall in Hw; [done|]. by apply list_elem_of_In.
  - unfold wanted, dispatch_route. destruct (protocols r !! alpn) as [p|]; [|done].
    destruct (refusing p r); [done|]. eauto.
  - unfold wanted, dispatch_route. destruct (protocols r !! alpn) as [p|]; [|done].
    by destruct (refusing p r).
Qed.
