(* ===== verification/Wire.v ===== *)
(** * Wire formats of a session ([session.rs])

    The data that crosses between two sessions: membership messages and their
    codec ([Control::encode], [Control::decode]), the framing of a
    unidirectional stream ([spawn_stream_writer], [read_stream]) and the
    datagram reader of [spawn_readers] with its staleness test. *)

From S2P Require Import Prelude.

(** ** Data *)

(** Protocol identifier: the bytes of [b"gdiroh/0"]. *)
Definition ALPN : bytes := [x67; x64; x69; x72; x6f; x68; x2f; x30].
Definition HOST_ID : Z := 1.
Definition CONTROL_CHANNEL : Z := i32_min.
Definition FIRST_CLIENT_ID : Z := 2.
Definition DATAGRAM_HEADER : Z := 8.

Inductive Mode : Type := Reliable | Unreliable | UnreliableOrdered.

#[export] Instance Mode_eq_dec : EqDecision Mode.
Proof. solve_decision. Defined.

Record Packet : Type := mk_packet {
  peer : Z;
  channel : Z;
  mode : Mode;
  data : bytes;
}.

Inductive Event : Type :=
  | Ready (id : Z)
  | PeerConnected (id : Z)
  | PeerDisconnected (id : Z)
  | PacketEvent (p : Packet)
  | Warning (text : string)
  | Closed (reason : string).

Inductive Control : Type :=
  | Welcome (your_id : Z) (peers : list Z)
  | PeerJoined (id : Z)
  | PeerLeft (id : Z).

Inductive Internal : Type :=
  | InternalControl (c : Control)
  | Lost (p : Z).

#[export] Instance Packet_eq_dec : EqDecision Packet.
Proof. solve_decision. Defined.
#[export] Instance Event_eq_dec : EqDecision Event.
Proof. solve_decision. Defined.
#[export] Instance Control_eq_dec : EqDecision Control.
Proof. solve_decision. Defined.

(** ** Membership messages *)

Definition encode (c : Control) : bytes :=
  match c with
  | Welcome your_id peers =>
      put_u8 1 ++ put_i32 your_id ++ put_u32 (to_u32 (len peers))
      ++ mjoin (put_i32 <$> peers)
  | PeerJoined id => put_u8 2 ++ put_i32 id
  | PeerLeft id => put_u8 3 ++ put_i32 id
  end.

(** [(0..count).map(|_| frame.get_i32()).collect()]. *)
Fixpoint get_i32s (count : nat) (frame : bytes) : option (list Z) :=
  match count with
  | O => Some []
  | S count =>
      '(x, frame) ← get_i32 frame;
      xs ← get_i32s count frame;
      Some (x :: xs)
  end.

(** A product of [usize]s of [bits] bits, in a release build. *)
Definition usize_mul (bits a b : Z) : Z := (a * b) mod 2 ^ bits.

(** The decoder on a target whose [usize] has [bits] bits, 32 at least. The outer
    option is the panic of a [get_*] on a short buffer, the inner one is the
    function's own result. *)
Definition decode_at (bits : Z) (frame : bytes) : option (option Control) :=
  if decide (frame = []) then Some None else
  '(tag, frame) ← get_u8 frame;
  if decide (tag = 1) then
    if decide (len frame < 8) then Some None else
    '(your_id, frame) ← get_i32 frame;
    '(count, frame) ← get_u32 frame;
    if decide (len frame < usize_mul bits count 4) then Some None else
    peers ← get_i32s (Z.to_nat count) frame;
    Some (Some (Welcome your_id peers))
  else if decide (tag = 2 ∧ 4 ≤ len frame) then
    '(id, _) ← get_i32 frame; Some (Some (PeerJoined id))
  else if decide (tag = 3 ∧ 4 ≤ len frame) then
    '(id, _) ← get_i32 frame; Some (Some (PeerLeft id))
  else Some None.

(** The rest of the development is about 64-bit targets. *)
Definition decode (frame : bytes) : option (option Control) := decode_at 64 frame.

(** What the type system of the source guarantees of a message, plus the bound
    under which [peers.len() as u32] does not wrap. *)
Definition control_wf (c : Control) : Prop :=
  match c with
  | Welcome your_id peers => is_i32 your_id ∧ Forall is_i32 peers ∧ is_u32 (len peers)
  | PeerJoined id | PeerLeft id => is_i32 id
  end.

#[export] Instance control_wf_dec c : Decision (control_wf c).
Proof. destruct c; cbn [control_wf]; apply _. Defined.

(** ** Streams *)

(** [stream.read_exact(&mut buffer)] with a buffer of [n] bytes, on the bytes
    that arrive before the stream ends or fails. *)
Definition read_exact (n : Z) (unread : bytes) : option (bytes * bytes) :=
  if decide (n ≤ len unread) then
    Some (take (Z.to_nat n) unread, drop (Z.to_nat n) unread)
  else None.

(** The state of a [read_stream] task. *)
Record Reader : Type := mk_reader {
  unread : bytes;
  events : Chan Event;
  internal : Chan Internal;
}.

(** The part of the loop after a frame was read; the boolean is whether the
    loop goes round again. *)
Definition route_frame (peer channel : Z) (frame : bytes) (r : Reader) : bool * Reader :=
  if decide (channel = CONTROL_CHANNEL) then
    match decode frame with
    | Some (Some control) =>
        let '(tx, ok) := chan_send (internal r) (InternalControl control) in
        (ok, mk_reader (unread r) (events r) tx)
    | _ => (true, r)
    end
  else
    let '(tx, ok) :=
      chan_send (events r) (PacketEvent (mk_packet peer channel Reliable frame)) in
    (ok, mk_reader (unread r) tx (internal r)).

(** One iteration of the loop. *)
Definition read_frame (peer channel : Z) (r : Reader) : bool * Reader :=
  match read_exact 4 (unread r) with
  | None => (false, r)
  | Some (length, rest) =>
      match get_u32 length with
      | None => (false, r)
      | Some (n, _) =>
          match read_exact n rest with
          | None => (false, r)
          | Some (frame, rest) =>
              route_frame peer channel frame (mk_reader rest (events r) (internal r))
          end
      end
  end.

(** The loop; [None] is running out of fuel. *)
Fixpoint read_loop (fuel : nat) (peer channel : Z) (r : Reader) : option Reader :=
  match fuel with
  | O => None
  | S fuel =>
      match read_frame peer channel r with
      | (true, r') => read_loop fuel peer channel r'
      | (false, r') => Some r'
      end
  end.

Definition read_stream (peer : Z) (r : Reader) : option Reader :=
  match read_exact 4 (unread r) with
  | None => Some r
  | Some (header, rest) =>
      match get_i32 header with
      | None => Some r
      | Some (channel, _) =>
          read_loop (S (length rest)) peer channel (mk_reader rest (events r) (internal r))
      end
  end.

(** A send stream that takes a given number of further bytes before its
    connection fails ([None]: it never fails), and what it has taken. *)
Record SendHalf : Type := mk_send_half {
  written : bytes;
  room : option nat;
}.

Definition write_all (s : SendHalf) (d : bytes) : SendHalf * bool :=
  match room s with
  | None => (mk_send_half (written s ++ d) None, true)
  | Some n =>
      if decide (length d ≤ n)%nat
      then (mk_send_half (written s ++ d) (Some (n - length d)%nat), true)
      else (mk_send_half (written s ++ take n d) (Some 0%nat), false)
  end.

(** [while let Some(frame) = frames.recv().await], over the frames queued until
    the channel closes. *)
Fixpoint write_frames (s : SendHalf) (frames : list bytes) : SendHalf :=
  match frames with
  | [] => s
  | frame :: frames =>
      let '(s, ok) := write_all s (put_u32 (to_u32 (len frame))) in
      if ok then
        let '(s, ok) := write_all s frame in
        if ok then write_frames s frames else s
      else s
  end.

(** The task [spawn_stream_writer] starts; [opened] is what [open_uni]
    returned. *)
Definition stream_writer (opened : option SendHalf) (channel : Z) (frames : list bytes)
  : option SendHalf :=
  match opened with
  | None => None
  | Some s =>
      let '(s, ok) := write_all s (put_i32 channel) in
      Some (if ok then write_frames s frames else s)
  end.

(** ** Datagrams *)

(** The frame built by [State::write_datagram]. *)
Definition datagram_bytes (channel sequence : Z) (payload : bytes) : bytes :=
  put_i32 channel ++ put_u32 sequence ++ payload.

(** [sequence < *seen && seen.wrapping_sub(sequence) < u32::MAX / 2]. *)
Definition is_stale (sequence seen : Z) : bool :=
  bool_decide (sequence < seen ∧ u32_wrapping_sub seen sequence < u32_max / 2).

(** One iteration of the datagram task of [spawn_readers]: the map of last seen
    sequence numbers and the packet handed on, if any. The outer option is a
    panic. *)
Definition read_datagram (peer : Z) (last : gmap Z Z) (datagram : bytes)
  : option (gmap Z Z * option Packet) :=
  if decide (len datagram < DATAGRAM_HEADER) then Some (last, None) else
  '(channel, datagram) ← get_i32 datagram;
  '(sequence, datagram) ← get_u32 datagram;
  if decide (sequence = 0) then
    Some (last, Some (mk_packet peer channel Unreliable datagram))
  else
    let seen := default 0 (last !! channel) in
    if is_stale sequence seen then Some (<[channel := seen]> last, None)
    else Some (<[channel := sequence]> last,
               Some (mk_packet peer channel UnreliableOrdered datagram)).

(** The task over the datagrams that arrive. *)
Fixpoint read_datagrams (peer : Z) (last : gmap Z Z) (ds : list bytes)
  : option (gmap Z Z * list Packet) :=
  match ds with
  | [] => Some (last, [])
  | d :: ds =>
      '(last, p) ← read_datagram peer last d;
      '(last, ps) ← read_datagrams peer last ds;
      Some (last, option_list p ++ ps)
  end.

(** The counter of [State::write_datagram]: zero is skipped on wrap. *)
Definition next_sequence (counter : Z) : Z := Z.max (u32_wrapping_add counter 1) 1.

(** ** The codec of membership messages *)

Lemma get_i32s_roundtrip peers rest :
  Forall is_i32 peers →
  get_i32s (length peers) (mjoin (put_i32 <$> peers) ++ rest) = Some peers.
Proof.
  induction 1 as [|x xs Hx _ IH]; [done|].
  rewrite mjoin_fmap_cons, <- app_assoc. cbn [length get_i32s].
  rewrite get_put_i32. cbn [mbind option_bind]. rewrite IH.
  by rewrite to_i32_small.
Qed.

Lemma get_i32s_total count frame :
  Z.of_nat count * 4 ≤ len frame → ∃ xs, get_i32s count frame = Some xs ∧
    length xs = count ∧ Forall is_i32 xs.
Proof.
  revert frame. induction count as [|count IH]; intros frame Hlen; [by exists []|].
  cbn [get_i32s].
  destruct (get_i32_some frame) as (x & -> & Hx); [unfold len in *; lia|]. cbn.
  destruct (IH (drop 4 frame)) as (xs & -> & <- & Hxs).
  { unfold len in *. rewrite length_drop. lia. }
  cbn. eauto using Forall_cons_2.
Qed.

Lemma len_peers peers : len (mjoin (put_i32 <$> peers)) = len peers * 4.
Proof.
  induction peers as [|x xs IH]; [done|].
  rewrite mjoin_fmap_cons, len_app, IH. unfold len. simpl. lia.
Qed.

(** The start of a [Welcome] says what its count is. *)
Lemma welcome_inj i n rest i' n' rest' :
  is_i32 i → is_i32 i' → is_u32 n → is_u32 n' →
  put_u8 1 ++ put_i32 i ++ put_u32 n ++ rest = put_u8 1 ++ put_i32 i' ++ put_u32 n' ++ rest' →
  i = i' ∧ n = n' ∧ rest = rest'.
Proof.
  intros Hi Hi' Hn Hn' [_ Heq]%app_inj_1; [|done].
  apply (f_equal get_i32) in Heq. rewrite !get_put_i32, !to_i32_small in Heq by done.
  apply (inj Some), pair_eq in Heq as [-> Heq].
  apply (f_equal get_u32) in Heq. rewrite !get_put_u32, !to_u32_small in Heq by done.
  by apply (inj Some), pair_eq in Heq as [-> ->].
Qed.

Lemma decode_tagged bits tag body :
  0 ≤ tag < 256 →
  decode_at bits (put_u8 tag ++ body) =
    (if decide (tag = 1) then
       if decide (len body < 8) then Some None else
       '(your_id, frame) ← get_i32 body;
       '(count, frame) ← get_u32 frame;
       if decide (len frame < usize_mul bits count 4) then Some None else
       peers ← get_i32s (Z.to_nat count) frame;
       Some (Some (Welcome your_id peers))
     else if decide (tag = 2 ∧ 4 ≤ len body) then
       '(id, _) ← get_i32 body; Some (Some (PeerJoined id))
     else if decide (tag = 3 ∧ 4 ≤ len body) then
       '(id, _) ← get_i32 body; Some (Some (PeerLeft id))
     else Some None).
Proof.
  intros Ht. unfold decode_at. rewrite decide_False by done.
  by rewrite get_put_u8.
Qed.

Lemma decode_welcome bits i n rest :
  is_i32 i → is_u32 n →
  decode_at bits (put_u8 1 ++ put_i32 i ++ put_u32 n ++ rest) =
    if decide (len rest < usize_mul bits n 4) then Some None
    else peers ← get_i32s (Z.to_nat n) rest; Some (Some (Welcome i peers)).
Proof.
  intros Hi Hn. rewrite decode_tagged, decide_True by lia.
  rewrite decide_False by (autorewrite with wire; unfold len; simpl; lia).
  rewrite get_put_i32. cbn [mbind option_bind]. rewrite get_put_u32. cbn [mbind option_bind].
  by rewrite to_i32_small, to_u32_small.
Qed.

(** 64 bits hold four times any count. *)
Lemma usize_mul_wide count : is_u32 count → usize_mul 64 count 4 = count * 4.
Proof. intros Hc. unfold usize_mul. apply Z.mod_small. unfold_ints. lia. Qed.

Lemma decode_encode_app c rest :
  control_wf c → decode (encode c ++ rest) = Some (Some c).
Proof.
  unfold decode.
  destruct c as [your_id peers|id|id]; cbn [control_wf encode].
  - intros (Hid & Hpeers & Hlen). rewrite <- !app_assoc, (to_u32_small (len peers)), decode_welcome by done.
    rewrite usize_mul_wide by done.
    rewrite decide_False by (rewrite len_app, len_peers; pose proof (len_nonneg rest); lia).
    replace (Z.to_nat (len peers)) with (length peers) by (unfold len; lia).
    by rewrite get_i32s_roundtrip.
  - intros Hid. rewrite <- app_assoc. rewrite decode_tagged by lia. cbn [decide].
    rewrite decide_False by lia.
    rewrite decide_True by (autorewrite with wire; unfold len; simpl; lia).
    rewrite get_put_i32. cbn. by rewrite to_i32_small.
  - intros Hid. rewrite <- app_assoc. rewrite decode_tagged by lia.
    rewrite !decide_False by lia.
    rewrite decide_True by (autorewrite with wire; unfold len; simpl; lia).
    rewrite get_put_i32. cbn. by rewrite to_i32_small.
Qed.

Lemma get_i32s_short count frame : len frame < Z.of_nat count * 4 → get_i32s count frame = None.
Proof.
  revert frame. induction count as [|count IH]; intros frame Hlen.
  { pose proof (len_nonneg frame). lia. }
  cbn [get_i32s]. destruct (decide (4 ≤ length frame)%nat) as [H4|H4].
  - destruct (get_i32_some frame H4) as (x & -> & _). cbn. rewrite IH; [done|].
    unfold len in *. rewrite length_drop. lia.
  - unfold get_i32. by destruct frame as [|? [|? [|? [|? ?]]]]; cbn in H4; try lia.
Qed.

(** A frame is empty, answered without looking at a count, or a [Welcome] with
    everything up to its ids. *)
Lemma decode_cases frame :
  (∃ r, (∀ bits, decode_at bits frame = Some r) ∧ ∀ c, r = Some c → control_wf c) ∨
  ∃ your_id count rest, is_i32 your_id ∧ is_u32 count ∧
    frame = put_u8 1 ++ put_i32 your_id ++ put_u32 count ++ rest ∧
    ∀ bits, decode_at bits frame =
      if decide (len rest < usize_mul bits count 4) then Some None
      else peers ← get_i32s (Z.to_nat count) rest; Some (Some (Welcome your_id peers)).
Proof.
  unfold decode_at. destruct frame as [|b body]; [left; by exists None|]. cbn [get_u8 mbind option_bind].
  case_decide; [done|]. case_decide as H1.
  - case_decide as Hlen; [left; by exists None|]. right.
    destruct (get_i32_some body) as (i & Hi & Hir); [unfold len in *; lia|].
    destruct (get_u32_some (drop 4 body)) as (n & Hn & Hnr); [rewrite length_drop; unfold len in *; lia|].
    exists i, n, (drop 4 (drop 4 body)). split_and!; [done|done| |intros bits; by rewrite Hi; cbn; rewrite Hn].
    rewrite <- (put_get_i32 _ _ _ Hi), <- (put_get_u32 _ _ _ Hn). rewrite <- H1. symmetry. by apply put_get_u8.
  - left. repeat case_decide; try (exists None; by split);
      (destruct (get_i32_some body) as (i & -> & Hi); [unfold len in *; lia|]);
      eexists; (split; [by intros bits|]); by intros c [= <-].
Qed.

(** The shape of every result of [decode]: no panic, and a decoded message has
    ids that are [i32]s and a peer count that fits its field. *)
Lemma decode_result frame :
  ∃ r, decode frame = Some r ∧ ∀ c, r = Some c → control_wf c.
Proof.
  unfold decode. destruct (decode_cases frame) as [(r & Hr & Hc)|(i & n & rest & Hi & Hn & _ & ->)]; [by eauto|].
  rewrite usize_mul_wide by done. case_decide; [by exists None|].
  destruct (get_i32s_total (Z.to_nat n) rest) as (xs & -> & Hl & Hxs); [unfold_ints; lia|].
  eexists. split; [done|]. intros c [= <-]. split_and!; [done..|].
  unfold len. rewrite Hl. unfold_ints. lia.
Qed.

(** ** Reading back what a stream writer wrote *)

(** The bytes of one frame, and of a whole stream. *)
Definition frame_bytes (frame : bytes) : bytes :=
  put_u32 (to_u32 (len frame)) ++ frame.

Definition stream_bytes (channel : Z) (frames : list bytes) : bytes :=
  put_i32 channel ++ mjoin (frame_bytes <$> frames).

#[global] Arguments frame_bytes : simpl never.
#[global] Arguments stream_bytes : simpl never.

(** What one frame becomes on the receiving side. *)
Definition deliver (peer channel : Z) (r : Reader) (frame : bytes) : Reader :=
  snd (route_frame peer channel frame r).

Definition with_unread (b : bytes) (r : Reader) : Reader :=
  mk_reader b (events r) (internal r).

Definition receivers_alive (r : Reader) : Prop :=
  receiver_alive (events r) = true ∧ receiver_alive (internal r) = true.

Lemma read_exact_app b rest : read_exact (len b) (b ++ rest) = Some (b, rest).
Proof.
  unfold read_exact. rewrite decide_True by (rewrite len_app; pose proof (len_nonneg rest); lia).
  replace (Z.to_nat (len b)) with (length b) by (unfold len; lia).
  by rewrite take_app_length, drop_app_length.
Qed.

Lemma read_exact_short n b : len b < n → read_exact n b = None.
Proof. intros. unfold read_exact. by rewrite decide_False by lia. Qed.

Lemma route_frame_alive peer channel frame r :
  receivers_alive r →
  route_frame peer channel frame r = (true, deliver peer channel r frame)
  ∧ receivers_alive (deliver peer channel r frame)
  ∧ unread (deliver peer channel r frame) = unread r.
Proof.
  intros [He Hi]. unfold deliver, route_frame, receivers_alive, chan_send.
  case_decide; [destruct (decode frame) as [[c|]|]|]; cbn;
    rewrite ?He, ?Hi; cbn; auto.
Qed.

Lemma deliver_with_unread peer channel r frame b :
  deliver peer channel (with_unread b r) frame = with_unread b (deliver peer channel r frame).
Proof.
  unfold deliver, route_frame, with_unread, chan_send. cbn.
  repeat case_match; simplify_eq; done.
Qed.

(** A frame that arrived whole is routed and the loop goes on after it. *)
Lemma read_frame_whole peer channel frame rest r :
  is_u32 (len frame) → receivers_alive r →
  read_frame peer channel (with_unread (frame_bytes frame ++ rest) r) =
    (true, with_unread rest (deliver peer channel r frame)).
Proof.
  intros Hlen Halive. unfold read_frame, frame_bytes. cbn [unread with_unread].
  rewrite <- app_assoc.
  change 4 with (len (put_u32 (to_u32 (len frame)))). rewrite read_exact_app.
  rewrite get_u32_put, !to_u32_small by auto using to_u32_range.
  rewrite read_exact_app.
  change (mk_reader rest _ _) with (with_unread rest r).
  destruct (route_frame_alive peer channel frame (with_unread rest r)) as (-> & _); [done|].
  by rewrite deliver_with_unread.
Qed.

(** A frame cut short ends the loop and delivers nothing. *)
Lemma read_frame_cut peer channel frame k r :
  is_u32 (len frame) → (k < length (frame_bytes frame))%nat →
  read_frame peer channel (with_unread (take k (frame_bytes frame)) r) =
    (false, with_unread (take k (frame_bytes frame)) r).
Proof.
  intros Hlen Hk. unfold read_frame. cbn [unread with_unread].
  destruct (decide (k < 4)%nat) as [Hk4|Hk4].
  { rewrite read_exact_short; [done|]. unfold len. rewrite length_take. lia. }
  unfold frame_bytes. rewrite take_app_ge by (rewrite length_put_u32; lia).
  change 4 with (len (put_u32 (to_u32 (len frame)))). rewrite read_exact_app.
  rewrite get_u32_put, !to_u32_small by auto using to_u32_range.
  rewrite read_exact_short; [done|].
  unfold frame_bytes in Hk. rewrite length_app, length_put_u32 in Hk.
  unfold len in *. rewrite length_take, length_put_u32. lia.
Qed.

Lemma read_loop_prefix peer channel frames k r fuel :
  Forall (λ f, is_u32 (len f)) frames → receivers_alive r →
  (k < fuel)%nat →
  ∃ delivered rest,
    delivered `prefix_of` frames ∧
    read_loop fuel peer channel (with_unread (take k (mjoin (frame_bytes <$> frames))) r) =
      Some (with_unread rest (foldl (deliver peer channel) r delivered)) ∧
    ((length (mjoin (frame_bytes <$> frames)) ≤ k)%nat → delivered = frames).
Proof.
  intros Hwf. revert k r fuel.
  induction Hwf as [|f fs Hf _ IH]; intros k r fuel Halive Hfuel;
    (destruct fuel as [|fuel]; [lia|]); cbn [read_loop].
  - exists [], []. split_and!; [done| |done].
    change (mjoin (frame_bytes <$> [])) with (@nil byte). rewrite take_nil.
    unfold read_frame. by rewrite read_exact_short.
  - rewrite mjoin_fmap_cons.
    assert (4 ≤ length (frame_bytes f))%nat as Hpos
      by (unfold frame_bytes; rewrite length_app, length_put_u32; lia).
    destruct (decide (k < length (frame_bytes f))%nat) as [Hk|Hk].
    + rewrite take_app_le by lia. rewrite read_frame_cut by done.
      exists [], (take k (frame_bytes f)). split_and!; [apply prefix_nil|done|].
      rewrite length_app. lia.
    + rewrite take_app_ge by lia. rewrite read_frame_whole by done.
      destruct (route_frame_alive peer channel f r Halive) as (_ & Halive' & _).
      destruct (IH (k - length (frame_bytes f))%nat (deliver peer channel r f) fuel)
        as (ds & rest & Hpre & -> & Hall); [done|lia|].
      exists (f :: ds), rest. split_and!; [by apply prefix_cons|done|].
      rewrite length_app. intros. f_equal. apply Hall. lia.
Qed.

(** What a writer leaves on a connection that may fail: a prefix of the stream,
    all of it when the connection does not fail. *)
Lemma write_all_spec s d s' ok :
  write_all s d = (s', ok) →
  ∃ taken, taken `prefix_of` d ∧ written s' = written s ++ taken ∧
    (ok = true → taken = d) ∧ (room s = None → ok = true ∧ room s' = None).
Proof.
  unfold write_all. intros Hw.
  destruct (room s) as [n|]; [case_decide|]; simplify_eq; cbn.
  - by exists d.
  - exists (take n d). split_and!; try done. apply prefix_take.
  - by exists d.
Qed.

Lemma write_frames_spec frames s :
  ∃ taken, taken `prefix_of` mjoin (frame_bytes <$> frames) ∧
    written (write_frames s frames) = written s ++ taken ∧
    (room s = None → taken = mjoin (frame_bytes <$> frames)).
Proof.
  revert s. induction frames as [|f fs IH]; intros s; cbn [write_frames].
  { exists []. by rewrite app_nil_r. }
  rewrite mjoin_fmap_cons. unfold frame_bytes at 1 3. rewrite <- app_assoc.
  destruct (write_all s _) as [s1 ok1] eqn:E1.
  apply write_all_spec in E1 as (t1 & Hp1 & Hw1 & Hok1 & Hr1).
  destruct ok1; cycle 1.
  { exists t1. split_and!; [by apply prefix_app_r|done|]. intros [? _]%Hr1. done. }
  rewrite Hok1 in Hw1 by done.
  destruct (write_all s1 f) as [s2 ok2] eqn:E2.
  apply write_all_spec in E2 as (t2 & Hp2 & Hw2 & Hok2 & Hr2).
  destruct ok2; cycle 1.
  { exists (put_u32 (to_u32 (len f)) ++ t2). split_and!.
    - by apply prefix_app, prefix_app_r.
    - by rewrite Hw2, Hw1, app_assoc.
    - intros [_ Hn]%Hr1. apply Hr2 in Hn as [? _]. done. }
  rewrite Hok2 in Hw2 by done.
  destruct (IH s2) as (t & Hp & Hw & Hr).
  exists (put_u32 (to_u32 (len f)) ++ f ++ t). split_and!.
  - by do 2 apply prefix_app.
  - by rewrite Hw, Hw2, Hw1, !app_assoc.
  - intros [_ Hn]%Hr1. apply Hr2 in Hn as [_ Hn]. by rewrite Hr.
Qed.

Lemma stream_writer_spec channel frames room s :
  stream_writer (Some (mk_send_half [] room)) channel frames = Some s →
  ∃ k, written s = take k (stream_bytes channel frames) ∧
    (room = None → length (stream_bytes channel frames) ≤ k)%nat.
Proof.
  unfold stream_writer. destruct (write_all _ _) as [s1 ok] eqn:E. intros [= <-].
  apply write_all_spec in E as (t & Hp & Hw & Hok & Hr). cbn in *.
  assert (∃ taken, taken `prefix_of` stream_bytes channel frames ∧
    written (if ok then write_frames s1 frames else s1) = taken ∧
    (room = None → taken = stream_bytes channel frames)) as (taken & [tl Htl] & -> & Hall).
  { destruct ok.
    - rewrite Hok in Hw by done. destruct (write_frames_spec frames s1) as (t' & Hp' & Hw' & Hr').
      exists (put_i32 channel ++ t'). split_and!.
      + by apply prefix_app.
      + by rewrite Hw', Hw.
      + intros [_ Hn]%Hr. by rewrite Hr'.
    - exists t. split_and!; [by apply prefix_app_r|done|]. intros [? _]%Hr. done. }
  exists (length taken). split.
  - by rewrite Htl, take_app_length.
  - intros Hn. by rewrite <- (Hall Hn).
Qed.

Lemma read_stream_prefix peer channel frames k r :
  is_i32 channel → Forall (λ f, is_u32 (len f)) frames → receivers_alive r →
  ∃ delivered rest,
    delivered `prefix_of` frames ∧
    read_stream peer (with_unread (take k (stream_bytes channel frames)) r) =
      Some (with_unread rest (foldl (deliver peer channel) r delivered)) ∧
    ((length (stream_bytes channel frames) ≤ k)%nat → delivered = frames).
Proof.
  intros Hc Hwf Halive. unfold read_stream, stream_bytes. cbn [unread with_unread].
  destruct (decide (k < 4)%nat) as [Hk|Hk].
  { exists [], (take k (put_i32 channel ++ mjoin (frame_bytes <$> frames))).
    split_and!; [apply prefix_nil| |].
    - rewrite read_exact_short; [done|]. unfold len. rewrite length_take. lia.
    - rewrite length_app, length_put_i32. lia. }
  rewrite take_app_ge by (rewrite length_put_i32; lia).
  change 4 with (len (put_i32 channel)). rewrite read_exact_app, get_i32_put.
  rewrite to_i32_small by done. change (mk_reader ?b _ _) with (with_unread b r).
  set (j := (k - length (put_i32 channel))%nat).
  set (body := mjoin (frame_bytes <$> frames)).
  replace (take j body) with (take (j `min` length body) body)
    by (destruct (decide (j ≤ length body)%nat);
        [by rewrite Nat.min_l by lia|rewrite Nat.min_r, !take_ge by lia; done]).
  destruct (read_loop_prefix peer channel frames (j `min` length body) r
    (S (length (take (j `min` length body) body)))) as (ds & rest & Hp & Hl & Hall); [done..| |].
  { rewrite length_take. lia. }
  exists ds, rest. split_and!; [done|done|].
  rewrite length_app, length_put_i32. intros. apply Hall.
  fold body. subst j. rewrite length_put_i32 in *. lia.
Qed.

Lemma deliver_data peer channel r ds :
  channel ≠ CONTROL_CHANNEL → receivers_alive r →
  foldl (deliver peer channel) r ds =
    mk_reader (unread r)
      (mk_chan (queue (events r) ++
                ((λ d, PacketEvent (mk_packet peer channel Reliable d)) <$> ds)) true)
      (internal r).
Proof.
  intros Hc. revert r. induction ds as [|d ds IH]; intros r [He Hi]; cbn [foldl].
  - rewrite app_nil_r. destruct r as [u [q a] i]; cbn in *. by subst.
  - rewrite IH by (by apply route_frame_alive).
    unfold deliver, route_frame, chan_send. rewrite decide_False, He by done. cbn.
    by rewrite <- app_assoc.
Qed.

Lemma deliver_control peer r cs :
  Forall control_wf cs → receivers_alive r →
  foldl (deliver peer CONTROL_CHANNEL) r (encode <$> cs) =
    mk_reader (unread r) (events r)
      (mk_chan (queue (internal r) ++ (InternalControl <$> cs)) true).
Proof.
  intros Hwf. revert r. induction Hwf as [|c cs Hc _ IH]; intros r [He Hi]; cbn [foldl fmap list_fmap].
  - rewrite app_nil_r. destruct r as [u e [q a]]; cbn in *. by subst.
  - rewrite IH by (by apply route_frame_alive).
    unfold deliver, route_frame, chan_send. rewrite decide_True by done.
    rewrite <- (app_nil_r (encode c)), decode_encode_app by done. cbn. rewrite Hi. cbn.
    by rewrite <- app_assoc.
Qed.

(** ** The datagram reader *)

Lemma read_datagram_framed peer last channel sequence payload :
  is_i32 channel → is_u32 sequence →
  read_datagram peer last (datagram_bytes channel sequence payload) =
    Some (if decide (sequence = 0) then
            (last, Some (mk_packet peer channel Unreliable payload))
          else
            let seen := default 0 (last !! channel) in
            if is_stale sequence seen then (<[channel := seen]> last, None)
            else (<[channel := sequence]> last,
                  Some (mk_packet peer channel UnreliableOrdered payload))).
Proof.
  intros Hc Hs. unfold read_datagram, datagram_bytes.
  rewrite decide_False by (autorewrite with wire; pose proof (len_nonneg payload);
    unfold len, DATAGRAM_HEADER; simpl; lia).
  rewrite get_put_i32. cbn [mbind option_bind].
  rewrite get_put_u32. cbn [mbind option_bind].
  rewrite to_i32_small, to_u32_small by done.
  by repeat case_match.
Qed.

Lemma read_datagram_result peer last d :
  ∃ last' p, read_datagram peer last d = Some (last', p) ∧
    (∀ q, p = Some q → Wire.peer q = peer ∧ is_i32 (Wire.channel q) ∧ mode q ≠ Reliable).
Proof.
  unfold read_datagram. case_decide as Hl; [by exists last, None|].
  unfold DATAGRAM_HEADER in Hl.
  destruct (get_i32_some d) as (c & -> & Hc); [unfold len in *; lia|].
  cbn [mbind option_bind].
  destruct (get_u32_some (drop 4 d)) as (s & -> & Hs); [rewrite length_drop; unfold len in *; lia|].
  cbn [mbind option_bind]. repeat case_match;
    do 2 eexists; (split; [done|]); intros q; try discriminate; intros [= <-]; done.
Qed.

(** The counter of the sender, after [n] ordered datagrams on one channel. *)
Definition nth_sequence (n : nat) : Z := Nat.iter n next_sequence 0.

Lemma next_sequence_range s : is_u32 s → 1 ≤ next_sequence s ≤ u32_max.
Proof. unfold next_sequence. ints. Qed.

Lemma nth_sequence_range n : is_u32 (nth_sequence n).
Proof.
  destruct n as [|n]; [by compute|].
  unfold nth_sequence. rewrite Nat.iter_succ.
  assert (is_u32 (Nat.iter n next_sequence 0)) as H.
  { induction n as [|n IH]; [by compute|]. rewrite Nat.iter_succ.
    pose proof (next_sequence_range _ IH). unfold_ints. lia. }
  pose proof (next_sequence_range _ H). unfold_ints. lia.
Qed.

Lemma next_sequence_fresh s : is_u32 s → is_stale (next_sequence s) s = false.
Proof. intros. unfold is_stale, next_sequence. apply bool_decide_eq_false. ints. Qed.

Lemma read_datagrams_cons peer last d ds :
  read_datagrams peer last (d :: ds) =
    ('(last, p) ← read_datagram peer last d;
     '(last, ps) ← read_datagrams peer last ds;
     Some (last, option_list p ++ ps)).
Proof. done. Qed.

(** [n] ordered datagrams written one after the other from counter [s]. *)
Fixpoint ordered_run (channel s : Z) (payloads : list bytes) : list bytes :=
  match payloads with
  | [] => []
  | p :: ps =>
      datagram_bytes channel (next_sequence s) p
      :: ordered_run channel (next_sequence s) ps
  end.

Lemma ordered_run_delivered peer channel s payloads last :
  is_i32 channel → is_u32 s → default 0 (last !! channel) = s →
  ∃ last', read_datagrams peer last (ordered_run channel s payloads) =
    Some (last', (λ d, mk_packet peer channel UnreliableOrdered d) <$> payloads).
Proof.
  intros Hc. revert s last. induction payloads as [|p ps IH]; intros s last Hs Hseen;
    cbn [ordered_run]; [by exists last|].
  rewrite read_datagrams_cons.
  pose proof (next_sequence_range s Hs) as Hn.
  rewrite read_datagram_framed by (unfold_ints; lia || done).
  rewrite decide_False by lia. cbv zeta. rewrite Hseen, next_sequence_fresh by done.
  cbn [mbind option_bind].
  destruct (IH (next_sequence s) (<[channel:=next_sequence s]> last)) as (last' & ->).
  { unfold_ints. lia. } { by rewrite lookup_insert_eq. }
  by exists last'.
Qed.

(** ** Properties *)

(** C34: the membership codec round-trips. Whatever follows the message in the
    frame, [decode] gives back the message [encode] was given, for every
    message whose ids are [i32]s and whose peer list has a length that fits
    the [u32] count. *)
Theorem control_roundtrip (c : Control) (rest : bytes) :
  control_wf c → decode (encode c ++ rest) = Some (Some c).
Proof. apply decode_encode_app. Qed.

Lemma control_roundtrip_witness :
  control_wf (Welcome 3 [2; -5]) ∧
  decode (encode (Welcome 3 [2; -5]) ++ [xff]) = Some (Some (Welcome 3 [2; -5])).
Proof.
  assert (control_wf (Welcome 3 [2; -5])) as H
    by by_decision.
  split; [exact H|]. apply (control_roundtrip (Welcome 3 [2; -5]) [xff] H).
Defined.

(** C39: which frames make the decoder panic. On a 64-bit target none does: every
    byte string gets an answer, and an answer that is a message has [i32] ids and no
    more peers than the [u32] count can say. On a 32-bit target the guard multiplies
    the count by four and wraps: the frames that panic are exactly the [Welcome]s
    whose count passes the wrapped guard but asks for more ids than follow, nine
    bytes of a count of 2^30 for instance. Any other frame gets the same answer
    there. *)
Theorem decoder_panics_where_the_count_wraps frame :
  (∃ r, decode frame = Some r ∧ ∀ c, r = Some c → control_wf c) ∧
  (decode_at 32 frame = None ↔ ∃ your_id count rest, is_i32 your_id ∧ is_u32 count ∧
     frame = put_u8 1 ++ put_i32 your_id ++ put_u32 count ++ rest ∧
     (count * 4) mod 2 ^ 32 ≤ len rest < count * 4) ∧
  (decode_at 32 frame = None ∨ decode_at 32 frame = decode frame).
Proof.
  split; [apply decode_result|]. unfold decode.
  destruct (decode_cases frame) as [(r & Hr & _)|(i & n & rest & Hi & Hn & Hf & Hd)].
  - rewrite !Hr. split; [|by right]. split; [done|]. intros (i & n & rest & Hi & Hn & -> & Hlen).
    specialize (Hr 32). rewrite decode_welcome, decide_False, get_i32s_short in Hr
      by (unfold usize_mul; try done; unfold_ints; lia). done.
  - rewrite !Hd, usize_mul_wide by done. unfold usize_mul.
    assert ((n * 4) mod 2 ^ 32 ≤ n * 4) as Hle by (apply Z.mod_le; unfold_ints; lia).
    pose proof (get_i32s_total (Z.to_nat n) rest) as Henough.
    pose proof (get_i32s_short (Z.to_nat n) rest) as Hshort.
    assert (Z.of_nat (Z.to_nat n) = n) as Hz by (unfold_ints; lia). rewrite Hz in *.
    destruct (decide (len rest < (n * 4) mod 2 ^ 32)) as [Hw|Hw];
      [|destruct (decide (len rest < n * 4)) as [Hw'|Hw']].
    + rewrite (decide_True (P := len rest < n * 4)) by lia. split; [|by right]. split; [done|].
      intros (i' & n' & rest' & Hi' & Hn' & Hf' & Hlen'). rewrite Hf in Hf'.
      apply welcome_inj in Hf' as (_ & -> & ->); try done. lia.
    + rewrite Hshort by done. split; [|by left]. split; [|done]. intros _. exists i, n, rest. split_and!; try done; lia.
    + destruct Henough as (xs & -> & _); [lia|]. split; [|by right]. split; [done|].
      intros (i' & n' & rest' & Hi' & Hn' & Hf' & Hlen'). rewrite Hf in Hf'.
      apply welcome_inj in Hf' as (_ & -> & ->); try done. lia.
Qed.

Example nine_bytes_panic : decode_at 32 [x01; x00; x00; x00; x02; x40; x00; x00; x00] = None.
Proof. reflexivity. Qed.

(** C15: reliable delivery. The frames queued to a stream writer come out of
    [read_stream] on the other side unchanged, in order, each once and on the
    channel they were queued on. If the connection fails after any number of
    bytes a prefix of them does, and never part of a frame. *)
Theorem reliable_delivery peer channel frames room s r :
  is_i32 channel → channel ≠ CONTROL_CHANNEL →
  Forall (λ f, is_u32 (len f)) frames → receivers_alive r →
  stream_writer (Some (mk_send_half [] room)) channel frames = Some s →
  ∃ delivered r', delivered `prefix_of` frames ∧
    read_stream peer (with_unread (written s) r) = Some r' ∧
    queue (events r') = queue (events r) ++
      ((λ d, PacketEvent (mk_packet peer channel Reliable d)) <$> delivered) ∧
    internal r' = internal r ∧
    (room = None → delivered = frames).
Proof.
  intros Hc Hcc Hwf Halive (k & -> & Hk)%stream_writer_spec.
  destruct (read_stream_prefix peer channel frames k r) as (ds & rest & Hp & Hr & Hall); [done..|].
  rewrite deliver_data in Hr by done.
  do 2 eexists. split_and!; [exact Hp|exact Hr|done|done|]. auto.
Qed.

Lemma reliable_delivery_witness :
  ∃ delivered r', delivered `prefix_of` [[x01; x02]; []; [xff]] ∧
    read_stream 2
      (with_unread (written (mk_send_half (stream_bytes 7 [[x01; x02]; []; [xff]]) None))
         (mk_reader [] unbounded_channel unbounded_channel)) = Some r' ∧
    queue (events r') = [] ++
      ((λ d, PacketEvent (mk_packet 2 7 Reliable d)) <$> delivered) ∧
    internal r' = unbounded_channel ∧
    (@None nat = None → delivered = [[x01; x02]; []; [xff]]).
Proof.
  refine (reliable_delivery 2 7 [[x01; x02]; []; [xff]] None _
    (mk_reader [] unbounded_channel unbounded_channel) _ _ _ _ _).
  - by_decision.
  - by_decision.
  - by_decision.
  - split; reflexivity.
  - reflexivity.
Defined.

(** membership messages written to the control stream of a link arrive, in
    order and unaltered, as the messages the session task applies. *)
Lemma control_delivery peer controls room s r :
  Forall control_wf controls → Forall (λ c, is_u32 (len (encode c))) controls →
  receivers_alive r →
  stream_writer (Some (mk_send_half [] room)) CONTROL_CHANNEL (encode <$> controls) = Some s →
  ∃ delivered r', delivered `prefix_of` controls ∧
    read_stream peer (with_unread (written s) r) = Some r' ∧
    queue (internal r') = queue (internal r) ++ (InternalControl <$> delivered) ∧
    events r' = events r ∧
    (room = None → delivered = controls).
Proof.
  intros Hwf Hlen Halive (k & -> & Hk)%stream_writer_spec.
  destruct (read_stream_prefix peer CONTROL_CHANNEL (encode <$> controls) k r)
    as (ds & rest & Hp & Hr & Hall);
    [by compute|by apply Forall_fmap|done|].
  assert (∃ cs, ds = encode <$> cs ∧ cs `prefix_of` controls) as (cs & -> & Hcs).
  { destruct Hp as [tl (cs & tls & Heq1 & Heq2 & ->)%fmap_app_inv].
    exists cs. split; [done|]. by exists tls. }
  rewrite deliver_control in Hr;
    [|destruct Hcs as [? ->]; by apply Forall_app in Hwf as [? _]|done].
  exists cs. eexists. split_and!; [exact Hcs|exact Hr|done|done|].
  intros Hn. destruct Hcs as [tl ->].
  assert (length (encode <$> cs) = length (encode <$> cs ++ tl)) as Hlen'
    by (by rewrite Hall by auto).
  rewrite fmap_app, length_app, !length_fmap in Hlen'.
  destruct tl; [by rewrite app_nil_r|simpl in *; lia].
Qed.

Lemma control_delivery_witness :
  ∃ delivered r', delivered `prefix_of` [Welcome 2 []; PeerJoined 3] ∧
    read_stream 1
      (with_unread (written (mk_send_half
          (stream_bytes CONTROL_CHANNEL (encode <$> [Welcome 2 []; PeerJoined 3])) None))
         (mk_reader [] unbounded_channel unbounded_channel)) = Some r' ∧
    queue (internal r') = [] ++ (InternalControl <$> delivered) ∧
    events r' = unbounded_channel ∧
    (@None nat = None → delivered = [Welcome 2 []; PeerJoined 3]).
Proof.
  refine (control_delivery 1 [Welcome 2 []; PeerJoined 3] None _
    (mk_reader [] unbounded_channel unbounded_channel) _ _ _ _).
  - by_decision.
  - by_decision.
  - split; reflexivity.
  - reflexivity.
Defined.

(** *** Termination *)

Lemma read_frame_shrinks peer channel r r' :
  read_frame peer channel r = (true, r') → (length (unread r') + 4 ≤ length (unread r))%nat.
Proof.
  unfold read_frame, read_exact. intros Hf.
  case_decide as H4; [|simplify_eq].
  destruct (get_u32 _) as [[n ?]|]; [|simplify_eq].
  case_decide as Hn; [|simplify_eq].
  assert (unread r' = drop (Z.to_nat n) (drop (Z.to_nat 4) (unread r))) as ->.
  { unfold route_frame, chan_send in Hf. repeat case_match; simplify_eq; done. }
  rewrite !length_drop. unfold len in *. lia.
Qed.

Lemma read_loop_total fuel peer channel r :
  (length (unread r) < fuel)%nat → ∃ r', read_loop fuel peer channel r = Some r'.
Proof.
  revert r. induction fuel as [|fuel IH]; intros r Hf; [lia|]. cbn [read_loop].
  destruct (read_frame peer channel r) as [[|] r'] eqn:E; [|by exists r'].
  apply read_frame_shrinks in E. apply IH. lia.
Qed.

(** [read_stream] terminates on every finite stream, whatever its bytes and
    whether or not the session still listens: the fuel the model gives it is
    enough, because every round of the loop consumes a length header. *)
Lemma read_stream_terminates peer r : ∃ r', read_stream peer r = Some r'.
Proof.
  unfold read_stream. destruct (read_exact 4 (unread r)) as [[header rest]|]; [|by exists r].
  destruct (get_i32 header) as [[channel ?]|]; [|by exists r].
  apply read_loop_total. cbn. lia.
Qed.

(** *** Ordered datagrams *)

(** Ordered datagrams that arrive in the order they were sent are all
    delivered, in order and marked as ordered, however many there are: the
    receiver's test accepts the sender's counter on every step, the step over
    the wrap included. *)
Lemma ordered_datagrams_in_order peer channel n payloads last :
  is_i32 channel → last !! channel = Some (nth_sequence n) →
  ∃ last', read_datagrams peer last (ordered_run channel (nth_sequence n) payloads) =
    Some (last', (λ d, mk_packet peer channel UnreliableOrdered d) <$> payloads).
Proof.
  intros Hc Hl. apply ordered_run_delivered; [done|apply nth_sequence_range|by rewrite Hl].
Qed.

Lemma ordered_datagrams_in_order_witness :
  ∃ last', read_datagrams 4 {[ 9 := nth_sequence 2 ]}
      (ordered_run 9 (nth_sequence 2) [[x61]; [x62]]) =
    Some (last', (λ d, mk_packet 4 9 UnreliableOrdered d) <$> [[x61]; [x62]]).
Proof.
  refine (ordered_datagrams_in_order 4 9 2 [[x61]; [x62]] {[ 9 := nth_sequence 2 ]} _ _).
  - by_decision.
  - reflexivity.
Defined.

(** The sequence number [k] steps after [s], in the cycle [1 .. u32::MAX]. *)
Definition advance (s k : Z) : Z := (s - 1 + k) mod u32_max + 1.

Lemma advance_one s : 1 ≤ s ≤ u32_max → advance s 1 = next_sequence s.
Proof.
  intros. unfold advance, next_sequence. unfold_ints.
  destruct (decide (s = 4294967295)) as [->|]; [done|].
  rewrite !Z.mod_small; lia.
Qed.

Lemma advance_next s k : 1 ≤ s ≤ u32_max → 0 ≤ k → advance (next_sequence s) k = advance s (1 + k).
Proof.
  intros. rewrite <- advance_one by done. unfold advance. f_equal.
  replace ((s - 1 + 1) mod u32_max + 1 - 1 + k) with ((s - 1 + 1) mod u32_max + k) by lia.
  rewrite Zplus_mod_idemp_l. f_equal. lia.
Qed.

(** C36: how far the order of a channel can be off. Of two datagrams, [k] apart in
    the cycle of numbers [1 .. u32::MAX]: with the earlier one delivered, the
    later one gets through whenever the gap is at most [2^31], however the
    counter wrapped, and is dropped exactly when it is longer and the counter
    wrapped; with the later one delivered, the earlier one is dropped exactly
    when it is less than [2^31 - 1] behind and the counter did not wrap between
    the two. A number the reader has seen is the last delivered one. *)
Theorem ordering_window peer last channel s k payload :
  is_i32 channel → 1 ≤ s ≤ u32_max → 1 ≤ k < u32_max →
  let delivered n := Some (<[channel := n]> last, Some (mk_packet peer channel UnreliableOrdered payload)) in
  let later := datagram_bytes channel (advance s k) payload in
  let earlier := datagram_bytes channel s payload in
  (last !! channel = Some s →
     read_datagram peer last later =
       if decide (2147483648 < k ∧ u32_max < s + k) then Some (last, None) else delivered (advance s k)) ∧
  (last !! channel = Some (advance s k) →
     read_datagram peer last earlier =
       if decide (k < 2147483647 ∧ s + k ≤ u32_max) then Some (last, None) else delivered s).
Proof.
  intros Hc Hs Hk delivered later earlier.
  assert (1 ≤ advance s k ≤ u32_max ∧ advance s k = if decide (u32_max < s + k) then s + k - u32_max else s + k)
    as [Ha He].
  { unfold advance. case_decide.
    - replace (s - 1 + k) with ((s - 1 + k - u32_max) + 1 * u32_max) by lia.
      rewrite Z.mod_add by (unfold_ints; lia). rewrite Z.mod_small by (unfold_ints; lia). unfold_ints. lia.
    - rewrite Z.mod_small by (unfold_ints; lia). unfold_ints. lia. }
  split; intros Hl; subst later earlier; rewrite read_datagram_framed by (unfold_ints; lia || done);
    rewrite decide_False, Hl by lia; cbv zeta; cbn [default from_option id].
  - assert (is_stale (advance s k) s = bool_decide (2147483648 < k ∧ u32_max < s + k)) as ->.
    { unfold is_stale. apply bool_decide_ext. rewrite He. clear - Hs Hk. unfold_ints.
      case_decide; Z.div_mod_to_equations; lia. }
    destruct (decide (2147483648 < k ∧ u32_max < s + k)) as [Hw|Hw];
      [rewrite bool_decide_true by exact Hw; by rewrite insert_id|by rewrite bool_decide_false by exact Hw].
  - assert (is_stale s (advance s k) = bool_decide (k < 2147483647 ∧ s + k ≤ u32_max)) as ->.
    { unfold is_stale. apply bool_decide_ext. rewrite He. clear - Hs Hk. unfold_ints.
      case_decide; Z.div_mod_to_equations; lia. }
    destruct (decide (k < 2147483647 ∧ s + k ≤ u32_max)) as [Hw|Hw];
      [rewrite bool_decide_true by exact Hw; by rewrite insert_id|by rewrite bool_decide_false by exact Hw].
Qed.

(** Number 4294967295, then 1: the first of them, late, gets through. *)
Lemma ordering_window_witness :
  let last : gmap Z Z := {[ 5 := 1 ]} in
  let delivered n := Some (<[5 := n]> last, Some (mk_packet 2 5 UnreliableOrdered [x41])) in
  let later := datagram_bytes 5 (advance 4294967295 1) [x41] in
  let earlier := datagram_bytes 5 4294967295 [x41] in
  (last !! 5 = Some 4294967295 →
     read_datagram 2 last later =
       if decide (2147483648 < 1 ∧ u32_max < 4294967295 + 1) then Some (last, None)
       else delivered (advance 4294967295 1)) ∧
  (last !! 5 = Some (advance 4294967295 1) →
     read_datagram 2 last earlier =
       if decide (1 < 2147483647 ∧ 4294967295 + 1 ≤ u32_max) then Some (last, None)
       else delivered 4294967295).
Proof.
  intros last. refine (ordering_window 2 last 5 4294967295 1 [x41] _ _ _); by_decision.
Defined.

(** The reference: keep a datagram unless it is older than the newest kept. *)
Fixpoint freshest (seen : Z) (l : list (Z * bytes)) : list (Z * bytes) :=
  match l with
  | [] => []
  | (s, p) :: l => if decide (s < seen) then freshest seen l else (s, p) :: freshest s l
  end.

Definition sent_on (channel : Z) (l : list (Z * bytes)) : list bytes :=
  (λ sp, datagram_bytes channel sp.1 sp.2) <$> l.

Lemma freshest_lower seen l : Forall (λ sp, seen ≤ sp.1) (freshest seen l).
Proof.
  revert seen. induction l as [|[s p] l IH]; intros seen; cbn; [done|].
  case_decide; [done|]. constructor; [cbn; lia|].
  eapply Forall_impl; [apply IH|]. cbn. lia.
Qed.

Lemma freshest_sorted seen l : StronglySorted Z.le (freshest seen l).*1.
Proof.
  revert seen. induction l as [|[s p] l IH]; intros seen; cbn; [constructor|].
  case_decide; [done|]. cbn. constructor; [apply IH|].
  apply Forall_fmap. eapply Forall_impl; [apply freshest_lower|]. done.
Qed.

(** C37: ordered means ordered. Within half of the counter's range, whatever
    order ordered datagrams arrive in and however many are lost or repeated, the
    receiver delivers exactly the ones that are not older than the newest
    already delivered, so the sequence numbers that reach the game never go
    down. *)
Theorem ordered_datagrams_delivery peer channel l last :
  is_i32 channel → Forall (λ sp, 1 ≤ sp.1 ≤ 2147483647) l →
  0 ≤ default 0 (last !! channel) ≤ 2147483647 →
  let kept := freshest (default 0 (last !! channel)) l in
  (∃ last', read_datagrams peer last (sent_on channel l) =
    Some (last', (λ sp, mk_packet peer channel UnreliableOrdered sp.2) <$> kept))
  ∧ StronglySorted Z.le kept.*1.
Proof.
  intros Hc Hl Hseen kept. split; [|apply freshest_sorted]. subst kept.
  revert last Hseen. induction Hl as [|[s p] l Hs _ IH]; intros last Hseen;
    cbn [sent_on freshest fmap list_fmap]; [by exists last|].
  cbn [fst snd] in *. rewrite read_datagrams_cons.
  rewrite read_datagram_framed by (unfold_ints; lia || done).
  rewrite decide_False by lia. cbv zeta.
  assert (is_stale s (default 0 (last !! channel)) =
    bool_decide (s < default 0 (last !! channel))) as ->.
  { unfold is_stale. apply bool_decide_ext. ints. }
  case_bool_decide; [rewrite decide_True by done|rewrite decide_False by done];
    cbn [mbind option_bind].
  - destruct (IH (<[channel := default 0 (last !! channel)]> last)) as (last' & Hr).
    { by rewrite lookup_insert_eq. }
    rewrite lookup_insert_eq in Hr. cbn [from_option id] in Hr. unfold sent_on in Hr.
    rewrite Hr. by exists last'.
  - destruct (IH (<[channel := s]> last)) as (last' & Hr).
    { rewrite lookup_insert_eq. cbn. lia. }
    rewrite lookup_insert_eq in Hr. cbn [from_option id] in Hr. unfold sent_on in Hr.
    rewrite Hr. by exists last'.
Qed.

Lemma ordered_datagrams_delivery_witness :
  (∃ last', read_datagrams 2 ∅ (sent_on 3 [(1, [x61]); (3, [x63]); (2, [x62]); (4, [x64])]) =
    Some (last', (λ sp, mk_packet 2 3 UnreliableOrdered sp.2) <$>
      freshest 0 [(1, [x61]); (3, [x63]); (2, [x62]); (4, [x64])]))
  ∧ StronglySorted Z.le (freshest 0 [(1, [x61]); (3, [x63]); (2, [x62]); (4, [x64])]).*1.
Proof.
  refine (ordered_datagrams_delivery 2 3 [(1, [x61]); (3, [x63]); (2, [x62]); (4, [x64])] ∅ _ _ _).
  - by_decision.
  - by_decision.
  - by_decision.
Defined.
