(* ===== verification/Session.v ===== *)
(** * The session task ([session.rs])

    [State] and its methods, the task [run] that owns it, and the handle
    [Session] the main thread holds. What the task does to the outside world
    (readers and writers it spawns, frames it queues to a writer, datagrams,
    closed connections) is recorded in order in [effects]; what it tells the main
    thread is recorded in [sent_events]. *)

From S2P Require Import Prelude Wire.
From S2P Require Dispatch.

Abbreviation Conn := Dispatch.Conn.

(** ** State *)

(** [reliable] maps a channel to the writer task that serves it; the sender half
    of a writer's queue is the writer's number. *)
Record Link : Type := mk_link {
  connection : Conn;
  reliable : gmap Z nat;
  sequences : gmap Z Z;
  warned : gset Z;
}.

Inductive Effect : Type :=
  | SpawnReaders (peer : Z) (c : Conn)
  | SpawnStreamWriter (w : nat) (c : Conn) (channel : Z)
  | QueueFrame (w : nat) (frame : bytes)
  | SendDatagram (c : Conn) (datagram : bytes)
  | CloseConnection (c : Conn) (code : Z) (reason : string).

Record State : Type := mk_state {
  sent_events : list Event;
  effects : list Effect;
  is_host : bool;
  links : gmap Z Link;
  announced : gset Z;
  connections : gmap Z Conn;
  next_writer : nat;
}.

Definition set_links (ls : gmap Z Link) (st : State) : State :=
  mk_state (sent_events st) (effects st) (is_host st) ls (announced st) (connections st)
    (next_writer st).

Definition set_announced (a : gset Z) (st : State) : State :=
  mk_state (sent_events st) (effects st) (is_host st) (links st) a (connections st)
    (next_writer st).

Definition set_connections (cs : gmap Z Conn) (st : State) : State :=
  mk_state (sent_events st) (effects st) (is_host st) (links st) (announced st) cs
    (next_writer st).

(** [let _ = self.events.send(event)]. *)
Definition send_event (e : Event) (st : State) : State :=
  mk_state (sent_events st ++ [e]) (effects st) (is_host st) (links st) (announced st)
    (connections st) (next_writer st).

Definition perform (e : Effect) (st : State) : State :=
  mk_state (sent_events st) (effects st ++ [e]) (is_host st) (links st) (announced st)
    (connections st) (next_writer st).

(** ** Methods of [State] *)

Definition add_link (peer : Z) (c : Conn) (st : State) : State :=
  st |> set_connections (<[peer := c]> (connections st))
     |> perform (SpawnReaders peer c)
     |> set_links (<[peer := mk_link c ∅ ∅ ∅]> (links st)).

Definition announce (peer : Z) (st : State) : State :=
  if decide (peer ∈ announced st) then st
  else st |> set_announced ({[peer]} ∪ announced st) |> send_event (PeerConnected peer).

Definition forget (peer : Z) (st : State) : State :=
  if decide (peer ∈ announced st) then
    st |> set_announced (announced st ∖ {[peer]}) |> send_event (PeerDisconnected peer)
  else st.

(** [link.reliable.entry(channel).or_insert_with(..)]: the writer of a channel,
    spawned on first use. *)
Definition writer_for (peer channel : Z) (link : Link) (st : State) : nat * State :=
  match reliable link !! channel with
  | Some w => (w, st)
  | None =>
      let w := next_writer st in
      let link' := mk_link (connection link) (<[channel := w]> (reliable link))
                     (sequences link) (warned link) in
      (w, mk_state (sent_events st) (effects st ++ [SpawnStreamWriter w (connection link) channel])
            (is_host st) (<[peer := link']> (links st)) (announced st) (connections st) (S w))
  end.

Definition write_reliable (peer channel : Z) (data : bytes) (st : State) : State :=
  match links st !! peer with
  | None => st
  | Some link =>
      let '(w, st) := writer_for peer channel link st in
      perform (QueueFrame w data) st
  end.

Definition control_to (peer : Z) (control : Control) (st : State) : State :=
  write_reliable peer CONTROL_CHANNEL (encode control) st.

Definition oversize_warning (size limit channel : Z) : string :=
  "packet of " +:+ pretty size +:+ " bytes exceeds the "
  +:+ pretty (usize_saturating_sub limit DATAGRAM_HEADER)
  +:+ " byte datagram limit on channel " +:+ pretty channel
  +:+ "; sending it reliably instead".

Section oracle.
(** [connection.max_datagram_size()]: it follows the path, so every call of a
    method is given the sizes of the moment. *)
Variable max_datagram_size : Conn → option Z.

Definition write_datagram (peer channel : Z) (mode : Mode) (data : bytes) (st : State) : State :=
  match links st !! peer with
  | None => st
  | Some link =>
      let '(sequence, link) :=
        if decide (mode = UnreliableOrdered) then
          let counter := next_sequence (default 0 (sequences link !! channel)) in
          (counter, mk_link (connection link) (reliable link)
                      (<[channel := counter]> (sequences link)) (warned link))
        else (0, link) in
      let framed := datagram_bytes channel sequence data in
      let limit := default 0 (max_datagram_size (connection link)) in
      if decide (limit < len framed) then
        let link' := mk_link (connection link) (reliable link) (sequences link)
                       ({[channel]} ∪ warned link) in
        let st := set_links (<[peer := link']> (links st)) st in
        let st := if decide (channel ∈ warned link) then st
                  else send_event (Warning (oversize_warning (len data) limit channel)) st in
        write_reliable peer channel data st
      else
        st |> set_links (<[peer := link]> (links st))
           |> perform (SendDatagram (connection link) framed)
  end.

Definition send_one (peer channel : Z) (mode : Mode) (data : bytes) (st : State) : State :=
  match mode with
  | Reliable => write_reliable peer channel data st
  | Unreliable | UnreliableOrdered => write_datagram peer channel mode data st
  end.

Context `{HashOrder}.

Definition send (target channel : Z) (mode : Mode) (data : bytes) (st : State) : State :=
  if decide (target ≤ 0) then
    let excluded := i32_neg target in
    let peers := base.filter (λ peer, peer ≠ excluded) (hash_keys (links st)) in
    foldl (λ st peer, send_one peer channel mode data st) st peers
  else
    let peer := if decide (is_Some (links st !! target)) then target else HOST_ID in
    send_one peer channel mode data st.
End oracle.

Section methods.
Context `{HashOrder}.

Definition welcome (peer : Z) (c : Conn) (st : State) : State :=
  let existing := hash_keys (links st) in
  let st := st |> add_link peer c |> control_to peer (Welcome peer existing) in
  let st := foldl (λ st other, control_to other (PeerJoined peer) st) st existing in
  announce peer st.

Definition apply (control : Control) (st : State) : State :=
  match control with
  | Welcome your_id peers =>
      let st := st |> send_event (Ready your_id) |> announce HOST_ID in
      foldl (λ st peer, announce peer st) st peers
  | PeerJoined id => announce id st
  | PeerLeft id => forget id st
  end.

Definition lost (peer : Z) (st : State) : State :=
  match links st !! peer with
  | None => st
  | Some _ =>
      let st := st |> set_links (delete peer (links st))
                   |> set_connections (delete peer (connections st))
                   |> forget peer in
      if is_host st then
        foldl (λ st other, control_to other (PeerLeft peer) st) st (hash_keys (links st))
      else if decide (peer = HOST_ID) then send_event (Closed "host disconnected") st
      else st
  end.

Definition drop_link (peer : Z) (st : State) : State :=
  match links st !! peer with
  | None => st
  | Some link => perform (CloseConnection (connection link) 0 "disconnected") st
  end.

(** ** The task *)

Inductive Command : Type :=
  | Send (target channel : Z) (mode : Mode) (data : bytes)
  | Disconnect (peer : Z)
  | Close.

(** One arm of the [select!] that fired. *)
Inductive Input : Type :=
  | OnCommand (c : option Command)
  | OnInternal (m : option Internal)
  | OnConnection (c : option Conn).

Record Task : Type := mk_task {
  state : State;
  inbound : bool;
  next_id : Z;
  running : bool;
}.

Definition with_state (st : State) (t : Task) : Task :=
  mk_task st (inbound t) (next_id t) (running t).

(** [for (_, link) in state.links.drain()]. *)
Definition close_all (st : State) : State :=
  foldl (λ st peer,
    match links st !! peer with
    | None => st
    | Some link => perform (CloseConnection (connection link) 0 "closing") st
    end) st (hash_keys (links st)).

(** What follows the loop. *)
Definition finish (t : Task) : Task :=
  let st := close_all (state t) in
  mk_task (st |> set_links ∅ |> send_event (Closed "session closed")) false (next_id t) false.

Definition step (max_datagram_size : Conn → option Z) (t : Task) (i : Input) : Task :=
  if running t then
    match i with
    | OnCommand (Some (Send target channel mode data)) =>
        with_state (send max_datagram_size target channel mode data (state t)) t
    | OnCommand (Some (Disconnect peer)) => with_state (drop_link peer (state t)) t
    | OnCommand (Some Close) | OnCommand None => finish t
    | OnInternal (Some (InternalControl control)) => with_state (apply control (state t)) t
    | OnInternal (Some (Lost peer)) => with_state (lost peer (state t)) t
    | OnInternal None => finish t
    | OnConnection c =>
        (* [accept_next] never yields without a registration *)
        if inbound t then
          match c with
          | Some c =>
              mk_task (welcome (next_id t) c (state t)) (inbound t)
                (Z.max (i32_wrapping_add (next_id t) 1) FIRST_CLIENT_ID) (running t)
          | None => mk_task (state t) false (next_id t) (running t)
          end
        else t
    end
  else t.

Definition empty_state (host : bool) : State := mk_state [] [] host ∅ ∅ ∅ 0.

(** The start of [run]: a host is ready at once, a client dials first.
    [dialled] is what [endpoint.connect] returned. *)
Definition run_host : Task :=
  mk_task (send_event (Ready HOST_ID) (empty_state true)) true FIRST_CLIENT_ID true.

Definition run_client (dialled : Conn + string) : Task :=
  match dialled with
  | inl c => mk_task (add_link HOST_ID c (empty_state false)) false FIRST_CLIENT_ID true
  | inr err =>
      mk_task (send_event (Closed err) (empty_state false)) false FIRST_CLIENT_ID false
  end.

(** A run: each round of the loop sees the datagram sizes of its moment. *)
Definition run (t : Task) (inputs : list ((Conn → option Z) * Input)) : Task :=
  foldl (λ t i, step i.1 t i.2) t inputs.
End methods.

(** ** What the writing methods leave alone

    Sending touches the writers, the counters and the outside world, but not
    who is a member. [same_members] says so, and composes. *)

(** What the main thread was told about one peer, in order: [true] for
    connected, [false] for disconnected. *)
Definition presence (p : Z) (evs : list Event) : list bool :=
  omap (λ e, match e with
             | PeerConnected q => if decide (q = p) then Some true else None
             | PeerDisconnected q => if decide (q = p) then Some false else None
             | _ => None
             end) evs.

#[global] Arguments presence : simpl never.

Lemma presence_connected p q :
  presence p [PeerConnected q] = if decide (q = p) then [true] else [].
Proof. unfold presence. cbn. by case_decide. Qed.

Lemma presence_disconnected p q :
  presence p [PeerDisconnected q] = if decide (q = p) then [false] else [].
Proof. unfold presence. cbn. by case_decide. Qed.

Record same_members (st st' : State) : Prop := {
  same_host : is_host st' = is_host st;
  same_links : connection <$> links st' = connection <$> links st;
  same_announced : announced st' = announced st;
  same_connections : connections st' = connections st;
  same_presence p : presence p (sent_events st') = presence p (sent_events st);
}.

#[export] Instance same_members_preorder : PreOrder same_members.
Proof.
  split; [by intros st; split|].
  intros st1 st2 st3 [] []. split; intros; etrans; eauto.
Qed.

Lemma same_members_dom st st' : same_members st st' → dom (links st') = dom (links st).
Proof.
  intros [_ Hl _ _ _]. rewrite <- (dom_fmap_L connection (links st')), Hl.
  apply dom_fmap_L.
Qed.

Lemma same_members_foldl {A} (f : State → A → State) l st :
  (∀ st x, same_members st (f st x)) → same_members st (foldl f st l).
Proof.
  intros Hf. apply (foldl_preserves f (same_members st)); [done|].
  intros st' x H. etrans; [exact H|apply Hf].
Qed.

Lemma presence_snoc p evs e :
  presence p (evs ++ [e]) = presence p evs ++ presence p [e].
Proof. apply omap_app. Qed.

Lemma perform_same e st : same_members st (perform e st).
Proof. by split. Qed.

Lemma set_link_same peer link link' st :
  links st !! peer = Some link → connection link' = connection link →
  same_members st (set_links (<[peer := link']> (links st)) st).
Proof.
  intros Hl Hc. split; try done. cbn. rewrite fmap_insert, Hc.
  apply insert_id. by rewrite lookup_fmap, Hl.
Qed.

Lemma writer_for_same peer channel link st :
  links st !! peer = Some link → same_members st (writer_for peer channel link st).2.
Proof.
  intros Hl. unfold writer_for. destruct (reliable link !! channel); cbn; [done|].
  split; try done. cbn. rewrite fmap_insert. cbn.
  apply insert_id. by rewrite lookup_fmap, Hl.
Qed.

Lemma write_reliable_same peer channel data st :
  same_members st (write_reliable peer channel data st).
Proof.
  unfold write_reliable. destruct (links st !! peer) as [link|] eqn:Hl; [|done].
  pose proof (writer_for_same peer channel link st Hl) as Hw.
  destruct (writer_for peer channel link st) as [w st'].
  etrans; [exact Hw|apply perform_same].
Qed.

Lemma control_to_same peer control st : same_members st (control_to peer control st).
Proof. apply write_reliable_same. Qed.

Lemma warning_same text st : same_members st (send_event (Warning text) st).
Proof. split; try done. intros p. cbn. rewrite presence_snoc. apply app_nil_r. Qed.

Lemma write_datagram_same mds peer channel mode data st :
  same_members st (write_datagram mds peer channel mode data st).
Proof.
  unfold write_datagram. destruct (links st !! peer) as [link|] eqn:Hl; [|done].
  set (seq_link := if decide (mode = UnreliableOrdered) then _ else _).
  assert (connection seq_link.2 = connection link) as Hc
    by (subst seq_link; by case_decide).
  destruct seq_link as [s link1]; cbn in Hc.
  case_decide.
  - set (link' := mk_link _ _ _ _).
    assert (same_members st (set_links (<[peer := link']> (links st)) st)) as H1
      by (by apply (set_link_same _ link)).
    case_decide.
    + etrans; [exact H1|apply write_reliable_same].
    + etrans; [exact H1|]. etrans; [apply warning_same|apply write_reliable_same].
  - etrans; [by apply (set_link_same peer link link1)|apply perform_same].
Qed.

Lemma send_one_same mds peer channel mode data st :
  same_members st (send_one mds peer channel mode data st).
Proof. destruct mode; [apply write_reliable_same|apply write_datagram_same..]. Qed.

Lemma send_same `{HashOrder} mds target channel mode data st :
  same_members st (send mds target channel mode data st).
Proof.
  unfold send. case_decide; [apply same_members_foldl; intros|]; apply send_one_same.
Qed.

Lemma drop_link_same peer st : same_members st (drop_link peer st).
Proof.
  unfold drop_link. destruct (links st !! peer); [apply perform_same|done].
Qed.

#[export] Hint Resolve perform_same write_reliable_same control_to_same write_datagram_same
  send_one_same send_same drop_link_same warning_same : gdiroh.

(** ** Announcements

    [present l] runs the two-state automaton of one peer: a connect is only
    legal while absent, a disconnect only while present. *)

Fixpoint present (now : bool) (l : list bool) : option bool :=
  match l with
  | [] => Some now
  | b :: l => if eqb b now then None else present b l
  end.

Lemma present_snoc now l b :
  present now (l ++ [b]) =
    match present now l with
    | Some n => if eqb b n then None else Some b
    | None => None
    end.
Proof.
  revert now. induction l as [|c l IH]; intros now; cbn; [done|].
  destruct (eqb c now); [done|apply IH].
Qed.

(** For every peer the history is legal and ends where [announced] says. *)
Definition announcements_ok (st : State) : Prop :=
  ∀ p, present false (presence p (sent_events st)) = Some (bool_decide (p ∈ announced st)).

Lemma announcements_same st st' :
  same_members st st' → announcements_ok st → announcements_ok st'.
Proof. intros [_ _ Ha _ Hp] Hok p. by rewrite Hp, Ha. Qed.

Lemma announcements_other e st :
  (∀ p, presence p [e] = []) → announcements_ok st → announcements_ok (send_event e st).
Proof. intros He Hok p. cbn. by rewrite presence_snoc, He, app_nil_r. Qed.

Lemma announcements_announce peer st :
  announcements_ok st → announcements_ok (announce peer st).
Proof.
  intros Hok p. unfold announce. case_decide as Hin; [apply Hok|]. cbn.
  rewrite presence_snoc, presence_connected. case_decide as Hp; [subst|].
  - rewrite present_snoc, Hok, bool_decide_false by done. cbn.
    by rewrite bool_decide_true by set_solver.
  - rewrite app_nil_r, Hok. f_equal. apply bool_decide_ext. set_solver.
Qed.

Lemma announcements_forget peer st :
  announcements_ok st → announcements_ok (forget peer st).
Proof.
  intros Hok p. unfold forget. case_decide as Hin; [|apply Hok]. cbn.
  rewrite presence_snoc, presence_disconnected. case_decide as Hp; [subst|].
  - rewrite present_snoc, Hok, bool_decide_true by done. cbn.
    by rewrite bool_decide_false by set_solver.
  - rewrite app_nil_r, Hok. f_equal. apply bool_decide_ext. set_solver.
Qed.

Lemma announcements_foldl {A} (f : State → A → State) l st :
  (∀ st x, announcements_ok st → announcements_ok (f st x)) →
  announcements_ok st → announcements_ok (foldl f st l).
Proof. intros Hf Hst. by apply foldl_preserves. Qed.

#[export] Hint Resolve announcements_announce announcements_forget : gdiroh.

(** ** Invariants of the task *)

(** The map shared with the main thread lists exactly the live links. *)
Definition mirrored (st : State) : Prop := connections st = connection <$> links st.

Lemma mirrored_same st st' : same_members st st' → mirrored st → mirrored st'.
Proof. intros [_ Hl _ Hc _] H. unfold mirrored. by rewrite Hc, Hl. Qed.

Lemma mirrored_add_link peer c st : mirrored st → mirrored (add_link peer c st).
Proof. intros H. unfold mirrored in *. cbn. by rewrite fmap_insert, H. Qed.

Lemma announce_links peer st :
  links (announce peer st) = links st ∧ connections (announce peer st) = connections st
  ∧ is_host (announce peer st) = is_host st ∧ effects (announce peer st) = effects st
  ∧ next_writer (announce peer st) = next_writer st
  ∧ announced (announce peer st) = {[peer]} ∪ announced st.
Proof. unfold announce. case_decide; cbn; split_and!; try done. set_solver. Qed.

Lemma forget_links peer st :
  links (forget peer st) = links st ∧ connections (forget peer st) = connections st
  ∧ is_host (forget peer st) = is_host st ∧ effects (forget peer st) = effects st
  ∧ next_writer (forget peer st) = next_writer st
  ∧ announced (forget peer st) = announced st ∖ {[peer]}.
Proof. unfold forget. case_decide; cbn; split_and!; try done. set_solver. Qed.

Lemma mirrored_announce peer st : mirrored st → mirrored (announce peer st).
Proof.
  intros H. unfold mirrored in *. by destruct (announce_links peer st) as (-> & -> & _).
Qed.

Lemma mirrored_forget peer st : mirrored st → mirrored (forget peer st).
Proof.
  intros H. unfold mirrored in *. by destruct (forget_links peer st) as (-> & -> & _).
Qed.

#[export] Hint Resolve mirrored_add_link mirrored_announce mirrored_forget : gdiroh.

(** A property of the state that every method keeps is kept by the task, up to
    the clean-up after the loop. *)
Section task_invariant.
Context `{HashOrder}.
Variable P : State → Prop.
Hypothesis P_same : ∀ st st', same_members st st' → P st → P st'.
Hypothesis P_add_link : ∀ peer c st, P st → P (add_link peer c st).
Hypothesis P_announce : ∀ peer st, P st → P (announce peer st).
Hypothesis P_forget : ∀ peer st, P st → P (forget peer st).
Hypothesis P_drop : ∀ peer st, P st →
  P (st |> set_links (delete peer (links st)) |> set_connections (delete peer (connections st))).
Hypothesis P_event : ∀ e st, (∀ p, presence p [e] = []) → P st → P (send_event e st).

Lemma welcome_invariant peer c st : P st → P (welcome peer c st).
Proof.
  intros H1. unfold welcome. cbv zeta. apply P_announce.
  eapply P_same; [apply same_members_foldl; intros; apply control_to_same|].
  eapply P_same; [apply control_to_same|]. by apply P_add_link.
Qed.

Lemma apply_invariant control st : P st → P (apply control st).
Proof.
  intros H1. destruct control as [your_id peers|id|id]; cbn; [|auto..].
  apply (foldl_preserves _ P); [|auto]. apply P_announce, P_event; [done|done].
Qed.

Lemma lost_invariant peer st : P st → P (lost peer st).
Proof.
  intros H1. unfold lost. destruct (links st !! peer); [|done].
  set (st1 := forget _ _). assert (P st1) by (by apply P_forget, P_drop).
  destruct (is_host st1).
  - eapply P_same; [apply same_members_foldl; intros; apply control_to_same|done].
  - case_decide; [by apply P_event|done].
Qed.

Lemma step_invariant mds t i :
  P (state t) → running (step mds t i) = true → P (state (step mds t i)).
Proof.
  intros H1. unfold step. destruct (running t) eqn:Hrun; [|by rewrite Hrun].
  destruct i as [[[target channel mode data|peer|]|]|[[control|peer]|]|c]; cbn; intros Hr; try done.
  - by eapply P_same; [apply send_same|].
  - by eapply P_same; [apply drop_link_same|].
  - by apply apply_invariant.
  - by apply lost_invariant.
  - destruct (inbound t); [|done]. destruct c; cbn; [by apply welcome_invariant|done].
Qed.

(** Once the loop is left it is not entered again. *)
Lemma step_running mds t i : running (step mds t i) = true → running t = true.
Proof. unfold step. by destruct (running t) eqn:Hr; [|rewrite Hr]. Qed.

Lemma run_running inputs t : running (run t inputs) = true → running t = true.
Proof.
  revert t. induction inputs as [|i l IH]; intros t; cbn; [done|].
  intros Hr%IH. by eapply step_running.
Qed.

Lemma run_invariant inputs t :
  P (state t) → running (run t inputs) = true → P (state (run t inputs)).
Proof.
  revert t. induction inputs as [|i l IH]; intros t Ht; cbn; [done|]. intros Hr.
  apply IH; [|done]. apply step_invariant; [done|]. by eapply run_running.
Qed.
End task_invariant.

(** Both invariants satisfy the section's hypotheses. *)

Lemma announcements_ext st st' :
  announced st' = announced st → sent_events st' = sent_events st →
  announcements_ok st → announcements_ok st'.
Proof. intros Ha He Hok p. by rewrite Ha, He. Qed.

Lemma announcements_finish `{HashOrder} t :
  announcements_ok (state t) → announcements_ok (state (finish t)).
Proof.
  intros Hok. unfold finish. cbn. apply announcements_other; [done|].
  apply (announcements_ext (close_all (state t))); [done..|].
  eapply announcements_same; [|exact Hok].
  apply same_members_foldl. intros st x. by destruct (links st !! x).
Qed.

Lemma announcements_step `{HashOrder} mds t i :
  announcements_ok (state t) → announcements_ok (state (step mds t i)).
Proof.
  intros Hok. destruct (running (step mds t i)) eqn:Hr.
  - apply (step_invariant announcements_ok); auto with gdiroh;
      [apply announcements_same|apply announcements_other].
  - unfold step in *. destruct (running t) eqn:Ht; [|done].
    destruct i as [[[target channel mode data|peer|]|]|[[control|peer]|]|c];
      cbn in *; try congruence; try by apply announcements_finish.
    destruct (inbound t); [|congruence]. by destruct c.
Qed.

Lemma mirrored_run `{HashOrder} inputs t :
  mirrored (state t) → running (run t inputs) = true → mirrored (state (run t inputs)).
Proof.
  intros Hm Hr. apply (run_invariant mirrored); auto with gdiroh; [apply mirrored_same|].
  intros peer st H1. unfold mirrored in *. cbn. by rewrite fmap_delete, H1.
Qed.

Lemma lookup_mirrored st p :
  mirrored st → connections st !! p = connection <$> links st !! p.
Proof. intros ->. by rewrite lookup_fmap. Qed.

(** ** What was said stays said

    And no packet is among what the task itself says: those come from the readers. *)

Definition is_packet (e : Event) : Prop := match e with PacketEvent _ => True | _ => False end.

Definition grows (st st' : State) : Prop :=
  ∃ new, sent_events st' = sent_events st ++ new ∧ Forall (λ e, ¬ is_packet e) new.

#[export] Instance grows_preorder : PreOrder grows.
Proof.
  split; [intros st; exists []; by rewrite app_nil_r|].
  intros st1 st2 st3 (n1 & E1 & F1) (n2 & E2 & F2). exists (n1 ++ n2).
  rewrite E2, E1, app_assoc. split; [done|]. by apply Forall_app.
Qed.

Lemma grows_eq st st' : sent_events st' = sent_events st → grows st st'.
Proof. intros He. exists []. by rewrite He, app_nil_r. Qed.

Lemma grows_prefix st st' : grows st st' → sent_events st `prefix_of` sent_events st'.
Proof. intros (new & -> & _). by exists new. Qed.

Lemma grows_foldl {A} (f : State → A → State) l st :
  (∀ st x, grows st (f st x)) → grows st (foldl f st l).
Proof.
  intros Hf. apply (foldl_preserves f (grows st)); [done|].
  intros st' x Hx. etrans; [exact Hx|apply Hf].
Qed.

Lemma grows_one e st st' :
  sent_events st' = sent_events st ++ [e] → ¬ is_packet e → grows st st'.
Proof. intros He Hp. exists [e]. split; [done|]. by apply Forall_singleton. Qed.

Lemma send_event_grows e st : ¬ is_packet e → grows st (send_event e st).
Proof. by eapply grows_one. Qed.

Lemma announce_grows p st : grows st (announce p st).
Proof. unfold announce. case_decide; [done|]. by apply (grows_one (PeerConnected p)); [|intros []]. Qed.

Lemma forget_grows p st : grows st (forget p st).
Proof. unfold forget. case_decide; [|done]. by apply (grows_one (PeerDisconnected p)); [|intros []]. Qed.

(** Sending says nothing but warnings. *)
Definition only_warns (st st' : State) : Prop :=
  ∃ ws, sent_events st' = sent_events st ++ ws ∧ Forall (λ e, ∃ text, e = Warning text) ws.

#[export] Instance only_warns_preorder : PreOrder only_warns.
Proof.
  split; [intros st; exists []; by rewrite app_nil_r|].
  intros st1 st2 st3 (w1 & E1 & F1) (w2 & E2 & F2). exists (w1 ++ w2).
  rewrite E2, E1, app_assoc. split; [done|]. by apply Forall_app.
Qed.

Lemma only_warns_eq st st' : sent_events st' = sent_events st → only_warns st st'.
Proof. intros He. exists []. by rewrite He, app_nil_r. Qed.

Lemma only_warns_grows st st' : only_warns st st' → grows st st'.
Proof.
  intros (ws & E & F). exists ws. split; [done|]. eapply Forall_impl; [exact F|]. intros e [text ->] [].
Qed.

Lemma write_reliable_events p c d st : sent_events (write_reliable p c d st) = sent_events st.
Proof.
  unfold write_reliable, writer_for. destruct (links st !! p) as [l|]; [|done].
  by destruct (reliable l !! c).
Qed.

Lemma write_reliable_grows p c d st : grows st (write_reliable p c d st).
Proof. apply grows_eq, write_reliable_events. Qed.

Lemma send_one_warns sizes p c m d st : only_warns st (send_one sizes p c m d st).
Proof.
  assert (∀ m, only_warns st (write_datagram sizes p c m d st)) as Hd.
  { intros m'. unfold write_datagram. destruct (links st !! p) as [l|]; [|done].
    destruct (if decide _ then _ else _) as [s l']. case_decide; [|by apply only_warns_eq].
    etrans; [|apply only_warns_eq, write_reliable_events]. case_decide; [by apply only_warns_eq|].
    eexists. split; [done|]. by repeat econstructor. }
  destruct m; [apply only_warns_eq, write_reliable_events|apply Hd..].
Qed.

Lemma send_warns `{HashOrder} sizes target c m d st : only_warns st (send sizes target c m d st).
Proof.
  unfold send. case_decide; [|apply send_one_warns].
  apply (foldl_preserves _ (only_warns st)); [done|].
  intros st' p Hst. etrans; [exact Hst|apply send_one_warns].
Qed.

Section growth.
Context `{HashOrder}.

Lemma lost_grows p st : grows st (lost p st).
Proof.
  unfold lost. destruct (links st !! p); [|done]. set (st0 := set_connections _ _).
  assert (grows st (forget p st0)) as Hf by (apply (forget_grows p st0)).
  destruct (is_host _).
  - etrans; [exact Hf|]. apply grows_foldl. intros. apply write_reliable_grows.
  - case_decide; [|done]. etrans; [exact Hf|apply send_event_grows; intros []].
Qed.

Lemma apply_grows c st : grows st (apply c st).
Proof.
  destruct c as [id peers|id|id]; cbn; [|apply announce_grows|apply forget_grows].
  etrans; [apply (send_event_grows (Ready id)); intros []|]. etrans; [apply (announce_grows HOST_ID)|].
  apply grows_foldl. intros. apply announce_grows.
Qed.

Lemma welcome_grows p c st : grows st (welcome p c st).
Proof.
  unfold welcome. etrans; [|apply announce_grows].
  etrans; [|apply grows_foldl; intros; apply write_reliable_grows].
  apply (write_reliable_grows p CONTROL_CHANNEL _ (add_link p c st)).
Qed.

Lemma finish_grows t : grows (state t) (state (finish t)).
Proof.
  unfold finish. cbn. etrans; [|apply (send_event_grows (Closed _) (set_links ∅ _)); intros []].
  apply (grows_foldl _ (hash_keys (links (state t))) (state t)). intros st p.
  destruct (links st !! p); by apply grows_eq.
Qed.

Lemma step_grows sizes t i : grows (state t) (state (step sizes t i)).
Proof.
  unfold step. destruct (running t); [|done].
  destruct i as [[[target channel mode data|peer|]|]|[[control|peer]|]|c]; cbn;
    try apply finish_grows.
  - apply only_warns_grows, send_warns.
  - unfold drop_link. destruct (links _ !! peer); [by apply grows_eq|done].
  - apply apply_grows.
  - apply lost_grows.
  - destruct (inbound t); [|done]. destruct c; [apply welcome_grows|done].
Qed.

Lemma run_grows t inputs : grows (state t) (state (run t inputs)).
Proof.
  apply (foldl_preserves _ (λ t', grows (state t) (state t'))); [done|].
  intros t' i Ht. etrans; [exact Ht|apply step_grows].
Qed.
End growth.

(** ** Datagrams *)

Definition datagrams_to (c : Conn) (effs : list Effect) : list bytes :=
  omap (λ e, match e with
             | SendDatagram c' d => if decide (c' = c) then Some d else None
             | _ => None
             end) effs.

(** ** Properties *)

(** The two ways a session task starts. *)
Definition begin (dialled : option (Conn + string)) : Task :=
  match dialled with
  | None => run_host
  | Some d => run_client d
  end.

Lemma announcements_begin dialled : announcements_ok (state (begin dialled)).
Proof. by destruct dialled as [[c|err]|]; intros p. Qed.

Lemma announcements_run `{HashOrder} dialled inputs :
  announcements_ok (state (run (begin dialled) inputs)).
Proof.
  apply (foldl_preserves _ (λ t, announcements_ok (state t))); [apply announcements_begin|].
  intros t i. apply announcements_step.
Qed.

Lemma mirrored_begin dialled : mirrored (state (begin dialled)).
Proof.
  destruct dialled as [[c|err]|]; [|done..]. unfold mirrored. cbn.
  by rewrite fmap_insert, fmap_empty.
Qed.

(** Godot hears a consistent story about every peer. Whatever reaches the
    task, malicious control messages included, and in whatever order, the
    events for one peer alternate between connected and disconnected and start
    with connected; a peer is reported gone only if it was reported present and
    not yet reported gone. The last report is what the task's own set says. *)
Lemma announcements_alternate `{HashOrder} dialled inputs p :
  let st := state (run (begin dialled) inputs) in
  present false (presence p (sent_events st)) = Some (bool_decide (p ∈ announced st)).
Proof. intros st. apply announcements_run. Qed.

(** the diagnostics the main thread reads never go stale while the session
    runs: the shared map has exactly one entry per live link, with that link's
    connection, so a peer can be named, measured and shown if and only if there
    is a link to it. *)
Lemma shared_connections_mirror_links `{HashOrder} dialled inputs p :
  let t := run (begin dialled) inputs in
  running t = true →
  connections (state t) !! p = connection <$> links (state t) !! p.
Proof. intros t Hr. by apply lookup_mirrored, mirrored_run; [apply mirrored_begin|]. Qed.

Lemma shared_connections_mirror_links_witness :
  connections (state (@run listing_order (begin None) [(λ _, None, OnConnection (Some 5%nat))])) !! 2
  = connection <$>
    links (state (@run listing_order (begin None) [(λ _, None, OnConnection (Some 5%nat))])) !! 2.
Proof.
  refine (@shared_connections_mirror_links listing_order None
    [(λ _, None, OnConnection (Some 5%nat))] 2 _). reflexivity.
Defined.

(** A host obeys the membership messages its clients send it. The reader of
    a client's connection passes on what arrives on the control channel and the
    task applies it without asking whether it is a client: one [Welcome] frame
    from any client makes the host report a new id for itself. *)
Lemma host_obeys_client_control `{HashOrder} mds t peer id r :
  running t = true → is_host (state t) = true → is_i32 id → receivers_alive r →
  ∃ r', read_stream peer (with_unread (stream_bytes CONTROL_CHANNEL [encode (Welcome id [])]) r)
          = Some r' ∧
    queue (internal r') = queue (internal r) ++ [InternalControl (Welcome id [])] ∧
    ∃ more, sent_events (state (step mds t (OnInternal (Some (InternalControl (Welcome id []))))))
      = sent_events (state t) ++ Ready id :: more.
Proof.
  intros Hrun Hhost Hid Halive.
  assert (control_wf (Welcome id [])) as Hwf by (split_and!; [done|done|by_decision]).
  destruct (control_delivery peer [Welcome id []] None
    (mk_send_half (stream_bytes CONTROL_CHANNEL [encode (Welcome id [])]) None) r)
    as (ds & r' & _ & Hr & Hq & _ & Hall); [by constructor| |done| |].
  { constructor; [|done]. cbn. by_decision. }
  { unfold stream_writer, stream_bytes, write_frames, write_all. cbn.
    unfold frame_bytes. by rewrite app_nil_r. }
  rewrite Hall in Hq by done. exists r'. split_and!; [exact Hr|exact Hq|].
  unfold step. rewrite Hrun. cbn. unfold announce. cbn.
  case_decide; cbn; [by exists []|]. rewrite <- app_assoc. by eexists.
Qed.

Lemma host_obeys_client_control_witness :
  ∃ r', read_stream 2 (with_unread (stream_bytes CONTROL_CHANNEL [encode (Welcome 7 [])])
            (mk_reader [] unbounded_channel unbounded_channel)) = Some r' ∧
    queue (internal r') = [] ++ [InternalControl (Welcome 7 [])] ∧
    ∃ more, sent_events (state (@step listing_order (λ _, None) run_host
        (OnInternal (Some (InternalControl (Welcome 7 []))))))
      = sent_events (state run_host) ++ Ready 7 :: more.
Proof.
  refine (@host_obeys_client_control listing_order (λ _, None) run_host 2 7
    (mk_reader [] unbounded_channel unbounded_channel) _ _ _ _).
  - reflexivity.
  - reflexivity.
  - by_decision.
  - split; reflexivity.
Defined.
