(* ===== verification/Membership.v ===== *)
(** * What a host tells its clients ([session.rs])

    The frames a state has queued to a peer on a channel are its [outbox]: the
    abstraction through which the writer tasks are seen. Every method is
    described by what it adds to which outbox, and from there the membership
    protocol is proved: applying the frames a host queued to a client gives the
    client the host's own view of who is present. *)

From S2P Require Import Prelude Wire Session.

(** ** Outboxes *)

(** The frames queued to a writer. *)
Definition queued (w : nat) (effs : list Effect) : list bytes :=
  omap (λ e, match e with
             | QueueFrame w' f => if decide (w' = w) then Some f else None
             | _ => None
             end) effs.

#[global] Arguments queued : simpl never.

Definition outbox (st : State) (p channel : Z) : list bytes :=
  match links st !! p with
  | None => []
  | Some link =>
      match reliable link !! channel with
      | None => []
      | Some w => queued w (effects st)
      end
  end.

(** Each channel of each link has a writer of its own, spawned on the link's
    connection for that channel, and numbers not given out have no frames. *)
Record writers_ok (st : State) : Prop := {
  writer_spawned p link c w :
    links st !! p = Some link → reliable link !! c = Some w →
    SpawnStreamWriter w (connection link) c ∈ effects st;
  writer_bound p link c w :
    links st !! p = Some link → reliable link !! c = Some w → (w < next_writer st)%nat;
  writer_unique p q lp lq c d w :
    links st !! p = Some lp → links st !! q = Some lq →
    reliable lp !! c = Some w → reliable lq !! d = Some w → p = q ∧ c = d;
  writer_fresh w : (next_writer st ≤ w)%nat → queued w (effects st) = [];
}.

Lemma queued_snoc w effs e :
  queued w (effs ++ [e]) =
    queued w effs ++ match e with
                     | QueueFrame w' f => if decide (w' = w) then [f] else []
                     | _ => []
                     end.
Proof.
  unfold queued. rewrite omap_snoc. f_equal. destruct e; try done. by case_decide.
Qed.

(** Effects that queue nothing leave every outbox alone. *)
Lemma perform_other_outbox e st p c :
  (∀ w f, e ≠ QueueFrame w f) → outbox (perform e st) p c = outbox st p c.
Proof.
  intros He. unfold outbox. cbn. destruct (links st !! p) as [l|]; [|done].
  destruct (reliable l !! c) as [w|]; [|done].
  rewrite queued_snoc. destruct e; try by rewrite app_nil_r. by edestruct He.
Qed.

Lemma perform_writers_ok e st : (∀ w f, e ≠ QueueFrame w f) → writers_ok st → writers_ok (perform e st).
Proof.
  intros He [H1 H2 H3 H4]. split; cbn.
  - intros. rewrite elem_of_app. left. eauto.
  - eauto.
  - eauto.
  - intros w Hw. rewrite queued_snoc, H4 by done. destruct e; try done. by edestruct He.
Qed.

Lemma queue_frame_writers_ok w f st :
  (w < next_writer st)%nat → writers_ok st → writers_ok (perform (QueueFrame w f) st).
Proof.
  intros Hw [H1 H2 H3 H4]. split; cbn.
  - intros. rewrite elem_of_app. left. eauto.
  - eauto.
  - eauto.
  - intros w' Hw'. rewrite queued_snoc, H4 by done. by rewrite decide_False by lia.
Qed.

(** [writer_for] returns the channel's writer and adds nothing to any outbox. *)
Lemma writer_for_spec peer channel link st :
  links st !! peer = Some link → writers_ok st →
  let '(w, st') := writer_for peer channel link st in
  writers_ok st' ∧ (∀ q d, outbox st' q d = outbox st q d) ∧
  (∃ link', links st' !! peer = Some link' ∧ reliable link' !! channel = Some w) ∧
  (w < next_writer st')%nat.
Proof.
  intros Hl Hok. pose proof Hok as [H1 H2 H3 H4]. unfold writer_for.
  destruct (reliable link !! channel) as [w|] eqn:Hw; [eauto 10|].
  set (link' := mk_link _ _ _ _).
  assert (∀ q lq d w, <[peer:=link']> (links st) !! q = Some lq → reliable lq !! d = Some w →
    (q = peer ∧ d = channel ∧ w = next_writer st) ∨
    (∃ lq', links st !! q = Some lq' ∧ reliable lq' !! d = Some w ∧
       connection lq' = connection lq)) as Hold.
  { intros q lq d w. destruct (decide (peer = q)) as [<-|Hne].
    - rewrite lookup_insert_eq. intros [= <-]. subst link'. cbn.
      destruct (decide (channel = d)) as [<-|Hd].
      + rewrite lookup_insert_eq. intros [= <-]. by left.
      + rewrite lookup_insert_ne by done. intros Hd'. right. eauto.
    - rewrite lookup_insert_ne by done. eauto 10. }
  split_and!.
  - split; cbn.
    + intros p l c w Hp Hc. rewrite elem_of_app, list_elem_of_singleton.
      destruct (Hold p l c w Hp Hc) as [(-> & -> & ->)|(l' & Hp' & Hc' & <-)]; [|left; eauto].
      right. rewrite lookup_insert_eq in Hp. injection Hp as <-. done.
    + intros p l c w Hp Hc.
      destruct (Hold p l c w Hp Hc) as [(-> & -> & ->)|(l' & Hp' & Hc' & _)]; [lia|].
      pose proof (H2 _ _ _ _ Hp' Hc'). lia.
    + intros p q lp lq c d w Hp Hq Hc Hd.
      destruct (Hold p lp c w Hp Hc) as [(-> & -> & ->)|(lp' & Hp' & Hc' & _)];
        destruct (Hold q lq d _ Hq Hd) as [(-> & -> & Hw')|(lq' & Hq' & Hd' & _)]; try done.
      * pose proof (H2 _ _ _ _ Hq' Hd'). lia.
      * subst. pose proof (H2 _ _ _ _ Hp' Hc'). lia.
      * eauto.
    + intros w Hw'. rewrite queued_snoc, H4 by lia. done.
  - intros q d. unfold outbox. cbn.
    destruct (decide (peer = q)) as [<-|Hne].
    + rewrite lookup_insert_eq, Hl. subst link'. cbn.
      destruct (decide (channel = d)) as [<-|Hd].
      * rewrite lookup_insert_eq, Hw, queued_snoc, H4 by lia. done.
      * rewrite lookup_insert_ne by done.
        destruct (reliable link !! d); [|done]. by rewrite queued_snoc, app_nil_r.
    + rewrite lookup_insert_ne by done. destruct (links st !! q) as [lq|]; [|done].
      destruct (reliable lq !! d); [|done]. by rewrite queued_snoc, app_nil_r.
  - exists link'. cbn. rewrite lookup_insert_eq. split; [done|]. subst link'. cbn.
    by rewrite lookup_insert_eq.
  - cbn. lia.
Qed.

(** [write_reliable] appends to one outbox, if the link exists. *)
Lemma write_reliable_outbox peer channel data st q d :
  writers_ok st →
  outbox (write_reliable peer channel data st) q d =
    outbox st q d ++
      (if decide (q = peer ∧ d = channel ∧ is_Some (links st !! peer)) then [data] else []).
Proof.
  intros Hok. unfold write_reliable. destruct (links st !! peer) as [link|] eqn:Hl; cycle 1.
  { rewrite decide_False by (intros (_ & _ & [? ?]); done). by rewrite app_nil_r. }
  pose proof (writer_for_spec peer channel link st Hl Hok) as Hw.
  destruct (writer_for peer channel link st) as [w st'].
  destruct Hw as (Hok' & Hout & (link' & Hl' & Hw') & Hb).
  rewrite <- Hout. unfold outbox. cbn.
  case_decide as Hd.
  - destruct Hd as (-> & -> & _). rewrite Hl', Hw', queued_snoc. by rewrite decide_True.
  - destruct (links st' !! q) as [lq|] eqn:Hq; [|by rewrite app_nil_r].
    destruct (reliable lq !! d) as [w'|] eqn:Hwq; [|by rewrite app_nil_r].
    rewrite queued_snoc, decide_False; [done|]. intros <-. apply Hd.
    destruct (writer_unique _ Hok' q peer lq link' d channel w) as [-> ->]; eauto.
Qed.

Lemma write_reliable_writers_ok peer channel data st :
  writers_ok st → writers_ok (write_reliable peer channel data st).
Proof.
  intros Hok. unfold write_reliable. destruct (links st !! peer) as [link|] eqn:Hl; [|done].
  pose proof (writer_for_spec peer channel link st Hl Hok) as Hw.
  destruct (writer_for peer channel link st) as [w st']. destruct Hw as (Hok' & _ & _ & Hb).
  by apply queue_frame_writers_ok.
Qed.

(** ** The other methods *)

Lemma outbox_ext st st' p c :
  links st' = links st → effects st' = effects st → outbox st' p c = outbox st p c.
Proof. intros Hl He. unfold outbox. by rewrite Hl, He. Qed.

Lemma writers_ok_ext st st' :
  links st' = links st → effects st' = effects st → next_writer st' = next_writer st →
  writers_ok st → writers_ok st'.
Proof. intros Hl He Hn [H1 H2 H3 H4]. split; rewrite ?Hl, ?He, ?Hn; eauto. Qed.

Lemma announce_outbox peer st p c : outbox (announce peer st) p c = outbox st p c.
Proof. destruct (announce_links peer st) as (? & _ & _ & ? & _). by apply outbox_ext. Qed.

Lemma forget_outbox peer st p c : outbox (forget peer st) p c = outbox st p c.
Proof. destruct (forget_links peer st) as (? & _ & _ & ? & _). by apply outbox_ext. Qed.

Lemma announce_writers_ok peer st : writers_ok st → writers_ok (announce peer st).
Proof.
  destruct (announce_links peer st) as (? & _ & _ & ? & ? & _). by apply writers_ok_ext.
Qed.

Lemma forget_writers_ok peer st : writers_ok st → writers_ok (forget peer st).
Proof.
  destruct (forget_links peer st) as (? & _ & _ & ? & ? & _). by apply writers_ok_ext.
Qed.

Lemma add_link_outbox peer c st q d :
  outbox (add_link peer c st) q d = if decide (q = peer) then [] else outbox st q d.
Proof.
  unfold outbox. cbn. case_decide as Hq; [subst; by rewrite lookup_insert_eq|].
  rewrite lookup_insert_ne by done. destruct (links st !! q) as [lq|]; [|done].
  destruct (reliable lq !! d); [|done]. by rewrite queued_snoc, app_nil_r.
Qed.

Lemma add_link_writers_ok peer c st : writers_ok st → writers_ok (add_link peer c st).
Proof.
  intros [H1 H2 H3 H4]. unfold add_link.
  assert (∀ q lq d w, <[peer:=mk_link c ∅ ∅ ∅]> (links st) !! q = Some lq →
    reliable lq !! d = Some w → links st !! q = Some lq) as Hold.
  { intros q lq d w. destruct (decide (peer = q)) as [<-|Hne].
    - rewrite lookup_insert_eq. intros [= <-]. cbn. by rewrite lookup_empty.
    - by rewrite lookup_insert_ne. }
  split; cbn.
  - intros. rewrite elem_of_app. left. eauto.
  - intros. eauto.
  - intros p q lp lq d e w Hp Hq Hd He. eauto.
  - intros w Hw. by rewrite queued_snoc, H4.
Qed.

Lemma delete_outbox peer st cs q d :
  outbox (st |> set_links (delete peer (links st)) |> set_connections cs) q d =
    if decide (q = peer) then [] else outbox st q d.
Proof.
  unfold outbox. cbn. case_decide as Hq; [subst; by rewrite lookup_delete_eq|].
  by rewrite lookup_delete_ne.
Qed.

Lemma delete_writers_ok peer st cs :
  writers_ok st → writers_ok (st |> set_links (delete peer (links st)) |> set_connections cs).
Proof.
  intros [H1 H2 H3 H4]. split; cbn.
  - intros p l c w [_ Hp]%lookup_delete_Some. eauto.
  - intros p l c w [_ Hp]%lookup_delete_Some. eauto.
  - intros p q lp lq c d w [_ Hp]%lookup_delete_Some [_ Hq]%lookup_delete_Some. eauto.
  - done.
Qed.

(** Replacing a link by one with the same connection and writers. *)
Lemma replace_link peer link link' st :
  links st !! peer = Some link → connection link' = connection link →
  reliable link' = reliable link → writers_ok st →
  let st' := set_links (<[peer := link']> (links st)) st in
  writers_ok st' ∧ ∀ q d, outbox st' q d = outbox st q d.
Proof.
  intros Hl Hc Hr Hok. cbn.
  assert (∀ q lq, <[peer:=link']> (links st) !! q = Some lq →
    ∃ lq', links st !! q = Some lq' ∧ reliable lq' = reliable lq ∧ connection lq' = connection lq)
    as Hold.
  { intros q lq. destruct (decide (peer = q)) as [<-|Hne].
    - rewrite lookup_insert_eq. intros [= <-]. eauto.
    - rewrite lookup_insert_ne by done. eauto. }
  split.
  - destruct Hok as [H1 H2 H3 H4]. split; cbn.
    + intros p l c w (l' & Hp & <- & <-)%Hold. eauto.
    + intros p l c w (l' & Hp & <- & _)%Hold. eauto.
    + intros p q lp lq c d w (lp' & Hp & <- & _)%Hold (lq' & Hq & <- & _)%Hold. eauto.
    + done.
  - intros q d. unfold outbox. cbn. destruct (decide (peer = q)) as [<-|Hne].
    + by rewrite lookup_insert_eq, Hl, Hr.
    + by rewrite lookup_insert_ne.
Qed.

(** A datagram send queues at most its own payload, on its own channel. *)
Lemma write_datagram_outbox mds peer channel mode data st :
  writers_ok st →
  writers_ok (write_datagram mds peer channel mode data st) ∧
  ∀ q d, d ≠ channel →
    outbox (write_datagram mds peer channel mode data st) q d = outbox st q d.
Proof.
  intros Hok. unfold write_datagram. destruct (links st !! peer) as [link|] eqn:Hl; [|done].
  set (seq_link := if decide (mode = UnreliableOrdered) then _ else _).
  assert (connection seq_link.2 = connection link ∧ reliable seq_link.2 = reliable link)
    as [Hc Hr] by (subst seq_link; by case_decide).
  destruct seq_link as [s link1]; cbn in Hc, Hr. case_decide.
  - set (link' := mk_link _ _ _ _).
    destruct (replace_link peer link link' st) as [Hok1 Hout1]; [done..|].
    set (st1 := set_links _ st) in *.
    set (st2 := if decide (channel ∈ warned link1) then _ else _).
    assert (writers_ok st2 ∧ ∀ q d, outbox st2 q d = outbox st q d) as [Hok2 Hout2].
    { subst st2. case_decide; [done|]. split; [by apply (writers_ok_ext st1)|].
      intros q d. rewrite <- Hout1. by apply outbox_ext. }
    split; [by apply write_reliable_writers_ok|]. intros q d Hd.
    rewrite write_reliable_outbox by done.
    rewrite decide_False by (by intros (_ & ? & _)). by rewrite app_nil_r.
  - destruct (replace_link peer link link1 st) as [Hok1 Hout1]; [done..|].
    split; [by apply perform_writers_ok|]. intros q d Hd.
    rewrite perform_other_outbox by done. apply Hout1.
Qed.

Lemma send_one_outbox mds peer channel mode data st :
  writers_ok st →
  writers_ok (send_one mds peer channel mode data st) ∧
  ∀ q d, d ≠ channel → outbox (send_one mds peer channel mode data st) q d = outbox st q d.
Proof.
  intros Hok. destruct mode; cbn [send_one]; [|by apply write_datagram_outbox..].
  split; [by apply write_reliable_writers_ok|]. intros q d Hd.
  rewrite write_reliable_outbox by done.
  rewrite decide_False by (by intros (_ & ? & _)). by rewrite app_nil_r.
Qed.

Lemma send_outbox `{HashOrder} mds target channel mode data st :
  writers_ok st →
  writers_ok (send mds target channel mode data st) ∧
  ∀ q d, d ≠ channel → outbox (send mds target channel mode data st) q d = outbox st q d.
Proof.
  intros Hok. unfold send. case_decide; [|by apply send_one_outbox].
  apply (foldl_preserves _ (λ st', writers_ok st' ∧
    ∀ q d, d ≠ channel → outbox st' q d = outbox st q d)); [done|].
  intros st' p [Hok' Hout]. destruct (send_one_outbox mds p channel mode data st' Hok') as [? Hs].
  split; [done|]. intros q d Hd. by rewrite Hs, Hout.
Qed.

(** Sending the same frame to several linked peers adds it once to the outbox
    of each and to no other. *)
Lemma broadcast_outbox channel data peers st :
  NoDup peers → (∀ p, p ∈ peers → p ∈ dom (links st)) → writers_ok st →
  let st' := foldl (λ st p, write_reliable p channel data st) st peers in
  writers_ok st' ∧ same_members st st' ∧
  ∀ q d, outbox st' q d =
    outbox st q d ++ (if decide (q ∈ peers ∧ d = channel) then [data] else []).
Proof.
  intros Hnd Hdom Hok. revert st Hdom Hok.
  induction Hnd as [|p ps Hp _ IH]; intros st Hdom Hok; cbn [foldl].
  { split_and!; [done|done|]. intros q d. rewrite decide_False by set_solver.
    by rewrite app_nil_r. }
  pose proof (write_reliable_same p channel data st) as Hsame.
  destruct (IH (write_reliable p channel data st)) as (Hok' & Hsame' & Hout).
  { intros q Hq. rewrite (same_members_dom _ _ Hsame). set_solver. }
  { by apply write_reliable_writers_ok. }
  split_and!; [done|by etrans|]. intros q d.
  rewrite Hout, write_reliable_outbox by done.
  assert (is_Some (links st !! p)) by (apply elem_of_dom, Hdom; set_solver).
  rewrite <- app_assoc. f_equal. repeat case_decide; naive_solver set_solver.
Qed.

(** ** The client's side

    A client that has read some frames of its control stream applies them in
    order; [client_view] is whom it has announced by then. *)

Definition apply_frame (st : State) (frame : bytes) : State :=
  match decode frame with
  | Some (Some control) => apply control st
  | _ => st
  end.

Definition client_start : State := state (run_client (inl 0%nat)).

Definition client_view (frames : list bytes) : gset Z :=
  announced (foldl apply_frame client_start frames).

(** The abstract effect of a message on the set of members. *)
Definition view_step (members : gset Z) (c : Control) : gset Z :=
  match c with
  | Welcome _ peers => list_to_set peers ∪ ({[HOST_ID]} ∪ members)
  | PeerJoined id => {[id]} ∪ members
  | PeerLeft id => members ∖ {[id]}
  end.

Lemma announce_all_announced peers st :
  announced (foldl (λ st p, announce p st) st peers) = list_to_set peers ∪ announced st.
Proof.
  revert st. induction peers as [|p ps IH]; intros st; cbn; [set_solver|].
  rewrite IH. destruct (announce_links p st) as (_ & _ & _ & _ & _ & ->). set_solver.
Qed.

Lemma apply_announced c st : announced (apply c st) = view_step (announced st) c.
Proof.
  destruct c as [your_id peers|id|id]; cbn [apply view_step].
  - rewrite announce_all_announced. f_equal.
    destruct (announce_links HOST_ID (send_event (Ready your_id) st)) as (_ & _ & _ & _ & _ & H).
    apply H.
  - by destruct (announce_links id st) as (_ & _ & _ & _ & _ & ->).
  - by destruct (forget_links id st) as (_ & _ & _ & _ & _ & ->).
Qed.

Lemma client_view_nil : client_view [] = ∅.
Proof. done. Qed.

Lemma client_view_snoc frames c :
  control_wf c → client_view (frames ++ [encode c]) = view_step (client_view frames) c.
Proof.
  intros Hwf. unfold client_view. rewrite foldl_app. cbn [foldl].
  unfold apply_frame at 1.
  rewrite <- (app_nil_r (encode c)), decode_encode_app by done. apply apply_announced.
Qed.

(** ** The host's invariant *)

(** [n] connections were accepted so far. *)
Record host_ok (n : Z) (st : State) : Prop := {
  host_is_host : is_host st = true;
  host_bound : FIRST_CLIENT_ID + n ≤ i32_max + 1;
  host_ids p : p ∈ dom (links st) → FIRST_CLIENT_ID ≤ p < FIRST_CLIENT_ID + n;
  host_announced : announced st = dom (links st);
  host_writers : writers_ok st;
  host_views p : p ∈ dom (links st) →
    client_view (outbox st p CONTROL_CHANNEL) = {[HOST_ID]} ∪ (dom (links st) ∖ {[p]});
}.

(** What only sends data keeps the invariant. *)
Lemma host_ok_same n st st' :
  same_members st st' → writers_ok st' →
  (∀ p, outbox st' p CONTROL_CHANNEL = outbox st p CONTROL_CHANNEL) →
  host_ok n st → host_ok n st'.
Proof.
  intros Hs Hok Hout [H1 Hb H2 H3 H4 H5]. pose proof (same_members_dom _ _ Hs) as Hd.
  destruct Hs as [Hh _ Ha _ _].
  split; [congruence|done| | |done|]; intros; rewrite ?Hd, ?Hout in *; eauto. congruence.
Qed.

(** Ids in a range: a duplicate-free list of them is no longer than the range. *)
Lemma NoDup_range_length (l : list Z) lo n :
  0 ≤ n → NoDup l → (∀ x, x ∈ l → lo ≤ x < lo + n) → len l ≤ n.
Proof.
  intros Hn Hnd Hr. unfold len.
  assert (l ⊆+ seqZ lo n) as Hsub.
  { apply NoDup_submseteq; [done|]. intros x Hx. apply elem_of_seqZ. auto. }
  apply submseteq_length in Hsub. rewrite length_seqZ in Hsub. lia.
Qed.

Section host.
Context `{HashOrder}.

(** The frame [welcome] sends is well formed while the ids last. *)
Lemma welcome_frame_ok n st :
  0 ≤ n → FIRST_CLIENT_ID + n ≤ i32_max → host_ok n st →
  control_wf (Welcome (FIRST_CLIENT_ID + n) (hash_keys (links st))).
Proof.
  intros Hn Hmax Hok. pose proof (host_ids _ _ Hok) as Hb.
  assert (∀ q, q ∈ hash_keys (links st) → FIRST_CLIENT_ID ≤ q < FIRST_CLIENT_ID + n) as Hr.
  { intros q Hq%elem_of_hash_keys. by apply Hb. }
  pose proof (NoDup_range_length _ _ n Hn (NoDup_hash_keys _) Hr) as Hlen.
  pose proof (len_nonneg (hash_keys (links st))). unfold FIRST_CLIENT_ID in *.
  split_and!; [unfold_ints; lia| |unfold_ints; lia].
  apply Forall_forall. intros q Hq%Hr. unfold_ints. lia.
Qed.

(** What [welcome] does to the members. *)
Lemma welcome_members peer c st :
  is_host (welcome peer c st) = is_host st ∧
  dom (links (welcome peer c st)) = {[peer]} ∪ dom (links st) ∧
  announced (welcome peer c st) = {[peer]} ∪ announced st.
Proof.
  unfold welcome. set (st2 := control_to peer _ _).
  assert (same_members (add_link peer c st) st2) as Hs2 by apply control_to_same.
  set (st3 := foldl _ st2 _).
  assert (same_members st2 st3) as Hs3.
  { apply same_members_foldl. intros. apply control_to_same. }
  destruct (announce_links peer st3) as (-> & _ & -> & _ & _ & ->).
  rewrite (same_members_dom _ _ Hs3), (same_members_dom _ _ Hs2).
  rewrite (same_host _ _ Hs3), (same_host _ _ Hs2), (same_announced _ _ Hs3), (same_announced _ _ Hs2).
  split_and!; [done| |done]. cbn. apply dom_insert_L.
Qed.

(** What [welcome] sends: the newcomer gets the list of the others, and each of
    them gets the newcomer's id. *)
Lemma welcome_outbox peer c st :
  writers_ok st → peer ∉ dom (links st) →
  writers_ok (welcome peer c st) ∧
  ∀ q, outbox (welcome peer c st) q CONTROL_CHANNEL =
    if decide (q = peer) then [encode (Welcome peer (hash_keys (links st)))]
    else outbox st q CONTROL_CHANNEL
      ++ (if decide (q ∈ dom (links st)) then [encode (PeerJoined peer)] else []).
Proof.
  intros Hok Hnew. unfold welcome. set (existing := hash_keys (links st)).
  assert (∀ q, q ∈ existing ↔ q ∈ dom (links st)) as Hex by (intros; apply elem_of_hash_keys).
  set (st1 := add_link peer c st).
  assert (writers_ok st1) as Hok1 by (by apply add_link_writers_ok).
  assert (dom (links st1) = {[peer]} ∪ dom (links st)) as Hd1 by (cbn; apply dom_insert_L).
  set (st2 := control_to peer (Welcome peer existing) st1).
  pose proof (same_members_dom _ _ (control_to_same peer (Welcome peer existing) st1)) as Hd2.
  fold st2 in Hd2.
  destruct (broadcast_outbox CONTROL_CHANNEL (encode (PeerJoined peer)) existing st2)
    as (Hok3 & _ & Hout3).
  { apply NoDup_hash_keys. } { intros p Hp%Hex. set_solver. }
  { by apply write_reliable_writers_ok. }
  split; [by apply announce_writers_ok|].
  intros q. rewrite announce_outbox. etransitivity; [apply Hout3|]. unfold st2, control_to.
  rewrite write_reliable_outbox by done. unfold st1 at 1. rewrite add_link_outbox.
  assert (is_Some (links st1 !! peer)) by (apply elem_of_dom; set_solver).
  case_decide as Hq; [subst q|].
  - rewrite decide_True by done. rewrite decide_False by set_solver. done.
  - rewrite (decide_False (P := q = peer ∧ _)) by naive_solver. rewrite app_nil_r.
    f_equal. repeat case_decide; naive_solver.
Qed.

Lemma welcome_host_ok n c st :
  0 ≤ n → FIRST_CLIENT_ID + n ≤ i32_max →
  host_ok n st → host_ok (n + 1) (welcome (FIRST_CLIENT_ID + n) c st).
Proof.
  intros Hn Hmax Hok. pose proof (welcome_frame_ok n st Hn Hmax Hok) as Hwf.
  destruct Hok as [H1 Hb H2 H3 H4 H5]. set (peer := FIRST_CLIENT_ID + n) in *.
  assert (peer ∉ dom (links st)) as Hnew by (intros Hin%H2; subst peer; lia).
  destruct (welcome_members peer c st) as (Hh & Hd & Ha).
  destruct (welcome_outbox peer c st H4 Hnew) as [Hok Hout].
  assert (is_i32 peer) as Hi by apply Hwf.
  split; [congruence|lia| |congruence|done|].
  - intros p. rewrite Hd. intros [->%elem_of_singleton|Hp%H2]%elem_of_union; subst peer; lia.
  - intros p. rewrite Hout, Hd. intros Hp. case_decide as Hq; [subst p|].
    + rewrite <- (app_nil_l [_]), client_view_snoc, client_view_nil by done. cbn [view_step].
      assert (list_to_set (hash_keys (links st)) = dom (links st)) as ->; [|set_solver].
      apply set_eq. intros q. by rewrite elem_of_list_to_set, elem_of_hash_keys.
    + assert (p ∈ dom (links st)) as Hpd by set_solver.
      rewrite decide_True by done.
      rewrite client_view_snoc, H5 by done. cbn [view_step]. set_solver.
Qed.

(** What [lost] does on a host: the others get the id of the one that left. *)
Lemma lost_spec peer st link :
  is_host st = true → writers_ok st → links st !! peer = Some link →
  writers_ok (lost peer st) ∧ is_host (lost peer st) = true ∧
  dom (links (lost peer st)) = dom (links st) ∖ {[peer]} ∧
  announced (lost peer st) = announced st ∖ {[peer]} ∧
  ∀ q, outbox (lost peer st) q CONTROL_CHANNEL =
    if decide (q = peer) then []
    else outbox st q CONTROL_CHANNEL
      ++ (if decide (q ∈ dom (links st)) then [encode (PeerLeft peer)] else []).
Proof.
  intros Hhost Hok Hl. unfold lost. rewrite Hl.
  set (st0 := st |> set_links (delete peer (links st))
                 |> set_connections (delete peer (connections st))).
  set (st1 := forget peer st0).
  destruct (forget_links peer st0) as (Hl1 & _ & Hh1 & _ & _ & Ha1). fold st1 in Hl1, Hh1, Ha1.
  assert (writers_ok st1) as Hok1 by (by apply forget_writers_ok, delete_writers_ok).
  assert (dom (links st1) = dom (links st) ∖ {[peer]}) as Hd1
    by (rewrite Hl1; cbn; apply dom_delete_L).
  rewrite Hh1. cbn [is_host st0 set_connections set_links]. rewrite Hhost.
  set (others := hash_keys (links st1)).
  assert (∀ q, q ∈ others ↔ q ∈ dom (links st1)) as Hex by (intros; apply elem_of_hash_keys).
  destruct (broadcast_outbox CONTROL_CHANNEL (encode (PeerLeft peer)) others st1)
    as (Hok2 & Hs2 & Hout2); [apply NoDup_hash_keys|by intros p ?%Hex|done|].
  change (λ st p, write_reliable p CONTROL_CHANNEL (encode (PeerLeft peer)) st)
    with (λ st p, control_to p (PeerLeft peer) st) in *.
  set (st2 := foldl _ st1 others) in *.
  split_and!; [done|by rewrite (same_host _ _ Hs2), Hh1|by rewrite (same_members_dom _ _ Hs2)| |].
  - by rewrite (same_announced _ _ Hs2), Ha1.
  - intros q. rewrite Hout2. unfold st1 at 1. rewrite forget_outbox. unfold st0 at 1.
    rewrite delete_outbox. pose proof (Hex q) as Hq. rewrite Hd1 in Hq.
    case_decide; [rewrite decide_False by set_solver; done|]. f_equal.
    repeat case_decide; set_solver.
Qed.

Lemma lost_host_ok n peer st : host_ok n st → host_ok n (lost peer st).
Proof.
  intros Hok. pose proof Hok as [H1 Hb H2 H3 H4 H5].
  destruct (links st !! peer) as [link|] eqn:Hl; [|unfold lost; by rewrite Hl].
  assert (peer ∈ dom (links st)) as Hpeer by (by apply elem_of_dom_2 in Hl).
  destruct (lost_spec peer st link H1 H4 Hl) as (Hok2 & Hh & Hd & Ha & Hout).
  assert (control_wf (PeerLeft peer)) as Hwf.
  { pose proof (H2 _ Hpeer). cbn. unfold_ints. unfold FIRST_CLIENT_ID in *. lia. }
  split; [done|done| |by rewrite Ha, Hd, H3|done|].
  - intros p. rewrite Hd. intros [Hp _]%elem_of_difference. auto.
  - intros p. rewrite Hd, Hout. intros Hp. rewrite decide_False by set_solver.
    rewrite decide_True by set_solver. rewrite client_view_snoc, H5 by (done || set_solver).
    cbn [view_step]. pose proof (H2 _ Hpeer). unfold FIRST_CLIENT_ID, HOST_ID in *.
    assert (peer ≠ 1) by lia. set_solver.
Qed.

(** ** Runs of an honest session

    [honest] rules out the two ways the membership stream can be tampered with:
    clients that write control messages of their own, and script that sends
    packets on the channel number reserved for them. *)

Definition honest (i : Input) : Prop :=
  match i with
  | OnInternal (Some (InternalControl _)) => False
  | OnCommand (Some (Send _ channel _ _)) => channel ≠ CONTROL_CHANNEL
  | _ => True
  end.

#[export] Instance honest_dec i : Decision (honest i).
Proof. destruct i as [[[]|]|[[]|]|]; cbn; apply _. Defined.

Definition accepts (i : Input) : Z :=
  match i with OnConnection (Some _) => 1 | _ => 0 end.

Definition accepted (inputs : list ((Conn → option Z) * Input)) : Z :=
  foldr (λ i n, accepts i.2 + n) 0 inputs.

Lemma accepted_nonneg l : 0 ≤ accepted l.
Proof.
  induction l as [|[? i] l IH]; cbn; [done|].
  assert (0 ≤ accepts i) by (by destruct i as [|?|[|]]). unfold accepted in IH. lia.
Qed.

(** How many connections can be accepted before the ids run out. *)
Definition max_accepts : Z := i32_max - 1.

Record host_task_ok (n : Z) (t : Task) : Prop := {
  host_task_count : 0 ≤ n;
  host_task_state : host_ok n (state t);
  host_task_next : n < max_accepts → next_id t = FIRST_CLIENT_ID + n;
}.

Lemma step_host_ok mds n t i :
  honest i → n + accepts i ≤ max_accepts →
  host_task_ok n t → running (step mds t i) = true →
  ∃ n', n ≤ n' ≤ n + accepts i ∧ host_task_ok n' (step mds t i).
Proof.
  intros Hi Hmax [Hn Hok Hnext] Hr.
  pose proof (step_running mds t i Hr) as Hrun. unfold step in *. rewrite Hrun in *.
  destruct i as [[[target channel mode data|peer|]|]|[[control|peer]|]|[c|]];
    cbn in Hi, Hmax, Hr |- *; try done; try (exists n; split; [lia|]; split; cbn; try done; fail).
  - exists n. split; [lia|]. split; cbn; [done| |done].
    destruct (send_outbox mds target channel mode data (state t)) as [Hw Ho]; [apply Hok|].
    eapply host_ok_same; [apply send_same|done| |done]. intros p. by apply Ho.
  - exists n. split; [lia|]. split; cbn; [done| |done].
    unfold drop_link. destruct (links (state t) !! peer); [|done].
    eapply host_ok_same; [apply perform_same|by apply perform_writers_ok, Hok| |done].
    intros p. by apply perform_other_outbox.
  - exists n. split; [lia|]. split; cbn; [done| |done]. by apply lost_host_ok.
  - destruct (inbound t); cbn in *; [|exists n; split; [lia|done]].
    exists (n + 1). split; [lia|]. unfold max_accepts in *.
    rewrite Hnext by lia. split; cbn; [lia| |].
    + apply welcome_host_ok; [done| |done]. unfold FIRST_CLIENT_ID. lia.
    + intros Hlt. unfold i32_wrapping_add. rewrite to_i32_small;
        unfold max_accepts in *; unfold_ints; unfold FIRST_CLIENT_ID in *; lia.
  - exists n. split; [lia|]. destruct (inbound t); by split.
Qed.

Lemma run_host_ok n t inputs :
  Forall (λ i, honest i.2) inputs → n + accepted inputs ≤ max_accepts →
  host_task_ok n t → running (run t inputs) = true →
  ∃ n', n ≤ n' ≤ n + accepted inputs ∧ host_task_ok n' (run t inputs).
Proof.
  intros Hh. revert n t. induction Hh as [|i l Hi _ IH]; intros n t Hmax Ht Hr.
  { exists n. split; [cbn; lia|done]. }
  change (accepted (i :: l)) with (accepts i.2 + accepted l) in *.
  change (run t (i :: l)) with (run (step i.1 t i.2) l) in *.
  pose proof (accepted_nonneg l) as Hl.
  destruct (step_host_ok i.1 n t i.2) as (n' & Hn' & Ht'); [done|lia|done| |].
  { by eapply run_running. }
  destruct (IH n' (step i.1 t i.2)) as (n'' & Hn'' & Ht''); [lia|done|done|].
  exists n''. split; [lia|done].
Qed.

Lemma host_task_start : host_task_ok 0 run_host.
Proof.
  split; cbn; [lia| |lia]. by split; cbn.
Qed.
End host.

(** ** Routing *)

Section routing.
Context `{HashOrder}.

Lemma foldl_writers_ok {A} (f : State → A → State) l st :
  (∀ st x, writers_ok st → writers_ok (f st x)) → writers_ok st → writers_ok (foldl f st l).
Proof. intros Hf Hok. by apply (foldl_preserves f writers_ok). Qed.

Lemma event_writers_ok e st : writers_ok st → writers_ok (send_event e st).
Proof. by apply writers_ok_ext. Qed.

Lemma step_writers_ok mds t i :
  writers_ok (state t) → running (step mds t i) = true → writers_ok (state (step mds t i)).
Proof.
  intros Hok. unfold step. destruct (running t) eqn:Hrun; [|by rewrite Hrun].
  destruct i as [[[target channel mode data|peer|]|]|[[control|peer]|]|c]; cbn; intros Hr; try done.
  - by apply send_outbox.
  - unfold drop_link. destruct (links (state t) !! peer); [|done]. by apply perform_writers_ok.
  - destruct control as [your_id peers|id|id]; cbn.
    + apply foldl_writers_ok; [intros; by apply announce_writers_ok|].
      by apply announce_writers_ok, event_writers_ok.
    + by apply announce_writers_ok.
    + by apply forget_writers_ok.
  - unfold lost. destruct (links (state t) !! peer); [|done].
    set (st1 := forget _ _).
    assert (writers_ok st1) by (by apply forget_writers_ok, delete_writers_ok).
    destruct (is_host st1).
    + apply foldl_writers_ok; [intros; by apply write_reliable_writers_ok|done].
    + case_decide; [by apply event_writers_ok|done].
  - destruct (inbound t); [|done]. destruct c; cbn; [|done]. unfold welcome. cbv zeta.
    apply announce_writers_ok, foldl_writers_ok; [intros; by apply write_reliable_writers_ok|].
    by apply write_reliable_writers_ok, add_link_writers_ok.
Qed.

Lemma begin_writers_ok dialled : writers_ok (state (begin dialled)).
Proof.
  assert (∀ b, writers_ok (empty_state b)) as He by (by split; cbn).
  destruct dialled as [[c|err]|]; cbn; [by apply add_link_writers_ok|by apply event_writers_ok..].
Qed.

Lemma run_writers_ok inputs t :
  writers_ok (state t) → running (run t inputs) = true → writers_ok (state (run t inputs)).
Proof.
  revert t. induction inputs as [|i l IH]; intros t Hok Hr; [done|].
  change (run t (i :: l)) with (run (step i.1 t i.2) l) in *.
  apply IH; [|done]. apply step_writers_ok; [done|]. by eapply run_running.
Qed.

(** Godot's target convention, as a set. *)
Definition recipients (st : State) (target : Z) : gset Z :=
  if decide (target ≤ 0) then dom (links st) ∖ {[- target]}
  else if decide (target ∈ dom (links st)) then {[target]}
  else {[HOST_ID]} ∩ dom (links st).

Lemma send_reliable_outbox mds target channel data st q d :
  writers_ok st → i32_min < target ≤ i32_max →
  outbox (send mds target channel Reliable data st) q d =
    outbox st q d ++
      (if decide (q ∈ recipients st target ∧ d = channel) then [data] else []).
Proof.
  intros Hok Ht. unfold send, recipients. case_decide as Hneg.
  - assert (i32_neg target = - target) as -> by (unfold_ints; case_decide; Z.div_mod_to_equations; lia).
    set (peers := base.filter _ _).
    assert (∀ p, p ∈ peers ↔ p ∈ dom (links st) ∖ {[- target]}) as Hp.
    { intros p. subst peers. rewrite list_elem_of_filter, elem_of_hash_keys. set_solver. }
    destruct (broadcast_outbox channel data peers st) as (_ & _ & Hout).
    { apply NoDup_filter, NoDup_hash_keys. } { intros p Hin%Hp. set_solver. } { done. }
    cbn [send_one]. rewrite Hout. f_equal. repeat case_decide; naive_solver.
  - cbn [send_one]. rewrite write_reliable_outbox by done. f_equal.
    pose proof (elem_of_dom (links st) target) as Hdt.
    pose proof (elem_of_dom (links st) HOST_ID) as Hdh.
    apply decide_ext. repeat case_decide; set_solver.
Qed.
End routing.

(** ** Properties *)

(** C14: every client sees the host's members. In a host session in which clients
    do not write control messages and script stays off the control channel, and
    as long as ids last, at every moment and for every linked client: applying
    the control frames queued to that client, from the first on, gives exactly
    the host itself and every other linked peer. The host has announced exactly
    the linked peers. Commands, departures, datagram limits and map iteration
    orders may interleave in any way. *)
Theorem clients_see_the_hosts_members `{HashOrder} inputs p :
  let t := run run_host inputs in
  Forall (λ i, honest i.2) inputs → accepted inputs ≤ max_accepts →
  running t = true → p ∈ dom (links (state t)) →
  client_view (outbox (state t) p CONTROL_CHANNEL) =
    {[HOST_ID]} ∪ (dom (links (state t)) ∖ {[p]})
  ∧ announced (state t) = dom (links (state t)).
Proof.
  intros t Hh Hmax Hr Hp.
  destruct (run_host_ok 0 run_host inputs Hh) as (n & _ & [_ Hok _]);
    [done|apply host_task_start|done|].
  split; [by apply Hok|apply Hok].
Qed.

(** Three clients join, the second leaves. *)
Definition example_inputs : list ((Conn → option Z) * Input) :=
  (λ i, (λ _, None, i)) <$>
    [OnConnection (Some 10%nat); OnConnection (Some 11%nat); OnConnection (Some 12%nat);
     OnCommand (Some (Disconnect 3)); OnInternal (Some (Lost 3));
     OnCommand (Some (Send 0 5 Reliable [x01]))].

Lemma clients_see_the_hosts_members_witness :
  client_view (outbox (state (@run listing_order run_host example_inputs)) 2 CONTROL_CHANNEL) =
    {[HOST_ID]} ∪ (dom (links (state (@run listing_order run_host example_inputs))) ∖ {[2]})
  ∧ announced (state (@run listing_order run_host example_inputs)) =
      dom (links (state (@run listing_order run_host example_inputs))).
Proof.
  refine (@clients_see_the_hosts_members listing_order example_inputs 2 _ _ _ _);
    [by_decision|by_decision|reflexivity|by_decision].
Defined.

(** C35: ids are never handed out twice. Up to [2^31 - 2] accepted connections,
    the id the next one will get is larger than that of every linked peer, so
    accepting it can neither replace a live link nor give a newcomer the id of
    somebody who left; ids start at 2 and 1 stays the host's. *)
Theorem accepted_ids_are_fresh `{HashOrder} inputs :
  let t := run run_host inputs in
  Forall (λ i, honest i.2) inputs → accepted inputs < max_accepts → running t = true →
  next_id t ≤ i32_max ∧
  (∀ p, p ∈ dom (links (state t)) → HOST_ID < p < next_id t) ∧
  ∀ mds c, inbound t = true →
    next_id t < next_id (step mds t (OnConnection (Some c))) ∨
    accepted inputs + 1 = max_accepts.
Proof.
  intros t Hh Hmax Hr.
  destruct (run_host_ok 0 run_host inputs Hh) as (n & Hn & [_ Hok Hnext]);
    [cbn; lia|apply host_task_start|done|].
  fold t in Hok, Hnext. rewrite Hnext by lia.
  assert (FIRST_CLIENT_ID + n ≤ i32_max) as Hb
    by (unfold max_accepts, FIRST_CLIENT_ID in *; lia).
  split_and!; [done| |].
  - intros p Hp. pose proof (host_ids _ _ Hok p Hp).
    unfold FIRST_CLIENT_ID, HOST_ID in *. lia.
  - intros mds c Hin. unfold step. rewrite Hr, Hin. cbn [next_id].
    destruct (decide (accepted inputs + 1 = max_accepts)) as [|Hne]; [by right|left].
    rewrite Hnext by lia. unfold i32_wrapping_add.
    rewrite to_i32_small; unfold max_accepts in *; unfold_ints; unfold FIRST_CLIENT_ID in *; lia.
Qed.

Lemma accepted_ids_are_fresh_witness :
  next_id (@run listing_order run_host example_inputs) ≤ i32_max ∧
  (∀ p, p ∈ dom (links (state (@run listing_order run_host example_inputs))) →
     HOST_ID < p < next_id (@run listing_order run_host example_inputs)) ∧
  ∀ mds c, inbound (@run listing_order run_host example_inputs) = true →
    next_id (@run listing_order run_host example_inputs) <
      next_id (@step listing_order mds (@run listing_order run_host example_inputs)
                 (OnConnection (Some c))) ∨
    accepted example_inputs + 1 = max_accepts.
Proof.
  refine (@accepted_ids_are_fresh listing_order example_inputs _ _ _);
    [by_decision|by_decision|reflexivity].
Defined.

(** C11: a reliable packet is queued to whom Godot's target convention says, once
    each, on the packet's channel, behind everything queued there before, and to
    nobody else: [0] is everyone, a negative id everyone but that peer, a
    positive one that peer if there is a link to it and the host otherwise. In
    any session, after anything that can happen to it. *)
Theorem reliable_send_reaches_recipients `{HashOrder} dialled inputs mds target channel data q d :
  let st := state (run (begin dialled) inputs) in
  running (run (begin dialled) inputs) = true → i32_min < target ≤ i32_max →
  outbox (send mds target channel Reliable data st) q d =
    outbox st q d ++
      (if decide (q ∈ recipients st target ∧ d = channel) then [data] else []).
Proof.
  intros st Hr Ht. apply send_reliable_outbox; [|done].
  by apply run_writers_ok; [apply begin_writers_ok|].
Qed.

Lemma reliable_send_reaches_recipients_witness :
  let st := state (@run listing_order (begin None) example_inputs) in
  outbox (@send (λ _, None) listing_order (-2) 5 Reliable [x02] st) 4 5 =
    outbox st 4 5 ++ (if decide (4 ∈ recipients st (-2) ∧ 5 = 5) then [[x02]] else []).
Proof.
  refine (@reliable_send_reaches_recipients listing_order None example_inputs (λ _, None)
    (-2) 5 [x02] 4 5 _ _); [reflexivity|by_decision].
Defined.

(** the session itself does not relay. A packet for a peer there is no link
    to is treated exactly like a packet for the host, so nothing in it says whom
    it was meant for; and on the host, which has no link to itself, it is
    dropped without a word. *)
Lemma unlinked_targets_are_not_relayed `{HashOrder} inputs mds target channel mode data st :
  0 < target → target ∉ dom (links st) →
  send mds target channel mode data st = send mds HOST_ID channel mode data st ∧
  (Forall (λ i, honest i.2) inputs → accepted inputs ≤ max_accepts →
   running (run run_host inputs) = true → st = state (run run_host inputs) →
   send mds target channel mode data st = st).
Proof.
  intros Ht Hno. apply not_elem_of_dom in Hno.
  assert (send mds target channel mode data st = send mds HOST_ID channel mode data st) as He.
  { unfold send. rewrite !decide_False by (unfold HOST_ID; lia || (rewrite Hno; by intros [? ?])).
    by case_decide. }
  split; [done|]. intros Hh Hmax Hr ->. rewrite He.
  destruct (run_host_ok 0 run_host inputs Hh) as (n & _ & [_ Hok _]);
    [done|apply host_task_start|done|].
  assert (links (state (run run_host inputs)) !! HOST_ID = None) as Hnone.
  { apply not_elem_of_dom. intros Hin%(host_ids _ _ Hok).
    unfold FIRST_CLIENT_ID, HOST_ID in *. lia. }
  unfold send. rewrite decide_False by (unfold HOST_ID; lia).
  assert (∀ b : bool, send_one mds (if b then HOST_ID else HOST_ID) channel mode data
    (state (run run_host inputs)) = state (run run_host inputs)) as Hs.
  { intros b. destruct mode; destruct b; cbn; unfold write_reliable, write_datagram;
      by rewrite Hnone. }
  case_decide; apply (Hs true).
Qed.

Lemma unlinked_targets_are_not_relayed_witness :
  let st := state (@run listing_order run_host example_inputs) in
  @send (λ _, None) listing_order 3 5 Reliable [x02] st =
    @send (λ _, None) listing_order HOST_ID 5 Reliable [x02] st ∧
  (Forall (λ i, honest i.2) example_inputs → accepted example_inputs ≤ max_accepts →
   running (@run listing_order run_host example_inputs) = true → st = st →
   @send (λ _, None) listing_order 3 5 Reliable [x02] st = st).
Proof.
  refine (@unlinked_targets_are_not_relayed listing_order example_inputs (λ _, None) 3 5
    Reliable [x02] (state (@run listing_order run_host example_inputs)) _ _);
    [reflexivity|by_decision].
Defined.

(** An oversized datagram is not lost. If the framed packet exceeds what the
    connection takes, no datagram is sent, the payload is queued reliably on the
    same channel, and the developer is warned the first time this happens on
    that channel of that link and never again. *)
Lemma oversized_datagram_goes_reliable mds peer channel mode data st link :
  writers_ok st → links st !! peer = Some link → mode ≠ Reliable →
  default 0 (mds (connection link)) < DATAGRAM_HEADER + len data →
  let st' := write_datagram mds peer channel mode data st in
  (∀ q d, outbox st' q d =
     outbox st q d ++ (if decide (q = peer ∧ d = channel) then [data] else [])) ∧
  (∀ c, datagrams_to c (effects st') = datagrams_to c (effects st)) ∧
  sent_events st' = sent_events st ++
    (if decide (channel ∈ warned link) then []
     else [Warning (oversize_warning (len data) (default 0 (mds (connection link))) channel)]) ∧
  ∃ link', links st' !! peer = Some link' ∧ channel ∈ warned link'.
Proof.
  intros Hok Hl Hmode Hbig. cbv zeta. unfold write_datagram. rewrite Hl.
  set (seq_link := if decide (mode = UnreliableOrdered) then _ else _).
  assert (connection seq_link.2 = connection link ∧ reliable seq_link.2 = reliable link
    ∧ warned seq_link.2 = warned link) as (Hc & Hr & Hw)
    by (subst seq_link; by case_decide).
  destruct seq_link as [s link1]; cbn in Hc, Hr, Hw.
  rewrite decide_True by (rewrite Hc; unfold datagram_bytes; rewrite !len_app;
    unfold DATAGRAM_HEADER, len in *; simpl; lia).
  set (link' := mk_link _ _ _ _).
  destruct (replace_link peer link link' st) as [Hok1 Hout1]; [done..|].
  set (st1 := set_links _ st) in *. rewrite Hc, Hw.
  set (st2 := if decide (channel ∈ warned link) then _ else _).
  assert (writers_ok st2 ∧ (∀ q d, outbox st2 q d = outbox st q d) ∧
    links st2 !! peer = Some link' ∧ effects st2 = effects st) as (Hok2 & Hout2 & Hl2 & He2).
  { subst st2. case_decide; cbn; rewrite lookup_insert_eq; split_and!; try done.
    by apply (writers_ok_ext st1). }
  split_and!.
  - intros q d. rewrite write_reliable_outbox, Hout2 by done. f_equal.
    rewrite Hl2. apply decide_ext. naive_solver.
  - intros c. rewrite <- He2. unfold write_reliable, writer_for. rewrite Hl2.
    destruct (reliable link' !! channel); cbn; unfold datagrams_to;
      by rewrite ?omap_snoc, ?app_nil_r.
  - assert (sent_events (write_reliable peer channel data st2) = sent_events st2) as ->.
    { unfold write_reliable, writer_for. rewrite Hl2. by destruct (reliable link' !! channel). }
    subst st2. case_decide; cbn; by rewrite ?app_nil_r.
  - unfold write_reliable, writer_for. rewrite Hl2.
    destruct (reliable link' !! channel); cbn; rewrite ?lookup_insert_eq, ?Hl2;
      eexists; (split; [done|]); cbn; set_solver.
Qed.

Lemma oversized_datagram_goes_reliable_witness :
  let st := add_link 2 10%nat (empty_state true) in
  let st' := write_datagram (λ _, Some 9) 2 4 Unreliable [x01; x02] st in
  (∀ q d, outbox st' q d =
     outbox st q d ++ (if decide (q = 2 ∧ d = 4) then [[x01; x02]] else [])) ∧
  (∀ c, datagrams_to c (effects st') = datagrams_to c (effects st)) ∧
  sent_events st' = [] ++ (if decide (4 ∈ (∅ : gset Z)) then []
     else [Warning (oversize_warning 2 9 4)]) ∧
  ∃ link', links st' !! 2 = Some link' ∧ 4 ∈ warned link'.
Proof.
  intros st.
  refine (oversized_datagram_goes_reliable (λ _, Some 9) 2 4 Unreliable [x01; x02] st
    (mk_link 10%nat ∅ ∅ ∅) _ _ _ _).
  - apply add_link_writers_ok. split; cbn; done.
  - reflexivity.
  - discriminate.
  - reflexivity.
Defined.
