(* ===== verification/Outgoing.v ===== *)
(** * What a session puts on a connection ([session.rs], the writing side of a link)

    [State] hands frames to writers and datagrams to iroh; which link, which
    writer and which sequence number a packet gets is spread over [send_one],
    [write_reliable], [write_datagram] and the maps of [Link]. Here the outside
    world is read off the effects, connection by connection: the frames of the
    one stream a channel has on it, and its datagrams. The abstract side is a
    list of parcels, the packets the task was told to send over that connection;
    the refinement is that the connection carries exactly the parcels. *)

From S2P Require Import Prelude Wire Session Membership.

(** ** The outside world, by connection *)

(** The writers spawned on a connection for a channel, and what was queued to the
    first (there is no other, see [wires_ok]). *)
Definition writers_on (c : Conn) (ch : Z) (effs : list Effect) : list nat :=
  omap (λ e, match e with
             | SpawnStreamWriter w c' ch' => if decide (c' = c ∧ ch' = ch) then Some w else None
             | _ => None
             end) effs.

Definition stream_on (c : Conn) (ch : Z) (effs : list Effect) : list bytes :=
  match writers_on c ch effs with
  | w :: _ => queued w effs
  | [] => []
  end.

(** The connections readers were spawned on. *)
Definition used (effs : list Effect) : list Conn :=
  omap (λ e, match e with SpawnReaders _ c => Some c | _ => None end) effs.

#[global] Arguments writers_on : simpl never.
#[global] Arguments used : simpl never.
#[local] Arguments datagrams_to : simpl never.

(** iroh hands over every connection once. *)
Definition fresh_input (st : State) (i : Input) : Prop :=
  match i with OnConnection (Some c) => c ∉ used (effects st) | _ => True end.

#[export] Instance fresh_input_dec st i : Decision (fresh_input st i).
Proof. destruct i as [|?|[c|]]; cbn; apply _. Defined.

(** ** Parcels *)

(** A packet as it was ordered, and how it travels. *)
Record Parcel : Type := mk_parcel {
  target : Z;
  channel : Z;
  mode : Mode;
  data : bytes;
  carried : Mode;
}.

#[export] Instance Parcel_eq_dec : EqDecision Parcel.
Proof. solve_decision. Defined.

Definition ordered_by (x : Parcel) : Command := Send (target x) (channel x) (mode x) (data x).

(** What does not fit in a datagram travels reliably. *)
Definition travels (limit : option Z) (m : Mode) (d : bytes) : Mode :=
  if decide (m ≠ Reliable ∧ default 0 limit < DATAGRAM_HEADER + len d) then Reliable else m.

(** Whether a send to [target] goes over [c]. *)
Definition reaches (st : State) (target : Z) (c : Conn) : Prop :=
  c ∈ omap (λ p, connection <$> links st !! p) (elements (recipients st target)).

#[export] Instance reaches_dec st target c : Decision (reaches st target c).
Proof. unfold reaches. apply _. Defined.

Definition parcels_of (sizes : Conn → option Z) (c : Conn) (st : State) (i : Input) : list Parcel :=
  match i with
  | OnCommand (Some (Send target channel mode data)) =>
      if decide (reaches st target c)
      then [mk_parcel target channel mode data (travels (sizes c) mode data)]
      else []
  | _ => []
  end.

Section log.
Context `{HashOrder}.

(** The parcels of a run for the connection [c]. *)
Fixpoint parcels (c : Conn) (t : Task) (inputs : list ((Conn → option Z) * Input)) : list Parcel :=
  match inputs with
  | [] => []
  | (sizes, i) :: inputs =>
      (if running t then parcels_of sizes c (state t) i else []) ++ parcels c (step sizes t i) inputs
  end.

Fixpoint fresh_run (t : Task) (inputs : list ((Conn → option Z) * Input)) : Prop :=
  match inputs with
  | [] => True
  | (sizes, i) :: inputs => fresh_input (state t) i ∧ fresh_run (step sizes t i) inputs
  end.

#[export] Instance fresh_run_dec t inputs : Decision (fresh_run t inputs).
Proof. revert t. induction inputs as [|[sizes i] inputs IH]; intros t; cbn; apply _. Defined.

Lemma parcels_app c t ins ins' :
  parcels c t (ins ++ ins') = parcels c t ins ++ parcels c (run t ins) ins'.
Proof.
  revert t. induction ins as [|[sizes i] ins IH]; intros t; [done|].
  cbn. by rewrite IH, app_assoc.
Qed.
End log.

(** The frames and the datagrams of a list of parcels. The number of an ordered
    datagram counts the ordered packets of its channel, those that grew too
    large included. *)
Definition reliable_on (ch : Z) (L : list Parcel) : list bytes :=
  data <$> base.filter (λ x, channel x = ch ∧ carried x = Reliable) L.

Definition count_ordered (ch : Z) (L : list Parcel) : nat :=
  length (base.filter (λ x, channel x = ch ∧ mode x = UnreliableOrdered) L).

Definition sequence_of (before : list Parcel) (x : Parcel) : Z :=
  if decide (mode x = UnreliableOrdered) then nth_sequence (S (count_ordered (channel x) before)) else 0.

Definition flight (before : list Parcel) (x : Parcel) : list bytes :=
  if decide (carried x = Reliable) then []
  else [datagram_bytes (channel x) (sequence_of before x) (data x)].

Fixpoint flights (before L : list Parcel) : list bytes :=
  match L with
  | [] => []
  | x :: L => flight before x ++ flights (before ++ [x]) L
  end.

Lemma flights_app before L L' : flights before (L ++ L') = flights before L ++ flights (before ++ L) L'.
Proof.
  revert before. induction L as [|x L IH]; intros before; cbn; [by rewrite app_nil_r|].
  by rewrite IH, <- !app_assoc.
Qed.

Lemma reliable_on_app ch L L' : reliable_on ch (L ++ L') = reliable_on ch L ++ reliable_on ch L'.
Proof. unfold reliable_on. by rewrite filter_app, fmap_app. Qed.

Lemma count_ordered_snoc ch L x :
  count_ordered ch (L ++ [x]) =
    (count_ordered ch L + if decide (channel x = ch ∧ mode x = UnreliableOrdered) then 1 else 0)%nat.
Proof. unfold count_ordered. rewrite filter_app, length_app, filter_cons. by case_decide. Qed.

(** ** Wires

    Every link has a connection of its own; the writers of its map are the ones
    spawned on that connection, one for each channel. *)

Record wires_ok (st : State) : Prop := {
  w_ids p : p ∈ dom (links st) → 1 ≤ p ≤ i32_max;
  w_used p l : links st !! p = Some l → connection l ∈ used (effects st);
  w_inj p q l k : links st !! p = Some l → links st !! q = Some k → connection l = connection k → p = q;
  w_writers p l ch : links st !! p = Some l →
    writers_on (connection l) ch (effects st) = option_list (reliable l !! ch);
  w_unused c : c ∉ used (effects st) →
    (∀ ch, writers_on c ch (effects st) = []) ∧ datagrams_to c (effects st) = [];
  w_apart w c ch c' ch' :
    w ∈ writers_on c ch (effects st) → w ∈ writers_on c' ch' (effects st) → c = c' ∧ ch = ch';
  w_bound w c ch : w ∈ writers_on c ch (effects st) → (w < next_writer st)%nat;
  w_empty w : (next_writer st ≤ w)%nat → queued w (effects st) = [];
}.

(** What a link is to the writing side, but for its writers. *)
Definition sockets (st : State) : gmap Z (Conn * gmap Z Z) :=
  (λ l, (connection l, sequences l)) <$> links st.

Lemma sockets_dom st st' : sockets st' = sockets st → dom (links st') = dom (links st).
Proof.
  intros Hs. apply (f_equal dom) in Hs. unfold sockets in Hs. by rewrite !dom_fmap_L in Hs.
Qed.

Lemma writers_on_snoc c ch effs e :
  writers_on c ch (effs ++ [e]) = writers_on c ch effs ++
    match e with
    | SpawnStreamWriter w c' ch' => if decide (c' = c ∧ ch' = ch) then [w] else []
    | _ => []
    end.
Proof. unfold writers_on. rewrite omap_snoc. f_equal. destruct e; try done. by case_decide. Qed.

Lemma used_snoc effs e :
  used (effs ++ [e]) = used effs ++ match e with SpawnReaders _ c => [c] | _ => [] end.
Proof. unfold used. rewrite omap_snoc. by destruct e. Qed.

Lemma datagrams_to_snoc c effs e :
  datagrams_to c (effs ++ [e]) = datagrams_to c effs ++
    match e with SendDatagram c' d => if decide (c' = c) then [d] else [] | _ => [] end.
Proof. unfold datagrams_to. rewrite omap_snoc. f_equal. destruct e; try done. by case_decide. Qed.

Lemma stream_on_other c ch effs e :
  match e with QueueFrame _ _ | SpawnStreamWriter _ _ _ => False | _ => True end →
  stream_on c ch (effs ++ [e]) = stream_on c ch effs.
Proof.
  intros He. unfold stream_on. rewrite writers_on_snoc.
  destruct e; try done; rewrite app_nil_r; destruct (writers_on c ch effs); [done| |done| |done|];
    by rewrite queued_snoc, app_nil_r.
Qed.

(** A new writer on a channel that has none changes no stream. *)
Lemma stream_on_spawn c ch effs w c0 ch0 :
  writers_on c0 ch0 effs = [] → queued w effs = [] →
  stream_on c ch (effs ++ [SpawnStreamWriter w c0 ch0]) = stream_on c ch effs.
Proof.
  intros H0 Hw. unfold stream_on. rewrite writers_on_snoc. case_decide as Hc.
  - destruct Hc as [-> ->]. rewrite H0. cbn. by rewrite queued_snoc, app_nil_r.
  - rewrite app_nil_r. destruct (writers_on c ch effs); [done|]. by rewrite queued_snoc, app_nil_r.
Qed.

(** A frame lengthens the stream of its writer. *)
Lemma stream_on_queue c ch effs w d c0 ch0 :
  writers_on c0 ch0 effs = [w] →
  (∀ c ch, w ∈ writers_on c ch effs → c = c0 ∧ ch = ch0) →
  stream_on c ch (effs ++ [QueueFrame w d]) =
    stream_on c ch effs ++ (if decide (c = c0 ∧ ch = ch0) then [d] else []).
Proof.
  intros H0 Hw. unfold stream_on. rewrite writers_on_snoc, app_nil_r. case_decide as Hc.
  - destruct Hc as [-> ->]. rewrite H0, queued_snoc. by rewrite decide_True.
  - rewrite app_nil_r. destruct (writers_on c ch effs) as [|w' ws] eqn:Hws; [done|].
    rewrite queued_snoc, decide_False, app_nil_r; [done|]. intros ->.
    apply Hc, Hw. rewrite Hws. left.
Qed.

Lemma wires_perform e st :
  match e with QueueFrame w _ => (w < next_writer st)%nat | SendDatagram c _ => c ∈ used (effects st)
             | CloseConnection _ _ _ => True | _ => False end →
  wires_ok st → wires_ok (perform e st).
Proof.
  intros He [H1 H2 H3 H4 H5 H6 H7 H8].
  assert (∀ c ch, writers_on c ch (effects st ++ [e]) = writers_on c ch (effects st)) as Hw
    by (intros; rewrite writers_on_snoc; destruct e; try done; by rewrite app_nil_r).
  assert (used (effects st ++ [e]) = used (effects st)) as Hu
    by (rewrite used_snoc; destruct e; try done; by rewrite app_nil_r).
  split; cbn; rewrite ?Hu; try done; try (intros *; rewrite ?Hw; eauto; fail).
  - intros c Hc. destruct (H5 c Hc) as [Hn Hd]. split; [intros ch; by rewrite Hw|].
    rewrite datagrams_to_snoc, Hd. destruct e; try done. rewrite decide_False; [done|]. by intros ->.
  - intros w Hn. rewrite queued_snoc, H8 by done. destruct e; try done.
    rewrite decide_False; [done|lia].
Qed.

(** What only changes links, and in them neither connection nor writers. *)
Lemma wires_links st st' :
  effects st' = effects st → next_writer st' = next_writer st →
  (∀ p l, links st' !! p = Some l →
     ∃ k, links st !! p = Some k ∧ connection l = connection k ∧ reliable l = reliable k) →
  wires_ok st → wires_ok st'.
Proof.
  intros He Hn Hl [H1 H2 H3 H4 H5 H6 H7 H8]. split; rewrite ?He, ?Hn; try done.
  - intros p [l (k & Hk & _)%Hl]%elem_of_dom. apply H1, elem_of_dom. by exists k.
  - intros p l (k & Hk & -> & _)%Hl. eauto.
  - intros p q l l' (k & Hk & -> & _)%Hl (k' & Hk' & -> & _)%Hl. eauto.
  - intros p l ch (k & Hk & -> & ->)%Hl. eauto.
Qed.

Lemma wires_ext st st' :
  effects st' = effects st → links st' = links st → next_writer st' = next_writer st →
  wires_ok st → wires_ok st'.
Proof. intros He Hl Hn []. split; rewrite ?He, ?Hl, ?Hn; done. Qed.

(** The writer of a channel that has none. *)
Lemma writer_wires p ch st l :
  wires_ok st → links st !! p = Some l → reliable l !! ch = None →
  let w := next_writer st in
  let st' := (writer_for p ch l st).2 in
  (writer_for p ch l st).1 = w ∧ wires_ok st' ∧ used (effects st') = used (effects st) ∧
  sockets st' = sockets st ∧ (w < next_writer st')%nat ∧ writers_on (connection l) ch (effects st') = [w] ∧
  (∀ c, datagrams_to c (effects st') = datagrams_to c (effects st)) ∧
  ∀ c ch', stream_on c ch' (effects st') = stream_on c ch' (effects st).
Proof.
  intros Hok Hl Hw. pose proof (w_writers _ Hok p l ch Hl) as Hch. pose proof Hok as [H1 H2 H3 H4 H5 H6 H7 H8].
  unfold writer_for. rewrite Hw in *. cbn [fst snd]. cbn in Hch. set (w := next_writer st).
  set (l' := mk_link _ _ _ _). set (e := SpawnStreamWriter _ _ _).
  assert (∀ c ch', w ∉ writers_on c ch' (effects st)) as Hnew by (intros c ch' Hin%H7; subst w; lia).
  assert (∀ w' c ch', w' ∈ writers_on c ch' (effects st ++ [e]) →
    (w' = w ∧ c = connection l ∧ ch' = ch) ∨ w' ∈ writers_on c ch' (effects st)) as Hin.
  { intros w' c ch'. unfold e. rewrite writers_on_snoc, elem_of_app. case_decide as Hc.
    - destruct Hc as [-> ->]. rewrite list_elem_of_singleton. tauto.
    - intros [?|?%not_elem_of_nil]; [by right|done]. }
  assert (∀ q k, <[p := l']> (links st) !! q = Some k →
    ∃ k', links st !! q = Some k' ∧ connection k = connection k' ∧
      ∀ c, reliable k !! c = if decide (q = p ∧ ch = c) then Some w else reliable k' !! c) as Hold.
  { intros q k. destruct (decide (p = q)) as [<-|Hne].
    - rewrite lookup_insert_eq. intros [= <-]. exists l. split_and!; [done|done|]. intros c. cbn.
      destruct (decide (ch = c)) as [<-|Hc]; [by rewrite lookup_insert_eq, decide_True|].
      by rewrite lookup_insert_ne, decide_False by naive_solver.
    - rewrite lookup_insert_ne by done. intros Hk. exists k. split_and!; [done|done|]. intros c.
      by rewrite decide_False by naive_solver. }
  split_and!; [done| | | |cbn; lia| | |].
  - split; cbn.
    + intros q [k (k' & Hk & _)%Hold]%elem_of_dom. apply H1, elem_of_dom. by exists k'.
    + intros q k (k' & Hk & -> & _)%Hold. unfold e. rewrite used_snoc, app_nil_r. eauto.
    + intros q r k1 k2 (k1' & Hk1 & -> & _)%Hold (k2' & Hk2 & -> & _)%Hold. eauto.
    + intros q k c (k' & Hk & -> & ->)%Hold. unfold e. rewrite writers_on_snoc, (H4 q k' c) by done.
      destruct (decide (q = p ∧ ch = c)) as [[-> <-]|Hn].
      * simplify_eq. by rewrite decide_True, Hw.
      * rewrite decide_False; [by rewrite app_nil_r|]. intros [Heq <-]. apply Hn. split; [|done].
        symmetry. by apply (H3 p q l k').
    + intros c. unfold e. rewrite used_snoc, app_nil_r. intros Hc. destruct (H5 c Hc) as [Hn Hd].
      split; [|by rewrite datagrams_to_snoc, Hd]. intros ch'. rewrite writers_on_snoc, Hn.
      rewrite decide_False; [done|]. intros [<- _]. by apply Hc, (H2 p).
    + intros w' c1 ch1 c2 ch2 [(-> & -> & ->)|E1]%Hin [(E' & -> & ->)|E2]%Hin; try done; subst;
        [by destruct (Hnew c2 ch2)|by destruct (Hnew c1 ch1)|by eapply H6].
    + intros w' c ch' [(-> & _)|E1]%Hin; [lia|]. apply H7 in E1. lia.
    + intros w' Hn. unfold e. rewrite queued_snoc, app_nil_r. apply H8. lia.
  - cbn. unfold e. by rewrite used_snoc, app_nil_r.
  - unfold sockets. cbn. rewrite fmap_insert. apply insert_id. by rewrite lookup_fmap, Hl.
  - cbn. unfold e. by rewrite writers_on_snoc, Hch, decide_True.
  - intros c. cbn. unfold e. by rewrite datagrams_to_snoc, app_nil_r.
  - intros c ch'. cbn. apply stream_on_spawn; [done|]. by apply H8.
Qed.

(** A frame, for a writer that is there. *)
Lemma queue_wires st w c0 ch d :
  wires_ok st → writers_on c0 ch (effects st) = [w] →
  let st' := perform (QueueFrame w d) st in
  wires_ok st' ∧ used (effects st') = used (effects st) ∧ sockets st' = sockets st ∧
  (∀ c, datagrams_to c (effects st') = datagrams_to c (effects st)) ∧
  ∀ c ch', stream_on c ch' (effects st') =
    stream_on c ch' (effects st) ++ (if decide (c = c0 ∧ ch' = ch) then [d] else []).
Proof.
  intros Hok Hw. assert (w ∈ writers_on c0 ch (effects st)) as Hin by (rewrite Hw; left).
  split_and!; [by apply wires_perform; [by eapply w_bound|]|cbn; by rewrite used_snoc, app_nil_r|done| |].
  - intros c. cbn. by rewrite datagrams_to_snoc, app_nil_r.
  - intros c ch'. cbn. apply stream_on_queue; [done|]. intros c' ch'' Hin'. by eapply w_apart.
Qed.

Lemma write_reliable_wires p ch d st l :
  wires_ok st → links st !! p = Some l →
  let st' := write_reliable p ch d st in
  wires_ok st' ∧ used (effects st') = used (effects st) ∧ sockets st' = sockets st ∧
  (∀ c, datagrams_to c (effects st') = datagrams_to c (effects st)) ∧
  ∀ c ch', stream_on c ch' (effects st') =
    stream_on c ch' (effects st) ++ (if decide (c = connection l ∧ ch' = ch) then [d] else []).
Proof.
  intros Hok Hl. cbv zeta. unfold write_reliable. rewrite Hl.
  pose proof (w_writers _ Hok p l ch Hl) as Hch.
  destruct (reliable l !! ch) as [w|] eqn:Hw; cbn in Hch.
  - unfold writer_for. rewrite Hw. by apply queue_wires.
  - destruct (writer_wires p ch st l Hok Hl Hw) as (E1 & E2 & E3 & E4 & _ & E5 & E6 & E7).
    destruct (writer_for p ch l st) as [w st']. cbn [fst snd] in *. subst w.
    destruct (queue_wires st' _ _ ch d E2 E5) as (F1 & F2 & F3 & F4 & F5).
    split_and!; [done|by rewrite F2|by rewrite F3|intros; by rewrite F4|intros; by rewrite F5, E7].
Qed.

(** ** The connection carries the parcels *)

Record outgoing (c : Conn) (st : State) (L : list Parcel) : Prop := {
  og_stream ch : ch ≠ CONTROL_CHANNEL → stream_on c ch (effects st) = reliable_on ch L;
  og_datagrams : datagrams_to c (effects st) = flights [] L;
  og_counter p l ch : links st !! p = Some l → connection l = c →
    default 0 (sequences l !! ch) = nth_sequence (count_ordered ch L);
  og_new : c ∉ used (effects st) → L = [];
}.

(** What leaves the wires of [c], but for control frames, and its counters as
    they are. *)
Lemma outgoing_kept c st st' L :
  (∀ ch, ch ≠ CONTROL_CHANNEL → stream_on c ch (effects st') = stream_on c ch (effects st)) →
  datagrams_to c (effects st') = datagrams_to c (effects st) →
  (∀ p l, links st' !! p = Some l → connection l = c →
     ∃ q k, links st !! q = Some k ∧ connection k = c ∧ sequences k = sequences l) →
  (c ∈ used (effects st) → c ∈ used (effects st')) →
  outgoing c st L → outgoing c st' L.
Proof.
  intros Hs Hd Hl Hu [H1 H2 H3 H4]. split.
  - intros ch Hch. by rewrite Hs, H1.
  - by rewrite Hd.
  - intros p l ch Hp Hc. destruct (Hl p l Hp Hc) as (q & k & Hq & Hk & <-). by apply (H3 q).
  - intros Hn. apply H4. auto.
Qed.

Lemma sockets_lookup st st' p l :
  sockets st' = sockets st → links st' !! p = Some l →
  ∃ k, links st !! p = Some k ∧ connection k = connection l ∧ sequences k = sequences l.
Proof.
  intros Hs Hl. apply (f_equal (lookup p)) in Hs. unfold sockets in Hs.
  rewrite !lookup_fmap, Hl in Hs. destruct (links st !! p) as [k|]; [|done].
  cbn in Hs. injection Hs as -> ->. by exists k.
Qed.

(** A control frame is not a parcel. *)
Lemma control_to_outgoing p control st :
  wires_ok st →
  let st' := control_to p control st in
  wires_ok st' ∧ used (effects st') = used (effects st) ∧ sockets st' = sockets st ∧
  ∀ c L, outgoing c st L → outgoing c st' L.
Proof.
  intros Hok. cbv zeta. unfold control_to. destruct (links st !! p) as [l|] eqn:Hl.
  2:{ unfold write_reliable. rewrite Hl. done. }
  destruct (write_reliable_wires p CONTROL_CHANNEL (encode control) st l Hok Hl) as (W1 & W2 & W3 & W4 & W5).
  split_and!; [done..|]. intros c L. apply outgoing_kept.
  - intros ch Hch. rewrite W5, decide_False by naive_solver. by rewrite app_nil_r.
  - by rewrite W4.
  - intros q k Hk Hc. destruct (sockets_lookup _ _ _ _ W3 Hk) as (k' & ? & ? & ?).
    exists q, k'. split_and!; congruence.
  - by rewrite W2.
Qed.

Lemma controls_outgoing f (ps : list Z) st :
  wires_ok st →
  let st' := foldl (λ st p, control_to p f st) st ps in
  wires_ok st' ∧ used (effects st') = used (effects st) ∧ sockets st' = sockets st ∧
  ∀ c L, outgoing c st L → outgoing c st' L.
Proof.
  intros Hok. apply (foldl_preserves _ (λ st', wires_ok st' ∧ used (effects st') = used (effects st) ∧
    sockets st' = sockets st ∧ ∀ c L, outgoing c st L → outgoing c st' L)); [done|].
  intros st1 p (K1 & K2 & K3 & K4). destruct (control_to_outgoing p f st1 K1) as (E1 & E2 & E3 & E4).
  split_and!; [done|by rewrite E2|by rewrite E3|]. intros c L Hc. by apply E4, K4.
Qed.

(** One parcel, on the link to [p]. *)
Lemma outgoing_parcel c st st' L p l x seqs :
  wires_ok st → outgoing c st L → links st !! p = Some l →
  used (effects st') = used (effects st) →
  sockets st' = <[p := (connection l, seqs)]> (sockets st) →
  (∀ ch, default 0 (seqs !! ch) =
     if decide (channel x = ch ∧ mode x = UnreliableOrdered)
     then next_sequence (default 0 (sequences l !! ch)) else default 0 (sequences l !! ch)) →
  (∀ c ch, stream_on c ch (effects st') = stream_on c ch (effects st)
     ++ (if decide (c = connection l ∧ ch = channel x ∧ carried x = Reliable) then [data x] else [])) →
  (∀ c, datagrams_to c (effects st') = datagrams_to c (effects st)
     ++ (if decide (c = connection l ∧ carried x ≠ Reliable)
         then [datagram_bytes (channel x)
                 (if decide (mode x = UnreliableOrdered)
                  then next_sequence (default 0 (sequences l !! channel x)) else 0) (data x)]
         else [])) →
  outgoing c st' (L ++ if decide (connection l = c) then [x] else []).
Proof.
  intros Hok [H1 H2 H3 H4] Hl Hu Hs Hq Hstr Hdg. destruct (decide (connection l = c)) as [Hc|Hc].
  - split.
    + intros ch Hch. rewrite Hstr, H1, reliable_on_app by done. f_equal. unfold reliable_on.
      rewrite filter_cons, filter_nil. repeat case_decide; naive_solver.
    + rewrite Hdg, H2, flights_app. f_equal. cbn. rewrite app_nil_r. unfold flight, sequence_of.
      unfold nth_sequence. rewrite Nat.iter_succ. change (Nat.iter ?n next_sequence 0) with (nth_sequence n).
      rewrite <- (H3 p l (channel x)) by done. repeat case_decide; naive_solver.
    + intros q k ch Hk Hkc. apply (f_equal (lookup q)) in Hs. unfold sockets in Hs.
      rewrite lookup_fmap, Hk in Hs. cbn in Hs. destruct (decide (p = q)) as [<-|Hne].
      * rewrite lookup_insert_eq in Hs. injection Hs as _ ->. rewrite Hq, count_ordered_snoc.
        rewrite (H3 p l ch) by done.
        destruct (decide (channel x = ch ∧ mode x = UnreliableOrdered)); [|by f_equal; lia].
        rewrite Nat.add_1_r. unfold nth_sequence. by rewrite Nat.iter_succ.
      * rewrite lookup_insert_ne, lookup_fmap in Hs by done.
        destruct (links st !! q) as [k'|] eqn:Hk'; [|done]. cbn in Hs. injection Hs as Hkk _.
        destruct Hne. apply (w_inj _ Hok p q l k'); [done|done|congruence].
    + rewrite Hu. intros Hn. destruct Hn. rewrite <- Hc. by apply (w_used _ Hok p).
  - rewrite app_nil_r. apply (outgoing_kept c st).
    + intros ch _. rewrite Hstr, decide_False by naive_solver. by rewrite app_nil_r.
    + rewrite Hdg, decide_False by naive_solver. by rewrite app_nil_r.
    + intros q k Hk Hkc. apply (f_equal (lookup q)) in Hs. unfold sockets in Hs.
      rewrite lookup_fmap, Hk in Hs. cbn in Hs. destruct (decide (p = q)) as [<-|Hne].
      * rewrite lookup_insert_eq in Hs. injection Hs as ? _. congruence.
      * rewrite lookup_insert_ne, lookup_fmap in Hs by done.
        destruct (links st !! q) as [k'|] eqn:Hk'; [|done]. cbn in Hs. injection Hs as ? ?.
        exists q, k'. split_and!; congruence.
    + by rewrite Hu.
    + by split.
Qed.

Lemma len_datagram ch s d : len (datagram_bytes ch s d) = DATAGRAM_HEADER + len d.
Proof.
  unfold datagram_bytes. rewrite !len_app. unfold len, DATAGRAM_HEADER.
  rewrite length_put_i32, length_put_u32. lia.
Qed.

(** The link after its counter was used, and the number the packet gets. *)
Definition counted (m : Mode) (ch : Z) (l : Link) : Link :=
  if decide (m = UnreliableOrdered)
  then mk_link (connection l) (reliable l) (<[ch := next_sequence (default 0 (sequences l !! ch))]> (sequences l))
         (warned l)
  else l.

Definition number (m : Mode) (ch : Z) (l : Link) : Z :=
  if decide (m = UnreliableOrdered) then next_sequence (default 0 (sequences l !! ch)) else 0.

Lemma counted_spec m ch l :
  connection (counted m ch l) = connection l ∧ reliable (counted m ch l) = reliable l ∧
  warned (counted m ch l) = warned l ∧
  ∀ ch', default 0 (sequences (counted m ch l) !! ch') =
     if decide (ch = ch' ∧ m = UnreliableOrdered)
     then next_sequence (default 0 (sequences l !! ch')) else default 0 (sequences l !! ch').
Proof.
  unfold counted. destruct (decide (m = UnreliableOrdered)) as [Ho|Ho]; split_and!; try done; intros ch'.
  - destruct (decide (ch = ch')) as [<-|Hne].
    + cbn. by rewrite lookup_insert_eq, decide_True.
    + cbn. by rewrite lookup_insert_ne, decide_False by naive_solver.
  - by rewrite decide_False by naive_solver.
Qed.

(** Putting back a link with the connection and the writers it had. *)
Lemma relinked_wires st p l l' :
  wires_ok st → links st !! p = Some l → connection l' = connection l → reliable l' = reliable l →
  wires_ok (set_links (<[p := l']> (links st)) st) ∧
  sockets (set_links (<[p := l']> (links st)) st) = <[p := (connection l, sequences l')]> (sockets st) ∧
  connection <$> <[p := l']> (links st) = connection <$> links st.
Proof.
  intros Hok Hl Hc Hr. split_and!.
  - apply (wires_links st); [done|done| |done]. intros q k. cbn.
    destruct (decide (p = q)) as [<-|Hne]; [rewrite lookup_insert_eq; intros [= <-]; by exists l|].
    rewrite lookup_insert_ne by done. intros Hk. by exists k.
  - unfold sockets. cbn. by rewrite fmap_insert, Hc.
  - rewrite fmap_insert, Hc. apply insert_id. by rewrite lookup_fmap, Hl.
Qed.

(** [write_datagram] in two steps: count, then send one way or the other. *)
Lemma write_datagram_eq sizes p ch m d st l :
  links st !! p = Some l →
  let l1 := counted m ch l in
  let limit := default 0 (sizes (connection l)) in
  write_datagram sizes p ch m d st =
    if decide (limit < DATAGRAM_HEADER + len d) then
      let st1 := set_links (<[p := mk_link (connection l1) (reliable l1) (sequences l1) ({[ch]} ∪ warned l1)]>
                              (links st)) st in
      write_reliable p ch d
        (if decide (ch ∈ warned l1) then st1
         else send_event (Warning (oversize_warning (len d) limit ch)) st1)
    else
      st |> set_links (<[p := l1]> (links st))
         |> perform (SendDatagram (connection l1) (datagram_bytes ch (number m ch l) d)).
Proof.
  intros Hl. cbv zeta. unfold write_datagram. rewrite Hl.
  assert ((if decide (m = UnreliableOrdered)
     then (next_sequence (default 0 (sequences l !! ch)),
           mk_link (connection l) (reliable l) (<[ch := next_sequence (default 0 (sequences l !! ch))]> (sequences l))
             (warned l))
     else (0, l)) = (number m ch l, counted m ch l)) as Hc by (unfold number, counted; by case_decide).
  cbv zeta. rewrite Hc, len_datagram. destruct (counted_spec m ch l) as (-> & _). done.
Qed.

Lemma write_datagram_outgoing sizes target p ch m d st l :
  m ≠ Reliable → wires_ok st → links st !! p = Some l →
  let st' := write_datagram sizes p ch m d st in
  wires_ok st' ∧ used (effects st') = used (effects st) ∧
  connection <$> links st' = connection <$> links st ∧
  ∀ c L, outgoing c st L → outgoing c st'
    (L ++ if decide (connection l = c)
          then [mk_parcel target ch m d (travels (sizes (connection l)) m d)] else []).
Proof.
  intros Hm Hok Hl. cbv zeta. rewrite (write_datagram_eq sizes p ch m d st l Hl).
  destruct (counted_spec m ch l) as (Ec & Er & Ew & Hq). cbv zeta.
  destruct (decide (default 0 (sizes (connection l)) < DATAGRAM_HEADER + len d)) as [Hbig|Hbig].
  - assert (travels (sizes (connection l)) m d = Reliable) as Htr by (unfold travels; by rewrite decide_True).
    set (l2 := mk_link _ _ _ ({[ch]} ∪ _)).
    destruct (relinked_wires st p l l2 Hok Hl Ec Er) as (Hok1 & Hs1 & Hc1).
    set (st1 := set_links _ st) in *. set (st2 := if decide (ch ∈ _) then st1 else _).
    assert (links st2 = links st1 ∧ effects st2 = effects st1 ∧ next_writer st2 = next_writer st1)
      as (E1 & E2 & E3) by (unfold st2; by destruct (decide (ch ∈ warned (counted m ch l)))).
    assert (wires_ok st2) as Hok2 by (by apply (wires_ext st1)).
    destruct (write_reliable_wires p ch d st2 l2 Hok2) as (W1 & W2 & W3 & W4 & W5);
      [rewrite E1; cbn; by rewrite lookup_insert_eq|]. rewrite E2 in *.
    split_and!; [done|done| |].
    { destruct (write_reliable_same p ch d st2) as [_ -> _ _ _]. by rewrite E1. }
    intros c L Hout. apply (outgoing_parcel c st _ L p l _ (sequences l2)); try done.
    + rewrite W3, <- Hs1. unfold sockets. by rewrite E1.
    + intros c' ch'. rewrite W5. cbn. rewrite Htr, Ec. f_equal. apply decide_ext. naive_solver.
    + intros c'. rewrite W4. cbn. rewrite decide_False, app_nil_r by naive_solver. done.
  - assert (travels (sizes (connection l)) m d = m) as Htr
      by (unfold travels; rewrite decide_False by naive_solver; done).
    destruct (relinked_wires st p l (counted m ch l) Hok Hl Ec Er) as (Hok1 & Hs1 & Hc1).
    split_and!; [|by cbn; rewrite used_snoc, app_nil_r|done|].
    { apply wires_perform; [|done]. rewrite Ec. by apply (w_used _ Hok p). }
    intros c L Hout. apply (outgoing_parcel c st _ L p l _ (sequences (counted m ch l))); try done.
    + cbn. by rewrite used_snoc, app_nil_r.
    + intros c' ch'. cbn. rewrite stream_on_other by done.
      rewrite decide_False, app_nil_r; [done|]. rewrite Htr. naive_solver.
    + intros c'. cbn. rewrite datagrams_to_snoc, Ec. f_equal. rewrite Htr. unfold number.
      repeat case_decide; naive_solver.
Qed.

Lemma send_one_outgoing sizes target p ch m d st l :
  wires_ok st → links st !! p = Some l →
  let st' := send_one sizes p ch m d st in
  wires_ok st' ∧ used (effects st') = used (effects st) ∧
  connection <$> links st' = connection <$> links st ∧
  ∀ c L, outgoing c st L → outgoing c st'
    (L ++ if decide (connection l = c)
          then [mk_parcel target ch m d (travels (sizes (connection l)) m d)] else []).
Proof.
  intros Hok Hl. destruct m; [|by apply write_datagram_outgoing..]. cbn [send_one].
  destruct (write_reliable_wires p ch d st l Hok Hl) as (W1 & W2 & W3 & W4 & W5).
  split_and!; [done|done|apply write_reliable_same|].
  intros c L Hout. apply (outgoing_parcel c st _ L p l _ (sequences l)); try done.
  - rewrite W3. symmetry. apply insert_id. unfold sockets. by rewrite lookup_fmap, Hl.
  - intros ch'. cbn. by rewrite decide_False by naive_solver.
  - intros c' ch'. rewrite W5. cbn. f_equal. apply decide_ext. naive_solver.
  - intros c'. rewrite W4. cbn. by rewrite decide_False, app_nil_r by naive_solver.
Qed.

(** ** One round of the loop *)

(** The connections of a list of peers. *)
Definition conns_of (st : State) (ps : list Z) : list Conn := omap (λ p, connection <$> links st !! p) ps.

Lemma conns_of_ext st st' ps :
  connection <$> links st' = connection <$> links st → conns_of st' ps = conns_of st ps.
Proof.
  intros Hc. unfold conns_of. apply list_omap_ext, Forall_Forall2_diag, Forall_true. intros p.
  apply (f_equal (lookup p)) in Hc. by rewrite !lookup_fmap in Hc.
Qed.

Lemma sends_outgoing sizes target ch m d ps st :
  NoDup ps → wires_ok st →
  let st' := foldl (λ st p, send_one sizes p ch m d st) st ps in
  wires_ok st' ∧ used (effects st') = used (effects st) ∧
  connection <$> links st' = connection <$> links st ∧
  ∀ c L, outgoing c st L → outgoing c st'
    (L ++ if decide (c ∈ conns_of st ps)
          then [mk_parcel target ch m d (travels (sizes c) m d)] else []).
Proof.
  intros Hnd. revert st. induction Hnd as [|p ps Hp _ IH]; intros st Hok; cbn [foldl].
  { split_and!; [done..|]. intros c L Hc. cbn. by rewrite decide_False, app_nil_r by apply not_elem_of_nil. }
  destruct (links st !! p) as [l|] eqn:Hl.
  - destruct (send_one_outgoing sizes target p ch m d st l Hok Hl) as (E1 & E2 & E3 & E4).
    set (st1 := send_one _ _ _ _ _ _) in *. destruct (IH st1 E1) as (F1 & F2 & F3 & F4).
    split_and!; [done|by rewrite F2|by rewrite F3|]. intros c L Hc%E4%F4.
    rewrite (conns_of_ext st st1 ps E3) in Hc. unfold conns_of in *. cbn [omap list_omap]. rewrite Hl. cbn.
    destruct (decide (connection l = c)) as [<-|Hne].
    + rewrite decide_False, app_nil_r in Hc; [by rewrite decide_True by left|].
      intros (q & Hq & Hql)%list_elem_of_omap. apply Hp.
      destruct (links st !! q) as [k|] eqn:Hk; [|done]. cbn in Hql. injection Hql as Hql.
      by rewrite (w_inj _ Hok p q l k).
    + rewrite app_nil_r in Hc. erewrite decide_ext; [exact Hc|].
      rewrite elem_of_cons. split; [intros [?|?]; [congruence|done]|by right].
  - assert (send_one sizes p ch m d st = st) as ->
      by (destruct m; cbn; unfold write_reliable, write_datagram; by rewrite Hl).
    destruct (IH st Hok) as (F1 & F2 & F3 & F4). split_and!; [done..|]. intros c L Hc%F4.
    unfold conns_of in *. cbn [omap list_omap]. by rewrite Hl.
Qed.

Section rounds.
Context `{HashOrder}.

Lemma send_outgoing sizes target ch m d st :
  is_i32 target → wires_ok st →
  let st' := send sizes target ch m d st in
  wires_ok st' ∧ used (effects st') = used (effects st) ∧
  connection <$> links st' = connection <$> links st ∧
  ∀ c L, outgoing c st L → outgoing c st' (L ++ parcels_of sizes c st (OnCommand (Some (Send target ch m d)))).
Proof.
  intros Ht Hok.
  assert (∀ ps, NoDup ps → (∀ p, p ∈ dom (links st) → p ∈ ps ↔ p ∈ recipients st target) →
    let st' := foldl (λ st p, send_one sizes p ch m d st) st ps in
    wires_ok st' ∧ used (effects st') = used (effects st) ∧
    connection <$> links st' = connection <$> links st ∧
    ∀ c L, outgoing c st L → outgoing c st' (L ++ parcels_of sizes c st (OnCommand (Some (Send target ch m d)))))
    as Hps.
  { intros ps Hnd Hr. destruct (sends_outgoing sizes target ch m d ps st Hnd Hok) as (E1 & E2 & E3 & E4).
    split_and!; [done..|]. intros c L Hc%E4. cbn [parcels_of].
    erewrite decide_ext; [exact Hc|]. unfold reaches, conns_of.
    rewrite !list_elem_of_omap. split; intros (p & Hp & Hc'); exists p; (split; [|done]);
      (assert (p ∈ dom (links st)) as Hd by (apply elem_of_dom; destruct (links st !! p); [by eexists|done]));
      apply Hr in Hd; [by apply Hd, elem_of_elements|by apply elem_of_elements, Hd]. }
  unfold send. case_decide as Hneg.
  - apply Hps; [apply NoDup_filter, NoDup_hash_keys|]. intros p Hp.
    rewrite list_elem_of_filter, elem_of_hash_keys. unfold recipients. rewrite decide_True by done.
    rewrite elem_of_difference, elem_of_singleton. pose proof (w_ids _ Hok p Hp) as Hb.
    assert (p = i32_neg target ↔ p = - target) by (unfold_ints; case_decide; Z.div_mod_to_equations; lia).
    naive_solver.
  - set (p := if decide _ then _ else _). apply (Hps [p]); [apply NoDup_singleton|].
    intros q Hq. rewrite list_elem_of_singleton. unfold recipients, p.
    rewrite (decide_False (P := target ≤ 0)) by done. pose proof (elem_of_dom (links st) target).
    destruct (decide (is_Some (links st !! target))), (decide (target ∈ dom (links st))); try tauto; set_solver.
Qed.

(** Announcing tells the main thread only. *)
Lemma outgoing_ext c st st' L :
  effects st' = effects st → links st' = links st → outgoing c st L → outgoing c st' L.
Proof. intros He Hl [H1 H2 H3 H4]. split; rewrite ?He, ?Hl; done. Qed.

(** [st'] has the wires of [st]: no parcel was added. *)
Definition no_parcel (st st' : State) : Prop :=
  (wires_ok st → wires_ok st') ∧ ∀ c L, wires_ok st → outgoing c st L → outgoing c st' L.

#[local] Instance no_parcel_preorder : PreOrder no_parcel.
Proof.
  split; [by intros st|]. intros st1 st2 st3 [W1 O1] [W2 O2]. split; [auto|].
  intros c L Hw Ho. apply O2; [auto|]. by apply O1.
Qed.

Lemma no_parcel_ext st st' :
  effects st' = effects st → links st' = links st → next_writer st' = next_writer st → no_parcel st st'.
Proof. intros He Hl Hn. split; [by apply wires_ext|]. intros c L _. by apply outgoing_ext. Qed.

Lemma no_parcel_event e st : no_parcel st (send_event e st).
Proof. by apply no_parcel_ext. Qed.

Lemma no_parcel_announce p st : no_parcel st (announce p st).
Proof. destruct (announce_links p st) as (? & _ & _ & ? & ? & _). by apply no_parcel_ext. Qed.

Lemma no_parcel_forget p st : no_parcel st (forget p st).
Proof. destruct (forget_links p st) as (? & _ & _ & ? & ? & _). by apply no_parcel_ext. Qed.

Lemma no_parcel_foldl {A} (f : State → A → State) l st :
  (∀ st x, no_parcel st (f st x)) → no_parcel st (foldl f st l).
Proof.
  intros Hf. apply (foldl_preserves f (no_parcel st)); [done|]. intros st' x Hx. by etrans.
Qed.

Lemma no_parcel_close c code reason st : no_parcel st (perform (CloseConnection c code reason) st).
Proof.
  split; [by apply wires_perform|]. intros c' L Hw. apply outgoing_kept.
  - intros ch _. cbn. by rewrite stream_on_other.
  - cbn. by rewrite datagrams_to_snoc, app_nil_r.
  - intros p l Hl Hc. by exists p, l.
  - cbn. by rewrite used_snoc, app_nil_r.
Qed.

Lemma no_parcel_controls f (ps : list Z) st :
  no_parcel st (foldl (λ st p, control_to p f st) st ps).
Proof.
  split; [intros Hw; by apply controls_outgoing|].
  intros c L Hw. by apply (controls_outgoing f ps st).
Qed.

(** Dropping links. *)
Lemma no_parcel_drop st ls cs :
  ls ⊆ links st → no_parcel st (st |> set_links ls |> set_connections cs).
Proof.
  intros Hls. split.
  - apply wires_links; [done..|]. cbn. intros p l Hl. exists l. by split; [by eapply lookup_weaken|].
  - intros c L _. apply outgoing_kept; cbn; try done.
    intros p l Hl Hc. exists p, l. by split; [by eapply lookup_weaken|].
Qed.

(** A link on a connection never seen before. *)
Lemma no_parcel_add_link p c st :
  1 ≤ p ≤ i32_max → c ∉ used (effects st) → no_parcel st (add_link p c st).
Proof.
  intros Hp Hc. split.
  - intros [H1 H2 H3 H4 H5 H6 H7 H8]. destruct (H5 c Hc) as [Hn Hd]. unfold add_link.
    assert (∀ q k, <[p := mk_link c ∅ ∅ ∅]> (links st) !! q = Some k →
      (q = p ∧ k = mk_link c ∅ ∅ ∅) ∨ links st !! q = Some k) as Hl.
    { intros q k. destruct (decide (p = q)) as [<-|Hne]; [rewrite lookup_insert_eq; intros [= <-]; by left|].
      rewrite lookup_insert_ne by done. by right. }
    assert (∀ c ch, writers_on c ch (effects st ++ [SpawnReaders p c]) = writers_on c ch (effects st)) as Hw
      by (intros; by rewrite writers_on_snoc, app_nil_r).
    split; cbn.
    + rewrite dom_insert_L. intros q [->%elem_of_singleton|Hq]%elem_of_union; [done|by apply H1].
    + intros q k [[-> ->]|Hk]%Hl; rewrite used_snoc, elem_of_app; [right; left|left; by apply (H2 q)].
    + intros q r k k' Hk Hk' Heq.
      destruct (decide (q = p)) as [->|Hq], (decide (r = p)) as [->|Hr]; [done| | |].
      * destruct (Hl p k Hk) as [[_ ->]|Hold].
        -- destruct (Hl r k' Hk') as [[-> _]|Hk'']; [done|]. cbn in Heq. subst c. by destruct Hc; eapply H2.
        -- destruct (Hl r k' Hk') as [[-> _]|Hk'']; [done|]. by eapply H3.
      * destruct (Hl p k' Hk') as [[_ ->]|Hold].
        -- destruct (Hl q k Hk) as [[-> _]|Hk'']; [done|]. cbn in Heq. subst c. by destruct Hc; eapply H2.
        -- destruct (Hl q k Hk) as [[-> _]|Hk'']; [done|]. by eapply H3.
      * rewrite lookup_insert_ne in Hk, Hk' by done. by eapply H3.
    + intros q k ch [[-> ->]|Hk]%Hl; rewrite writers_on_snoc, app_nil_r; [cbn; by rewrite Hn, lookup_empty|].
      by apply (H4 q).
    + intros c'. rewrite used_snoc, elem_of_app. intros Hc'. destruct (H5 c') as [E1 E2]; [tauto|].
      split; [intros ch; by rewrite writers_on_snoc, E1|by rewrite datagrams_to_snoc, E2].
    + intros w c1 ch1 c2 ch2. rewrite !writers_on_snoc, !app_nil_r. apply H6.
    + intros w c1 ch1. rewrite writers_on_snoc, app_nil_r. apply H7.
    + intros w Hw'. by rewrite queued_snoc, app_nil_r, H8.
  - intros c' L Hw [H1 H2 H3 H4]. split; cbn.
    + intros ch Hch. by rewrite stream_on_other, H1.
    + by rewrite datagrams_to_snoc, app_nil_r.
    + intros q k ch. destruct (decide (p = q)) as [<-|Hne].
      * rewrite lookup_insert_eq. intros [= <-] <-. cbn. rewrite lookup_empty. by rewrite (H4 Hc).
      * rewrite lookup_insert_ne by done. apply H3.
    + rewrite used_snoc, elem_of_app. intros Hn. apply H4. tauto.
Qed.

Lemma no_parcel_control_to p f st : no_parcel st (control_to p f st).
Proof.
  split; [intros Hw; by apply control_to_outgoing|].
  intros c L Hw. by apply (control_to_outgoing p f st).
Qed.

Lemma no_parcel_welcome p c st :
  1 ≤ p ≤ i32_max → c ∉ used (effects st) → no_parcel st (welcome p c st).
Proof.
  intros Hp Hc. unfold welcome. etrans; [by apply (no_parcel_add_link p c)|].
  etrans; [apply no_parcel_control_to|]. etrans; [apply no_parcel_controls|apply no_parcel_announce].
Qed.

Lemma no_parcel_lost p st : no_parcel st (lost p st).
Proof.
  unfold lost. destruct (links st !! p) as [l|]; [|done].
  etrans; [apply (no_parcel_drop st (delete p (links st))), delete_subseteq|].
  etrans; [apply no_parcel_forget|].
  destruct (is_host _); [apply no_parcel_controls|].
  case_decide; [apply no_parcel_event|done].
Qed.

Lemma no_parcel_apply control st : no_parcel st (apply control st).
Proof.
  destruct control as [id peers|id|id]; cbn [apply];
    [|apply no_parcel_announce|apply no_parcel_forget].
  etrans; [apply (no_parcel_event (Ready id))|]. etrans; [apply no_parcel_announce|].
  apply no_parcel_foldl. intros. apply no_parcel_announce.
Qed.

Lemma no_parcel_finish t : no_parcel (state t) (state (finish t)).
Proof.
  unfold finish. cbn [state]. etrans; [|apply (no_parcel_event _ (set_links ∅ _))].
  etrans; [|apply (no_parcel_drop _ ∅ (connections (close_all (state t)))), map_empty_subseteq].
  apply (no_parcel_foldl _ (hash_keys (links (state t)))). intros st p.
  destruct (links st !! p); [apply no_parcel_close|done].
Qed.

(** The ids a host gives out. *)
Definition next_id_ok (t : Task) : Prop := 1 ≤ next_id t ≤ i32_max.

Lemma next_id_wraps n : 1 ≤ Z.max (i32_wrapping_add n 1) FIRST_CLIENT_ID ≤ i32_max.
Proof.
  pose proof (to_i32_range (n + 1)) as Hr. unfold i32_wrapping_add. revert Hr.
  generalize (to_i32 (n + 1)). unfold is_i32, i32_max, FIRST_CLIENT_ID. lia.
Qed.

Lemma next_id_stays sizes t i : next_id_ok t → next_id_ok (step sizes t i).
Proof.
  unfold next_id_ok, step. intros Hn. destruct (running t); [|exact Hn].
  destruct i as [[[]|]|[[]|]|[c|]]; try exact Hn; destruct (inbound t); try exact Hn.
  apply next_id_wraps.
Qed.

(** A round puts on every connection the parcels of its input. *)
Definition typed_send (i : Input) : Prop :=
  match i with OnCommand (Some (Send target _ _ _)) => is_i32 target | _ => True end.

#[export] Instance typed_send_dec i : Decision (typed_send i).
Proof. destruct i as [[[]|]|[[]|]|[]]; cbn; apply _. Defined.

Lemma step_outgoing sizes t i :
  next_id_ok t → fresh_input (state t) i → typed_send i → wires_ok (state t) →
  wires_ok (state (step sizes t i)) ∧
  ∀ c L, outgoing c (state t) L → outgoing c (state (step sizes t i))
    (L ++ if running t then parcels_of sizes c (state t) i else []).
Proof.
  intros Hn Hf Ht Hw.
  assert (∀ st', no_parcel (state t) st' →
    wires_ok st' ∧ ∀ c L, outgoing c (state t) L → outgoing c st' (L ++ [])) as Hno.
  { intros st' [H1 H2]. split; [auto|]. intros c L Ho. rewrite app_nil_r. by apply H2. }
  unfold step. destruct (running t); [|by apply Hno].
  destruct i as [[[target channel mode data|peer|]|]|[[control|peer]|]|c]; cbn [parcels_of state with_state].
  - destruct (send_outgoing sizes target channel mode data (state t) Ht Hw) as (E1 & _ & _ & E2).
    split; [exact E1|exact E2].
  - apply Hno. unfold drop_link. destruct (links (state t) !! peer); [apply no_parcel_close|done].
  - apply Hno, no_parcel_finish.
  - apply Hno, no_parcel_finish.
  - apply Hno, no_parcel_apply.
  - apply Hno, no_parcel_lost.
  - apply Hno, no_parcel_finish.
  - destruct (inbound t); [|by apply Hno].
    destruct c as [c|]; cbn [state]; apply Hno; [by apply no_parcel_welcome|done].
Qed.

Lemma run_outgoing t inputs c L :
  next_id_ok t → fresh_run t inputs → Forall typed_send inputs.*2 → wires_ok (state t) →
  outgoing c (state t) L →
  wires_ok (state (run t inputs)) ∧ outgoing c (state (run t inputs)) (L ++ parcels c t inputs).
Proof.
  revert t L. induction inputs as [|[sizes i] inputs IH]; intros t L Hn Hf Ht Hw Ho.
  { by rewrite app_nil_r. }
  cbn in Hf, Ht |- *. destruct Hf as [Hf1 Hf2]. apply Forall_cons in Ht as [Ht1 Ht2].
  destruct (step_outgoing sizes t i Hn Hf1 Ht1 Hw) as [Hw' Ho'].
  rewrite app_assoc. apply IH; try done; [by apply next_id_stays|by apply Ho'].
Qed.

Lemma begin_outgoing dialled c :
  next_id_ok (begin dialled) ∧ wires_ok (state (begin dialled)) ∧ outgoing c (state (begin dialled)) [].
Proof.
  split; [by destruct dialled as [[]|]|].
  assert (∀ host, wires_ok (empty_state host) ∧ outgoing c (empty_state host) []) as He.
  { intros host. split; split; cbn; try done; intros *; try (by rewrite lookup_empty).
    all: by intros ?%elem_of_empty || by intros ?%not_elem_of_nil. }
  destruct dialled as [[d|err]|]; cbn.
  - destruct (He false) as [Hw Ho]. destruct (no_parcel_add_link HOST_ID d (empty_state false)) as [F1 F2].
    + unfold_ints. unfold HOST_ID. lia.
    + apply not_elem_of_nil.
    + split; [by apply F1|by apply F2].
  - destruct (He false) as [Hw Ho]. destruct (no_parcel_event (Closed err) (empty_state false)) as [F1 F2].
    split; [by apply F1|by apply F2].
  - destruct (He true) as [Hw Ho]. destruct (no_parcel_event (Ready HOST_ID) (empty_state true)) as [F1 F2].
    split; [by apply F1|by apply F2].
Qed.

(** The wires of a session, whatever it went through. *)
Lemma outgoing_ok dialled inputs c :
  fresh_run (begin dialled) inputs → Forall typed_send inputs.*2 →
  outgoing c (state (run (begin dialled) inputs)) (parcels c (begin dialled) inputs).
Proof.
  intros Hf Ht. destruct (begin_outgoing dialled c) as (Hn & Hw & Ho).
  by apply (run_outgoing (begin dialled) inputs c []).
Qed.

(** C7: a connection carries the parcels, all of them and nothing else.
    Whatever a session goes through, links coming and going included, the stream
    of a channel on a connection holds the packets the task was told to send
    there that travel reliably, in order; its datagrams are the others, in
    order, each under its channel and, when ordered, under a number that counts
    the ordered packets of the channel on that connection. No frame of one
    connection or channel ends up on another, no number is reused or counted
    for another link, and the other traffic of the session (control frames,
    closes, warnings) leaves no trace among them. *)
Theorem connection_carries_the_parcels dialled inputs c channel :
  fresh_run (begin dialled) inputs → Forall typed_send inputs.*2 → channel ≠ CONTROL_CHANNEL →
  let effs := effects (state (run (begin dialled) inputs)) in
  let L := parcels c (begin dialled) inputs in
  stream_on c channel effs = reliable_on channel L ∧ datagrams_to c effs = flights [] L.
Proof. intros Hf Ht Hc. destruct (outgoing_ok dialled inputs c Hf Ht). auto. Qed.
End rounds.

Lemma connection_carries_the_parcels_witness :
  let sizes := (λ _, Some 9) in
  let inputs := [(sizes, OnConnection (Some 5%nat)); (sizes, OnConnection (Some 6%nat));
    (sizes, OnCommand (Some (Send (-2) 7 Reliable [x01])));
    (sizes, OnCommand (Some (Send 0 7 UnreliableOrdered [x02; x03])));
    (sizes, OnCommand (Some (Send 3 7 UnreliableOrdered [x04])))] in
  let effs := effects (state (@run listing_order (begin None) inputs)) in
  let L := @parcels listing_order 6%nat (begin None) inputs in
  stream_on 6%nat 7 effs = reliable_on 7 L ∧ datagrams_to 6%nat effs = flights [] L.
Proof.
  intros sizes inputs.
  refine (@connection_carries_the_parcels listing_order None inputs 6%nat 7 _ _ _).
  all: by_decision.
Defined.
