(* ===== verification/Landing.v ===== *)
(** * What a reader makes of the datagrams that land ([session.rs], [spawn_readers])

    A connection's datagrams, as [Outgoing] describes them, may be lost and may
    arrive in any order, each at most once. Here is what the datagram task of the
    other end hands on: of the unreliable packets, those that landed; of the
    ordered ones of a channel, a subsequence of what was sent. *)

From S2P Require Import Prelude Wire Session Membership Outgoing.

(** ** The datagrams of a list of parcels, before they are bytes *)

Fixpoint airborne (before L : list Parcel) : list (Z * Parcel) :=
  match L with
  | [] => []
  | x :: L =>
      (if decide (carried x = Reliable) then [] else [(sequence_of before x, x)])
      ++ airborne (before ++ [x]) L
  end.

Definition on_air (sx : Z * Parcel) : bytes := datagram_bytes (channel sx.2) sx.1 (data sx.2).

Lemma flights_airborne before L : flights before L = on_air <$> airborne before L.
Proof.
  revert before. induction L as [|x L IH]; intros before; cbn; [done|].
  rewrite fmap_app, <- IH. f_equal. unfold flight. by case_decide.
Qed.

Lemma airborne_app before L L' : airborne before (L ++ L') = airborne before L ++ airborne (before ++ L) L'.
Proof.
  revert before. induction L as [|x L IH]; intros before; cbn; [by rewrite app_nil_r|].
  by rewrite IH, <- !app_assoc.
Qed.

Lemma nth_sequence_small n : Z.of_nat n ≤ u32_max → nth_sequence n = Z.of_nat n.
Proof.
  induction n as [|n IH]; intros Hn; [done|]. unfold nth_sequence in *. rewrite Nat.iter_succ, IH by lia.
  unfold next_sequence, u32_wrapping_add. rewrite to_u32_small by (unfold_ints; lia). lia.
Qed.

Lemma nth_sequence_positive n : 1 ≤ nth_sequence (S n) ≤ u32_max.
Proof.
  unfold nth_sequence. rewrite Nat.iter_succ. apply next_sequence_range, nth_sequence_range.
Qed.

(** What parcels on a connection are like. *)
Definition sound (x : Parcel) : Prop :=
  is_i32 (channel x) ∧ is_u32 (len (data x)) ∧ (carried x ≠ Reliable → carried x = mode x).

#[export] Instance sound_dec x : Decision (sound x).
Proof. unfold sound. apply _. Defined.

Definition ordered_on (ch : Z) (L : list Parcel) : list Parcel :=
  base.filter (λ x, channel x = ch ∧ mode x = UnreliableOrdered) L.

Lemma ordered_on_app ch L L' : ordered_on ch (L ++ L') = ordered_on ch L ++ ordered_on ch L'.
Proof. apply filter_app. Qed.

(** Every datagram in the air says which parcel it is. *)
Lemma airborne_elem before L sx :
  Forall sound L → sx ∈ airborne before L →
  sx.2 ∈ L ∧ carried sx.2 ≠ Reliable ∧ is_u32 sx.1 ∧
  (mode sx.2 ≠ UnreliableOrdered → sx.1 = 0) ∧
  (mode sx.2 = UnreliableOrdered → ∃ n, sx.1 = nth_sequence (S n) ∧
     ordered_on (channel sx.2) (before ++ L) !! n = Some sx.2).
Proof.
  intros Hs. revert before. induction Hs as [|x L Hx _ IH]; intros before; cbn; [by intros ?%not_elem_of_nil|].
  rewrite elem_of_app. intros [Hin|Hin].
  - case_decide as Hc; [by apply not_elem_of_nil in Hin|]. apply list_elem_of_singleton in Hin as ->.
    cbn. unfold sequence_of. split_and!; [left|done| | |].
    + case_decide; [apply nth_sequence_range|by_decision].
    + intros Ho. by rewrite decide_False.
    + intros Ho. rewrite decide_True by done. exists (count_ordered (channel x) before). split; [done|].
      rewrite ordered_on_app, lookup_app_r by done. unfold count_ordered, ordered_on.
      rewrite Nat.sub_diag, filter_cons_True by done. done.
  - destruct (IH (before ++ [x]) Hin) as (H1 & H2 & H3 & H4 & H5).
    split_and!; [by right|done..|]. intros Ho. destruct (H5 Ho) as (n & Hn & Hl).
    exists n. split; [done|]. by rewrite <- app_assoc in Hl.
Qed.

(** No two datagrams of a channel have the same number, while it lasts. *)
Lemma airborne_numbers ch before L :
  Forall sound L → Z.of_nat (count_ordered ch (before ++ L)) ≤ u32_max →
  let on := base.filter (λ sx, channel sx.2 = ch ∧ mode sx.2 = UnreliableOrdered) (airborne before L) in
  NoDup on.*1 ∧ Forall (λ s, Z.of_nat (count_ordered ch before) < s ≤ Z.of_nat (count_ordered ch (before ++ L))) on.*1.
Proof.
  intros Hs. revert before. induction Hs as [|x L Hx _ IH]; intros before Hb; cbn [airborne].
  { split; constructor. }
  assert (before ++ x :: L = (before ++ [x]) ++ L) as Heq by (by rewrite <- app_assoc).
  rewrite Heq in *. destruct (IH (before ++ [x]) Hb) as [H1 H2]. cbv zeta in *.
  rewrite filter_app, fmap_app.
  assert (count_ordered ch before ≤ count_ordered ch (before ++ [x]))%nat as Hle
    by (rewrite count_ordered_snoc; lia).
  assert (count_ordered ch (before ++ [x]) ≤ count_ordered ch ((before ++ [x]) ++ L))%nat as Hle'.
  { unfold count_ordered. rewrite (filter_app _ (before ++ [x])), length_app. lia. }
  set (on := base.filter _ (airborne (before ++ [x]) L)) in *.
  assert (Forall (λ s, Z.of_nat (count_ordered ch before) < s
    ≤ Z.of_nat (count_ordered ch ((before ++ [x]) ++ L))) on.*1) as H2'.
  { eapply Forall_impl; [exact H2|]. cbn. lia. }
  destruct (decide (carried x = Reliable)) as [Hc|Hc]; [done|].
  rewrite filter_cons, filter_nil. case_decide as Ho; [|done]. cbn.
  destruct Ho as [<- Ho]. cbn in Ho. cbn in *.
  assert (sequence_of before x = Z.of_nat (S (count_ordered (channel x) before))) as ->.
  { unfold sequence_of. rewrite decide_True by done. apply nth_sequence_small.
    rewrite count_ordered_snoc, decide_True in Hle' by done. lia. }
  rewrite count_ordered_snoc, decide_True in H2, Hle' by done. split.
  - constructor; [|done]. intros Hin. rewrite Forall_forall in H2. apply H2 in Hin. lia.
  - constructor; [lia|done].
Qed.

(** ** The reader *)

Lemma read_datagrams_app peer last ds ds' :
  read_datagrams peer last (ds ++ ds') =
    ('(last, ps) ← read_datagrams peer last ds;
     '(last, ps') ← read_datagrams peer last ds';
     Some (last, ps ++ ps')).
Proof.
  revert last. induction ds as [|d ds IH]; intros last; cbn [app].
  { cbn. by destruct (read_datagrams peer last ds') as [[? ?]|]. }
  rewrite !read_datagrams_cons. destruct (read_datagram peer last d) as [[l p]|]; [|done]. cbn.
  rewrite IH. destruct (read_datagrams peer l ds) as [[l1 ps]|]; [|done]. cbn.
  destruct (read_datagrams peer l1 ds') as [[l2 ps']|]; [|done]. cbn. by rewrite app_assoc.
Qed.

(** The packets of a mode on a channel. *)
Definition packets_on (ch : Z) (m : Mode) (ps : list Packet) : list bytes :=
  Wire.data <$> base.filter (λ p, Wire.channel p = ch ∧ Wire.mode p = m) ps.

Lemma packets_on_cons ch m p ps :
  packets_on ch m (p :: ps) =
    (if decide (Wire.channel p = ch ∧ Wire.mode p = m) then [Wire.data p] else []) ++ packets_on ch m ps.
Proof. unfold packets_on. rewrite filter_cons. by case_decide. Qed.

Lemma packets_on_app ch m ps ps' : packets_on ch m (ps ++ ps') = packets_on ch m ps ++ packets_on ch m ps'.
Proof. unfold packets_on. by rewrite filter_app, fmap_app. Qed.

#[global] Arguments packets_on : simpl never.

Lemma packets_on_nil ch m : packets_on ch m [] = [].
Proof. done. Qed.

(** What is in the air on a channel, with the numbers of the ordered ones. *)
Definition numbered (ch : Z) (items : list (Z * Parcel)) : list (Z * bytes) :=
  (λ sx : Z * Parcel, (sx.1, data sx.2)) <$>
    base.filter (λ sx : Z * Parcel, channel sx.2 = ch ∧ sx.1 ≠ 0) items.

Definition unnumbered (ch : Z) (items : list (Z * Parcel)) : list bytes :=
  (λ sx : Z * Parcel, data sx.2) <$>
    base.filter (λ sx : Z * Parcel, channel sx.2 = ch ∧ sx.1 = 0) items.

#[global] Arguments numbered : simpl never.
#[global] Arguments unnumbered : simpl never.

(** What a reader that has seen [last] makes of [items], on every channel. *)
Definition reads_as (peer : Z) (last : gmap Z Z) (items : list (Z * Parcel)) (ps : list Packet) : Prop :=
  Forall (λ p, Wire.peer p = peer ∧ Wire.mode p ≠ Reliable) ps ∧
  (∀ ch, packets_on ch Unreliable ps = unnumbered ch items) ∧
  ∀ ch, 0 ≤ default 0 (last !! ch) ≤ 2147483647 →
    Forall (λ sp, sp.1 ≤ 2147483647) (numbered ch items) →
    packets_on ch UnreliableOrdered ps = (freshest (default 0 (last !! ch)) (numbered ch items)).*2.

(** A numbered datagram in front: [q] is what the reader hands on, [last1] what
    it has seen then. *)
Lemma reads_as_numbered peer last last1 s x q items ps :
  s ≠ 0 →
  (q = None ∨ q = Some (mk_packet peer (channel x) UnreliableOrdered (data x))) →
  (∀ ch, ch ≠ channel x → last1 !! ch = last !! ch) →
  (0 ≤ default 0 (last !! channel x) ≤ 2147483647 → s ≤ 2147483647 →
     ∃ new, last1 !! channel x = Some new ∧ 0 ≤ new ≤ 2147483647 ∧
       ∀ l, option_list (Wire.data <$> q) ++ (freshest new l).*2
              = (freshest (default 0 (last !! channel x)) ((s, data x) :: l)).*2) →
  reads_as peer last1 items ps → reads_as peer last ((s, x) :: items) (option_list q ++ ps).
Proof.
  intros Hs0 Hq Hother Hsame (F & U & O). split_and!.
  - apply Forall_app. split; [|exact F]. by destruct Hq as [->| ->]; repeat constructor.
  - intros ch. rewrite packets_on_app, U. unfold unnumbered. rewrite filter_cons. cbn.
    rewrite (decide_False (P := channel x = ch ∧ s = 0)) by naive_solver.
    destruct Hq as [->| ->]; cbn; [done|]. rewrite packets_on_cons, packets_on_nil. cbn.
    by rewrite decide_False by naive_solver.
  - intros ch Hl. rewrite packets_on_app. unfold numbered. rewrite filter_cons. cbn.
    destruct (decide (channel x = ch)) as [<-|Hne].
    + rewrite (decide_True (P := channel x = channel x ∧ s ≠ 0)) by done.
      intros [Hb Hn]%Forall_cons. cbn in Hb. destruct Hsame as (new & Hnew & Hnr & Hf); [done..|].
      rewrite O by (rewrite ?Hnew; done). rewrite Hnew. cbn [default from_option id].
      cbn [fmap list_fmap fst snd]. rewrite <- Hf. f_equal.
      destruct Hq as [->| ->]; cbn; [done|]. rewrite packets_on_cons, packets_on_nil. cbn. by rewrite decide_True.
    + rewrite (decide_False (P := channel x = ch ∧ s ≠ 0)) by naive_solver. intros Hn.
      rewrite O by (rewrite ?Hother by done; done). rewrite Hother by done.
      destruct Hq as [->| ->]; cbn; [done|]. rewrite packets_on_cons, packets_on_nil. cbn.
      by rewrite decide_False by naive_solver.
Qed.

Lemma read_items peer last items :
  Forall (λ sx : Z * Parcel, is_i32 (channel sx.2) ∧ is_u32 sx.1) items →
  ∃ last' ps, read_datagrams peer last (on_air <$> items) = Some (last', ps) ∧ reads_as peer last items ps.
Proof.
  intros Hi. revert last. induction Hi as [|[s x] items [Hc Hs] _ IH]; intros last.
  { exists last, []. by repeat split. }
  cbn [fst snd] in Hc, Hs. change (on_air <$> (s, x) :: items)
    with (datagram_bytes (channel x) s (data x) :: (on_air <$> items)).
  rewrite read_datagrams_cons.
  rewrite read_datagram_framed by done. cbv zeta. cbn [mbind option_bind].
  set (seen := default 0 (last !! channel x)).
  destruct (decide (s = 0)) as [->|Hs0].
  - destruct (IH last) as (last' & ps & E & F & U & O). rewrite E.
    exists last', (mk_packet peer (channel x) Unreliable (data x) :: ps). split; [done|]. split_and!.
    + constructor; [done|exact F].
    + intros ch. rewrite packets_on_cons. cbn. rewrite U. unfold unnumbered. rewrite filter_cons. cbn.
      repeat case_decide; naive_solver.
    + intros ch Hl. rewrite packets_on_cons. cbn. rewrite decide_False by naive_solver.
      unfold numbered. rewrite filter_cons. cbn. rewrite decide_False by naive_solver.
      intros Hn. by apply O.
  - assert (0 ≤ seen ≤ 2147483647 → s ≤ 2147483647 → is_stale s seen = bool_decide (s < seen)) as Hst.
    { intros ? ?. unfold is_stale. apply bool_decide_ext. ints. }
    destruct (is_stale s seen) eqn:Hstale.
    + destruct (IH (<[channel x := seen]> last)) as (last' & ps & E & F). rewrite E.
      do 2 eexists. split; [done|]. eapply (reads_as_numbered peer last _ s x None); [done|by left| | |exact F].
      * intros. by rewrite lookup_insert_ne.
      * intros H1 H2. exists seen. rewrite lookup_insert_eq. split_and!; [done|apply H1..|]. intros l. cbn [freshest].
        specialize (Hst H1 H2). symmetry in Hst. apply bool_decide_eq_true in Hst. by rewrite decide_True.
    + destruct (IH (<[channel x := s]> last)) as (last' & ps & E & F). rewrite E.
      do 2 eexists. split; [done|]. eapply (reads_as_numbered peer last _ s x (Some _)); [done|by right| | |exact F].
      * intros. by rewrite lookup_insert_ne.
      * intros H1 H2. exists s. rewrite lookup_insert_eq. unfold is_u32 in Hs. split_and!; [done|lia|lia|].
        intros l. cbn [freshest].
        specialize (Hst H1 H2). symmetry in Hst. apply bool_decide_eq_false in Hst. by rewrite decide_False.
Qed.

(** ** What landed, against what was sent *)

(** The packets of a channel and a mode that travel as datagrams. *)
Definition in_the_air (ch : Z) (m : Mode) (L : list Parcel) : list bytes :=
  data <$> base.filter (λ x, channel x = ch ∧ mode x = m ∧ carried x ≠ Reliable) L.

Lemma freshest_sublist seen l : freshest seen l `sublist_of` l.
Proof.
  revert seen. induction l as [|[s p] l IH]; intros seen; cbn; [constructor|].
  case_decide; constructor; apply IH.
Qed.

Lemma omap_lookup_fmap {A B} (f : A → B) (l : list A) (js : list nat) :
  omap ((f <$> l) !!.) js = f <$> omap (l !!.) js.
Proof.
  induction js as [|j js IH]; cbn; [done|]. rewrite list_lookup_fmap.
  destruct (l !! j); cbn; by rewrite IH.
Qed.

Lemma sequence_positive before x : mode x = UnreliableOrdered → 1 ≤ sequence_of before x ≤ u32_max.
Proof. intros Ho. unfold sequence_of. rewrite decide_True by done. apply nth_sequence_positive. Qed.

Lemma airborne_unnumbered ch before L :
  Forall sound L → unnumbered ch (airborne before L) = in_the_air ch Unreliable L.
Proof.
  intros Hs. revert before. induction Hs as [|x L (_ & _ & Hx) _ IH]; intros before; [done|].
  cbn [airborne]. unfold unnumbered, in_the_air in *. rewrite filter_app, fmap_app, IH, filter_cons.
  destruct (decide (carried x = Reliable)) as [Hc|Hc]; [by rewrite decide_False by naive_solver|].
  rewrite filter_cons, filter_nil. cbn [fst snd]. specialize (Hx Hc).
  destruct (decide (mode x = UnreliableOrdered)) as [Ho|Ho].
  - pose proof (sequence_positive before x Ho).
    rewrite decide_False by lia. rewrite decide_False by (rewrite Ho; naive_solver). done.
  - unfold sequence_of. rewrite (decide_False (P := mode x = _)) by done.
    assert (mode x = Unreliable) by (destruct (mode x); congruence).
    repeat case_decide; naive_solver.
Qed.

(** The numbered items of a channel are its ordered parcels. *)
Lemma airborne_numbered ch L sp :
  Forall sound L → Z.of_nat (count_ordered ch L) ≤ u32_max → sp ∈ numbered ch (airborne [] L) →
  ∃ n x, sp = (Z.of_nat (S n), data x) ∧ ordered_on ch L !! n = Some x ∧ carried x ≠ Reliable.
Proof.
  intros Hs Hb ([s x] & -> & [[Hch Hn] Hin]%list_elem_of_filter)%list_elem_of_fmap. cbn [fst snd] in *.
  destruct (airborne_elem [] L (s, x) Hs Hin) as (_ & Hc & _ & H0 & H1). cbn [fst snd] in *.
  destruct (decide (mode x = UnreliableOrdered)) as [Ho|Ho]; [|by destruct (Hn (H0 Ho))].
  destruct (H1 Ho) as (n & -> & Hl). rewrite Hch in Hl. exists n, x. split_and!; [|done..].
  apply lookup_lt_Some in Hl. unfold ordered_on in Hl. unfold count_ordered in Hb. cbn in Hl.
  rewrite nth_sequence_small; [done|lia].
Qed.

Lemma numbered_NoDup ch L :
  Forall sound L → Z.of_nat (count_ordered ch L) ≤ u32_max → NoDup (numbered ch (airborne [] L)).*1.
Proof.
  intros Hs Hb. destruct (airborne_numbers ch [] L Hs Hb) as [Hnd _].
  unfold numbered. rewrite <- list_fmap_compose. eapply sublist_NoDup; [exact Hnd|].
  assert (∀ l : list (Z * Parcel), Forall (λ sx, mode sx.2 ≠ UnreliableOrdered → sx.1 = 0) l →
    (fst ∘ (λ sx : Z * Parcel, (sx.1, data sx.2)) <$>
       base.filter (λ sx : Z * Parcel, channel sx.2 = ch ∧ sx.1 ≠ 0) l)
    `sublist_of` (base.filter (λ sx : Z * Parcel, channel sx.2 = ch ∧ mode sx.2 = UnreliableOrdered) l).*1)
    as Hsub.
  { induction 1 as [|[s x] l Hx _ IH]; [constructor|]. rewrite !filter_cons. cbn [fst snd] in *.
    destruct (decide (mode x = UnreliableOrdered)) as [Ho|Ho].
    - repeat case_decide; try naive_solver; cbn; by constructor.
    - rewrite !decide_False by naive_solver. done. }
  apply Hsub, Forall_forall. intros sx Hin. by apply (airborne_elem [] L).
Qed.

Lemma strictly_sorted (l : list Z) : StronglySorted Z.le l → NoDup l → StronglySorted Z.lt l.
Proof.
  induction 1 as [|x l Hs IH Hle]; intros [Hx Hnd]%NoDup_cons || intros _; constructor; [auto|].
  rewrite Forall_forall in *. intros y Hy. specialize (Hle y Hy).
  assert (x ≠ y) by (by intros ->). lia.
Qed.

(** Parcels picked by strictly increasing numbers, none of them reliable. *)
Lemma picked_by_number (O : list Parcel) (kept : list (Z * bytes)) :
  (∀ sp, sp ∈ kept → ∃ n x, sp = (Z.of_nat (S n), data x) ∧ O !! n = Some x ∧ carried x ≠ Reliable) →
  StronglySorted Z.lt kept.*1 →
  kept.*2 `sublist_of` data <$> base.filter (λ x, carried x ≠ Reliable) O.
Proof.
  intros Hin Hsort.
  assert (∃ js, StronglySorted lt js ∧ (Forall2 (λ sp j, sp.1 = Z.of_nat (S j)) kept js) ∧
    kept.*2 = data <$> base.filter (λ x, carried x ≠ Reliable) (omap (O !!.) js)) as (js & Hjs & _ & ->).
  { induction kept as [|[s d] kept IH]; [exists []; by split_and!; constructor|].
    cbn in Hsort. apply StronglySorted_inv in Hsort as [Hsort Hlt].
    destruct IH as (js & Hjs & H2 & Hk); [intros; apply Hin; by right|done|].
    destruct (Hin (s, d)) as (n & x & [= -> ->] & Hl & Hc); [left|].
    exists (n :: js). split_and!.
    - constructor; [done|]. clear - H2 Hlt. rewrite Forall_fmap in Hlt.
      induction H2 as [|sp j l js Hj _ IH]; constructor; apply Forall_cons in Hlt as [Hsp Hlt].
      + cbn in Hsp. lia.
      + by apply IH.
    - by constructor.
    - cbn. rewrite Hl, Hk, filter_cons. by rewrite decide_True. }
  apply fmap_sublist, sublist_filter_mono, omap_lookup_sublist, Hjs.
Qed.

(** What the datagram task of the other end hands on, whichever datagrams land,
    in whatever order. *)
Lemma landed_packets peer L (landed : list nat) :
  Forall sound L → NoDup landed → Forall (λ i, i < length (flights [] L))%nat landed →
  ∃ last ps, read_datagrams peer ∅ (omap (flights [] L !!.) landed) = Some (last, ps) ∧
    Forall (λ p, Wire.peer p = peer ∧ Wire.mode p ≠ Reliable) ps ∧
    (∀ ch, packets_on ch Unreliable ps ⊆+ in_the_air ch Unreliable L) ∧
    (∀ ch, Z.of_nat (count_ordered ch L) ≤ 2147483647 →
       packets_on ch UnreliableOrdered ps `sublist_of` in_the_air ch UnreliableOrdered L).
Proof.
  intros Hs Hnd Hl. rewrite flights_airborne in *. rewrite length_fmap in Hl. rewrite omap_lookup_fmap.
  pose proof (omap_lookup_submseteq _ _ Hnd Hl) as Hsub. set (items := omap _ landed) in *.
  assert (∀ sx, sx ∈ items → sx ∈ airborne [] L) as Hin by (intros; by eapply elem_of_submseteq).
  destruct (read_items peer ∅ items) as (last & ps & Hr & F & U & O).
  { apply Forall_forall. intros sx Hx. destruct (airborne_elem [] L sx) as (H1 & _ & H3 & _); [done|auto|].
    split; [|done]. rewrite Forall_forall in Hs. by apply Hs. }
  exists last, ps. split_and!; [done|done| |].
  - intros ch. rewrite U, <- (airborne_unnumbered ch [] L) by done.
    by apply fmap_submseteq, submseteq_filter_mono.
  - intros ch Hb. assert (numbered ch items ⊆+ numbered ch (airborne [] L)) as Hn
      by (by apply fmap_submseteq, submseteq_filter_mono).
    assert (∀ sp, sp ∈ numbered ch items → ∃ n x, sp = (Z.of_nat (S n), data x) ∧
      ordered_on ch L !! n = Some x ∧ carried x ≠ Reliable) as Hel.
    { intros sp Hsp. apply airborne_numbered; [done|unfold u32_max; lia|]. by eapply elem_of_submseteq. }
    rewrite O; [|by rewrite lookup_empty|].
    2:{ apply Forall_forall. intros sp (n & x & -> & Hx & _)%Hel. apply lookup_lt_Some in Hx.
        unfold ordered_on in Hx. unfold count_ordered in Hb. cbn. lia. }
    set (kept := freshest _ _). assert (kept `sublist_of` numbered ch items) as Hk by apply freshest_sublist.
    assert (in_the_air ch UnreliableOrdered L
      = data <$> base.filter (λ x, carried x ≠ Reliable) (ordered_on ch L)) as ->.
    { unfold in_the_air, ordered_on. rewrite list_filter_filter. f_equal. apply list_filter_iff. naive_solver. }
    apply picked_by_number.
    + intros sp Hsp. apply Hel. by eapply elem_of_sublist.
    + apply strictly_sorted; [apply freshest_sorted|].
      eapply sublist_NoDup; [|apply fmap_sublist, Hk].
      assert ((numbered ch items).*1 ⊆+ (numbered ch (airborne [] L)).*1) as (k & Hk1 & Hk2)%submseteq_sublist_l
        by (by apply fmap_submseteq).
      eapply sublist_NoDup; [|exact Hk1]. rewrite Hk2. apply numbered_NoDup; [done|unfold u32_max; lia].
Qed.
