(* ===== verification/Typed.v ===== *)
(** * The session task is well typed ([session.rs])

    The source's [i32] and [u32] are the kernel's [Z] here. What its type system
    gives for free, that every id and channel the task stores, tells or sends is
    an [i32] and every sequence number a [u32], is an invariant of the model:
    well-typed inputs keep the state well typed. *)

From S2P Require Import Prelude Wire Session.

Definition event_typed (e : Event) : Prop :=
  match e with
  | Ready id | PeerConnected id | PeerDisconnected id => is_i32 id
  | PacketEvent p => is_i32 (peer p) ∧ is_i32 (channel p)
  | Warning _ | Closed _ => True
  end.

(** A sequence number of zero means unordered and is never a counter's. *)
Record link_typed (l : Link) : Prop := {
  lt_reliable c : c ∈ dom (reliable l) → is_i32 c;
  lt_sequences c s : sequences l !! c = Some s → is_i32 c ∧ 1 ≤ s ≤ u32_max;
  lt_warned c : c ∈ warned l → is_i32 c;
}.

(** A datagram is a header of an [i32] and a [u32], read back as they were put. *)
Definition effect_typed (e : Effect) : Prop :=
  match e with
  | SpawnReaders p _ => is_i32 p
  | SpawnStreamWriter _ _ c => is_i32 c
  | QueueFrame _ _ => True
  | SendDatagram _ d => ∃ c s data, is_i32 c ∧ is_u32 s ∧ d = datagram_bytes c s data
  | CloseConnection _ code _ => is_u32 code
  end.

Record typed (st : State) : Prop := {
  ty_peers p : p ∈ dom (links st) → is_i32 p;
  ty_links p l : links st !! p = Some l → link_typed l;
  ty_announced p : p ∈ announced st → is_i32 p;
  ty_shared p : p ∈ dom (connections st) → is_i32 p;
  ty_events : Forall event_typed (sent_events st);
  ty_effects : Forall effect_typed (effects st);
}.

Definition control_typed (c : Control) : Prop :=
  match c with
  | Welcome id peers => is_i32 id ∧ Forall is_i32 peers
  | PeerJoined id | PeerLeft id => is_i32 id
  end.

Definition input_typed (i : Input) : Prop :=
  match i with
  | OnCommand (Some (Send target channel _ _)) => is_i32 target ∧ is_i32 channel
  | OnCommand (Some (Disconnect p)) => is_i32 p
  | OnInternal (Some (InternalControl c)) => control_typed c
  | OnInternal (Some (Lost p)) => is_i32 p
  | _ => True
  end.

#[export] Instance control_typed_dec c : Decision (control_typed c).
Proof. destruct c; cbn; apply _. Defined.
#[export] Instance input_typed_dec i : Decision (input_typed i).
Proof. destruct i as [[[]|]|[[]|]|]; cbn; apply _. Defined.

(** ** The primitive steps *)

Lemma typed_perform e st : effect_typed e → typed st → typed (perform e st).
Proof. intros He []. split; cbn; try done. by apply Forall_app_2; [|constructor]. Qed.

Lemma typed_event e st : event_typed e → typed st → typed (send_event e st).
Proof. intros He []. split; cbn; try done. by apply Forall_app_2; [|constructor]. Qed.

Lemma typed_set_link p l st :
  is_i32 p → link_typed l → typed st → typed (set_links (<[p := l]> (links st)) st).
Proof.
  intros Hp Hl [H1 H2 H3 H4 H5 H6]. split; cbn; try done.
  - intros q. rewrite dom_insert_L. intros [->%elem_of_singleton|Hq]%elem_of_union; [done|by apply H1].
  - intros q l'. destruct (decide (p = q)) as [->|Hne].
    + rewrite lookup_insert_eq. by intros [= <-].
    + rewrite lookup_insert_ne by done. apply H2.
Qed.

Lemma typed_drop p st :
  typed st →
  typed (st |> set_links (delete p (links st)) |> set_connections (delete p (connections st))).
Proof.
  intros [H1 H2 H3 H4 H5 H6]. split; cbn; try done.
  - intros q. rewrite dom_delete_L. intros [Hq _]%elem_of_difference. by apply H1.
  - intros q l [_ Hq]%lookup_delete_Some. by apply (H2 q).
  - intros q. rewrite dom_delete_L. intros [Hq _]%elem_of_difference. by apply H4.
Qed.

Lemma typed_new_link c : link_typed (mk_link c ∅ ∅ ∅).
Proof. split; cbn; [set_solver|intros ?? ?%lookup_empty_Some; done|set_solver]. Qed.

Lemma typed_add_link p c st : is_i32 p → typed st → typed (add_link p c st).
Proof.
  intros Hp Ht. apply (typed_set_link p (mk_link c ∅ ∅ ∅)
    (perform (SpawnReaders p c) (set_connections (<[p := c]> (connections st)) st))); [done|apply typed_new_link|]. apply typed_perform; [done|].
  destruct Ht as [H1 H2 H3 H4 H5 H6]. split; cbn; try done.
  intros q. rewrite dom_insert_L. intros [->%elem_of_singleton|Hq]%elem_of_union; [done|by apply H4].
Qed.

Lemma typed_announce p st : is_i32 p → typed st → typed (announce p st).
Proof.
  intros Hp Ht. unfold announce. case_decide; [done|]. apply typed_event; [done|].
  destruct Ht as [H1 H2 H3 H4 H5 H6]. split; cbn; try done.
  intros q [->%elem_of_singleton|Hq]%elem_of_union; [done|by apply H3].
Qed.

Lemma typed_forget p st : is_i32 p → typed st → typed (forget p st).
Proof.
  intros Hp Ht. unfold forget. case_decide; [|done]. apply typed_event; [done|].
  destruct Ht as [H1 H2 H3 H4 H5 H6]. split; cbn; try done.
  intros q [Hq _]%elem_of_difference. by apply H3.
Qed.

(** ** The methods *)

Lemma typed_write_reliable p c d st : is_i32 c → typed st → typed (write_reliable p c d st).
Proof.
  intros Hc Ht. unfold write_reliable. destruct (links st !! p) as [l|] eqn:Hl; [|done].
  assert (is_i32 p) as Hp by (apply (ty_peers _ Ht), elem_of_dom; eauto).
  pose proof (ty_links _ Ht p l Hl) as [L1 L2 L3].
  unfold writer_for. destruct (reliable l !! c) as [w|] eqn:Hw; [by apply typed_perform|].
  cbn. apply typed_perform; [done|].
  set (l' := mk_link _ _ _ _).
  assert (link_typed l') as Hl'.
  { split; cbn; [|done|done]. intros q. rewrite dom_insert_L.
    intros [->%elem_of_singleton|Hq]%elem_of_union; [done|by apply L1]. }
  destruct (typed_perform (SpawnStreamWriter (next_writer st) (connection l) c) _ Hc
    (typed_set_link p l' st Hp Hl' Ht)) as [H1 H2 H3 H4 H5 H6].
  by split.
Qed.

Lemma typed_write_datagram sizes p c m d st :
  is_i32 c → typed st → typed (write_datagram sizes p c m d st).
Proof.
  intros Hc Ht. unfold write_datagram. destruct (links st !! p) as [l|] eqn:Hl; [|done].
  assert (is_i32 p) as Hp by (apply (ty_peers _ Ht), elem_of_dom; eauto).
  pose proof (ty_links _ Ht p l Hl) as Hlt. pose proof Hlt as [L1 L2 L3].
  set (sl := if decide (m = UnreliableOrdered) then _ else _).
  assert (is_u32 sl.1 ∧ link_typed sl.2) as [Hs Hsl].
  { subst sl. case_decide; [|by split]. cbn.
    assert (1 ≤ next_sequence (default 0 (sequences l !! c)) ≤ u32_max) as Hr.
    { apply next_sequence_range. destruct (sequences l !! c) as [s|] eqn:E; cbn; [|by_decision].
      destruct (L2 c s E). unfold_ints. lia. }
    split; [unfold_ints; lia|]. split; cbn; [done| |done].
    intros q s. destruct (decide (c = q)) as [->|Hne].
    - rewrite lookup_insert_eq. by intros [= <-].
    - rewrite lookup_insert_ne by done. apply L2. }
  destruct sl as [s l1]. cbn in Hs, Hsl. case_decide.
  - set (l2 := mk_link _ _ _ _).
    assert (link_typed l2) as Hl2.
    { destruct Hsl as [K1 K2 K3]. split; cbn; [done|done|].
      intros q [->%elem_of_singleton|Hq]%elem_of_union; [done|by apply K3]. }
    apply typed_write_reliable; [done|]. case_decide; [by apply typed_set_link|].
    apply typed_event; [done|by apply typed_set_link].
  - apply typed_perform; [by exists c, s, d|by apply typed_set_link].
Qed.

Lemma typed_send_one sizes p c m d st : is_i32 c → typed st → typed (send_one sizes p c m d st).
Proof. intros. destruct m; [by apply typed_write_reliable|by apply typed_write_datagram..]. Qed.

Lemma typed_control_to p c st : typed st → typed (control_to p c st).
Proof. apply typed_write_reliable. by_decision. Qed.

Section task.
Context `{HashOrder}.

Lemma typed_send sizes target c m d st : is_i32 c → typed st → typed (send sizes target c m d st).
Proof.
  intros Hc Ht. unfold send. case_decide; [|by apply typed_send_one].
  apply (foldl_preserves _ typed); [done|]. intros. by apply typed_send_one.
Qed.

Lemma typed_welcome p c st : is_i32 p → typed st → typed (welcome p c st).
Proof.
  intros Hp Ht. unfold welcome. apply typed_announce; [done|].
  apply (foldl_preserves _ typed); [|intros; by apply typed_control_to].
  by apply typed_control_to, typed_add_link.
Qed.

Lemma typed_apply c st : control_typed c → typed st → typed (apply c st).
Proof.
  intros Hc Ht. destruct c as [id peers|id|id]; cbn in Hc |- *;
    [|by apply typed_announce|by apply typed_forget].
  destruct Hc as [Hid Hpeers].
  apply (foldl_invariant _ typed is_i32); [|done|intros; by apply typed_announce].
  apply typed_announce; [by_decision|]. by apply typed_event.
Qed.

Lemma typed_lost p st : is_i32 p → typed st → typed (lost p st).
Proof.
  intros Hp Ht. unfold lost. destruct (links st !! p); [|done].
  set (st1 := forget p _). assert (typed st1) by (by apply typed_forget, typed_drop).
  destruct (is_host st1).
  - apply (foldl_preserves _ typed); [done|]. intros. by apply typed_control_to.
  - case_decide; [by apply typed_event|done].
Qed.

Lemma typed_finish t : typed (state t) → typed (state (finish t)).
Proof.
  intros Ht. unfold finish. cbn. apply typed_event; [done|].
  assert (typed (close_all (state t))) as [H1 H2 H3 H4 H5 H6].
  { apply (foldl_preserves _ typed); [done|]. intros st p Hst.
    destruct (links st !! p); [|done]. apply typed_perform; [by_decision|done]. }
  split; cbn; try done.
Qed.

Definition task_typed (t : Task) : Prop :=
  typed (state t) ∧ FIRST_CLIENT_ID ≤ next_id t ≤ i32_max.

Lemma next_id_step sizes t i :
  FIRST_CLIENT_ID ≤ next_id t ≤ i32_max →
  FIRST_CLIENT_ID ≤ next_id (step sizes t i) ≤ i32_max.
Proof.
  intros Hn. unfold step. destruct (running t); [|exact Hn].
  destruct i as [[[| |]|]|[[|]|]|[c|]]; try exact Hn; destruct (inbound t); try exact Hn.
  cbn [next_id]. unfold i32_wrapping_add. pose proof (to_i32_range (next_id t + 1)) as Hr.
  clear Hn. revert Hr. generalize (to_i32 (next_id t + 1)). intros z Hr.
  unfold FIRST_CLIENT_ID. unfold is_i32, i32_max in *. lia.
Qed.

Lemma typed_step sizes t i : input_typed i → task_typed t → task_typed (step sizes t i).
Proof.
  intros Hi [Ht Hn]. split; [|by apply next_id_step].
  unfold step. destruct (running t); [|exact Ht].
  destruct i as [[[target channel mode data|peer|]|]|[[control|peer]|]|[c|]];
    cbn [input_typed] in Hi; try (apply typed_finish; exact Ht); cbn [state with_state].
  - apply typed_send; [apply Hi|exact Ht].
  - unfold drop_link. destruct (links (state t) !! peer); [|exact Ht].
    apply typed_perform; [|exact Ht]. unfold effect_typed. by_decision.
  - by apply typed_apply.
  - by apply typed_lost.
  - destruct (inbound t); [|exact Ht]. cbn [state]. apply typed_welcome; [|exact Ht].
    unfold FIRST_CLIENT_ID in Hn. unfold is_i32, i32_min, i32_max in *. lia.
  - destruct (inbound t); exact Ht.
Qed.
End task.

(** ** Properties *)

Lemma typed_begin dialled : task_typed (begin dialled).
Proof.
  assert (∀ b, typed (empty_state b)) as He by (by split; cbn; set_solver).
  split; [|by destruct dialled as [[c|err]|]].
  destruct dialled as [[c|err]|]; cbn.
  - apply typed_add_link; [by_decision|apply He].
  - by apply typed_event.
  - apply typed_event; [by_decision|apply He].
Qed.

(** C29: a session is well typed at every moment. If what reaches the task has the
    types the source gives it, every id and channel it stores, reports or opens
    a stream for is an [i32], the id the next newcomer will get is one above the
    host's, and every sequence counter is a [u32] other than zero. Every datagram
    it sends is read without a panic, to a packet that is typed again. *)
Theorem session_well_typed `{HashOrder} dialled inputs :
  Forall (λ i, input_typed i.2) inputs →
  let t := run (begin dialled) inputs in
  typed (state t) ∧ FIRST_CLIENT_ID ≤ next_id t ≤ i32_max ∧
  ∀ c d p last, is_i32 p → SendDatagram c d ∈ effects (state t) →
    ∃ last' packet, read_datagram p last d = Some (last', packet) ∧
      ∀ q, packet = Some q → event_typed (PacketEvent q).
Proof.
  intros Hin t. assert (task_typed t) as [Ht Hn].
  { apply (foldl_invariant _ task_typed (λ i, input_typed i.2)); [apply typed_begin|done|].
    intros t' i Ht' Hi. by apply typed_step. }
  split_and!; try apply Hn; [done|].
  intros c d p last Hp Hd.
  pose proof (proj1 (Forall_forall _ _) (ty_effects _ Ht) _ Hd) as (ch & s & data & Hc & Hs & ->).
  rewrite read_datagram_framed by done. cbv zeta.
  repeat case_match; do 2 eexists; (split; [done|]); intros q Hq; try discriminate;
    injection Hq as <-; by split.
Qed.

Lemma session_well_typed_witness :
  let t := run (H := listing_order) (begin None)
    [(λ _, Some 1200, OnConnection (Some 5%nat));
     (λ _, Some 1200, OnCommand (Some (Send 0 7 UnreliableOrdered [x61])))] in
  typed (state t) ∧ FIRST_CLIENT_ID ≤ next_id t ≤ i32_max ∧
  ∀ c d p last, is_i32 p → SendDatagram c d ∈ effects (state t) →
    ∃ last' packet, read_datagram p last d = Some (last', packet) ∧
      ∀ q, packet = Some q → event_typed (PacketEvent q).
Proof.
  refine (@session_well_typed listing_order None
    [(λ _, Some 1200, OnConnection (Some 5%nat));
     (λ _, Some 1200, OnCommand (Some (Send 0 7 UnreliableOrdered [x61])))] _).
  by_decision.
Defined.
