(* ===== verification/Raw.v ===== *)
(** * Raw connections and streams ([raw.rs])

    Part one: the event queue of a connection, fed by three independent tasks.
    Part two: a stream, as the handle the main thread holds and the two tasks
    behind it that share its channels. A run is a list of labels, one for every
    call of the handle and every step of a task, in the order they happen. *)

From S2P Require Import Prelude.
From S2P Require Dispatch.

Abbreviation Conn := Dispatch.Conn.

(** ** Paths

    [Path] is what iroh says about one path of a connection. *)

Record Path (Dur : Type) : Type := mk_path {
  is_selected : bool;
  is_relay : bool;
  path_rtt : Dur;
}.
Arguments mk_path {Dur}. Arguments is_selected {Dur}. Arguments is_relay {Dur}.
Arguments path_rtt {Dur}.

Record PathInfo (Dur : Type) : Type := mk_path_info {
  relay : bool;
  rtt : Dur;
}.
Arguments mk_path_info {Dur}. Arguments relay {Dur}. Arguments rtt {Dur}.

Definition path_info {Dur : Type} (paths : list (Path Dur)) : option (PathInfo Dur) :=
  selected ← find is_selected paths;
  Some (mk_path_info (is_relay selected) (path_rtt selected)).

(** ** Streams: the handle *)

Definition READ_CHUNK : Z := 64 * 1024.

Inductive Chunk : Type :=
  | Data (d : bytes)
  | Finish
  | Abort (code : Z).

Inductive Incoming : Type :=
  | Received (d : bytes)
  | Ended (reason : option string).

#[export] Instance chunk_eq_dec : EqDecision Chunk.
Proof. solve_decision. Defined.
#[export] Instance incoming_eq_dec : EqDecision Incoming.
Proof. solve_decision. Defined.

Record Stream : Type := mk_stream {
  outgoing : Chan Chunk;
  incoming : Chan Incoming;
}.

Definition enqueue (c : Chunk) (s : Stream) : Stream * bool :=
  let '(o, ok) := chan_send (outgoing s) c in (mk_stream o (incoming s), ok).

Definition write (d : bytes) (s : Stream) : Stream * bool := enqueue (Data d) s.
Definition finish (s : Stream) : Stream * bool := enqueue Finish s.
Definition abort (code : Z) (s : Stream) : Stream * bool := enqueue (Abort code) s.

Definition try_recv (s : Stream) : option Incoming * Stream :=
  let '(i, c) := chan_try_recv (incoming s) in (i, mk_stream (outgoing s) c).

(** ** Streams: the tasks *)

(** What reached the sending half of the QUIC stream: a chunk, or what went out of
    one before its write failed. *)
Inductive Outgoing : Type :=
  | Wrote (d : bytes)
  | WrotePart (d : bytes)
  | SentFinish
  | SentReset (code : Z).

(** [aborts] is the channel from the writer to the reader; its sender is the
    writer's. *)
Record Carry : Type := mk_carry {
  opening : bool;
  sent : list Outgoing;
  writing : bool;
  aborts : list Z;
  abortable : bool;
  reading : bool;
  stopped : option Z;
}.

Record System : Type := mk_system {
  stream : Stream;
  carry : Carry;
}.

(** A stream whose reading half nobody dropped. *)
Definition held (s : System) : bool := receiver_alive (incoming (stream s)).

Definition report (i : Incoming) (s : System) : System :=
  mk_system (mk_stream (outgoing (stream s)) (chan_send (incoming (stream s)) i).1) (carry s).

(** The start of [carry]; [reader] is whether the reader could be detached. *)
Definition start_carry (reader : bool) : Carry := mk_carry false [] true [] true reader None.

(** [Stream::open]: the handle exists before the stream does. *)
Definition open (detached : bool) : System :=
  let s := mk_stream unbounded_channel unbounded_channel in
  if detached then mk_system s (mk_carry true [] false [] true false None)
  else
    mk_system (mk_stream (chan_drop_receiver (outgoing s))
                 (chan_send (incoming s) (Ended (Some "the network runtime is not running"))).1)
      (mk_carry false [] false [] true false None).

Definition adopt : System :=
  mk_system (mk_stream unbounded_channel unbounded_channel) (start_carry true).

(** [connection.open_bi().await] returning. *)
Definition opened (result : option string) (s : System) : System :=
  if opening (carry s) then
    match result with
    | None => mk_system (stream s) (start_carry true)
    | Some err =>
        report (Ended (Some err))
          (mk_system (mk_stream (chan_drop_receiver (outgoing (stream s))) (incoming (stream s)))
             (mk_carry false [] false [] true false None))
    end
  else s.

(** The writer returning: its receiver and its abort sender are dropped. *)
Definition writer_returns (outs : list Outgoing) (abort : list Z) (o : Chan Chunk) (s : System)
  : System :=
  let c := carry s in
  mk_system (mk_stream (chan_drop_receiver o) (incoming (stream s)))
    (mk_carry (opening c) (sent c ++ outs) false (aborts c ++ abort) (abortable c) (reading c)
       (stopped c)).

(** One round of the writer's loop. [failure] is how [write_all] ends: [None] when
    it succeeds, [Some n] when it fails after [n] bytes of the chunk. With nothing
    queued the writer waits, unless the handle is gone. *)
Definition writer_step (failure : option nat) (s : System) : System :=
  let c := carry s in
  if writing c then
    match chan_try_recv (outgoing (stream s)) with
    | (Some (Data d), o) =>
        match failure with
        | None =>
            mk_system (mk_stream o (incoming (stream s)))
              (mk_carry (opening c) (sent c ++ [Wrote d]) true (aborts c) (abortable c) (reading c)
                 (stopped c))
        | Some n => writer_returns [WrotePart (take n d)] [] o s
        end
    | (Some Finish, o) => writer_returns [SentFinish] [] o s
    | (Some (Abort code), o) => writer_returns [SentReset code] [code] o s
    | (None, o) => if held s then s else writer_returns [SentFinish] [] o s
    end
  else s.

(** The reader's abort arm: a code, or the end of the channel. *)
Definition reader_abort_step (s : System) : System :=
  let c := carry s in
  if reading c && abortable c then
    match aborts c with
    | code :: rest =>
        mk_system (stream s)
          (mk_carry (opening c) (sent c) (writing c) rest (abortable c) false (Some code))
    | [] =>
        if writing c then s
        else mk_system (stream s)
               (mk_carry (opening c) (sent c) (writing c) [] false (reading c) (stopped c))
    end
  else s.

Definition reader_done (s : System) : System :=
  let c := carry s in
  mk_system (stream s)
    (mk_carry (opening c) (sent c) (writing c) (aborts c) (abortable c) false (stopped c)).

(** The reader's other arm: what [read_chunk] returned. *)
Inductive Read : Type :=
  | ReadChunk (d : bytes)
  | ReadEnd
  | ReadError (err : string).

Definition reader_chunk_step (r : Read) (s : System) : System :=
  if reading (carry s) then
    match r with
    | ReadChunk d => if held s then report (Received d) s else reader_done s
    | ReadEnd => reader_done (report (Ended None) s)
    | ReadError err => reader_done (report (Ended (Some err)) s)
    end
  else s.

(** ** Streams: runs *)

Inductive Label : Type :=
  | CallWrite (d : bytes)
  | CallFinish
  | CallAbort (code : Z)
  | CallTryRecv
  | DropStream
  | OpenReturns (result : option string)
  | WriterRuns (failure : option nat)
  | ReaderSeesAbort
  | ReaderReads (r : Read).

(** The system with its history: the chunks the handle accepted, what the
    network handed to the tasks, and what the main thread took. *)
Record Run : Type := mk_run {
  system : System;
  accepted : list Chunk;
  network : list Read;
  taken : list Incoming;
}.

Definition begin (s : System) : Run :=
  mk_run s [] (match queue (incoming (stream s)) with
               | Ended (Some err) :: _ => [ReadError err]
               | _ => []
               end) [].

Definition set_system (s : System) (r : Run) : Run :=
  mk_run s (accepted r) (network r) (taken r).

Definition call (c : Chunk) (r : Run) : Run :=
  let s := system r in
  if held s then
    let '(st, ok) := enqueue c (stream s) in
    mk_run (mk_system st (carry s)) (accepted r ++ if ok then [c] else []) (network r) (taken r)
  else r.

Definition step (r : Run) (l : Label) : Run :=
  let s := system r in
  match l with
  | CallWrite d => call (Data d) r
  | CallFinish => call Finish r
  | CallAbort code => call (Abort code) r
  | CallTryRecv =>
      if held s then
        let '(i, st) := try_recv (stream s) in
        mk_run (mk_system st (carry s)) (accepted r) (network r) (taken r ++ option_list i)
      else r
  | DropStream =>
      set_system (mk_system (mk_stream (outgoing (stream s))
                               (chan_drop_receiver (incoming (stream s)))) (carry s)) r
  | OpenReturns result =>
      mk_run (opened result s) (accepted r)
        (network r ++ match opening (carry s), result with
                      | true, Some err => [ReadError err]
                      | _, _ => []
                      end) (taken r)
  | WriterRuns failure => set_system (writer_step failure s) r
  | ReaderSeesAbort => set_system (reader_abort_step s) r
  | ReaderReads x =>
      mk_run (reader_chunk_step x s) (accepted r)
        (network r ++ if reading (carry s) then [x] else []) (taken r)
  end.

Definition run (s : System) (ls : list Label) : Run := foldl step (begin s) ls.

(** ** The reading half *)

Definition to_incoming (r : Read) : Incoming :=
  match r with
  | ReadChunk d => Received d
  | ReadEnd => Ended None
  | ReadError err => Ended (Some err)
  end.

Definition is_chunk (r : Read) : bool := match r with ReadChunk _ => true | _ => false end.

(** While the handle is held, what it took and what waits for it is what the
    network gave; and the network gives nothing after an end. *)
Record reading_ok (r : Run) : Prop := {
  reading_reports : held (system r) = true →
    taken r ++ queue (incoming (stream (system r))) = to_incoming <$> network r;
  reading_live : opening (carry (system r)) || reading (carry (system r)) = true →
    Forall (λ x, is_chunk x = true) (network r);
  reading_last : ∃ chunks last, network r = (ReadChunk <$> chunks) ++ option_list last;
  reading_phase : opening (carry (system r)) = true → reading (carry (system r)) = false
    ∧ writing (carry (system r)) = false;
}.

Lemma all_chunks l : Forall (λ x, is_chunk x = true) l → ∃ ds, l = ReadChunk <$> ds.
Proof.
  induction 1 as [|[d| |err] l Hx _ (ds & ->)]; [by exists []| |done..]. by exists (d :: ds).
Qed.

Lemma reading_network s acc net net' tk x :
  reading_ok (mk_run s acc net tk) → opening (carry s) || reading (carry s) = true →
  net' = net ++ [x] → ∃ chunks last, net' = (ReadChunk <$> chunks) ++ option_list last.
Proof.
  intros [_ Hl _ _] Hr ->. apply Hl, all_chunks in Hr as (ds & Hn). cbn in Hn. rewrite Hn.
  exists ds, (Some x). done.
Qed.

(** Steps that touch neither the reports nor the reader. *)
Lemma reading_ok_same r r' :
  reading_ok r →
  incoming (stream (system r')) = incoming (stream (system r)) →
  network r' = network r → taken r' = taken r →
  opening (carry (system r')) = opening (carry (system r)) →
  (reading (carry (system r')) = true → reading (carry (system r)) = true) →
  (opening (carry (system r')) = true → writing (carry (system r')) = false) →
  reading_ok r'.
Proof.
  intros [Hr Hl Hn Hp] Hi Hnet Ht Ho Hre Hw. split; unfold held in *; rewrite ?Hi, ?Hnet, ?Ht, ?Ho; auto.
  - intros Hor. apply Hl. apply orb_true_iff in Hor as [->|H%Hre]; [done|]. rewrite H. apply orb_true_r.
  - intros H. split; [|rewrite Ho in Hw; auto]. apply Hp in H as [H _].
    destruct (reading (carry (system r'))); [|done]. by rewrite Hre in H.
Qed.

Lemma reading_ok_call c r : reading_ok r → reading_ok (call c r).
Proof.
  intros Hok. unfold call, enqueue. destruct (held (system r)); [|done].
  destruct (chan_send _ _) as [o ok]. apply (reading_ok_same _ _ Hok); try done.
  intros H. by apply Hok in H as [_ ?].
Qed.

Lemma reading_ok_writer failure r :
  reading_ok r → reading_ok (set_system (writer_step failure (system r)) r).
Proof.
  intros Hok. pose proof (reading_phase _ Hok) as Hp.
  unfold writer_step. destruct (writing (carry (system r))) eqn:Hw;
    [|apply (reading_ok_same _ _ Hok); try done; cbn; auto].
  assert (opening (carry (system r)) = false) as Ho.
  { destruct (opening (carry (system r))); [|done]. by destruct Hp. }
  destruct (chan_try_recv _) as [[[d| |code]|] o]; [destruct failure| | |destruct (held (system r))];
    apply (reading_ok_same _ _ Hok); cbn; try done; congruence.
Qed.

Lemma reading_ok_abort r : reading_ok r → reading_ok (set_system (reader_abort_step (system r)) r).
Proof.
  intros Hok. pose proof (reading_phase _ Hok) as Hp. unfold reader_abort_step.
  destruct (reading (carry (system r)) && abortable (carry (system r))) eqn:Hre;
    [apply andb_true_iff in Hre as [Hre _]; destruct (aborts (carry (system r)));
       [destruct (writing (carry (system r))) eqn:Hw|]|];
    apply (reading_ok_same _ _ Hok); cbn; try done; intros H; by apply Hp in H as [? ?].
Qed.

Lemma reading_ok_read x r :
  reading_ok r → reading_ok (step r (ReaderReads x)).
Proof.
  intros Hok. pose proof Hok as [Hr Hl Hn Hp]. cbn. unfold reader_chunk_step.
  destruct (reading (carry (system r))) eqn:Hre.
  2:{ rewrite app_nil_r. by destruct r. }
  assert (opening (carry (system r)) = false) as Ho.
  { destruct (opening (carry (system r))); [|done]. by destruct Hp. }
  assert (∃ chunks last, network r ++ [x] = (ReadChunk <$> chunks) ++ option_list last) as Hnet.
  { destruct r as [s acc net tk]. apply (reading_network s acc net _ tk x Hok); [|done].
    cbn in *. rewrite Hre. apply orb_true_r. }
  assert (Forall (λ x, is_chunk x = true) (network r)) as Hall.
  { apply Hl. apply orb_true_r. }
  destruct x as [d| |err]; [destruct (held (system r)) eqn:Hh| |];
    split; cbn; unfold held in *; cbn; rewrite ?Ho; try done; try congruence;
    unfold chan_send; destruct (receiver_alive _) eqn:Ha; cbn; try done; try congruence;
    try (intros _; rewrite app_assoc, Hr by done; by rewrite fmap_app).
  all: try (intros _; apply Forall_app; split; [done|by constructor]).
Qed.

Lemma reading_ok_step r l : reading_ok r → reading_ok (step r l).
Proof.
  intros Hok. pose proof Hok as [Hr Hl Hn Hp].
  destruct l as [d| |code| | |result|ok| |x];
    [by apply reading_ok_call..| | | |by apply reading_ok_writer|by apply reading_ok_abort
    |by apply reading_ok_read]; cbn.
  - destruct (held (system r)) eqn:Hh; [|done]. unfold try_recv, chan_try_recv.
    destruct (queue (incoming (stream (system r)))) as [|i q] eqn:Hq; split; cbn; auto;
      intros _; rewrite <- Hr by done; rewrite <- app_assoc; cbn; by rewrite ?Hq.
  - split; cbn; auto. by intros.
  - unfold opened. destruct (opening (carry (system r))) eqn:Ho.
    2:{ destruct result; rewrite app_nil_r; by destruct r. }
    destruct result as [err|]; cbn.
    + split; cbn; unfold held; cbn; try done.
      * unfold chan_send. destruct (receiver_alive (incoming (stream (system r)))) eqn:Ha; cbn; [|congruence].
        intros _. rewrite app_assoc, Hr by done. by rewrite fmap_app.
      * destruct r as [s acc net tk]. apply (reading_network s acc net _ tk (ReadError err) Hok); [|done].
        cbn in *. by rewrite Ho.
    + rewrite app_nil_r. split; cbn; auto; done.
Qed.

Definition fresh (s : System) : Prop := s = adopt ∨ ∃ b, s = open b.

Lemma reading_ok_run s ls : fresh s → reading_ok (run s ls).
Proof.
  intros Hs. apply (foldl_preserves step reading_ok); [|apply reading_ok_step].
  destruct Hs as [->|[[] ->]]; split; cbn; try done;
    first [by exists [], None|by eexists [], (Some _)|by constructor].
Qed.

(** ** The writing half *)

Definition datas (l : list Chunk) : list bytes :=
  omap (λ c, match c with Data d => Some d | _ => None end) l.

(** What has gone out, and how the accepted chunks explain it. [rest] is what
    the task never looked at. *)
Inductive written (acc : list Chunk) (dropped : bool) : list Outgoing → Prop :=
  | written_finish ds rest :
      acc = (Data <$> ds) ++ Finish :: rest →
      written acc dropped ((Wrote <$> ds) ++ [SentFinish])
  | written_dropped ds :
      acc = Data <$> ds → dropped = true →
      written acc dropped ((Wrote <$> ds) ++ [SentFinish])
  | written_abort ds code rest :
      acc = (Data <$> ds) ++ Abort code :: rest →
      written acc dropped ((Wrote <$> ds) ++ [SentReset code])
  | written_failed ds d n rest :
      acc = (Data <$> ds) ++ Data d :: rest →
      written acc dropped ((Wrote <$> ds) ++ [WrotePart (take n d)])
  | written_unopened : written acc dropped [].

Lemma written_mono acc b l : written acc b l → written acc true l.
Proof.
  destruct 1; [by eapply written_finish|by apply written_dropped|by eapply written_abort
    |by eapply written_failed|apply written_unopened].
Qed.

#[local] Instance Wrote_inj : Inj (=) (=) Wrote.
Proof. by intros ? ? [= ->]. Qed.

Lemma wrote_snoc ds ds' x y :
  (Wrote <$> ds) ++ [x] = (Wrote <$> ds') ++ [y] → ds' = ds ∧ y = x.
Proof. intros [He ->]%app_inj_tail. split; [|done]. by apply (inj (fmap Wrote)) in He. Qed.

Lemma written_reset acc b ds code :
  written acc b ((Wrote <$> ds) ++ [SentReset code]) →
  ∃ rest, acc = (Data <$> ds) ++ Abort code :: rest.
Proof.
  inversion 1 as [ds' rest Hacc Heq|ds' Hacc Hdr Heq|ds' code' rest Hacc Heq|ds' d n rest Hacc Heq|Heq].
  - symmetry in Heq. by apply wrote_snoc in Heq as [_ ?].
  - symmetry in Heq. by apply wrote_snoc in Heq as [_ ?].
  - symmetry in Heq. apply wrote_snoc in Heq as [-> [= ->]]. eauto.
  - symmetry in Heq. by apply wrote_snoc in Heq as [_ ?].
  - by destruct ds.
Qed.

Record writing_ok (r : Run) : Prop := {
  writing_live : opening (carry (system r)) || writing (carry (system r)) = true →
    ∃ ds, sent (carry (system r)) = Wrote <$> ds ∧
      accepted r = (Data <$> ds) ++ queue (outgoing (stream (system r))) ∧
      aborts (carry (system r)) = [] ∧ stopped (carry (system r)) = None ∧
      receiver_alive (outgoing (stream (system r))) = true;
  writing_opening : opening (carry (system r)) = true → sent (carry (system r)) = [] ∧ writing (carry (system r)) = false;
  writing_done : opening (carry (system r)) || writing (carry (system r)) = false →
    written (accepted r) (negb (held (system r))) (sent (carry (system r))) ∧
    receiver_alive (outgoing (stream (system r))) = false;
  writing_aborts code : code ∈ aborts (carry (system r)) ++ option_list (stopped (carry (system r))) →
    ∃ ds, sent (carry (system r)) = (Wrote <$> ds) ++ [SentReset code];
}.

(** Steps of everything but the writer. *)
Lemma writing_ok_same r r' :
  writing_ok r →
  outgoing (stream (system r')) = outgoing (stream (system r)) →
  accepted r' = accepted r →
  (held (system r') = true → held (system r) = true) →
  opening (carry (system r')) = opening (carry (system r)) →
  writing (carry (system r')) = writing (carry (system r)) →
  sent (carry (system r')) = sent (carry (system r)) →
  aborts (carry (system r')) ++ option_list (stopped (carry (system r'))) ⊆
    aborts (carry (system r)) ++ option_list (stopped (carry (system r))) →
  writing_ok r'.
Proof.
  intros [Hl Ho Hd Ha] Eo Ea Hh Eop Ew Es Esub.
  split; rewrite ?Eo, ?Ea, ?Eop, ?Ew, ?Es; auto.
  - intros Hor. destruct (Hl Hor) as (ds & ? & ? & Hab & Hst & ?). exists ds.
    rewrite Hab, Hst in Esub. cbn in Esub.
    assert (aborts (carry (system r')) ++ option_list (stopped (carry (system r'))) = []) as [-> Hst']%app_nil
      by (by apply list_nil_subseteq).
    destruct (stopped (carry (system r'))); [done|]. by split_and!.
  - intros Hor. destruct (Hd Hor) as [Hwr ?]. split; [|done].
    destruct (held (system r')) eqn:Hh'; [by rewrite Hh in Hwr|].
    by eapply written_mono.
Qed.

Lemma writing_ok_call c r : writing_ok r → writing_ok (call c r).
Proof.
  intros Hok. pose proof Hok as [Hl Ho Hd Ha]. unfold call, enqueue, chan_send.
  destruct (held (system r)) eqn:Hh; [|done].
  destruct (opening (carry (system r)) || writing (carry (system r))) eqn:Hor.
  - destruct (Hl eq_refl) as (ds & Hs & Hacc & Hab & Hst & ->).
    split; cbn; rewrite ?Hor; try done.
    intros _. exists ds. rewrite Hacc. by rewrite app_assoc.
  - destruct (Hd eq_refl) as [Hw Hr]. rewrite Hr. cbn. rewrite app_nil_r.
    by apply (writing_ok_same _ _ Hok).
Qed.

Lemma writer_returns_ok outs ab o r ds :
  opening (carry (system r)) = false →
  sent (carry (system r)) = Wrote <$> ds → aborts (carry (system r)) = [] →
  stopped (carry (system r)) = None →
  written (accepted r) (negb (held (system r))) ((Wrote <$> ds) ++ outs) →
  ab = omap (λ x, match x with SentReset c => Some c | _ => None end) outs → (length outs ≤ 1)%nat →
  writing_ok (set_system (writer_returns outs ab o (system r)) r).
Proof.
  intros Ho Hs Ha Hst Hw Hab Hlen. split; cbn; rewrite ?Ho, ?Hs, ?Ha, ?Hst; try done.
  intros code. cbn. rewrite app_nil_r, Hab.
  destruct outs as [|[d|d| |c] [|? ?]]; cbn in *; try lia; try set_solver.
Qed.

Lemma writing_ok_writer failure r :
  writing_ok r → writing_ok (set_system (writer_step failure (system r)) r).
Proof.
  intros Hok. pose proof Hok as [Hl Ho Hd Ha]. unfold writer_step.
  destruct (writing (carry (system r))) eqn:Hw; [|by destruct r].
  assert (opening (carry (system r)) = false) as Hop.
  { destruct (opening (carry (system r))); [|done]. by destruct Ho. }
  rewrite Hop in Hl. destruct (Hl eq_refl) as (ds & Hs & Hacc & Hab & Hst & Hal).
  unfold chan_try_recv. destruct (queue (outgoing (stream (system r)))) as [|[d| |code] q] eqn:Hq.
  - destruct (held (system r)) eqn:Hh; [by destruct r|].
    apply (writer_returns_ok _ _ _ _ ds); auto. rewrite Hh, Hacc, app_nil_r. by apply written_dropped.
  - destruct failure as [n|].
    + apply (writer_returns_ok _ _ _ _ ds); auto. rewrite Hacc. by eapply written_failed.
    + split; cbn; rewrite ?Hop; try done.
      * intros _. exists (ds ++ [d]). rewrite Hs, !fmap_app, Hacc, <- app_assoc. by split_and!.
      * rewrite Hab, Hst. set_solver.
  - apply (writer_returns_ok _ _ _ _ ds); auto. rewrite Hacc. by eapply written_finish.
  - apply (writer_returns_ok _ _ _ _ ds); auto. rewrite Hacc. by eapply written_abort.
Qed.

Lemma writing_ok_step r l : writing_ok r → writing_ok (step r l).
Proof.
  intros Hok. pose proof Hok as [Hl Ho Hd Ha].
  destruct l as [d| |code| | |result|ok| |x];
    [by apply writing_ok_call..| | | |by apply writing_ok_writer| |]; cbn.
  - destruct (held (system r)) eqn:Hh; [|done]. unfold try_recv, chan_try_recv.
    destruct (queue (incoming (stream (system r)))); by apply (writing_ok_same _ _ Hok).
  - by apply (writing_ok_same _ _ Hok).
  - unfold opened. destruct (opening (carry (system r))) eqn:Hop; [|by apply (writing_ok_same _ _ Hok)].
    destruct (Hl eq_refl) as (ds & Hs & Hacc & Hab & Hst & Hal). destruct (Ho eq_refl) as [Hnil _].
    rewrite Hnil in Hs. symmetry in Hs. apply fmap_nil_inv in Hs as ->.
    destruct result as [err|]; split; cbn; try done;
      first [by intros _; exists []|by split; [apply written_unopened|]
            |by intros code ?%not_elem_of_nil].
  - unfold reader_abort_step.
    destruct (reading (carry (system r)) && abortable (carry (system r)));
      [destruct (aborts (carry (system r))) as [|code rest] eqn:Hab;
        [destruct (writing (carry (system r))) eqn:Hw|]|];
      apply (writing_ok_same _ _ Hok); cbn; rewrite ?Hab; try done;
      clear; intros x; rewrite !elem_of_app, !elem_of_cons, elem_of_nil; tauto.
  - unfold reader_chunk_step. destruct (reading (carry (system r))); [|by apply (writing_ok_same _ _ Hok)].
    destruct x as [d| |err]; [destruct (held (system r)) eqn:Hh| |];
      apply (writing_ok_same _ _ Hok); try done; unfold held; cbn; unfold chan_send;
      destruct (receiver_alive (incoming (stream (system r)))) eqn:E; cbn; rewrite ?E; done.
Qed.

Lemma writing_ok_run s ls : fresh s → writing_ok (run s ls).
Proof.
  intros Hs. apply (foldl_preserves step writing_ok); [|apply writing_ok_step].
  destruct Hs as [->|[[] ->]]; split; cbn; try done;
    first [by intros _; exists []|by split; [apply written_unopened|]
          |by intros code ?%not_elem_of_nil].
Qed.

(** ** Connections: the event queue *)

Inductive Event : Type :=
  | Opened (c : Conn)
  | StreamOpened (s : nat)
  | Datagram (d : bytes)
  | Closed (reason : string).

(** The three tasks of [pump], and the queue they share. *)
Record Pump : Type := mk_pump {
  events : Chan Event;
  accepting : bool;
  receiving : bool;
  watching : bool;
}.

(** [Events::try_recv]. *)
Definition next_event (p : Pump) : option Event * Pump :=
  let '(e, c) := chan_try_recv (events p) in
  (e, mk_pump c (accepting p) (receiving p) (watching p)).

(** [pump] on a running runtime. *)
Definition pump (queue : Chan Event) : Pump := mk_pump queue true true true.

Definition adopt_connection : Pump := pump unbounded_channel.

(** [dial]; [connected] is what [endpoint.connect] returns, [alive] whether the
    handle still exists by then. *)
Definition dial (detached alive : bool) (connected : Conn + string) : Pump :=
  let q := mk_chan [] alive in
  let no_pump c := mk_pump c false false false in
  if detached then
    match connected with
    | inl c => match chan_send q (Opened c) with
               | (q, true) => pump q
               | (q, false) => no_pump q
               end
    | inr err => no_pump (chan_send q (Closed err)).1
    end
  else no_pump (chan_send q (Closed "the network runtime is not running")).1.

(** One step of one task: what [accept_bi], [read_datagram] or [closed]
    returned. *)
Inductive PumpLabel : Type :=
  | AcceptBi (s : option nat)
  | ReadDatagram (d : option bytes)
  | ConnectionClosed (reason : string).

Definition pump_step (p : Pump) (l : PumpLabel) : Pump :=
  match l with
  | AcceptBi s =>
      if accepting p then
        match s with
        | Some s => let '(q, ok) := chan_send (events p) (StreamOpened s) in
                    mk_pump q ok (receiving p) (watching p)
        | None => mk_pump (events p) false (receiving p) (watching p)
        end
      else p
  | ReadDatagram d =>
      if receiving p then
        match d with
        | Some d => let '(q, ok) := chan_send (events p) (Datagram d) in
                    mk_pump q (accepting p) ok (watching p)
        | None => mk_pump (events p) (accepting p) false (watching p)
        end
      else p
  | ConnectionClosed reason =>
      if watching p then
        mk_pump (chan_send (events p) (Closed reason)).1 (accepting p) (receiving p) false
      else p
  end.

Definition streams_in (evs : list Event) : list nat :=
  omap (λ e, match e with StreamOpened s => Some s | _ => None end) evs.
Definition datagrams_in (evs : list Event) : list bytes :=
  omap (λ e, match e with Datagram d => Some d | _ => None end) evs.
Definition closings_in (evs : list Event) : list string :=
  omap (λ e, match e with Closed r => Some r | _ => None end) evs.

(** What each task is handed before its source runs dry. *)
Fixpoint until_none {A} (l : list (option A)) : list A :=
  match l with
  | Some x :: l => x :: until_none l
  | _ => []
  end.

Definition accepts (ls : list PumpLabel) : list (option nat) :=
  omap (λ l, match l with AcceptBi s => Some s | _ => None end) ls.
Definition reads (ls : list PumpLabel) : list (option bytes) :=
  omap (λ l, match l with ReadDatagram d => Some d | _ => None end) ls.
Definition closes (ls : list PumpLabel) : list string :=
  omap (λ l, match l with ConnectionClosed r => Some r | _ => None end) ls.

Lemma pump_spec p ls :
  receiver_alive (events p) = true →
  let p' := foldl pump_step p ls in
  let given {A} (f : list Event → list A) := f (queue (events p')) in
  given streams_in = streams_in (queue (events p)) ++ (if accepting p then until_none (accepts ls) else []) ∧
  given datagrams_in = datagrams_in (queue (events p)) ++ (if receiving p then until_none (reads ls) else []) ∧
  given closings_in = closings_in (queue (events p)) ++ (if watching p then option_list (head (closes ls)) else []).
Proof.
  revert p. induction ls as [|l ls IH]; intros [[q alive] ac re wa] Ha; cbn in Ha; subst alive; cbv zeta.
  { cbn. destruct ac, re, wa; by rewrite !app_nil_r. }
  cbn [foldl].
  assert (∀ p2, pump_step (mk_pump (mk_chan q true) ac re wa) l = p2 → receiver_alive (events p2) = true) as Hal
    by (intros p2 <-; destruct l as [[s|]|[d|]|r], ac, re, wa; done).
  specialize (IH (pump_step (mk_pump (mk_chan q true) ac re wa) l) (Hal _ eq_refl)). cbv zeta in IH.
  destruct IH as (-> & -> & ->).
  unfold streams_in, datagrams_in, closings_in.
  destruct l as [[s|]|[d|]|r], ac, re, wa; cbn; rewrite ?omap_app, <- ?app_assoc; cbn;
    rewrite ?app_nil_r; by split_and!.
Qed.

(** ** Properties *)

(** C30: reading a stream. Whatever the interleaving of the two tasks, the calls
    of the handle and the failures of the network, the handle is given exactly
    what the network gave, in order and once: some chunks, then at most one
    report of the end, with its reason, and nothing after it. *)
Theorem reports_follow_the_network s ls :
  fresh s → let r := run s ls in
  held (system r) = true →
  ∃ chunks last,
    network r = (ReadChunk <$> chunks) ++ option_list last ∧
    taken r ++ queue (incoming (stream (system r))) =
      (Received <$> chunks) ++ (to_incoming <$> option_list last).
Proof.
  intros Hs r Hh. subst r. destruct (reading_ok_run s ls Hs) as [Hr _ (chunks & last & Hn) _].
  exists chunks, last. split; [done|]. rewrite Hr, Hn by done.
  rewrite fmap_app, <- list_fmap_compose. done.
Qed.

Lemma reports_follow_the_network_witness :
  ∃ chunks last,
    [ReadChunk [x61]; ReadEnd] = (ReadChunk <$> chunks) ++ option_list last ∧
    [Received [x61]] ++ [Ended None] = (Received <$> chunks) ++ (to_incoming <$> option_list last).
Proof.
  refine (reports_follow_the_network (open true)
    [CallWrite [x62]; OpenReturns None; ReaderReads (ReadChunk [x61]); CallTryRecv; WriterRuns None;
     ReaderReads ReadEnd; ReaderReads (ReadChunk [x63])] _ _); [right; by exists true|reflexivity].
Defined.

(** C24: writing a stream. The chunks the handle accepted go out in the order they
    were accepted, each whole, and nothing follows a finish or a reset; when a
    write fails, of its chunk only some first bytes may have gone out, and nothing
    follows those, not even a finish. The two
    halves of the stream meet in one place only: the reader is stopped with a
    code exactly because the writer reached an abort with that code. So an abort
    waits for every byte queued before it, and an abort queued behind a finish
    is never carried out, in either direction. *)
Theorem writes_go_out_in_order s ls :
  fresh s → let r := run s ls in
  let c := carry (system r) in
  (opening c || writing c = true → ∃ ds,
     sent c = Wrote <$> ds ∧ accepted r = (Data <$> ds) ++ queue (outgoing (stream (system r)))) ∧
  (opening c || writing c = false → written (accepted r) (negb (held (system r))) (sent c)) ∧
  (∀ code, stopped c = Some code → ∃ ds rest,
     sent c = (Wrote <$> ds) ++ [SentReset code] ∧
     accepted r = (Data <$> ds) ++ Abort code :: rest).
Proof.
  intros Hs r. subst r. destruct (writing_ok_run s ls Hs) as [Hl Ho Hd Ha].
  set (r := run s ls) in *. split_and!.
  - intros (ds & ? & ? & _)%Hl. eauto.
  - intros [? _]%Hd. done.
  - intros code Hc. destruct (Ha code) as (ds & Hsent); [rewrite Hc; cbn; apply elem_of_app; right; left|].
    destruct (opening (carry (system r)) || writing (carry (system r))) eqn:Hor.
    + destruct (Hl eq_refl) as (_ & _ & _ & _ & Hst & _). congruence.
    + destruct (Hd eq_refl) as [Hw _]. rewrite Hsent in Hw.
      apply written_reset in Hw as [rest Hacc]. eauto.
Qed.

(** An abort behind a chunk, and a chunk whose write fails after one byte. *)
Lemma writes_go_out_in_order_witness :
  let r := run adopt [CallWrite [x61]; CallAbort 7; WriterRuns None; WriterRuns None; ReaderSeesAbort] in
  (∃ ds rest, sent (carry (system r)) = (Wrote <$> ds) ++ [SentReset 7] ∧
     accepted r = (Data <$> ds) ++ Abort 7 :: rest) ∧
  written [Data [x61; x62]; Finish] false [WrotePart [x61]].
Proof.
  intros r. split.
  - refine (proj2 (proj2 (writes_go_out_in_order adopt
      [CallWrite [x61]; CallAbort 7; WriterRuns None; WriterRuns None; ReaderSeesAbort] _)) 7 _);
      [by left|reflexivity].
  - refine (proj1 (proj2 (writes_go_out_in_order adopt
      [CallWrite [x61; x62]; CallFinish; WriterRuns (Some 1%nat); WriterRuns None] _)) _);
      [by left|reflexivity].
Defined.

(** C38: what a connection reports. However the three tasks behind a connection
    interleave, the main thread gets every stream the remote opened and every
    datagram, each kind in order and none twice, and one report of the close.
    The three are only ordered within themselves: a datagram read just before
    the close may be queued after it. *)
Theorem connection_events_complete ls reason d :
  let evs := queue (events (foldl pump_step adopt_connection ls)) in
  streams_in evs = until_none (accepts ls) ∧
  datagrams_in evs = until_none (reads ls) ∧
  closings_in evs = option_list (head (closes ls)) ∧
  queue (events (foldl pump_step adopt_connection [ConnectionClosed reason; ReadDatagram (Some d)]))
    = [Closed reason; Datagram d].
Proof.
  intros evs. destruct (pump_spec adopt_connection ls eq_refl) as (H1 & H2 & H3).
  cbn in H1, H2, H3. by split_and!.
Qed.
