(* ===== verification/Stats.v ===== *)
(** * Readouts ([stats.rs], [error.rs], [log.rs], [puppy.rs])

    What a game can read about the network, as the dictionaries it is handed,
    and the lines the crate prints. iroh's counters are given to the definitions
    as data; a float is a value of an abstract type [F] with the operations the
    source applies to it. *)

From S2P Require Import Prelude.
From S2P Require Raw.

(** ** Dictionaries

    A Godot [Dictionary] keeps the order in which its keys were first set. *)

Inductive Variant (F : Type) : Type :=
  | VNil
  | VBool (b : bool)
  | VInt (z : Z)
  | VFloat (f : F)
  | VString (s : string)
  | VDictionary (d : list (string * Variant F)).
Arguments VNil {F}. Arguments VBool {F}. Arguments VInt {F}. Arguments VFloat {F}.
Arguments VString {F}. Arguments VDictionary {F}.

Definition VarDictionary (F : Type) : Type := list (string * Variant F).

(** [Dictionary::get] and [Dictionary::set]. *)
Fixpoint get {V : Type} (k : string) (d : list (string * V)) : option V :=
  match d with
  | [] => None
  | (k', v) :: d => if decide (k' = k) then Some v else get k d
  end.

Fixpoint set {V : Type} (k : string) (v : V) (d : list (string * V)) : list (string * V) :=
  match d with
  | [] => [(k, v)]
  | (k', v') :: d => if decide (k' = k) then (k, v) :: d else (k', v') :: set k v d
  end.

Lemma get_set {V} k v (d : list (string * V)) j :
  get j (set k v d) = if decide (k = j) then Some v else get j d.
Proof.
  induction d as [|[k' v'] d IH]; cbn [set get]; [done|].
  destruct (decide (k' = k)) as [->|Hk]; cbn [get]; [by case_decide|].
  rewrite IH. by repeat case_decide; simplify_eq.
Qed.

Lemma set_keys {V} k v (d : list (string * V)) :
  (set k v d).*1 = if decide (k ∈ d.*1) then d.*1 else d.*1 ++ [k].
Proof.
  induction d as [|[k' v'] d IH]; cbn; [done|].
  destruct (decide (k' = k)) as [->|Hk]; cbn; [by rewrite decide_True by left|].
  rewrite IH. repeat case_decide; set_solver.
Qed.

Section stats.
Context {F : Type}.
Abbreviation variant := (Variant F).
Abbreviation dictionary := (VarDictionary F).

(** ** Metrics

    [MetricValue] is non-exhaustive: [OtherMetric] is any kind the crate does
    not know. *)

Inductive MetricValue : Type :=
  | Counter (count : Z)
  | Gauge (level : Z)
  | Histogram (sum : F) (count : Z)
  | OtherMetric.

Record Item : Type := mk_item {
  item_name : string;
  item_value : MetricValue;
  item_help : string;
}.

Definition metric_variant (v : MetricValue) : variant :=
  match v with
  | Counter count => VInt (u64_as_i64 count)
  | Gauge level => VInt level
  | Histogram sum count =>
      VDictionary (set "count" (VInt (u64_as_i64 count)) (set "sum" (VFloat sum) []))
  | OtherMetric => VNil
  end.

(** [out.get(group).and_then(|existing| existing.try_to().ok()).unwrap_or_default()]. *)
Definition counters_of (group : string) (out : dictionary) : dictionary :=
  match get group out with
  | Some (VDictionary d) => d
  | _ => []
  end.

Definition help_key (name : string) : string := name +:+ "__help".

(** One round of the loop. *)
Definition add_metric (out : dictionary) (m : string * Item) : dictionary :=
  let '(group, item) := m in
  let counters := counters_of group out in
  let counters := set (item_name item) (metric_variant (item_value item)) counters in
  let counters := set (help_key (item_name item)) (VString (item_help item)) counters in
  set group (VDictionary counters) out.

Definition metrics (items : list (string * Item)) : dictionary := foldl add_metric [] items.

(** ** Connections *)

Record UdpStats : Type := mk_udp_stats {
  datagrams : Z;
  bytes_ : Z;
}.

Record ConnectionStats : Type := mk_connection_stats {
  udp_tx : UdpStats;
  udp_rx : UdpStats;
  lost_packets : Z;
  lost_bytes : Z;
}.

Context {Dur : Type}.
(** [as_secs_f64() * 1000.0], and [-1.0]. *)
Variable as_millis : Dur → F.
Variable minus_one : F.

(** Also [get_peer_latency_ms] and [get_latency_ms]. *)
Definition latency_ms (path : option (Raw.PathInfo Dur)) : F :=
  match path with
  | Some path => as_millis (Raw.rtt path)
  | None => minus_one
  end.

Definition connection (stats : ConnectionStats) (path : option (Raw.PathInfo Dur)) : dictionary :=
  [] |> set "sent_datagrams" (VInt (u64_as_i64 (datagrams (udp_tx stats))))
     |> set "sent_bytes" (VInt (u64_as_i64 (bytes_ (udp_tx stats))))
     |> set "received_datagrams" (VInt (u64_as_i64 (datagrams (udp_rx stats))))
     |> set "received_bytes" (VInt (u64_as_i64 (bytes_ (udp_rx stats))))
     |> set "lost_packets" (VInt (u64_as_i64 (lost_packets stats)))
     |> set "lost_bytes" (VInt (u64_as_i64 (lost_bytes stats)))
     |> set "rtt_ms" (VFloat (latency_ms path))
     |> set "relayed" (VBool (from_option Raw.relay false path)).

(** ** What a metrics dictionary says *)

(** The writes the items amount to, in order. *)
Definition writes (items : list (string * Item)) : list (string * string * variant) :=
  items ≫= λ m, [(m.1, item_name m.2, metric_variant (item_value m.2));
                 (m.1, help_key (item_name m.2), VString (item_help m.2))].

(** The last write to a key of a group. *)
Definition last_write (g k : string) (ws : list (string * string * variant)) : option variant :=
  last (omap (λ w, if decide (w.1 = (g, k)) then Some w.2 else None) ws).

Definition lookup_metric (g k : string) (out : dictionary) : option variant :=
  get k (counters_of g out).

Lemma last_write_snoc g k ws w :
  last_write g k (ws ++ [w]) = if decide (w.1 = (g, k)) then Some w.2 else last_write g k ws.
Proof.
  unfold last_write. rewrite omap_app. cbn.
  case_decide; [by rewrite last_snoc|]. by rewrite app_nil_r.
Qed.

Lemma writes_snoc items m :
  writes (items ++ [m]) = (writes items
    ++ [(m.1, item_name m.2, metric_variant (item_value m.2))])
    ++ [(m.1, help_key (item_name m.2), VString (item_help m.2))].
Proof. unfold writes. rewrite bind_app, <- app_assoc. done. Qed.

Lemma lookup_metric_add g k out m :
  lookup_metric g k (add_metric out m) =
    if decide ((m.1, help_key (item_name m.2)) = (g, k)) then Some (VString (item_help m.2))
    else if decide ((m.1, item_name m.2) = (g, k)) then Some (metric_variant (item_value m.2))
    else lookup_metric g k out.
Proof.
  destruct m as [g' item]. unfold lookup_metric, add_metric, counters_of at 1. cbn [fst snd].
  rewrite get_set. case_decide as Hg; [subst g'|].
  - rewrite !get_set. repeat case_decide; congruence.
  - rewrite !decide_False by congruence. done.
Qed.

Lemma lookup_metrics g k items :
  lookup_metric g k (metrics items) = last_write g k (writes items).
Proof.
  induction items as [|m items IH] using rev_ind; [done|].
  unfold metrics in *. rewrite foldl_app. cbn [foldl].
  rewrite lookup_metric_add, writes_snoc, !last_write_snoc, IH. done.
Qed.

(** Every group is a dictionary, in the order in which groups first appear. *)
Lemma metrics_groups items :
  Forall (λ e, ∃ d, e.2 = VDictionary d) (metrics items) ∧
  ∀ g, g ∈ (metrics items).*1 ↔ g ∈ items.*1.
Proof.
  induction items as [|[g' item] items [Hd Hk]] using rev_ind; [by split|].
  unfold metrics in *. rewrite foldl_app. cbn [foldl]. set (out := foldl _ _ _) in *.
  unfold add_metric. set (c := VDictionary _). split.
  - assert (∃ d, c = VDictionary d) as Hc by (by eexists). clearbody c out. clear Hk.
    induction Hd as [|[k v] d Hv Hd IH]; cbn; [by constructor|].
    case_decide; by constructor.
  - intros g. rewrite set_keys, fmap_app. cbn. rewrite elem_of_app, list_elem_of_singleton, <- Hk.
    case_decide; [|by rewrite elem_of_app, list_elem_of_singleton].
    split; [by left|]. by intros [?| ->].
Qed.

Lemma metrics_NoDup items : NoDup (metrics items).*1.
Proof.
  induction items as [|[g item] items IH] using rev_ind; [constructor|].
  unfold metrics in *. rewrite foldl_app. cbn [foldl]. unfold add_metric. rewrite set_keys.
  case_decide; [done|]. apply NoDup_app. split_and!; [done|set_solver|].
  by apply NoDup_singleton.
Qed.
End stats.

Arguments MetricValue : clear implicits.
Arguments Item : clear implicits.

(** ** The console

    [up] is [godot::sys::is_initialized()]. *)

Definition BARK_INFO : string := "awoo~".
Definition BARK_WARN : string := "grrr?".
Definition BARK_ERROR : string := "arf! arf!".

Inductive Level : Type := Info | Warn | Error.

Record Console : Type := mk_console {
  up : bool;
  printed : list (Level * string);
}.

Definition engine_is_up (c : Console) : bool := up c.

Definition bark (l : Level) : string :=
  match l with Info => BARK_INFO | Warn => BARK_WARN | Error => BARK_ERROR end.

(** [godot_print!], [godot_warn!] and [godot_error!]. *)
Definition print (l : Level) (line : string) (c : Console) : Console :=
  mk_console (up c) (printed c ++ [(l, line)]).

(** [log::info!], [log::warning!] and [log::error!]. *)
Definition log (l : Level) (text : string) (c : Console) : Console :=
  if engine_is_up c then print l (bark l +:+ " " +:+ text) c else c.

(** [Report::report]. *)
Definition report {T E : Type} `{Display E} (context : string) (r : T + E) (c : Console)
  : option T * Console :=
  match r with
  | inl value => (Some value, c)
  | inr err => (None, log Error (context +:+ ": " +:+ to_string err) c)
  end.

(** [IrohPuppy]: [happy] is all its state. *)
Definition init_puppy (c : Console) : bool * Console := (true, print Info "awwooo~" c).

(** ** Properties *)

(** A metrics readout says what iroh reported. The value under a group and
    a name is the last one written there, counters converted as [as i64] does
    and each counter's description beside it; no group is listed twice, and the
    groups are exactly those that reported. With distinct names that avoid the
    [__help] suffix, every item therefore reads back with its own value and
    description. *)
Lemma metrics_read_back {F : Type} (items : list (string * Item F)) :
  (∀ g k, lookup_metric g k (metrics items) = last_write g k (writes items)) ∧
  NoDup (metrics items).*1 ∧
  (∀ g, g ∈ (metrics items).*1 ↔ g ∈ items.*1) ∧
  (NoDup ((λ m, (m.1, item_name m.2)) <$> items) →
   (∀ m m', m ∈ items → m' ∈ items → item_name m.2 ≠ help_key (item_name m'.2)) →
   ∀ g item, (g, item) ∈ items →
     lookup_metric g (item_name item) (metrics items) = Some (metric_variant (item_value item))).
Proof.
  split_and!; [intros; apply lookup_metrics|apply metrics_NoDup|intros; apply metrics_groups|].
  intros Hnd Hhelp. induction items as [|m items IH] using rev_ind; [set_solver|].
  intros g item Hin. rewrite fmap_app in Hnd. apply NoDup_app in Hnd as (Hnd & Hfresh & _).
  unfold metrics. rewrite foldl_app. cbn [foldl]. fold (metrics items). rewrite lookup_metric_add.
  rewrite decide_False.
  2:{ intros [= _ Heq]. apply (Hhelp (g, item) m); [done|set_solver|done]. }
  apply elem_of_app in Hin as [Hin|Hin%list_elem_of_singleton].
  - rewrite decide_False.
    + apply IH; [done| |done]. intros m1 m2 ??. apply Hhelp; set_solver.
    + intros Heq. apply (Hfresh (g, item_name item)); [|cbn; rewrite Heq; set_solver].
      apply list_elem_of_fmap. by exists (g, item).
  - subst m. by rewrite decide_True.
Qed.
