(* ===== verification/Handle.v ===== *)
(** * The session handle ([Session] in [session.rs])

    The main thread's side of a session: the two channels, the refusal flag and
    the shared connection map. [start] claims the ALPN through the dispatcher's
    interface, so everything here holds of any [AlpnRegistry]. *)

From S2P Require Import Prelude Wire.
From S2P Require Import Session.
From S2P Require Dispatch Raw.
Import Dispatch (AlpnRegistry, held, registered_alpn, register, release, refusals_of, store_refusal).

Record Handle : Type := mk_handle {
  events : Chan Event;
  commands : Chan Command;
  (** the flag of the registration; a session without one has a flag of its
      own that nobody reads *)
  refuse : option nat;
  shared_connections : gmap Z Conn;
}.

(** A handle as [start] returns it. *)
Definition fresh_handle (evs : list Event) (refuse : option nat) : Handle :=
  mk_handle (mk_chan evs true) unbounded_channel refuse ∅.

Section start.
Context `{AlpnRegistry R Reg} {Addr : Type}.

(** The arguments [start] gives to [run], when the task was spawned. *)
Record Spawned : Type := mk_spawned {
  host_addr : option Addr;
  registration : option Reg;
}.

(** [Session::start]; [detached] is what [detach] returned. A future that could
    not be spawned is dropped, and its registration with it. *)
Definition start (host : option Addr) (detached : bool) (r : R) : R * Handle * option Spawned :=
  let spawn r reg :=
    let refuse := refusals_of <$> reg in
    if detached then (r, fresh_handle [] refuse, Some (mk_spawned host reg))
    else
      (match reg with Some g => release g r | None => r end,
       fresh_handle [Closed "the network runtime is not running"] refuse, None) in
  match host with
  | Some _ => spawn r None
  | None =>
      match register ALPN r with
      | (r, Some g) => spawn r (Some g)
      | (r, None) => (r, fresh_handle [Closed "this endpoint is already hosting"] None, None)
      end
  end.

Definition host (detached : bool) (r : R) : R * Handle * option Spawned := start None detached r.

Definition join (addr : Addr) (detached : bool) (r : R) : R * Handle * option Spawned :=
  start (Some addr) detached r.

Definition set_refuse_new_connections (b : bool) (h : Handle) (r : R) : R :=
  match refuse h with
  | Some flag => store_refusal flag b r
  | None => r
  end.
End start.

Definition try_recv (h : Handle) : option Event * Handle :=
  let '(e, c) := chan_try_recv (events h) in
  (e, mk_handle c (commands h) (refuse h) (shared_connections h)).

Definition command (c : Command) (h : Handle) : Handle :=
  mk_handle (events h) (chan_send (commands h) c).1 (refuse h) (shared_connections h).

Definition send (target channel : Z) (mode : Mode) (data : bytes) (h : Handle) : Handle :=
  command (Send target channel mode data) h.

Definition disconnect (peer : Z) (h : Handle) : Handle := command (Disconnect peer) h.

Definition close (h : Handle) : Handle := command Close h.

Section diagnostics.
(** What iroh says about a connection. *)
Context {Id Dur : Type}.
Variable remote_id : Conn → Id.
Variable paths : Conn → list (Raw.Path Dur).

Definition peer_endpoint_id (peer : Z) (h : Handle) : option Id :=
  remote_id <$> shared_connections h !! peer.

Definition peer_connection (peer : Z) (h : Handle) : option Conn :=
  shared_connections h !! peer.

Definition peer_path (peer : Z) (h : Handle) : option (Raw.PathInfo Dur) :=
  c ← shared_connections h !! peer; Raw.path_info (paths c).
End diagnostics.

(** ** Properties *)

(** C40: one session hosts per endpoint, and ending it frees the endpoint. While
    a hosting session holds its registration, hosting again starts no task,
    changes nothing in the registry and closes with a reason; once the session
    task has dropped the registration, which it does before its last event,
    hosting succeeds again. A session that could not be spawned keeps no claim. *)
Theorem one_session_hosts_per_endpoint `{AlpnRegistry R Reg} (Addr : Type) (r r1 : R) h1 sp g :
  start (Addr := Addr) None true r = (r1, h1, Some sp) → registration sp = Some g →
  start (Addr := Addr) None true r1 =
    (r1, fresh_handle [Closed "this endpoint is already hosting"] None, None) ∧
  (∃ r2 h2 sp2, start (Addr := Addr) None true (release g r1) = (r2, h2, Some sp2)) ∧
  held (release g r1) = held r ∧
  held (start (Addr := Addr) None false r).1.1 = held r.
Proof.
  intros Hs Hg. unfold start in *.
  destruct (register ALPN r) as [r' [g'|]] eqn:Hr; [|done].
  apply Dispatch.register_some in Hr as (Hno & Ha & Hheld).
  injection Hs as <- <- <-. cbn in Hg. injection Hg as ->.
  assert (held (release g r') = held r) as Hback.
  { rewrite Dispatch.release_held, Ha, Hheld. set_solver. }
  split_and!.
  - rewrite Dispatch.register_held by (rewrite Hheld; set_solver). done.
  - destruct (Dispatch.register_again g r') as (r2 & g2 & Hr2). rewrite Ha in Hr2.
    rewrite Hr2. eauto.
  - done.
  - done.
Qed.

Lemma one_session_hosts_per_endpoint_witness :
  let r1 := (Dispatch.register_alpn ALPN Dispatch.start).1 in
  let g := Dispatch.mk_registration ALPN 0 0 in
  start (Addr := nat) None true r1 =
    (r1, fresh_handle [Closed "this endpoint is already hosting"] None, None) ∧
  (∃ r2 h2 sp2, start (Addr := nat) None true (release g r1) = (r2, h2, Some sp2)) ∧
  held (release g r1) = held Dispatch.start ∧
  held (start (Addr := nat) None false Dispatch.start).1.1 = held Dispatch.start.
Proof.
  intros r1 g.
  refine (one_session_hosts_per_endpoint nat Dispatch.start r1 (fresh_handle [] (Some 0%nat))
    (mk_spawned None (Some g)) g _ _); reflexivity.
Defined.
