(* ===== verification/Peer.v ===== *)
(** * The multiplayer peer ([peer.rs])

    [IrohPeer] as Godot's [MultiplayerAPI] drives it. A [World] is the peer, the
    dispatchers of the bound endpoints, and the tasks that were started. Signals
    are emitted inline, while [poll] is still working through its events, and a
    connected callable may call back into the peer: [react] is whatever is
    connected, and every operation that emits takes it as an argument. *)

From S2P Require Import Prelude Wire.
From S2P Require Session Raw Stats Handle.
From S2P Require Import Dispatch.

Abbreviation Conn := Dispatch.Conn.

Definition MAX_PACKET_SIZE : Z := 8 * 1024 * 1024.

(** ** Godot's enumerations *)

(** [TransferMode] is an integer that a script may set to anything. *)
Definition TransferMode : Type := Z.
Definition UNRELIABLE : TransferMode := 0.
Definition UNRELIABLE_ORDERED : TransferMode := 1.
Definition RELIABLE : TransferMode := 2.

Inductive ConnectionStatus : Type := DISCONNECTED | CONNECTING | CONNECTED.

#[export] Instance connection_status_eq_dec : EqDecision ConnectionStatus.
Proof. solve_decision. Defined.

Inductive Error : Type := OK | ERR_UNAVAILABLE | ERR_UNCONFIGURED | ERR_INVALID_PARAMETER.

Definition to_session_mode (mode : TransferMode) : Mode :=
  if decide (mode = UNRELIABLE) then Unreliable
  else if decide (mode = UNRELIABLE_ORDERED) then UnreliableOrdered
  else Reliable.

Definition from_session_mode (mode : Mode) : TransferMode :=
  match mode with
  | Unreliable => UNRELIABLE
  | UnreliableOrdered => UNRELIABLE_ORDERED
  | Reliable => RELIABLE
  end.

(** ** State *)

Record Packet : Type := mk_packet {
  peer : Z;
  channel : Z;
  mode : TransferMode;
  data : bytes;
}.

Inductive Signal : Type :=
  | peer_connected (id : Z)
  | peer_disconnected (id : Z)
  | warning (text : string).

Section peer.
(** An endpoint object, what iroh says about a connection, and the addresses
    one can dial. *)
Context {E : Type} `{Countable E} `{AlpnRegistry R Reg} {Addr Id : Type} `{EqDecision Id}.
Variable addr_id : Addr → Id.
(** [dispatcher.endpoint().id()]. *)
Variable own_id : R → Id.

Record IrohPeer : Type := mk_peer {
  session : option Handle.Handle;
  endpoint : option E;
  unique_id : Z;
  target_peer : Z;
  transfer_channel : Z;
  transfer_mode : TransferMode;
  refuse_new_connections : bool;
  status : ConnectionStatus;
  incoming : list Packet;
  current : option Packet;
}.

Definition init : IrohPeer :=
  mk_peer None None 0 0 0 RELIABLE false DISCONNECTED [] None.

Record World : Type := mk_world {
  this : IrohPeer;
  (** the dispatchers of the endpoints that are bound *)
  dispatchers : gmap E R;
  tasks : list (Handle.Spawned (Reg := Reg) (Addr := Addr));
  (** every signal, with the packets that were queued when it was emitted *)
  signals : list (Signal * list Packet);
}.

Definition with_this (p : IrohPeer) (w : World) : World :=
  mk_world p (dispatchers w) (tasks w) (signals w).

Definition set_session (s : option Handle.Handle) (p : IrohPeer) : IrohPeer :=
  mk_peer s (endpoint p) (unique_id p) (target_peer p) (transfer_channel p) (transfer_mode p)
    (refuse_new_connections p) (status p) (incoming p) (current p).
Definition set_endpoint (e : option E) (p : IrohPeer) : IrohPeer :=
  mk_peer (session p) e (unique_id p) (target_peer p) (transfer_channel p) (transfer_mode p)
    (refuse_new_connections p) (status p) (incoming p) (current p).
Definition set_unique_id (id : Z) (p : IrohPeer) : IrohPeer :=
  mk_peer (session p) (endpoint p) id (target_peer p) (transfer_channel p) (transfer_mode p)
    (refuse_new_connections p) (status p) (incoming p) (current p).
Definition set_status (s : ConnectionStatus) (p : IrohPeer) : IrohPeer :=
  mk_peer (session p) (endpoint p) (unique_id p) (target_peer p) (transfer_channel p)
    (transfer_mode p) (refuse_new_connections p) s (incoming p) (current p).
Definition set_queues (i : list Packet) (c : option Packet) (p : IrohPeer) : IrohPeer :=
  mk_peer (session p) (endpoint p) (unique_id p) (target_peer p) (transfer_channel p)
    (transfer_mode p) (refuse_new_connections p) (status p) i c.

(** ** Starting a session

    The boolean is what the method returns; [detached] is whether the runtime
    took the task. *)

Definition set_dispatcher (e : E) (r : R) (w : World) : World :=
  mk_world (this w) (<[e := r]> (dispatchers w)) (tasks w) (signals w).

Definition spawned (s : option Handle.Spawned) (w : World) : World :=
  mk_world (this w) (dispatchers w) (tasks w ++ option_list s) (signals w).

Definition host (detached : bool) (e : E) (w : World) : World * bool :=
  match dispatchers w !! e with
  | None => (w, false)
  | Some r =>
      let '(r, s, task) := Handle.host detached r in
      let r := Handle.set_refuse_new_connections (refuse_new_connections (this w)) s r in
      (w |> set_dispatcher e r |> spawned task
         |> with_this (this w |> set_session (Some s) |> set_endpoint (Some e)
                              |> set_unique_id HOST_ID |> set_status CONNECTING), true)
  end.

Definition start_join (detached : bool) (e : E) (addr : Addr) (w : World) : World * bool :=
  match dispatchers w !! e with
  | None => (w, false)
  | Some r =>
      if decide (addr_id addr = own_id r) then (w, false)
      else
        let '(r, s, task) := Handle.join addr detached r in
        (w |> set_dispatcher e r |> spawned task
           |> with_this (this w |> set_session (Some s) |> set_endpoint (Some e)
                                |> set_status CONNECTING), true)
  end.

(** A bare id; [parse_id] is iroh's parser. *)
Definition join (parse_id : string → option Addr) (detached : bool) (e : E) (endpoint_id : string)
    (w : World) : World * bool :=
  match parse_id endpoint_id with
  | None => (w, false)
  | Some host => start_join detached e host w
  end.

(** A ticket, which carries addresses as well. *)
Definition join_ticket (decode_ticket : string → option Addr) (detached : bool) (e : E) (ticket : string)
    (w : World) : World * bool :=
  match decode_ticket ticket with
  | None => (w, false)
  | Some parsed => start_join detached e parsed w
  end.

(** ** Diagnostics *)

Definition PATH_UNKNOWN : Z := 0.
Definition PATH_RELAY : Z := 1.
Definition PATH_DIRECT : Z := 2.

Section diagnostics.
Context {Dur F : Type}.
(** What iroh says about a connection, and floats. *)
Variable paths : Conn → list (Raw.Path Dur).
Variable remote_id : Conn → string.
Variable stats : Conn → Stats.ConnectionStats.
Variable as_millis : Dur → F.
Variable minus_one : F.

Definition get_peer_path_type (peer : Z) (p : IrohPeer) : Z :=
  match session p ≫= Handle.peer_path paths peer with
  | Some path => if Raw.relay path then PATH_RELAY else PATH_DIRECT
  | None => PATH_UNKNOWN
  end.

Definition get_peer_endpoint_id (peer : Z) (p : IrohPeer) : string :=
  default "" (session p ≫= Handle.peer_endpoint_id remote_id peer).

Definition get_peer_latency_ms (peer : Z) (p : IrohPeer) : F :=
  Stats.latency_ms as_millis minus_one (session p ≫= Handle.peer_path paths peer).

Definition get_peer_stats (peer : Z) (p : IrohPeer) : Stats.VarDictionary F :=
  match session p ≫= Handle.peer_connection peer with
  | Some c => Stats.connection as_millis minus_one (stats c) (Raw.path_info (paths c))
  | None => []
  end.
End diagnostics.

(** ** Packets *)

Definition get_available_packet_count (p : IrohPeer) : Z := to_i32 (len (incoming p)).
Definition get_max_packet_size (p : IrohPeer) : Z := MAX_PACKET_SIZE.

Definition get_packet_channel (p : IrohPeer) : Z := from_option channel 0 (head (incoming p)).
Definition get_packet_mode (p : IrohPeer) : TransferMode :=
  from_option mode RELIABLE (head (incoming p)).
Definition get_packet_peer (p : IrohPeer) : Z := from_option peer 0 (head (incoming p)).

(** The buffer handed to Godot is the bytes of [current]. *)
Definition get_packet_rawptr (p : IrohPeer) : IrohPeer * (Error * option (bytes * Z)) :=
  match incoming p with
  | [] => (p, (ERR_UNAVAILABLE, None))
  | packet :: rest =>
      (set_queues rest (Some packet) p, (OK, Some (data packet, to_i32 (len (data packet)))))
  end.

Definition get_packet_script (p : IrohPeer) : IrohPeer * bytes :=
  match incoming p with
  | packet :: rest => (set_queues rest (Some packet) p, data packet)
  | [] => (p, [])
  end.

Definition send (data : bytes) (p : IrohPeer) : IrohPeer * Error :=
  if decide (status p = CONNECTED) then
    match session p with
    | None => (p, ERR_UNCONFIGURED)
    | Some s =>
        (set_session (Some (Handle.send (target_peer p) (transfer_channel p)
                              (to_session_mode (transfer_mode p)) data s)) p, OK)
    end
  else (p, ERR_UNCONFIGURED).

(** [buffer] is the memory behind the pointer. *)
Definition put_packet_rawptr (buffer : bytes) (size : Z) (p : IrohPeer) : IrohPeer * Error :=
  if decide (size < 0) then (p, ERR_INVALID_PARAMETER)
  else send (if decide (size = 0) then [] else take (Z.to_nat size) buffer) p.

Definition put_packet_script (buffer : bytes) (p : IrohPeer) : IrohPeer * Error := send buffer p.

(** ** Settings *)

Definition set_transfer_channel (c : Z) (p : IrohPeer) : IrohPeer :=
  mk_peer (session p) (endpoint p) (unique_id p) (target_peer p) c (transfer_mode p)
    (refuse_new_connections p) (status p) (incoming p) (current p).

Definition set_transfer_mode (m : TransferMode) (p : IrohPeer) : IrohPeer :=
  mk_peer (session p) (endpoint p) (unique_id p) (target_peer p) (transfer_channel p) m
    (refuse_new_connections p) (status p) (incoming p) (current p).

Definition set_target_peer (t : Z) (p : IrohPeer) : IrohPeer :=
  mk_peer (session p) (endpoint p) (unique_id p) t (transfer_channel p) (transfer_mode p)
    (refuse_new_connections p) (status p) (incoming p) (current p).

Definition is_server (p : IrohPeer) : bool := bool_decide (unique_id p = HOST_ID).

(** The flag lives in the registry of the endpoint the session holds. *)
Definition set_refuse_new_connections (b : bool) (w : World) : World :=
  let p := this w in
  let w := with_this (mk_peer (session p) (endpoint p) (unique_id p) (target_peer p)
                        (transfer_channel p) (transfer_mode p) b (status p) (incoming p)
                        (current p)) w in
  match session p, endpoint p with
  | Some s, Some e =>
      match dispatchers w !! e with
      | Some r => set_dispatcher e (Handle.set_refuse_new_connections b s r) w
      | None => w
      end
  | _, _ => w
  end.

(** ** Events *)

Section events.
Variable react : Signal → World → World.

Definition emit (s : Signal) (w : World) : World :=
  react s (mk_world (this w) (dispatchers w) (tasks w)
             (signals w ++ [(s, incoming (this w))])).

Definition on_packet (packet : Wire.Packet) : Packet :=
  mk_packet (Wire.peer packet) (Wire.channel packet) (from_session_mode (Wire.mode packet))
    (Wire.data packet).

Definition handle (w : World) (event : Event) : World :=
  match event with
  | Ready id => with_this (this w |> set_unique_id id |> set_status CONNECTED) w
  | PeerConnected id => emit (peer_connected id) w
  | PeerDisconnected id => emit (peer_disconnected id) w
  | PacketEvent packet =>
      with_this (set_queues (incoming (this w) ++ [on_packet packet]) (current (this w)) (this w)) w
  | Warning text => emit (warning text) w
  | Closed _ =>
      with_this (this w |> set_session None |> set_endpoint None |> set_unique_id 0
                        |> set_status DISCONNECTED) w
  end.

(** [while let Some(event) = session.try_recv()]. *)
Definition drain_session (p : IrohPeer) : list Event * IrohPeer :=
  match session p with
  | None => ([], p)
  | Some s =>
      let '(evs, c) := chan_drain (Handle.events s) in
      (evs, set_session (Some (Handle.mk_handle c (Handle.commands s) (Handle.refuse s)
                                 (Handle.shared_connections s))) p)
  end.

Definition poll (w : World) : World :=
  let '(evs, p) := drain_session (this w) in foldl handle (with_this p w) evs.
End events.

Definition close (p : IrohPeer) : IrohPeer :=
  set_session (Handle.close <$> session p) p |> set_session None |> set_endpoint None
    |> set_queues [] None |> set_unique_id 0 |> set_status DISCONNECTED.

Definition disconnect_peer (peer : Z) (p : IrohPeer) : IrohPeer :=
  set_session (Handle.disconnect peer <$> session p) p.
End peer.

(** ** What a batch of events amounts to *)

Section batch.
Context {E : Type} `{Countable E} `{AlpnRegistry R Reg} {Addr : Type}.
Abbreviation world := (World (E := E) (R := R) (Reg := Reg) (Addr := Addr)).

Definition packets_of (evs : list Event) : list Packet :=
  omap (λ e, match e with PacketEvent p => Some (on_packet p) | _ => None end) evs.

(** The signals of a batch, each with the packets the game can already read. *)
Fixpoint signals_of (queued : list Packet) (evs : list Event) : list (Signal * list Packet) :=
  match evs with
  | [] => []
  | PeerConnected id :: evs => (peer_connected id, queued) :: signals_of queued evs
  | PeerDisconnected id :: evs => (peer_disconnected id, queued) :: signals_of queued evs
  | Warning text :: evs => (warning text, queued) :: signals_of queued evs
  | PacketEvent p :: evs => signals_of (queued ++ [on_packet p]) evs
  | (Ready _ | Closed _) :: evs => signals_of queued evs
  end.

(** The id and the status the last event of a batch that bears on them leaves. *)
Definition standing (s : Z * ConnectionStatus) (evs : list Event) : Z * ConnectionStatus :=
  foldl (λ s e, match e with
                | Ready id => (id, CONNECTED)
                | Closed _ => (0, DISCONNECTED)
                | _ => s
                end) s evs.

Definition ends (evs : list Event) : bool :=
  existsb (λ e, match e with Closed _ => true | _ => false end) evs.

(** Callables that do not call back into the peer. *)
Definition passive (react : Signal → world → world) : Prop :=
  ∀ s w, this (react s w) = this w ∧ signals (react s w) = signals w.

Lemma events_batch react evs (w : world) :
  passive react →
  let w' := foldl (handle react) w evs in
  incoming (this w') = incoming (this w) ++ packets_of evs ∧
  signals w' = signals w ++ signals_of (incoming (this w)) evs ∧
  (unique_id (this w'), status (this w')) = standing (unique_id (this w), status (this w)) evs ∧
  (session (this w'), endpoint (this w')) =
    (if ends evs then (None, None) else (session (this w), endpoint (this w))) ∧
  current (this w') = current (this w).
Proof.
  intros Hp. revert w. induction evs as [|e evs IH]; intros w; cbn [foldl].
  { cbn. by rewrite !app_nil_r. }
  specialize (IH (handle react w e)). cbv zeta in *.
  set (w' := foldl _ _ _) in *. clearbody w'.
  destruct IH as (Hi & Hs & Hst & Hse & Hc).
  destruct e as [id|id|id|p|text|reason]; cbn in *;
    try (unfold emit in *; match goal with
         | H : context [react ?s ?v] |- _ => destruct (Hp s v) as [Ht Hg]; cbn in *
         end; rewrite Ht, ?Hg in *; cbn in *);
    rewrite Hi, Hs, Hst, Hse, Hc; cbn; rewrite <- ?app_assoc; cbn; split_and!; try done.
  by destruct (ends evs).
Qed.

(** Fetching until nothing is left, reading the descriptors before each fetch. *)
Fixpoint fetch_all (fuel : nat) (p : IrohPeer (E := E)) : list Packet * IrohPeer (E := E) :=
  match fuel with
  | O => ([], p)
  | S fuel =>
      let described := mk_packet (get_packet_peer p) (get_packet_channel p) (get_packet_mode p) in
      match get_packet_rawptr p with
      | (p', (OK, Some (data, _))) =>
          let '(l, p'') := fetch_all fuel p' in (described data :: l, p'')
      | (p', _) => ([], p')
      end
  end.

Lemma fetch_all_spec fuel p :
  (length (incoming p) < fuel)%nat →
  (fetch_all fuel p).1 = incoming p ∧ incoming (fetch_all fuel p).2 = [] ∧
  current (fetch_all fuel p).2 =
    match last (incoming p) with Some q => Some q | None => current p end.
Proof.
  revert p. induction fuel as [|fuel IH]; intros p Hf; [lia|].
  cbn [fetch_all]. unfold get_packet_rawptr, get_packet_peer, get_packet_channel, get_packet_mode.
  destruct (incoming p) as [|q rest] eqn:Hi; cbn; [by rewrite Hi|].
  specialize (IH (set_queues rest (Some q) p)). cbn in IH, Hf.
  destruct (fetch_all fuel (set_queues rest (Some q) p)) as [l p'].
  destruct IH as (Hl & He & Hc); [lia|]. cbn in *. rewrite Hl, He, Hc. split_and!.
  - by destruct q.
  - done.
  - destruct rest as [|q2 rest]; [done|]. cbn. by destruct (last (q2 :: rest)) eqn:Hla; [|apply last_None in Hla].
Qed.
End batch.

(** ** Refusing newcomers *)

Section refusal.
Context {E : Type} `{Countable E} {Addr : Type}.
Abbreviation world := (World (E := E) (R := Registry) (Reg := Registration) (Addr := Addr)).

(** The flag of the session [host] started on a registry [r], and its value. *)
Definition hosting (e : E) (r : Registry) (b : bool) (w : world) : Prop :=
  ∃ s r', session (this w) = Some s ∧ endpoint (this w) = Some e ∧
    Handle.refuse s = Some (fresh_id r) ∧ dispatchers w !! e = Some r' ∧
    protocols r' = <[ALPN := mk_protocol (fresh_id r) (fresh_id r)]> (protocols r) ∧
    flags r' = <[fresh_id r := b]> (flags r).

Lemma host_hosting e r (w : world) :
  dispatchers w !! e = Some r → ALPN ∉ held r →
  hosting e r (refuse_new_connections (this w)) (host true e w).1.
Proof.
  intros Hr Hfree. change (ALPN ∉ dom (protocols r)) in Hfree. apply not_elem_of_dom in Hfree.
  unfold host. rewrite Hr.
  unfold Handle.host, Handle.start. cbn [register registry_interface].
  unfold register_alpn, insert_protocol. rewrite Hfree. cbn.
  do 2 eexists. cbn. rewrite lookup_insert_eq. split_and!; [done..|]. cbn. by rewrite insert_insert_eq.
Qed.

Lemma set_refuse_hosting e r b b' (w : world) :
  hosting e r b w → hosting e r b' (set_refuse_new_connections b' w).
Proof.
  intros (s & r' & Hs & He & Hf & Hr & Hp & Hfl). unfold set_refuse_new_connections.
  rewrite Hs, He. cbn. rewrite Hr. unfold Handle.set_refuse_new_connections. rewrite Hf. cbn.
  exists s. eexists. cbn. rewrite lookup_insert_eq. split_and!; try done. cbn.
  by rewrite Hfl, insert_insert_eq.
Qed.
End refusal.

(** ** Properties *)

(** What one poll does. With callables that leave the peer alone, a poll
    takes every event the session task has queued, in order: the packets are
    appended to the ones not fetched yet, each signal is emitted at its own
    place among them, so a peer's arrival is announced before any packet that
    follows it can be fetched, the unique id and the status are those the last
    deciding event leaves, and the session and the endpoint are let go exactly
    when the session reported its end. Packets that arrived before the end stay
    readable. *)
Lemma poll_delivers_in_order `{Countable E} `{AlpnRegistry R Reg} {Addr : Type}
    (react : Signal → World → World) (w : World (E := E) (R := R) (Reg := Reg) (Addr := Addr)) s :
  passive react → session (this w) = Some s →
  let evs := queue (Handle.events s) in
  let w' := poll react w in
  incoming (this w') = incoming (this w) ++ packets_of evs ∧
  signals w' = signals w ++ signals_of (incoming (this w)) evs ∧
  (unique_id (this w'), status (this w')) = standing (unique_id (this w), status (this w)) evs ∧
  queue ∘ Handle.events <$> session (this w') = (if ends evs then None else Some []) ∧
  endpoint (this w') = (if ends evs then None else endpoint (this w)) ∧
  current (this w') = current (this w).
Proof.
  intros Hp Hs evs w'. subst evs w'. unfold poll, drain_session. rewrite Hs, chan_drain_spec.
  set (p1 := set_session _ _).
  destruct (events_batch react (queue (Handle.events s)) (with_this p1 w) Hp)
    as (Hi & Hsig & Hst & Hse & Hc).
  rewrite Hi, Hsig, Hst, Hc. cbn in *. destruct (ends _); injection Hse as -> ->; by split_and!.
Qed.

Lemma poll_delivers_in_order_witness :
  let react := (λ (_ : Signal) (w : World (E := nat) (R := Registry) (Reg := Registration) (Addr := nat)), w) in
  let s := Handle.fresh_handle
    [Ready 2; PeerConnected 1; PacketEvent (Wire.mk_packet 1 3 Unreliable [x61]); Closed "gone"] None in
  let w := mk_world (set_session (Some s) init) ∅ [] [] in
  let w' := poll react w in
  incoming (this w') = [mk_packet 1 3 UNRELIABLE [x61]] ∧
  signals w' = [(peer_connected 1, [])] ∧
  (unique_id (this w'), status (this w')) = (0, DISCONNECTED) ∧
  queue ∘ Handle.events <$> session (this w') = None ∧
  endpoint (this w') = None ∧ current (this w') = None.
Proof.
  intros react s w. refine (poll_delivers_in_order react w s _ _); [by intros ? ?|reflexivity].
Defined.

(** fetching packets. A caller that reads the peer, the channel and the mode
    before each fetch, until nothing is left, gets every queued packet once, in
    order, with exactly its own descriptors and bytes; the last one stays in
    [current], which keeps the buffer Godot borrowed alive. The count reported
    beforehand is the number of packets it will get, up to [i32::MAX]. *)
Lemma fetching_returns_the_queue {E} (p : IrohPeer (E := E)) :
  let fetched := fetch_all (S (length (incoming p))) p in
  fetched.1 = incoming p ∧ incoming fetched.2 = [] ∧
  current fetched.2 = match last (incoming p) with Some q => Some q | None => current p end ∧
  (len (incoming p) ≤ i32_max → get_available_packet_count p = len fetched.1) ∧
  (get_packet_script p).2 = from_option data [] (head (incoming p)) ∧
  (get_packet_script p).1 = (get_packet_rawptr p).1.
Proof.
  intros fetched. destruct (fetch_all_spec (S (length (incoming p))) p) as (Hl & He & Hc); [lia|].
  fold fetched in Hl, He, Hc. split_and!; [done..| | |].
  - intros Hmax. unfold get_available_packet_count. rewrite Hl. apply to_i32_small.
    pose proof (len_nonneg (incoming p)). ints.
  - unfold get_packet_script. by destruct (incoming p).
  - unfold get_packet_script, get_packet_rawptr. by destruct (incoming p).
Qed.

(** Hosting twice loses both sessions. [host] on the endpoint whose session
    is still running returns [true], but the claim is held, so the new session
    is stillborn; the old one has been replaced and its handle dropped. The next
    poll leaves the peer disconnected with no session at all, and no task was
    started. *)
Lemma hosting_twice_loses_both `{Countable E} `{AlpnRegistry R Reg} {Addr : Type}
    react (w : World (E := E) (R := R) (Reg := Reg) (Addr := Addr)) e r :
  dispatchers w !! e = Some r → ALPN ∈ held r →
  (host true e w).2 = true ∧
  tasks (host true e w).1 = tasks w ∧
  let p := this (poll react (host true e w).1) in
  session p = None ∧ endpoint p = None ∧ status p = DISCONNECTED ∧ unique_id p = 0.
Proof.
  intros Hr Hheld. unfold host. rewrite Hr. unfold Handle.host, Handle.start.
  rewrite register_held by done. cbn. rewrite app_nil_r. by split_and!.
Qed.

Lemma hosting_twice_loses_both_witness :
  let r := (register_alpn ALPN start).1 in
  let w := mk_world (E := nat) (Addr := nat) init {[ 4%nat := r ]} [] [] in
  let react := (λ (_ : Signal) w, w) in
  (host true 4%nat w).2 = true ∧
  tasks (host true 4%nat w).1 = [] ∧
  let p := this (poll react (host true 4%nat w).1) in
  session p = None ∧ endpoint p = None ∧ status p = DISCONNECTED ∧ unique_id p = 0.
Proof.
  intros r w react. refine (hosting_twice_loses_both react w 4%nat r _ _); [reflexivity|by_decision].
Defined.

(** A session started from the [peer_disconnected] signal is lost. When the
    host leaves, the task reports the peer's departure and its own end together;
    [poll] has taken both before it emits the signal, so a callable that joins
    again there has its new session thrown away by the end of the old one: the
    join returned [true] and its task was started, but the peer ends up
    disconnected. *)
Lemma rejoining_in_the_signal_is_undone `{Countable E} `{AlpnRegistry R Reg} {Addr Id : Type}
    `{EqDecision Id} (addr_id : Addr → Id) own_id
    (w : World (E := E) (R := R) (Reg := Reg) (Addr := Addr)) s e r addr reason :
  session (this w) = Some s →
  queue (Handle.events s) = [PeerDisconnected HOST_ID; Closed reason] →
  dispatchers w !! e = Some r → addr_id addr ≠ own_id r →
  let rejoin := λ (sig : Signal) w, (start_join addr_id own_id true e addr w).1 in
  let w' := poll rejoin w in
  tasks w' = tasks w ++ [Handle.mk_spawned (Some addr) None] ∧
  session (this w') = None ∧ endpoint (this w') = None ∧ status (this w') = DISCONNECTED.
Proof.
  intros Hs Hq Hr Hid rejoin w'. subst w' rejoin. unfold poll, drain_session.
  rewrite Hs, chan_drain_spec, Hq. cbn. unfold emit, start_join. cbn. rewrite Hr.
  rewrite decide_False by done. cbn. by split_and!.
Qed.

Lemma rejoining_in_the_signal_is_undone_witness :
  let s := Handle.fresh_handle [PeerDisconnected HOST_ID; Closed "host disconnected"] None in
  let w := mk_world (E := nat) (Addr := nat) (set_session (Some s) init) {[ 4%nat := start ]} [] [] in
  let rejoin := λ (sig : Signal) w, (start_join (λ a, a) (λ _, 0%nat) true 4%nat 9%nat w).1 in
  let w' := poll rejoin w in
  tasks w' = [Handle.mk_spawned (Some 9%nat) None] ∧
  session (this w') = None ∧ endpoint (this w') = None ∧ status (this w') = DISCONNECTED.
Proof.
  intros s w. refine (rejoining_in_the_signal_is_undone (λ a, a) (λ _, 0%nat) w s 4%nat start 9%nat
    "host disconnected" _ _ _ _); [reflexivity|reflexivity|reflexivity|by_decision].
Defined.

(** Sending. Nothing is sent unless the peer is connected, and then one
    command with exactly the target, the channel, the mode and the bytes at hand
    is queued behind those already there; no size is refused, in particular not
    one above what [get_max_packet_size] reports. An unknown transfer mode is
    sent reliably. *)
Lemma put_packet_queues_one_command {E} (p : IrohPeer (E := E)) buffer s :
  session p = Some s → receiver_alive (Handle.commands s) = true →
  let '(p', err) := put_packet_rawptr buffer (len buffer) p in
  (err = OK ↔ status p = CONNECTED) ∧
  (queue ∘ Handle.commands <$> session p') =
    Some (queue (Handle.commands s) ++
      if decide (status p = CONNECTED) then
        [Session.Send (target_peer p) (transfer_channel p) (to_session_mode (transfer_mode p)) buffer]
      else []) ∧
  (∀ m, transfer_mode p = from_session_mode m → to_session_mode (transfer_mode p) = m) ∧
  (transfer_mode p ∉ [UNRELIABLE; UNRELIABLE_ORDERED] → to_session_mode (transfer_mode p) = Reliable).
Proof.
  intros Hs Ha. unfold put_packet_rawptr. pose proof (len_nonneg buffer) as Hlen.
  rewrite decide_False by lia.
  assert ((if decide (len buffer = 0) then [] else take (Z.to_nat (len buffer)) buffer) = buffer) as ->.
  { case_decide as H0.
    - unfold len in H0. by rewrite (nil_length_inv buffer) by lia.
    - unfold len. by rewrite Nat2Z.id, take_ge by lia. }
  assert ((∀ m, transfer_mode p = from_session_mode m → to_session_mode (transfer_mode p) = m) ∧
    (transfer_mode p ∉ [UNRELIABLE; UNRELIABLE_ORDERED] → to_session_mode (transfer_mode p) = Reliable))
    as Hmode.
  { unfold to_session_mode. split.
    - intros m ->. by destruct m.
    - rewrite !not_elem_of_cons. intros (? & ? & _). by rewrite !decide_False. }
  unfold send. rewrite Hs. case_decide; cbn.
  - unfold chan_send. rewrite Ha. split_and!; [done..|apply Hmode|apply Hmode].
  - rewrite Hs. cbn. rewrite app_nil_r. split_and!; [by split|done|apply Hmode..].
Qed.

Lemma put_packet_queues_one_command_witness :
  let p := set_status CONNECTED (set_session (Some (Handle.fresh_handle [] None)) init) in
  let p' := (put_packet_rawptr [x61; x62] (len [x61; x62]) (E := nat) p).1 in
  (OK = OK ↔ status p = CONNECTED) ∧
  (queue ∘ Handle.commands <$> session p') = Some [Session.Send 0 0 Reliable [x61; x62]] ∧
  (∀ m, transfer_mode p = from_session_mode m → to_session_mode (transfer_mode p) = m) ∧
  (transfer_mode p ∉ [UNRELIABLE; UNRELIABLE_ORDERED] → to_session_mode (transfer_mode p) = Reliable).
Proof.
  intros p p'.
  exact (put_packet_queues_one_command p [x61; x62] (Handle.fresh_handle [] None) eq_refl eq_refl).
Defined.

(** C28: refusing newcomers reaches the accept loop. On an endpoint whose registry
    is in any state it can reach, a peer that hosts turns away exactly while the
    last setting says so, also one made before it hosted: a peer that offers only
    the session's protocol is refused before the handshake, one that is past it
    is closed with code 2, and otherwise it is handed to the session. Other
    protocols on the endpoint never notice. *)
Theorem refusal_reaches_the_accept_loop `{Countable E} {Addr} negotiated
    (w : World (E := E) (R := Registry) (Reg := Registration) (Addr := Addr)) e st bs :
  rtc (dispatch_step negotiated false) started st →
  dispatchers w !! e = Some (registry st) → ALPN ∉ held (registry st) →
  let w' := foldl (λ w b, set_refuse_new_connections b w) (host true e w).1 bs in
  let refused := default (refuse_new_connections (this w)) (last bs) in
  ∃ r', dispatchers w' !! e = Some r' ∧
    admits (Some [Some ALPN]) r' = negb refused ∧
    (∀ c, dispatch_route true (Some ALPN) (Some c) r' =
       if refused then CloseWith c REFUSED "not accepting connections"
       else SendTo (fresh_id (registry st)) c) ∧
    ∀ a, a ≠ ALPN → wanted r' a = wanted (registry st) a.
Proof.
  intros (owner & [_ _ _ _ Hown Hflag Hfresh _ _])%routed_reachable He Hfree w' refused.
  assert (hosting e (registry st) refused w') as (s & r' & _ & _ & _ & Hr & Hp & Hf).
  { subst w' refused. induction bs as [|b bs IH] using rev_ind; [by apply host_hosting|].
    rewrite foldl_app, last_snoc. cbn. by eapply set_refuse_hosting. }
  clearbody w' refused. exists r'. unfold admits, offers_wanted_alpn, existsb, dispatch_route.
  assert (wanted r' ALPN = negb refused) as Hw.
  { unfold wanted, refusing. rewrite Hp, lookup_insert_eq. cbn. by rewrite Hf, lookup_insert_eq. }
  split_and!; [done| | |].
  - rewrite Hw. by destruct refused.
  - intros c. unfold refusing. rewrite Hp, lookup_insert_eq. cbn. by rewrite Hf, lookup_insert_eq.
  - intros a Ha. unfold wanted, refusing. rewrite Hp, lookup_insert_ne by done.
    destruct (protocols (registry st) !! a) as [p|] eqn:Hpa; [|done].
    rewrite Hf, lookup_insert_ne; [done|]. intros Heq. pose proof (Hflag a p Hpa) as Hfl.
    apply Hown in Hpa. rewrite <- Hfl, <- Heq, Hfresh in Hpa; [done|lia].
Qed.

Lemma refusal_reaches_the_accept_loop_witness :
  let w : World (E := nat) (R := Registry) (Reg := Registration) (Addr := nat) :=
    mk_world init {[ 4%nat := start ]} [] [] in
  let w' := foldl (λ w b, set_refuse_new_connections b w) (host true 4%nat w).1 [true; false; true] in
  ∃ r', dispatchers w' !! 4%nat = Some r' ∧
    admits (Some [Some ALPN]) r' = negb true ∧
    (∀ c, dispatch_route true (Some ALPN) (Some c) r' =
       if true then CloseWith c REFUSED "not accepting connections" else SendTo 0%nat c) ∧
    ∀ a, a ≠ ALPN → wanted r' a = wanted start a.
Proof.
  intros w. refine (refusal_reaches_the_accept_loop (λ _, []) w 4%nat started [true; false; true] _ _ _);
    [apply rtc_refl|reflexivity|by_decision].
Defined.
