(* ===== verification/Stream.v ===== *)
(** * A stream as a Godot [StreamPeer] ([stream.rs])

    What the reader task produces is pulled into a buffer of chunks; reads take
    from its front. A read that waits is given the reports still to come and
    whether the reader task ends after them: [None] is a call that never
    returns. *)

From S2P Require Import Prelude.
From S2P Require Raw.
Import Raw (Received, Ended).

Inductive Error : Type :=
  | OK | ERR_UNAVAILABLE | ERR_INVALID_PARAMETER | ERR_FILE_EOF | ERR_CONNECTION_ERROR.

#[export] Instance error_eq_dec : EqDecision Error.
Proof. solve_decision. Defined.

Record State : Type := mk_state {
  stream : option Raw.Stream;
  buffered : list bytes;
  available : Z;
  ended : option (option string);
}.

Definition wrap (s : Raw.Stream) : State := mk_state (Some s) [] 0 None.

(** ** Pulling in *)

Definition push (chunk : bytes) (st : State) : State :=
  mk_state (stream st) (buffered st ++ [chunk]) (available st + len chunk) (ended st).

Definition set_ended (reason : option string) (st : State) : State :=
  mk_state (stream st) (buffered st) (available st) (Some reason).

Definition set_stream (s : option Raw.Stream) (st : State) : State :=
  mk_state s (buffered st) (available st) (ended st).

(** [while let Some(incoming) = stream.try_recv()]. *)
Fixpoint drain_fuel (fuel : nat) (s : Raw.Stream) (st : State) : State :=
  match fuel with
  | O => st
  | S fuel =>
      match Raw.try_recv s with
      | (None, s) => set_stream (Some s) st
      | (Some (Received chunk), s) => drain_fuel fuel s (push chunk (set_stream (Some s) st))
      | (Some (Ended reason), s) => set_ended reason (set_stream (Some s) st)
      end
  end.

Definition drain (st : State) : State :=
  match stream st with
  | None => st
  | Some s => drain_fuel (S (length (queue (Raw.incoming s)))) s st
  end.

(** What the reader task will still report, and whether it then ends. *)
Record Future : Type := mk_future {
  arrivals : list Raw.Incoming;
  ends : bool;
}.

(** [Raw.Stream::recv_blocking]. *)
Definition recv_blocking (s : Raw.Stream) (f : Future)
  : option (option Raw.Incoming * Raw.Stream * Future) :=
  match Raw.try_recv s with
  | (Some i, s) => Some (Some i, s, f)
  | (None, s) =>
      match arrivals f with
      | i :: rest => Some (Some i, s, mk_future rest (ends f))
      | [] => if ends f then Some (None, s, f) else None
      end
  end.

Fixpoint fill_fuel (fuel : nat) (wanted : Z) (st : State) (f : Future) : option (State * Future) :=
  match fuel with
  | O => Some (st, f)
  | S fuel =>
      if decide (available st < wanted ∧ ended st = None) then
        match stream st with
        | None => Some (st, f)
        | Some s =>
            match recv_blocking s f with
            | None => None
            | Some (Some (Received chunk), s, f) =>
                fill_fuel fuel wanted (push chunk (set_stream (Some s) st)) f
            | Some (Some (Ended reason), s, f) =>
                fill_fuel fuel wanted (set_ended reason (set_stream (Some s) st)) f
            | Some (None, s, f) =>
                fill_fuel fuel wanted
                  (set_ended (Some "the stream's task ended") (set_stream (Some s) st)) f
            end
        end
      else Some (st, f)
  end.

Definition incoming_of (st : State) : list Raw.Incoming :=
  match stream st with Some s => queue (Raw.incoming s) | None => [] end.

(** Every round takes a report or sets [ended]. *)
Definition fill (wanted : Z) (st : State) (f : Future) : option (State * Future) :=
  fill_fuel (length (incoming_of st) + length (arrivals f) + 2) wanted st f.

(** ** Taking out

    [take] into a buffer of [n] bytes, one chunk per round. *)
Fixpoint take_chunks (n : nat) (chunks : list bytes) : bytes * list bytes :=
  match n, chunks with
  | O, _ => ([], chunks)
  | S _, [] => ([], [])
  | S _, chunk :: rest =>
      let k := min (length chunk) n in
      if decide (drop k chunk = []) then
        let '(out, kept) := take_chunks (n - k) rest in (take k chunk ++ out, kept)
      else (take k chunk, drop k chunk :: rest)
  end.

Definition take_bytes (n : Z) (st : State) : bytes * State :=
  let '(out, kept) := take_chunks (Z.to_nat n) (buffered st) in
  (out, mk_state (stream st) kept (available st - len out) (ended st)).

(** ** The [StreamPeer] interface

    Reads return the error and the bytes written to Godot's buffer, whose count
    is the out-parameter. *)

Definition get_data (r_bytes : Z) (st : State) (f : Future)
  : option (Error * bytes * State * Future) :=
  let st := drain st in
  let wanted := Z.max r_bytes 0 in
  if decide (wanted = 0) then Some (OK, [], st, f)
  else
    match fill wanted st f with
    | None => None
    | Some (st, f) =>
        if decide (available st < wanted) then Some (ERR_UNAVAILABLE, [], st, f)
        else let '(out, st) := take_bytes wanted st in Some (OK, out, st, f)
    end.

Definition get_partial_data (r_bytes : Z) (st : State) : Error * bytes * State :=
  let st := drain st in
  let wanted := Z.min (Z.max r_bytes 0) (available st) in
  if decide (wanted = 0) then (OK, [], st)
  else let '(out, st) := take_bytes wanted st in (OK, out, st).

(** The last component is [r_sent]. *)
Definition put_data (data : bytes) (p_bytes : Z) (st : State) : Error * State * Z :=
  if decide (p_bytes < 0) then (ERR_INVALID_PARAMETER, st, 0)
  else if decide (p_bytes = 0) then (OK, st, 0)
  else
    match stream st with
    | None => (ERR_FILE_EOF, st, 0)
    | Some s =>
        match Raw.write (take (Z.to_nat p_bytes) data) s with
        | (s, true) => (OK, set_stream (Some s) st, p_bytes)
        | (s, false) => (ERR_CONNECTION_ERROR, set_stream (Some s) st, 0)
        end
    end.

Definition put_partial_data (data : bytes) (p_bytes : Z) (st : State) : Error * State * Z :=
  put_data data p_bytes st.

Definition get_available_bytes (st : State) : Z * State :=
  let st := drain st in (Z.min (available st) i32_max, st).

Definition is_open (st : State) : bool * State :=
  let st := drain st in (bool_decide (ended st = None) && bool_decide (is_Some (stream st)), st).

Definition get_error (st : State) : string * State :=
  let st := drain st in
  (match ended st with Some (Some reason) => reason | _ => "" end, st).

Definition finish (st : State) : State :=
  match stream st with
  | Some s => set_stream (Some (Raw.finish s).1) st
  | None => st
  end.

Definition abort (code : Z) (st : State) : State * bool :=
  let code := Z.min (Z.max code 0) u32_max in
  match stream st with
  | Some s => let '(s, ok) := Raw.abort code s in (set_stream (Some s) st, ok)
  | None => (st, false)
  end.

Definition close (st : State) : State := mk_state None [] 0 (ended st).

(** ** What a state holds

    [content] is every byte that can still be read without the network: the
    buffered chunks, then the chunks of the queue up to the end it reports. *)

Fixpoint queued_bytes (q : list Raw.Incoming) : bytes :=
  match q with
  | Received chunk :: q => chunk ++ queued_bytes q
  | _ => []
  end.

Fixpoint queued_end (q : list Raw.Incoming) : option (option string) :=
  match q with
  | Received _ :: q => queued_end q
  | Ended reason :: _ => Some reason
  | [] => None
  end.

Fixpoint after_end (q : list Raw.Incoming) : list Raw.Incoming :=
  match q with
  | Received _ :: q => after_end q
  | Ended _ :: q => q
  | [] => []
  end.

Definition buffered_bytes (st : State) : bytes := mjoin (buffered st).

(** The count is the bytes, a reported end is the last report, and a closed
    stream holds nothing. *)
Record wf (st : State) : Prop := {
  wf_available : available st = len (buffered_bytes st);
  wf_ended : is_Some (ended st) → incoming_of st = [];
  wf_closed : stream st = None → buffered st = [];
}.

(** Reports a reader can make ([Raw.reports_follow_the_network]): chunks, then at
    most one end. *)
Definition reader_reports (q : list Raw.Incoming) : Prop := after_end q = [].

Lemma mjoin_snoc {A} (ls : list (list A)) l : mjoin (ls ++ [l]) = mjoin ls ++ l.
Proof. rewrite join_app. cbn. by rewrite app_nil_r. Qed.

Lemma drain_fuel_end n q o a bs av en :
  (length q < n)%nat →
  ∃ bs', drain_fuel n (Raw.mk_stream o (mk_chan q a)) (mk_state (Some (Raw.mk_stream o (mk_chan q a))) bs av en)
    = mk_state (Some (Raw.mk_stream o (mk_chan (after_end q) a))) bs' (av + len (queued_bytes q))
        (match queued_end q with Some r => Some r | None => en end) ∧
    mjoin bs' = mjoin bs ++ queued_bytes q.
Proof.
  revert q bs av. induction n as [|n IH]; intros q bs av Hn; [lia|].
  destruct q as [|[chunk|reason] q]; cbn in *.
  - exists bs. rewrite app_nil_r. split; [|done]. by rewrite Z.add_0_r.
  - unfold push, set_stream. cbn.
    destruct (IH q (bs ++ [chunk]) (av + len chunk)) as (bs' & -> & Hj); [lia|].
    exists bs'. rewrite Hj, mjoin_snoc, <- app_assoc, len_app. split; [|done]. f_equal. lia.
  - exists bs. rewrite app_nil_r. split; [|done]. unfold set_ended. cbn. f_equal. unfold len; cbn; lia.
Qed.

Lemma drain_spec st :
  wf st →
  let q := incoming_of st in
  buffered_bytes (drain st) = buffered_bytes st ++ queued_bytes q ∧
  available (drain st) = len (buffered_bytes st ++ queued_bytes q) ∧
  ended (drain st) = (match queued_end q with Some r => Some r | None => ended st end) ∧
  incoming_of (drain st) = after_end q ∧
  (is_Some (stream (drain st)) ↔ is_Some (stream st)).
Proof.
  intros [Ha He Hc] q. subst q. unfold drain, incoming_of. destruct st as [[[o [q a]]|] bs av en]; cbn -[drain_fuel] in *.
  - destruct (drain_fuel_end (S (length q)) q o a bs av en) as (bs' & -> & Hj); [lia|].
    unfold buffered_bytes in *. cbn in *. rewrite Hj, len_app, Ha. by split_and!.
  - rewrite app_nil_r. by split_and!.
Qed.

Lemma drain_wf st : wf st → reader_reports (incoming_of st) → wf (drain st).
Proof.
  intros Hw Hr. pose proof (drain_spec st Hw) as (Hb & Ha & He & Hi & Hs).
  split.
  - by rewrite Ha, Hb.
  - intros _. by rewrite Hi.
  - intros Hn. destruct (stream st) eqn:E; [|unfold drain; rewrite E; by apply Hw].
    destruct Hs as [_ Hs]. destruct Hs; [eauto|congruence].
Qed.

(** Taking from chunks is taking from the bytes. *)
Lemma take_chunks_spec n chunks :
  (take_chunks n chunks).1 = take n (mjoin chunks) ∧
  mjoin (take_chunks n chunks).2 = drop n (mjoin chunks).
Proof.
  revert n. induction chunks as [|chunk rest IH]; intros n; destruct n as [|n]; cbn [take_chunks];
    try done.
  set (m := S n). case_decide as Hd.
  - assert ((length chunk ≤ m)%nat) as Hle.
    { apply (f_equal length) in Hd. rewrite length_drop in Hd. cbn in Hd. lia. }
    rewrite Nat.min_l by done. destruct (IH (m - length chunk)%nat) as [Ho Hl].
    destruct (take_chunks (m - length chunk) rest) as [out kept]. cbn in *. subst out.
    rewrite firstn_all, take_app, drop_app, (take_ge chunk), (drop_ge chunk) by lia. done.
  - assert ((m < length chunk)%nat) as Hlt.
    { destruct (decide (m < length chunk)%nat); [done|]. exfalso. apply Hd.
      rewrite Nat.min_l by lia. apply drop_all. }
    rewrite Nat.min_r by lia. cbn. rewrite take_app_le, drop_app_le by lia. done.
Qed.

Lemma take_bytes_spec n st :
  wf st → 0 ≤ n ≤ available st →
  let '(out, st') := take_bytes n st in
  out = take (Z.to_nat n) (buffered_bytes st) ∧
  buffered_bytes st' = drop (Z.to_nat n) (buffered_bytes st) ∧
  wf st' ∧ stream st' = stream st ∧ ended st' = ended st.
Proof.
  intros [Ha He Hc] Hn. unfold take_bytes.
  destruct (take_chunks_spec (Z.to_nat n) (buffered st)) as [Ho Hl].
  destruct (take_chunks _ _) as [out kept] eqn:Ht. cbn in *. subst out.
  unfold buffered_bytes in *. cbn. rewrite Hl. split_and!; try done. split; cbn.
  - unfold buffered_bytes. cbn. rewrite Hl. unfold len in *. rewrite length_take, length_drop. lia.
  - done.
  - intros Hs. rewrite (Hc Hs) in Ht. destruct (Z.to_nat n); by injection Ht.
Qed.

(** ** The bytes still to come *)

(** Every byte the stream will ever yield from here. *)
Definition total (st : State) (f : Future) : bytes :=
  buffered_bytes st ++ queued_bytes (incoming_of st ++ arrivals f).

(** The reports of one reader: none after the end, none to a closed stream. *)
Record consistent (st : State) (f : Future) : Prop := {
  cons_reports : reader_reports (incoming_of st ++ arrivals f);
  cons_ended : is_Some (ended st) → arrivals f = [];
  cons_closed : stream st = None → arrivals f = [];
}.

Lemma reports_app q q' :
  reader_reports (q ++ q') → reader_reports q ∧ (is_Some (queued_end q) → q' = []) ∧ reader_reports q'.
Proof.
  unfold reader_reports. induction q as [|[chunk|reason] q IH]; cbn.
  - intros H. split_and!; [done|by intros []|done].
  - done.
  - intros [-> ->]%app_nil. by split_and!.
Qed.

Lemma queued_bytes_app q q' :
  (is_Some (queued_end q) → q' = []) → queued_bytes (q ++ q') = queued_bytes q ++ queued_bytes q'.
Proof.
  induction q as [|[chunk|reason] q IH]; cbn; intros H; [done| |].
  - rewrite IH by done. by rewrite app_assoc.
  - rewrite H by eauto. done.
Qed.

(** Draining changes where the bytes are, not which. *)
Lemma drain_total st f :
  wf st → consistent st f →
  total (drain st) f = total st f ∧ wf (drain st) ∧ consistent (drain st) f ∧
  incoming_of (drain st) = [].
Proof.
  intros Hw [Hr He Hc]. pose proof (drain_spec st Hw) as (Hb & Ha & Hen & Hi & Hs).
  apply reports_app in Hr as (Hr1 & Hr2 & Hr3).
  assert (incoming_of (drain st) = []) as Hnil by (rewrite Hi; exact Hr1).
  assert (∀ r, queued_end (incoming_of st) = Some r → arrivals f = []) as Hend by eauto.
  split_and!; [|by apply drain_wf| |done].
  - unfold total. rewrite Hb, Hnil, (queued_bytes_app (incoming_of st)) by exact Hr2.
    by rewrite <- app_assoc.
  - split; rewrite ?Hnil, ?Hen; cbn; [done| |].
    + destruct (queued_end (incoming_of st)) eqn:E; eauto.
    + intros Hn. apply Hc. destruct (stream st) eqn:E; [|done].
      destruct Hs as [_ Hs]. destruct Hs; [eauto|congruence].
Qed.

(** What waiting comes to. *)
Definition filled (wanted : Z) (st : State) (f : Future) (out : option (State * Future)) : Prop :=
  match out with
  | None =>
      len (total st f) < wanted ∧ queued_end (arrivals f) = None ∧ ends f = false
  | Some (st', f') =>
      total st' f' = total st f ∧ wf st' ∧ consistent st' f' ∧ incoming_of st' = [] ∧
      (wanted ≤ available st' ∨ arrivals f' = [] ∧ (is_Some (ended st') ∨ stream st' = None))
  end.

Lemma filled_here wanted st f :
  wf st → consistent st f → incoming_of st = [] →
  ¬ (available st < wanted ∧ ended st = None) ∨ stream st = None →
  filled wanted st f (Some (st, f)).
Proof.
  intros Hw Hc Hi Hd. cbn. split_and!; try done.
  destruct (decide (wanted ≤ available st)); [by left|right].
  destruct Hd as [Hd|Hn]; [|split; [by apply (cons_closed _ _ Hc)|by right]].
  destruct (ended st) eqn:E; [|exfalso; apply Hd; split; [lia|done]].
  split; [apply (cons_ended _ _ Hc); rewrite E; eauto|left; eauto].
Qed.

Lemma fill_fuel_spec n wanted st f :
  wf st → consistent st f → incoming_of st = [] → (length (arrivals f) + 1 < n)%nat →
  filled wanted st f (fill_fuel n wanted st f).
Proof.
  revert st f. induction n as [|n IH]; intros st f Hw Hc Hi Hn; [lia|]. cbn [fill_fuel].
  case_decide as Hd; [|by apply filled_here; eauto].
  destruct Hd as [Hav Hen].
  destruct st as [[[o [q a]]|] bs av en]; cbn in Hi, Hav, Hen; [|apply filled_here; eauto]; subst q en.
  destruct f as [arr en]. unfold recv_blocking. cbn [Raw.try_recv chan_try_recv stream Raw.incoming queue arrivals].
  destruct Hw as [Hwa Hwe Hwc], Hc as [Hcr Hce Hcc]. cbn in *.
  destruct arr as [|[chunk|reason] arr]; cbn in *.
  - destruct en.
    + destruct n as [|n]; [lia|]. cbn [fill_fuel]. rewrite decide_False by (cbn; intros [_ ?]; done).
      cbn. split_and!; try done. right; eauto.
    + split_and!; [|done|done]. unfold total. cbn. by rewrite app_nil_r, <- Hwa.
  - set (st1 := push chunk _). set (f1 := mk_future arr en).
    assert (total st1 f1 = total (mk_state (Some (Raw.mk_stream o (mk_chan [] a))) bs av None)
                             (mk_future (Received chunk :: arr) en)) as Ht.
    { unfold total, buffered_bytes. cbn. by rewrite mjoin_snoc, <- app_assoc. }
    assert (filled wanted st1 f1 (fill_fuel n wanted st1 f1)) as Hf.
    { apply IH; [| |done|cbn; lia].
      - split; cbn; [|by intros []|done].
        unfold buffered_bytes in *. cbn in *. by rewrite mjoin_snoc, len_app, Hwa.
      - split; cbn; [done|by intros []|done]. }
    unfold filled in *. destruct (fill_fuel n wanted st1 f1) as [[st' f']|]; by rewrite <- Ht.
  - destruct n as [|n]; [lia|]. cbn [fill_fuel]. rewrite decide_False by (cbn; intros [_ ?]; done).
    assert (arr = []) as -> by done.
    cbn. split_and!; try done. right; eauto.
Qed.

(** [get_data], once and for all. *)
Lemma get_data_spec r st f :
  wf st → consistent st f → 0 < r →
  match get_data r st f with
  | None => len (total st f) < r ∧ ends f = false
  | Some (e, out, st', f') =>
      wf st' ∧ consistent st' f' ∧
      (r ≤ len (total st f) → e = OK ∧ out = take (Z.to_nat r) (total st f) ∧
         total st' f' = drop (Z.to_nat r) (total st f)) ∧
      (len (total st f) < r → e = ERR_UNAVAILABLE ∧ out = [] ∧ total st' f' = total st f ∧
         available st' = len (total st f))
  end.
Proof.
  intros Hw Hc Hr. unfold get_data. cbv zeta.
  destruct (drain_total st f Hw Hc) as (Ht & Hw1 & Hc1 & Hi1).
  rewrite decide_False by lia. rewrite Z.max_l by lia.
  assert (filled r (drain st) f (fill r (drain st) f)) as Hf
    by (apply fill_fuel_spec; auto; rewrite Hi1; cbn; lia).
  rewrite <- Ht. destruct (fill r (drain st) f) as [[st1 f1]|]; [|by destruct Hf as (? & _ & ?)].
  destruct Hf as (Ht1 & Hw2 & Hc2 & Hi2 & Hor). rewrite <- Ht1.
  assert (total st1 f1 = buffered_bytes st1 ++ queued_bytes (arrivals f1)) as Htot
    by (unfold total; by rewrite Hi2).
  pose proof (wf_available _ Hw2) as Hav.
  case_decide as Hlt.
  - destruct Hor as [?|[Harr _]]; [lia|]. rewrite Harr in Htot. cbn in Htot.
    rewrite app_nil_r in Htot. rewrite Htot in *. split_and!; try done. lia.
  - pose proof (take_bytes_spec r st1 Hw2) as Hk. destruct (take_bytes r st1) as [out st2].
    destruct Hk as (Ho & Hb & Hw3 & Hs & He); [lia|].
    assert ((Z.to_nat r ≤ length (buffered_bytes st1))%nat) as Hle by (unfold len in Hav; lia).
    split_and!; [done| | |].
    + destruct Hc2 as [Hc2a Hc2b Hc2c]. unfold incoming_of in *. split; unfold incoming_of; rewrite ?Hs, ?He; auto.
    + intros _. rewrite Htot, take_app_le, drop_app_le by done. split_and!; [done..|].
      unfold total, incoming_of in *. by rewrite Hb, Hs, Hi2.
    + rewrite Htot, len_app. pose proof (len_nonneg (queued_bytes (arrivals f1))). lia.
Qed.

(** ** Properties *)

(** C23: a waiting read is all or nothing. For [r > 0] bytes it returns exactly
    the next [r] bytes of the stream whenever that many exist, whether they are
    buffered, queued or still to come, and consumes exactly those; if the stream
    ends first it returns [ERR_UNAVAILABLE], consumes nothing, and everything
    that did arrive can be read. It fails to return only when the bytes are not
    there and the reader neither reports an end nor goes away. Asked for nothing,
    it takes nothing. *)
Theorem waiting_read_is_all_or_nothing r st f :
  wf st → consistent st f →
  (r ≤ 0 → get_data r st f = Some (OK, [], drain st, f)) ∧
  (0 < r → r ≤ len (total st f) → ∃ st' f',
     get_data r st f = Some (OK, take (Z.to_nat r) (total st f), st', f') ∧
     total st' f' = drop (Z.to_nat r) (total st f) ∧ wf st' ∧ consistent st' f') ∧
  (0 < r → len (total st f) < r → ends f = true → ∃ st' f',
     get_data r st f = Some (ERR_UNAVAILABLE, [], st', f') ∧
     total st' f' = total st f ∧ available st' = len (total st f) ∧
     wf st' ∧ consistent st' f').
Proof.
  intros Hw Hc. split_and!.
  - intros Hr. unfold get_data. cbv zeta. by rewrite Z.max_r, decide_True by lia.
  - intros Hr Hlen. pose proof (get_data_spec r st f Hw Hc Hr) as H.
    destruct (get_data r st f) as [[[[e out] st'] f']|]; [|lia].
    destruct H as (? & ? & H & _). destruct (H Hlen) as (-> & -> & ?). eauto 10.
  - intros Hr Hlen Hends. pose proof (get_data_spec r st f Hw Hc Hr) as H.
    destruct (get_data r st f) as [[[[e out] st'] f']|]; [|destruct H; congruence].
    destruct H as (? & ? & _ & H). destruct (H Hlen) as (-> & -> & ? & ?). eauto 10.
Qed.

(** A stream with one chunk queued and two reports to come. *)
Definition sample : State :=
  wrap (Raw.mk_stream unbounded_channel (mk_chan [Received [x61]] true)).
Definition sample_future : Future := mk_future [Received [x62; x63]; Ended None] true.

Lemma sample_ok : wf sample ∧ consistent sample sample_future.
Proof. split; split; try done; intros [? ?]; done. Qed.

Lemma waiting_read_is_all_or_nothing_witness :
  (2 ≤ 0 → get_data 2 sample sample_future = Some (OK, [], drain sample, sample_future)) ∧
  (0 < 2 → 2 ≤ len (total sample sample_future) → ∃ st' f',
     get_data 2 sample sample_future = Some (OK, [x61; x62], st', f') ∧
     total st' f' = [x63] ∧ wf st' ∧ consistent st' f') ∧
  (0 < 2 → len (total sample sample_future) < 2 → ends sample_future = true → ∃ st' f',
     get_data 2 sample sample_future = Some (ERR_UNAVAILABLE, [], st', f') ∧
     total st' f' = total sample sample_future ∧ available st' = len (total sample sample_future) ∧
     wf st' ∧ consistent st' f').
Proof.
  exact (waiting_read_is_all_or_nothing 2 sample sample_future (proj1 sample_ok) (proj2 sample_ok)).
Defined.

(** A frame is read whole however the network cut it up. If the bytes to
    come start with a header that announces the length of the payload behind it,
    reading the header and then that many bytes returns header and payload and
    leaves exactly what follows them, for every division of the bytes into
    chunks already buffered, queued or still to arrive. *)
Lemma frames_survive_chunking (size : bytes → Z) header payload rest st f :
  wf st → consistent st f →
  total st f = header ++ payload ++ rest →
  0 < len header → 0 < size header → size header = len payload →
  ∃ st1 f1 st2 f2,
    get_data (len header) st f = Some (OK, header, st1, f1) ∧
    get_data (size header) st1 f1 = Some (OK, payload, st2, f2) ∧
    total st2 f2 = rest ∧ wf st2 ∧ consistent st2 f2.
Proof.
  intros Hw Hc Ht Hh Hs Hp.
  assert (∀ r st f b tl, wf st → consistent st f → total st f = b ++ tl → r = len b → 0 < r →
    ∃ st' f', get_data r st f = Some (OK, b, st', f') ∧ total st' f' = tl ∧ wf st' ∧ consistent st' f')
    as Hread.
  { clear. intros r st f b tl Hw Hc Ht -> Hr.
    pose proof (get_data_spec (len b) st f Hw Hc Hr) as H.
    pose proof (len_nonneg tl). rewrite Ht, len_app in H.
    destruct (get_data (len b) st f) as [[[[e out] st'] f']|]; [|lia].
    destruct H as (? & ? & H & _). destruct H as (-> & -> & Htot); [lia|].
    assert (Z.to_nat (len b) = length b) as Hn by (unfold len; lia).
    rewrite Hn, drop_app_length in Htot. exists st', f'. by rewrite Hn, take_app_length. }
  destruct (Hread (len header) st f header (payload ++ rest)) as (st1 & f1 & H1 & Ht1 & ? & ?); auto.
  destruct (Hread (size header) st1 f1 payload rest) as (st2 & f2 & H2 & ? & ? & ?); auto.
  eauto 10.
Qed.

Lemma frames_survive_chunking_witness :
  ∃ st1 f1 st2 f2,
    get_data 1 sample sample_future = Some (OK, [x61], st1, f1) ∧
    get_data 1 st1 f1 = Some (OK, [x62], st2, f2) ∧
    total st2 f2 = [x63] ∧ wf st2 ∧ consistent st2 f2.
Proof.
  refine (frames_survive_chunking (λ _, 1) [x61] [x62] [x63] sample sample_future
    (proj1 sample_ok) (proj2 sample_ok) _ _ _ _); [reflexivity|by_decision..].
Defined.

(** Reading without waiting. The reported count is the number of bytes that
    have arrived, capped at [i32::MAX]; a partial read returns the first of them,
    as many as were asked for and are there, and keeps the rest, so nothing is
    lost, repeated or reordered between partial and waiting reads. *)
Lemma partial_read_takes_what_arrived r st f :
  wf st → consistent st f →
  let arrived := buffered_bytes st ++ queued_bytes (incoming_of st) in
  let '(e, out, st') := get_partial_data r st in
  (get_available_bytes st).1 = Z.min (len arrived) i32_max ∧
  e = OK ∧ out = take (Z.to_nat r) arrived ∧
  buffered_bytes st' = drop (Z.to_nat r) arrived ∧
  out ++ total st' f = total st f ∧ wf st' ∧ consistent st' f.
Proof.
  intros Hw Hc arrived. subst arrived.
  destruct (drain_total st f Hw Hc) as (Ht & Hw1 & Hc1 & Hi1).
  pose proof (drain_spec st Hw) as (Hb & Ha & _). rewrite <- Hb in Ha |- *.
  unfold get_available_bytes, get_partial_data. cbv zeta. cbn [fst]. rewrite Ha.
  set (b := buffered_bytes (drain st)) in *. pose proof (len_nonneg b).
  assert (Z.to_nat (Z.min (Z.max r 0) (len b)) = (Z.to_nat r `min` length b)%nat) as Hmin
    by (unfold len; lia).
  assert (take (Z.to_nat r `min` length b) b = take (Z.to_nat r) b ∧
          drop (Z.to_nat r `min` length b) b = drop (Z.to_nat r) b) as [Htk Hdr].
  { destruct (Nat.le_ge_cases (Z.to_nat r) (length b)); [by rewrite Nat.min_l|].
    by rewrite Nat.min_r, !take_ge, !drop_ge by lia. }
  case_decide as H0.
  - rewrite H0 in Hmin. rewrite <- Hmin in Htk, Hdr. cbn in Htk, Hdr.
    rewrite <- Htk, <- Hdr, Ht. by split_and!.
  - pose proof (take_bytes_spec (Z.min (Z.max r 0) (len b)) (drain st) Hw1) as Hk.
    destruct (take_bytes _ _) as [out st'].
    destruct Hk as (Ho & Hb' & Hw' & Hs & He); [lia|]. fold b in Ho, Hb'.
    rewrite Hmin, Htk in Ho. rewrite Hmin, Hdr in Hb'.
    split_and!; try done.
    + unfold total, incoming_of in *. rewrite Hb', Hs, Ho, app_assoc, take_drop.
      by rewrite <- Ht.
    + destruct Hc1. unfold incoming_of in *. split; unfold incoming_of; rewrite ?Hs, ?He; auto.
Qed.

Lemma partial_read_takes_what_arrived_witness :
  let '(e, out, st') := get_partial_data 5 sample in
  (get_available_bytes sample).1 = Z.min (len [x61]) i32_max ∧
  e = OK ∧ out = [x61] ∧ buffered_bytes st' = [] ∧
  out ++ total st' sample_future = total sample sample_future ∧
  wf st' ∧ consistent st' sample_future.
Proof.
  exact (partial_read_takes_what_arrived 5 sample sample_future (proj1 sample_ok) (proj2 sample_ok)).
Defined.

(** What a closed stream answers. Closing discards what was buffered; a
    waiting read then fails at once and a put reports the end of the file, as
    documented, but a partial read still answers [OK], with no bytes. The reason
    of an earlier end is kept, and an abort is refused. *)
Lemma closed_stream_answers r data st f :
  let c := close st in
  wf c ∧ (0 < r → get_data r c f = Some (ERR_UNAVAILABLE, [], c, f)) ∧
  get_partial_data r c = (OK, [], c) ∧
  (0 < r → put_data data r c = (ERR_FILE_EOF, c, 0)) ∧
  (get_available_bytes c).1 = 0 ∧ (is_open c).1 = false ∧
  (get_error c).1 = (match ended st with Some (Some reason) => reason | _ => "" end) ∧
  abort r c = (c, false) ∧ finish c = c.
Proof.
  intros c. unfold get_data, get_partial_data, put_data, get_available_bytes, is_open. cbn.
  split_and!; try done; try (by destruct (bool_decide _)).
  - intros Hr. rewrite decide_False by lia. cbn. unfold fill. rewrite Nat.add_comm. cbn [fill_fuel Nat.add].
    case_decide; cbn; by rewrite decide_True by lia.
  - by rewrite decide_True by lia.
  - intros Hr. by rewrite !decide_False by lia.
Qed.
