(* ===== verification/Conduit.v ===== *)
(** * Two streams and the network between them ([stream.rs] over [raw.rs])

    An [IrohStream] on either side of one QUIC stream: the object a game puts to
    and gets from, the handle inside it, the two tasks behind the handle, and the
    bytes of the sending half, which the receiving half of the other side is given
    in pieces of any size, at any time. *)

From S2P Require Import Prelude.
From S2P Require Raw Stream.

(** ** One side *)

(** The handle is kept with its tasks, and installed in the object while the main
    thread uses it. [put] and [got] are what the game put, answered [OK], and what its reads returned. *)
Record End : Type := mk_end {
  object : Stream.State;
  tasks : Raw.Run;
  put : list bytes;
  got : bytes;
}.

Definition handle_of (r : Raw.Run) : Raw.Stream := Raw.stream (Raw.system r).
Definition carry_of (r : Raw.Run) : Raw.Carry := Raw.carry (Raw.system r).
Definition held (r : Raw.Run) : bool := Raw.held (Raw.system r).

(** [IrohStream::wrap] of a stream just opened or accepted. *)
Definition start (s : Raw.System) : End :=
  mk_end (Stream.wrap (Raw.stream s)) (Raw.begin s) [] [].

Definition install (e : End) : Stream.State :=
  if held (tasks e) then Stream.set_stream (Some (handle_of (tasks e))) (object e) else object e.

(** The main thread has used the object: the handle may have queued chunks and
    lost reports, or be gone. *)
Definition put_back (o : Stream.State) (r : Raw.Run) : Raw.Run :=
  match Stream.stream o with
  | Some s =>
      let old := handle_of r in
      Raw.mk_run (Raw.mk_system s (carry_of r))
        (Raw.accepted r ++ drop (length (queue (Raw.outgoing old))) (queue (Raw.outgoing s)))
        (Raw.network r)
        (Raw.taken r ++ take (length (queue (Raw.incoming old)) - length (queue (Raw.incoming s)))
                          (queue (Raw.incoming old)))
  | None => if held r then Raw.step r Raw.DropStream else r
  end.

Definition use (o : Stream.State) (ds : list bytes) (out : bytes) (e : End) : End :=
  mk_end o (put_back o (tasks e)) (put e ++ ds) (got e ++ out).

(** The reader task has returned, and its end of the channel with it. *)
Definition reader_gone (r : Raw.Run) : bool :=
  negb (Raw.opening (carry_of r) || Raw.reading (carry_of r)).

(** ** The bytes of a stream *)

Definition wrotes (l : list Raw.Outgoing) : list bytes :=
  omap (λ o, match o with Raw.Wrote d | Raw.WrotePart d => Some d | _ => None end) l.

#[export] Instance outgoing_eq_dec : EqDecision Raw.Outgoing.
Proof. solve_decision. Defined.

#[export] Instance read_eq_dec : EqDecision Raw.Read.
Proof. solve_decision. Defined.

(** What the accepted chunks ask the sending half to put on the stream: the data up
    to the first finish or abort. *)
Fixpoint promised (l : list Raw.Chunk) : bytes :=
  match l with
  | Raw.Data d :: l => d ++ promised l
  | _ => []
  end.

(** What the sending half has put on the stream, and whether it ended it. *)
Definition wire (e : End) : bytes := mjoin (wrotes (Raw.sent (carry_of (tasks e)))).
Definition finished (e : End) : bool :=
  bool_decide (Raw.SentFinish ∈ Raw.sent (carry_of (tasks e))).

Definition chunks_of (l : list Raw.Read) : list bytes :=
  omap (λ x, match x with Raw.ReadChunk d => Some d | _ => None end) l.

(** What the receiving half was given. *)
Definition received (e : End) : bytes := mjoin (chunks_of (Raw.network (tasks e))).

(** ** Steps *)

Inductive Label : Type :=
  (** the main thread *)
  | Put (data : bytes) (p_bytes : Z)
  | Get (r_bytes : Z)
  | GetPartial (r_bytes : Z)
  | Look
  | FinishIt
  | AbortIt (code : Z)
  | CloseIt
  (** the tasks: a stream opened, a chunk written or failing after some bytes, an
      abort noticed *)
  | Opens (result : option string)
  | Writes (failure : option nat)
  | SeesAbort
  (** the network: some bytes, the end, a failure *)
  | Deliver (n : nat)
  | DeliverEnd
  | DeliverError (err : string).

Definition raw (l : Raw.Label) (e : End) : End :=
  mk_end (object e) (Raw.step (tasks e) l) (put e) (got e).

(** One step of a side; [remote] is the other one. A waiting read is the moment it
    returns: until then nothing happens on the main thread. *)
Definition end_step (remote : End) (l : Label) (e : End) : End :=
  match l with
  | Put data n =>
      let '(_, o, sent) := Stream.put_data data n (install e) in
      use o (if decide (0 < sent) then [take (Z.to_nat sent) data] else []) [] e
  | Get n =>
      match Stream.get_data n (install e) (Stream.mk_future [] (reader_gone (tasks e))) with
      | Some (_, out, o, _) => use o [] out e
      | None => e
      end
  | GetPartial n => let '(_, out, o) := Stream.get_partial_data n (install e) in use o [] out e
  | Look => use (Stream.drain (install e)) [] [] e
  | FinishIt => use (Stream.finish (install e)) [] [] e
  | AbortIt code => use (Stream.abort code (install e)).1 [] [] e
  | CloseIt => use (Stream.close (install e)) [] [] e
  | Opens result => raw (Raw.OpenReturns result) e
  | Writes failure => raw (Raw.WriterRuns failure) e
  | SeesAbort => raw Raw.ReaderSeesAbort e
  | Deliver n =>
      let d := take (n `min` Z.to_nat Raw.READ_CHUNK) (drop (length (received e)) (wire remote)) in
      if decide (d = []) then e else raw (Raw.ReaderReads (Raw.ReadChunk d)) e
  | DeliverEnd =>
      if finished remote && bool_decide (length (received e) = length (wire remote)) then
        raw (Raw.ReaderReads Raw.ReadEnd) e
      else e
  | DeliverError err => raw (Raw.ReaderReads (Raw.ReadError err)) e
  end.

Record Conduit : Type := mk_conduit {
  here : End;
  there : End;
}.

Definition step (c : Conduit) (l : bool * Label) : Conduit :=
  let '(mine, l) := l in
  if mine then mk_conduit (end_step (there c) l (here c)) (there c)
  else mk_conduit (here c) (end_step (here c) l (there c)).

Definition run (c : Conduit) (ls : list (bool * Label)) : Conduit := foldl step c ls.

(** One side opened the stream, the other accepted it. *)
Definition opened : Conduit := mk_conduit (start (Raw.open true)) (start Raw.adopt).

(** ** The object moves the handle as its calls say *)

(** Every use of the object is a number of calls of the handle. *)
Lemma put_back_reads o r k q a og :
  held r = true → handle_of r = Raw.mk_stream og (mk_chan q a) → (k ≤ length q)%nat →
  Stream.stream o = Some (Raw.mk_stream og (mk_chan (drop k q) a)) →
  put_back o r = foldl Raw.step r (replicate k Raw.CallTryRecv).
Proof.
  intros Hd Hh Hk Ho. unfold put_back. rewrite Ho, Hh. cbn. rewrite drop_all, app_nil_r, length_drop.
  replace (length q - (length q - k))%nat with k by lia. clear Ho.
  revert r q Hd Hh Hk. induction k as [|k IH]; intros r q Hd Hh Hk; cbn.
  - destruct r as [[st c] acc net tk]. unfold handle_of, carry_of in *. cbn in *. subst st.
    by rewrite drop_0, app_nil_r.
  - destruct q as [|i q]; cbn in Hk; [lia|]. unfold held in Hd. rewrite Hd.
    destruct r as [[st c] acc net tk]. unfold handle_of in Hh. cbn in Hh. subst st. cbn.
    rewrite <- (IH (Raw.mk_run (Raw.mk_system (Raw.mk_stream og (mk_chan q a)) c) acc net (tk ++ [i])) q); [|done|done|lia].
    cbn. by rewrite <- app_assoc.
Qed.

Lemma put_back_call o r ch :
  held r = true → Stream.stream o = Some (Raw.enqueue ch (handle_of r)).1 →
  put_back o r = Raw.call ch r.
Proof.
  intros Hd Ho. unfold put_back, Raw.call. rewrite Ho. unfold held in Hd. rewrite Hd.
  destruct r as [[[[q al] i] c] acc net tk]. unfold handle_of, carry_of, Raw.enqueue, chan_send. cbn.
  destruct al; cbn; rewrite Nat.sub_diag, take_0, app_nil_r.
  - by rewrite drop_app_length.
  - by rewrite drop_all.
Qed.

(** Pulling in takes the whole queue, which ends with the reader's last report. *)
Lemma drain_handle st og q a :
  Stream.stream st = Some (Raw.mk_stream og (mk_chan q a)) → Stream.reader_reports q →
  Stream.stream (Stream.drain st) = Some (Raw.mk_stream og (mk_chan [] a)).
Proof.
  destruct st as [[[o [q' a']]|] bs av en]; [|done]. intros [= -> -> ->] Hr.
  unfold Stream.drain. cbn -[Stream.drain_fuel].
  destruct (Stream.drain_fuel_end (S (length q)) q og a bs av en) as (bs' & -> & _); [lia|].
  cbn. by rewrite Hr.
Qed.

(** Waiting on the main thread, once the queue is empty: the wait ends with what
    is there, or because nothing more can come. *)
Lemma fill_here wanted st gone :
  Stream.incoming_of st = [] →
  Stream.fill wanted st (Stream.mk_future [] gone) =
    if decide (Stream.available st < wanted ∧ Stream.ended st = None) then
      match Stream.stream st with
      | None => Some (st, Stream.mk_future [] gone)
      | Some s =>
          if gone then Some (Stream.set_ended (Some "the stream's task ended"%string) st, Stream.mk_future [] gone)
          else None
      end
    else Some (st, Stream.mk_future [] gone).
Proof.
  intros Hq. unfold Stream.fill. rewrite Hq. cbn [length Nat.add Stream.arrivals Stream.fill_fuel].
  case_decide as Hd; [|done].
  destruct st as [[[og [q a]]|] bs av en]; [|done]. cbn in Hq, Hd |- *. subst q.
  destruct gone; [|done]. cbn. rewrite decide_False; [done|]. by intros [_ ?].
Qed.

(** What a read does, apart from its error code. *)
Record reads (st : Stream.State) (gone : bool) (out : bytes) (o : Stream.State) : Prop := {
  reads_stream : Stream.stream o = Stream.stream (Stream.drain st);
  reads_bytes : Stream.buffered_bytes (Stream.drain st) = out ++ Stream.buffered_bytes o;
  reads_wf : Stream.wf o;
  reads_ended : Stream.ended o = Stream.ended (Stream.drain st) ∨
    gone = true ∧ Stream.ended (Stream.drain st) = None ∧
    Stream.ended o = Some (Some "the stream's task ended"%string);
}.

Lemma reads_nothing st gone :
  Stream.wf st → Stream.reader_reports (Stream.incoming_of st) → reads st gone [] (Stream.drain st).
Proof. intros Hw Hr. split; auto. by apply Stream.drain_wf. Qed.

Lemma reads_some st gone n o :
  Stream.wf st → Stream.reader_reports (Stream.incoming_of st) →
  reads st gone [] o → 0 ≤ n ≤ Stream.available o →
  let '(out, o') := Stream.take_bytes n o in reads st gone out o'.
Proof.
  intros Hw Hr [Hs Hb Hwo He] Hn. pose proof (Stream.take_bytes_spec n o Hwo Hn) as Ht.
  destruct (Stream.take_bytes n o) as [out o']. destruct Ht as (-> & Hb' & Hw' & Hs' & He').
  split; [by rewrite Hs'| |done|by rewrite He'].
  cbn in Hb. by rewrite Hb, Hb', take_drop.
Qed.

Lemma get_data_reads n st gone :
  Stream.wf st → Stream.reader_reports (Stream.incoming_of st) →
  match Stream.get_data n st (Stream.mk_future [] gone) with
  | Some (_, out, o, _) => reads st gone out o
  | None => True
  end.
Proof.
  intros Hw Hr. unfold Stream.get_data. cbv zeta.
  pose proof (reads_nothing st gone Hw Hr) as Hn. case_decide as H0; [done|].
  assert (Stream.incoming_of (Stream.drain st) = []) as Hi.
  { destruct (Stream.drain_spec st Hw) as (_ & _ & _ & -> & _). exact Hr. }
  rewrite fill_here by done. set (o := Stream.drain st) in *.
  assert (∀ o', reads st gone [] o' →
    match (if decide (Stream.available o' < n `max` 0) then
             Some (Stream.ERR_UNAVAILABLE, [], o', Stream.mk_future [] gone)
           else let '(out, st) := Stream.take_bytes (n `max` 0) o' in
                Some (Stream.OK, out, st, Stream.mk_future [] gone)) with
    | Some (_, out, o'', _) => reads st gone out o''
    | None => True
    end) as Htake.
  { intros o' Ho'. case_decide; [done|]. pose proof (reads_some st gone (n `max` 0) o' Hw Hr Ho') as Ht.
    destruct (Stream.take_bytes _ o'). apply Ht. lia. }
  case_decide as Hd; [|by apply Htake].
  destruct (Stream.stream o) as [s|] eqn:Hs; [|by apply Htake].
  destruct gone; [|done]. apply Htake. destruct Hn as [Hns Hnb [Ha Hen Hc] Hne].
  split; cbn; [done|done| |right; by destruct Hd].
  split; cbn; auto.
Qed.

Lemma get_partial_reads n st gone :
  Stream.wf st → Stream.reader_reports (Stream.incoming_of st) →
  let '(_, out, o) := Stream.get_partial_data n st in reads st gone out o.
Proof.
  intros Hw Hr. unfold Stream.get_partial_data. cbv zeta.
  pose proof (reads_nothing st gone Hw Hr) as Hn. case_decide as H0; [done|].
  pose proof (reads_some st gone (Z.min (n `max` 0) (Stream.available (Stream.drain st))) _ Hw Hr Hn) as Ht.
  destruct (Stream.take_bytes _ _) as [out o]. apply Ht.
  pose proof (Stream.wf_available _ (reads_wf _ _ _ _ Hn)) as Ha. pose proof (len_nonneg (Stream.buffered_bytes (Stream.drain st))).
  lia.
Qed.

(** ** What holds of a side *)

Record end_ok (e : End) : Prop := {
  e_reading : Raw.reading_ok (tasks e);
  e_writing : Raw.writing_ok (tasks e);
  e_held : held (tasks e) = bool_decide (is_Some (Stream.stream (object e)));
  e_wf : Stream.wf (install e);
  e_bytes : held (tasks e) = true →
    Stream.queued_bytes (Raw.taken (tasks e)) = got e ++ Stream.buffered_bytes (object e);
  e_got : got e `prefix_of` received e;
  e_ended : held (tasks e) = true →
    Stream.ended (object e) = Stream.queued_end (Raw.taken (tasks e)) ∨
    Stream.queued_end (Raw.taken (tasks e)) = None ∧ reader_gone (tasks e) = true ∧
    Stream.ended (object e) = Some (Some "the stream's task ended"%string);
  e_put : Raw.datas (Raw.accepted (tasks e)) = put e;
  e_wire : wire e `prefix_of` promised (Raw.accepted (tasks e));
}.

Lemma queued_bytes_chunks cs last :
  Stream.queued_bytes (Raw.to_incoming <$> ((Raw.ReadChunk <$> cs) ++ option_list last)) =
    mjoin (chunks_of ((Raw.ReadChunk <$> cs) ++ option_list last)).
Proof.
  induction cs as [|c cs IH]; cbn.
  - destruct last as [[d| |err]|]; cbn; by rewrite ?app_nil_r.
  - by rewrite IH.
Qed.

Lemma queued_bytes_received r :
  Raw.reading_ok r →
  Stream.queued_bytes (Raw.to_incoming <$> Raw.network r) = mjoin (chunks_of (Raw.network r)).
Proof. intros [_ _ (cs & last & ->) _]. apply queued_bytes_chunks. Qed.

Lemma queued_bytes_prefix q q' : Stream.queued_bytes q `prefix_of` Stream.queued_bytes (q ++ q').
Proof.
  induction q as [|[d|reason] q IH]; cbn; [apply prefix_nil|by apply prefix_app|apply prefix_nil].
Qed.

Lemma queued_end_app q q' :
  (is_Some (Stream.queued_end q) → q' = []) →
  Stream.queued_end (q ++ q') =
    match Stream.queued_end q with Some r => Some r | None => Stream.queued_end q' end.
Proof. induction q as [|[d|reason] q IH]; cbn; intros Hq; [done|by apply IH|done]. Qed.

(** The reports waiting are those of one reader. *)
Lemma reports_after q q' : Stream.reader_reports (q ++ q') → Stream.reader_reports q'.
Proof. intros Hr. by apply Stream.reports_app in Hr as (_ & _ & ?). Qed.

Lemma reports_network r : Raw.reading_ok r → Stream.reader_reports (Raw.to_incoming <$> Raw.network r).
Proof.
  intros [_ _ (cs & last & ->) _]. unfold Stream.reader_reports.
  induction cs as [|c cs IH]; [|done]. by destruct last as [[]|].
Qed.

Lemma held_queue r : Raw.reading_ok r → held r = true →
  Raw.taken r ++ queue (Raw.incoming (handle_of r)) = Raw.to_incoming <$> Raw.network r ∧
  Stream.reader_reports (Raw.taken r ++ queue (Raw.incoming (handle_of r))) ∧
  Stream.reader_reports (queue (Raw.incoming (handle_of r))).
Proof.
  intros Hok Hd. pose proof (Raw.reading_reports _ Hok Hd) as Hq.
  pose proof (reports_network r Hok) as Hr. rewrite <- Hq in Hr.
  split_and!; [done|done|by eapply reports_after].
Qed.

Lemma install_held e : held (tasks e) = true →
  install e = Stream.set_stream (Some (handle_of (tasks e))) (object e).
Proof. intros Hd. unfold install. by rewrite Hd. Qed.

Lemma install_gone e : end_ok e → held (tasks e) = false →
  install e = object e ∧ Stream.stream (object e) = None.
Proof.
  intros He Hd. unfold install. rewrite Hd. split; [done|].
  pose proof (e_held _ He) as Hh. rewrite Hd in Hh. symmetry in Hh. apply bool_decide_eq_false in Hh.
  by apply eq_None_not_Some.
Qed.

(** Bytes of the handle's history that do not depend on who reads. *)
Lemma datas_app l k : Raw.datas (l ++ k) = Raw.datas l ++ Raw.datas k.
Proof. apply omap_app. Qed.

Lemma replicate_recv_fields r k :
  let r' := foldl Raw.step r (replicate k Raw.CallTryRecv) in
  carry_of r' = carry_of r ∧ Raw.accepted r' = Raw.accepted r ∧ Raw.network r' = Raw.network r ∧
  held r' = held r.
Proof.
  revert r. induction k as [|k IH]; intros r; [done|]. cbn [replicate foldl]. cbv zeta.
  destruct (IH (Raw.step r Raw.CallTryRecv)) as (-> & -> & -> & ->).
  destruct r as [[[og [q a]] c] acc net tk]. unfold held, carry_of, Raw.held. cbn.
  destruct a; [|done]. by destruct q.
Qed.

Lemma replicate_recv_ok r k :
  Raw.reading_ok r → Raw.writing_ok r →
  let r' := foldl Raw.step r (replicate k Raw.CallTryRecv) in Raw.reading_ok r' ∧ Raw.writing_ok r'.
Proof.
  intros Hr Hw. split.
  - apply (foldl_preserves Raw.step Raw.reading_ok); [done|apply Raw.reading_ok_step].
  - apply (foldl_preserves Raw.step Raw.writing_ok); [done|apply Raw.writing_ok_step].
Qed.

Lemma promised_app l k : promised l `prefix_of` promised (l ++ k).
Proof. induction l as [|[d| |code] l IH]; cbn; [apply prefix_nil|by apply prefix_app|done..]. Qed.

Lemma promised_data ds l : promised ((Raw.Data <$> ds) ++ l) = mjoin ds ++ promised l.
Proof. induction ds as [|d ds IH]; [done|]. cbn. by rewrite IH, app_assoc. Qed.

(** What the object does to the history, as far as writing goes. *)
Record same_writing (e e' : End) : Prop := {
  same_carry : carry_of (tasks e') = carry_of (tasks e);
  same_network : Raw.network (tasks e') = Raw.network (tasks e);
  grows_accepted : Raw.accepted (tasks e) `prefix_of` Raw.accepted (tasks e');
  grows_got : got e `prefix_of` got e';
  stays_dropped : held (tasks e) = false →
    held (tasks e') = false ∧ Raw.accepted (tasks e') = Raw.accepted (tasks e);
}.

Lemma same_writing_wire e e' : same_writing e e' →
  wire e' = wire e ∧ finished e' = finished e ∧ received e' = received e ∧
  reader_gone (tasks e') = reader_gone (tasks e).
Proof. intros [Hc Hn _ _ _]. unfold wire, finished, received, reader_gone. by rewrite Hc, Hn. Qed.

(** The history after a read. *)
Lemma put_back_all o r og q a :
  held r = true → handle_of r = Raw.mk_stream og (mk_chan q a) →
  Stream.stream o = Some (Raw.mk_stream og (mk_chan [] a)) →
  Raw.reading_ok r → Raw.writing_ok r →
  let r' := put_back o r in
  Raw.reading_ok r' ∧ Raw.writing_ok r' ∧ carry_of r' = carry_of r ∧
  Raw.accepted r' = Raw.accepted r ∧ Raw.network r' = Raw.network r ∧ held r' = held r ∧
  Raw.taken r' = Raw.taken r ++ q ∧ handle_of r' = Raw.mk_stream og (mk_chan [] a).
Proof.
  intros Hd Hh Ho Hr Hw r'.
  assert (r' = foldl Raw.step r (replicate (length q) Raw.CallTryRecv)) as Hr'.
  { unfold r'. eapply put_back_reads; [done|exact Hh|done|]. by rewrite drop_all. }
  destruct (replicate_recv_ok r (length q) Hr Hw) as [? ?].
  destruct (replicate_recv_fields r (length q)) as (? & ? & ? & ?).
  assert (Raw.taken r' = Raw.taken r ++ q ∧ handle_of r' = Raw.mk_stream og (mk_chan [] a)) as [Ht Hh'].
  { unfold r', put_back. rewrite Ho, Hh. cbn. by rewrite Nat.sub_0_r, firstn_all. }
  rewrite <- Hr' in *. by split_and!.
Qed.

(** The end the object knows of. [st] is the object after it drained [q]. *)
Lemma ended_after e st o q :
  end_ok e → held (tasks e) = true →
  (is_Some (Stream.ended (object e)) → q = []) →
  (is_Some (Stream.queued_end (Raw.taken (tasks e))) → q = []) →
  Stream.ended st = (match Stream.queued_end q with Some r => Some r | None => Stream.ended (object e) end) →
  Stream.ended o = Stream.ended st ∨ reader_gone (tasks e) = true ∧ Stream.ended st = None ∧
    Stream.ended o = Some (Some "the stream's task ended"%string) →
  Stream.ended o = Stream.queued_end (Raw.taken (tasks e) ++ q) ∨
  Stream.queued_end (Raw.taken (tasks e) ++ q) = None ∧ reader_gone (tasks e) = true ∧
  Stream.ended o = Some (Some "the stream's task ended"%string).
Proof.
  intros He Hd Hq1 Hq2 Hst Ho. rewrite queued_end_app by done.
  assert (Stream.queued_end (Raw.taken (tasks e)) = None →
    Stream.ended st = None → Stream.queued_end q = None) as Hnone.
  { intros _ Hn. rewrite Hn in Hst. by destruct (Stream.queued_end q). }
  destruct (e_ended _ He Hd) as [Hen|(Hn & Hg & Hen)]; rewrite Hen in Hst, Hq1.
  - destruct (Stream.queued_end (Raw.taken (tasks e))) as [r|].
    + rewrite Hq2 in Hst by eauto. cbn in Hst. destruct Ho as [->|(_ & ? & _)]; [by left|congruence].
    + assert (Stream.ended st = Stream.queued_end q) as Hst' by (rewrite Hst; by destruct (Stream.queued_end q)).
      destruct Ho as [->|(? & Hs & ?)]; [by left|right]. rewrite <- Hst'. by split_and!.
  - rewrite Hq1 in Hst |- * by eauto. cbn in Hst. rewrite Hn. cbn. right.
    destruct Ho as [->|(_ & ? & _)]; [by split_and!|congruence].
Qed.

Lemma read_ok e out o :
  end_ok e → held (tasks e) = true → reads (install e) (reader_gone (tasks e)) out o →
  end_ok (use o [] out e) ∧ same_writing e (use o [] out e).
Proof.
  intros He Hd [Hs Hb Hw Hen]. pose proof He as [Hre Hwr Hhe Hwf Hby Hgo Hed Hpu Hwi].
  destruct (held_queue _ Hre Hd) as (Hnet & Hrep & Hrepq).
  destruct (handle_of (tasks e)) as [og [q a]] eqn:Hh. cbn in Hnet, Hrep, Hrepq.
  pose proof (install_held e Hd) as Hin. rewrite Hh in Hin.
  assert (Stream.stream (install e) = Some (Raw.mk_stream og (mk_chan q a))) as Hsi by by rewrite Hin.
  rewrite (drain_handle _ og q a Hsi Hrepq) in Hs.
  destruct (Stream.drain_spec (install e) Hwf) as (Hdb & _ & Hde & _).
  assert (Stream.incoming_of (install e) = q) as Hi by (unfold Stream.incoming_of; by rewrite Hsi).
  rewrite Hi in Hdb, Hde.
  assert (Stream.buffered_bytes (install e) = Stream.buffered_bytes (object e) ∧
          Stream.ended (install e) = Stream.ended (object e)) as [Eb Ee] by by rewrite Hin.
  rewrite Eb in Hdb. rewrite Ee in Hde.
  destruct (put_back_all o (tasks e) og q a Hd Hh Hs Hre Hwr)
    as (Hre' & Hwr' & Hc & Hac & Hn & Hd' & Ht & Hh'). cbv zeta in *.
  pose proof (Stream.reports_app _ _ Hrep) as (_ & Hlast & _).
  assert (same_writing e (use o [] out e)) as Hsame.
  { split; cbn; try done; [by rewrite Hac|by apply prefix_app_r|]. by rewrite Hd. }
  split; [|done]. destruct (same_writing_wire _ _ Hsame) as (Ewi & Efi & Erc & Erg).
  assert (Stream.queued_bytes (Raw.taken (tasks e) ++ q) = (got e ++ out) ++ Stream.buffered_bytes o) as Hq.
  { rewrite Stream.queued_bytes_app, (Hby Hd) by exact Hlast. by rewrite <- !app_assoc, <- Hb, Hdb. }
  split; rewrite ?Ewi, ?Efi, ?Erc; cbn [use tasks object got put];
    rewrite ?Hc, ?Hac, ?Hn, ?Hd', ?Ht, ?app_nil_r; auto.
  - by rewrite Hd, Hs.
  - rewrite install_held by (cbn; by rewrite Hd'). cbn. rewrite Hh'. by destruct o; cbn in *; subst.
  - unfold received. rewrite <- (queued_bytes_received _ Hre), <- Hnet, Hq. by apply prefix_app_r.
  - intros _.
    change (Stream.ended o = Stream.queued_end (Raw.taken (tasks e) ++ q) ∨
      Stream.queued_end (Raw.taken (tasks e) ++ q) = None ∧ reader_gone (tasks (use o [] out e)) = true ∧
      Stream.ended o = Some (Some "the stream's task ended"%string)).
    rewrite Erg. apply (ended_after e (Stream.drain (install e)) o q); try done.
    intros Hx. rewrite <- Hi. apply (Stream.wf_ended _ Hwf). by rewrite Ee.
Qed.

(** A chunk queued by the object. *)
Lemma call_ok e ch ds o :
  end_ok e → held (tasks e) = true →
  o = Stream.set_stream (Some (Raw.enqueue ch (handle_of (tasks e))).1) (install e) →
  ds = (if (Raw.enqueue ch (handle_of (tasks e))).2 then Raw.datas [ch] else []) →
  end_ok (use o ds [] e) ∧ same_writing e (use o ds [] e).
Proof.
  intros He Hd -> ->. pose proof He as [Hre Hwr Hhe Hwf Hby Hgo Hed Hpu Hwi].
  rewrite (install_held e Hd) in *. set (o := Stream.set_stream _ (Stream.set_stream _ (object e))).
  assert (put_back o (tasks e) = Raw.call ch (tasks e)) as Hcall by (by apply put_back_call).
  assert (carry_of (Raw.call ch (tasks e)) = carry_of (tasks e) ∧
    Raw.network (Raw.call ch (tasks e)) = Raw.network (tasks e) ∧
    Raw.taken (Raw.call ch (tasks e)) = Raw.taken (tasks e) ∧
    held (Raw.call ch (tasks e)) = true ∧
    handle_of (Raw.call ch (tasks e)) = (Raw.enqueue ch (handle_of (tasks e))).1 ∧
    Raw.accepted (Raw.call ch (tasks e)) =
      Raw.accepted (tasks e) ++ if (Raw.enqueue ch (handle_of (tasks e))).2 then [ch] else [])
    as (Hc & Hn & Ht & Hd' & Hh & Hac).
  { unfold Raw.call, carry_of, handle_of, held in *. rewrite Hd. unfold Raw.enqueue, Raw.held in *.
    destruct (chan_send _ ch) as [og ok]. by split_and!. }
  set (ds := if (Raw.enqueue ch _).2 then _ else _).
  assert (same_writing e (use o ds [] e)) as Hsame.
  { split; cbn [use tasks object got put]; rewrite ?Hcall, ?Hac, ?app_nil_r; try done;
      [by apply prefix_app_r|by rewrite Hd]. }
  split; [|done]. destruct (same_writing_wire _ _ Hsame) as (Ewi & Efi & Erc & Erg).
  split; rewrite ?Ewi, ?Efi, ?Erc, ?Erg; cbn [use tasks object got put];
    rewrite ?Hcall, ?Hc, ?Hac, ?Hn, ?Hd', ?Ht, ?app_nil_r; auto.
  - by apply Raw.reading_ok_call.
  - by apply Raw.writing_ok_call.
  - rewrite install_held by (change (held (put_back o (tasks e)) = true); by rewrite Hcall).
    change (Stream.wf (Stream.set_stream (Some (handle_of (put_back o (tasks e)))) o)). rewrite Hcall, Hh.
    destruct Hwf as [Ha Hen _]. split; cbn in *; [done| |done].
    intros Hx. rewrite <- (Hen Hx). unfold Stream.incoming_of. cbn. unfold Raw.enqueue. by destruct (chan_send _ ch).
  - rewrite datas_app, Hpu. f_equal. unfold ds. by destruct (Raw.enqueue ch _).2.
  - etrans; [exact Hwi|]. apply promised_app.
Qed.

(** The object gives the handle up, or never had it back. *)
Lemma gone_ok e o :
  end_ok e → Stream.stream o = None → Stream.wf o →
  end_ok (use o [] [] e) ∧ same_writing e (use o [] [] e).
Proof.
  intros He Ho Hw. pose proof He as [Hre Hwr Hhe Hwf Hby Hgo Hed Hpu Hwi].
  assert (∃ r', put_back o (tasks e) = r' ∧ Raw.reading_ok r' ∧ Raw.writing_ok r' ∧ held r' = false ∧
    carry_of r' = carry_of (tasks e) ∧ Raw.network r' = Raw.network (tasks e) ∧
    Raw.accepted r' = Raw.accepted (tasks e)) as (r' & Hr & Hre' & Hwr' & Hd' & Hc & Hn & Hac).
  { unfold put_back. rewrite Ho. destruct (held (tasks e)) eqn:Hd; eexists; (split; [done|]); [|by split_and!].
    split_and!; try done; [by apply Raw.reading_ok_step|by apply Raw.writing_ok_step]. }
  assert (same_writing e (use o [] [] e)) as Hsame.
  { split; cbn [use tasks object got put]; rewrite ?Hr, ?Hac, ?app_nil_r; done. }
  split; [|done]. destruct (same_writing_wire _ _ Hsame) as (Ewi & Efi & Erc & Erg).
  split; rewrite ?Ewi, ?Efi, ?Erc, ?Erg; cbn [use tasks object got put];
    rewrite ?Hr, ?Hc, ?Hac, ?Hn, ?Hd', ?Ho, ?app_nil_r; auto; try done.
  unfold install. cbn. by rewrite Hr, Hd'.
Qed.

(** ** The tasks *)

Definition by_tasks (l : Raw.Label) : bool :=
  match l with
  | Raw.OpenReturns _ | Raw.WriterRuns _ | Raw.ReaderSeesAbort | Raw.ReaderReads _ => true
  | _ => false
  end.

Lemma by_tasks_fields l r :
  by_tasks l = true →
  let r' := Raw.step r l in
  Raw.taken r' = Raw.taken r ∧ Raw.accepted r' = Raw.accepted r ∧ held r' = held r ∧
  Raw.network r `prefix_of` Raw.network r' ∧
  (reader_gone r = true → Raw.incoming (handle_of r') = Raw.incoming (handle_of r) ∧ reader_gone r' = true).
Proof.
  intros Hl. unfold reader_gone, held, handle_of, carry_of.
  destruct r as [[[og [q a]] [op st wr ab abl re sp]] acc net tk].
  destruct l as [| | | | |result|failure| |x]; try done; cbn; unfold Raw.held; cbn.
  - destruct op; cbn; [|destruct result; cbn; rewrite app_nil_r; by split_and!].
    destruct result; cbn; split_and!; try done; try by apply prefix_app_r. by destruct a.
  - unfold Raw.writer_step. cbn. destruct wr; cbn; [|by split_and!].
    destruct (chan_try_recv og) as [[[d| |code]|] o]; [destruct failure| | |destruct a]; cbn; by split_and!.
  - unfold Raw.reader_abort_step. cbn. destruct re, abl; cbn; try by split_and!.
    destruct ab; [destruct wr|]; cbn; split_and!; try done; intros [_ ?]%negb_true_iff%orb_false_iff; done.
  - unfold Raw.reader_chunk_step. cbn. destruct re; cbn.
    + rewrite orb_true_r. destruct x, a; cbn; split_and!; try done; by apply prefix_app_r.
    + rewrite app_nil_r. by split_and!.
Qed.

Lemma chunks_of_app l k : chunks_of (l ++ k) = chunks_of l ++ chunks_of k.
Proof. apply omap_app. Qed.

Lemma received_grows e e' :
  Raw.network (tasks e) `prefix_of` Raw.network (tasks e') → received e `prefix_of` received e'.
Proof. intros [k Hk]. unfold received. rewrite Hk, chunks_of_app, join_app. by apply prefix_app_r. Qed.

(** What the object knows of is an end its reader reported, or that it is gone. *)
Lemma ended_gone e : end_ok e → held (tasks e) = true → is_Some (Stream.ended (object e)) →
  reader_gone (tasks e) = true.
Proof.
  intros He Hd Hen. destruct (e_ended _ He Hd) as [Heq|(_ & ? & _)]; [|done].
  unfold reader_gone. apply negb_true_iff, not_true_iff_false. intros Hor.
  pose proof (Raw.reading_live _ (e_reading _ He) Hor) as Hall.
  destruct (held_queue _ (e_reading _ He) Hd) as (Hq & _ & _).
  apply Raw.all_chunks in Hall as [cs Hcs]. rewrite Hcs in Hq.
  assert (Stream.queued_end (Raw.taken (tasks e)) = None) as Hnone.
  { clear -Hq. revert cs Hq. induction (Raw.taken (tasks e)) as [|i l IH]; intros cs Hq; [done|].
    destruct cs as [|c cs]; [done|]. injection Hq as -> Hq. by apply (IH cs). }
  rewrite Heq, Hnone in Hen. by destruct Hen.
Qed.

Lemma raw_ok l e :
  end_ok e → by_tasks l = true → wire (raw l e) `prefix_of` promised (Raw.accepted (tasks e)) →
  end_ok (raw l e).
Proof.
  intros He Hl Hwire. pose proof He as [Hre Hwr Hhe Hwf Hby Hgo Hed Hpu Hwi].
  destruct (by_tasks_fields l (tasks e) Hl) as (Ht & Ha & Hd & Hn & Hg).
  split; cbn [raw tasks object got put]; rewrite ?Ht, ?Ha, ?Hd; auto.
  - by apply Raw.reading_ok_step.
  - by apply Raw.writing_ok_step.
  - unfold install. cbn [raw tasks object]. rewrite Hd. unfold install in Hwf.
    destruct (held (tasks e)) eqn:Hh; [|done]. destruct Hwf as [Hav Hen _].
    split; cbn in *; [done| |done]. intros Hx.
    pose proof (ended_gone e He Hh Hx) as Hgone. unfold Stream.incoming_of. cbn.
    destruct (Hg Hgone) as [-> _]. exact (Hen Hx).
  - etrans; [exact Hgo|]. by apply received_grows.
  - intros Hh. destruct (Hed Hh) as [?|(? & ? & ?)]; [by left|right]. split_and!; try done. by apply Hg.
Qed.

Lemma wrotes_app l k : wrotes (l ++ k) = wrotes l ++ wrotes k.
Proof. apply omap_app. Qed.

Lemma wrotes_wrote ds : wrotes (Raw.Wrote <$> ds) = ds.
Proof. induction ds as [|d ds IH]; [done|]. cbn. by f_equal. Qed.

Lemma datas_data ds : Raw.datas (Raw.Data <$> ds) = ds.
Proof. induction ds as [|d ds IH]; [done|]. cbn. by f_equal. Qed.

Lemma finish_not_wrote (ds : list bytes) : Raw.SentFinish ∉ (Raw.Wrote <$> ds).
Proof. intros (? & ? & _)%list_elem_of_fmap. done. Qed.

#[local] Arguments wrotes : simpl never.

(** A side whose writer has not returned. *)
Lemma writing_side e :
  end_ok e → Raw.opening (carry_of (tasks e)) || Raw.writing (carry_of (tasks e)) = true →
  finished e = false ∧ ∃ ds,
    Raw.sent (carry_of (tasks e)) = Raw.Wrote <$> ds ∧ wire e = mjoin ds ∧
    Raw.accepted (tasks e) = (Raw.Data <$> ds) ++ queue (Raw.outgoing (handle_of (tasks e))) ∧
    put e = ds ++ Raw.datas (queue (Raw.outgoing (handle_of (tasks e)))) ∧
    receiver_alive (Raw.outgoing (handle_of (tasks e))) = true.
Proof.
  intros He Hor. destruct (Raw.writing_live _ (e_writing _ He) Hor) as (ds & Hs & Ha & _ & _ & Hal).
  fold (carry_of (tasks e)) in Hs. split; [|exists ds; split_and!; try done].
  - unfold finished. rewrite Hs. apply bool_decide_eq_false, finish_not_wrote.
  - unfold wire. by rewrite Hs, wrotes_wrote.
  - rewrite <- (e_put _ He), Ha, datas_app, datas_data. done.
Qed.

(** A round of the writer: the bytes of the next chunk, or some of them. *)
Lemma writer_effect failure e :
  end_ok e →
  let e' := raw (Raw.WriterRuns failure) e in
  wire e `prefix_of` wire e' ∧ wire e' `prefix_of` promised (Raw.accepted (tasks e)).
Proof.
  intros He. pose proof (writing_side e He) as Hside.
  pose proof (e_wire _ He) as Hwi. pose proof (Raw.writing_opening _ (e_writing _ He)) as Hop.
  destruct e as [o [[[[q al] ic] [op st wr ab abl re sp]] acc net tk] pu go].
  unfold finished, wire, carry_of, handle_of, held in *. cbn in *.
  unfold Raw.writer_step. cbn. destruct wr; cbn in *; [|done].
  destruct op; [by destruct (Hop eq_refl)|].
  destruct (Hside eq_refl) as (_ & ds & -> & _ & Hac & _ & _). clear Hside Hop.
  rewrite wrotes_wrote in *.
  assert (∀ x, wrotes [x] = [] → mjoin (wrotes ((Raw.Wrote <$> ds) ++ [x])) = mjoin ds) as Hx.
  { intros x Hx. by rewrite wrotes_app, Hx, app_nil_r, wrotes_wrote. }
  assert (∀ d q' n x, q = Raw.Data d :: q' → wrotes [x] = [take n d] →
    mjoin ds `prefix_of` mjoin (wrotes ((Raw.Wrote <$> ds) ++ [x])) ∧
    mjoin (wrotes ((Raw.Wrote <$> ds) ++ [x])) `prefix_of` promised acc) as Hd.
  { intros d q' n x -> Hx'. rewrite wrotes_app, wrotes_wrote, join_app, Hx', Hac, promised_data. cbn.
    rewrite app_nil_r. split; [by apply prefix_app_r|]. apply prefix_app.
    etrans; [apply prefix_take|by apply prefix_app_r]. }
  destruct q as [|[d| |code] q]; cbn; [destruct (receiver_alive ic) eqn:Hr|..].
  all: try (destruct failure as [n|]); unfold Raw.held; cbn; rewrite ?Hr; cbn; rewrite ?wrotes_wrote, ?Hx by done.
  all: try (split; done).
  - by apply (Hd d q n).
  - apply (Hd d q (length d)); [done|]. by rewrite firstn_all.
Qed.

Lemma writes_ok failure e : end_ok e → end_ok (raw (Raw.WriterRuns failure) e).
Proof. intros He. apply raw_ok; [done..|]. by apply writer_effect. Qed.

(** ** Every step *)

Lemma untouched_ok e :
  end_ok e → end_ok (use (install e) [] [] e) ∧ same_writing e (use (install e) [] [] e).
Proof.
  intros He. destruct (held (tasks e)) eqn:Hd.
  2:{ destruct (install_gone e He Hd) as [Hi Hs]. apply gone_ok; [done| |apply He]. by rewrite Hi. }
  assert (put_back (install e) (tasks e) = tasks e) as Hp.
  { rewrite install_held by done. unfold put_back. cbn. destruct (tasks e) as [[st c] acc net tk].
    unfold handle_of, carry_of. cbn. by rewrite drop_all, Nat.sub_diag, take_0, !app_nil_r. }
  split; [|split; unfold use; cbn [tasks got]; rewrite ?Hp, ?app_nil_r; done]. destruct He as [Hre Hwr Hhe Hwf Hby Hgo Hed Hpu Hwi].
  assert (Stream.buffered_bytes (install e) = Stream.buffered_bytes (object e) ∧
    Stream.ended (install e) = Stream.ended (object e)) as [Eb Ee] by by rewrite install_held.
  split; unfold wire, finished, received in *; cbn [use tasks object got put];
    rewrite ?Hp, ?app_nil_r, ?Eb, ?Ee; auto.
  - rewrite Hd. by rewrite install_held.
  - change (Stream.wf (if held (put_back (install e) (tasks e)) then
      Stream.set_stream (Some (handle_of (put_back (install e) (tasks e)))) (install e) else install e)).
    rewrite Hp, Hd. rewrite install_held in * by done. exact Hwf.
Qed.

Lemma closed_reads n st gone :
  Stream.wf st → Stream.stream st = None →
  (∃ err f, Stream.get_data n st (Stream.mk_future [] gone) = Some (err, [], st, f)) ∧
  (∃ err, Stream.get_partial_data n st = (err, [], st)) ∧ Stream.drain st = st.
Proof.
  intros [Ha He Hc] Hs. specialize (Hc Hs).
  destruct st as [s bs av en]. cbn in Hs, Hc. subst s bs.
  assert (av = 0) as -> by exact Ha.
  set (st := Stream.mk_state None [] 0 en). assert (Stream.drain st = st) as Hd by done.
  split_and!; [| |done].
  - unfold Stream.get_data. rewrite Hd. cbv zeta. case_decide as Hn; [eauto|].
    rewrite fill_here by done. assert (0 < n `max` 0) as Hp by lia. cbn [Stream.available Stream.stream st].
    destruct (decide (0 < n `max` 0 ∧ Stream.ended st = None)); cbn [Stream.available st];
      destruct (decide (0 < n `max` 0)); try lia; eauto.
  - unfold Stream.get_partial_data. rewrite Hd. cbn. case_decide; [eauto|lia].
Qed.

(** What the main thread does leaves the carrying tasks alone. *)
Definition by_game (l : Label) : bool :=
  match l with
  | Put _ _ | Get _ | GetPartial _ | Look | FinishIt | AbortIt _ | CloseIt => true
  | _ => false
  end.

Lemma held_call e ch (He : end_ok e) (Hd : held (tasks e) = true) :
  let '(s, ok) := Raw.enqueue ch (handle_of (tasks e)) in
  let ds := if ok then Raw.datas [ch] else [] in
  end_ok (use (Stream.set_stream (Some s) (install e)) ds [] e) ∧
  same_writing e (use (Stream.set_stream (Some s) (install e)) ds [] e).
Proof.
  pose proof (λ ds o, call_ok e ch ds o He Hd) as Hc.
  destruct (Raw.enqueue ch (handle_of (tasks e))) as [s ok]. by apply Hc.
Qed.

Lemma game_ok remote l e :
  end_ok e → by_game l = true →
  end_ok (end_step remote l e) ∧ same_writing e (end_step remote l e).
Proof.
  intros He Hl. destruct (held (tasks e)) eqn:Hd.
  - pose proof (e_wf _ He) as Hw.
    assert (Stream.reader_reports (Stream.incoming_of (install e))) as Hr.
    { rewrite (install_held e Hd). by destruct (held_queue _ (e_reading _ He) Hd) as (_ & _ & ?). }
    assert (Stream.stream (install e) = Some (handle_of (tasks e))) as Hs by by rewrite install_held.
    destruct l as [data n|n|n| | |code| | | | | | |]; try done; cbn [end_step].
    + unfold Stream.put_data. rewrite Hs. case_decide; [by apply untouched_ok|].
      case_decide; [by apply untouched_ok|]. unfold Raw.write.
      pose proof (held_call e (Raw.Data (take (Z.to_nat n) data)) He Hd) as Hc.
      destruct (Raw.enqueue _ _) as [s []]; cbn in Hc |- *; [|done]. by rewrite decide_True by lia.
    + pose proof (get_data_reads n (install e) (reader_gone (tasks e)) Hw Hr) as Hg.
      destruct (Stream.get_data _ _ _) as [[[[err out] o] f]|]; [by apply read_ok|by split].
    + pose proof (get_partial_reads n (install e) (reader_gone (tasks e)) Hw Hr) as Hg.
      destruct (Stream.get_partial_data _ _) as [[err out] o]. by apply read_ok.
    + apply read_ok; [done..|]. by apply reads_nothing.
    + unfold Stream.finish. rewrite Hs. unfold Raw.finish. pose proof (held_call e Raw.Finish He Hd) as Hc.
      destruct (Raw.enqueue _ _) as [s []]; exact Hc.
    + unfold Stream.abort. rewrite Hs. unfold Raw.abort.
      pose proof (held_call e (Raw.Abort (Z.min (Z.max code 0) u32_max)) He Hd) as Hc.
      destruct (Raw.enqueue _ _) as [s []]; exact Hc.
    + apply gone_ok; [done..|]. split; cbn; [done|done|done].
  - destruct (install_gone e He Hd) as [Hi Hs]. pose proof (e_wf _ He) as Hw. rewrite Hi in Hw.
    assert (end_ok (use (object e) [] [] e) ∧ same_writing e (use (object e) [] [] e)) as Hsame
      by (by apply gone_ok).
    destruct l as [data n|n|n| | |code| | | | | | |]; try done; cbn [end_step]; rewrite Hi.
    + unfold Stream.put_data. rewrite Hs. repeat case_decide; done.
    + destruct (closed_reads n (object e) (reader_gone (tasks e)) Hw Hs) as ((err & f & ->) & _). done.
    + destruct (closed_reads n (object e) true Hw Hs) as (_ & (err & ->) & _). done.
    + destruct (closed_reads 0 (object e) true Hw Hs) as (_ & _ & ->). done.
    + unfold Stream.finish. by rewrite Hs.
    + unfold Stream.abort. by rewrite Hs.
    + apply gone_ok; [done..|]. split; cbn; [done|done|done].
Qed.

(** The carrying tasks other than the writer. *)
Lemma carrying_effect l e :
  end_ok e → by_tasks l = true → (∀ failure, l ≠ Raw.WriterRuns failure) →
  wire (raw l e) = wire e ∧ finished (raw l e) = finished e.
Proof.
  intros He Hl Hw. pose proof (Raw.writing_opening _ (e_writing _ He)) as Hop.
  destruct e as [o [[[og ic] [op st wr ab abl re sp]] acc net tk] pu go].
  unfold raw, wire, finished, carry_of in *. cbn in *.
  destruct l as [| | | | |result|failure| |x]; try done; cbn.
  - destruct op; [|done]. destruct (Hop eq_refl) as [-> _]. by destruct result.
  - by destruct (Hw failure).
  - unfold Raw.reader_abort_step. cbn. destruct re, abl; cbn; try done.
    destruct ab; [destruct wr|]; done.
  - unfold Raw.reader_chunk_step. cbn. destruct re; [|done].
    destruct x; [destruct (Raw.held _)|..]; done.
Qed.

Lemma carrying_ok l e :
  end_ok e → by_tasks l = true → (∀ failure, l ≠ Raw.WriterRuns failure) → end_ok (raw l e).
Proof.
  intros He Hl Hw. destruct (carrying_effect l e He Hl Hw) as [Hwi _].
  apply raw_ok; [done..|]. rewrite Hwi. apply He.
Qed.

(** Bytes a delivery hands over. *)
Definition delivery (remote : End) (n : nat) (e : End) : bytes :=
  take (n `min` Z.to_nat Raw.READ_CHUNK) (drop (length (received e)) (wire remote)).

Lemma end_step_ok remote l e : end_ok e → end_ok (end_step remote l e).
Proof.
  intros He. destruct (by_game l) eqn:Hg; [by apply game_ok|].
  destruct l as [| | | | | | |result|failure| |n| |err]; try done.
  - by apply carrying_ok.
  - by apply writes_ok.
  - by apply carrying_ok.
  - cbn. case_decide; [done|]. by apply carrying_ok.
  - cbn. destruct (_ && _); [by apply carrying_ok|done].
  - by apply carrying_ok.
Qed.

(** What a step does to the sending half of its side. *)
Definition sends (e e' : End) : Prop :=
  wire e `prefix_of` wire e' ∧
  (finished e = true → finished e' = true ∧ wire e' = wire e).

Lemma sends_same e e' : wire e' = wire e → finished e' = finished e → sends e e'.
Proof. intros Hw Hf. split; [by rewrite Hw|]. by rewrite Hf, Hw. Qed.

Lemma end_step_sends remote l e : end_ok e → sends e (end_step remote l e).
Proof.
  intros He. destruct (by_game l) eqn:Hg.
  { destruct (game_ok remote l e He Hg) as [_ Hs]. apply same_writing_wire in Hs as (? & ? & _).
    by apply sends_same. }
  assert (∀ l', by_tasks l' = true → (∀ failure, l' ≠ Raw.WriterRuns failure) → sends e (raw l' e)) as Hc.
  { intros l' Hl Hw. destruct (carrying_effect l' e He Hl Hw). by apply sends_same. }
  destruct l as [| | | | | | |result|failure| |n| |err]; try done; cbn [end_step]; try by apply Hc.
  - split; [by destruct (writer_effect failure e He)|]. intros Hf.
    assert (Raw.writing (carry_of (tasks e)) = false) as Hw.
    { apply not_true_iff_false. intros Hw.
      destruct (writing_side e He) as (Hn & _); [by rewrite Hw, orb_true_r|congruence]. }
    unfold finished, wire, carry_of in *. cbn. unfold Raw.writer_step. by rewrite Hw.
  - case_decide; [by apply sends_same|by apply Hc].
  - destruct (_ && _); [by apply Hc|by apply sends_same].
Qed.
