(* ===== verification/Pipe.v ===== *)
(** * The pipe a stream is ([stream.rs] over [raw.rs])

    Both directions of the stream of [Conduit]: each of them is refined to a pipe
    into which bytes are given and out of which they are taken, and what was put can
    be read. *)

From S2P Require Import Prelude.
From S2P Require Raw Stream.
From S2P Require Import Conduit.

#[local] Arguments wrotes : simpl never.

(** ** One direction *)

(** Between the sending half of [e] and the receiving half of [e']. *)
Record flow (e e' : End) : Prop := {
  flow_prefix : received e' `prefix_of` wire e;
  flow_end : Raw.ReadEnd ∈ Raw.network (tasks e') → finished e = true ∧ received e' = wire e;
}.

Lemma flow_sender e e1 e' : flow e e' → sends e e1 → flow e1 e'.
Proof.
  intros [Hp He] [Hw Hf]. split; [by etrans|]. intros Hn. destruct (He Hn) as [Hfin Hr].
  destruct (Hf Hfin) as [? ->]. done.
Qed.

Lemma received_snoc e x :
  received (raw (Raw.ReaderReads x) e) =
    received e ++ if Raw.reading (carry_of (tasks e)) then mjoin (chunks_of [x]) else [].
Proof.
  unfold received, raw, carry_of. cbn. rewrite chunks_of_app, join_app. f_equal. by destruct (Raw.reading _).
Qed.

Lemma network_reads e x y :
  y ∈ Raw.network (tasks (raw (Raw.ReaderReads x) e)) → y ∈ Raw.network (tasks e) ∨ y = x.
Proof.
  unfold raw. cbn. intros [?|Hx]%elem_of_app; [by left|right].
  destruct (Raw.reading _); [by apply list_elem_of_singleton in Hx|by apply not_elem_of_nil in Hx].
Qed.

(** After its last report the reader is not running. *)
Lemma after_end e : end_ok e → Raw.ReadEnd ∈ Raw.network (tasks e) → Raw.reading (carry_of (tasks e)) = false.
Proof.
  intros He Hin. apply not_true_iff_false. intros Hr.
  pose proof (Raw.reading_live _ (e_reading _ He)) as Hl.
  pose proof (Hl (proj2 (orb_true_iff _ _) (or_intror Hr))) as Hall.
  by pose proof (proj1 (Forall_forall _ _) Hall _ Hin).
Qed.

Lemma flow_same e e' e1 :
  flow e e' → Raw.network (tasks e1) = Raw.network (tasks e') → flow e e1.
Proof. intros [Hp He] Hn. split; unfold received; by rewrite Hn. Qed.

Lemma flow_receiver e e' l : end_ok e' → flow e e' → flow e (end_step e l e').
Proof.
  intros He Hf. destruct (by_game l) eqn:Hg.
  { destruct (game_ok e l e' He Hg) as [_ [_ Hn _]]. by eapply flow_same. }
  destruct l as [| | | | | | |result|failure| |n| |err]; try done; cbn [end_step].
  - destruct Hf as [Hp Hend]. unfold raw. split; cbn.
    + unfold received in *. cbn. rewrite chunks_of_app, join_app.
      destruct (Raw.opening _), result; cbn; by rewrite app_nil_r.
    + intros [Hin|Hin]%elem_of_app.
      * destruct (Hend Hin) as [? Hr]. split; [done|]. unfold received in *. cbn.
        rewrite chunks_of_app, join_app. destruct (Raw.opening _), result; cbn; by rewrite app_nil_r.
      * destruct (Raw.opening _), result; by apply list_elem_of_singleton in Hin || apply not_elem_of_nil in Hin.
  - by eapply flow_same.
  - by eapply flow_same.
  - case_decide as Hd; [done|]. fold (delivery e n e') in *. destruct Hf as [Hp Hend].
    split.
    + rewrite received_snoc. destruct (Raw.reading _); [|by rewrite app_nil_r].
      destruct Hp as [k Hk]. unfold delivery. rewrite Hk, drop_app_length. apply prefix_app. cbn.
      rewrite app_nil_r. apply prefix_take.
    + intros [Hin|Hx]%network_reads; [|done]. rewrite received_snoc, (after_end _ He Hin), app_nil_r. by apply Hend.
  - destruct (_ && _) eqn:Hb; [|done]. apply andb_true_iff in Hb as [Hfin Hlen%bool_decide_eq_true].
    destruct Hf as [Hp Hend].
    assert (received (raw (Raw.ReaderReads Raw.ReadEnd) e') = received e') as Hr.
    { rewrite received_snoc. cbn. by destruct (Raw.reading _); rewrite app_nil_r. }
    split; rewrite Hr; [done|]. intros _. split; [done|]. by apply prefix_length_eq; [|rewrite Hlen].
  - destruct Hf as [Hp Hend].
    assert (received (raw (Raw.ReaderReads (Raw.ReadError err)) e') = received e') as Hr.
    { rewrite received_snoc. cbn. by destruct (Raw.reading _); rewrite app_nil_r. }
    split; rewrite Hr; [done|]. intros [Hin|Hx]%network_reads; [|done]. by apply Hend.
Qed.

(** ** Both directions *)

Record conduit_ok (c : Conduit) : Prop := {
  c_here : end_ok (here c);
  c_there : end_ok (there c);
  c_to : flow (here c) (there c);
  c_from : flow (there c) (here c);
}.

Lemma conduit_ok_step c l : conduit_ok c → conduit_ok (step c l).
Proof.
  intros [Hh Ht Hto Hfrom]. destruct l as [[] l]; cbn; split; cbn; try done.
  all: try by apply end_step_ok.
  all: try by eapply flow_sender, end_step_sends.
  all: by apply flow_receiver.
Qed.

Definition flip (c : Conduit) : Conduit := mk_conduit (there c) (here c).

Lemma conduit_ok_flip c : conduit_ok c → conduit_ok (flip c).
Proof. by intros [? ? ? ?]. Qed.

Lemma step_flip c mine l : step (flip c) (mine, l) = flip (step c (negb mine, l)).
Proof. by destruct mine. Qed.

Lemma wrapped_ok s :
  Raw.fresh s → queue (Raw.incoming (Raw.stream s)) = [] → Raw.sent (Raw.carry s) = [] →
  Raw.held s = true → end_ok (start s).
Proof.
  intros Hf Hq Hs Hh.
  pose proof (Raw.reading_ok_run s [] Hf) as Hr. pose proof (Raw.writing_ok_run s [] Hf) as Hw.
  unfold Raw.run in *. cbn in Hr, Hw.
  assert (held (Raw.begin s) = true) as Hd by done.
  split; unfold start; cbn [tasks object got put]; try done.
  - unfold install. cbn [tasks object]. rewrite Hd. split; cbn; [done|by intros []|done].
  - apply prefix_nil.
  - intros _. by left.
  - unfold wire, carry_of. cbn. by rewrite Hs.
Qed.

Lemma opened_ok : conduit_ok opened.
Proof.
  split; [apply wrapped_ok; try done; right; by exists true|apply wrapped_ok; try done; by left|..].
  all: split; [apply prefix_nil|by intros ?%elem_of_nil].
Qed.

Lemma run_ok ls : conduit_ok (run opened ls).
Proof. apply (foldl_preserves step conduit_ok); [apply opened_ok|apply conduit_ok_step]. Qed.

(** ** A pipe

    What the two halves of one direction amount to: bytes given to it until it is
    shut, some of them arrived, some of those taken, and the news of its end, which
    comes after everything else. *)
Record Pipe : Type := mk_pipe {
  given : bytes;
  shut : bool;
  arrived : bytes;
  told : bool;
  taken : bytes;
}.

Inductive pipe_step : Pipe → Pipe → Prop :=
  | pipe_give d g a k : pipe_step (mk_pipe g false a false k) (mk_pipe (g ++ d) false a false k)
  | pipe_shut g a t k : pipe_step (mk_pipe g false a t k) (mk_pipe g true a t k)
  | pipe_arrive d g x a k : a ++ d `prefix_of` g →
      pipe_step (mk_pipe g x a false k) (mk_pipe g x (a ++ d) false k)
  | pipe_tell g k : pipe_step (mk_pipe g true g false k) (mk_pipe g true g true k)
  | pipe_take d g x a t k : k ++ d `prefix_of` a →
      pipe_step (mk_pipe g x a t k) (mk_pipe g x a t (k ++ d)).

Definition new_pipe : Pipe := mk_pipe [] false [] false [].

Definition is_data (ch : Raw.Chunk) : bool := match ch with Raw.Data _ => true | _ => false end.

(** The direction from [e] to [e']. *)
Definition pipe (e e' : End) : Pipe :=
  mk_pipe (promised (Raw.accepted (tasks e)))
    (negb (held (tasks e)) || negb (forallb is_data (Raw.accepted (tasks e))))
    (received e')
    (bool_decide (Raw.ReadEnd ∈ Raw.network (tasks e')))
    (got e').

(** What every pipe made of such steps keeps. *)
Record pipe_ok (p : Pipe) : Prop := {
  p_arrived : arrived p `prefix_of` given p;
  p_taken : taken p `prefix_of` arrived p;
  p_told : told p = true → shut p = true ∧ arrived p = given p;
}.

Lemma pipe_ok_step p q : pipe_step p q → pipe_ok p → pipe_ok q.
Proof.
  destruct 1 as [d g a k|g a t k|d g x a k Hd|g k|d g x a t k Hd]; intros [Ha Ht Hs];
    cbn in *; split; cbn; try done; try by apply prefix_app_r.
  by intros [? ?]%Hs.
Qed.

(** One state of a pipe comes after another. *)
Record later (p q : Pipe) : Prop := {
  later_given : given p `prefix_of` given q;
  later_shut : shut p = true → shut q = true ∧ given q = given p;
  later_arrived : arrived p `prefix_of` arrived q;
  later_told : told p = true → told q = true ∧ arrived q = arrived p;
  later_taken : taken p `prefix_of` taken q;
}.

Lemma later_steps p q : pipe_ok p → pipe_ok q → later p q → rtc pipe_step p q.
Proof.
  destruct p as [g x a t k], q as [g' x' a' t' k']. intros [Ha Ht Hs] [Ha' Ht' Hs'] [Lg Lx La Lt Lk]. cbn in *.
  destruct Lk as [dk ->], La as [da ->], Lg as [dg ->].
  trans (mk_pipe (g ++ dg) x' a t k).
  { destruct x.
    - destruct (Lx eq_refl) as [-> Hg]. by rewrite Hg.
    - assert (t = false) as -> by (destruct t; [by destruct (Hs eq_refl)|done]).
      trans (mk_pipe (g ++ dg) false a false k); [apply rtc_once, pipe_give|].
      destruct x'; [apply rtc_once, pipe_shut|done]. }
  trans (mk_pipe (g ++ dg) x' (a ++ da) t' k).
  { destruct t.
    - destruct (Lt eq_refl) as [-> Hx]. by rewrite Hx.
    - trans (mk_pipe (g ++ dg) x' (a ++ da) false k); [by apply rtc_once, pipe_arrive|].
      destruct t'; [|done]. destruct (Hs' eq_refl) as [-> ->]. apply rtc_once, pipe_tell. }
  by apply rtc_once, pipe_take.
Qed.

(** Once its end is sent, everything promised has been written. *)
Lemma finished_all e : end_ok e → finished e = true →
  wire e = promised (Raw.accepted (tasks e)) ∧ shut (pipe e e) = true.
Proof.
  intros He Hf. destruct (Raw.opening (carry_of (tasks e)) || Raw.writing (carry_of (tasks e))) eqn:Hor.
  { destruct (writing_side e He Hor) as [Hn _]. congruence. }
  destruct (Raw.writing_done _ (e_writing _ He) Hor) as [Hwr _].
  unfold wire, finished in *. apply bool_decide_eq_true in Hf.
  fold (carry_of (tasks e)) in Hwr. fold (held (tasks e)) in Hwr. cbn [pipe shut].
  inversion Hwr as [ds rest Ha Hs|ds Ha Hd Hs|ds code rest Ha Hs|ds d n rest Ha Hs|Hs]; rewrite <- Hs in *.
  - rewrite wrotes_app, wrotes_wrote, app_nil_r, Ha, promised_data, app_nil_r, forallb_app, andb_false_r, orb_true_r.
    done.
  - rewrite wrotes_app, wrotes_wrote, app_nil_r, Ha, Hd, <- (app_nil_r (Raw.Data <$> ds)), promised_data, app_nil_r.
    done.
  - exfalso. apply elem_of_app in Hf as [Hf|Hf%list_elem_of_singleton]; [by apply finish_not_wrote in Hf|done].
  - exfalso. apply elem_of_app in Hf as [Hf|Hf%list_elem_of_singleton]; [by apply finish_not_wrote in Hf|done].
  - by apply not_elem_of_nil in Hf.
Qed.

Lemma promised_shut l k : forallb is_data l = false → promised (l ++ k) = promised l.
Proof. induction l as [|[d| |code] l IH]; cbn; intros Hl; [done|by rewrite IH|done..]. Qed.

Lemma pipe_holds e e' : end_ok e → end_ok e' → flow e e' → pipe_ok (pipe e e').
Proof.
  intros He He' [Hp Hend]. split; cbn.
  - etrans; [exact Hp|apply He].
  - apply He'.
  - intros Ht%bool_decide_eq_true. destruct (Hend Ht) as [Hf Hr].
    destruct (finished_all e He Hf) as [Hw Hs]. by rewrite Hr.
Qed.

(** What no step of a side takes back. *)
Record grows (e e' : End) : Prop := {
  grow_accepted : Raw.accepted (tasks e) `prefix_of` Raw.accepted (tasks e');
  grow_dropped : held (tasks e) = false →
    held (tasks e') = false ∧ Raw.accepted (tasks e') = Raw.accepted (tasks e);
  grow_received : received e `prefix_of` received e';
  grow_told : Raw.ReadEnd ∈ Raw.network (tasks e) →
    Raw.ReadEnd ∈ Raw.network (tasks e') ∧ received e' = received e;
  grow_got : got e `prefix_of` got e';
}.

Lemma told_over e : end_ok e → Raw.ReadEnd ∈ Raw.network (tasks e) →
  Raw.opening (carry_of (tasks e)) = false ∧ Raw.reading (carry_of (tasks e)) = false.
Proof.
  intros He Hin. apply orb_false_iff, not_true_iff_false. intros Hor.
  pose proof (Raw.reading_live _ (e_reading _ He) Hor) as Hall.
  by pose proof (proj1 (Forall_forall _ _) Hall _ Hin).
Qed.

Lemma raw_grows l e : end_ok e → by_tasks l = true → grows e (raw l e).
Proof.
  intros He Hl. destruct (by_tasks_fields l (tasks e) Hl) as (_ & Ha & Hd & Hn & _).
  split; unfold received; cbn [raw tasks got]; rewrite ?Ha, ?Hd; try done.
  - destruct Hn as [k ->]. rewrite chunks_of_app, join_app. by apply prefix_app_r.
  - intros Hin. destruct (told_over e He Hin) as [Ho Hr].
    assert (Raw.network (Raw.step (tasks e) l) = Raw.network (tasks e)) as ->; [|done].
    unfold carry_of in *. destruct l; try done; cbn; by rewrite ?Ho, ?Hr, app_nil_r.
Qed.

Lemma grows_refl e : grows e e.
Proof. by split. Qed.

Lemma end_step_grows remote l e : end_ok e → grows e (end_step remote l e).
Proof.
  intros He. destruct (by_game l) eqn:Hg.
  { destruct (game_ok remote l e He Hg) as [_ Hs]. pose proof (same_writing_wire _ _ Hs) as (_ & _ & Hr & _).
    destruct Hs as [_ Hn Ha Hgo Hd]. by split; rewrite ?Hr, ?Hn. }
  destruct l as [| | | | | | |result|failure| |n| |err]; try done; cbn [end_step].
  - by apply raw_grows.
  - by apply raw_grows.
  - by apply raw_grows.
  - case_decide; [apply grows_refl|by apply raw_grows].
  - destruct (_ && _); [by apply raw_grows|apply grows_refl].
  - by apply raw_grows.
Qed.

Lemma grows_later e1 e2 e1' e2' :
  grows e1 e1' → grows e2 e2' → later (pipe e1 e2) (pipe e1' e2').
Proof.
  intros [[k Ha] Hd _ _ _] [_ _ Hr Ht Hg]. split; cbn; try done.
  - rewrite Ha. apply promised_app.
  - intros [Hh|Hf]%orb_true_iff.
    + apply negb_true_iff in Hh. destruct (Hd Hh) as [-> ->]. done.
    + apply negb_true_iff in Hf. rewrite Ha, forallb_app, Hf, promised_shut by done. cbn. by rewrite orb_true_r.
  - intros Hin%bool_decide_eq_true. destruct (Ht Hin) as [? ?]. by rewrite bool_decide_eq_true_2.
Qed.

Lemma conduit_grows c l : conduit_ok c → grows (here c) (here (step c l)) ∧ grows (there c) (there (step c l)).
Proof.
  intros [Hh Ht _ _]. destruct l as [[] l]; cbn; split; auto using grows_refl, end_step_grows.
Qed.

(** Each direction of the conduit steps as a pipe does. *)
Lemma step_pipe c l : conduit_ok c →
  rtc pipe_step (pipe (here c) (there c)) (pipe (here (step c l)) (there (step c l))).
Proof.
  intros Hc. pose proof (conduit_ok_step c l Hc) as Hc'. destruct (conduit_grows c l Hc).
  apply later_steps; [apply pipe_holds; apply Hc|apply pipe_holds; apply Hc'|by apply grows_later].
Qed.

(** What an object shows of the pipe behind it. *)
Lemma object_shows e : end_ok e → held (tasks e) = true →
  got e ++ Stream.buffered_bytes (object e) `prefix_of` received e ∧
  (Stream.ended (object e) = Some None →
   Raw.ReadEnd ∈ Raw.network (tasks e) ∧ got e ++ Stream.buffered_bytes (object e) = received e).
Proof.
  intros He Hd. pose proof (e_bytes _ He Hd) as Hb. pose proof (e_reading _ He) as Hre.
  destruct (held_queue _ Hre Hd) as (Hn & Hrep & _). rewrite <- Hb.
  unfold received. rewrite <- (queued_bytes_received _ Hre), <- Hn.
  split; [apply queued_bytes_prefix|]. intros Hen.
  destruct (e_ended _ He Hd) as [Heq|(_ & _ & ?)]; [|congruence]. rewrite Hen in Heq. symmetry in Heq.
  pose proof (Stream.reports_app _ _ Hrep) as (_ & Hlast & _).
  rewrite (Hlast (ex_intro _ _ Heq)), app_nil_r in *. split; [|done].
  assert (Raw.Ended None ∈ Raw.taken (tasks e)) as Hin.
  { clear -Heq. induction (Raw.taken (tasks e)) as [|[d|r] l IH]; [done|by right; apply IH|].
    injection Heq as ->. by left. }
  rewrite Hn in Hin. apply list_elem_of_fmap in Hin as ([d| |err] & Hx & Hin'); [done| |done]. done.
Qed.

(** ** Everything arrives

    The tasks and the network can always bring a live receiver what a live sender
    was given. *)

Lemma run_app c ls ks : run c (ls ++ ks) = run (run c ls) ks.
Proof. apply foldl_app. Qed.

Lemma run_keeps c ls : conduit_ok c → conduit_ok (run c ls).
Proof. intros Hc. apply (foldl_preserves step conduit_ok); [done|apply conduit_ok_step]. Qed.

Definition carried (ls : list (bool * Label)) : Prop := Forall (λ l, by_game l.2 = false) ls.

Lemma writer_opens c :
  conduit_ok c → Raw.opening (carry_of (tasks (here c))) || Raw.writing (carry_of (tasks (here c))) = true →
  ∃ ls, carried ls ∧ there (run c ls) = there c ∧
    Raw.accepted (tasks (here (run c ls))) = Raw.accepted (tasks (here c)) ∧
    Raw.writing (carry_of (tasks (here (run c ls)))) = true.
Proof.
  intros Hc Hor. destruct (Raw.writing (carry_of (tasks (here c)))) eqn:Hw; [exists []; split_and!; [by constructor|done..]|].
  exists [(true, Opens None)]. split_and!; [by repeat constructor|done|..];
    destruct c as [[o [[st [op st' wr ab abl re sp]] acc net tk] pu go] e']; cbn in *; [done|].
  unfold carry_of in *. cbn in *. by destruct op.
Qed.

Lemma reader_opens c :
  conduit_ok c → Raw.opening (carry_of (tasks (there c))) || Raw.reading (carry_of (tasks (there c))) = true →
  ∃ ls, carried ls ∧ here (run c ls) = here c ∧ got (there (run c ls)) = got (there c) ∧
    held (tasks (there (run c ls))) = held (tasks (there c)) ∧
    Raw.reading (carry_of (tasks (there (run c ls)))) = true.
Proof.
  intros Hc Hor. destruct (Raw.reading (carry_of (tasks (there c)))) eqn:Hr; [exists []; split_and!; [by constructor|done..]|].
  exists [(false, Opens None)]. split_and!; [by repeat constructor|done|..];
    destruct c as [e [o [[st [op st' wr ab abl re sp]] acc net tk] pu go]]; cbn in *; [done|..];
    unfold carry_of, held in *; cbn in *; by destruct op.
Qed.

(** One chunk written. *)
Lemma chunk_written e d q remote :
  end_ok e → Raw.writing (carry_of (tasks e)) = true →
  queue (Raw.outgoing (handle_of (tasks e))) = Raw.Data d :: q →
  let e' := end_step remote (Writes None) e in
  Raw.writing (carry_of (tasks e')) = true ∧ queue (Raw.outgoing (handle_of (tasks e'))) = q ∧
  Raw.accepted (tasks e') = Raw.accepted (tasks e).
Proof.
  intros He Hw Hq. destruct e as [o [[[[q' al] ic] [op st wr ab abl re sp]] acc net tk] pu go].
  unfold carry_of, handle_of in *. cbn in *. unfold Raw.writer_step. cbn. rewrite Hw, Hq. done.
Qed.

Lemma writer_flushes c :
  conduit_ok c → Raw.writing (carry_of (tasks (here c))) = true →
  ∃ ls, carried ls ∧ there (run c ls) = there c ∧
    Raw.accepted (tasks (here (run c ls))) = Raw.accepted (tasks (here c)) ∧
    wire (here (run c ls)) = promised (Raw.accepted (tasks (here c))).
Proof.
  intros Hc Hw. remember (queue (Raw.outgoing (handle_of (tasks (here c))))) as q eqn:Hq.
  revert c Hc Hw Hq. induction q as [|[d| |code] q IH]; intros c Hc Hw Hq.
  2:{ symmetry in Hq.
    destruct (chunk_written (here c) d q (there c) (c_here _ Hc) Hw Hq) as (Hw' & Hq' & Ha').
    destruct (IH (step c (true, Writes None)) (conduit_ok_step _ _ Hc) Hw' (eq_sym Hq')) as (ls & Hl & Ht & Ha & Hwi).
    exists ((true, Writes None) :: ls). cbn [run foldl].
    change (foldl step ?x ls) with (run x ls). rewrite Ht, Ha, Hwi. cbn [step here there].
    rewrite Ha'. split_and!; try done. by constructor. }
  all: exists []; split_and!; [by constructor|done|done|].
  all: destruct (writing_side (here c) (c_here _ Hc)) as (_ & ds & _ & Hwi & Ha & _); [by rewrite Hw, orb_true_r|].
  all: cbn [run foldl]; rewrite Hwi, Ha, <- Hq, promised_data; cbn; by rewrite app_nil_r.
Qed.

(** One byte delivered. *)
Lemma byte_delivered e e' :
  flow e e' → Raw.reading (carry_of (tasks e')) = true → held (tasks e') = true →
  (length (received e') < length (wire e))%nat →
  let e1 := end_step e (Deliver 1) e' in
  Raw.reading (carry_of (tasks e1)) = true ∧ held (tasks e1) = true ∧ got e1 = got e' ∧
  length (received e1) = S (length (received e')).
Proof.
  intros [Hp _] Hr Hd Hlen. cbn [end_step]. cbv zeta.
  assert (length (take (1 `min` Z.to_nat Raw.READ_CHUNK) (drop (length (received e')) (wire e))) = 1%nat) as Hl.
  { rewrite length_take, length_drop. assert (1 ≤ Z.to_nat Raw.READ_CHUNK)%nat by (unfold Raw.READ_CHUNK; lia). lia. }
  set (d := take _ _) in *. case_decide as Hn; [by rewrite Hn in Hl|].
  assert (mjoin (chunks_of [Raw.ReadChunk d]) = d) as Hm by apply app_nil_r.
  rewrite received_snoc, Hr, length_app, Hm, Hl.
  destruct e' as [o [[[og [q a]] [op st' wr ab abl re sp]] acc net tk] pu go].
  unfold held, Raw.held in Hd. unfold carry_of in Hr. cbn in Hr, Hd. subst a re. split_and!; try done. lia.
Qed.

Lemma network_delivers c :
  conduit_ok c → Raw.reading (carry_of (tasks (there c))) = true → held (tasks (there c)) = true →
  ∃ ls, carried ls ∧ here (run c ls) = here c ∧ got (there (run c ls)) = got (there c) ∧
    held (tasks (there (run c ls))) = true ∧ received (there (run c ls)) = wire (here c).
Proof.
  remember (length (wire (here c)) - length (received (there c)))%nat as m eqn:Hm. revert c Hm.
  induction m as [|m IH]; intros c Hm Hc Hr Hd; pose proof (flow_prefix _ _ (c_to _ Hc)) as Hp.
  - exists []. split_and!; try done; [by constructor|]. apply prefix_length_eq; [done|]. cbn. lia.
  - destruct (byte_delivered (here c) (there c) (c_to _ Hc) Hr Hd) as (Hr' & Hd' & Hg & Hl); [lia|].
    destruct (IH (step c (false, Deliver 1))) as (ls & Hls & Hh & Hg' & Hd2 & Hre);
      [cbn [step here there]; lia|by apply conduit_ok_step|done|done|].
    exists ((false, Deliver 1) :: ls). cbn [run foldl]. change (foldl step ?x ls) with (run x ls).
    rewrite Hh, Hg', Hre. cbn [step here there]. rewrite Hg. split_and!; try done. by constructor.
Qed.

Lemma everything_arrives c :
  conduit_ok c →
  Raw.opening (carry_of (tasks (here c))) || Raw.writing (carry_of (tasks (here c))) = true →
  Raw.opening (carry_of (tasks (there c))) || Raw.reading (carry_of (tasks (there c))) = true →
  held (tasks (there c)) = true →
  ∃ ls, carried ls ∧
    Raw.accepted (tasks (here (run c ls))) = Raw.accepted (tasks (here c)) ∧
    got (there (run c ls)) = got (there c) ∧ held (tasks (there (run c ls))) = true ∧
    received (there (run c ls)) = promised (Raw.accepted (tasks (here c))).
Proof.
  intros Hc Hw Hr Hd.
  destruct (writer_opens c Hc Hw) as (l1 & F1 & T1 & A1 & W1).
  pose proof (run_keeps c l1 Hc) as H1. set (c1 := run c l1) in *.
  destruct (writer_flushes c1 H1 W1) as (l2 & F2 & T2 & A2 & W2).
  pose proof (run_keeps c1 l2 H1) as H2. set (c2 := run c1 l2) in *. rewrite A1 in *.
  destruct (reader_opens c2 H2) as (l3 & F3 & E3 & G3 & D3 & R3); [by rewrite T2, T1|].
  pose proof (run_keeps c2 l3 H2) as H3. set (c3 := run c2 l3) in *. rewrite T2, T1 in *.
  destruct (network_delivers c3 H3 R3) as (l4 & F4 & E4 & G4 & D4 & R4); [congruence|].
  exists (l1 ++ l2 ++ l3 ++ l4). rewrite !run_app. fold c1 c2 c3.
  rewrite E4, E3, G4, G3, D4, R4, E3, W2, A2. split_and!; try done.
  by repeat (apply Forall_app; split).
Qed.

(** What a read can return is what arrived and was not returned before. *)
Lemma rest_of_stream e gone : end_ok e → held (tasks e) = true →
  Stream.consistent (install e) (Stream.mk_future [] gone) ∧
  got e ++ Stream.total (install e) (Stream.mk_future [] gone) = received e.
Proof.
  intros He Hd. pose proof (e_reading _ He) as Hre. destruct (held_queue _ Hre Hd) as (Hn & Hrep & Hq).
  pose proof (Stream.reports_app _ _ Hrep) as (_ & Hlast & _).
  unfold Stream.total. rewrite (install_held e Hd). cbn. rewrite app_nil_r. split.
  - split; cbn; [|done..]. by rewrite app_nil_r.
  - unfold received. rewrite <- (queued_bytes_received _ Hre), <- Hn, Stream.queued_bytes_app by done.
    by rewrite (e_bytes _ He Hd), <- app_assoc.
Qed.

Lemma read_returns e n gone : end_ok e → held (tasks e) = true →
  0 < n → len (got e) + n ≤ len (received e) →
  ∃ o f, Stream.get_data n (install e) (Stream.mk_future [] gone) =
    Some (Stream.OK, take (Z.to_nat n) (drop (length (got e)) (received e)), o, f).
Proof.
  intros He Hd Hn Hlen. destruct (rest_of_stream e gone He Hd) as [Hc Ht].
  pose proof (Stream.get_data_spec n _ _ (e_wf _ He) Hc Hn) as Hs. rewrite <- Ht, drop_app_length.
  rewrite <- Ht in Hlen. unfold len in *. rewrite length_app in Hlen.
  destruct (Stream.get_data n _ _) as [[[[err out] o] f]|]; [|lia].
  destruct Hs as (_ & _ & Hs & _). destruct Hs as (-> & -> & _); [lia|]. by exists o, f.
Qed.

(** The side that [mine] names, and the other. *)
Definition near (mine : bool) (c : Conduit) : End := if mine then here c else there c.
Definition far (mine : bool) (c : Conduit) : End := near (negb mine) c.

Definition mirror (ls : list (bool * Label)) : list (bool * Label) := (λ l, (negb l.1, l.2)) <$> ls.

Lemma run_flip c ls : run (flip c) ls = flip (run c (mirror ls)).
Proof.
  revert c. induction ls as [|[mine l] ls IH]; intros c; [done|]. cbn [run foldl mirror fmap list_fmap fst snd].
  rewrite step_flip. apply IH.
Qed.

Lemma carried_mirror ls : carried ls → carried (mirror ls).
Proof. induction 1; constructor; done. Qed.

Lemma side_ok mine c : conduit_ok c →
  end_ok (near mine c) ∧ end_ok (far mine c) ∧ flow (near mine c) (far mine c).
Proof. intros [? ? ? ?]. by destruct mine. Qed.

Lemma pipe_all_put e e' : end_ok e → shut (pipe e e') = false → given (pipe e e') = mjoin (put e).
Proof.
  intros He [_ Hs%negb_false_iff]%orb_false_iff. cbn. rewrite <- (e_put _ He).
  induction (Raw.accepted (tasks e)) as [|[d| |code] l IH]; try done. cbn in *. by rewrite IH.
Qed.

Lemma promised_put e : end_ok e → promised (Raw.accepted (tasks e)) `prefix_of` mjoin (put e).
Proof.
  intros He. rewrite <- (e_put _ He).
  induction (Raw.accepted (tasks e)) as [|[d| |code] l IH]; cbn; [done|by apply prefix_app|apply prefix_nil..].
Qed.

Lemma read_after_arrival mine c n :
  conduit_ok c → let e := near mine c in let e' := far mine c in
  Raw.opening (carry_of (tasks e)) || Raw.writing (carry_of (tasks e)) = true →
  Raw.opening (carry_of (tasks e')) || Raw.reading (carry_of (tasks e')) = true →
  held (tasks e') = true →
  0 < n → len (got e') + n ≤ len (given (pipe e e')) →
  ∃ ks o f, carried ks ∧
    let out := take (Z.to_nat n) (drop (length (got e')) (given (pipe e e'))) in
    let r := far mine (run c ks) in
    Stream.get_data n (install r) (Stream.mk_future [] (reader_gone (tasks r))) = Some (Stream.OK, out, o, f) ∧
    got (far mine (run c (ks ++ [(negb mine, Get n)]))) = got e' ++ out.
Proof.
  intros Hc. cbv zeta.
  assert (∃ d, conduit_ok d ∧ (d = if mine then c else flip c)) as (d & Hcd & Hd).
  { exists (if mine then c else flip c). split; [|done]. destruct mine; [done|by apply conduit_ok_flip]. }
  assert (near mine c = here d ∧ far mine c = there d) as [-> ->] by (subst d; by destruct mine).
  intros Hw Hr Hh Hn Hlen.
  destruct (everything_arrives d Hcd Hw Hr Hh) as (ks & Hks & Ha & Hg & Hh' & Hre).
  pose proof (run_keeps d ks Hcd) as Hok.
  destruct (read_returns (there (run d ks)) n (reader_gone (tasks (there (run d ks)))) (c_there _ Hok) Hh' Hn)
    as (o & f & Hget); [by rewrite Hg, Hre|]. rewrite Hg, Hre in Hget.
  exists (if mine then ks else mirror ks), o, f.
  assert (far mine (run c (if mine then ks else mirror ks)) = there (run d ks)) as Hfar.
  { subst d. destruct mine; [done|]. by rewrite run_flip. }
  split_and!; [destruct mine; [done|by apply carried_mirror]|by rewrite Hfar|].
  rewrite run_app.
  assert (∀ x, far mine (run x [(negb mine, Get n)]) = end_step (near mine x) (Get n) (far mine x)) as ->
    by (intros x; by destruct mine).
  rewrite Hfar. cbn [end_step]. rewrite Hget. cbn. by rewrite Hg.
Qed.

(** The chunk a call queues while the writer runs. *)
Lemma call_queues ch r :
  held r = true → receiver_alive (Raw.outgoing (handle_of r)) = true →
  Raw.accepted (Raw.call ch r) = Raw.accepted r ++ [ch] ∧ held (Raw.call ch r) = true ∧
  receiver_alive (Raw.outgoing (handle_of (Raw.call ch r))) = true.
Proof.
  destruct r as [[[[q a] i] c] acc net tk]. unfold held, Raw.held, handle_of. cbn. intros Hd ->.
  unfold Raw.call, Raw.held. cbn. by rewrite Hd.
Qed.

Lemma object_finishes remote e : held (tasks e) = true →
  let e' := end_step remote FinishIt e in
  tasks e' = Raw.call Raw.Finish (tasks e) ∧ put e' = put e.
Proof.
  intros Hd. cbn [end_step]. unfold Stream.finish. rewrite (install_held e Hd). cbn [Stream.stream Stream.set_stream].
  unfold use. cbn [tasks put]. rewrite app_nil_r. split; [|done]. apply put_back_call; [done|].
  unfold Raw.finish. by destruct (Raw.enqueue _ _).
Qed.

Lemma object_puts remote data n e :
  held (tasks e) = true → receiver_alive (Raw.outgoing (handle_of (tasks e))) = true → 0 < n →
  let e' := end_step remote (Put data n) e in
  (Stream.put_data data n (install e)).1.1 = Stream.OK ∧
  tasks e' = Raw.call (Raw.Data (take (Z.to_nat n) data)) (tasks e) ∧
  put e' = put e ++ [take (Z.to_nat n) data].
Proof.
  intros Hd Hal Hn. cbn [end_step]. unfold Stream.put_data. rewrite (install_held e Hd).
  rewrite !decide_False by lia. cbn [Stream.stream Stream.set_stream].
  pose proof (λ o, put_back_call o (tasks e) (Raw.Data (take (Z.to_nat n) data)) Hd) as Hp.
  unfold Raw.write, Raw.enqueue, chan_send in *. rewrite Hal in *. cbn in Hp. cbn -[put_back Raw.call].
  rewrite decide_True by lia. split_and!; [done| |done]. by apply Hp.
Qed.

(** A put right behind a finish: answered [OK], and nothing of it will go out. *)
Lemma put_after_finish_is_lost remote e data n :
  end_ok e → held (tasks e) = true →
  Raw.opening (carry_of (tasks e)) || Raw.writing (carry_of (tasks e)) = true → 0 < n →
  let e1 := end_step remote FinishIt e in let e2 := end_step remote (Put data n) e1 in
  (Stream.put_data data n (install e1)).1.1 = Stream.OK ∧
  put e2 = put e ++ [take (Z.to_nat n) data] ∧
  promised (Raw.accepted (tasks e2)) = promised (Raw.accepted (tasks e)).
Proof.
  intros He Hd Hor Hn. destruct (writing_side e He Hor) as (_ & ds & _ & _ & Ha & _ & Hal).
  destruct (object_finishes remote e Hd) as [Ht Hp].
  destruct (call_queues Raw.Finish (tasks e) Hd Hal) as (Ha1 & Hd1 & Hal1). rewrite <- Ht in *.
  destruct (object_puts remote data n (end_step remote FinishIt e) Hd1 Hal1 Hn) as (Hok & Ht2 & Hp2).
  destruct (call_queues (Raw.Data (take (Z.to_nat n) data)) _ Hd1 Hal1) as (Ha2 & _ & _). rewrite <- Ht2 in *.
  cbv zeta. split_and!; [done|by rewrite Hp2, Hp|]. rewrite Ha2, Ha1.
  assert (∀ k, promised ((Raw.accepted (tasks e) ++ [Raw.Finish]) ++ k) = promised (Raw.accepted (tasks e))) as Hk.
  { clear. intros k. induction (Raw.accepted (tasks e)) as [|[d| |code] l IH]; cbn in *; [done|by rewrite IH|done..]. }
  by rewrite Hk.
Qed.

(** ** Properties *)

(** C9: a stream carries bytes as a pipe does, each way. Whatever the games on
    both sides put, read, finish, abort and close, and however the four tasks and
    the network interleave (a write may fail half way, the stream may fail to open
    or break, deliveries come in pieces of any size), every step is a number of
    steps of the pipe: bytes given to it, some of them arrived, some of those
    returned to the game, in order, none lost from the middle, none twice. What was
    given is everything [put_data] accepted, as long as the side was neither
    finished, aborted nor dropped; afterwards it is what was accepted before. An
    object that knows of a clean end has read or holds all of it. *)
Theorem streams_are_pipes ls l mine :
  let c := run opened ls in let c' := step c l in
  let e := near mine c in let e' := far mine c in
  pipe (near mine opened) (far mine opened) = new_pipe ∧
  rtc pipe_step (pipe e e') (pipe (near mine c') (far mine c')) ∧ pipe_ok (pipe e e') ∧
  given (pipe e e') `prefix_of` mjoin (put e) ∧
  (shut (pipe e e') = false → given (pipe e e') = mjoin (put e)) ∧
  (held (tasks e') = true → got e' ++ Stream.buffered_bytes (object e') `prefix_of` arrived (pipe e e')) ∧
  (held (tasks e') = true → Stream.ended (object e') = Some None →
   shut (pipe e e') = true ∧ got e' ++ Stream.buffered_bytes (object e') = given (pipe e e')).
Proof.
  cbv zeta. pose proof (run_ok ls) as Hc. set (c := run opened ls) in *.
  pose proof (conduit_ok_step c l Hc) as Hc'.
  destruct (side_ok mine c Hc) as (He & He' & Hf), (side_ok mine _ Hc') as (Hs & Hs' & Hf').
  pose proof (pipe_holds _ _ He He' Hf) as Hp. split_and!; [by destruct mine| |done|..].
  - apply later_steps; [done|by apply pipe_holds|]. destruct (conduit_grows c l Hc).
    destruct mine; by apply grows_later.
  - by apply promised_put.
  - by apply pipe_all_put.
  - intros Hh. by apply object_shows.
  - intros Hh Hen. destruct (object_shows _ He' Hh) as [_ Ho]. destruct (Ho Hen) as [Hin Heq].
    destruct (p_told _ Hp) as [? Ha]; [by apply bool_decide_eq_true|]. split; [done|].
    rewrite Heq. exact Ha.
Qed.

(** Two bytes cross in pieces, the side that wrote them finishes, and the other
    learns of it. *)
Definition exchange : list (bool * Label) :=
  [(true, Put [x61; x62; x63] 2); (true, Opens None); (true, FinishIt); (true, Writes None);
   (false, Deliver 1); (false, GetPartial 9); (true, Writes None); (false, Deliver 7);
   (false, DeliverEnd); (false, Look)].

Lemma streams_are_pipes_witness :
  let c := run opened exchange in
  Stream.ended (object (there c)) = Some None ∧
  got (there c) ++ Stream.buffered_bytes (object (there c)) = given (pipe (here c) (there c)) ∧
  got (there c) = [x61] ∧ given (pipe (here c) (there c)) = [x61; x62].
Proof.
  intros c. assert (Stream.ended (object (there c)) = Some None) as Hen by (vm_compute; reflexivity).
  destruct (streams_are_pipes exchange (true, Look) true) as (_ & _ & _ & _ & _ & _ & Hall).
  split_and!; [exact Hen|apply Hall; [vm_compute; reflexivity|exact Hen]|vm_compute; reflexivity..].
Defined.

(** C10: what is put can be read. At any point of any run, while one side's writer
    runs and the other side holds its stream with the reader running, the tasks and
    the network can go on so that a waiting read of [n] bytes, [n] no more than was
    put and not yet read, returns [OK] with exactly the next [n] bytes, whatever is
    queued, half delivered, or not even opened yet. *)
Theorem what_is_put_can_be_read ls mine n :
  let c := run opened ls in let e := near mine c in let e' := far mine c in
  Raw.opening (carry_of (tasks e)) || Raw.writing (carry_of (tasks e)) = true →
  Raw.opening (carry_of (tasks e')) || Raw.reading (carry_of (tasks e')) = true →
  held (tasks e') = true →
  0 < n → len (got e') + n ≤ len (given (pipe e e')) →
  ∃ ks o f, carried ks ∧
    let out := take (Z.to_nat n) (drop (length (got e')) (given (pipe e e'))) in
    let r := far mine (run c ks) in
    Stream.get_data n (install r) (Stream.mk_future [] (reader_gone (tasks r))) = Some (Stream.OK, out, o, f) ∧
    got (far mine (run c (ks ++ [(negb mine, Get n)]))) = got e' ++ out.
Proof. apply read_after_arrival, run_ok. Qed.

Lemma what_is_put_can_be_read_witness :
  let c := run opened (take 6 exchange) in
  ∃ ks o f, carried ks ∧
    let r := far true (run c ks) in
    Stream.get_data 1 (install r) (Stream.mk_future [] (reader_gone (tasks r))) = Some (Stream.OK, [x62], o, f) ∧
    got (far true (run c (ks ++ [(false, Get 1)]))) = [x61; x62].
Proof.
  let ls := eval cbv in (take 6 exchange) in
  destruct (what_is_put_can_be_read ls true 1) as (ks & o & f & Hks & Hget & Hgot);
    [vm_compute; reflexivity..|vm_compute; congruence|].
  exists ks, o, f. exact (conj Hks (conj Hget Hgot)).
Defined.
