(* ===== verification/Polled.v ===== *)
(** * Objects polled on the frame signal

    [IrohConnection], [IrohTransfer], [IrohTopic] and [IrohDocument] share one
    shape: a queue fed by a task on the runtime, a subscription to the scene
    tree's [process_frame] that lasts as long as the queue does, and one deferred
    signal per event. [Polled] states that shape as an interface; what it implies
    for every implementor is proved here once. *)

From S2P Require Import Prelude.

(** ** The frame subscription

    [subscribed] is the scene tree's side of [ticking]; [tree] is whether there
    is a scene tree at the moment. *)

Record Ticker : Type := mk_ticker {
  ticking : bool;
  subscribed : bool;
}.

Definition idle : Ticker := mk_ticker false false.

Definition start_ticking (tree : bool) (t : Ticker) : Ticker :=
  if ticking t then t
  else if tree then mk_ticker true true
  else t.

Definition stop_ticking (tree : bool) (t : Ticker) : Ticker :=
  if ticking t then mk_ticker false (if tree then false else subscribed t)
  else t.

(** ** The interface *)

Class Polled (Obj Ev Sig : Type) : Type := {
  source : Obj → option (Chan Ev);
  (** replaces the queue of an object that has one *)
  with_source : Chan Ev → Obj → Obj;
  ticker : Obj → Ticker;
  (** every signal emitted so far *)
  signals : Obj → list Sig;
  handle : bool → Obj → Ev → Obj;
  terminal : Ev → bool;
  source_with c o : is_Some (source o) → source (with_source c o) = Some c;
  ticker_with c o : ticker (with_source c o) = ticker o;
  signals_with c o : signals (with_source c o) = signals o;
  with_source_with c c' o : with_source c (with_source c' o) = with_source c o;
  with_source_same c o : source o = Some c → with_source c o = o;
  handle_emits tree o e : ∃ s, signals (handle tree o e) = signals o ++ [s];
  handle_live tree o e : terminal e = false →
    source (handle tree o e) = source o ∧ ticker (handle tree o e) = ticker o;
  handle_end tree o e : terminal e = true →
    source (handle tree o e) = None ∧ ticker (handle tree o e) = stop_ticking tree (ticker o);
}.

Section polled.
Context {Obj Ev Sig : Type} `{Polled Obj Ev Sig}.
Implicit Types o : Obj.

(** [_drain]: everything queued is collected before anything is handled. *)
Definition drain (tree : bool) (o : Obj) : Obj :=
  match source o with
  | None => o
  | Some c =>
      let '(pending, c) := chan_drain c in
      foldl (handle tree) (with_source c o) pending
  end.

(** The task queueing events; what is sent to a queue nobody holds is lost. *)
Definition deliver (evs : list Ev) (o : Obj) : Obj :=
  match source o with
  | None => o
  | Some c => with_source (mk_chan (queue c ++ evs) (receiver_alive c)) o
  end.

(** One frame: some events have arrived, and the object is polled. *)
Definition frame (tree : bool) (o : Obj) (evs : list Ev) : Obj := drain tree (deliver evs o).

Definition ended (evs : list Ev) : bool := existsb terminal evs.

Lemma ended_app evs evs' : ended (evs ++ evs') = ended evs || ended evs'.
Proof. apply existsb_app. Qed.

(** Handling a batch, queue aside. *)
Lemma handle_batch tree o evs :
  let o' := foldl (handle tree) o evs in
  (ended evs = false → source o' = source o ∧ ticker o' = ticker o) ∧
  (ended evs = true → source o' = None) ∧
  (ended evs = true → tree = true → ticking (ticker o) = subscribed (ticker o) → ticker o' = idle) ∧
  length (signals o') = (length (signals o) + length evs)%nat ∧
  signals o `prefix_of` signals o'.
Proof.
  revert o. induction evs as [|e evs IH]; intros o; cbv zeta; cbn [foldl].
  { split_and!; try done; cbn; lia. }
  destruct (IH (handle tree o e)) as (Hlive & Hend & Hidle & Hlen & Hpre).
  destruct (handle_emits tree o e) as (s & Hs).
  assert (length (signals (foldl (handle tree) (handle tree o e) evs)) =
          (length (signals o) + length (e :: evs))%nat) as Hl.
  { rewrite Hlen, Hs, length_app. cbn. lia. }
  assert (signals o `prefix_of` signals (foldl (handle tree) (handle tree o e) evs)) as Hp.
  { etrans; [|exact Hpre]. rewrite Hs. by apply prefix_app_r. }
  change (ended (e :: evs)) with (terminal e || ended evs).
  destruct (terminal e) eqn:Ht; cbn.
  - destruct (handle_end tree o e Ht) as [Hsrc Htick].
    assert (ended evs = false → source (foldl (handle tree) (handle tree o e) evs) = None) as Hn.
    { intros Hf. apply Hlive in Hf as [-> _]. done. }
    split_and!; try done.
    + intros _. destruct (ended evs) eqn:He; auto.
    + intros _ Htree Hcoh. subst tree.
      assert (ticker (handle true o e) = idle) as Hi.
      { rewrite Htick. destruct (ticker o) as [[] []]; done. }
      destruct (ended evs) eqn:He; [apply Hidle; [done|done|by rewrite Hi]|].
      destruct (Hlive eq_refl) as [_ ->]. done.
  - destruct (handle_live tree o e Ht) as [Hsrc Htick].
    split_and!; try done.
    + intros Hf. destruct (Hlive Hf) as [-> ->]. done.
    + intros He Htree Hcoh. apply Hidle; [done|done|by rewrite Htick].
Qed.

(** A frame handles what was queued, then what arrived. *)
Lemma frame_queue tree o evs c :
  source o = Some c →
  frame tree o evs =
    foldl (handle tree) (with_source (mk_chan [] (receiver_alive c)) o) (queue c ++ evs).
Proof.
  intros Hs. unfold frame, drain, deliver. rewrite Hs, source_with, chan_drain_spec by (rewrite Hs; eauto).
  by rewrite with_source_with.
Qed.

(** A frame on an object whose queue is empty. *)
Lemma frame_spec tree o evs a :
  source o = Some (mk_chan [] a) → frame tree o evs = foldl (handle tree) o evs.
Proof.
  intros Hs. rewrite (frame_queue _ _ _ _ Hs). cbn. by rewrite with_source_same.
Qed.

Lemma frame_gone tree o evs : source o = None → frame tree o evs = o.
Proof. intros Hs. unfold frame, drain, deliver. by rewrite Hs, Hs. Qed.

(** How the events are spread over frames makes no difference, as long as the
    task sends nothing after a terminal event. *)
Lemma frames_spec tree o batches a :
  source o = Some (mk_chan [] a) →
  (∀ pre e post, mjoin batches = pre ++ e :: post → terminal e = true → post = []) →
  foldl (frame tree) o batches = foldl (handle tree) o (mjoin batches).
Proof.
  revert o. induction batches as [|evs batches IH]; intros o Hs Hlast; [done|].
  cbn [foldl]. change (mjoin (evs :: batches)) with (evs ++ mjoin batches) in *.
  rewrite foldl_app. rewrite (frame_spec _ _ _ a) by done.
  destruct (ended evs) eqn:He.
  - apply existsb_exists in He as (e & Hin & Ht). apply list_elem_of_In, list_elem_of_split in Hin as (l1 & l2 & ->).
    assert (l2 ++ mjoin batches = []) as [-> Hnil]%app_nil.
    { apply (Hlast l1 e); [by rewrite <- app_assoc|done]. }
    assert (source (foldl (handle tree) o (l1 ++ [e])) = None) as Hnone.
    { apply handle_batch. rewrite ended_app. cbn. rewrite Ht. by rewrite orb_true_r. }
    rewrite Hnil. cbn [foldl]. clear -Hnone.
    induction batches as [|b batches IH]; [done|]. cbn [foldl]. by rewrite frame_gone.
  - apply IH.
    + destruct (handle_batch tree o evs) as (Hl & _). by destruct (Hl He) as [-> _].
    + intros pre e post Heq. apply (Hlast (evs ++ pre)). by rewrite Heq, <- app_assoc.
Qed.

(** A task that ends with at most one terminal event sends nothing after it. *)
Lemma last_word evs live last :
  evs = live ++ option_list last → Forall (λ e, terminal e = false) live →
  ∀ pre e post, evs = pre ++ e :: post → terminal e = true → post = [].
Proof.
  intros -> Hf pre e post Heq He.
  destruct post as [|y post _] using rev_ind; [done|]. exfalso.
  rewrite app_comm_cons, app_assoc in Heq.
  assert (∀ l, live = pre ++ e :: l → False) as Hno.
  { intros l ->. rewrite Forall_app, Forall_cons in Hf. destruct Hf as (_ & He' & _). congruence. }
  destruct last as [x|]; cbn in Heq.
  - apply app_inj_tail in Heq as [-> _]. by eapply Hno.
  - rewrite app_nil_r in Heq. eapply (Hno (post ++ [y])). by rewrite Heq, <- app_assoc.
Qed.

Lemma not_ended evs : Forall (λ e, terminal e = false) evs → ended evs = false.
Proof.
  intros Hf. apply not_true_iff_false. unfold ended. rewrite existsb_exists.
  intros (x & Hin%list_elem_of_In & Hx). rewrite Forall_forall in Hf. rewrite Hf in Hx; done.
Qed.
End polled.
