(* ===== verification/Attended.v ===== *)
(** * A polled object and the task behind it

    [IrohTopic] and [IrohDocument] are objects of [Polled] whose handle also
    takes commands: an unbounded channel leads to a task on the runtime, which
    takes one command at a time and sends events back. [Attended] states what
    such an object and its task are to each other; from there the two are run
    together, in any interleaving, and what holds of every such pair is proved
    once. *)

From S2P Require Import Prelude Polled.

(** ** The interface *)

Class Attended (Obj Ev Sig Cmd Task In Out : Type) `{Polled Obj Ev Sig} : Type := {
  (** the object: where its commands go, as long as it has a queue *)
  orders : Obj → option (Chan Cmd);
  with_orders : Chan Cmd → Obj → Obj;
  signal : Ev → Sig;
  (** a method of the object that gives a command, and what it answers *)
  order : Cmd → Obj → Obj * bool;
  (** giving up the handle, by a method or by freeing the object *)
  let_go : bool → Obj → Obj;
  (** the task: one arm of its [select!] is [commands.recv()], with what comes of
      the command *)
  work : Task → In → Task;
  told : Task → list Ev;
  alive : Task → bool;
  (** whether what it tells is received *)
  listened : Task → bool;
  on_command : Out → option Cmd → In;
  takes : In → option (option Cmd);
  (** the other arms *)
  own : In → bool;
  handle_dropped : In;
  orders_source o : is_Some (orders o) ↔ is_Some (source o);
  orders_with c o : is_Some (orders o) → orders (with_orders c o) = Some c;
  orders_with_source c o : orders (with_source c o) = orders o;
  source_with_orders c o : source (with_orders c o) = source o;
  signals_with_orders c o : signals (with_orders c o) = signals o;
  orders_handle tree o e : terminal e = false → orders (handle tree o e) = orders o;
  signals_handle tree o e : signals (handle tree o e) = signals o ++ [signal e];
  order_spec c o : order c o =
    match orders o with
    | Some ch => let '(ch, ok) := chan_send ch c in (with_orders ch o, ok)
    | None => (o, false)
    end;
  let_go_spec tree o : source (let_go tree o) = None ∧ signals (let_go tree o) = signals o;
  (** what was told stays told; a task that returned tells nothing more *)
  told_grows t i : told t `prefix_of` told (work t i);
  alive_stops t i : alive t = false → alive (work t i) = false ∧ told (work t i) = told t;
  told_dropped t : told (work t handle_dropped) = told t;
  dropped_alive t : alive (work t handle_dropped) = alive t;
  takes_command out c : takes (on_command out c) = Some c;
  takes_dropped : takes handle_dropped = None;
  own_takes i : own i = true → takes i = None;
  own_dropped : own handle_dropped = false;
  listened_command t out c : listened (work t (on_command out c)) = listened t;
  listened_own t i : own i = true → listened (work t i) = listened t;
  listened_dropped t : listened (work t handle_dropped) = false;
}.

(** ** The two together *)

Section pair.
Context {Obj Ev Sig Cmd Task In Out : Type} `{Attended Obj Ev Sig Cmd Task In Out}.

(** The channels are kept aside, and installed in the object while the main
    thread uses it. [inputs], [accepted] and [heard] are what happened so far:
    what the task took, the commands answered [true], and the events handled. *)
Record Pair : Type := mk_pair {
  object : Obj;
  task : option Task;
  events : Chan Ev;
  commands : Chan Cmd;
  inputs : list In;
  accepted : list Cmd;
  heard : list Ev;
}.

Definition held (s : Pair) : bool := bool_decide (is_Some (source (object s))).

Definition install (s : Pair) : Obj :=
  if held s then with_orders (commands s) (with_source (events s) (object s)) else object s.

(** The main thread has used the object, which may have lost its handle
    meanwhile: both channels are dropped then. *)
Definition put_back (o : Obj) (cmds : list Cmd) (evs : list Ev) (s : Pair) : Pair :=
  match source o, orders o with
  | Some e, Some c => mk_pair o (task s) e c (inputs s) (accepted s ++ cmds) (heard s ++ evs)
  | _, _ =>
      if held s then
        mk_pair o ((λ t, work t handle_dropped) <$> task s) (chan_drop_receiver (events s)) (commands s)
          (inputs s ++ (match task s with Some _ => [handle_dropped] | None => [] end))
          (accepted s ++ cmds) (heard s ++ evs)
      else mk_pair o (task s) (events s) (commands s) (inputs s) (accepted s) (heard s)
  end.

(** The task has moved on to [t']. A task that returned has dropped its receiver
    of commands. *)
Definition moved (old : list Ev) (t' : Task) (s : Pair) : Pair :=
  let new := drop (length old) (told t') in
  mk_pair (object s) (Some t')
    (foldl (λ c e, (chan_send c e).1) (events s) new)
    (if alive t' then commands s else chan_drop_receiver (commands s))
    (inputs s) (accepted s) (heard s).

Inductive Label : Type :=
  (** the runtime starts the task, which comes as far as [t0] *)
  | Start
  (** the arms of its [select!] *)
  | TakeCommand (out : Out)
  | Works (i : In)
  (** the main thread: a frame, a command, the end *)
  | Frame (tree : bool)
  | Order (c : Cmd)
  | LetGo (tree : bool).

Variable t0 : Task.
Hypothesis t0_listened : listened t0 = true.

Definition take_input (i : In) (cmds : Chan Cmd) (s : Pair) : Pair :=
  match task s with
  | Some t =>
      moved (told t) (work t i)
        (mk_pair (object s) (task s) (events s) cmds (inputs s ++ [i]) (accepted s) (heard s))
  | None => s
  end.

Definition running (s : Pair) : bool := match task s with Some t => alive t | None => false end.

Definition pair_step (s : Pair) (l : Label) : Pair :=
  match l with
  | Start =>
      match task s with
      | None =>
          let s := moved [] t0 s in
          if held s then s
          else mk_pair (object s) (Some (work t0 handle_dropped)) (events s) (commands s)
                 (inputs s ++ [handle_dropped]) (accepted s) (heard s)
      | Some _ => s
      end
  | TakeCommand out =>
      if running s then
        match chan_try_recv (commands s) with
        | (Some c, ch) => take_input (on_command out (Some c)) ch s
        | (None, ch) => if held s then s else take_input (on_command out None) ch s
        end
      else s
  | Works i => if own i && running s then take_input i (commands s) s else s
  | Frame tree => put_back (drain tree (install s)) [] (if held s then queue (events s) else []) s
  | Order c => let '(o, ok) := order c (install s) in put_back o (if ok then [c] else []) [] s
  | LetGo tree => put_back (let_go tree (install s)) [] [] s
  end.

Definition pair_run (s : Pair) (ls : list Label) : Pair := foldl pair_step s ls.

(** An object just wrapped around a handle whose task the runtime took. *)
Definition pair_start (o : Obj) : Pair :=
  mk_pair o None unbounded_channel unbounded_channel [] [] [].

(** ** What holds of them *)

#[local] Arguments moved : simpl never.
#[local] Arguments ended : simpl never.

(** The commands the task took, oldest first. *)
Definition taken (ins : list In) : list Cmd := omap (λ i, mjoin (takes i)) ins.
Arguments taken : simpl never.

Definition told_so_far (s : Pair) : list Ev := match task s with Some t => told t | None => [] end.

(** Commands are taken by a task that runs. *)
Definition taken_alive (ins : list In) : Prop :=
  ∀ pre i post, ins = pre ++ i :: post → is_Some (takes i) → alive (foldl work t0 pre) = true.

Lemma taken_alive_nil : taken_alive [].
Proof. intros [] ???; done. Qed.

Lemma taken_alive_snoc ins i :
  taken_alive ins → (is_Some (takes i) → alive (foldl work t0 ins) = true) → taken_alive (ins ++ [i]).
Proof.
  intros Hins Hi pre j post Heq. destruct post as [|k post _] using rev_ind.
  - apply app_inj_tail in Heq as [<- <-]. done.
  - rewrite app_comm_cons, app_assoc in Heq. apply app_inj_tail in Heq as [-> <-]. by apply (Hins pre j post).
Qed.

Lemma taken_alive_inv ins i :
  taken_alive (ins ++ [i]) →
  taken_alive ins ∧ (is_Some (takes i) → alive (foldl work t0 ins) = true).
Proof.
  intros Hins. split; [|by apply (Hins ins i [])].
  intros pre j post ->. apply (Hins pre j (post ++ [i])). by rewrite <- app_assoc.
Qed.

Lemma taken_alive_dropped ins : taken_alive ins → taken_alive (ins ++ [handle_dropped]).
Proof. intros Hins. apply taken_alive_snoc; [done|]. rewrite takes_dropped. by intros []. Qed.

(** [first] is what was emitted before the two were put together; [dead] is whether
    the runtime dropped the task with everything it held (see [kill]). *)
Record pair_ok (dead : bool) (first : list Sig) (s : Pair) : Prop := {
  ok_task : match task s with
            | Some t => t = foldl work t0 (inputs s)
            | None => inputs s = []
            end;
  ok_commands :
    if receiver_alive (commands s) then accepted s = taken (inputs s) ++ queue (commands s)
    else queue (commands s) = [] ∧ taken (inputs s) `prefix_of` accepted s;
  ok_receiver : receiver_alive (commands s) =
    negb dead && match task s with Some t => alive t | None => true end;
  ok_events : receiver_alive (events s) = held s;
  ok_heard : heard s `prefix_of` told_so_far s;
  ok_queue : held s = true → heard s ++ queue (events s) = told_so_far s;
  ok_listened : match task s with Some t => listened t = held s | None => True end;
  ok_ended : held s = true → ended (heard s) = false;
  ok_alive : taken_alive (inputs s);
  ok_signals : signals (object s) = first ++ (signal <$> heard s);
}.

Lemma taken_snoc ins i : taken (ins ++ [i]) = taken ins ++ option_list (mjoin (takes i)).
Proof. unfold taken. rewrite omap_snoc. by destruct (mjoin (takes i)). Qed.

Lemma taken_dropped ins : taken (ins ++ [handle_dropped]) = taken ins.
Proof. by rewrite taken_snoc, takes_dropped, app_nil_r. Qed.

Lemma held_spec s : held s = true ↔ is_Some (source (object s)).
Proof. apply bool_decide_eq_true. Qed.

Lemma pair_ok_start o : is_Some (source o) → pair_ok false (signals o) (pair_start o).
Proof.
  intros Hs. assert (held (pair_start o) = true) as Hh by by apply held_spec.
  split; rewrite ?Hh; try done; cbn; [apply taken_alive_nil|by rewrite app_nil_r].
Qed.

(** Several sends to a queue whose receiver lives. *)
Lemma foldl_send {A} (c : Chan A) xs :
  foldl (λ c x, (chan_send c x).1) c xs =
    if receiver_alive c then mk_chan (queue c ++ xs) true else c.
Proof.
  revert c. induction xs as [|x xs IH]; intros [q []]; cbn; rewrite ?app_nil_r, ?IH; try done.
  cbn. by rewrite <- app_assoc.
Qed.

(** The task tells more: [old] is what it had told before. *)
Lemma moved_spec old t' s more :
  told t' = old ++ more →
  moved old t' s =
    mk_pair (object s) (Some t')
      (if receiver_alive (events s) then mk_chan (queue (events s) ++ more) true else events s)
      (if alive t' then commands s else chan_drop_receiver (commands s))
      (inputs s) (accepted s) (heard s).
Proof. intros Ht. unfold moved. by rewrite Ht, drop_app_length, foldl_send. Qed.

Lemma taking_ok first i cmds s t :
  pair_ok false first s → task s = Some t → alive t = true → receiver_alive cmds = true →
  accepted s = taken (inputs s) ++ option_list (mjoin (takes i)) ++ queue cmds →
  listened (work t i) = listened t →
  pair_ok false first (take_input i cmds s).
Proof.
  intros [Ht _ _ He Hh Hq Hli Hn Hal Hs] Htask Ha Hcmds Hacc Hlis.
  unfold told_so_far in Hh, Hq. rewrite Htask in Ht, Hh, Hq.
  destruct (told_grows t i) as (more & Hmore).
  unfold take_input. rewrite Htask, (moved_spec _ _ _ _ Hmore). cbn.
  split; cbn; rewrite ?Hs; unfold held, told_so_far in *; cbn; try done.
  - by rewrite foldl_snoc, Ht.
  - rewrite taken_snoc, <- app_assoc. destruct (alive (work t i)); cbn; rewrite ?Hcmds; [done|].
    split; [done|]. rewrite Hacc, app_assoc. by apply prefix_app_r.
  - by destruct (alive (work t i)).
  - rewrite <- He. by destruct (receiver_alive (events s)) eqn:E; cbn.
  - rewrite Hmore. by apply prefix_app_r.
  - intros Hd. rewrite He, Hd. cbn. by rewrite Hmore, <- (Hq Hd), app_assoc.
  - rewrite Hlis. by rewrite Htask in Hli.
  - apply taken_alive_snoc; [done|]. by rewrite <- Ht.
Qed.

Lemma put_back_held dead first o cmds evs s e c :
  pair_ok dead first s → held s = true → source o = Some e → orders o = Some c →
  receiver_alive e = true → receiver_alive c = receiver_alive (commands s) →
  evs ++ queue e = queue (events s) → ended evs = false →
  (if receiver_alive c then queue c = queue (commands s) ++ cmds else queue c = [] ∧ cmds = []) →
  signals o = signals (object s) ++ (signal <$> evs) →
  pair_ok dead first (put_back o cmds evs s).
Proof.
  intros [Ht Hc Hr He Hh Hq Hli Hn Ha Hs] Hd Hsrc Hord Hea Hca Hevs Hend Hcmds Hsig.
  unfold put_back. rewrite Hsrc, Hord.
  assert (held (mk_pair o (task s) e c (inputs s) (accepted s ++ cmds) (heard s ++ evs)) = true) as Hd'
    by (apply held_spec; cbn; eauto).
  split; rewrite ?Hd'; cbn; try done.
  - rewrite Hca in Hcmds |- *. destruct (receiver_alive (commands s)).
    + by rewrite Hcmds, Hc, <- app_assoc.
    + destruct Hcmds as [-> ->]. rewrite app_nil_r. by destruct Hc.
  - by rewrite Hca.
  - specialize (Hq Hd). rewrite <- Hevs, app_assoc in Hq. eexists. by symmetry.
  - intros _. rewrite <- app_assoc, Hevs. by apply Hq.
  - destruct (task s); [|done]. rewrite Hli, Hd. by symmetry.
  - intros _. rewrite ended_app, Hend, orb_false_r. by apply Hn.
  - by rewrite Hsig, Hs, fmap_app, app_assoc.
Qed.

Lemma put_back_gone dead first o evs s :
  pair_ok dead first s → held s = true → source o = None →
  evs = [] ∨ evs = queue (events s) →
  signals o = signals (object s) ++ (signal <$> evs) →
  pair_ok dead first (put_back o [] evs s).
Proof.
  intros [Ht Hc Hr He Hh Hq Hli Hn Ha Hs] Hd Hsrc Hevs Hsig. unfold put_back. rewrite Hsrc, Hd, app_nil_r.
  assert (heard s ++ evs `prefix_of` told_so_far s) as Hh'.
  { destruct Hevs as [->| ->]; [by rewrite app_nil_r|by rewrite Hq]. }
  split; unfold held, told_so_far in *; cbn; rewrite ?Hsrc; try done.
  - destruct (task s); cbn; [by rewrite foldl_snoc, Ht|by rewrite Ht].
  - destruct (task s); [by rewrite taken_dropped|by rewrite app_nil_r].
  - rewrite Hr. destruct (task s); cbn; [by rewrite dropped_alive|done].
  - destruct (task s); cbn; [|done]. etrans; [exact Hh'|apply told_grows].
  - destruct (task s); [|done]. by apply listened_dropped.
  - destruct (task s); [by apply taken_alive_dropped|by rewrite app_nil_r].
  - by rewrite Hsig, Hs, fmap_app, app_assoc.
Qed.

(** The object is used after its handle went: nothing changes. *)
Lemma put_back_later dead first o evs s :
  pair_ok dead first s → held s = false → source o = None → signals o = signals (object s) →
  pair_ok dead first (put_back o [] evs s).
Proof.
  intros [Ht Hc Hr He Hh Hq Hli Hn Ha Hs] Hd Hsrc Hsig. unfold put_back. rewrite Hsrc, Hd.
  split; unfold held, told_so_far in *; cbn; rewrite ?Hsrc, ?Hsig; try done.
  - by rewrite He, Hd.
  - destruct (task s); [|done]. by rewrite Hli, Hd.
Qed.

Lemma foldl_handle_signals tree o evs :
  signals (foldl (handle tree) o evs) = signals o ++ (signal <$> evs).
Proof.
  revert o. induction evs as [|e evs IH]; intros o; cbn; [by rewrite app_nil_r|].
  by rewrite IH, signals_handle, <- app_assoc.
Qed.

Lemma foldl_handle_orders tree o evs :
  ended evs = false → orders (foldl (handle tree) o evs) = orders o.
Proof.
  revert o. induction evs as [|e evs IH]; intros o; [done|].
  change (ended (e :: evs)) with (terminal e || ended evs). intros [He Hevs]%orb_false_iff.
  cbn. by rewrite IH, orders_handle.
Qed.

(** The object while its channels are in it. *)
Lemma install_spec s : held s = true →
  source (install s) = Some (events s) ∧ orders (install s) = Some (commands s) ∧
  signals (install s) = signals (object s).
Proof.
  intros Hd. assert (is_Some (source (object s))) as Hs by by apply held_spec.
  unfold install. rewrite Hd, source_with_orders, source_with, signals_with_orders, signals_with by done.
  rewrite orders_with; [done|]. rewrite orders_with_source. by apply orders_source.
Qed.

Lemma not_held s : held s = false → source (object s) = None.
Proof. intros Hd%bool_decide_eq_false. by apply eq_None_not_Some. Qed.

Lemma frame_ok dead first tree s : pair_ok dead first s → pair_ok dead first (pair_step s (Frame tree)).
Proof.
  intros Hok. cbn. destruct (held s) eqn:Hd.
  - destruct (install_spec s Hd) as (Hsrc & Hord & Hsig).
    unfold drain. rewrite Hsrc, chan_drain_spec.
    set (c := mk_chan [] _). set (o := with_source c (install s)).
    assert (source o = Some c) as Hso by (apply source_with; rewrite Hsrc; eauto).
    assert (signals o = signals (object s)) as Hsigo by (unfold o; by rewrite signals_with).
    destruct (handle_batch tree o (queue (events s))) as (Hl & He & _).
    pose proof (foldl_handle_signals tree o (queue (events s))) as Hs. rewrite Hsigo in Hs.
    destruct (ended (queue (events s))) eqn:Hend.
    + apply put_back_gone; auto.
    + destruct (Hl eq_refl) as [Hsrc' _]. rewrite Hso in Hsrc'.
      apply put_back_held with c (commands s); try done.
      * rewrite foldl_handle_orders by done. unfold o. by rewrite orders_with_source.
      * unfold c. cbn. by rewrite (ok_events _ _ _ Hok).
      * unfold c. cbn. by rewrite app_nil_r.
      * rewrite app_nil_r. pose proof (ok_commands _ _ _ Hok) as Hc.
        destruct (receiver_alive (commands s)); [done|by destruct Hc].
  - pose proof (not_held _ Hd) as Hn. unfold install. rewrite Hd. unfold drain. rewrite Hn.
    by apply put_back_later.
Qed.

Lemma order_ok dead first c s : pair_ok dead first s → pair_ok dead first (pair_step s (Order c)).
Proof.
  intros Hok. cbn. rewrite order_spec. destruct (held s) eqn:Hd.
  - destruct (install_spec s Hd) as (Hsrc & Hord & Hsig). rewrite Hord. unfold chan_send.
    pose proof (ok_commands _ _ _ Hok) as Hc. pose proof (ok_events _ _ _ Hok) as He. rewrite Hd in He.
    destruct (receiver_alive (commands s)) eqn:Ha;
      (eapply put_back_held; [done|done|by rewrite source_with_orders|apply orders_with; by rewrite Hord
        |done|by rewrite ?Ha|done|done| |by rewrite signals_with_orders, Hsig, app_nil_r]).
    + done.
    + rewrite Ha. by destruct Hc.
  - pose proof (not_held _ Hd) as Hn. unfold install. rewrite Hd.
    destruct (orders (object s)) eqn:Ho.
    { assert (is_Some (source (object s))) as [? Hx] by (apply orders_source; eauto). congruence. }
    by apply put_back_later.
Qed.

Lemma let_go_ok dead first tree s : pair_ok dead first s → pair_ok dead first (pair_step s (LetGo tree)).
Proof.
  intros Hok. cbn. destruct (let_go_spec tree (install s)) as [Hsrc Hsig].
  destruct (held s) eqn:Hd.
  - destruct (install_spec s Hd) as (_ & _ & Hs).
    apply put_back_gone; auto. by rewrite Hsig, Hs, app_nil_r.
  - apply put_back_later; [done..|]. rewrite Hsig. unfold install. by rewrite Hd.
Qed.

Lemma begun_ok first s :
  pair_ok false first s → task s = None → held s = true → pair_ok false first (moved [] t0 s).
Proof.
  intros [Ht Hc Hr He Hh Hq Hli Hn Ha Hs] Htask Hd. unfold told_so_far in Hh, Hq.
  rewrite Htask in Ht, Hr, Hh, Hq. apply prefix_nil_inv in Hh. rewrite Ht, Hr in Hc.
  rewrite (moved_spec [] t0 s (told t0)), He, Hd by done. specialize (Hq Hd). apply app_nil in Hq as [_ Hq].
  split; unfold told_so_far, held in *; cbn; rewrite ?Ht, ?Hh, ?Hr, ?Hq; try done.
  - destruct (alive t0); cbn; [by rewrite Hr|]. split; [done|]. apply prefix_nil.
  - destruct (alive t0); [by rewrite Hr|done].
  - apply prefix_nil.
  - by rewrite t0_listened.
  - apply taken_alive_nil.
  - by rewrite Hs, Hh.
Qed.

(** The task starts after the handle went. *)
Lemma begun_late_ok first s :
  pair_ok false first s → task s = None → held s = false →
  pair_ok false first (mk_pair (object s) (Some (work t0 handle_dropped)) (events (moved [] t0 s))
    (commands (moved [] t0 s)) (inputs s ++ [handle_dropped]) (accepted s) (heard s)).
Proof.
  intros [Ht Hc Hr He Hh Hq Hli Hn Ha Hs] Htask Hd. unfold told_so_far in Hh, Hq.
  rewrite Htask in Ht, Hr, Hh, Hq. apply prefix_nil_inv in Hh. rewrite Ht, Hr in Hc.
  rewrite (moved_spec [] t0 s (told t0)), He, Hd by done.
  split; unfold told_so_far, held in *; cbn; rewrite ?taken_dropped, ?dropped_alive, ?Ht, ?Hh, ?Hr, ?Hd; try done.
  - destruct (alive t0); cbn; [by rewrite Hr|]. split; [done|]. apply prefix_nil.
  - destruct (alive t0); [by rewrite Hr|done].
  - by rewrite He.
  - apply prefix_nil.
  - apply listened_dropped.
  - apply taken_alive_dropped, taken_alive_nil.
  - by rewrite Hs, Hh.
Qed.

Lemma begins_ok first s : pair_ok false first s → pair_ok false first (pair_step s Start).
Proof.
  intros Hok. cbn. destruct (task s) eqn:Htask; [done|].
  assert (held (moved [] t0 s) = held s) as -> by done.
  destruct (held s) eqn:Hd; [by apply begun_ok|exact (begun_late_ok first s Hok Htask Hd)].
Qed.

Lemma pair_step_ok first s l : pair_ok false first s → pair_ok false first (pair_step s l).
Proof.
  intros Hok. destruct l as [|out|i|tree|c|tree];
    [by apply begins_ok| | |by apply frame_ok|by apply order_ok|by apply let_go_ok];
    cbn; [|destruct (own i) eqn:Hi; [|done]; cbn];
    (destruct (running s) eqn:Hrun; [|done]);
    unfold running in Hrun; destruct (task s) as [t|] eqn:Htask; try done;
    pose proof (ok_receiver _ _ _ Hok) as Hr; pose proof (ok_commands _ _ _ Hok) as Hc;
    rewrite Htask, Hrun in Hr; rewrite Hr in Hc.
  - destruct (chan_try_recv (commands s)) as [[c|] ch] eqn:Hrecv; [|destruct (held s); [done|]];
      unfold chan_try_recv in Hrecv; destruct (queue (commands s)) as [|x q] eqn:Hq; simplify_eq;
      apply taking_ok with t; try apply listened_command; try done;
      rewrite takes_command, ?Hq; cbn; by rewrite Hc.
  - apply taking_ok with t; try done; [by rewrite own_takes|by apply listened_own].
Qed.

Lemma pair_run_ok o ls : is_Some (source o) → pair_ok false (signals o) (pair_run (pair_start o) ls).
Proof.
  intros Hs. apply (foldl_preserves pair_step (pair_ok false (signals o))); [by apply pair_ok_start|].
  intros s l. apply pair_step_ok.
Qed.

(** The handle goes with a terminal event, if the game does not let go of it
    first. *)
Definition lets_go (l : Label) : bool := match l with LetGo _ => true | _ => false end.

Lemma take_input_object i cmds s :
  object (take_input i cmds s) = object s ∧ heard (take_input i cmds s) = heard s.
Proof. unfold take_input. by destruct (task s). Qed.

Lemma put_back_ended o cmds evs s :
  held s = true → (source o = None → ended evs = true) →
  held (put_back o cmds evs s) = false → ended (heard (put_back o cmds evs s)) = true.
Proof.
  intros Hd Hgone. unfold put_back. destruct (source o) eqn:Hsrc.
  - destruct (proj2 (orders_source o)) as [ch ->]; [rewrite Hsrc; eauto|].
    intros Hn%not_held. cbn in Hn. congruence.
  - rewrite Hd. cbn. by rewrite ended_app, Hgone, orb_true_r.
Qed.

Lemma put_back_unheld o evs s :
  held s = false → source o = None → heard (put_back o [] evs s) = heard s.
Proof. intros Hd Hsrc. unfold put_back. by rewrite Hsrc, Hd. Qed.

Lemma gone_ended s l :
  lets_go l = false → (held s = false → ended (heard s) = true) →
  held (pair_step s l) = false → ended (heard (pair_step s l)) = true.
Proof.
  intros Hl Hs. destruct l as [|out|i|tree|c|tree]; try done; cbn.
  - destruct (task s); [done|]. by destruct (held (moved [] t0 s)).
  - destruct (running s); [|done]. destruct (chan_try_recv (commands s)) as [[c|] ch];
      [|destruct (held s) eqn:Hd; [by rewrite Hd|]];
      unfold held; rewrite (proj1 (take_input_object _ _ _)), (proj2 (take_input_object _ _ _)); auto.
  - destruct (own i && running s); [|done].
    unfold held. by rewrite (proj1 (take_input_object _ _ _)), (proj2 (take_input_object _ _ _)).
  - destruct (held s) eqn:Hd.
    + apply put_back_ended; [done|]. destruct (install_spec s Hd) as (Hsrc & _). unfold drain.
      rewrite Hsrc, chan_drain_spec. intros Hgone.
      destruct (ended (queue (events s))) eqn:Hend; [done|]. set (o := with_source _ _) in Hgone.
      destruct (handle_batch tree o (queue (events s))) as (Hlive & _).
      destruct (Hlive Hend) as [Hsame _]. rewrite Hsame in Hgone. unfold o in Hgone.
      by rewrite source_with in Hgone by eauto.
    + unfold install, drain. rewrite Hd, (not_held _ Hd), put_back_unheld; auto using not_held.
  - rewrite order_spec. destruct (held s) eqn:Hd.
    + destruct (install_spec s Hd) as (Hsrc & -> & _). destruct (chan_send _ c) as [ch ok].
      apply put_back_ended; [done|]. by rewrite source_with_orders, Hsrc.
    + unfold install. rewrite Hd. destruct (orders (object s)) eqn:Ho; cbn.
      { assert (is_Some (source (object s))) as [? Hx] by (apply orders_source; eauto).
        by rewrite (not_held _ Hd) in Hx. }
      rewrite put_back_unheld; auto using not_held.
Qed.

Lemma pair_run_held o ls :
  is_Some (source o) → Forall (λ l, lets_go l = false) ls →
  let s := pair_run (pair_start o) ls in held s = negb (ended (heard s)).
Proof.
  intros Hs Hls s. assert (held s = false → ended (heard s) = true) as Hgone.
  { subst s. induction ls as [|l ls IH] using rev_ind.
    - intros Hd. by apply not_held in Hd as Hn; cbn in Hn; rewrite Hn in Hs; destruct Hs.
    - apply Forall_app in Hls as [Hls [Hl _]%Forall_cons]. unfold pair_run. rewrite foldl_snoc.
      apply gone_ended; [done|]. exact (IH Hls). }
  pose proof (ok_ended _ _ _ (pair_run_ok o ls Hs)) as He. fold s in He.
  destruct (held s); [by rewrite He|by rewrite Hgone].
Qed.

(** A task whose calls succeed gets to every command that was accepted, also
    after the handle went. *)
Lemma take_one out s c q :
  (∀ t c, alive t = true → alive (work t (on_command out (Some c))) = true) →
  running s = true → queue (commands s) = c :: q →
  let s' := pair_step s (TakeCommand out) in
  running s' = true ∧ queue (commands s') = q ∧ accepted s' = accepted s ∧
  object s' = object s ∧ heard s' = heard s.
Proof.
  intros Hout Hrun Hq. unfold running in *. cbn. unfold running, chan_try_recv.
  destruct (task s) as [t|] eqn:Htask; [|done]. rewrite Hrun, Hq. cbn.
  unfold take_input. rewrite Htask. unfold moved. cbn. by rewrite Hout.
Qed.

Lemma take_all out s :
  (∀ t c, alive t = true → alive (work t (on_command out (Some c))) = true) →
  running s = true →
  let s' := pair_run s (replicate (length (queue (commands s))) (TakeCommand out)) in
  running s' = true ∧ queue (commands s') = [] ∧ accepted s' = accepted s ∧
  object s' = object s ∧ heard s' = heard s.
Proof.
  intros Hout. remember (queue (commands s)) as q eqn:Hq. revert s Hq.
  induction q as [|c q IH]; intros s Hq Hrun; [done|].
  destruct (take_one out s c q Hout Hrun (eq_sym Hq)) as (Hr & Hq' & Ha & Ho & Hh).
  cbn [length replicate]. unfold pair_run in *. cbn [foldl].
  destruct (IH _ (eq_sym Hq') Hr) as (? & ? & -> & -> & ->). done.
Qed.

(** A frame hears everything that was told so far. *)
Lemma frame_hears dead first tree s :
  pair_ok dead first s → held s = true →
  let s' := pair_step s (Frame tree) in
  heard s' = told_so_far s ∧ told_so_far s' = told_so_far s ∧ running s' = running s ∧
  commands s' = commands s ∧ accepted s' = accepted s.
Proof.
  intros Hok Hd s'. subst s'. cbn. rewrite Hd. destruct (install_spec s Hd) as (Hsrc & Hord & _).
  unfold drain. rewrite Hsrc, chan_drain_spec. set (o := with_source _ (install s)).
  pose proof (ok_queue _ _ _ Hok Hd) as Hq. unfold told_so_far, running in *.
  assert (is_Some (source o)) as Hso by (unfold o; rewrite source_with; eauto).
  destruct (handle_batch tree o (queue (events s))) as (Hlive & Hgone & _).
  unfold put_back. destruct (ended (queue (events s))) eqn:Hend.
  - rewrite (Hgone eq_refl), Hd. cbn. rewrite app_nil_r. split_and!; try done; destruct (task s); cbn; try done;
      [apply told_dropped|apply dropped_alive].
  - destruct (Hlive eq_refl) as [Hsame _]. rewrite Hsame. destruct Hso as [c Hc]. rewrite Hc.
    rewrite foldl_handle_orders by done. unfold o. rewrite orders_with_source, Hord. cbn.
    by rewrite app_nil_r.
Qed.

(** What settles everything under way: the task takes the commands waiting, and
    a frame passes. *)
Definition settling (out : Out) (s : Pair) : list Label :=
  replicate (length (queue (commands s))) (TakeCommand out) ++ [Frame true].

Lemma pair_settles o ls out :
  is_Some (source o) →
  (∀ t c, alive t = true → alive (work t (on_command out (Some c))) = true) →
  let s := pair_run (pair_start o) ls in
  running s = true → held s = true →
  let s' := pair_run (pair_start o) (ls ++ settling out s) in
  running s' = true ∧ accepted s' = accepted s ∧ accepted s' = taken (inputs s') ∧
  heard s' = told_so_far s' ∧ signals (object s') = signals o ++ (signal <$> told_so_far s') ∧
  (held s' = false → ended (heard s') = true).
Proof.
  intros Hsrc Hout s Hrun Hheld s'.
  destruct (take_all out s Hout Hrun) as (Hr1 & Hq1 & Ha1 & Ho1 & Hh1).
  set (ls1 := replicate _ _) in *. set (s1 := pair_run s ls1) in *.
  assert (s1 = pair_run (pair_start o) (ls ++ ls1)) as Hs1 by (unfold s1, s, pair_run; by rewrite foldl_app).
  assert (s' = pair_step s1 (Frame true)) as Hs'.
  { unfold s', settling. fold ls1. rewrite Hs1. unfold pair_run. by rewrite app_assoc, foldl_snoc. }
  pose proof (pair_run_ok o (ls ++ ls1) Hsrc) as Hok1. rewrite <- Hs1 in Hok1.
  pose proof (pair_run_ok o (ls ++ settling out s) Hsrc) as Hok. fold s' in Hok.
  assert (held s1 = true) as Hheld1 by (unfold held in *; by rewrite Ho1).
  destruct (frame_hears _ _ true s1 Hok1 Hheld1) as (Hh & Ht & Hr & Hc & Ha). rewrite <- Hs' in Hh, Ht, Hr, Hc, Ha.
  assert (held s' = false → ended (heard s') = true) as Hgone.
  { rewrite Hs'. apply gone_ended; [done|]. by rewrite Hheld1. }
  rewrite Hh in Hgone. rewrite Hr, Hr1, Ha, Ha1, Ht, Hh. split_and!; try done.
  - pose proof (ok_commands _ _ _ Hok) as Hcmds. pose proof (ok_receiver _ _ _ Hok) as Hrec.
    rewrite Hc, Hq1, Ha, Ha1, app_nil_r in Hcmds. rewrite Hc in Hrec.
    assert (receiver_alive (commands s1) = true) as Hal.
    { rewrite Hrec. rewrite Hr1 in Hr. unfold running in Hr. by destruct (task s'). }
    by rewrite Hal in Hcmds.
  - rewrite (ok_signals _ _ _ Hok). by rewrite Hh.
Qed.

(** ** A task the runtime drops

    When the last lease goes, the runtime drops its tasks wherever they wait: a task
    loses its end of both channels, and reports nothing of it. The object is not told;
    from there only the main thread acts. *)
Definition kill (s : Pair) : Pair :=
  mk_pair (object s) (task s) (events s) (chan_drop_receiver (commands s)) (inputs s) (accepted s) (heard s).

Definition by_script (l : Label) : bool :=
  match l with Frame _ | Order _ | LetGo _ => true | _ => false end.

Lemma kill_ok first s : pair_ok false first s → pair_ok true first (kill s).
Proof.
  intros [Ht Hc Hr He Hh Hq Hli Hn Ha Hs]. split; try done. cbn. split; [done|].
  destruct (receiver_alive (commands s)); [rewrite Hc; by apply prefix_app_r|by destruct Hc].
Qed.

Lemma script_ok dead first s l :
  by_script l = true → pair_ok dead first s → pair_ok dead first (pair_step s l).
Proof. destruct l; try done; intros _; [apply frame_ok|apply order_ok|apply let_go_ok]. Qed.

Lemma put_back_same o cmds evs s :
  told_so_far (put_back o cmds evs s) = told_so_far s ∧
  (cmds = [] → accepted (put_back o cmds evs s) = accepted s).
Proof.
  assert (match (λ t, work t handle_dropped) <$> task s with Some t => told t | None => [] end = told_so_far s) as Ht.
  { unfold told_so_far. destruct (task s); cbn; [apply told_dropped|done]. }
  unfold put_back. destruct (source o), (orders o), (held s); (split; [first [done|exact Ht]|intros ->]);
    cbn; by rewrite ?app_nil_r.
Qed.

(** A script gets nothing through to a task that is gone. *)
Lemma script_to_nobody first s l :
  by_script l = true → pair_ok true first s →
  told_so_far (pair_step s l) = told_so_far s ∧ accepted (pair_step s l) = accepted s.
Proof.
  intros Hl Hok. destruct l as [| | |tree|c|tree]; try done; cbn.
  - destruct (put_back_same (drain tree (install s)) [] (if held s then queue (events s) else []) s). auto.
  - destruct (order c (install s)) as [o ok] eqn:Ho.
    destruct (put_back_same o (if ok then [c] else []) [] s) as [Ht Ha]. split; [done|]. apply Ha.
    rewrite order_spec in Ho. destruct (orders (install s)) as [ch|] eqn:Hch; [|by simplify_eq].
    assert (receiver_alive ch = false) as Hd; [|unfold chan_send in Ho; rewrite Hd in Ho; by simplify_eq].
    destruct (held s) eqn:Hh.
    + destruct (install_spec s Hh) as (_ & Hcmd & _). rewrite Hch in Hcmd. injection Hcmd as ->.
      by rewrite (ok_receiver _ _ _ Hok).
    + exfalso. unfold install in Hch. rewrite Hh in Hch.
      assert (is_Some (source (object s))) as [? Hx] by (apply orders_source; eauto).
      by rewrite (not_held _ Hh) in Hx.
  - destruct (put_back_same (let_go tree (install s)) [] [] s). auto.
Qed.

(** Whenever the task is dropped, the object goes on to what was told before, takes
    no more commands, and waits for a last word that was not said. *)
Lemma orphaned o ls ks :
  is_Some (source o) → Forall (λ l, by_script l = true) ks →
  let s := pair_run (pair_start o) ls in let s' := pair_run (kill s) ks in
  accepted s' = accepted s ∧ signals (object s') = signals o ++ (signal <$> heard s') ∧
  heard s' `prefix_of` told_so_far s ∧
  (held s' = true → heard s' ++ queue (events s') = told_so_far s) ∧
  (Forall (λ l, lets_go l = false) (ls ++ ks) → ended (told_so_far s) = false → held s' = true).
Proof.
  intros Hsrc Hks s s'. pose proof (kill_ok _ _ (pair_run_ok o ls Hsrc)) as Hkill. fold s in Hkill.
  assert (pair_ok true (signals o) s' ∧ told_so_far s' = told_so_far s ∧ accepted s' = accepted s) as (Hok & Ht & Ha).
  { subst s'. induction ks as [|l ks IH] using rev_ind; [done|].
    apply Forall_app in Hks as [Hks [Hl _]%Forall_cons]. destruct (IH Hks) as (Hok & Ht & Ha). unfold pair_run in *. rewrite foldl_snoc.
    destruct (script_to_nobody _ _ l Hl Hok) as [-> ->]. split; [by apply script_ok|done]. }
  pose proof Hok as [_ _ _ _ Hh Hq _ _ _ Hs]. rewrite Ht in Hh, Hq. split_and!; try done.
  intros [Hls Hlk]%Forall_app Hend. apply not_false_iff_true. intros Hgone.
  assert (ended (heard s') = true) as He.
  { revert Hgone. subst s'. clear -Hsrc Hls Hlk t0_listened. induction ks as [|l ks IH] using rev_ind.
    - intros Hn. pose proof (pair_run_held o ls Hsrc Hls) as Hd. fold s in Hd. cbv zeta in Hd.
      change (held s = false) in Hn. rewrite Hn in Hd. change (ended (heard s) = true). by destruct (ended (heard s)).
    - apply Forall_app in Hlk as [Hlk [Hl _]%Forall_cons]. unfold pair_run. rewrite foldl_snoc.
      apply gone_ended; [done|]. exact (IH Hlk). }
  destruct Hh as [k Hk]. rewrite Hk, ended_app, He in Hend. done.
Qed.

(** What else the object shows of the events it handled. *)
Section view.
Context {V : Type} (view : Obj → V) (upd : V → Ev → V).
Hypothesis view_handle : ∀ tree o e, view (handle tree o e) = upd (view o) e.
Hypothesis view_source : ∀ c o, view (with_source c o) = view o.
Hypothesis view_orders : ∀ c o, view (with_orders c o) = view o.
Hypothesis view_let_go : ∀ tree o, view (let_go tree o) = view o.

Lemma view_install s : view (install s) = view (object s).
Proof. unfold install. destruct (held s); by rewrite ?view_orders, ?view_source. Qed.

Lemma view_drain tree o :
  view (drain tree o) = foldl upd (view o) (match source o with Some c => queue c | None => [] end).
Proof.
  unfold drain. destruct (source o) as [c|]; [|done]. rewrite chan_drain_spec.
  rewrite <- (view_source (mk_chan [] (receiver_alive c)) o).
  generalize (with_source (mk_chan [] (receiver_alive c)) o). induction (queue c) as [|e q IH]; intros u; [done|].
  cbn. by rewrite IH, view_handle.
Qed.

Lemma put_back_view o cmds evs s :
  object (put_back o cmds evs s) = o ∧
  (heard (put_back o cmds evs s) = heard s ++ evs ∨ held s = false ∧ heard (put_back o cmds evs s) = heard s).
Proof.
  unfold put_back. destruct (source o), (orders o); cbn; try (split; [done|by left]);
    (destruct (held s); cbn; split; [done|by left|done|by right]).
Qed.

Lemma view_step v s l :
  view (object s) = foldl upd v (heard s) →
  view (object (pair_step s l)) = foldl upd v (heard (pair_step s l)).
Proof.
  intros Hs. destruct l as [|out|i|tree|c|tree]; cbn.
  - destruct (task s); [done|]. by destruct (held (moved [] t0 s)).
  - destruct (running s); [|done]. destruct (chan_try_recv (commands s)) as [[c|] ch];
      [|destruct (held s); [done|]];
      by rewrite (proj1 (take_input_object _ _ _)), (proj2 (take_input_object _ _ _)).
  - destruct (own i && running s); [|done].
    by rewrite (proj1 (take_input_object _ _ _)), (proj2 (take_input_object _ _ _)).
  - destruct (put_back_view (drain tree (install s)) [] (if held s then queue (events s) else []) s) as [-> Hh].
    rewrite view_drain, view_install, Hs. destruct (held s) eqn:Hd.
    + destruct Hh as [->|[? _]]; [|done]. destruct (install_spec s Hd) as (-> & _). by rewrite foldl_app.
    + assert (heard (put_back (drain tree (install s)) [] [] s) = heard s) as ->.
      { destruct Hh as [->|[_ ->]]; [by rewrite app_nil_r|done]. }
      unfold install. by rewrite Hd, (not_held _ Hd).
  - destruct (order c (install s)) as [o ok] eqn:Ho.
    destruct (put_back_view o (if ok then [c] else []) [] s) as [-> Hh].
    assert (heard (put_back o (if ok then [c] else []) [] s) = heard s) as ->.
    { destruct Hh as [->|[_ ->]]; [by rewrite app_nil_r|done]. }
    rewrite <- Hs, <- view_install. rewrite order_spec in Ho.
    destruct (orders (install s)) as [ch|]; [|by simplify_eq].
    destruct (chan_send ch c). simplify_eq. by rewrite view_orders.
  - destruct (put_back_view (let_go tree (install s)) [] [] s) as [-> Hh].
    assert (heard (put_back (let_go tree (install s)) [] [] s) = heard s) as ->.
    { destruct Hh as [->|[_ ->]]; [by rewrite app_nil_r|done]. }
    by rewrite view_let_go, view_install.
Qed.

Lemma view_run o ls :
  let s := pair_run (pair_start o) ls in view (object s) = foldl upd (view o) (heard s).
Proof.
  apply (foldl_preserves pair_step (λ s, view (object s) = foldl upd (view o) (heard s))); [done|].
  intros s l. apply view_step.
Qed.
End view.
End pair.
