(* ===== verification/Connection.v ===== *)
(** * A connection as a Godot object ([connection.rs]) *)

From S2P Require Import Prelude Polled.
From S2P Require Raw Stats.
Import Raw (Event, Opened, StreamOpened, Datagram, Closed).

Abbreviation Conn := Raw.Conn.

Definition CLOSED_BY_SCRIPT : Z := 0.

Inductive Signal : Type :=
  | opened
  | failed (reason : string)
  | stream_opened (s : nat)
  | datagram_received (data : bytes)
  | closed (reason : string).

(** [closings] records the calls that close a QUIC connection. *)
Record IrohConnection : Type := mk_iroh_connection {
  events : option (Chan Event);
  connection : option Conn;
  datagrams : list bytes;
  tick : Ticker;
  emitted : list Signal;
  closings : list (Conn * Z * string);
}.

Definition start_ticking (tree : bool) (o : IrohConnection) : IrohConnection :=
  mk_iroh_connection (events o) (connection o) (datagrams o) (Polled.start_ticking tree (tick o))
    (emitted o) (closings o).

Definition stop_ticking (tree : bool) (o : IrohConnection) : IrohConnection :=
  mk_iroh_connection (events o) (connection o) (datagrams o) (Polled.stop_ticking tree (tick o))
    (emitted o) (closings o).

Definition wrap (tree : bool) (evs : Chan Event) (c : option Conn) : IrohConnection :=
  start_ticking tree (mk_iroh_connection (Some evs) c [] idle [] []).

(** [dial] and [accepted]: the queue is the one of the tasks in [Raw]. *)
Definition dial (tree detached alive : bool) (connected : Conn + string) : IrohConnection :=
  wrap tree (Raw.events (Raw.dial detached alive connected)) None.

Definition accepted (tree : bool) (c : Conn) : IrohConnection :=
  wrap tree (Raw.events Raw.adopt_connection) (Some c).

Definition emit_later (s : Signal) (o : IrohConnection) : IrohConnection :=
  mk_iroh_connection (events o) (connection o) (datagrams o) (tick o) (emitted o ++ [s]) (closings o).

Definition set_events (c : option (Chan Event)) (o : IrohConnection) : IrohConnection :=
  mk_iroh_connection c (connection o) (datagrams o) (tick o) (emitted o) (closings o).

Definition set_connection (c : option Conn) (o : IrohConnection) : IrohConnection :=
  mk_iroh_connection (events o) c (datagrams o) (tick o) (emitted o) (closings o).

Definition set_datagrams (ds : list bytes) (o : IrohConnection) : IrohConnection :=
  mk_iroh_connection (events o) (connection o) ds (tick o) (emitted o) (closings o).

Definition handle (tree : bool) (o : IrohConnection) (e : Event) : IrohConnection :=
  match e with
  | Opened c => o |> set_connection (Some c) |> emit_later opened
  | StreamOpened s => emit_later (stream_opened s) o
  | Datagram d => o |> set_datagrams (datagrams o ++ [d]) |> emit_later (datagram_received d)
  | Closed reason =>
      let was_open := bool_decide (is_Some (connection o)) in
      o |> set_connection None |> set_events None |> stop_ticking tree
        |> emit_later (if was_open then closed reason else failed reason)
  end.

Definition terminal (e : Event) : bool := match e with Closed _ => true | _ => false end.

#[global] Program Instance connection_polled : Polled IrohConnection Event Signal := {|
  source := events;
  with_source c o := match events o with Some _ => set_events (Some c) o | None => o end;
  ticker := tick;
  signals := emitted;
  Polled.handle := handle;
  Polled.terminal := terminal;
|}.
Solve All Obligations with
  (intros; repeat match goal with
                  | o : IrohConnection |- _ => destruct o as [[?|] ? ? ? ? ?]
                  | H : is_Some None |- _ => by destruct H
                  | e : Event |- _ => destruct e
                  end; cbn in *; simplify_eq; try done; eauto).

Definition drain_pending (tree : bool) (o : IrohConnection) : IrohConnection := drain tree o.
Definition _drain (tree : bool) (o : IrohConnection) : IrohConnection := drain_pending tree o.

(** The stream a script opens, as the system in [Raw]. *)
Definition open_stream (detached : bool) (o : IrohConnection) : option Raw.System :=
  match connection o with
  | None => None
  | Some _ => Some (Raw.open detached)
  end.

(** [sends] is what [connection.send_datagram] returned. *)
Definition send_datagram (sends : Conn → bytes → bool) (data : bytes) (o : IrohConnection) : bool :=
  match connection o with
  | None => false
  | Some c => sends c data
  end.

Definition get_available_datagram_count (tree : bool) (o : IrohConnection) : Z * IrohConnection :=
  let o := drain_pending tree o in (Z.min (len (datagrams o)) i32_max, o).

(** The tasks behind the connection: the events still to come, and whether the
    queue ends after them. *)
Record Network : Type := mk_network {
  coming : list Event;
  ends : bool;
}.

(** [Events::recv_blocking]: [None] is a wait that never ends. *)
Definition recv_blocking (c : Chan Event) (n : Network) : option (option Event * Chan Event * Network) :=
  match chan_try_recv c with
  | (Some e, c) => Some (Some e, c, n)
  | (None, c) =>
      match coming n with
      | e :: rest => Some (Some e, c, mk_network rest (ends n))
      | [] => if ends n then Some (None, c, n) else None
      end
  end.

(** The loop of [get_datagram]. *)
Fixpoint await (fuel : nat) (tree : bool) (o : IrohConnection) (n : Network)
  : option (bytes * IrohConnection * Network) :=
  match fuel with
  | O => None
  | S fuel =>
      match events o with
      | None => Some ([], o, n)
      | Some c =>
          match recv_blocking c n with
          | None => None
          | Some (Some (Datagram d), c, n) => Some (d, set_events (Some c) o, n)
          | Some (Some e, c, n) => await fuel tree (handle tree (set_events (Some c) o) e) n
          | Some (None, c, n) => Some ([], set_events (Some c) o, n)
          end
      end
  end.

(** The events the object can still see. *)
Definition ahead (o : IrohConnection) (n : Network) : list Event :=
  match events o with Some c => queue c ++ coming n | None => [] end.

(** Every round but the last takes an event. *)
Definition get_datagram (tree : bool) (o : IrohConnection) (n : Network)
  : option (bytes * IrohConnection * Network) :=
  match datagrams o with
  | d :: rest => Some (d, set_datagrams rest o, n)
  | [] => await (S (S (length (ahead o n)))) tree o n
  end.

Section diagnostics.
Context {Dur F : Type}.
Variable paths : Conn → list (Raw.Path Dur).
Variable as_millis : Dur → F.
Variable minus_one : F.
Variables remote_id_text alpn_text : Conn → string.
Variable datagram_limit : Conn → option Z.
Variable connection_stats : Conn → Stats.ConnectionStats.

Definition max_datagram_size (o : IrohConnection) : Z :=
  Z.min (default 0 (connection o ≫= datagram_limit)) i32_max.
Definition remote_id (o : IrohConnection) : string := from_option remote_id_text "" (connection o).
Definition alpn (o : IrohConnection) : string := from_option alpn_text "" (connection o).

Definition PATH_UNKNOWN : Z := 0.
Definition PATH_RELAY : Z := 1.
Definition PATH_DIRECT : Z := 2.

Definition get_path_type (o : IrohConnection) : Z :=
  match c ← connection o; Raw.path_info (paths c) with
  | Some path => if Raw.relay path then PATH_RELAY else PATH_DIRECT
  | None => PATH_UNKNOWN
  end.

Definition get_latency_ms (o : IrohConnection) : F :=
  Stats.latency_ms as_millis minus_one (c ← connection o; Raw.path_info (paths c)).

Definition get_stats (o : IrohConnection) : Stats.VarDictionary F :=
  match connection o with
  | Some c => Stats.connection as_millis minus_one (connection_stats c) (Raw.path_info (paths c))
  | None => []
  end.
End diagnostics.

Definition is_open (o : IrohConnection) : bool := bool_decide (is_Some (connection o)).

Definition close (tree : bool) (reason : string) (o : IrohConnection) : IrohConnection :=
  let o := match connection o with
           | Some c =>
               mk_iroh_connection (events o) None (datagrams o) (tick o) (emitted o)
                 (closings o ++ [(c, CLOSED_BY_SCRIPT, reason)])
           | None => o
           end in
  o |> set_events None |> stop_ticking tree.

(** ** Datagrams to come *)

(** The datagrams of a queue up to the report of the close. *)
Fixpoint until_close (evs : list Event) : list bytes :=
  match evs with
  | Closed _ :: _ | [] => []
  | Datagram d :: evs => d :: until_close evs
  | _ :: evs => until_close evs
  end.

(** Every datagram the script can still get. *)
Definition due (o : IrohConnection) (n : Network) : list bytes :=
  datagrams o ++ until_close (ahead o n).

Definition received (sigs : list Signal) : list bytes :=
  omap (λ s, match s with datagram_received d => Some d | _ => None end) sigs.

#[global] Arguments received : simpl never.

Lemma await_spec fuel tree o n :
  datagrams o = [] → (length (ahead o n) < fuel)%nat →
  match await fuel tree o n with
  | Some (d, o', n') =>
      received (emitted o') = received (emitted o) ∧
      (until_close (ahead o n) = d :: due o' n' ∧ is_Some (events o') ∨
       until_close (ahead o n) = [] ∧ d = [] ∧ due o' n' = [] ∧
         (events o' = None ∨ ends n' = true))
  | None => until_close (ahead o n) = [] ∧ ends n = false
  end.
Proof.
  revert o n. induction fuel as [|fuel IH]; intros [[[q a]|] c ds t em cl] [co en] Hd Hf;
    cbn in Hd; subst ds; [lia..| |].
  2:{ cbn. split; [done|]. right. unfold due. by eauto. }
  unfold ahead in *. cbn [await events queue coming recv_blocking chan_try_recv].
  (* the next event, wherever it waits *)
  assert (∀ e q' co', q' ++ co' = tail (q ++ co) → head (q ++ co) = Some e →
    match match e with
          | Datagram d => Some (d, mk_iroh_connection (Some (mk_chan q' a)) c [] t em cl, mk_network co' en)
          | _ => await fuel tree (handle tree (mk_iroh_connection (Some (mk_chan q' a)) c [] t em cl) e)
                   (mk_network co' en)
          end with
    | Some (d, o', n') =>
        received (emitted o') = received em ∧
        (until_close (q ++ co) = d :: due o' n' ∧ is_Some (events o') ∨
         until_close (q ++ co) = [] ∧ d = [] ∧ due o' n' = [] ∧ (events o' = None ∨ ends n' = true))
    | None => until_close (q ++ co) = [] ∧ en = false
    end) as Hnext.
  { intros e q' co' Htl Hhd. cbn in Hf. destruct (q ++ co) as [|e' l]; [done|]. cbn in Htl, Hhd, Hf.
    injection Hhd as ->. subst l.
    assert (received (em ++ [opened]) = received em ∧ ∀ s, received (em ++ [stream_opened s]) = received em
      ∧ ∀ r, received (em ++ [closed r]) = received em ∧ received (em ++ [failed r]) = received em) as Hem.
    { unfold received. split; [|intros s; split; [|intros r; split]];
        rewrite omap_app; cbn; by rewrite app_nil_r. }
    destruct Hem as [Ho Hem].
    destruct e as [c'|s|d|r].
    - set (o2 := handle tree _ _).
      specialize (IH o2 (mk_network co' en) eq_refl). subst o2. cbn in IH |- *. rewrite Ho in IH. apply IH. lia.
    - set (o2 := handle tree _ _).
      specialize (IH o2 (mk_network co' en) eq_refl). subst o2. cbn in IH |- *. rewrite (proj1 (Hem s)) in IH. apply IH. lia.
    - split; [done|]. left. split; [done|]. eauto.
    - destruct fuel as [|fuel]; [lia|]. cbn. destruct (proj2 (Hem 0%nat) r) as [Hc Hfa].
      split; [by destruct c|]. right. unfold due. cbn. by eauto. }
  destruct q as [|e q]; cbn in *.
  - destruct co as [|e co].
    + destruct en; [|done]. split; [done|]. right. unfold due. cbn. eauto.
    + specialize (Hnext e [] co eq_refl eq_refl). by destruct e.
  - specialize (Hnext e q co eq_refl eq_refl). by destruct e.
Qed.

Lemma handle_live_due tree o evs :
  existsb terminal evs = false →
  let o' := foldl (handle tree) o evs in
  datagrams o' = datagrams o ++ until_close evs ∧ events o' = events o ∧
  received (emitted o') = received (emitted o) ++ until_close evs.
Proof.
  revert o. induction evs as [|e evs IH]; intros o He; cbv zeta; cbn [foldl].
  { by rewrite !app_nil_r. }
  destruct e as [c|s|d|r]; cbn in He; try done;
    match goal with |- context [handle tree o ?e] => specialize (IH (handle tree o e) He) end;
    destruct IH as (-> & -> & ->);
    cbn; unfold received; rewrite ?omap_app; cbn; by rewrite <- ?app_assoc, ?app_nil_r.
Qed.

Lemma until_close_app evs evs' :
  existsb terminal evs = false → until_close (evs ++ evs') = until_close evs ++ until_close evs'.
Proof.
  induction evs as [|[c|s|d|r] evs IH]; cbn; intros He; try done; auto.
  by rewrite IH.
Qed.

(** Datagrams read by call. The datagrams a script can still get form one
    queue: those set aside, then those of the events to come, up to the close.
    [get_datagram] takes its head, waiting for the network if it must; when the
    queue is empty it answers with no bytes, or waits forever if nothing ends
    it. A frame moves datagrams within the queue and signals each of them;
    [get_datagram] signals none, not even those it took straight from the
    network. *)
Lemma get_datagram_takes_the_next tree o n d rest :
  let out := get_datagram tree o n in
  (due o n = d :: rest → ∃ o' n',
     out = Some (d, o', n') ∧ due o' n' = rest ∧ received (emitted o') = received (emitted o)) ∧
  (due o n = [] → ∀ x o' n', out = Some (x, o', n') → x = [] ∧ due o' n' = []) ∧
  (due o n = [] → ends n = true → is_Some out) ∧
  (∀ q a evs later, events o = Some (mk_chan q a) → coming n = evs ++ later →
     existsb terminal (q ++ evs) = false →
     let o' := frame tree o evs in
     due o' (mk_network later (ends n)) = due o n ∧
     received (emitted o') = received (emitted o) ++ until_close (q ++ evs)).
Proof.
  intros out. subst out.
  assert (∀ H : datagrams o = [], get_datagram tree o n = await (S (S (length (ahead o n)))) tree o n) as Hget
    by (unfold get_datagram; by intros ->).
  assert (datagrams o = [] → due o n = until_close (ahead o n)) as Hdue by (unfold due; by intros ->).
  split_and!.
  - destruct (datagrams o) as [|x xs] eqn:Hd.
    + rewrite Hget, Hdue by done. pose proof (await_spec (S (S (length (ahead o n)))) tree o n Hd) as Ha.
      destruct (await _ tree o n) as [[[x o'] n']|]; intros He.
      * destruct Ha as (Hr & [[Ha _]|[Ha _]]); [lia| |congruence]. rewrite He in Ha. injection Ha as -> ->. eauto.
      * destruct Ha as [Ha _]; [lia|congruence].
    + unfold get_datagram, due. rewrite Hd. cbn. intros [= -> <-]. by eexists _, _.
  - intros He x o' n' Hout. assert (datagrams o = []) as Hd.
    { unfold due in He. by apply app_nil in He as [? _]. }
    rewrite Hget in Hout by done. rewrite Hdue in He by done.
    pose proof (await_spec (S (S (length (ahead o n)))) tree o n Hd) as Ha. rewrite Hout in Ha.
    destruct Ha as (_ & [[Ha _]|(_ & ? & ? & _)]); [lia|congruence|done].
  - intros He Hends. assert (datagrams o = []) as Hd.
    { unfold due in He. by apply app_nil in He as [? _]. }
    rewrite Hget by done. pose proof (await_spec (S (S (length (ahead o n)))) tree o n Hd) as Ha.
    destruct (await _ tree o n) as [?|]; [eauto|]. destruct Ha as [_ Ha]; [lia|congruence].
  - intros q a evs later Hev Hco Hlive. cbv zeta.
    assert (frame tree o evs = foldl (handle tree) (set_events (Some (mk_chan [] a)) o) (q ++ evs)) as ->.
    { assert (source o = Some (mk_chan q a)) as Hsrc by exact Hev.
      rewrite (frame_queue tree o evs (mk_chan q a) Hsrc). cbn [with_source connection_polled]. by rewrite Hev. }
    destruct (handle_live_due tree (set_events (Some (mk_chan [] a)) o) (q ++ evs) Hlive) as (Hd & He & Hr).
    unfold due, ahead. rewrite Hd, He, Hr, Hev. cbn. split; [|done].
    by rewrite Hco, app_assoc, (until_close_app (q ++ evs)), app_assoc by done.
Qed.
