(* ===== verification/Dialling.v ===== *)
(** * A connection object and the tasks behind it ([connection.rs] over [raw.rs])

    One [IrohConnection] from the dial, or from the accept loop, to its end: the
    dialling task, the three tasks behind the connection, the frames that poll the
    object and the calls of a script, in any order. They meet in the queue of events,
    which the object gives up when it ends. *)

From S2P Require Import Prelude Polled.
From S2P Require Raw Connection.
Import Raw (Event, Opened, StreamOpened, Datagram, Closed).
Import Connection (IrohConnection, Signal).

Abbreviation Conn := Raw.Conn.

(** ** The object in its world

    [tasks] are the three tasks of [pump], whose queue is the object's; [origin] is
    how they began. The rest is history: the reports that reached the queue
    ([sent]), what iroh gave the tasks ([results]), the datagrams [get_datagram]
    returned ([handed]) and those of them it took straight from the queue
    ([direct]), and whether a script closed the connection ([shut]). *)
Record Line : Type := mk_line {
  object : IrohConnection;
  tasks : Raw.Pump;
  dialling : bool;
  origin : Raw.Pump;
  sent : list Event;
  results : list Raw.PumpLabel;
  handed : list bytes;
  direct : list bytes;
  shut : bool;
}.

(** No tasks: the dialling one is still to start them, or never will. *)
Definition no_pump : Raw.Pump := Raw.mk_pump unbounded_channel false false false.

(** [IrohConnection::dial], before [endpoint.connect] returns: the dialling task has
    the only sender. Without a runtime it never runs, and the object is as
    [Connection.dial] leaves it. *)
Definition dialled (detached : bool) : Line :=
  if detached then
    mk_line (Connection.wrap true unbounded_channel None) no_pump true no_pump [] [] [] [] false
  else
    let p := Raw.dial false true (inr ""%string) in
    mk_line (Connection.dial true false true (inr ""%string)) p false p (queue (Raw.events p)) [] [] [] false.

(** [IrohConnection::accepted]. *)
Definition accepted (c : Conn) : Line :=
  mk_line (Connection.accepted true c) Raw.adopt_connection false Raw.adopt_connection [] [] [] [] false.

(** What the tasks see of the object's end of the queue. *)
Definition queue_of (o : IrohConnection) : Chan Event :=
  match Connection.events o with Some c => c | None => mk_chan [] false end.

Definition installed (c : Chan Event) (o : IrohConnection) : IrohConnection :=
  match Connection.events o with Some _ => Connection.set_events (Some c) o | None => o end.

Inductive Label : Type :=
  (** [endpoint.connect] returns; one of the tasks gets a result *)
  | Connects (result : Conn + string)
  | Task (l : Raw.PumpLabel)
  (** the frame signal, and the calls of a script that touch the queue *)
  | Frame
  | Count
  | Get
  | Close (reason : string).

Definition set_object (o : IrohConnection) (s : Line) : Line :=
  mk_line o (tasks s) (dialling s) (origin s) (sent s) (results s) (handed s) (direct s) (shut s).

(** Every sender of the queue is gone. *)
Definition over (s : Line) : bool :=
  let p := tasks s in
  negb (dialling s || Raw.accepting p || Raw.receiving p || Raw.watching p).

(** One step. A waiting [get_datagram] is the moment it returns: until then nothing
    happens on the main thread. *)
Definition step (s : Line) (l : Label) : Line :=
  let o := object s in
  match l with
  | Connects result =>
      if dialling s then
        let p := Raw.dial true (receiver_alive (queue_of o)) result in
        mk_line (installed (Raw.events p) o) p false p (queue (Raw.events p)) (results s) (handed s) (direct s) (shut s)
      else s
  | Task l =>
      if dialling s then s
      else
        let p := tasks s in
        let p' := Raw.pump_step (Raw.mk_pump (queue_of o) (Raw.accepting p) (Raw.receiving p) (Raw.watching p)) l in
        mk_line (installed (Raw.events p') o) p' false (origin s)
          (sent s ++ drop (length (queue (queue_of o))) (queue (Raw.events p'))) (results s ++ [l])
          (handed s) (direct s) (shut s)
  | Frame => set_object (Connection._drain true o) s
  | Count => set_object (Connection.get_available_datagram_count true o).2 s
  | Get =>
      let n := Connection.mk_network [] (over s) in
      match Connection.get_datagram true o n with
      | Some (d, o', _) =>
          let ds := if decide (Connection.due o n = []) then [] else [d] in
          mk_line o' (tasks s) (dialling s) (origin s) (sent s) (results s) (handed s ++ ds)
            (direct s ++ if decide (Connection.datagrams o = []) then ds else []) (shut s)
      | None => s
      end
  | Close reason =>
      mk_line (Connection.close true reason o) (tasks s) (dialling s) (origin s) (sent s) (results s)
        (handed s) (direct s) true
  end.

Definition run (s : Line) (ls : list Label) : Line := foldl step s ls.

(** Dialling in one go is [Connection.dial]. *)
Lemma dial_at_once result :
  object (step (dialled true) (Connects result)) = Connection.dial true true true result.
Proof. by destruct result. Qed.

(** ** What a script is told

    An event taken from the queue, and whether [get_datagram] answered with it. *)
Definition open_after (b : bool) (evs : list Event) : bool :=
  foldl (λ b e, match e with Opened _ => true | Closed _ => false | _ => b end) b evs.

Fixpoint say (b : bool) (seen : list (Event * bool)) : list Signal :=
  match seen with
  | [] => []
  | (Opened _, _) :: seen => Connection.opened :: say true seen
  | (StreamOpened s, _) :: seen => Connection.stream_opened s :: say b seen
  | (Datagram d, quiet) :: seen =>
      (if quiet then [] else [Connection.datagram_received d]) ++ say b seen
  | (Closed r, _) :: seen =>
      (if b then Connection.closed r else Connection.failed r) :: say false seen
  end.

(** The datagrams answered with. *)
Definition answered (seen : list (Event * bool)) : list bytes :=
  omap (λ x, match x with (Datagram d, true) => Some d | _ => None end) seen.

Definition opens (e : Event) : bool := match e with Opened _ => true | _ => false end.

Lemma open_after_app b l k : open_after b (l ++ k) = open_after (open_after b l) k.
Proof. apply foldl_app. Qed.

Lemma say_app b l k : say b (l ++ k) = say b l ++ say (open_after b l.*1) k.
Proof.
  revert b. induction l as [|[[c|s|d|r] q] l IH]; intros b; cbn; rewrite ?IH, <- ?app_assoc; done.
Qed.

Definition loud (evs : list Event) : list (Event * bool) := (λ e, (e, false)) <$> evs.

Lemma loud_fst evs : (loud evs).*1 = evs.
Proof. unfold loud. rewrite <- list_fmap_compose. apply list_fmap_id. Qed.

Lemma loud_answered evs : answered (loud evs) = [].
Proof. by induction evs as [|[] evs IH]. Qed.

(** ** Handling a batch *)

(** What handling [evs] does to an object, its subscription aside. *)
Lemma handled_batch o evs :
  let o' := foldl (Connection.handle true) o evs in
  Connection.emitted o' = Connection.emitted o ++ say (Connection.is_open o) (loud evs) ∧
  Connection.datagrams o' = Connection.datagrams o ++ Raw.datagrams_in evs ∧
  Connection.is_open o' = open_after (Connection.is_open o) evs ∧
  Connection.events o' = (if existsb Connection.terminal evs then None else Connection.events o).
Proof.
  revert o. induction evs as [|e evs IH]; intros o; cbv zeta; cbn [foldl].
  { by rewrite !app_nil_r. }
  destruct (IH (Connection.handle true o e)) as (-> & -> & -> & ->).
  destruct e as [c|s|d|r]; cbn; unfold Connection.is_open; cbn; rewrite <- ?app_assoc; split_and!; try done.
  by destruct (existsb _ evs).
Qed.

Definition steady (o : IrohConnection) : Prop :=
  Connection.tick o = if Connection.events o is Some _ then mk_ticker true true else idle.

Lemma handled_steady o evs : steady o → steady (foldl (Connection.handle true) o evs).
Proof.
  intros Ho. apply (foldl_preserves (Connection.handle true) steady); [done|]. clear.
  intros [[?|] co ds t em cl] [c'|s|d|r]; unfold steady; cbn; by intros ->.
Qed.

(** Polling takes the whole queue. *)
Lemma drain_takes o q :
  Connection.events o = Some q →
  Connection._drain true o =
    foldl (Connection.handle true) (Connection.set_events (Some (mk_chan [] (receiver_alive q))) o) (queue q).
Proof.
  intros Hq. unfold Connection._drain, Connection.drain_pending, drain. cbn [source Connection.connection_polled].
  rewrite Hq, chan_drain_spec. cbn [with_source Connection.connection_polled]. by rewrite Hq.
Qed.

Lemma drain_none o : Connection.events o = None → Connection._drain true o = o.
Proof. intros Hq. unfold Connection._drain, Connection.drain_pending, drain. cbn. by rewrite Hq. Qed.

(** A waiting [get_datagram] handles what it passes on its way to a datagram, to the
    close, or to the end of the queue. *)
Definition passes (evs : list Event) : Prop :=
  Raw.datagrams_in evs = [] ∧ existsb Connection.terminal evs = false.

Lemma passes_cons e evs : Connection.terminal e = false → Raw.datagrams_in [e] = [] →
  passes evs → passes (e :: evs).
Proof. intros He Hd [Hp Ht]. by destruct e. Qed.

(** Handling keeps the queue, except that the close gives it up. *)
Lemma handled_set_events c o evs :
  foldl (Connection.handle true) (Connection.set_events c o) evs =
  if existsb Connection.terminal evs then foldl (Connection.handle true) o evs
  else Connection.set_events c (foldl (Connection.handle true) o evs).
Proof.
  revert o. induction evs as [|e evs IH]; intros o; [done|]. cbn [foldl existsb].
  destruct (Connection.terminal e) eqn:He; cbn [orb].
  - f_equal. by destruct e.
  - rewrite <- IH. f_equal. by destruct e.
Qed.

(** What [get_datagram] passed, and the object it leaves. *)
Definition took (o : IrohConnection) (q : list Event) (a : bool) (d : bytes) (o' : IrohConnection) : Prop :=
  let handled evs := foldl (Connection.handle true) o evs in
  (∃ pre post, q = pre ++ Datagram d :: post ∧ passes pre ∧
     o' = Connection.set_events (Some (mk_chan post a)) (handled pre)) ∨
  (∃ pre r post, q = (pre ++ [Closed r]) ++ post ∧ passes pre ∧ o' = handled (pre ++ [Closed r])) ∨
  (passes q ∧ o' = Connection.set_events (Some (mk_chan [] a)) (handled q)).

Lemma took_behind c o e q a d o' :
  Connection.terminal e = false → Raw.datagrams_in [e] = [] →
  took (Connection.handle true (Connection.set_events c o) e) q a d o' → took o (e :: q) a d o'.
Proof.
  intros He Hd.
  assert (Connection.handle true (Connection.set_events c o) e =
    Connection.set_events c (Connection.handle true o e)) as -> by (by destruct e).
  intros [(pre & post & -> & Hp & ->)|[(pre & r & post & -> & Hp & ->)|[Hp ->]]].
  - left. exists (e :: pre), post. split_and!; [done|by apply passes_cons|].
    by rewrite handled_set_events, (proj2 Hp).
  - right. left. exists (e :: pre), r, post. split_and!; [done|by apply passes_cons|].
    by rewrite handled_set_events, existsb_app, orb_true_r.
  - right. right. split; [by apply passes_cons|]. by rewrite handled_set_events, (proj2 Hp).
Qed.

Lemma await_takes fuel o q a n :
  Connection.events o = Some (mk_chan q a) → Connection.datagrams o = [] →
  Connection.coming n = [] → (length q < fuel)%nat →
  match Connection.await fuel true o n with Some (d, o', _) => took o q a d o' | None => True end.
Proof.
  revert o q. induction fuel as [|fuel IH]; intros o q Ho Hd Hn Hf; [done|].
  cbn [Connection.await]. rewrite Ho. unfold Connection.recv_blocking, chan_try_recv. cbn [queue].
  destruct q as [|e q].
  { rewrite Hn. destruct (Connection.ends n); [|done]. right. right. split; [by split|].
    by destruct o; cbn in *; subst. }
  cbn in Hf. destruct e as [c|s|d|r]; cbn [receiver_alive].
  - pose proof (IH (Connection.handle true (Connection.set_events (Some (mk_chan q a)) o) (Opened c)) q) as Hq.
    destruct (Connection.await _ _ _ _) as [[[x o'] n']|]; [|done].
    eapply took_behind; [done|done|]. apply Hq; [done|done|done|lia].
  - pose proof (IH (Connection.handle true (Connection.set_events (Some (mk_chan q a)) o) (StreamOpened s)) q) as Hq.
    destruct (Connection.await _ _ _ _) as [[[x o'] n']|]; [|done].
    eapply took_behind; [done|done|]. apply Hq; [done|done|done|lia].
  - left. exists [], q. by split_and!.
  - destruct fuel as [|fuel]; [done|]. cbn. right. left. exists [], r, q. by split_and!.
Qed.

(** ** The account an object gives

    [seen] is what it took from the queue so far, [b] whether its connection was
    open from the start. *)
Record told (b : bool) (seen : list (Event * bool)) (s : Line) : Prop := {
  told_queue q : Connection.events (object s) = Some q →
    sent s = seen.*1 ++ queue q ∧ receiver_alive q = true;
  told_taken : seen.*1 `prefix_of` sent s;
  told_signals : Connection.emitted (object s) = say b seen;
  told_handed : handed s ++ Connection.datagrams (object s) = Raw.datagrams_in seen.*1;
  told_direct : direct s = answered seen;
  told_held : is_Some (Connection.events (object s)) ↔
    shut s = false ∧ existsb Connection.terminal seen.*1 = false;
  told_open : Connection.is_open (object s) = negb (shut s) && open_after b seen.*1;
  told_steady : steady (object s);
  told_dialling : dialling s = true → sent s = [];
}.

Lemma told_is_held b seen s q : told b seen s → Connection.events (object s) = Some q →
  sent s = seen.*1 ++ queue q ∧ receiver_alive q = true ∧ shut s = false ∧
  existsb Connection.terminal seen.*1 = false ∧ Connection.is_open (object s) = open_after b seen.*1.
Proof.
  intros Ht Hq. destruct (told_queue _ _ _ Ht q Hq) as [? ?].
  destruct (proj1 (told_held _ _ _ Ht)) as [Hs ?]; [by eexists|].
  pose proof (told_open _ _ _ Ht) as Ho. rewrite Hs in Ho. by split_and!.
Qed.

(** More reports in the queue of an object that still has it. *)
Lemma told_more b seen s s' x q :
  told b seen s → Connection.events (object s) = Some q →
  object s' = Connection.set_events (Some (mk_chan (queue q ++ x) true)) (object s) →
  sent s' = sent s ++ x → dialling s' = false →
  handed s' = handed s → direct s' = direct s → shut s' = shut s → told b seen s'.
Proof.
  intros Ht Hq Ho Hs Hd Hh Hdi Hsh. pose proof Ht as [Htq Htp Hts Hth Htd Hthe Hto Htst _].
  destruct (told_is_held _ _ _ _ Ht Hq) as (Hse & _).
  split; rewrite ?Ho, ?Hs, ?Hh, ?Hdi, ?Hsh; try done.
  - intros q' [= <-]. cbn. by rewrite Hse, <- app_assoc.
  - by apply prefix_app_r.
  - rewrite <- Hthe, Hq. split; eauto.
  - unfold steady in *. cbn. by rewrite Hq in Htst.
  - by rewrite Hd.
Qed.

(** Nothing reaches an object that gave its queue up. *)
Lemma told_gone b seen s s' :
  told b seen s → object s' = object s → sent s' = sent s → dialling s' = false →
  handed s' = handed s → direct s' = direct s → shut s' = shut s → told b seen s'.
Proof.
  intros [Htq Htp Hts Hth Htd Hthe Hto Htst _] Ho Hs Hd Hh Hdi Hsh.
  by split; rewrite ?Ho, ?Hs, ?Hh, ?Hdi, ?Hsh, ?Hd.
Qed.

(** A task's step does not look at what is queued. *)
Lemma pump_appends alive f g h l : ∃ x f' g' h', (alive = false → x = []) ∧ ∀ q,
  Raw.pump_step (Raw.mk_pump (mk_chan q alive) f g h) l = Raw.mk_pump (mk_chan (q ++ x) alive) f' g' h'.
Proof.
  destruct l as [[s|]|[d|]|r], f, g, h, alive; cbn;
    first [exists []; eexists _, _, _; split; [done|]; intros q; rewrite app_nil_r; reflexivity
          |eexists [_], _, _, _; split; [done|]; intros q; reflexivity].
Qed.

(** What [get_datagram] answered with, if anything, behind what was handled. *)
Definition taking (evs : list Event) (quiet : option bytes) : list (Event * bool) :=
  loud evs ++ match quiet with Some d => [(Datagram d, true)] | None => [] end.

Lemma taking_fst evs quiet :
  (taking evs quiet).*1 = evs ++ match quiet with Some d => [Datagram d] | None => [] end.
Proof. unfold taking. rewrite fmap_app, loud_fst. by destruct quiet. Qed.

Lemma taking_answered evs quiet : answered (taking evs quiet) = option_list quiet.
Proof.
  unfold taking, answered. rewrite omap_app. fold (answered (loud evs)). rewrite loud_answered. by destruct quiet.
Qed.

(** The object takes some of its queue: events it handles, and then perhaps a
    datagram it answers with. *)
Lemma told_taking b seen s s' q evs quiet post :
  told b seen s → Connection.events (object s) = Some q →
  queue q = (taking evs quiet).*1 ++ post →
  (is_Some quiet → Connection.datagrams (object s) ++ Raw.datagrams_in evs = []) →
  object s' = (let o := foldl (Connection.handle true) (object s) evs in
               if existsb Connection.terminal evs then o else Connection.set_events (Some (mk_chan post true)) o) →
  sent s' = sent s → handed s' = handed s ++ option_list quiet → direct s' = direct s ++ option_list quiet →
  shut s' = shut s → dialling s' = dialling s →
  told b (seen ++ taking evs quiet) s'.
Proof.
  intros Ht Hq Hpost Hnone Ho Hs Hh Hdi Hsh Hd.
  destruct (told_is_held _ _ _ _ Ht Hq) as (Hse & Ha & Hsf & Hter & Hop).
  pose proof (handled_batch (object s) evs) as (Hem & Hda & His & Hev).
  pose proof (handled_steady (object s) evs (told_steady _ _ _ Ht)) as Hst.
  set (o1 := foldl _ (object s) evs) in *. cbv zeta in Ho.
  assert (existsb Connection.terminal (taking evs quiet).*1 = existsb Connection.terminal evs) as Hex.
  { rewrite taking_fst, existsb_app. destruct quiet; cbn; by rewrite ?orb_false_r. }
  assert (∀ x, open_after x (taking evs quiet).*1 = open_after x evs) as Hoa.
  { intros x. rewrite taking_fst, open_after_app. by destruct quiet. }
  assert (∀ x, say x (taking evs quiet) = say x (loud evs)) as Hsay.
  { intros x. unfold taking. rewrite say_app. destruct quiet; cbn; by rewrite app_nil_r. }
  assert (Connection.emitted (object s') = Connection.emitted o1 ∧
    Connection.datagrams (object s') = Connection.datagrams o1 ∧
    Connection.is_open (object s') = Connection.is_open o1 ∧
    Connection.events (object s') = if existsb Connection.terminal evs then None else Some (mk_chan post true))
    as (Eem & Eda & Eis & Eev).
  { rewrite Ho. destruct (existsb _ evs); by rewrite ?Hev. }
  pose proof Ht as [_ _ Hts Hth Htd _ _ _ Htdi].
  split; rewrite ?Hs, ?Hh, ?Hdi, ?Hsh, ?Hd, ?Eem, ?Eda, ?Eis, ?Eev, ?fmap_app, ?existsb_app, ?Hex, ?Hter, ?Hsf; auto.
  - intros q'. destruct (existsb _ evs); [done|]. intros [= <-]. cbn. by rewrite Hse, Hpost, app_assoc.
  - rewrite Hse, Hpost, app_assoc. by apply prefix_app_r.
  - by rewrite Hem, say_app, Hsay, <- Hop, <- Hts.
  - rewrite Hda. unfold Raw.datagrams_in in *. rewrite omap_app, taking_fst, omap_app, <- Hth.
    destruct quiet as [d|]; cbn; [|by rewrite !app_nil_r, app_assoc].
    assert (is_Some (Some d)) as Hd1 by eauto. apply Hnone, app_nil in Hd1 as [-> ->]. by rewrite !app_nil_r.
  - rewrite Htd. unfold answered. rewrite omap_app. f_equal. symmetry. apply taking_answered.
  - destruct (existsb _ evs); cbn; [|by split; eauto]. split; [by intros []|by intros [_ ?]].
  - by rewrite His, Hop, open_after_app, Hoa.
  - unfold steady in *. rewrite Ho. rewrite Hev in Hst. destruct (existsb _ evs); [by rewrite Hev|].
    by rewrite Hq in Hst.
Qed.

(** Polling an object. *)
Lemma told_drain b seen s q :
  told b seen s → Connection.events (object s) = Some q →
  told b (seen ++ taking (queue q) None) (set_object (Connection._drain true (object s)) s).
Proof.
  intros Ht Hq. destruct (told_is_held _ _ _ _ Ht Hq) as (_ & Ha & _).
  eapply (told_taking _ _ s _ q (queue q) None []); try done; cbn [set_object object handed direct option_list].
  - by rewrite taking_fst, !app_nil_r.
  - by rewrite (drain_takes _ _ Hq), handled_set_events, Ha.
  - by rewrite app_nil_r.
  - by rewrite app_nil_r.
Qed.

Lemma told_polled b seen s :
  told b seen s → ∃ seen', told b seen' (set_object (Connection._drain true (object s)) s).
Proof.
  intros Ht. destruct (Connection.events (object s)) as [q|] eqn:Hq; [eexists; by apply told_drain|].
  exists seen. rewrite drain_none by done. by destruct s.
Qed.

(** A call of [get_datagram] that returns. *)
Lemma until_close_passes pre rest : passes pre → Connection.until_close (pre ++ rest) = Connection.until_close rest.
Proof.
  intros [Hd Ht]. rewrite Connection.until_close_app by done.
  assert (Connection.until_close pre = []) as ->; [|done].
  induction pre as [|e pre IH]; [done|]. destruct e; try done; by apply IH.
Qed.

Lemma told_get b seen s : told b seen s → ∃ seen', told b seen' (step s Get).
Proof.
  intros Ht. cbn [step]. set (n := Connection.mk_network [] (over s)). unfold Connection.get_datagram.
  pose proof Ht as [Htq Htp Hts Hth Htd Hthe Hto Htst Htdi].
  destruct (Connection.datagrams (object s)) as [|d rest] eqn:Hda.
  2:{ exists seen. assert (Connection.due (object s) n ≠ []) as Hdue by (unfold Connection.due; by rewrite Hda).
    rewrite !decide_False by done. split; cbn; rewrite ?app_nil_r; try done. by rewrite <- app_assoc. }
  destruct (Connection.events (object s)) as [q|] eqn:Hq.
  2:{ exists seen. assert (Connection.due (object s) n = []) as Hdue
      by (unfold Connection.due, Connection.ahead; by rewrite Hda, Hq).
    cbn [Connection.await]. rewrite Hq, !decide_True by done.
    split; cbn; rewrite ?Hq, ?Hda, ?app_nil_r in *; done. }
  destruct (told_is_held _ _ _ _ Ht Hq) as (_ & Ha & _).
  assert (Connection.due (object s) n = Connection.until_close (queue q)) as Hdue.
  { unfold Connection.due, Connection.ahead. rewrite Hda, Hq. cbn. by rewrite app_nil_r. }
  pose proof (await_takes (S (S (length (Connection.ahead (object s) n)))) (object s) (queue q) true n) as Haw.
  destruct (Connection.await _ _ _ _) as [[[d o'] n']|]; [|by exists seen].
  rewrite !(decide_True (P := @nil bytes = [])), Hdue by done.
  destruct Haw as [(pre & post & Hpp & Hp & ->)|[(pre & r & post & Hpp & Hp & ->)|[Hp ->]]].
  { by rewrite Hq; destruct q; cbn in Ha; subst. }
  { done. }
  { done. }
  { unfold Connection.ahead. rewrite Hq. cbn. rewrite length_app. lia. }
  - rewrite Hpp, until_close_passes by done. cbn [Connection.until_close]. rewrite decide_False by done.
    exists (seen ++ taking pre (Some d)). destruct Hp as [Hpd Hpt].
    eapply (told_taking _ _ s _ q pre (Some d) post); try done; cbn [object].
    + by rewrite taking_fst, <- app_assoc.
    + intros _. by rewrite Hda.
    + by rewrite Hpt.
  - rewrite Hpp, <- app_assoc, until_close_passes by done. cbn [Connection.until_close app]. rewrite decide_True by done.
    exists (seen ++ taking (pre ++ [Closed r]) None).
    eapply (told_taking _ _ s _ q (pre ++ [Closed r]) None post); try done; cbn [object].
    + by rewrite taking_fst, app_nil_r.
    + by rewrite existsb_app, orb_true_r.
  - rewrite <- (app_nil_r (queue q)), until_close_passes by done. rewrite decide_True by done.
    rewrite app_nil_r. exists (seen ++ taking (queue q) None). destruct Hp as [Hpd Hpt].
    eapply (told_taking _ _ s _ q (queue q) None []); try done; cbn [object].
    + by rewrite taking_fst, !app_nil_r.
    + by rewrite Hpt.
Qed.

Lemma told_close b seen s reason : told b seen s → told b seen (step s (Close reason)).
Proof.
  intros [Htq Htp Hts Hth Htd Hthe Hto Htst Htdi]. unfold steady in *.
  destruct s as [[[q|] [c|] ds t em cl] p di og st re ha dr sh]; cbn in *;
    split; cbn in *; try done; try (split; [by intros []|by intros [? _]]); subst; unfold steady; cbn;
    by rewrite ?Htst.
Qed.

Lemma told_connects b seen s result : told b seen s → told b seen (step s (Connects result)).
Proof.
  intros Ht. cbn [step]. destruct (dialling s) eqn:Hd; [|done].
  pose proof (told_dialling _ _ _ Ht Hd) as Hn. unfold installed, queue_of.
  destruct (Connection.events (object s)) as [q|] eqn:Hq.
  - destruct (told_is_held _ _ _ _ Ht Hq) as (Hse & Ha & _). rewrite Hn in Hse. symmetry in Hse.
    apply app_nil in Hse as [_ Hqn]. rewrite Ha.
    destruct result as [c|err];
      eapply (told_more _ _ s _ _ q Ht Hq); cbn; rewrite ?Hqn, ?Hn; try done.
  - eapply (told_gone _ _ s); try done; cbn; rewrite ?Hn; by destruct result.
Qed.

Lemma told_task b seen s l : told b seen s → told b seen (step s (Task l)).
Proof.
  intros Ht. cbn [step]. destruct (dialling s) eqn:Hd; [done|].
  unfold installed, queue_of. destruct (Connection.events (object s)) as [[q a]|] eqn:Hq.
  - destruct (told_is_held _ _ _ _ Ht Hq) as (Hse & Ha & _). cbn in Ha. subst a.
    destruct (pump_appends true (Raw.accepting (tasks s)) (Raw.receiving (tasks s)) (Raw.watching (tasks s)) l)
      as (x & f & g & h & _ & Hx). rewrite Hx. cbn [queue Raw.events]. rewrite drop_app_length.
    by eapply (told_more _ _ s _ x _ Ht Hq).
  - destruct (pump_appends false (Raw.accepting (tasks s)) (Raw.receiving (tasks s)) (Raw.watching (tasks s)) l)
      as (x & f & g & h & Hnil & Hx). rewrite Hx, (Hnil eq_refl).
    eapply (told_gone _ _ s); try done. cbn. by rewrite app_nil_r.
Qed.

Lemma told_step b seen s l : told b seen s → ∃ seen', told b seen' (step s l).
Proof.
  intros Ht. destruct l.
  - eexists. by apply told_connects.
  - eexists. by apply told_task.
  - by eapply told_polled.
  - by eapply told_polled.
  - by eapply told_get.
  - eexists. by apply told_close.
Qed.

(** ** What the tasks reported

    As long as the object has its queue, the reports are those of tasks nobody
    disturbs; then they are cut off. *)
Definition reported (s : Line) (ks : list Raw.PumpLabel) : Raw.Pump := foldl Raw.pump_step (origin s) ks.

Record following (s : Line) : Prop := {
  follow_sent : ∃ ks, ks `prefix_of` results s ∧ sent s = queue (Raw.events (reported s ks)) ∧
    (is_Some (Connection.events (object s)) → ks = results s);
  follow_tasks : is_Some (Connection.events (object s)) → let p := tasks s in
    reported s (results s) =
      Raw.mk_pump (mk_chan (sent s) true) (Raw.accepting p) (Raw.receiving p) (Raw.watching p);
  follow_dialling : dialling s = true → results s = [] ∧ origin s = no_pump ∧ sent s = [];
}.

Lemma gone_stays s l :
  Connection.events (object s) = None → Connection.events (object (step s l)) = None.
Proof.
  intros Hn. destruct l; cbn [step].
  - destruct (dialling s); [|done]. cbn. unfold installed. by rewrite Hn.
  - destruct (dialling s); [done|]. cbn. unfold installed. by rewrite Hn.
  - cbn. by rewrite drain_none.
  - cbn. change (Connection.drain_pending true (object s)) with (Connection._drain true (object s)).
    by rewrite drain_none.
  - unfold Connection.get_datagram. destruct (Connection.datagrams (object s)); [|done].
    cbn [Connection.await]. by rewrite Hn.
  - done.
Qed.

(** Steps of the main thread. *)
Lemma following_same s s' :
  following s → (Connection.events (object s) = None → Connection.events (object s') = None) →
  tasks s' = tasks s → dialling s' = dialling s → origin s' = origin s → sent s' = sent s →
  results s' = results s → following s'.
Proof.
  intros [(ks & Hp & Hs & Hk) Ht Hd] Hn Et Ed Eo Es Er.
  assert (is_Some (Connection.events (object s')) → is_Some (Connection.events (object s))) as Hh.
  { intros [q Hq]. destruct (Connection.events (object s)) eqn:Hx; [by eexists|]. rewrite Hn in Hq; done. }
  unfold reported in *. split; unfold reported; rewrite ?Et, ?Ed, ?Eo, ?Es, ?Er; auto. exists ks. split_and!; auto.
Qed.

Lemma following_step b seen s l : told b seen s → following s → following (step s l).
Proof.
  intros Hto Hf. pose proof (gone_stays s l) as Hgone. destruct l as [result|l| | | |reason]; cbn [step] in *.
  - destruct (dialling s) eqn:Hd; [|done]. destruct (follow_dialling _ Hf Hd) as (Hr & Ho & Hs).
    split; cbn; [exists []|..]; unfold reported; cbn; rewrite ?Hr; try done.
    unfold installed, queue_of. destruct (Connection.events (object s)) as [q|] eqn:Hq; [|by rewrite Hq; intros []].
    destruct (told_queue _ _ _ Hto q Hq) as [_ ->]. by destruct result.
  - destruct (dialling s) eqn:Hd; [done|]. destruct Hf as [(ks & Hp & Hs & Hk) Ht Hdi].
    unfold installed, queue_of in *. destruct (Connection.events (object s)) as [q|] eqn:Hq.
    + destruct (told_queue _ _ _ Hto q Hq) as [_ Ha]. destruct q as [q a]. cbn in Ha. subst a.
      specialize (Ht (ex_intro _ _ eq_refl)). specialize (Hk (ex_intro _ _ eq_refl)). subst ks.
      destruct (pump_appends true (Raw.accepting (tasks s)) (Raw.receiving (tasks s)) (Raw.watching (tasks s)) l)
        as (x & f & g & h & _ & Hx). cbv zeta in Ht.
      rewrite Hx. cbn [Raw.events queue]. rewrite drop_app_length.
      split; cbn; [exists (results s ++ [l])|..]; unfold reported in *; cbn;
        rewrite ?foldl_app, ?Ht; cbn; rewrite ?Hx; done.
    + destruct (pump_appends false (Raw.accepting (tasks s)) (Raw.receiving (tasks s)) (Raw.watching (tasks s)) l)
        as (x & f & g & h & Hnil & Hx). rewrite Hx, (Hnil eq_refl). cbn. rewrite app_nil_r.
      split; cbn; [exists ks|..]; rewrite ?Hq; [|by intros []|done].
      split_and!; [by apply prefix_app_r|done|by intros []].
  - by eapply following_same.
  - by eapply following_same.
  - destruct (Connection.get_datagram _ _ _) as [[[d o'] n']|]; [by eapply following_same|done].
  - by eapply following_same.
Qed.

(** ** Every run *)

(** A connection dialled, with or without a runtime to take the dialling task, or
    accepted. *)
Definition start (how : bool + Conn) : Line :=
  match how with inl detached => dialled detached | inr c => accepted c end.

Definition open_at_once (how : bool + Conn) : bool := match how with inl _ => false | inr _ => true end.

Lemma told_start how : ∃ seen, told (open_at_once how) seen (start how).
Proof.
  exists []. destruct how as [[]|c]; split; try done;
    try (by intros q [= <-]); try (by split; eauto); apply prefix_nil.
Qed.

Lemma following_start how : following (start how).
Proof. by destruct how as [[]|c]; split; try (exists []). Qed.

Lemma run_told how ls : let s := run (start how) ls in
  (∃ seen, told (open_at_once how) seen s) ∧ following s.
Proof.
  apply (foldl_preserves step (λ s, (∃ seen, told (open_at_once how) seen s) ∧ following s)).
  - split; [apply told_start|apply following_start].
  - intros s l [[seen Ht] Hf]. split; [by eapply told_step|by eapply following_step].
Qed.

Lemma origin_fixed s l :
  dialling s = false → origin (step s l) = origin s ∧ dialling (step s l) = false.
Proof.
  intros Hd. destruct l; cbn [step]; rewrite ?Hd; try done.
  by destruct (Connection.get_datagram _ _ _) as [[[d o] n]|].
Qed.

Lemma origin_started how ls :
  dialling (start how) = false → origin (run (start how) ls) = origin (start how).
Proof.
  intros Hd. apply (foldl_preserves step (λ s, origin s = origin (start how) ∧ dialling s = false)); [done|].
  intros s l [Ho Hs]. destruct (origin_fixed s l Hs) as [-> ?]. done.
Qed.

(** Tasks that are not running report nothing more. *)
Lemma nothing_runs q ks : foldl Raw.pump_step (Raw.mk_pump q false false false) ks = Raw.mk_pump q false false false.
Proof. induction ks as [|[[]|[]|] ks IH]; done. Qed.

(** What the three tasks put in the queue: nothing that opens, and one close. *)
Lemma task_reports p ks :
  ∃ suf, queue (Raw.events (foldl Raw.pump_step p ks)) = queue (Raw.events p) ++ suf ∧
    Forall (λ e, opens e = false) suf ∧
    (receiver_alive (Raw.events p) = true → Raw.watching p = true →
     Raw.closings_in (queue (Raw.events p)) = [] → (length (Raw.closings_in suf) ≤ 1)%nat).
Proof.
  assert (∃ suf, queue (Raw.events (foldl Raw.pump_step p ks)) = queue (Raw.events p) ++ suf ∧
    Forall (λ e, opens e = false) suf) as (suf & Hq & Hno).
  { apply (foldl_preserves Raw.pump_step (λ p', ∃ suf, queue (Raw.events p') = queue (Raw.events p) ++ suf ∧
      Forall (λ e, opens e = false) suf)).
    - exists []. by rewrite app_nil_r.
    - intros [[q al] ac re wa] l (suf & Hq & Hf). cbn in Hq. subst q.
      destruct l as [[s|]|[d|]|r], ac, re, wa, al; cbn; try (exists suf; done);
        eexists (suf ++ [_]); (split; [by rewrite app_assoc|]); apply Forall_app_2; auto. }
  exists suf. split_and!; [done..|]. intros Ha Hw Hn.
  destruct (Raw.pump_spec p ks Ha) as (_ & _ & Hcl). rewrite Hw, Hn, Hq in Hcl. cbn in Hcl.
  unfold Raw.closings_in in *. rewrite omap_app, Hn in Hcl. cbn in Hcl. rewrite Hcl. by destruct (Raw.closes ks); cbn; lia.
Qed.

(** A connection that was open is never said to have failed, nor to have opened. *)
Lemma say_open seen :
  Forall (λ e, opens e = false) seen.*1 → (length (Raw.closings_in seen.*1) ≤ 1)%nat →
  (Connection.opened ∉ say true seen) ∧ (∀ r, Connection.failed r ∉ say true seen).
Proof.
  assert (∀ b l, Forall (λ e, opens e = false) l.*1 →
    Raw.closings_in l.*1 = [] → (Connection.opened ∉ say b l) ∧ (∀ r, Connection.failed r ∉ say b l)) as Hclosed.
  { intros b l. revert b. induction l as [|[[c|s|d|r] q] l IH]; intros b Hf Hn; cbn in *.
    1: by split; [|intros r]; apply not_elem_of_nil.
    all: apply Forall_cons in Hf as [Ho Hf]; try done.
    all: destruct (IH b Hf Hn) as [H1 H2]; try (destruct q; [done|]); cbn.
    all: split; [|intros x]; (intros [?|?]%elem_of_cons; [done|]); [done|by eapply H2]. }
  induction seen as [|[[c|s|d|r] q] seen IH]; intros Hf Hl; cbn in *.
  1: by split; [|intros r]; apply not_elem_of_nil.
  all: apply Forall_cons in Hf as [Ho Hf]; try done.
  1,2: destruct (IH Hf Hl) as [H1 H2]; try (destruct q; [done|]); cbn;
    (split; [|intros x]; (intros [?|?]%elem_of_cons; [done|]); [done|by eapply H2]).
  destruct (Hclosed false seen Hf) as [H1 H2].
  { apply nil_length_inv. unfold Raw.closings_in in *. cbn in Hl. lia. }
  split; [|intros x]; (intros [?|?]%elem_of_cons; [done|]); [done|by eapply H2].
Qed.

(** What the object took of the queue of tasks that began with [first] in it. *)
Lemma took_reports b seen s first :
  told b seen s → following s → queue (Raw.events (origin s)) = first → receiver_alive (Raw.events (origin s)) = true →
  Raw.watching (origin s) = true → Raw.closings_in first = [] →
  ∃ suf, seen.*1 `prefix_of` first ++ suf ∧ Forall (λ e, opens e = false) suf ∧
    (length (Raw.closings_in suf) ≤ 1)%nat.
Proof.
  intros Ht [(ks & _ & Hs & _) _ _] Hq Ha Hw Hc.
  destruct (task_reports (origin s) ks) as (suf & Hq' & Hno & Hone). rewrite Hq in *.
  exists suf. split_and!; [|done|by apply Hone].
  rewrite <- Hq'. fold (reported s ks). rewrite <- Hs. apply Ht.
Qed.

(** Some of what a connection that opened reports. *)
Lemma say_part seen suf :
  seen.*1 `prefix_of` suf → Forall (λ e, opens e = false) suf →
  (length (Raw.closings_in suf) ≤ 1)%nat →
  (Connection.opened ∉ say true seen) ∧ (∀ r, Connection.failed r ∉ say true seen).
Proof.
  intros [k ->] [Hf _]%Forall_app Hl. apply say_open; [done|].
  unfold Raw.closings_in in *. rewrite omap_app, length_app in Hl. lia.
Qed.

Lemma dialled_story c seen s :
  told false seen s → following s → origin s = Raw.dial true true (inl c) →
  (Connection.emitted (object s) = [] ∨ head (Connection.emitted (object s)) = Some Connection.opened) ∧
  (∀ r, Connection.failed r ∉ Connection.emitted (object s)).
Proof.
  intros Ht Hf Ho. destruct (took_reports _ _ _ [Opened c] Ht Hf) as (suf & Hp & Hno & Hone); [by rewrite Ho..|done|].
  rewrite (told_signals _ _ _ Ht). destruct seen as [|[e q] seen].
  { split; [by left|]. intros r. apply not_elem_of_nil. }
  cbn in Hp. assert (e = Opened c) as -> by (by apply prefix_cons_inv_1 in Hp).
  apply prefix_cons_inv_2 in Hp. cbn in Hp. split; [by right|]. intros r [?|Hr]%elem_of_cons; [done|].
  by destruct (say_part _ _ Hp Hno Hone) as [_ Hx]; apply Hx in Hr.
Qed.

Lemma failed_story p reason seen s :
  told false seen s → following s → origin s = Raw.mk_pump p false false false → queue p = [Closed reason] →
  Connection.emitted (object s) = [] ∨ Connection.emitted (object s) = [Connection.failed reason].
Proof.
  intros Ht [(ks & _ & Hs & _) _ _] Ho Hq. unfold reported in Hs. rewrite Ho, nothing_runs in Hs. cbn in Hs.
  pose proof (told_taken _ _ _ Ht) as Hp. rewrite Hs, Hq in Hp. rewrite (told_signals _ _ _ Ht).
  destruct seen as [|[e q] seen]; [by left|]. cbn in Hp.
  assert (e = Closed reason) as -> by (by apply prefix_cons_inv_1 in Hp).
  apply prefix_cons_inv_2, prefix_nil_inv, fmap_nil_inv in Hp as ->. by right.
Qed.

(** ** Properties *)

(** C6: what a script is told of a connection, dialled or accepted. In any run of
    the dialling task, the three tasks behind the connection, the frames and the
    calls of a script, what the tasks report reaches the queue in order and whole as
    long as the object has it; the object has taken some first part of that, and
    while it has the queue the rest is what is queued. The signals are those of the
    events taken, in order, each once, except the datagrams that a waiting
    [get_datagram] answered with; every datagram taken was returned by
    [get_datagram] or still can be, in order. The queue is given up exactly when a
    close was taken or the script closed the connection; the connection is open in
    between, and the frame subscription lasts as long as the queue. A frame takes
    everything reported, so the first one behind a close ends the object. A dial that
    fails emits [failed] with its reason and nothing else; one that succeeds emits
    [opened] first and never [failed]; an accepted connection emits neither. *)
Theorem connection_tells_its_story how ls :
  let s := run (start how) ls in let o := object s in
  ∃ seen ks,
    ks `prefix_of` results s ∧ sent s = queue (Raw.events (foldl Raw.pump_step (origin s) ks)) ∧
    seen.*1 `prefix_of` sent s ∧
    (∀ q, Connection.events o = Some q → ks = results s ∧ sent s = seen.*1 ++ queue q) ∧
    Connection.emitted o = say (open_at_once how) seen ∧
    handed s ++ Connection.datagrams o = Raw.datagrams_in seen.*1 ∧ direct s = answered seen ∧
    (is_Some (Connection.events o) ↔ shut s = false ∧ existsb Connection.terminal seen.*1 = false) ∧
    Connection.is_open o = negb (shut s) && open_after (open_at_once how) seen.*1 ∧
    Connection.tick o = (if Connection.events o is Some _ then mk_ticker true true else idle) ∧
    (∀ q, Connection.events o = Some q → let o' := object (step s Frame) in
       Connection.emitted o' = say (open_at_once how) (seen ++ loud (queue q)) ∧
       Connection.is_open o' = open_after (open_at_once how) (sent s) ∧
       Connection.events o' = (if existsb Connection.terminal (sent s) then None else Some (mk_chan [] true)) ∧
       Connection.tick o' = (if existsb Connection.terminal (sent s) then idle else mk_ticker true true)) ∧
    (∀ reason,
       how = inl true ∧ origin s = Raw.dial true true (inr reason) ∨
       how = inl false ∧ reason = "the network runtime is not running" →
       Connection.emitted o = [] ∨ Connection.emitted o = [Connection.failed reason]) ∧
    (∀ c, how = inl true → origin s = Raw.dial true true (inl c) →
       (Connection.emitted o = [] ∨ head (Connection.emitted o) = Some Connection.opened) ∧
       (∀ r, Connection.failed r ∉ Connection.emitted o)) ∧
    (∀ c, how = inr c → (Connection.opened ∉ Connection.emitted o) ∧
       (∀ r, Connection.failed r ∉ Connection.emitted o)).
Proof.
  intros s o. destruct (run_told how ls) as [[seen Ht] Hf]. fold s in Ht, Hf.
  destruct (follow_sent _ Hf) as (ks & Hks & Hsent & Hheld). exists seen, ks.
  pose proof Ht as [Htq Htp Hts Hth Htd Hthe Hto Htst _].
  split_and!; try done.
  - intros q Hq. split; [apply Hheld; by eexists|by apply Htq].
  - intros q Hq o'. pose proof (told_drain _ _ _ _ Ht Hq) as Hd.
    change (set_object _ s) with (step s Frame) in Hd.
    destruct (told_is_held _ _ _ _ Ht Hq) as (Hse & _ & Hsh & _).
    pose proof (told_open _ _ _ Hd) as Hop. pose proof (told_steady _ _ _ Hd) as Hst.
    pose proof (told_held _ _ _ Hd) as Hhe. pose proof (told_signals _ _ _ Hd) as Hsi.
    assert ((seen ++ taking (queue q) None).*1 = sent s) as Hall.
    { by rewrite fmap_app, taking_fst, app_nil_r. }
    rewrite Hall in *. unfold taking in Hsi. rewrite app_nil_r in Hsi.
    change (shut (step s Frame)) with (shut s) in *. rewrite Hsh in *. cbn [negb andb] in Hop.
    assert (Connection.events o' = if existsb Connection.terminal (sent s) then None else Some (mk_chan [] true)) as Hev.
    { destruct (existsb Connection.terminal (sent s)).
      - apply eq_None_not_Some. by intros [_ ?]%Hhe.
      - destruct (proj2 Hhe) as [q' Hq']; [done|]. change (object (step s Frame)) with o' in Hq'. rewrite Hq'.
        destruct (told_queue _ _ _ Hd q' Hq') as [Hs' Ha']. rewrite Hall in Hs'.
        change (sent (step s Frame)) with (sent s) in Hs'. destruct q' as [q' a']. cbn in *.
        rewrite <- (app_nil_r (sent s)) in Hs' at 1. apply app_inv_head in Hs'. by subst. }
    split_and!; [exact Hsi|exact Hop|exact Hev|]. unfold steady in Hst.
    change (object (step s Frame)) with o' in Hst. rewrite Hst, Hev. by destruct (existsb _ (sent s)).
  - intros reason [[-> Ho]|[-> ->]].
    + by eapply (failed_story _ reason _ _ Ht Hf Ho).
    + assert (origin s = origin (start (inl false))) as Ho by (by apply origin_started).
      by eapply (failed_story _ _ _ _ Ht Hf Ho).
  - intros c -> Ho. by eapply dialled_story.
  - intros c ->. assert (origin s = origin (start (inr c))) as Ho by (by apply origin_started).
    destruct (took_reports _ _ _ [] Ht Hf) as (suf & Hp & Hno & Hone); [by rewrite Ho..|done|].
    unfold o. rewrite Hts. by eapply say_part.
Qed.

(** A dial: it opens, a datagram is answered with directly, another is signalled,
    and the close ends it. *)
Example a_dial : ∀ c,
  let s := run (start (inl true))
    [Frame; Connects (inl c); Task (Raw.ReadDatagram (Some [x61])); Get; Task (Raw.ReadDatagram (Some [x62]));
     Frame; Task (Raw.ConnectionClosed "bye"); Task (Raw.AcceptBi (Some 1%nat)); Get; Get; Frame] in
  Connection.emitted (object s) = [Connection.opened; Connection.datagram_received [x62]; Connection.closed "bye"] ∧
  handed s = [[x61]; [x62]] ∧ Connection.events (object s) = None ∧ Connection.tick (object s) = idle.
Proof. by vm_compute. Qed.
