(* ===== verification/Blobs.v ===== *)
(** * Blobs ([blobs.rs])

    The store and the downloader are iroh's: what their calls return is given to
    the definitions as arguments. Modelled is what the crate does with it: the
    store opened once and shared, the claim on the ALPN, the events of a
    transfer, and the answers to one-shot questions. *)

From S2P Require Import Prelude.
From S2P Require Import Dispatch.

(** ** One-shot questions

    [tokio::sync::oneshot]: the answer may be there, still coming, or the task
    that owed it may be gone. *)

Inductive Oneshot (A : Type) : Type :=
  | Waiting
  | Replied (a : A)
  | SenderGone.
Arguments Waiting {A}. Arguments Replied {A}. Arguments SenderGone {A}.

(** [Ask::try_recv], [self.0.try_recv().ok()]: an answer is taken once. *)
Definition ask_try_recv {A} (o : Oneshot A) : option A * Oneshot A :=
  match o with
  | Replied a => (Some a, SenderGone)
  | Waiting => (None, Waiting)
  | SenderGone => (None, SenderGone)
  end.

Section blobs.
Context {Hash Store Endpoint : Type}.

Inductive Answer : Type :=
  | AnswerDone
  | AnswerStatus (present complete : bool) (size : Z)
  | AnswerNames (names : list string)
  | AnswerFailed (reason : string).

Inductive Event : Type :=
  | Size (size : Z)
  | Progress (done : Z)
  | Done (hash : Hash) (data : bytes)
  | Failed (reason : string).

Definition terminal (e : Event) : bool :=
  match e with Done _ _ | Failed _ => true | _ => false end.

(** ** The store, opened on first use *)

(** [OnceCell]: the first outcome stays, failures included. *)
Definition get_or_init {A} (cell : option A) (init : A) : option A * A :=
  match cell with
  | Some a => (Some a, a)
  | None => (Some init, init)
  end.

Record StoreHandle : Type := mk_store_handle {
  cell : option (Store + string);
  store_endpoint : Endpoint;
  path : option string;
}.

(** [StoreHandle::ready]; [load] is [FsStore::load] and [mem] is
    [MemStore::new()]. The downloader comes with the store. *)
Definition ready (load : string → Store + string) (mem : Store) (h : StoreHandle)
  : StoreHandle * (Store + string) :=
  let init :=
    match path h with
    | Some p =>
        match load p with
        | inl s => inl s
        | inr err => inr ("could not open the blob store: " +:+ err)%string
        end
    | None => inl mem
    end in
  let '(c, built) := get_or_init (cell h) init in
  (mk_store_handle c (store_endpoint h) (path h), built).

(** ** The depot *)

Record Depot {Reg : Type} : Type := mk_depot {
  store : StoreHandle;
  depot_claim : Reg;
}.
Arguments Depot : clear implicits.

(** [Depot::start]; [detached] is whether the accept task was spawned. A claim
    that ends up unused is dropped. *)
Definition start `{AlpnRegistry R Reg} (blobs_alpn : bytes) (endpoint : Endpoint)
    (p : option string) (detached : bool) (r : R) : R * option (Depot Reg) :=
  match register blobs_alpn r with
  | (r, None) => (r, None)
  | (r, Some g) =>
      if detached then (r, Some (mk_depot Reg (mk_store_handle None endpoint p) g))
      else (release g r, None)
  end.

Definition drop_depot `{AlpnRegistry R Reg} (d : Depot Reg) (r : R) : R :=
  release (depot_claim d) r.

(** ** Transfers

    A task's outcome is the events it queued on the way and how it went. *)

Definition Work : Type := list Event * (Hash + string).

(** Items of [add_bytes] and [add_path]. *)
Inductive AddItem : Type :=
  | AddSize (size : Z)
  | AddCopyProgress (done : Z)
  | AddDone (hash : Hash)
  | AddError (err : string)
  | AddOther.

Fixpoint forward_add_loop (hash : option Hash) (items : list AddItem) : Work :=
  match items with
  | [] =>
      ([], match hash with
           | Some h => inl h
           | None => inr "the store never reported a hash"%string
           end)
  | AddSize size :: rest =>
      let '(evs, r) := forward_add_loop hash rest in (Size size :: evs, r)
  | AddCopyProgress done :: rest =>
      let '(evs, r) := forward_add_loop hash rest in (Progress done :: evs, r)
  | AddDone h :: rest => forward_add_loop (Some h) rest
  | AddError err :: _ => ([], inr err)
  | AddOther :: rest => forward_add_loop hash rest
  end.

Definition forward_add (items : list AddItem) : Work := forward_add_loop None items.

(** [keep]; [set] is what setting the tag returned. *)
Definition keep (tag : option string) (set : option string) : option string :=
  match tag with
  | None => None
  | Some _ =>
      match set with
      | None => None
      | Some err => Some ("stored, but could not tag it: " +:+ err)%string
      end
  end.

Definition then_keep (tag set : option string) (w : Work) : Work :=
  match w with
  | (evs, inl h) => (evs, match keep tag set with None => inl h | Some err => inr err end)
  | (evs, inr err) => (evs, inr err)
  end.

(** [add_bytes] and [add_file] differ in what feeds the store only. *)
Definition add (items : list AddItem) (tag set : option string) : Work :=
  then_keep tag set (forward_add items).

Inductive DownloadItem : Type :=
  | DownloadProgress (done : Z)
  | DownloadItemError (err : string)
  | DownloadFailed
  | DownloadOther.

Fixpoint fetch_loop (hash : Hash) (items : list DownloadItem) : Work :=
  match items with
  | [] => ([], inl hash)
  | DownloadProgress done :: rest =>
      let '(evs, r) := fetch_loop hash rest in (Progress done :: evs, r)
  | DownloadItemError err :: _ => ([], inr err)
  | DownloadFailed :: _ => ([], inr "the download failed"%string)
  | DownloadOther :: rest => fetch_loop hash rest
  end.

(** [fetch]; [stream] is the download's progress stream, or why there is none. *)
Definition fetch (hash : Hash) (stream : list DownloadItem + string) (tag set : option string)
  : Work :=
  match stream with
  | inr err => ([], inr err)
  | inl items => then_keep tag set (fetch_loop hash items)
  end.

Inductive ExportItem : Type :=
  | ExportSize (size : Z)
  | ExportCopyProgress (done : Z)
  | ExportError (err : string)
  | ExportOther.

Fixpoint export (hash : Hash) (items : list ExportItem) : Work :=
  match items with
  | [] => ([], inl hash)
  | ExportSize size :: rest => let '(evs, r) := export hash rest in (Size size :: evs, r)
  | ExportCopyProgress done :: rest =>
      let '(evs, r) := export hash rest in (Progress done :: evs, r)
  | ExportError err :: _ => ([], inr err)
  | ExportOther :: rest => export hash rest
  end.

(** [Depot::run]: everything the transfer's queue is ever sent. [opened] is what
    [store.ready()] returned. *)
Definition run (detached : bool) (opened : Store + string) (work : Store → Work) : list Event :=
  if detached then
    let '(evs, outcome) :=
      match opened with inl s => work s | inr err => ([], inr err) end in
    evs ++ [match outcome with inl h => Done h [] | inr reason => Failed reason end]
  else [Failed "the network runtime is not running"].

(** [Depot::read]; [got] is what [get_bytes] returned. *)
Definition read (detached : bool) (hash : Hash) (opened : Store + string)
    (got : Store → bytes + string) : list Event :=
  if detached then
    [match opened with
     | inl s => match got s with inl data => Done hash data | inr err => Failed err end
     | inr err => Failed err
     end]
  else [Failed "the network runtime is not running"].

(** ** Questions *)

Inductive BlobStatus : Type :=
  | NotFound
  | Partial (size : option Z)
  | Complete (size : Z).

Definition status (r : BlobStatus + string) : Answer :=
  match r with
  | inl NotFound => AnswerStatus false false 0
  | inl (Partial size) => AnswerStatus true false (default 0 size)
  | inl (Complete size) => AnswerStatus true true size
  | inr err => AnswerFailed err
  end.

Definition list_blobs (hash_text : Hash → string) (r : list Hash + string) : Answer :=
  match r with
  | inl hashes => AnswerNames (hash_text <$> hashes)
  | inr err => AnswerFailed err
  end.

(** [tag] and [untag]. *)
Definition mutation (r : option string) : Answer :=
  match r with None => AnswerDone | Some err => AnswerFailed err end.

Fixpoint collect_tags (names : list string) (listed : list (string + string)) : Answer :=
  match listed with
  | [] => AnswerNames names
  | inl name :: rest => collect_tags (names ++ [name]) rest
  | inr err :: _ => AnswerFailed err
  end.

Definition tags (r : list (string + string) + string) : Answer :=
  match r with inl listed => collect_tags [] listed | inr err => AnswerFailed err end.

(** [Depot::query]: a question that could not be spawned never has an answer. *)
Definition query (detached : bool) (opened : Store + string) (work : Store → Answer)
  : Oneshot Answer :=
  if detached then
    Replied (match opened with inl s => work s | inr err => AnswerFailed err end)
  else SenderGone.

(** [parse_hash]: only the two lengths that decode to 32 bytes reach iroh's
    parser. *)
Definition parse_hash (parse : string → option Hash) (text : string) : option Hash :=
  if decide (String.length text = 52%nat ∨ String.length text = 64%nat) then parse text else None.
End blobs.

Arguments Depot _ _ _ : clear implicits.
Arguments StoreHandle _ _ : clear implicits.
Arguments Event _ : clear implicits.

(** ** What a transfer's queue looks like *)

Section shapes.
Context {Hash Store : Type}.
Implicit Types w : Work (Hash := Hash).

(** Work reports progress only. *)
Definition quiet w : Prop := Forall (λ e, terminal e = false) w.1.

Lemma forward_add_quiet h items : quiet (forward_add_loop h items).
Proof.
  unfold quiet. revert h. induction items as [|[] items IH]; intros h; cbn; auto;
    specialize (IH h); destruct (forward_add_loop h items); cbn in *; by constructor.
Qed.

Lemma then_keep_quiet tag set w : quiet w → quiet (then_keep tag set w).
Proof. destruct w as [evs [h|err]]; by unfold quiet. Qed.

Lemma add_quiet items tag set : quiet (add items tag set).
Proof. apply then_keep_quiet, forward_add_quiet. Qed.

Lemma fetch_quiet h stream tag set : quiet (fetch h stream tag set).
Proof.
  destruct stream as [items|err]; [|by unfold quiet]. apply then_keep_quiet. unfold quiet.
  induction items as [|[] items IH]; cbn; auto;
    destruct (fetch_loop h items); cbn in *; by constructor.
Qed.

Lemma export_quiet h items : quiet (export h items).
Proof.
  unfold quiet. induction items as [|[] items IH]; cbn; auto;
    destruct (export h items); cbn in *; by constructor.
Qed.

Lemma run_shape detached (opened : Store + string) work :
  (∀ s, quiet (work s)) →
  ∃ evs e, run detached opened work = evs ++ [e] ∧
    Forall (λ e, terminal e = false) evs ∧ terminal e = true.
Proof.
  intros Hw. unfold run. destruct detached; [|by eexists [], _].
  destruct opened as [s|err]; [|by eexists [], _].
  specialize (Hw s). destruct (work s) as [evs [h|err]]; by eexists evs, _.
Qed.
End shapes.

(** ** Properties *)

(** one store per endpoint, opened once. However often and in whatever order
    operations, incoming connections and documents reach for the store, and
    whatever loading would return at a later moment, everybody gets what the
    first attempt produced: the same store, or the same reason why there is
    none. *)
Lemma store_is_opened_once {Store Endpoint} (h : StoreHandle Store Endpoint) load mem loads :
  let first := ready load mem h in
  Forall (λ out, out = first.2)
    (foldl (λ (acc : StoreHandle Store Endpoint * list (Store + string)) l,
       let '(h', out) := ready l.1 l.2 acc.1 in (h', acc.2 ++ [out])) (first.1, []) loads).2.
Proof.
  intros first.
  set (step := λ (acc : StoreHandle Store Endpoint * list (Store + string)) l, _).
  cut (∀ acc, cell acc.1 = Some first.2 → Forall (λ out, out = first.2) acc.2 →
         Forall (λ out, out = first.2) (foldl step acc loads).2).
  { intros Hc. apply Hc; [|done]. subst first. unfold ready.
    destruct (cell h) eqn:E; cbn; rewrite ?E; done. }
  induction loads as [|l loads IH]; intros [h' outs] Hc Ho; cbn [foldl]; [done|].
  apply IH; subst step; cbn in *; unfold ready; rewrite Hc; cbn; [done|].
  by apply Forall_app_2; [|constructor].
Qed.
