(* ===== verification/Transfer.v ===== *)
(** * A transfer as a Godot object ([transfer.rs]) *)

From S2P Require Import Prelude Polled.
From S2P Require Blobs.
Import Blobs (Event, Size, Progress, Done, Failed).

Section transfer.
Context {Hash : Type} `{Display Hash}.

Inductive Signal : Type :=
  | progress (done total : Z)
  | completed (hash : string) (data : bytes)
  | failed (reason : string).

Record IrohTransfer : Type := mk_transfer {
  transfer : option (Chan (Event Hash));
  total : Z;
  hash : string;
  done : Z;
  tick : Ticker;
  emitted : list Signal;
}.

Definition set_tick (t : Ticker) (o : IrohTransfer) : IrohTransfer :=
  mk_transfer (transfer o) (total o) (hash o) (done o) t (emitted o).

Definition start_ticking (tree : bool) (o : IrohTransfer) : IrohTransfer :=
  set_tick (Polled.start_ticking tree (tick o)) o.

Definition stop_ticking (tree : bool) (o : IrohTransfer) : IrohTransfer :=
  set_tick (Polled.stop_ticking tree (tick o)) o.

Definition emit_later (s : Signal) (o : IrohTransfer) : IrohTransfer :=
  mk_transfer (transfer o) (total o) (hash o) (done o) (tick o) (emitted o ++ [s]).

Definition set_transfer (c : option (Chan (Event Hash))) (o : IrohTransfer) : IrohTransfer :=
  mk_transfer c (total o) (hash o) (done o) (tick o) (emitted o).

Definition wrap (tree : bool) (c : Chan (Event Hash)) : IrohTransfer :=
  start_ticking tree (mk_transfer (Some c) 0 "" 0 idle []).

Definition finished (tree : bool) (o : IrohTransfer) : IrohTransfer :=
  o |> set_transfer None |> stop_ticking tree.

Definition handle (tree : bool) (o : IrohTransfer) (e : Event Hash) : IrohTransfer :=
  match e with
  | Size size =>
      let o := mk_transfer (transfer o) size (hash o) (done o) (tick o) (emitted o) in
      emit_later (progress (u64_as_i64 (done o)) (u64_as_i64 size)) o
  | Progress d =>
      let o := mk_transfer (transfer o) (total o) (hash o) d (tick o) (emitted o) in
      emit_later (progress (u64_as_i64 d) (u64_as_i64 (total o))) o
  | Done h data =>
      let o := mk_transfer (transfer o) (total o) (to_string h) (done o) (tick o) (emitted o) in
      o |> finished tree |> emit_later (completed (to_string h) data)
  | Failed reason => o |> finished tree |> emit_later (failed reason)
  end.

#[global] Program Instance transfer_polled : Polled IrohTransfer (Event Hash) Signal := {|
  source := transfer;
  with_source c o := match transfer o with Some _ => set_transfer (Some c) o | None => o end;
  ticker := tick;
  signals := emitted;
  Polled.handle := handle;
  terminal := Blobs.terminal;
|}.
Solve All Obligations with
  (intros; repeat match goal with
                  | o : IrohTransfer |- _ => destruct o as [[?|] ? ? ? ? ?]
                  | H : is_Some None |- _ => by destruct H
                  | e : Event Hash |- _ => destruct e
                  end; cbn in *; simplify_eq; try done; eauto).

Definition _drain (tree : bool) (o : IrohTransfer) : IrohTransfer := drain tree o.

Definition get_done (o : IrohTransfer) : Z := u64_as_i64 (done o).
Definition get_total (o : IrohTransfer) : Z := u64_as_i64 (total o).
Definition get_hash (o : IrohTransfer) : string := hash o.
Definition is_running (o : IrohTransfer) : bool := bool_decide (is_Some (transfer o)).
Definition cancel (tree : bool) (o : IrohTransfer) : IrohTransfer := finished tree o.

(** ** What the signals say *)

Definition outcome (s : Signal) : bool :=
  match s with progress _ _ => false | _ => true end.

Lemma quiet_signals tree o evs :
  Forall (λ e, Blobs.terminal e = false) evs →
  ∃ ps, emitted (foldl (handle tree) o evs) = emitted o ++ ps ∧
    Forall (λ s, outcome s = false) ps.
Proof.
  intros Hq. revert o. induction Hq as [|e evs He _ IH]; intros o; cbn [foldl].
  { exists []. by rewrite app_nil_r. }
  destruct (IH (handle tree o e)) as (ps & -> & Hps).
  destruct e; try done; cbn; rewrite <- app_assoc; eexists; split; [done|by constructor|done|by constructor].
Qed.
End transfer.

Arguments IrohTransfer : clear implicits.

(** ** A queue with one last word *)

Definition outcome_of `{Display Hash} (e : Event Hash) : Signal :=
  match e with
  | Done h data => completed (to_string h) data
  | Failed reason => failed reason
  | Size _ | Progress _ => progress 0 0
  end.

(** However the queue is cut into frames, the last event is the outcome. *)
Lemma frames_report `{Display Hash} evs (e : Event Hash) batches a :
  Forall (λ e, Blobs.terminal e = false) evs → Blobs.terminal e = true →
  mjoin batches = evs ++ [e] →
  let o := foldl (frame true) (wrap true (mk_chan [] a)) batches in
  (∃ ps, emitted o = ps ++ [outcome_of e] ∧ Forall (λ s, outcome s = false) ps) ∧
  is_running o = false ∧ tick o = idle.
Proof.
  intros Hquiet Hterm Hb o. subst o.
  rewrite (frames_spec true _ batches a); [|done|].
  2:{ by apply (last_word _ evs (Some e)). }
  rewrite Hb, foldl_app. cbn [foldl].
  set (o := foldl _ _ evs).
  destruct (quiet_signals true (wrap true (mk_chan [] a)) evs Hquiet) as (ps & Hps & Hall).
  assert (tick o = tick (wrap (Hash := Hash) true (mk_chan [] a))) as Htick.
  { destruct (handle_batch true (wrap (Hash := Hash) true (mk_chan [] a)) evs) as (Hlive & _).
    destruct Hlive as [_ ?]; [by apply not_ended|done]. }
  change (emitted o = [] ++ ps) in Hps.
  destruct e as [s|d|h data|reason]; try done; cbn; rewrite Hps, Htick; split; try done; by exists ps.
Qed.

(** ** Properties *)

(** A transfer reports its outcome exactly once, last, however the events are
    spread over frames. Whatever the store does while an add, a fetch or an
    export runs, and also when the runtime would not take the task, the object
    emits progress signals and then one [completed] or one [failed]; after that
    frame it is no longer running and no longer subscribed to the frame signal. *)
Lemma transfer_reports_once `{Display Hash} {Store}
    detached (opened : Store + string) work batches a :
  (∀ s, Blobs.quiet (work s)) →
  mjoin batches = Blobs.run detached opened work →
  let o := foldl (frame true) (wrap true (mk_chan [] a)) batches in
  (∃ ps last, emitted o = ps ++ [last] ∧
     Forall (λ s, outcome s = false) ps ∧ outcome last = true ∧
     (∀ h d, last = completed h d → ∃ hash, h = to_string hash ∧
        ∃ evs, Blobs.run detached opened work = evs ++ [Done hash d])) ∧
  is_running o = false ∧ tick o = idle.
Proof.
  intros Hw Hb o. subst o.
  destruct (Blobs.run_shape detached opened work Hw) as (evs & e & Hrun & Hquiet & Hterm).
  rewrite Hrun in Hb. destruct (frames_report evs e batches a) as ((ps & Hps & Hall) & Hend); [done..|].
  split; [|done]. exists ps, (outcome_of e). split_and!; [done..| |].
  - by destruct e.
  - intros h d He. destruct e; cbn in *; simplify_eq. eauto.
Qed.

Lemma transfer_reports_once_witness :
  let text : Display Z := λ z, pretty z in
  let work := λ _ : unit, Blobs.add (Hash := Z) [Blobs.AddSize 5; Blobs.AddCopyProgress 5; Blobs.AddDone 7] None None in
  let o := foldl (frame true) (wrap true (mk_chan [] true))
             [[Size 5]; [Progress 5; Done 7 []]] in
  (∃ ps last, emitted o = ps ++ [last] ∧
     Forall (λ s, outcome s = false) ps ∧ outcome last = true ∧
     (∀ h d, last = completed h d → ∃ hash, h = to_string hash ∧
        ∃ evs, Blobs.run true (inl tt) work = evs ++ [Done hash d])) ∧
  is_running o = false ∧ tick o = idle.
Proof.
  intros text work. refine (transfer_reports_once true (inl tt) work
    [[Size 5]; [Progress 5; Done 7 []]] true _ _); [|reflexivity].
  intros s. apply Blobs.add_quiet.
Defined.
