(* ===== verification/Gossip.v ===== *)
(** * Gossip ([gossip.rs])

    The swarm of an endpoint, the handle of a topic and the task behind it. The
    gossip protocol is iroh's: what its calls return are inputs of the task, and
    the calls the task makes are recorded in order. *)

From S2P Require Import Prelude.
From S2P Require Import Dispatch.

Section gossip.
Context {Id : Type} `{Countable Id} {TopicId : Type}.

Inductive Event : Type :=
  | NeighborUp (peer : Id)
  | NeighborDown (peer : Id)
  | Message (content : bytes) (from : Id) (direct : bool)
  | Lagged
  | Closed (reason : string).

Inductive Command : Type :=
  | Broadcast (message : bytes)
  | BroadcastNeighbors (message : bytes)
  | Join (peers : list Id).

Definition terminal (e : Event) : bool :=
  match e with Lagged | Closed _ => true | _ => false end.

(** ** The swarm *)

Record Swarm {Reg : Type} : Type := mk_swarm { swarm_claim : Reg }.
Arguments Swarm : clear implicits.

(** [Swarm::start]; [reactor] is whether the runtime is up, [detached] whether
    the accept task was spawned. *)
Definition start `{AlpnRegistry R Reg} (gossip_alpn : bytes) (reactor detached : bool) (r : R)
  : R * option (Swarm Reg) :=
  match register gossip_alpn r with
  | (r, None) => (r, None)
  | (r, Some g) =>
      if reactor && detached then (r, Some (mk_swarm Reg g)) else (release g r, None)
  end.

Definition drop_swarm `{AlpnRegistry R Reg} (s : Swarm Reg) (r : R) : R := release (swarm_claim s) r.

(** ** The handle

    The set of neighbours is shared with the task. *)

Record Topic : Type := mk_topic {
  id : TopicId;
  events : Chan Event;
  commands : Chan Command;
}.

(** [Swarm::subscribe]; the boolean says whether the task runs. *)
Definition subscribe (topic : TopicId) (detached : bool) : Topic :=
  mk_topic topic
    (if detached then unbounded_channel
     else (chan_send unbounded_channel (Closed "the network runtime is not running")).1)
    (if detached then unbounded_channel else chan_drop_receiver unbounded_channel).

Definition try_recv (t : Topic) : option Event * Topic :=
  let '(e, c) := chan_try_recv (events t) in (e, mk_topic (id t) c (commands t)).

Definition command (c : Command) (t : Topic) : Topic * bool :=
  let '(ch, ok) := chan_send (commands t) c in (mk_topic (id t) (events t) ch, ok).

Definition broadcast (message : bytes) (t : Topic) : Topic * bool := command (Broadcast message) t.
Definition broadcast_neighbors (message : bytes) (t : Topic) : Topic * bool :=
  command (BroadcastNeighbors message) t.
Definition join (peers : list Id) (t : Topic) : Topic * bool := command (Join peers) t.

Definition neighbors_list `{HashOrder} (shared : gset Id) : list Id :=
  hash_keys (gset_to_gmap tt shared).

(** ** The task *)

Record Task : Type := mk_task {
  sent : list Event;
  neighbors : gset Id;
  calls : list Command;
  (** whether the handle, and with it the event queue, still exists *)
  held : bool;
  running : bool;
}.

Inductive SwarmEvent : Type :=
  | SwarmNeighborUp (peer : Id)
  | SwarmNeighborDown (peer : Id)
  | SwarmReceived (content : bytes) (delivered_from : Id) (direct : bool)
  | SwarmLagged.

(** [events.send(event)], and whether it was taken. *)
Definition emit (e : Event) (t : Task) : Task * bool :=
  if held t then
    (mk_task (sent t ++ [e]) (neighbors t) (calls t) (held t) (running t), true)
  else (t, false).

Definition stop (t : Task) : Task :=
  mk_task (sent t) (neighbors t) (calls t) (held t) false.

Definition set_neighbors (ns : gset Id) (t : Task) : Task :=
  mk_task (sent t) ns (calls t) (held t) (running t).

(** [report]: [false] when the topic is finished. *)
Definition report (e : SwarmEvent) (t : Task) : Task * bool :=
  match e with
  | SwarmNeighborUp peer => emit (NeighborUp peer) (set_neighbors ({[peer]} ∪ neighbors t) t)
  | SwarmNeighborDown peer => emit (NeighborDown peer) (set_neighbors (neighbors t ∖ {[peer]}) t)
  | SwarmReceived content from direct => emit (Message content from direct) t
  | SwarmLagged => ((emit Lagged t).1, false)
  end.

(** One arm of the [select!]: a command and what the call returned, or what the
    subscription yielded. *)
Inductive Input : Type :=
  | OnCommand (c : option Command) (outcome : option string)
  | OnIncoming (e : option (SwarmEvent + string))
  | DropHandle.

Definition call (c : Command) (t : Task) : Task :=
  mk_task (sent t) (neighbors t) (calls t ++ [c]) (held t) (running t).

Definition close_with (reason : string) (t : Task) : Task := stop (emit (Closed reason) t).1.

Definition step (t : Task) (i : Input) : Task :=
  match i with
  | DropHandle => mk_task (sent t) (neighbors t) (calls t) false (running t)
  | OnCommand (Some c) outcome =>
      if running t then
        let t := call c t in
        match outcome with
        | None => t
        | Some err => close_with err t
        end
      else t
  | OnCommand None _ => if running t && negb (held t) then stop t else t
  | OnIncoming (Some (inl e)) =>
      if running t then
        let '(t, more) := report e t in if more then t else stop t
      else t
  | OnIncoming (Some (inr err)) => if running t then close_with err t else t
  | OnIncoming None => if running t then close_with "topic closed" t else t
  end.

(** [run]; [subscribed] is why [gossip.subscribe] failed, if it did. *)
Definition begin (subscribed : option string) : Task :=
  let t := mk_task [] ∅ [] true true in
  match subscribed with
  | None => t
  | Some err => close_with err t
  end.

Definition run (subscribed : option string) (inputs : list Input) : Task :=
  foldl step (begin subscribed) inputs.

(** ** What the task tells *)

(** The neighbours according to the events alone. *)
Definition neighbors_after (evs : list Event) : gset Id :=
  foldl (λ ns e, match e with
                 | NeighborUp p => {[p]} ∪ ns
                 | NeighborDown p => ns ∖ {[p]}
                 | _ => ns
                 end) ∅ evs.

Record task_ok (t : Task) : Prop := {
  task_live : running t = true → Forall (λ e, terminal e = false) (sent t);
  task_last : ∃ live last, sent t = live ++ option_list last ∧
    Forall (λ e, terminal e = false) live ∧
    (running t = false → held t = true → ∃ e, last = Some e ∧ terminal e = true);
  task_neighbors : held t = true → neighbors t = neighbors_after (sent t);
}.

Lemma neighbors_after_snoc evs e :
  neighbors_after (evs ++ [e]) =
    match e with
    | NeighborUp p => {[p]} ∪ neighbors_after evs
    | NeighborDown p => neighbors_after evs ∖ {[p]}
    | _ => neighbors_after evs
    end.
Proof. unfold neighbors_after. rewrite foldl_app. by destruct e. Qed.

Lemma topic_ok_live t :
  Forall (λ e, terminal e = false) (sent t) → running t = true →
  (held t = true → neighbors t = neighbors_after (sent t)) → task_ok t.
Proof.
  intros Hf Hr Hn. split; [done| |done]. exists (sent t), None.
  rewrite app_nil_r. split_and!; try done. congruence.
Qed.

(** A task with no handle has nobody to tell. *)
Lemma topic_ok_unheld t :
  held t = false → Forall (λ e, terminal e = false) (sent t) → task_ok t.
Proof.
  intros Hh Hf. split; [done| |congruence]. exists (sent t), None.
  rewrite app_nil_r. split_and!; try done. congruence.
Qed.

Lemma topic_ok_end e t :
  task_ok t → running t = true → terminal e = true → task_ok (stop (emit e t).1).
Proof.
  intros [Hl _ Hn] Hr He. unfold emit. destruct (held t) eqn:Hh.
  - split; [done| |].
    + exists (sent t), (Some e). split_and!; [done|auto|eauto].
    + cbn. intros _. rewrite neighbors_after_snoc, Hn by done. by destruct e.
  - apply topic_ok_unheld; [done|auto].
Qed.

Lemma topic_ok_step t i : task_ok t → task_ok (step t i).
Proof.
  intros Hok. pose proof Hok as [Hl Hlast Hn].
  destruct i as [[c|] outcome|[[e|err]|]|]; cbn.
  - destruct (running t) eqn:Hr; [|done].
    assert (task_ok (call c t)) as Hc by (apply topic_ok_live; auto).
    destruct outcome; [by apply topic_ok_end|done].
  - destruct (running t) eqn:Hr, (held t) eqn:Hh; cbn; try done.
    apply topic_ok_unheld; auto.
  - destruct (running t) eqn:Hr; [|done].
    destruct e as [p|p|content from direct|]; cbn; [| | |by apply topic_ok_end];
      unfold emit; cbn; destruct (held t) eqn:Hh; cbn;
      try (apply topic_ok_unheld; cbn; auto; fail);
      apply topic_ok_live; cbn; try done;
      try (intros _; rewrite neighbors_after_snoc, Hn by done; done);
      apply Forall_app; auto.
  - destruct (running t) eqn:Hr; [by apply topic_ok_end|done].
  - destruct (running t) eqn:Hr; [by apply topic_ok_end|done].
  - split; cbn; [done| |done]. destruct Hlast as (live & last & ? & ? & _).
    exists live, last. split_and!; try done.
Qed.

Lemma topic_ok_begin subscribed : task_ok (begin subscribed).
Proof.
  destruct subscribed as [err|]; [|by apply topic_ok_live].
  apply (topic_ok_end (Closed err) (mk_task [] ∅ [] true true)); [by apply topic_ok_live|done..].
Qed.

Lemma topic_ok_run subscribed inputs : task_ok (run subscribed inputs).
Proof. apply (foldl_preserves step task_ok); [apply topic_ok_begin|]. intros; by apply topic_ok_step. Qed.
End gossip.

Arguments Swarm : clear implicits.
Arguments Event : clear implicits.
Arguments Command : clear implicits.
Arguments Topic : clear implicits.
Arguments Input : clear implicits.
