(* ===== verification/Topic.v ===== *)
(** * A topic as a Godot object ([topic.rs]) *)

From S2P Require Import Prelude Polled.
From S2P Require Gossip.
Import Gossip (Event, NeighborUp, NeighborDown, Message, Lagged, Closed).

Section topic.
Context {Id : Type} `{Countable Id} {TopicId : Type} `{Display Id} `{Display TopicId}.

Inductive Signal : Type :=
  | message (data : bytes) (from : string) (direct : bool)
  | neighbor_up (peer : string)
  | neighbor_down (peer : string)
  | lagged
  | closed (reason : string).

Record IrohTopic : Type := mk_iroh_topic {
  topic : option (Gossip.Topic Id TopicId);
  tick : Ticker;
  emitted : list Signal;
}.

Definition set_topic (t : option (Gossip.Topic Id TopicId)) (o : IrohTopic) : IrohTopic :=
  mk_iroh_topic t (tick o) (emitted o).

Definition emit_later (s : Signal) (o : IrohTopic) : IrohTopic :=
  mk_iroh_topic (topic o) (tick o) (emitted o ++ [s]).

Definition start_ticking (tree : bool) (o : IrohTopic) : IrohTopic :=
  mk_iroh_topic (topic o) (Polled.start_ticking tree (tick o)) (emitted o).

Definition stop_ticking (tree : bool) (o : IrohTopic) : IrohTopic :=
  mk_iroh_topic (topic o) (Polled.stop_ticking tree (tick o)) (emitted o).

Definition wrap (tree : bool) (t : Gossip.Topic Id TopicId) : IrohTopic :=
  start_ticking tree (mk_iroh_topic (Some t) idle []).

Definition finished (tree : bool) (o : IrohTopic) : IrohTopic :=
  o |> set_topic None |> stop_ticking tree.

Definition handle (tree : bool) (o : IrohTopic) (e : Event Id) : IrohTopic :=
  match e with
  | NeighborUp peer => emit_later (neighbor_up (to_string peer)) o
  | NeighborDown peer => emit_later (neighbor_down (to_string peer)) o
  | Message content from direct => emit_later (message content (to_string from) direct) o
  | Lagged => o |> finished tree |> emit_later lagged
  | Closed reason => o |> finished tree |> emit_later (closed reason)
  end.

Definition set_events (c : Chan (Event Id)) (o : IrohTopic) : IrohTopic :=
  match topic o with
  | Some t => set_topic (Some (Gossip.mk_topic (Gossip.id t) c (Gossip.commands t))) o
  | None => o
  end.

#[global] Program Instance topic_polled : Polled IrohTopic (Event Id) Signal := {|
  source o := Gossip.events <$> topic o;
  with_source := set_events;
  ticker := tick;
  signals := emitted;
  Polled.handle := handle;
  terminal := Gossip.terminal;
|}.
Solve All Obligations with
  (intros; repeat match goal with
                  | o : IrohTopic |- _ => destruct o as [[[? ? ?]|] ? ?]
                  | H : is_Some _ |- _ => by destruct H
                  | e : Event Id |- _ => destruct e
                  end; cbn in *; simplify_eq; try done; eauto).

Definition _drain (tree : bool) (o : IrohTopic) : IrohTopic := drain tree o.

(** The commands answer [false] once the topic is gone. *)
Definition commanding (f : Gossip.Topic Id TopicId → Gossip.Topic Id TopicId * bool) (o : IrohTopic)
  : IrohTopic * bool :=
  match topic o with
  | Some t => let '(t, ok) := f t in (set_topic (Some t) o, ok)
  | None => (o, false)
  end.

Definition broadcast (data : bytes) (o : IrohTopic) : IrohTopic * bool :=
  commanding (Gossip.broadcast data) o.

Definition broadcast_neighbors (data : bytes) (o : IrohTopic) : IrohTopic * bool :=
  commanding (Gossip.broadcast_neighbors data) o.

(** [join_peers]; [parse] is iroh's reading of an id. Nothing is dialled unless
    every id parses. *)
Definition join_peers (parse : string → option Id) (peers : list string) (o : IrohTopic)
  : IrohTopic * bool :=
  match topic o with
  | None => (o, false)
  | Some _ =>
      match mapM parse peers with
      | None => (o, false)
      | Some parsed => commanding (Gossip.join parsed) o
      end
  end.

(** [shared] is the set the task maintains. *)
Definition neighbors `{HashOrder} (shared : gset Id) (o : IrohTopic) : list string :=
  match topic o with
  | None => []
  | Some _ => to_string <$> Gossip.neighbors_list shared
  end.

Definition is_joined `{HashOrder} (shared : gset Id) (o : IrohTopic) : bool :=
  match topic o with
  | None => false
  | Some _ => negb (bool_decide (Gossip.neighbors_list shared = []))
  end.

Definition get_topic_id (o : IrohTopic) : string :=
  match topic o with Some t => to_string (Gossip.id t) | None => "" end.

Definition leave (tree : bool) (o : IrohTopic) : IrohTopic := finished tree o.

(** ** What the signals say *)

Definition signal_of (e : Event Id) : Signal :=
  match e with
  | NeighborUp peer => neighbor_up (to_string peer)
  | NeighborDown peer => neighbor_down (to_string peer)
  | Message content from direct => message content (to_string from) direct
  | Lagged => lagged
  | Closed reason => closed reason
  end.
End topic.

Arguments Signal : clear implicits.
Arguments IrohTopic : clear implicits.
