(* ===== verification/Docs.v ===== *)
(** * Documents ([docs.rs])

    The document engine is iroh's. Its calls are the fields of an [Engine], what
    they would return at one moment; every input of the task carries the engine
    of its moment. *)

From S2P Require Import Prelude.
From S2P Require Import Dispatch.
From S2P Require Blobs.

Section docs.
Context {NamespaceId AuthorId PublicKey Hash Addr Ticket : Type}.

Record KeyInfo : Type := mk_key_info {
  key : bytes;
  author : AuthorId;
  hash : Hash;
  length_ : Z;
}.

Inductive Event : Type :=
  | Opened (id : NamespaceId)
  | Entry (key : bytes) (author : AuthorId) (hash : Hash) (len : Z) (from : option PublicKey)
  | ContentReady (hash : Hash)
  | Keys (prefix : bytes) (entries : list KeyInfo)
  | Status (syncing : bool) (subscribers handles : Z)
  | Value (key : bytes) (data : option bytes)
  | Shared (ticket : string)
  | SyncFinished (peer : PublicKey)
  | NeighborUp (peer : PublicKey)
  | NeighborDown (peer : PublicKey)
  | Closed (reason : string).

Inductive Command : Type :=
  | Set_ (key value : bytes)
  | Delete (prefix : bytes)
  | Read (key : bytes)
  | ListKeys (prefix : bytes)
  | GetStatus
  | Share (writable : bool)
  | Join (peers : list Addr)
  | Leave.

Inductive Source : Type :=
  | Create
  | Open (id : NamespaceId)
  | JoinTicket (ticket : Ticket).

Definition terminal (e : Event) : bool := match e with Closed _ => true | _ => false end.

(** ** The engine, opened on first use *)

(** [DocsHandle::open]: needs the blob store first; the first outcome stays. *)
Definition open_engine {Docs Store : Type} (cell : option (Docs + string)) (store : Store + string)
    (spawned : Docs + string) : option (Docs + string) * (Docs + string) :=
  Blobs.get_or_init cell
    (match store with
     | inr err => inr err
     | inl _ =>
         match spawned with
         | inl docs => inl docs
         | inr err => inr ("could not start documents: " +:+ err)%string
         end
     end).

(** The path is the engine's; the rest of [DocsHandle] is shared with the
    endpoint. *)
Record Library {Reg : Type} : Type := mk_library {
  library_path : option string;
  library_claim : Reg;
}.
Arguments Library : clear implicits.

(** [Library::start]. *)
Definition start `{AlpnRegistry R Reg} (docs_alpn : bytes) (path : option string)
    (detached : bool) (r : R) : R * option (Library Reg) :=
  match register docs_alpn r with
  | (r, None) => (r, None)
  | (r, Some g) => if detached then (r, Some (mk_library Reg path g)) else (release g r, None)
  end.

Definition drop_library `{AlpnRegistry R Reg} (l : Library Reg) (r : R) : R :=
  release (library_claim l) r.

(** ** Questions *)

Inductive Reply : Type :=
  | Names (names : list string)
  | ReplyDone
  | ReplyFailed (reason : string).

(** The loop of [list] and of [authors]: the first error wins. *)
Fixpoint collect (names : list string) (listed : list (string + string)) : Reply :=
  match listed with
  | [] => Names names
  | inl name :: rest => collect (names ++ [name]) rest
  | inr err :: _ => ReplyFailed err
  end.

Definition list_docs (r : list (string + string) + string) : Reply :=
  match r with inl listed => collect [] listed | inr err => ReplyFailed err end.

Definition drop_doc (r : option string) : Reply :=
  match r with None => ReplyDone | Some err => ReplyFailed err end.

Definition authors (r : list (string + string) + string) : Reply :=
  match r with inl listed => collect [] listed | inr err => ReplyFailed err end.

Definition set_default_author (r : option string) : Reply :=
  match r with None => ReplyDone | Some err => ReplyFailed err end.

Definition create_author (r : string + string) : Reply :=
  match r with inl author => Names [author] | inr err => ReplyFailed err end.

Definition query {Docs : Type} (detached : bool) (opened : Docs + string) (work : Docs → Reply)
  : Blobs.Oneshot Reply :=
  if detached then
    Blobs.Replied (match opened with inl docs => work docs | inr err => ReplyFailed err end)
  else Blobs.SenderGone.

(** ** The handle *)

Record Document : Type := mk_document {
  events : Chan Event;
  commands : Chan Command;
}.

(** [Library::spawn]. *)
Definition spawn (detached : bool) : Document :=
  if detached then mk_document unbounded_channel unbounded_channel
  else mk_document (chan_send unbounded_channel (Closed "the network runtime is not running")).1
         (chan_drop_receiver unbounded_channel).

Definition try_recv (d : Document) : option Event * Document :=
  let '(e, c) := chan_try_recv (events d) in (e, mk_document c (commands d)).

Definition command (c : Command) (d : Document) : Document * bool :=
  let '(ch, ok) := chan_send (commands d) c in (mk_document (events d) ch, ok).

Definition set (key value : bytes) (d : Document) : Document * bool := command (Set_ key value) d.
Definition delete (prefix : bytes) (d : Document) : Document * bool := command (Delete prefix) d.
Definition read (key : bytes) (d : Document) : Document * bool := command (Read key) d.
Definition list_keys (prefix : bytes) (d : Document) : Document * bool := command (ListKeys prefix) d.
Definition get_status (d : Document) : Document * bool := command GetStatus d.
Definition share (writable : bool) (d : Document) : Document * bool := command (Share writable) d.
Definition join (peers : list Addr) (d : Document) : Document * bool := command (Join peers) d.
Definition leave (d : Document) : Document * bool := command Leave d.

(** ** The task *)

(** What the calls on the document would return. An [option string] is the error
    of a call that returns nothing. *)
Record Engine : Type := mk_engine {
  set_bytes : AuthorId → bytes → bytes → option string;
  del : AuthorId → bytes → option string;
  get_one : bytes → option Hash + string;
  get_bytes : Hash → option bytes;
  get_many : bytes → list (KeyInfo + string) + string;
  doc_status : (bool * Z * Z) + string;
  doc_share : bool → string + string;
  start_sync : list Addr → option string;
  doc_leave : option string;
}.

Definition open_doc {Doc : Type} (create : Doc + string) (open : NamespaceId → option Doc + string)
    (import : Ticket → Doc + string) (source : Source) : Doc + string :=
  match source with
  | Create => create
  | Open id =>
      match open id with
      | inl (Some doc) => inl doc
      | inl None => inr "no document with that id is in the store"%string
      | inr err => inr err
      end
  | JoinTicket ticket => import ticket
  end.

Fixpoint collect_keys (entries : list KeyInfo) (listed : list (KeyInfo + string))
  : list KeyInfo + string :=
  match listed with
  | [] => inl entries
  | inl entry :: rest => collect_keys (entries ++ [entry]) rest
  | inr err :: _ => inr err
  end.

(** [apply]: the event to send, if the command has one, or the error. *)
Definition apply (e : Engine) (me : AuthorId) (c : Command) : option Event + string :=
  let done (r : option string) : option Event + string :=
    match r with None => inl None | Some err => inr err end in
  match c with
  | Set_ key value => done (set_bytes e me key value)
  | Delete prefix => done (del e me prefix)
  | Read key =>
      match get_one e key with
      | inr err => inr err
      | inl entry => inl (Some (Value key (entry ≫= get_bytes e)))
      end
  | ListKeys prefix =>
      match get_many e prefix with
      | inr err => inr err
      | inl listed =>
          match collect_keys [] listed with
          | inl entries => inl (Some (Keys prefix entries))
          | inr err => inr err
          end
      end
  | GetStatus =>
      match doc_status e with
      | inl (sync, subscribers, handles) =>
          inl (Some (Status sync (to_u32 subscribers) (to_u32 handles)))
      | inr err => inr err
      end
  | Share writable =>
      match doc_share e writable with
      | inl ticket => inl (Some (Shared ticket))
      | inr err => inr err
      end
  | Join peers => done (start_sync e peers)
  | Leave => done (doc_leave e)
  end.

Inductive LiveEvent : Type :=
  | InsertLocal (entry : KeyInfo)
  | InsertRemote (entry : KeyInfo) (from : PublicKey)
  | LiveContentReady (hash : Hash)
  | LiveNeighborUp (peer : PublicKey)
  | LiveNeighborDown (peer : PublicKey)
  | LiveSyncFinished (peer : PublicKey)
  | PendingContentReady.

(** The translation in [report]. *)
Definition translate (e : LiveEvent) : option Event :=
  match e with
  | InsertLocal entry => Some (Entry (key entry) (author entry) (hash entry) (length_ entry) None)
  | InsertRemote entry from =>
      Some (Entry (key entry) (author entry) (hash entry) (length_ entry) (Some from))
  | LiveContentReady hash => Some (ContentReady hash)
  | LiveNeighborUp peer => Some (NeighborUp peer)
  | LiveNeighborDown peer => Some (NeighborDown peer)
  | LiveSyncFinished peer => Some (SyncFinished peer)
  | PendingContentReady => None
  end.

(** [doc_closed] is whether [doc.close()] was called. *)
Record Task : Type := mk_task {
  sent : list Event;
  held : bool;
  running : bool;
  doc_closed : bool;
}.

Definition emit (e : Event) (t : Task) : Task * bool :=
  if held t then (mk_task (sent t ++ [e]) (held t) (running t) (doc_closed t), true) else (t, false).

(** [break], and what follows the loop. *)
Definition leave_loop (t : Task) : Task := mk_task (sent t) (held t) false true.

Definition close_with (reason : string) (t : Task) : Task := leave_loop (emit (Closed reason) t).1.

Definition report (e : LiveEvent) (t : Task) : Task * bool :=
  match translate e with
  | None => (t, true)
  | Some ev => emit ev t
  end.

Inductive Input : Type :=
  | OnCommand (e : Engine) (c : option Command)
  | OnUpdate (u : option (LiveEvent + string))
  | DropHandle.

Definition step (me : AuthorId) (t : Task) (i : Input) : Task :=
  match i with
  | DropHandle => mk_task (sent t) false (running t) (doc_closed t)
  | OnCommand e (Some c) =>
      if running t then
        match apply e me c with
        | inl (Some ev) => (emit ev t).1
        | inl None => t
        | inr err => close_with err t
        end
      else t
  | OnCommand _ None => if running t && negb (held t) then leave_loop t else t
  | OnUpdate (Some (inl ev)) =>
      if running t then let '(t, more) := report ev t in if more then t else leave_loop t else t
  | OnUpdate (Some (inr err)) => if running t then close_with err t else t
  | OnUpdate None => if running t then close_with "document closed" t else t
  end.

(** What [run] meets before its loop, in order. *)
Record Startup : Type := mk_startup {
  engine : unit + string;
  doc : NamespaceId + string;
  default_author : AuthorId + string;
  subscribed : unit + string;
  blob_store : unit + string;
}.

(** The start of [run]. *)
Definition begin (s : Startup) : Task :=
  let t := mk_task [] true true false in
  let fails_with err := let t := (emit (Closed err) t).1 in mk_task (sent t) (held t) false false in
  match engine s with
  | inr err => fails_with err
  | inl _ =>
      match doc s with
      | inr err => fails_with err
      | inl id =>
          match default_author s with
          | inr err => fails_with err
          | inl _ =>
              match subscribed s with
              | inr err => fails_with err
              | inl _ =>
                  let t := (emit (Opened id) t).1 in
                  match blob_store s with
                  | inr err =>
                      let t := (emit (Closed err) t).1 in mk_task (sent t) (held t) false false
                  | inl _ => t
                  end
              end
          end
      end
  end.

(** A task that fails before its loop has no author and takes no inputs. *)
Definition run (s : Startup) (inputs : list Input) : Task :=
  match default_author s with
  | inl me => foldl (step me) (begin s) inputs
  | inr _ => begin s
  end.

(** ** What the task tells *)

Inductive Question : Type := QRead (key : bytes) | QKeys (prefix : bytes) | QStatus | QShare.

Definition question_of (c : Command) : option Question :=
  match c with
  | Read key => Some (QRead key)
  | ListKeys prefix => Some (QKeys prefix)
  | GetStatus => Some QStatus
  | Share _ => Some QShare
  | _ => None
  end.

Definition answered_by (e : Event) : option Question :=
  match e with
  | Value key _ => Some (QRead key)
  | Keys prefix _ => Some (QKeys prefix)
  | Status _ _ _ => Some QStatus
  | Shared _ => Some QShare
  | _ => None
  end.

Definition asked (inputs : list Input) : list Question :=
  omap (λ i, match i with OnCommand _ (Some c) => question_of c | _ => None end) inputs.

Definition answers (evs : list Event) : list Question := omap answered_by evs.

Definition ordinary (e : Event) : bool :=
  match e with Opened _ | Closed _ => false | _ => true end.

(** The answer of a command is to its own question, and only questions have
    one. *)
Lemma apply_answers e me c :
  match apply e me c with
  | inl (Some ev) => ordinary ev = true ∧ answered_by ev = question_of c ∧ is_Some (question_of c)
  | inl None => question_of c = None
  | inr _ => True
  end.
Proof.
  destruct c as [k v|p|k|p| |w|ps|]; cbn.
  - by destruct (set_bytes e me k v).
  - by destruct (del e me p).
  - destruct (get_one e k); cbn; eauto.
  - destruct (get_many e p) as [listed|]; [|done]. destruct (collect_keys [] listed); cbn; eauto.
  - destruct (doc_status e) as [[[? ?] ?]|]; cbn; eauto.
  - destruct (doc_share e w); cbn; eauto.
  - by destruct (start_sync e ps).
  - by destruct (doc_leave e).
Qed.

Lemma translate_ordinary e ev : translate e = Some ev → ordinary ev = true ∧ answered_by ev = None.
Proof. destruct e; cbn; by intros [= <-]. Qed.

(** [qs] is what was asked so far. *)
Record task_ok (id : NamespaceId) (qs : list Question) (t : Task) : Prop := {
  task_sent : ∃ live last, sent t = Opened id :: live ++ option_list last ∧
    Forall (λ e, ordinary e = true) live ∧
    (∀ e, last = Some e → terminal e = true) ∧
    (running t = true → last = None) ∧
    (running t = false → held t = true → is_Some last);
  task_answers : answers (sent t) `prefix_of` qs ∧
    (running t = true → held t = true → answers (sent t) = qs);
  task_closed : doc_closed t = negb (running t);
}.

Lemma answers_snoc evs e : answers (evs ++ [e]) = answers evs ++ option_list (answered_by e).
Proof. unfold answers. rewrite omap_snoc. by destruct (answered_by e). Qed.

(** More was asked of a task that no longer answers. *)
Lemma doc_ok_more id qs t q : task_ok id qs t → running t && held t = false → task_ok id (qs ++ q) t.
Proof.
  intros [Hs [Hp Ha] Hc] Hr. split; [done| |done]. split; [by apply prefix_app_r|].
  intros H1 H2. by rewrite H1, H2 in Hr.
Qed.

Lemma doc_ok_emit id qs t e q :
  task_ok id qs t → running t = true → ordinary e = true → option_list (answered_by e) = q →
  task_ok id (qs ++ q) (emit e t).1.
Proof.
  intros Hok Hr He Hq. pose proof Hok as [(live & last & Hs & Hl & Ht & Hn & _) [Hp Ha] Hc].
  unfold emit. destruct (held t) eqn:Hh; [|apply doc_ok_more; [done|]; cbn; by rewrite Hh, andb_false_r].
  rewrite (Hn Hr) in Hs. rewrite app_nil_r in Hs.
  split; cbn; [|rewrite answers_snoc, Ha, Hq by done; done|done].
  exists (live ++ [e]), None. rewrite Hs, app_nil_r. split_and!; try done; [|congruence].
  by apply Forall_app_2; [|constructor].
Qed.

Lemma doc_ok_close id qs t err q :
  task_ok id qs t → running t = true → task_ok id (qs ++ q) (close_with err t).
Proof.
  intros Hok Hr. pose proof Hok as [(live & last & Hs & Hl & Ht & Hn & _) [Hp Ha] Hc].
  rewrite (Hn Hr) in Hs. cbn in Hs. rewrite app_nil_r in Hs.
  unfold close_with, emit. destruct (held t) eqn:Hh; split; cbn; try done.
  - exists live, (Some (Closed err)). rewrite Hs. split_and!; try done; try (by intros ? [= <-]); eauto.
  - rewrite answers_snoc, app_nil_r. split; [by apply prefix_app_r|done].
  - exists live, None. rewrite Hs, app_nil_r. split_and!; try done. congruence.
  - split; [by apply prefix_app_r|done].
Qed.

Lemma doc_ok_leave id qs t :
  task_ok id qs t → running t = true → held t = false → task_ok id qs (leave_loop t).
Proof.
  intros [(live & last & Hs & Hl & Ht & Hn & _) [Hp _] Hc] Hr Hh.
  split; cbn; [|done|done]. exists live, last. split_and!; try done. congruence.
Qed.

Lemma doc_ok_step id me qs t i :
  task_ok id qs t → task_ok id (qs ++ asked [i]) (step me t i).
Proof.
  intros Hok. pose proof Hok as [(live & last & Hs & Hl & Ht & Hn & Hr) [Hp Ha] Hc].
  destruct i as [e [c|]|[[ev|err]|]|]; cbn;
    try (destruct (running t) eqn:Hrun; [|by apply doc_ok_more; [|rewrite Hrun]]).
  - pose proof (apply_answers e me c) as Hans.
    destruct (apply e me c) as [[ev|]|err].
    + destruct Hans as (Ho & He & [q Hq]). apply doc_ok_emit; [done..|]. by rewrite He, Hq.
    + rewrite Hans. cbn. by rewrite app_nil_r.
    + destruct (question_of c); by apply doc_ok_close.
  - rewrite app_nil_r. destruct (running t) eqn:Hrun, (held t) eqn:Hh; cbn; try done.
    by apply doc_ok_leave.
  - unfold report. destruct (translate ev) as [e|] eqn:He; [|by rewrite app_nil_r].
    destruct (translate_ordinary _ _ He) as [Ho Hno].
    assert (task_ok id (qs ++ []) (emit e t).1) as Hok' by (apply doc_ok_emit; auto; by rewrite Hno).
    unfold emit in *. destruct (held t) eqn:Hh; cbn in *; [done|].
    rewrite app_nil_r. by apply doc_ok_leave.
  - by apply doc_ok_close.
  - by apply doc_ok_close.
  - rewrite app_nil_r. split; cbn; [|by split|done]. exists live, last. by split_and!.
Qed.

Lemma doc_ok_run id me qs t inputs :
  task_ok id qs t → task_ok id (qs ++ asked inputs) (foldl (step me) t inputs).
Proof.
  revert t qs. induction inputs as [|i inputs IH]; intros t qs Hok; cbn [foldl].
  { unfold asked. cbn. by rewrite app_nil_r. }
  assert (asked (i :: inputs) = asked [i] ++ asked inputs) as ->.
  { unfold asked. by rewrite <- omap_app. }
  rewrite app_assoc. by apply IH, doc_ok_step.
Qed.

(** A task that never enters its loop. *)
Definition stillborn (t : Task) : Prop :=
  running t = false ∧ doc_closed t = false ∧
  ((∃ err, sent t = [Closed err]) ∨ ∃ id err, sent t = [Opened id; Closed err]).

Lemma begin_cases s :
  stillborn (begin s) ∨
  ∃ id me, doc s = inl id ∧ default_author s = inl me ∧ task_ok id [] (begin s).
Proof.
  unfold begin, stillborn. destruct s as [[[]|] [id|] [me|] [[]|] [[]|]]; cbn;
    try (left; split_and!; [done|done|first [by left; eexists|by right; do 2 eexists]]; fail).
  right. exists id, me. split_and!; [done..|]. split; cbn; [|by split|done].
  exists [], None. by split_and!.
Qed.

Lemma stillborn_run me t inputs :
  stillborn t → sent (foldl (step me) t inputs) = sent t ∧
  running (foldl (step me) t inputs) = false ∧ doc_closed (foldl (step me) t inputs) = false.
Proof.
  intros (Hr & Hc & _). revert Hr Hc. generalize t. induction inputs as [|i inputs IH]; intros u Hr Hc;
    cbn [foldl]; [done|].
  assert (sent (step me u i) = sent u ∧ running (step me u i) = false ∧ doc_closed (step me u i) = false)
    as (Hs & Hr' & Hc').
  { destruct i as [e [c|]|[[ev|err]|]|]; cbn; rewrite ?Hr; cbn; rewrite ?Hr; done. }
  destruct (IH _ Hr' Hc') as (-> & ? & ?). by rewrite Hs.
Qed.

Definition opens (e : Event) : bool := match e with Opened _ => true | _ => false end.
End docs.

Arguments Library : clear implicits.
Arguments Event : clear implicits.
Arguments KeyInfo : clear implicits.
Arguments Command : clear implicits.
Arguments Input : clear implicits.
Arguments Document : clear implicits.
Arguments Startup : clear implicits.

(** ** Properties *)

(** C32: what a document's task tells. Either it gives up before its loop, with
    [Closed] as its last word and nothing but [Opened] before it, or it reports
    [Opened] with the document's id first, then ordinary events, and at most one
    [Closed], last; while the handle is held it does not end without that, and
    the document is closed exactly when the loop is left. Reads, listings,
    status requests and shares are answered in the order they were asked, each
    by its own kind of answer, for its own key or prefix, until the first
    failure. *)
Theorem document_tells_a_whole_story {N A P H Ad} (s : Startup N A) (inputs : list (Input A P H Ad)) :
  let t := run (PublicKey := P) s inputs in
  (running t = false ∧ doc_closed t = false ∧
     ((∃ err, sent t = [Closed err]) ∨ ∃ id err, sent t = [Opened id; Closed err])) ∨
  (∃ id live last,
     doc s = inl id ∧ sent t = Opened id :: live ++ option_list last ∧
     Forall (λ e, ordinary e = true) live ∧ (∀ e, last = Some e → terminal e = true) ∧
     (running t = true → last = None) ∧
     (running t = false → held t = true → is_Some last) ∧
     doc_closed t = negb (running t) ∧
     answers (sent t) `prefix_of` asked inputs ∧
     (running t = true → held t = true → answers (sent t) = asked inputs)).
Proof.
  intros t. subst t. unfold run.
  destruct (begin_cases (PublicKey := P) (Hash := H) s) as [Hst|(id & me & Hd & Hme & Hok)].
  - left. destruct (default_author s) as [me|]; [|done].
    destruct (stillborn_run me _ inputs Hst) as (Hs & Hr & Hc). destruct Hst as (_ & _ & Hst).
    rewrite Hs. by split_and!.
  - right. rewrite Hme. apply (doc_ok_run id me [] _ inputs) in Hok.
    destruct Hok as [(live & last & ? & ? & ? & ? & ?) [? ?] ?].
    exists id, live, last. by split_and!.
Qed.
