(* ===== verification/Document.v ===== *)
(** * A document as a Godot object ([document.rs]) *)

From S2P Require Import Prelude Polled.
From S2P Require Docs.
Import Docs (Event, KeyInfo, Opened, Entry, ContentReady, Keys, Status, Value, Shared, SyncFinished,
  NeighborUp, NeighborDown, Closed).

Section document.
Context {N A P H Addr : Type} `{Display N} `{Display A} `{Display P} `{Display H}.
(** [String::from_utf8_lossy]. *)
Variable utf8_lossy : bytes → string.

Record Row : Type := mk_row {
  row_key : string;
  row_author : string;
  row_hash : string;
  row_length : Z;
}.

Inductive Signal : Type :=
  | opened (id : string)
  | entry (key author hash : string) (length : Z) (from : string)
  | content_ready (hash : string)
  | value (key : string) (data : bytes) (found : bool)
  | keys (prefix : string) (entries : list Row)
  | status (syncing : bool) (subscribers handles : Z)
  | shared (ticket : string)
  | sync_finished (peer : string)
  | neighbor_up (peer : string)
  | neighbor_down (peer : string)
  | closed (reason : string).

Abbreviation doc_event := (Event N A P H).
Abbreviation doc_handle := (Docs.Document N A P H Addr).

Record IrohDocument : Type := mk_iroh_document {
  document : option doc_handle;
  id : string;
  tick : Ticker;
  emitted : list Signal;
}.

Definition emit_later (s : Signal) (o : IrohDocument) : IrohDocument :=
  mk_iroh_document (document o) (id o) (tick o) (emitted o ++ [s]).

Definition start_ticking (tree : bool) (o : IrohDocument) : IrohDocument :=
  mk_iroh_document (document o) (id o) (Polled.start_ticking tree (tick o)) (emitted o).

Definition stop_ticking (tree : bool) (o : IrohDocument) : IrohDocument :=
  mk_iroh_document (document o) (id o) (Polled.stop_ticking tree (tick o)) (emitted o).

Definition wrap (tree : bool) (d : doc_handle) : IrohDocument :=
  start_ticking tree (mk_iroh_document (Some d) "" idle []).

Definition text (key : bytes) : string := utf8_lossy key.

Definition row (k : KeyInfo A H) : Row :=
  mk_row (text (Docs.key k)) (to_string (Docs.author k)) (to_string (Docs.hash k))
    (u64_as_i64 (Docs.length_ k)).

(** The signal of an event. *)
Definition signal_of (e : doc_event) : Signal :=
  match e with
  | Opened id => opened (to_string id)
  | Entry key author hash len from =>
      entry (text key) (to_string author) (to_string hash) (u64_as_i64 len)
        (from_option to_string "" from)
  | ContentReady hash => content_ready (to_string hash)
  | Value key data => value (text key) (default [] data) (bool_decide (is_Some data))
  | Keys prefix entries => keys (text prefix) (row <$> entries)
  | Status syncing subscribers handles => status syncing subscribers handles
  | Shared ticket => shared ticket
  | SyncFinished peer => sync_finished (to_string peer)
  | NeighborUp peer => neighbor_up (to_string peer)
  | NeighborDown peer => neighbor_down (to_string peer)
  | Closed reason => closed reason
  end.

Definition close (tree : bool) (o : IrohDocument) : IrohDocument :=
  stop_ticking tree (mk_iroh_document None (id o) (tick o) (emitted o)).

Definition handle (tree : bool) (o : IrohDocument) (e : doc_event) : IrohDocument :=
  match e with
  | Opened i =>
      mk_iroh_document (document o) (to_string i) (tick o) (emitted o) |> emit_later (signal_of e)
  | Closed _ => o |> close tree |> emit_later (signal_of e)
  | _ => emit_later (signal_of e) o
  end.

Definition set_events (c : Chan doc_event) (o : IrohDocument) : IrohDocument :=
  match document o with
  | Some d =>
      mk_iroh_document (Some (Docs.mk_document c (Docs.commands d))) (id o) (tick o) (emitted o)
  | None => o
  end.

#[global] Program Instance document_polled : Polled IrohDocument doc_event Signal := {|
  source o := Docs.events <$> document o;
  with_source := set_events;
  ticker := tick;
  signals := emitted;
  Polled.handle := handle;
  terminal := Docs.terminal;
|}.
Solve All Obligations with
  (intros; repeat match goal with
                  | o : IrohDocument |- _ => destruct o as [[[? ?]|] ? ? ?]
                  | H : is_Some _ |- _ => by destruct H
                  | e : doc_event |- _ => destruct e
                  end; cbn in *; simplify_eq; try done; eauto).

Definition _drain (tree : bool) (o : IrohDocument) : IrohDocument := drain tree o.

(** The requests answer [false] once the document is gone. *)
Definition requesting (f : doc_handle → doc_handle * bool) (o : IrohDocument) : IrohDocument * bool :=
  match document o with
  | Some d =>
      let '(d, ok) := f d in (mk_iroh_document (Some d) (id o) (tick o) (emitted o), ok)
  | None => (o, false)
  end.

Definition set (key value : bytes) (o : IrohDocument) := requesting (Docs.set key value) o.
Definition delete_prefix (prefix : bytes) (o : IrohDocument) := requesting (Docs.delete prefix) o.
Definition read (key : bytes) (o : IrohDocument) := requesting (Docs.read key) o.
Definition list_keys (prefix : bytes) (o : IrohDocument) := requesting (Docs.list_keys prefix) o.
Definition request_status (o : IrohDocument) := requesting Docs.get_status o.
Definition share (writable : bool) (o : IrohDocument) := requesting (Docs.share writable) o.

Definition join_peers (parse : string → option Addr) (peers : list string) (o : IrohDocument)
  : IrohDocument * bool :=
  match document o with
  | None => (o, false)
  | Some _ =>
      match mapM parse peers with
      | None => (o, false)
      | Some parsed => requesting (Docs.join parsed) o
      end
  end.

Definition leave (o : IrohDocument) := requesting Docs.leave o.
Definition get_id (o : IrohDocument) : string := id o.
Definition is_open (o : IrohDocument) : bool := bool_decide (is_Some (document o)).
End document.

Arguments IrohDocument : clear implicits.
