(* ===== verification/Endpoint.v ===== *)
(** * The endpoint ([endpoint.rs])

    The object everything else hangs off: the configuration of the next bind,
    the bind itself, the protocols started on first use, the claims of scripts,
    and the questions put to the stores, all polled by one [_drain] on the frame
    signal. The registry of a bound endpoint is any [AlpnRegistry]; iroh's
    endpoint is a value of type [Ep]. *)

From S2P Require Import Prelude Polled Wire.
From S2P Require Runtime Blobs Docs Gossip.
From S2P Require Import Dispatch.

Abbreviation Conn := Dispatch.Conn.

Definition DEFAULT_LOCAL_SERVICE : string := "gdiroh".

(** ** Configuration *)

Inductive RelayMode : Type :=
  | RelayDefault
  | RelayStaging
  | RelayDisabled
  | RelayCustom (urls : list string).

Definition RELAY_DEFAULT : Z := 0.
Definition RELAY_STAGING : Z := 1.
Definition RELAY_DISABLED : Z := 2.

Record Config : Type := mk_config {
  secret_key : option bytes;
  relay_mode : RelayMode;
  dns_lookup : bool;
  local_discovery : bool;
  local_service : string;
  blob_path : string;
}.

Definition default_config : Config :=
  mk_config None RelayDefault true false DEFAULT_LOCAL_SERVICE "".

Definition set_relay_mode (mode : Z) (c : Config) : Config * bool :=
  let set m := (mk_config (secret_key c) m (dns_lookup c) (local_discovery c) (local_service c)
                  (blob_path c), true) in
  if decide (mode = RELAY_DEFAULT) then set RelayDefault
  else if decide (mode = RELAY_STAGING) then set RelayStaging
  else if decide (mode = RELAY_DISABLED) then set RelayDisabled
  else (c, false).

(** [valid] is [RelayMap::try_from_iter]. *)
Definition set_custom_relays (valid : list string → bool) (urls : list string) (c : Config)
  : Config * bool :=
  if valid urls then
    (mk_config (secret_key c) (RelayCustom urls) (dns_lookup c) (local_discovery c)
       (local_service c) (blob_path c), true)
  else (c, false).

Definition set_dns_lookup (enabled : bool) (c : Config) : Config :=
  mk_config (secret_key c) (relay_mode c) enabled (local_discovery c) (local_service c) (blob_path c).

Definition set_local_discovery (enabled : bool) (c : Config) : Config :=
  mk_config (secret_key c) (relay_mode c) (dns_lookup c) enabled (local_service c) (blob_path c).

(** [trim] is [str::trim], which removes Unicode white space. *)
Definition set_local_discovery_service (trim : string → string) (name : string) (c : Config) : Config :=
  mk_config (secret_key c) (relay_mode c) (dns_lookup c) (local_discovery c)
    (if decide (trim name = "") then DEFAULT_LOCAL_SERVICE else name) (blob_path c).

Definition set_secret_key (key : bytes) (c : Config) : Config * bool :=
  if decide (length key = 32%nat) then
    (mk_config (Some key) (relay_mode c) (dns_lookup c) (local_discovery c) (local_service c)
       (blob_path c), true)
  else (c, false).

Definition set_blob_store_path (trim globalize : string → string) (path : string) (c : Config)
  : Config :=
  mk_config (secret_key c) (relay_mode c) (dns_lookup c) (local_discovery c) (local_service c)
    (if decide (trim path = "") then "" else globalize path).

(** [(!self.blob_path.is_empty()).then(..)]. *)
Definition store_path (c : Config) : option string :=
  if decide (blob_path c = "") then None else Some (blob_path c).

(** The calls [bind] makes on iroh's builder, in order. *)
Inductive BuilderCall : Type :=
  | SecretKey (key : bytes)
  | AddressLookupMemory
  | BuilderRelayMode (mode : RelayMode)
  | ClearAddressLookup
  | AddressLookupMdns (service : string).

Definition builder_calls (generated : bytes) (c : Config) : list BuilderCall :=
  [SecretKey (default generated (secret_key c)); AddressLookupMemory; BuilderRelayMode (relay_mode c)]
  ++ (if dns_lookup c then [] else [ClearAddressLookup])
  ++ (if local_discovery c then [AddressLookupMdns (local_service c)] else []).

(** ** State *)

Inductive Kind : Type := KStatus | KBlobs | KTags | KMutation.
Inductive DocKind : Type := KDocuments | KAuthors | KNewAuthor | KDocMutation.

Record Question : Type := mk_question {
  kind : Kind;
  about : string;
  ask : Blobs.Oneshot Blobs.Answer;
}.

Record DocQuestion : Type := mk_doc_question {
  doc_kind : DocKind;
  doc_about : string;
  doc_ask : Blobs.Oneshot Docs.Reply;
}.

Inductive Signal : Type :=
  | bound (id : string)
  | bind_failed (reason : string)
  | connection_received (alpn : bytes) (c : Conn)
  | blob_status (hash : string) (present complete : bool) (size : Z)
  | blob_list (hashes : list string)
  | tag_list (tags : list string)
  | document_list (ids : list string)
  | author_list (authors : list string)
  | author_created (author : string).

Section endpoint.
Context {R Reg Ep Store Addr : Type} `{AlpnRegistry R Reg} `{Display Ep} `{HashOrder}.

(** The [Dispatcher]: iroh's endpoint and the registry of its accept loop. *)
Record Dispatcher : Type := mk_dispatcher {
  endpoint : Ep;
  registry : R;
}.

(** The protocols started on first use. *)
Record Services : Type := mk_services {
  swarm : option (Gossip.Swarm Reg);
  depot : option (Blobs.Depot Store Ep Reg);
  library : option (Docs.Library Reg);
}.

Record IrohEndpoint : Type := mk_endpoint {
  config : Config;
  lease : bool;
  dispatcher : option Dispatcher;
  pending_bind : option (Blobs.Oneshot (Ep + string));
  listeners : gmap bytes Reg;
  pending_listens : list bytes;
  services : Services;
  questions : list Question;
  document_questions : list DocQuestion;
  lookup : list Addr;
  tick : Ticker;
  emitted : list Signal;
}.

Definition init : IrohEndpoint :=
  mk_endpoint default_config false None None ∅ [] (mk_services None None None) [] [] [] idle [].

Definition set_config (c : Config) (e : IrohEndpoint) : IrohEndpoint :=
  mk_endpoint c (lease e) (dispatcher e) (pending_bind e) (listeners e) (pending_listens e)
    (services e) (questions e) (document_questions e) (lookup e) (tick e) (emitted e).
Definition set_lease (l : bool) (e : IrohEndpoint) : IrohEndpoint :=
  mk_endpoint (config e) l (dispatcher e) (pending_bind e) (listeners e) (pending_listens e)
    (services e) (questions e) (document_questions e) (lookup e) (tick e) (emitted e).
Definition set_dispatcher (d : option Dispatcher) (e : IrohEndpoint) : IrohEndpoint :=
  mk_endpoint (config e) (lease e) d (pending_bind e) (listeners e) (pending_listens e)
    (services e) (questions e) (document_questions e) (lookup e) (tick e) (emitted e).
Definition set_pending_bind (p : option (Blobs.Oneshot (Ep + string))) (e : IrohEndpoint) : IrohEndpoint :=
  mk_endpoint (config e) (lease e) (dispatcher e) p (listeners e) (pending_listens e)
    (services e) (questions e) (document_questions e) (lookup e) (tick e) (emitted e).
Definition set_listeners (l : gmap bytes Reg) (e : IrohEndpoint) : IrohEndpoint :=
  mk_endpoint (config e) (lease e) (dispatcher e) (pending_bind e) l (pending_listens e)
    (services e) (questions e) (document_questions e) (lookup e) (tick e) (emitted e).
Definition set_pending_listens (l : list bytes) (e : IrohEndpoint) : IrohEndpoint :=
  mk_endpoint (config e) (lease e) (dispatcher e) (pending_bind e) (listeners e) l
    (services e) (questions e) (document_questions e) (lookup e) (tick e) (emitted e).
Definition set_services (s : Services) (e : IrohEndpoint) : IrohEndpoint :=
  mk_endpoint (config e) (lease e) (dispatcher e) (pending_bind e) (listeners e) (pending_listens e)
    s (questions e) (document_questions e) (lookup e) (tick e) (emitted e).
Definition set_questions (q : list Question) (dq : list DocQuestion) (e : IrohEndpoint) : IrohEndpoint :=
  mk_endpoint (config e) (lease e) (dispatcher e) (pending_bind e) (listeners e) (pending_listens e)
    (services e) q dq (lookup e) (tick e) (emitted e).
Definition set_lookup (l : list Addr) (e : IrohEndpoint) : IrohEndpoint :=
  mk_endpoint (config e) (lease e) (dispatcher e) (pending_bind e) (listeners e) (pending_listens e)
    (services e) (questions e) (document_questions e) l (tick e) (emitted e).
Definition set_tick (t : Ticker) (e : IrohEndpoint) : IrohEndpoint :=
  mk_endpoint (config e) (lease e) (dispatcher e) (pending_bind e) (listeners e) (pending_listens e)
    (services e) (questions e) (document_questions e) (lookup e) t (emitted e).
Definition emit_later (s : Signal) (e : IrohEndpoint) : IrohEndpoint :=
  mk_endpoint (config e) (lease e) (dispatcher e) (pending_bind e) (listeners e) (pending_listens e)
    (services e) (questions e) (document_questions e) (lookup e) (tick e) (emitted e ++ [s]).

Definition set_registry (r : R) (e : IrohEndpoint) : IrohEndpoint :=
  match dispatcher e with
  | Some d => set_dispatcher (Some (mk_dispatcher (endpoint d) r)) e
  | None => e
  end.

(** ** Polling *)

(** Whether anything needs polling. *)
Definition outstanding (e : IrohEndpoint) : bool :=
  bool_decide (is_Some (pending_bind e)) || negb (bool_decide (listeners e = ∅))
  || negb (bool_decide (length (questions e) = 0%nat))
  || negb (bool_decide (length (document_questions e) = 0%nat)).

(** The scene tree is there: see the header. *)
Definition refresh_ticking (e : IrohEndpoint) : IrohEndpoint :=
  set_tick (if outstanding e then start_ticking true (tick e) else stop_ticking true (tick e)) e.

(** ** Listening *)

Definition claim (alpn : bytes) (e : IrohEndpoint) : IrohEndpoint * bool :=
  match listeners e !! alpn with
  | Some _ => (e, true)
  | None =>
      match dispatcher e with
      | None => (e, false)
      | Some d =>
          match register alpn (registry d) with
          | (r, None) => (set_registry r e, false)
          | (r, Some g) =>
              (e |> set_registry r |> set_listeners (<[alpn := g]> (listeners e)) |> refresh_ticking, true)
          end
      end
  end.

Definition listen (alpn : bytes) (e : IrohEndpoint) : IrohEndpoint * bool :=
  if decide (alpn = []) then (e, false)
  else if decide (alpn = ALPN) then (e, false)
  else
    match dispatcher e with
    | None =>
        match pending_bind e with
        | None => (e, false)
        | Some _ =>
            (if decide (alpn ∈ pending_listens e) then e
             else set_pending_listens (pending_listens e ++ [alpn]) e, true)
        end
    | Some _ => claim alpn e
    end.

(** Removing a listener drops its registration, which releases the claim. *)
Definition release_on (g : Reg) (e : IrohEndpoint) : IrohEndpoint :=
  match dispatcher e with
  | Some d => set_registry (release g (registry d)) e
  | None => e
  end.

Definition stop_listening (alpn : bytes) (e : IrohEndpoint) : IrohEndpoint :=
  let e := set_pending_listens (base.filter (λ queued, queued ≠ alpn) (pending_listens e)) e in
  let e := match listeners e !! alpn with
           | Some g => e |> release_on g |> set_listeners (delete alpn (listeners e))
           | None => e
           end in
  refresh_ticking e.

(** [while let Some(connection) = registration.try_accept()]. *)
Fixpoint accept_all (fuel : nat) (g : Reg) (r : R) : list Conn * R :=
  match fuel with
  | O => ([], r)
  | S fuel =>
      match next_inbound g r with
      | (Some c, r) => let '(cs, r) := accept_all fuel g r in (c :: cs, r)
      | (None, r) => ([], r)
      end
  end.

Definition drain_listener (acc : list (bytes * Conn) * R) (alpn : bytes) (g : Reg)
  : list (bytes * Conn) * R :=
  let '(cs, r) := accept_all (S (backlog g acc.2)) g acc.2 in
  (acc.1 ++ ((λ c, (alpn, c)) <$> cs), r).

Definition drain_listeners (e : IrohEndpoint) : IrohEndpoint :=
  match dispatcher e with
  | None => e
  | Some d =>
      let '(arrived, r) :=
        foldl (λ acc alpn,
          match listeners e !! alpn with
          | Some g => drain_listener acc alpn g
          | None => acc
          end) ([], registry d) (hash_keys (listeners e)) in
      foldl (λ e a, emit_later (connection_received a.1 a.2) e) (set_registry r e) arrived
  end.

(** ** Binding *)

(** [bind]: [buildable] is whether a runtime could be built if one is needed.
    The calls on the builder are returned for the task. *)
Definition bind (buildable : bool) (generated : bytes) (e : IrohEndpoint) (w : Runtime.World)
  : IrohEndpoint * Runtime.World * option (list BuilderCall) :=
  if bool_decide (is_Some (pending_bind e)) || bool_decide (is_Some (dispatcher e)) then (e, w, None)
  else
    let '(w, held) := if lease e then (w, true) else Runtime.acquire buildable w in
    let e := set_lease held e in
    if Runtime.spawn w then
      (e |> set_pending_bind (Some Blobs.Waiting) |> refresh_ticking, w,
       Some (builder_calls generated (config e)))
    else (e, w, None).

(** [fresh] is the registry [Dispatcher::start] begins with. *)
Definition drain_bind (fresh : R) (e : IrohEndpoint) : IrohEndpoint :=
  let settle outcome :=
    let e := e |> set_pending_bind None |> refresh_ticking in
    match outcome with
    | inl ep =>
        let e := set_dispatcher (Some (mk_dispatcher ep fresh)) e in
        let queued := pending_listens e in
        let e := foldl (λ e alpn, (claim alpn e).1) (set_pending_listens [] e) queued in
        emit_later (bound (to_string ep)) e
    | inr reason => emit_later (bind_failed reason) e
    end in
  match pending_bind e with
  | None => e
  | Some Blobs.Waiting => e
  | Some (Blobs.Replied outcome) => settle outcome
  | Some Blobs.SenderGone => settle (inr "the bind task was dropped"%string)
  end.

(** ** Services on first use

    The result says whether the service is there. *)

Variables gossip_alpn blobs_alpn docs_alpn : bytes.

(** [reactor], [detached]: whether the runtime is up and takes the accept task. *)
Definition start_swarm (reactor detached : bool) (e : IrohEndpoint) : IrohEndpoint * bool :=
  match swarm (services e) with
  | Some _ => (e, true)
  | None =>
      match dispatcher e with
      | None => (e, false)
      | Some d =>
          let '(r, s) := Gossip.start gossip_alpn reactor detached (registry d) in
          (e |> set_registry r
             |> set_services (mk_services s (depot (services e)) (library (services e))),
           bool_decide (is_Some s))
      end
  end.

Definition start_depot (detached : bool) (e : IrohEndpoint) : IrohEndpoint * bool :=
  match depot (services e) with
  | Some _ => (e, true)
  | None =>
      match dispatcher e with
      | None => (e, false)
      | Some d =>
          let '(r, s) := Blobs.start blobs_alpn (endpoint d) (store_path (config e)) detached (registry d) in
          (e |> set_registry r
             |> set_services (mk_services (swarm (services e)) s (library (services e))),
           bool_decide (is_Some s))
      end
  end.

(** [library]: blobs and gossip come up first. *)
Definition start_library (reactor detached : bool) (e : IrohEndpoint) : IrohEndpoint * bool :=
  match library (services e) with
  | Some _ => (e, true)
  | None =>
      match dispatcher e with
      | None => (e, false)
      | Some _ =>
          match start_depot detached e with
          | (e, false) => (e, false)
          | (e, true) =>
              match start_swarm reactor detached e with
              | (e, false) => (e, false)
              | (e, true) =>
                  match dispatcher e with
                  | None => (e, false)
                  | Some d =>
                      let '(r, s) := Docs.start docs_alpn (store_path (config e)) detached (registry d) in
                      (e |> set_registry r
                         |> set_services (mk_services (swarm (services e)) (depot (services e)) s),
                       bool_decide (is_Some s))
                  end
              end
          end
      end
  end.

(** ** Questions *)

(** [answer]: the signal, if the answer has one. *)
Definition answer (about : string) (k : Kind) (a : Blobs.Answer) : option Signal :=
  match k, a with
  | KStatus, Blobs.AnswerStatus present complete size =>
      Some (blob_status about present complete (u64_as_i64 size))
  | KBlobs, Blobs.AnswerNames names => Some (blob_list names)
  | KTags, Blobs.AnswerNames names => Some (tag_list names)
  | KMutation, Blobs.AnswerDone => None
  | _, _ => None
  end.

Definition document_answer (k : DocKind) (r : Docs.Reply) : option Signal :=
  match k, r with
  | KDocuments, Docs.Names ids => Some (document_list ids)
  | KAuthors, Docs.Names authors => Some (author_list authors)
  | KNewAuthor, Docs.Names author => Some (author_created (default "" (head author)))
  | KDocMutation, Docs.ReplyDone => None
  | _, _ => None
  end.

(** [retain_mut]: the answers taken, and the questions that stay. *)
Fixpoint take_answers (qs : list Question) : list (option Signal) * list Question :=
  match qs with
  | [] => ([], [])
  | q :: qs =>
      let '(answered, kept) := take_answers qs in
      match Blobs.ask_try_recv (ask q) with
      | (Some a, _) => (answer (about q) (kind q) a :: answered, kept)
      | (None, o) => (answered, mk_question (kind q) (about q) o :: kept)
      end
  end.

Fixpoint take_replies (qs : list DocQuestion) : list (option Signal) * list DocQuestion :=
  match qs with
  | [] => ([], [])
  | q :: qs =>
      let '(answered, kept) := take_replies qs in
      match Blobs.ask_try_recv (doc_ask q) with
      | (Some r, _) => (document_answer (doc_kind q) r :: answered, kept)
      | (None, o) => (answered, mk_doc_question (doc_kind q) (doc_about q) o :: kept)
      end
  end.

Definition emit_all (l : list (option Signal)) (e : IrohEndpoint) : IrohEndpoint :=
  foldl (λ e s, match s with Some s => emit_later s e | None => e end) e l.

Definition drain_questions (e : IrohEndpoint) : IrohEndpoint :=
  let '(answered, kept) := take_answers (questions e) in
  e |> set_questions kept (document_questions e) |> emit_all answered |> refresh_ticking.

Definition drain_document_questions (e : IrohEndpoint) : IrohEndpoint :=
  let '(answered, kept) := take_replies (document_questions e) in
  e |> set_questions (questions e) kept |> emit_all answered |> refresh_ticking.

Definition asking (k : Kind) (about : string) (o : Blobs.Oneshot Blobs.Answer) (e : IrohEndpoint)
  : IrohEndpoint :=
  e |> set_questions (questions e ++ [mk_question k about o]) (document_questions e)
    |> refresh_ticking.

Definition asking_documents (k : DocKind) (about : string) (o : Blobs.Oneshot Docs.Reply)
    (e : IrohEndpoint) : IrohEndpoint :=
  e |> set_questions (questions e) (document_questions e ++ [mk_doc_question k about o])
    |> refresh_ticking.

Definition _drain (fresh : R) (e : IrohEndpoint) : IrohEndpoint :=
  e |> drain_bind fresh |> drain_listeners |> drain_questions |> drain_document_questions.

(** *** What scripts ask

    [parsed] is whether the arguments parse; the depot is only started then.
    [reply] is the channel the depot's task answers on. *)

Definition ask_depot (parsed : bool) (k : Kind) (about : string) (detached : bool)
    (reply : Blobs.Oneshot Blobs.Answer) (e : IrohEndpoint) : IrohEndpoint * bool :=
  if parsed then
    match start_depot detached e with
    | (e, true) => (asking k about reply e, true)
    | (e, false) => (e, false)
    end
  else (e, false).

Definition ask_library (parsed : bool) (k : DocKind) (about : string) (reactor detached : bool)
    (reply : Blobs.Oneshot Docs.Reply) (e : IrohEndpoint) : IrohEndpoint * bool :=
  if parsed then
    match start_library reactor detached e with
    | (e, true) => (asking_documents k about reply e, true)
    | (e, false) => (e, false)
    end
  else (e, false).

Definition optional (trim : string → string) (value : string) : option string :=
  if decide (trim value = "") then None else Some value.

Section asks.
Variable trim : string → string.
Variables hash_parses id_parses author_parses : string → bool.

Definition request_blob_status (hash : string) := ask_depot (hash_parses hash) KStatus hash.
Definition request_blob_list := ask_depot true KBlobs "blob list".
Definition tag_blob (hash tag : string) :=
  ask_depot (hash_parses hash && bool_decide (is_Some (optional trim tag))) KMutation
    ("tagging " +:+ hash)%string.
Definition untag_blob (tag : string) :=
  ask_depot (bool_decide (is_Some (optional trim tag))) KMutation ("untagging " +:+ tag)%string.
Definition request_tag_list := ask_depot true KTags "tag list".

Definition request_document_list := ask_library true KDocuments "document list".
Definition drop_document (id : string) :=
  ask_library (id_parses id) KDocMutation ("dropping " +:+ id)%string.
Definition request_author_list := ask_library true KAuthors "author list".
Definition create_author := ask_library true KNewAuthor "creating an author".
Definition set_default_author (author : string) :=
  ask_library (author_parses author) KDocMutation ("choosing author " +:+ author)%string.
End asks.

(** ** Dialling and joining

    What is returned is what the new object is made from. *)

Definition dial (peer : Addr) (alpn : bytes) (e : IrohEndpoint) : option (Ep * Addr * bytes) :=
  if decide (alpn = []) then None
  else
    match dispatcher e with
    | None => None
    | Some d => Some (endpoint d, peer, alpn)
    end.

(** [connect_to] and [connect_to_ticket]. *)
Definition connect_to (parse : string → option Addr) (text : string) (alpn : bytes) (e : IrohEndpoint)
  : option (Ep * Addr * bytes) :=
  match parse text with
  | None => None
  | Some peer => dial peer alpn e
  end.

Definition remember_peer (parse : string → option Addr) (id_text : Addr → string) (ticket : string)
    (e : IrohEndpoint) : IrohEndpoint * string :=
  match parse ticket with
  | None => (e, "")
  | Some addr => (set_lookup (lookup e ++ [addr]) e, id_text addr)
  end.

Definition subscribe {TopicId Id} (topic_id : string → TopicId) (parse : string → option Id)
    (reactor detached : bool) (topic : string) (bootstrap : list string) (e : IrohEndpoint)
  : IrohEndpoint * option (TopicId * list Id) :=
  match dispatcher e with
  | None => (e, None)
  | Some _ =>
      match mapM parse bootstrap with
      | None => (e, None)
      | Some peers =>
          match start_swarm reactor detached e with
          | (e, true) => (e, Some (topic_id topic, peers))
          | (e, false) => (e, None)
          end
      end
  end.

(** [add_bytes], [add_file], [fetch_blob], [export_blob] and [read_blob]: parse
    what there is to parse, then start the depot. [remembered] is the address
    [fetch_blob_ticket] learns first. *)
Definition start_transfer {Job : Type} (job : option Job) (remembered : list Addr) (detached : bool)
    (e : IrohEndpoint) : IrohEndpoint * option Job :=
  match job with
  | None => (e, None)
  | Some job =>
      match start_depot detached (set_lookup (lookup e ++ remembered) e) with
      | (e, true) => (e, Some job)
      | (e, false) => (e, None)
      end
  end.

(** [create_document], [open_document] and [join_document]. *)
Definition start_document {Src : Type} (src : option Src) (reactor detached : bool) (e : IrohEndpoint)
  : IrohEndpoint * option Src :=
  match src with
  | None => (e, None)
  | Some src =>
      match start_library reactor detached e with
      | (e, true) => (e, Some src)
      | (e, false) => (e, None)
      end
  end.

Definition endpoint_id (e : IrohEndpoint) : string :=
  match dispatcher e with Some d => to_string (endpoint d) | None => "" end.

Definition is_bound (e : IrohEndpoint) : bool := bool_decide (is_Some (dispatcher e)).

Definition is_closed (closed : Ep → bool) (e : IrohEndpoint) : bool :=
  match dispatcher e with Some d => closed (endpoint d) | None => true end.

(** ** Teardown

    [HashMap::clear] drops the registrations one after the other; dropping a
    service releases its claim. *)

Definition release_all (gs : list Reg) (e : IrohEndpoint) : IrohEndpoint :=
  foldl (λ e g, release_on g e) e gs.

Definition service_claims (s : Services) : list Reg :=
  option_list (Gossip.swarm_claim <$> swarm s) ++ option_list (Blobs.depot_claim <$> depot s)
  ++ option_list (Docs.library_claim <$> library s).

(** The registry is returned as the dispatcher's other clones see it. *)
Definition teardown (e : IrohEndpoint) (w : Runtime.World) : IrohEndpoint * Runtime.World * option Dispatcher :=
  let e := set_pending_bind None e in
  let e := e |> release_all (omap (λ a, listeners e !! a) (hash_keys (listeners e)))
             |> set_listeners ∅ |> set_pending_listens [] in
  let e := e |> release_all (service_claims (services e)) |> set_services (mk_services None None None) in
  let left_behind := dispatcher e in
  let e := set_dispatcher None e in
  (set_lease false e, if lease e then Runtime.drop_lease w else w, left_behind).

Definition close (e : IrohEndpoint) (w : Runtime.World) : IrohEndpoint * Runtime.World * option Dispatcher :=
  let '(e, w, d) := teardown e w in (refresh_ticking e, w, d).
End endpoint.

Arguments IrohEndpoint : clear implicits.
Arguments Dispatcher : clear implicits.
Arguments Services : clear implicits.

(** ** The endpoint at work *)

Section invariant.
Context {R Reg Ep Store Addr : Type} `{AlpnRegistry R Reg} `{Display Ep} `{HashOrder}.
Variables gossip_alpn blobs_alpn docs_alpn : bytes.
Abbreviation endpt := (IrohEndpoint R Reg Ep Store Addr).
Implicit Types e : endpt.

Definition service_alpns (s : Services Reg Ep Store) : list bytes :=
  registered_alpn <$> service_claims s.

(** The claims the endpoint answers for. *)
Definition claims e : gset bytes := dom (listeners e) ∪ list_to_set (service_alpns (services e)).

Lemma elem_of_claims b e : b ∈ claims e ↔ b ∈ dom (listeners e) ∨ b ∈ service_alpns (services e).
Proof. unfold claims. by rewrite elem_of_union, elem_of_list_to_set. Qed.

Record ok e : Prop := {
  ok_tick : tick e = if outstanding e then mk_ticker true true else idle;
  ok_bind : is_Some (pending_bind e) → dispatcher e = None;
  ok_unbound : dispatcher e = None → listeners e = ∅ ∧ services e = mk_services None None None;
  ok_listeners a g : listeners e !! a = Some g → registered_alpn g = a ∧ a ≠ [] ∧ a ≠ ALPN;
  ok_pending a : a ∈ pending_listens e → a ≠ [] ∧ a ≠ ALPN;
  ok_held d : dispatcher e = Some d → claims e ⊆ held (registry d);
  ok_services a : a ∈ service_alpns (services e) → a ∉ dom (listeners e);
}.

(** The same but for the subscription, which [refresh_ticking] restores. *)
Record sound e : Prop := {
  sound_tick : tick e = mk_ticker true true ∨ tick e = idle;
  sound_bind : is_Some (pending_bind e) → dispatcher e = None;
  sound_unbound : dispatcher e = None → listeners e = ∅ ∧ services e = mk_services None None None;
  sound_listeners a g : listeners e !! a = Some g → registered_alpn g = a ∧ a ≠ [] ∧ a ≠ ALPN;
  sound_pending a : a ∈ pending_listens e → a ≠ [] ∧ a ≠ ALPN;
  sound_held d : dispatcher e = Some d → claims e ⊆ held (registry d);
  sound_services a : a ∈ service_alpns (services e) → a ∉ dom (listeners e);
}.

Lemma ok_sound e : ok e → sound e.
Proof. intros [Ht ? ? ? ? ? ?]. split; auto. rewrite Ht. destruct (outstanding e); auto. Qed.

Lemma refresh_ok e : sound e → ok (refresh_ticking e).
Proof.
  intros [Ht ? ? ? ? ? ?]. split; auto. cbn.
  change (outstanding (refresh_ticking e)) with (outstanding e).
  destruct Ht as [-> | ->]; by destruct (outstanding e).
Qed.

(** Steps that leave the subscription and what it depends on alone. *)
Lemma sound_ok e e' : ok e → sound e' → tick e' = tick e → outstanding e' = outstanding e → ok e'.
Proof. intros [Ht ? ? ? ? ? ?] [? ? ? ? ? ? ?] Hte Ho. split; auto. by rewrite Hte, Ho. Qed.

(** The endpoint as its claims and its registry see it. *)
Lemma sound_registry e d r :
  sound e → dispatcher e = Some d → claims e ⊆ held r → sound (set_registry r e).
Proof.
  intros [? Hb Hu ? ? ? ?] Hd Hc. unfold set_registry. rewrite Hd.
  split; cbn; auto; [intros Hp; apply Hb in Hp; congruence|done|by intros ? [= <-]].
Qed.

Lemma set_registry_fields r e :
  tick (set_registry r e) = tick e ∧ pending_bind (set_registry r e) = pending_bind e ∧
  listeners (set_registry r e) = listeners e ∧ pending_listens (set_registry r e) = pending_listens e ∧
  services (set_registry r e) = services e ∧ questions (set_registry r e) = questions e ∧
  document_questions (set_registry r e) = document_questions e ∧ config (set_registry r e) = config e ∧
  emitted (set_registry r e) = emitted e.
Proof. unfold set_registry. by destruct (dispatcher e). Qed.

Lemma set_registry_dispatcher r e d :
  dispatcher e = Some d → dispatcher (set_registry r e) = Some (mk_dispatcher (endpoint d) r).
Proof. unfold set_registry. by intros ->. Qed.

Lemma outstanding_registry r e : outstanding (set_registry r e) = outstanding e.
Proof. unfold set_registry. by destruct (dispatcher e). Qed.

Lemma ok_registry e d r :
  ok e → dispatcher e = Some d → claims e ⊆ held r → ok (set_registry r e).
Proof.
  intros Hok Hd Hc. apply (sound_ok e); [done| | |apply outstanding_registry].
  - by apply (sound_registry e d); [apply ok_sound| |].
  - by destruct (set_registry_fields r e).
Qed.

Lemma claims_registry r e : claims (set_registry r e) = claims e.
Proof. unfold claims. by destruct (set_registry_fields r e) as (_ & _ & -> & _ & -> & _). Qed.

(** *** Claims *)

Lemma claim_ok a e : ok e → a ≠ [] → a ≠ ALPN → ok (claim a e).1.
Proof.
  intros Hok Hne Hna. unfold claim. destruct (listeners e !! a) eqn:Hl; [done|].
  destruct (dispatcher e) as [d|] eqn:Hd; [|done].
  destruct (register a (registry d)) as [r [g|]] eqn:Hr.
  - apply register_some in Hr as (Hfree & Hg & Hheld). cbn [fst].
    pose proof (ok_held _ Hok d Hd) as Hc.
    assert (sound (set_registry r e)) as [Ht Hb Hu Hli Hp Hh Hs].
    { apply (sound_registry e d); [by apply ok_sound|done|]. rewrite Hheld. set_solver. }
    pose proof (set_registry_dispatcher r e d Hd) as Hd'.
    destruct (set_registry_fields r e) as (_ & _ & El & _ & Es & _).
    apply refresh_ok. split; cbn; auto.
    + intros Hn. congruence.
    + intros b g'. destruct (decide (a = b)) as [->|Hab].
      * rewrite lookup_insert_eq. by intros [= <-].
      * rewrite lookup_insert_ne by done. rewrite <- El. apply Hli.
    + intros d' Hd''. rewrite Hd' in Hd''. injection Hd'' as <-. cbn.
      intros b. rewrite elem_of_claims. cbn. rewrite dom_insert_L, Es, Hheld, !elem_of_union, elem_of_singleton.
      intros [[?|?]|?]; [by left|right; apply Hc, elem_of_claims; by left
                        |right; apply Hc, elem_of_claims; by right].
    + intros b Hb'. rewrite dom_insert_L. intros [->%elem_of_singleton|Hin]%elem_of_union.
      * apply Hfree, Hc, elem_of_claims. right. by rewrite <- Es.
      * apply (Hs b Hb'). by rewrite El.
  - apply register_none in Hr as [_ ->]. apply (ok_registry e d); [done..|]. by apply Hok.
Qed.

Lemma listen_ok a e : ok e → ok (listen a e).1.
Proof.
  intros Hok. unfold listen. case_decide; [done|]. case_decide; [done|].
  destruct (dispatcher e) eqn:Hd; [by apply claim_ok|].
  destruct (pending_bind e) eqn:Hp; [|done]. cbn [fst]. case_decide; [done|].
  destruct Hok. split; cbn; auto. intros b. rewrite elem_of_app, list_elem_of_singleton.
  intros [?| ->]; auto.
Qed.

Lemma stop_listening_ok a e : ok e → ok (stop_listening a e).
Proof.
  intros Hok. unfold stop_listening. apply refresh_ok.
  set (e1 := set_pending_listens _ e).
  assert (sound e1) as Hs1.
  { destruct (ok_sound e Hok). split; cbn; auto. intros b [_ Hb]%list_elem_of_filter. auto. }
  destruct (listeners e1 !! a) as [g|] eqn:Hl; [|done].
  assert (registered_alpn g = a) as Hg by (by apply (sound_listeners _ Hs1) in Hl as [? _]).
  assert (a ∈ dom (listeners e1)) as Ha by (apply elem_of_dom; eauto).
  unfold release_on. destruct (dispatcher e1) as [d|] eqn:Hd.
  2:{ apply (sound_unbound _ Hs1) in Hd as [Hn _]. rewrite Hn in Ha. set_solver. }
  pose proof (sound_held _ Hs1 d Hd) as Hc.
  pose proof (set_registry_dispatcher (release g (registry d)) e1 d Hd) as Hd'.
  destruct (set_registry_fields (release g (registry d)) e1) as (Et & Eb & El & Ep' & Es & _).
  destruct Hs1 as [Ht Hb Hu Hli Hp Hh Hs].
  split; cbn; rewrite ?Et, ?Eb, ?Ep', ?Es; auto.
  - intros Hn. apply Hb in Hn. congruence.
  - intros Hn. congruence.
  - intros b g' [_ Hb']%lookup_delete_Some. eauto.
  - intros d' Hd''. rewrite Hd' in Hd''. injection Hd'' as <-. cbn.
    intros b. rewrite elem_of_claims. cbn.
    rewrite dom_delete_L, Es, release_held, Hg, !elem_of_difference, elem_of_singleton.
    intros [[Hin Hne]|Hin]; (split; [apply Hc, elem_of_claims|]).
    + by left.
    + done.
    + by right.
    + intros ->. by apply (Hs a).
  - intros b Hb'. rewrite dom_delete_L, elem_of_difference. intros [? _]. by apply (Hs b).
Qed.

(** *** Polling *)

Lemma accept_all_held n g r : held (accept_all n g r).2 = held r.
Proof.
  revert r. induction n as [|n IH]; intros r; cbn; [done|].
  pose proof (next_inbound_held g r) as Hh. destruct (next_inbound g r) as [[c|] r']; cbn in *; [|done].
  specialize (IH r'). destruct (accept_all n g r') as [cs r'']. cbn in *. by rewrite IH, Hh.
Qed.

Lemma emit_ok s e : ok e → ok (emit_later s e).
Proof. by intros []; split. Qed.

Lemma emit_fold_ok {A} (f : A → Signal) l e : ok e → ok (foldl (λ e a, emit_later (f a) e) e l).
Proof. intros Hok. apply (foldl_preserves _ ok); [done|]. intros; by apply emit_ok. Qed.

Lemma drain_listeners_ok e : ok e → ok (drain_listeners e).
Proof.
  intros Hok. unfold drain_listeners. destruct (dispatcher e) as [d|] eqn:Hd; [|done].
  set (step := λ (acc : list (bytes * Conn) * R) alpn, _).
  assert (held (foldl step ([], registry d) (hash_keys (listeners e))).2 = held (registry d)) as Hh.
  { apply (foldl_preserves step (λ acc, held acc.2 = held (registry d))); [done|].
    intros acc a Ha. unfold step. destruct (listeners e !! a) as [g|]; [|done].
    unfold drain_listener. pose proof (accept_all_held (S (backlog g acc.2)) g acc.2) as Hall.
    destruct (accept_all _ g acc.2) as [cs r]. cbn in *. congruence. }
  destruct (foldl step _ _) as [arrived r]. cbn in Hh.
  apply emit_fold_ok, (ok_registry e d); [done..|]. rewrite Hh. by apply Hok.
Qed.

Lemma emit_all_fields l e :
  tick (emit_all l e) = tick e ∧ outstanding (emit_all l e) = outstanding e ∧
  (sound e → sound (emit_all l e)).
Proof.
  unfold emit_all. apply (foldl_preserves _ (λ e', tick e' = tick e ∧ outstanding e' = outstanding e ∧
    (sound e → sound e'))); [done|].
  intros e' [s|] (? & ? & Hs); [|done]. split_and!; [done..|]. intros He. destruct (Hs He). by split.
Qed.

Lemma questions_sound q dq e : sound e → sound (set_questions q dq e).
Proof. by intros []; split. Qed.

Lemma drain_questions_ok e : ok e → ok (drain_questions e).
Proof.
  intros Hok%ok_sound. unfold drain_questions. destruct (take_answers _) as [l kept].
  apply refresh_ok. by apply emit_all_fields, questions_sound.
Qed.

Lemma drain_document_questions_ok e : ok e → ok (drain_document_questions e).
Proof.
  intros Hok%ok_sound. unfold drain_document_questions. destruct (take_replies _) as [l kept].
  apply refresh_ok. by apply emit_all_fields, questions_sound.
Qed.

Lemma asking_ok k a o e : ok e → ok (asking k a o e).
Proof. intros Hok%ok_sound. by apply refresh_ok, questions_sound. Qed.

Lemma asking_documents_ok k a o e : ok e → ok (asking_documents k a o e).
Proof. intros Hok%ok_sound. by apply refresh_ok, questions_sound. Qed.

(** *** Binding *)

Lemma pending_bind_sound p e : sound e → (is_Some p → dispatcher e = None) → sound (set_pending_bind p e).
Proof. by intros [] ?; split. Qed.

Lemma bind_ok b k e w : ok e → ok (bind b k e w).1.1.
Proof.
  intros Hok. unfold bind.
  destruct (bool_decide (is_Some (pending_bind e)) || _) eqn:Hb; [done|].
  apply orb_false_iff in Hb as [_ Hd%bool_decide_eq_false]. apply eq_None_not_Some in Hd.
  destruct (if lease e then _ else _) as [w' h]. destruct (Runtime.spawn w'); cbn.
  - apply refresh_ok, pending_bind_sound; [|done]. destruct (ok_sound e Hok). by split.
  - destruct Hok. by split.
Qed.

Lemma claim_pending a e :
  pending_listens (claim a e).1 = pending_listens e ∧ pending_bind (claim a e).1 = pending_bind e.
Proof.
  unfold claim. destruct (listeners e !! a); [done|]. destruct (dispatcher e) as [d|] eqn:Hd; [|done].
  unfold set_registry. destruct (register a (registry d)) as [r [g|]]; cbn; rewrite ?Hd; done.
Qed.

Lemma claims_foldl_ok l e :
  ok e → Forall (λ a, a ≠ [] ∧ a ≠ ALPN) l → ok (foldl (λ e a, (claim a e).1) e l).
Proof.
  intros Hok Hl. apply (foldl_invariant _ ok (λ a, a ≠ [] ∧ a ≠ ALPN)); [done..|].
  intros e' a He [? ?]. by apply claim_ok.
Qed.

(** A bound endpoint, before the queued claims. *)
Lemma just_bound_ok fresh ep e :
  ok e → held fresh = ∅ → is_Some (pending_bind e) →
  ok (set_pending_listens [] (set_dispatcher (Some (mk_dispatcher ep fresh))
        (refresh_ticking (set_pending_bind None e)))).
Proof.
  intros Hok Hf Hp. pose proof (ok_bind _ Hok Hp) as Hd.
  destruct (ok_unbound _ Hok Hd) as [Hl Hs].
  assert (ok (refresh_ticking (set_pending_bind None e))) as [Ht Hb Hu Hli Hpe Hh Hsv].
  { apply refresh_ok, pending_bind_sound; [by apply ok_sound|by intros []]. }
  split.
  - exact Ht.
  - by intros [? ?].
  - done.
  - exact Hli.
  - intros a Ha. by apply not_elem_of_nil in Ha.
  - intros d' [= <-]. unfold claims. cbn. rewrite Hl, Hs. set_solver.
  - exact Hsv.
Qed.

Lemma drain_bind_ok fresh e : ok e → held fresh = ∅ → ok (drain_bind fresh e).
Proof.
  intros Hok Hf. unfold drain_bind.
  assert (∀ reason, ok (emit_later (bind_failed reason) (refresh_ticking (set_pending_bind None e)))) as Hfail.
  { intros reason. apply emit_ok, refresh_ok, pending_bind_sound; [by apply ok_sound|by intros []]. }
  destruct (pending_bind e) as [[|[ep|reason]|]|] eqn:Hp; auto.
  apply emit_ok, claims_foldl_ok; [apply just_bound_ok; eauto|].
  apply Forall_forall. intros a Ha. by apply (ok_pending _ Hok).
Qed.

Lemma drain_ok fresh e : ok e → held fresh = ∅ → ok (_drain fresh e).
Proof.
  intros Hok Hf. unfold _drain.
  by apply drain_document_questions_ok, drain_questions_ok, drain_listeners_ok, drain_bind_ok.
Qed.

(** *** Services *)

(** A service that came up holds an ALPN nobody held. *)
Lemma service_ok e d r s' a :
  ok e → dispatcher e = Some d → held r = {[a]} ∪ held (registry d) → a ∉ held (registry d) →
  (∀ b, b ∈ service_alpns s' → b = a ∨ b ∈ service_alpns (services e)) →
  ok (set_services s' (set_registry r e)).
Proof.
  intros Hok Hd Hheld Hfree Hs'. pose proof (ok_held _ Hok d Hd) as Hc.
  assert (ok (set_registry r e)) as [Ht Hb Hu Hli Hp Hh Hsv].
  { apply (ok_registry e d); [done..|]. rewrite Hheld. set_solver. }
  pose proof (set_registry_dispatcher r e d Hd) as Hd'.
  destruct (set_registry_fields r e) as (_ & _ & El & _ & Es & _).
  split; cbn; auto.
  - intros Hn. congruence.
  - intros d' Hd''. rewrite Hd' in Hd''. injection Hd'' as <-. cbn.
    rewrite Hheld. intros b. rewrite elem_of_claims, elem_of_union, elem_of_singleton. cbn.
    rewrite El. intros [Hin|Hin]; [right; apply Hc, elem_of_claims; by left|].
    destruct (Hs' b Hin) as [Heq|Hold]; [by left|right; apply Hc, elem_of_claims; by right].
  - intros b Hb'. rewrite El. destruct (Hs' b Hb') as [-> |Hold].
    + intros Hin. apply Hfree, Hc, elem_of_claims. by left.
    + by apply (ok_services _ Hok).
Qed.

(** One that did not leaves things as they were. *)
Lemma no_service_ok e d r s' :
  ok e → dispatcher e = Some d → held r = held (registry d) →
  (∀ b, b ∈ service_alpns s' → b ∈ service_alpns (services e)) →
  ok (set_services s' (set_registry r e)).
Proof.
  intros Hok Hd Hheld Hs'.
  assert (ok (set_registry r e)) as [Ht Hb Hu Hli Hp Hh Hsv].
  { apply (ok_registry e d); [done..|]. rewrite Hheld. by apply Hok. }
  pose proof (set_registry_dispatcher r e d Hd) as Hd'.
  destruct (set_registry_fields r e) as (_ & _ & El & _ & Es & _).
  split; cbn; auto.
  - intros Hn. congruence.
  - intros d' Hd'' b. rewrite elem_of_claims. cbn. intros Hb'. apply (Hh d' Hd''), elem_of_claims.
    rewrite Es. destruct Hb' as [?|?%Hs']; [by left|by right].
  - intros b Hb'. apply Hsv. rewrite Es. by apply Hs'.
Qed.

(** Every service starts the same way: with a claim that is released again if
    nothing comes of it. *)
Definition starts {S : Type} (claim_of : S → Reg) (alpn : bytes) (r : R) (out : R * option S) : Prop :=
  match out with
  | (r', Some s) => registered_alpn (claim_of s) = alpn ∧ (alpn ∉ held r) ∧ held r' = {[alpn]} ∪ held r
  | (r', None) => held r' = held r
  end.

Lemma starts_claim {S : Type} (claim_of : S → Reg) alpn r (go : bool) (s : Reg → S) :
  (∀ g, claim_of (s g) = g) →
  starts claim_of alpn r
    (match register alpn r with
     | (r, None) => (r, None)
     | (r, Some g) => if go then (r, Some (s g)) else (release g r, None)
     end).
Proof.
  intros Hs. destruct (register alpn r) as [r' [g|]] eqn:Hr.
  - apply register_some in Hr as (Hf & Hg & Hh). destruct go; cbn.
    + rewrite Hs. done.
    + rewrite release_held, Hg, Hh. set_solver.
  - by apply register_none in Hr as [_ ->].
Qed.

Lemma start_swarm_ok re de e : ok e → ok (start_swarm gossip_alpn re de e).1.
Proof.
  intros Hok. unfold start_swarm. destruct (swarm (services e)) eqn:Hsw; [done|].
  destruct (dispatcher e) as [d|] eqn:Hd; [|done].
  pose proof (starts_claim Gossip.swarm_claim gossip_alpn (registry d) (re && de) (Gossip.mk_swarm Reg) (λ g, eq_refl))
    as Hst. fold (Gossip.start gossip_alpn re de (registry d)) in Hst.
  destruct (Gossip.start gossip_alpn re de (registry d)) as [r [s|]]; cbn in Hst |- *.
  - destruct Hst as (Ha & Hf & Hh). apply (service_ok e d _ _ gossip_alpn); [done..|].
    intros b. unfold service_alpns, service_claims. cbn. rewrite Hsw. cbn.
    rewrite elem_of_cons. rewrite Ha. tauto.
  - apply (no_service_ok e d); [done..|].
    intros b. unfold service_alpns, service_claims. cbn. by rewrite Hsw.
Qed.

Lemma start_depot_ok de e : ok e → ok (start_depot blobs_alpn de e).1.
Proof.
  intros Hok. unfold start_depot. destruct (depot (services e)) eqn:Hsw; [done|].
  destruct (dispatcher e) as [d|] eqn:Hd; [|done].
  pose proof (starts_claim Blobs.depot_claim blobs_alpn (registry d) de
    (Blobs.mk_depot (Store := Store) Reg (Blobs.mk_store_handle None (endpoint d) (store_path (config e))))
    (λ g, eq_refl)) as Hst.
  fold (Blobs.start (Store := Store) blobs_alpn (endpoint d) (store_path (config e)) de (registry d)) in Hst.
  destruct (Blobs.start blobs_alpn _ _ de (registry d)) as [r [s|]]; cbn in Hst |- *.
  - destruct Hst as (Ha & Hf & Hh). apply (service_ok e d _ _ blobs_alpn); [done..|].
    intros b. unfold service_alpns, service_claims. cbn. rewrite Hsw. cbn.
    rewrite !fmap_app, !elem_of_app. cbn. rewrite elem_of_cons. rewrite Ha. tauto.
  - apply (no_service_ok e d); [done..|].
    intros b. unfold service_alpns, service_claims. cbn. by rewrite Hsw.
Qed.

Lemma start_library_ok re de e : ok e → ok (start_library gossip_alpn blobs_alpn docs_alpn re de e).1.
Proof.
  intros Hok. unfold start_library. destruct (library (services e)) eqn:Hlib; [done|].
  destruct (dispatcher e) as [d0|] eqn:Hd0; [|done].
  pose proof (start_depot_ok de e Hok) as Hok1.
  destruct (start_depot blobs_alpn de e) as [e1 []] eqn:Hdep; [|done]. cbn in Hok1.
  pose proof (start_swarm_ok re de e1 Hok1) as Hok2.
  destruct (start_swarm gossip_alpn re de e1) as [e2 []] eqn:Hsw; [|done]. cbn in Hok2.
  destruct (dispatcher e2) as [d|] eqn:Hd; [|done].
  pose proof (starts_claim Docs.library_claim docs_alpn (registry d) de
    (Docs.mk_library Reg (store_path (config e2))) (λ g, eq_refl)) as Hst.
  fold (Docs.start docs_alpn (store_path (config e2)) de (registry d)) in Hst.
  destruct (Docs.start docs_alpn _ de (registry d)) as [r [s|]]; cbn in Hst |- *.
  - destruct Hst as (Ha & Hf & Hh). apply (service_ok e2 d _ _ docs_alpn); [done..|].
    intros b. unfold service_alpns, service_claims. cbn. rewrite !fmap_app, !elem_of_app. cbn.
    rewrite elem_of_cons, Ha. pose proof (not_elem_of_nil b). tauto.
  - apply (no_service_ok e2 d); [done..|].
    intros b. unfold service_alpns, service_claims. cbn. rewrite !fmap_app, !elem_of_app. cbn.
    pose proof (not_elem_of_nil b). tauto.
Qed.

(** *** Closing *)

Lemma release_all_fields gs e :
  tick (release_all gs e) = tick e ∧ pending_bind (release_all gs e) = pending_bind e ∧
  questions (release_all gs e) = questions e ∧ document_questions (release_all gs e) = document_questions e ∧
  listeners (release_all gs e) = listeners e ∧ pending_listens (release_all gs e) = pending_listens e.
Proof.
  unfold release_all. apply (foldl_preserves _ (λ e', tick e' = tick e ∧ pending_bind e' = pending_bind e ∧
    questions e' = questions e ∧ document_questions e' = document_questions e ∧
    listeners e' = listeners e ∧ pending_listens e' = pending_listens e)); [done|].
  intros e' g (? & ? & ? & ? & ? & ?). unfold release_on, set_registry.
  destruct (dispatcher e') as [d|] eqn:Hd; [|done]. by rewrite ?Hd.
Qed.

Lemma teardown_fields e w :
  let e' := (teardown e w).1.1 in
  tick e' = tick e ∧ pending_bind e' = None ∧ dispatcher e' = None ∧ listeners e' = ∅ ∧
  pending_listens e' = [] ∧ services e' = mk_services None None None ∧
  questions e' = questions e ∧ document_questions e' = document_questions e.
Proof.
  unfold teardown. cbn.
  repeat match goal with
         | |- context [tick (release_all ?gs ?x)] =>
             let Ht := fresh in let Hp := fresh in let Hq := fresh in let Hdq := fresh in
             let Hl := fresh in let Hpl := fresh in
             destruct (release_all_fields gs x) as (Ht & Hp & Hq & Hdq & Hl & Hpl);
             rewrite ?Ht, ?Hp, ?Hq, ?Hdq, ?Hl, ?Hpl; clear Ht Hp Hq Hdq Hl Hpl; cbn
         end.
  by split_and!.
Qed.

Lemma close_ok e w : ok e → ok (close e w).1.1.
Proof.
  intros Hok%ok_sound. destruct (teardown_fields e w) as (Ht & Hp & Hd & Hl & Hpl & Hs & _).
  unfold close. destruct (teardown e w) as [[e' w'] d]. cbn in *. apply refresh_ok. split.
  - rewrite Ht. apply Hok.
  - by rewrite Hp, Hd.
  - done.
  - rewrite Hl. by intros a g Ha%lookup_empty_Some.
  - rewrite Hpl. by intros a Ha%not_elem_of_nil.
  - congruence.
  - rewrite Hs. by intros a Ha%not_elem_of_nil.
Qed.

(** *** Reachable states

    The methods, the tasks that settle what the endpoint waits for, and what the
    rest of the game does to the registry and to the runtime meanwhile. *)

Inductive step : endpt * Runtime.World → endpt * Runtime.World → Prop :=
  | step_configure c e w : step (e, w) (set_config c e, w)
  | step_remember l e w : step (e, w) (set_lookup l e, w)
  | step_bind b k e w : step (e, w) ((bind b k e w).1.1, (bind b k e w).1.2)
  | step_bind_settles o e w :
      is_Some (pending_bind e) → step (e, w) (set_pending_bind (Some o) e, w)
  | step_drain fresh e w : held fresh = ∅ → step (e, w) (_drain fresh e, w)
  | step_listen a e w : step (e, w) ((listen a e).1, w)
  | step_stop_listening a e w : step (e, w) (stop_listening a e, w)
  | step_swarm re de e w : step (e, w) ((start_swarm gossip_alpn re de e).1, w)
  | step_depot de e w : step (e, w) ((start_depot blobs_alpn de e).1, w)
  | step_library re de e w :
      step (e, w) ((start_library gossip_alpn blobs_alpn docs_alpn re de e).1, w)
  | step_ask k a o e w : step (e, w) (asking k a o e, w)
  | step_ask_documents k a o e w : step (e, w) (asking_documents k a o e, w)
  | step_answered qs dqs e w :
      length qs = length (questions e) → length dqs = length (document_questions e) →
      step (e, w) (set_questions qs dqs e, w)
  | step_registry r d e w :
      dispatcher e = Some d → claims e ⊆ held r → step (e, w) (set_registry r e, w)
  | step_runtime w' e w : step (e, w) (e, w')
  | step_close e w : step (e, w) ((close e w).1.1, (close e w).1.2).

Lemma init_ok : ok init.
Proof.
  split; cbn; try done; intros a; try (by intros Ha%not_elem_of_nil).
Qed.

Lemma step_ok s s' : step s s' → ok s.1 → ok s'.1.
Proof.
  destruct 1 as [c e w|l e w|b k e w|o e w Hp|fresh e w Hf|a e w|a e w|re de e w|de e w|re de e w
    |k a o e w|k a o e w|qs dqs e w Hq Hdq|r d e w Hd Hc|w' e w|e w]; cbn [fst]; intros Hok.
  - by destruct Hok.
  - by destruct Hok.
  - by apply bind_ok.
  - apply (sound_ok e); [done| |done|].
    + apply pending_bind_sound; [by apply ok_sound|]. intros _. by apply Hok.
    + unfold outstanding. cbn. by rewrite !(bool_decide_true (is_Some _)).
  - by apply drain_ok.
  - by apply listen_ok.
  - by apply stop_listening_ok.
  - by apply start_swarm_ok.
  - by apply start_depot_ok.
  - by apply start_library_ok.
  - by apply asking_ok.
  - by apply asking_documents_ok.
  - apply (sound_ok e); [done|by apply questions_sound, ok_sound|done|].
    unfold outstanding. cbn. by rewrite Hq, Hdq.
  - by apply (ok_registry e d).
  - done.
  - by apply close_ok.
Qed.

Lemma reachable_ok w0 e w : rtc step (init, w0) (e, w) → ok e.
Proof.
  intros Hr. change (ok (e, w).1). apply (rtc_invariant step (λ s, ok s.1)) with (init, w0); [apply init_ok| |done].
  intros s s' Hs. by apply step_ok.
Qed.

(** *** Queued listens *)

(** With nobody else on the registry every claim succeeds. *)
Lemma claims_succeed l e d :
  dispatcher e = Some d → held (registry d) = dom (listeners e) →
  let e' := foldl (λ e a, (claim a e).1) e l in
  ∃ d', dispatcher e' = Some d' ∧ endpoint d' = endpoint d ∧
    held (registry d') = dom (listeners e') ∧
    dom (listeners e') = dom (listeners e) ∪ list_to_set l ∧
    pending_listens e' = pending_listens e ∧ emitted e' = emitted e.
Proof.
  revert e d. induction l as [|a l IH]; intros e d Hd Hh; cbv zeta; cbn [foldl].
  { exists d. split_and!; try done. cbn. set_solver. }
  assert (∃ d1, dispatcher (claim a e).1 = Some d1 ∧ endpoint d1 = endpoint d ∧
            held (registry d1) = dom (listeners (claim a e).1) ∧
            dom (listeners (claim a e).1) = dom (listeners e) ∪ {[a]} ∧
            emitted (claim a e).1 = emitted e) as (d1 & Hd1 & He1 & Hh1 & Hdom & Hem).
  { unfold claim. destruct (listeners e !! a) as [g|] eqn:Hl.
    - exists d. cbn. split_and!; try done.
      assert (a ∈ dom (listeners e)) by (apply elem_of_dom; eauto). set_solver.
    - assert (a ∉ held (registry d)) as Hfree by (rewrite Hh; by apply not_elem_of_dom).
      rewrite Hd. destruct (register_free a (registry d) Hfree) as (r & g & -> & Hg & Hr).
      unfold set_registry. rewrite Hd. cbn. exists (mk_dispatcher (endpoint d) r). cbn.
      rewrite dom_insert_L, Hr, Hh. split_and!; try done. set_solver. }
  destruct (IH (claim a e).1 d1 Hd1 Hh1) as (d' & ? & ? & ? & Hdom' & Hpl & ?).
  exists d'. rewrite Hdom', Hdom, Hpl. destruct (claim_pending a e) as [-> _].
  split_and!; try done; try congruence. cbn. set_solver.
Qed.
End invariant.

Section questions.
Context {R Reg Ep Store Addr : Type} `{AlpnRegistry R Reg} `{Display Ep} `{HashOrder}.
Abbreviation endpt := (IrohEndpoint R Reg Ep Store Addr).
Implicit Types e : endpt.

Lemma emit_all_questions l e :
  questions (emit_all l e) = questions e ∧ document_questions (emit_all l e) = document_questions e.
Proof.
  unfold emit_all. apply (foldl_preserves _ (λ e', questions e' = questions e ∧
    document_questions e' = document_questions e)); [done|].
  by intros e' [s|] ?.
Qed.

Lemma claim_questions a e : questions (claim a e).1 = questions e.
Proof.
  unfold claim. destruct (listeners e !! a); [done|]. destruct (dispatcher e) as [d|] eqn:Hd; [|done].
  unfold set_registry. rewrite Hd. by destruct (register a (registry d)) as [r [g|]].
Qed.

Lemma drain_bind_questions fresh e : questions (drain_bind fresh e) = questions e.
Proof.
  unfold drain_bind. destruct (pending_bind e) as [[|[ep|reason]|]|]; try done. cbn.
  set (e1 := set_pending_listens [] _).
  apply (foldl_preserves (λ e a, (claim a e).1) (λ e', questions e' = questions e)); [done|].
  intros e' a Hq. by rewrite claim_questions.
Qed.

Lemma drain_listeners_questions e : questions (drain_listeners e) = questions e.
Proof.
  unfold drain_listeners. destruct (dispatcher e) as [d|] eqn:Hd; [|done].
  destruct (foldl _ _ (hash_keys (listeners e))) as [arrived r].
  apply (foldl_preserves _ (λ e', questions e' = questions e)); [|done].
  unfold set_registry. by rewrite Hd.
Qed.

(** A question whose task is gone is asked again at every poll. *)
Lemma take_answers_keeps q qs :
  ask q = Blobs.SenderGone → q ∈ qs → q ∈ (take_answers qs).2.
Proof.
  intros Hq. induction qs as [|q' qs IH]; intros Hin; cbn; [done|].
  destruct (take_answers qs) as [answered kept]. cbn in IH.
  apply elem_of_cons in Hin as [->|Hin].
  - rewrite Hq. cbn. destruct q'; cbn in *; subst. left.
  - specialize (IH Hin). destruct (ask q') as [|a|]; cbn; [by right|done|by right].
Qed.

Lemma drain_keeps fresh q e :
  ask q = Blobs.SenderGone → q ∈ questions e → q ∈ questions (_drain fresh e).
Proof.
  intros Hq Hin. unfold _drain, drain_document_questions.
  destruct (take_replies _) as [l kept]. cbn.
  rewrite (proj1 (emit_all_questions _ _)). cbn. unfold drain_questions.
  rewrite drain_listeners_questions, drain_bind_questions.
  pose proof (take_answers_keeps q (questions e) Hq Hin) as Hk.
  destruct (take_answers (questions e)) as [l' kept']. cbn in *.
  by rewrite (proj1 (emit_all_questions _ _)).
Qed.

Definition reply_of (q : Question) : option (option Signal) :=
  match ask q with
  | Blobs.Replied a => Some (answer (about q) (kind q) a)
  | _ => None
  end.

(** A reply is taken once, and its question with it. *)
Lemma take_answers_spec qs :
  (take_answers qs).1 = omap reply_of qs ∧
  (take_answers qs).2 = base.filter (λ q, reply_of q = None) qs.
Proof.
  induction qs as [|q qs [IH1 IH2]]; [done|]. rewrite filter_cons. cbn [take_answers].
  destruct (take_answers qs) as [answered kept]. cbn [fst snd] in *. subst.
  destruct q as [k a [|x|]]; by case_decide.
Qed.
End questions.

(** ** Two consequences worth knowing *)

(** A store path set after the first blob operation still reaches the document
    store, if that starts later: its engine is then kept at the new path, over
    blobs kept at the old one. *)
Lemma late_path_reaches_documents {R Reg Ep Store Addr} `{AlpnRegistry R Reg} `{Display Ep} `{HashOrder}
    gossip_alpn blobs_alpn docs_alpn (e : IrohEndpoint R Reg Ep Store Addr) d dp sw trim globalize path :
  dispatcher e = Some d → services e = mk_services sw (Some dp) None → is_Some sw →
  docs_alpn ∉ held (registry d) → trim path ≠ "" → globalize path ≠ "" →
  let e1 := set_config (set_blob_store_path trim globalize path (config e)) e in
  let e2 := (start_library gossip_alpn blobs_alpn docs_alpn true true e1).1 in
  depot (services e2) = Some dp ∧
  ∃ lib, library (services e2) = Some lib ∧ Docs.library_path lib = Some (globalize path).
Proof.
  intros Hd Hs [s ->] Hfree Htrim Hglob e1 e2. subst e1 e2.
  unfold start_library, start_depot, start_swarm.
  repeat (progress (rewrite ?Hs, ?Hd; cbn)).
  unfold Docs.start. destruct (register_free docs_alpn (registry d) Hfree) as (r & g & -> & _).
  unfold set_registry. repeat (progress (rewrite ?Hs, ?Hd; cbn)).
  split; [done|]. eexists. split; [done|]. cbn.
  unfold store_path. cbn. by rewrite decide_False, decide_False by (try rewrite decide_False; done).
Qed.

(** Turning DNS lookup off also forgets the addresses learned from tickets:
    iroh's [clear_address_lookup] drops every lookup added so far, and the
    endpoint's own has been added by then. [lookups] is what a builder ends up
    with. *)
Lemma no_dns_means_no_remembered_peers (lookups : list BuilderCall → list BuilderCall) key c :
  (∀ l, lookups (l ++ [ClearAddressLookup]) = []) →
  (∀ l s, lookups (l ++ [AddressLookupMdns s]) = lookups l ++ [AddressLookupMdns s]) →
  dns_lookup c = false → AddressLookupMemory ∉ lookups (builder_calls key c).
Proof.
  intros Hclear Hmdns Hdns. unfold builder_calls. rewrite Hdns.
  destruct (local_discovery c); rewrite app_assoc.
  - rewrite Hmdns, Hclear. cbn. by intros ?%list_elem_of_singleton.
  - rewrite app_nil_r, Hclear. by intros ?%not_elem_of_nil.
Qed.

Lemma no_dns_means_no_remembered_peers_example :
  let add l c := match c with
                 | ClearAddressLookup => []
                 | AddressLookupMemory | AddressLookupMdns _ => l ++ [c]
                 | _ => l
                 end in
  AddressLookupMemory ∉ foldl add [] (builder_calls [] (set_dns_lookup false default_config)).
Proof.
  intros add. apply (no_dns_means_no_remembered_peers (foldl add [])); intros; by rewrite ?foldl_app.
Qed.

(** ** Properties *)

(** C25: the endpoint is polled exactly while something is outstanding, and its
    claims are really its own. In every state that binds, drains, listens,
    services, questions, closes and whatever the rest of the game does can lead
    to, the frame subscription is there exactly when a bind is pending, a
    protocol is listened for or a question is open; every ALPN listened for and
    every one of a running service is held in the registry, none of them twice;
    the one of [IrohPeer] is never among the former; and an unbound endpoint has
    neither. *)
Theorem polled_exactly_when_outstanding {R Reg Ep Store Addr} `{AlpnRegistry R Reg} `{Display Ep} `{HashOrder}
    gossip_alpn blobs_alpn docs_alpn w0 (e : IrohEndpoint R Reg Ep Store Addr) w :
  rtc (step gossip_alpn blobs_alpn docs_alpn) (init, w0) (e, w) →
  (subscribed (tick e) = true ↔
     is_Some (pending_bind e) ∨ listeners e ≠ ∅ ∨ questions e ≠ [] ∨ document_questions e ≠ []) ∧
  ticking (tick e) = subscribed (tick e) ∧
  (∀ d a, dispatcher e = Some d → a ∈ dom (listeners e) ∨ a ∈ service_alpns (services e) →
     a ∈ held (registry d)) ∧
  (∀ a, a ∈ dom (listeners e) → a ≠ ALPN ∧ a ∉ service_alpns (services e)) ∧
  (dispatcher e = None → listeners e = ∅ ∧ service_alpns (services e) = []).
Proof.
  intros Hok%reachable_ok. destruct Hok as [Ht Hb Hu Hl Hp Hh Hs]. split_and!.
  - rewrite Ht. assert (subscribed (if outstanding e then mk_ticker true true else idle) = outstanding e)
      as -> by (by destruct (outstanding e)).
    unfold outstanding. rewrite !orb_true_iff, bool_decide_eq_true, !negb_true_iff, !bool_decide_eq_false,
      !length_zero_iff_nil. tauto.
  - rewrite Ht. by destruct (outstanding e).
  - intros d a Hd Ha. by apply (Hh d Hd), elem_of_claims.
  - intros a Ha. split; [|intros Hin; by apply (Hs a)].
    apply elem_of_dom in Ha as [g Hg]. by apply Hl in Hg as (_ & _ & ?).
  - intros Hd. destruct (Hu Hd) as [-> ->]. done.
Qed.

Lemma polled_exactly_when_outstanding_witness :
  let e : IrohEndpoint Registry Registration Z unit unit :=
    set_tick (mk_ticker true true) (set_pending_bind (Some Blobs.Waiting) (set_lease true init)) in
  (subscribed (tick e) = true ↔
     is_Some (pending_bind e) ∨ listeners e ≠ ∅ ∨ questions e ≠ [] ∨ document_questions e ≠ []) ∧
  ticking (tick e) = subscribed (tick e) ∧
  (∀ d a, dispatcher e = Some d → a ∈ dom (listeners e) ∨ a ∈ service_alpns (services e) →
     a ∈ held (registry d)) ∧
  (∀ a, a ∈ dom (listeners e) → a ≠ ALPN ∧ a ∉ service_alpns (services e)) ∧
  (dispatcher e = None → listeners e = ∅ ∧ service_alpns (services e) = []).
Proof.
  intros e.
  pose (dz := (λ z : Z, pretty z) : Display Z).
  refine (@polled_exactly_when_outstanding Registry Registration Z unit unit _ dz listing_order
    [x01] [x02] [x03] Runtime.initial e (Runtime.acquire true Runtime.initial).1 _).
  eapply rtc_l; [apply (step_bind _ _ _ true [])|]. apply rtc_refl.
Defined.

(** C31: listening. On a bound endpoint [listen] succeeds exactly for a name that
    is not empty, not the session's, and either listened for already or held by
    nobody, and then the name is listened for. On an unbound endpoint it answers
    [true] for a good name exactly while a bind is in flight, which its
    documentation does not say, and the name is queued. A bind that succeeds claims
    every queued name, none is refused, nothing stays queued, and [bound] is emitted
    after that. A bind that fails, or whose task is gone, claims nothing: what was
    answered [true] is not listened for, stays queued for the next bind, and
    [bind_failed] is all the game hears. *)
Theorem listening_is_honoured {R Reg Ep Store Addr} `{AlpnRegistry R Reg} `{Display Ep} `{HashOrder}
    (e : IrohEndpoint R Reg Ep Store Addr) a :
  ok e →
  (∀ d, dispatcher e = Some d →
     ((listen a e).2 = true ↔ a ≠ [] ∧ a ≠ ALPN ∧ (a ∈ dom (listeners e) ∨ a ∉ held (registry d))) ∧
     ((listen a e).2 = true → dom (listeners (listen a e).1) = {[a]} ∪ dom (listeners e))) ∧
  (dispatcher e = None →
     ((listen a e).2 = true ↔ a ≠ [] ∧ a ≠ ALPN ∧ is_Some (pending_bind e)) ∧
     ((listen a e).2 = true → a ∈ pending_listens (listen a e).1) ∧
     listeners (listen a e).1 = ∅) ∧
  (∀ fresh ep, pending_bind e = Some (Blobs.Replied (inl ep)) → held fresh = ∅ →
     let e' := drain_bind fresh e in
     dom (listeners e') = list_to_set (pending_listens e) ∧ pending_listens e' = [] ∧
     is_bound e' = true ∧ endpoint_id e' = to_string ep ∧
     emitted e' = emitted e ++ [bound (to_string ep)]) ∧
  (∀ fresh reason, pending_bind e = Some (Blobs.Replied (inr reason)) ∨
       pending_bind e = Some Blobs.SenderGone ∧ reason = "the bind task was dropped" →
     let e' := drain_bind fresh e in
     listeners e' = ∅ ∧ pending_listens e' = pending_listens e ∧ is_bound e' = false ∧
     pending_bind e' = None ∧ emitted e' = emitted e ++ [bind_failed reason]).
Proof.
  intros Hok. split_and!.
  - intros d Hd. unfold listen. rewrite Hd.
    case_decide as Hnil; [by split; [split; [done|intros (? & _)]|]|].
    case_decide as Hsess; [by split; [split; [done|intros (_ & ? & _)]|]|].
    unfold claim. destruct (listeners e !! a) as [g|] eqn:Hl.
    { assert (a ∈ dom (listeners e)) by (apply elem_of_dom; eauto). cbn. split; [|intros _; set_solver].
      split; [by auto|done]. }
    rewrite Hd. assert (a ∉ dom (listeners e)) as Hnot by (by apply not_elem_of_dom).
    destruct (register a (registry d)) as [r [g|]] eqn:Hr; cbn.
    + apply register_some in Hr as (Hfree & _). split; [split; [by auto|done]|].
      intros _. by rewrite dom_insert_L.
    + apply register_none in Hr as [Hin _]. split; [|done]. split; [done|]. tauto.
  - intros Hd. destruct (ok_unbound _ Hok Hd) as [Hl _]. unfold listen. rewrite Hd.
    case_decide as Hnil; [by split_and!; [split; [done|intros (? & _)]|..]|].
    case_decide as Hsess; [by split_and!; [split; [done|intros (_ & ? & _)]|..]|].
    destruct (pending_bind e) as [b|]; [|by split_and!; [split; [done|intros (_ & _ & []%is_Some_None)]|..]].
    cbn [fst snd]. split_and!; [by split|intros _|by case_decide].
    case_decide; [done|]. cbn. apply elem_of_app. right. left.
  - intros fresh ep Hp Hf. cbv zeta. unfold drain_bind. rewrite Hp.
    pose proof (ok_bind _ Hok (ex_intro _ _ Hp)) as Hd. destruct (ok_unbound _ Hok Hd) as [Hl _].
    change (pending_listens (set_dispatcher _ _)) with (pending_listens e).
    set (e1 := set_pending_listens [] _).
    destruct (claims_succeed (pending_listens e) e1 (mk_dispatcher ep fresh)) as (d' & Hd' & He & _ & Hdom & Hpl & Hem);
      [done|cbn; by rewrite Hf, Hl|].
    cbn in Hdom. rewrite Hl in Hdom. unfold is_bound, endpoint_id. cbn. rewrite Hd', He, Hpl, Hem, Hdom.
    split_and!; try done. set_solver.
  - intros fresh reason Hp. cbv zeta. unfold drain_bind.
    assert (is_Some (pending_bind e)) as Hsome by (destruct Hp as [->|[-> _]]; eauto).
    pose proof (ok_bind _ Hok Hsome) as Hd. destruct (ok_unbound _ Hok Hd) as [Hl _].
    destruct Hp as [->|[-> ->]]; unfold is_bound; cbn; by rewrite Hd.
Qed.

Lemma listening_is_honoured_witness :
  let dz : Display Z := λ z, pretty z in
  let e : IrohEndpoint Registry Registration Z unit unit :=
    set_tick (mk_ticker true true) (set_pending_listens [[x61]]
      (set_pending_bind (Some (Blobs.Replied (inl 7))) init)) in
  let e' := drain_bind start e in
  dom (listeners e') = {[ [x61] ]} ∪ ∅ ∧ pending_listens e' = [] ∧
  is_bound e' = true ∧ endpoint_id e' = "7" ∧ emitted e' = [bound "7"].
Proof.
  intros dz e.
  refine (proj1 (proj2 (proj2 (@listening_is_honoured Registry Registration Z unit unit _ dz listing_order
    e [x62] _))) start 7 _ _); [|reflexivity|reflexivity].
  split; cbn; try done; intros a; try (by intros Ha%not_elem_of_nil).
  intros ->%list_elem_of_singleton. done.
Defined.

(** A question whose task is gone is never given up. [try_recv] treats an
    abandoned channel like one with no answer yet, and closing leaves the
    questions alone: once the task behind one has gone, the runtime having
    stopped for instance, the endpoint stays subscribed to the frame signal and
    keeps asking, however many frames pass, closed or not. *)
Lemma dead_question_polls_forever {R Reg Ep Store Addr} `{AlpnRegistry R Reg} `{Display Ep} `{HashOrder}
    (e : IrohEndpoint R Reg Ep Store Addr) w fresh q n :
  ok e → held fresh = ∅ → q ∈ questions e → ask q = Blobs.SenderGone →
  let e' := Nat.iter n (_drain fresh) (close e w).1.1 in
  q ∈ questions e' ∧ subscribed (tick e') = true.
Proof.
  intros Hok Hf Hin Hq e'.
  assert (q ∈ questions (close e w).1.1) as Hclosed.
  { destruct (teardown_fields e w) as (_ & _ & _ & _ & _ & _ & Hqs & _).
    unfold close. destruct (teardown e w) as [[e1 w1] d]. cbn in *. by rewrite Hqs. }
  assert (ok e' ∧ q ∈ questions e') as [Hok' Hin'].
  { subst e'. induction n as [|n [IH1 IH2]]; [by split; [apply (close_ok e w)|]|].
    rewrite Nat.iter_succ. split; [by apply drain_ok|by apply drain_keeps]. }
  split; [done|]. rewrite (ok_tick _ Hok').
  assert (outstanding e' = true) as ->; [|done].
  unfold outstanding. apply orb_true_iff. left. apply orb_true_iff. right.
  apply negb_true_iff, bool_decide_eq_false. intros Hnil%length_zero_iff_nil.
  rewrite Hnil in Hin'. by apply not_elem_of_nil in Hin'.
Qed.

Lemma dead_question_polls_forever_witness :
  let dz : Display Z := λ z, pretty z in
  let q := mk_question KBlobs "blob list" Blobs.SenderGone in
  let e : IrohEndpoint Registry Registration Z unit unit :=
    set_tick (mk_ticker true true) (set_questions [q] [] init) in
  let e' := Nat.iter 3 (@_drain _ _ _ _ _ _ dz listing_order start) (@close _ _ _ _ _ _ listing_order e Runtime.initial).1.1 in
  q ∈ questions e' ∧ subscribed (tick e') = true.
Proof.
  intros dz q e.
  refine (@dead_question_polls_forever Registry Registration Z unit unit _ dz listing_order
    e Runtime.initial start q 3%nat _ _ _ _); [|reflexivity|left|reflexivity].
  split; cbn; try done; intros a; by intros Ha%not_elem_of_nil.
Defined.
