(* ===== verification/Fleet.v ===== *)
(** * Endpoints sharing one runtime ([endpoint.rs] over [runtime.rs])

    Any number of [IrohEndpoint]s come and go in one process. Each takes a lease of
    the shared runtime when it binds and returns it when it closes or is dropped;
    what a call starts on a bound endpoint is given to that runtime. *)

From S2P Require Import Prelude.
From S2P Require Runtime Blobs Docs Gossip.
From S2P Require Import Dispatch.
From S2P Require Import Endpoint.

Section fleet.
Context {R Reg Ep Store Addr : Type} `{AlpnRegistry R Reg} `{Display Ep} `{HashOrder}.
Variables gossip_alpn blobs_alpn docs_alpn : bytes.
Abbreviation endpt := (IrohEndpoint R Reg Ep Store Addr).
Implicit Types e : endpt.

(** ** One endpoint *)

Inductive Call : Type :=
  | Configure (c : Config)
  | Remember (addrs : list Addr)
  | Bind (buildable : bool) (generated : bytes)
  | Listen (alpn : bytes)
  | StopListening (alpn : bytes)
  | StartSwarm
  | StartDepot
  | StartLibrary
  | AskStore (k : Kind) (about : string) (reply : Blobs.Oneshot Blobs.Answer)
  | AskDocuments (k : DocKind) (about : string) (reply : Blobs.Oneshot Docs.Reply)
  | Close
  (** a frame; [fresh] is the registry of a dispatcher started in it *)
  | Frame (fresh : R)
  (** the bind task settles, tasks answer, others use the registry *)
  | BindSettles (o : Blobs.Oneshot (Ep + string))
  | Answered (qs : list Question) (dqs : list DocQuestion)
  | RegistryMoves (r : R).

(** Tasks are given to the shared runtime: on the main thread there is no other. *)
Definition act (c : Call) (e : endpt) (w : Runtime.World) : endpt * Runtime.World :=
  let up := Runtime.detach None w in
  match c with
  | Configure c => (set_config c e, w)
  | Remember addrs => (set_lookup addrs e, w)
  | Bind buildable generated => (bind buildable generated e w).1
  | Listen alpn => ((listen alpn e).1, w)
  | StopListening alpn => (stop_listening alpn e, w)
  | StartSwarm => ((start_swarm gossip_alpn up up e).1, w)
  | StartDepot => ((start_depot blobs_alpn up e).1, w)
  | StartLibrary => ((start_library gossip_alpn blobs_alpn docs_alpn up up e).1, w)
  | AskStore k about reply => (asking k about reply e, w)
  | AskDocuments k about reply => (asking_documents k about reply e, w)
  | Close => (close e w).1
  | Frame fresh => if decide (held fresh = ∅) then (_drain fresh e, w) else (e, w)
  | BindSettles o =>
      if decide (is_Some (pending_bind e)) then (set_pending_bind (Some o) e, w) else (e, w)
  | Answered qs dqs =>
      if decide (length qs = length (questions e) ∧ length dqs = length (document_questions e))
      then (set_questions qs dqs e, w) else (e, w)
  | RegistryMoves r =>
      match dispatcher e with
      | Some _ => if decide (claims e ⊆ held r) then (set_registry r e, w) else (e, w)
      | None => (e, w)
      end
  end.

(** Every call is a step of [Endpoint]. *)
Lemma act_steps c e w : rtc (step gossip_alpn blobs_alpn docs_alpn) (e, w) (act c e w).
Proof.
  destruct c; cbn [act]; try (case_decide; [|apply rtc_refl]); try (apply rtc_once; by constructor).
  - pose proof (step_bind gossip_alpn blobs_alpn docs_alpn buildable generated e w) as Hs. apply rtc_once.
    revert Hs. by destruct (bind buildable generated e w) as [[? ?] ?].
  - apply rtc_once. constructor; tauto.
  - destruct (dispatcher e) as [d|] eqn:Hd; [|apply rtc_refl]. case_decide; [|apply rtc_refl].
    apply rtc_once. by eapply step_registry.
Qed.

(** ** The fleet *)

Inductive Label : Type :=
  | Create (k : nat)
  | Call_ (k : nat) (c : Call)
  (** the last reference is dropped *)
  | Free (k : nat).

Definition Fleet : Type := gmap nat endpt * Runtime.World.

Definition fleet_step (f : Fleet) (l : Label) : Fleet :=
  let '(es, w) := f in
  match l with
  | Create k => match es !! k with None => (<[k := init]> es, w) | Some _ => (es, w) end
  | Call_ k c =>
      match es !! k with
      | Some e => let '(e, w) := act c e w in (<[k := e]> es, w)
      | None => (es, w)
      end
  | Free k =>
      match es !! k with
      | Some e => (delete k es, (teardown e w).1.2)
      | None => (es, w)
      end
  end.

Definition fleet_run (f : Fleet) (ls : list Label) : Fleet := foldl fleet_step f ls.

Definition launched : Fleet := (∅, Runtime.initial).

(** ** Leases *)

(** Bound, or on the way. *)
Definition occupied (e : endpt) : bool :=
  bool_decide (is_Some (pending_bind e)) || bool_decide (is_Some (dispatcher e)).

(** A change that is none to the lease, and occupies nothing. *)
Definition keeps_lease (e e' : endpt) : Prop :=
  lease e' = lease e ∧ (occupied e' = true → occupied e = true).

#[local] Instance keeps_lease_preorder : PreOrder keeps_lease.
Proof.
  split; [by intros e|]. intros e1 e2 e3 [L1 O1] [L2 O2]. split; [by rewrite L2|]. auto.
Qed.

Lemma keeps_fields e e' :
  lease e' = lease e → pending_bind e' = pending_bind e →
  (is_Some (dispatcher e') ↔ is_Some (dispatcher e)) → keeps_lease e e'.
Proof.
  intros Hl Hp Hd. split; [done|]. unfold occupied. rewrite Hp, !orb_true_iff, !bool_decide_eq_true. by rewrite Hd.
Qed.

Lemma keeps_fold {A} (f : endpt → A → endpt) l e :
  (∀ e a, keeps_lease e (f e a)) → keeps_lease e (foldl f e l).
Proof.
  intros Hf. apply (foldl_preserves f (keeps_lease e)); [done|]. intros e1 a He. by etrans.
Qed.

Lemma keeps_registry r e : keeps_lease e (set_registry r e).
Proof.
  unfold set_registry. destruct (dispatcher e) eqn:Hd; [|done]. apply keeps_fields; try done; by rewrite Hd.
Qed.

Lemma keeps_refresh e : keeps_lease e (refresh_ticking e).
Proof. by apply keeps_fields. Qed.

Lemma keeps_claim a e : keeps_lease e (claim a e).1.
Proof.
  unfold claim. destruct (listeners e !! a); [done|]. destruct (dispatcher e) as [d|]; [|done].
  destruct (register a (registry d)) as [r [g|]]; cbn; [|apply keeps_registry].
  etrans; [apply (keeps_registry r)|]. by apply keeps_fields.
Qed.

Lemma keeps_listen a e : keeps_lease e (listen a e).1.
Proof.
  unfold listen. repeat (case_decide; [done|]). destruct (dispatcher e) eqn:Hd; [apply keeps_claim|].
  destruct (pending_bind e) eqn:Hp; [|done]. cbn. case_decide; [done|]. by apply keeps_fields.
Qed.

Lemma keeps_release g e : keeps_lease e (release_on g e).
Proof. unfold release_on. destruct (dispatcher e); [apply keeps_registry|done]. Qed.

Lemma keeps_stop_listening a e : keeps_lease e (stop_listening a e).
Proof.
  unfold stop_listening. etrans; [|apply keeps_refresh].
  set (e1 := set_pending_listens _ e). assert (keeps_lease e e1) as He1 by by apply keeps_fields.
  destruct (listeners e1 !! a); [|done]. etrans; [exact He1|]. etrans; [apply keeps_release|].
  by apply keeps_fields.
Qed.

Lemma keeps_swarm re de e : keeps_lease e (start_swarm gossip_alpn re de e).1.
Proof.
  unfold start_swarm. destruct (swarm (services e)); [done|]. destruct (dispatcher e) as [d|]; [|done].
  destruct (Gossip.start _ _ _ _) as [r s]. cbn. etrans; [apply (keeps_registry r)|]. by apply keeps_fields.
Qed.

Lemma keeps_depot de e : keeps_lease e (start_depot blobs_alpn de e).1.
Proof.
  unfold start_depot. destruct (depot (services e)); [done|]. destruct (dispatcher e) as [d|]; [|done].
  destruct (Blobs.start _ _ _ _ _) as [r s]. cbn. etrans; [apply (keeps_registry r)|]. by apply keeps_fields.
Qed.

Lemma keeps_library re de e : keeps_lease e (start_library gossip_alpn blobs_alpn docs_alpn re de e).1.
Proof.
  unfold start_library. destruct (library (services e)); [done|]. destruct (dispatcher e) as [d0|]; [|done].
  pose proof (keeps_depot de e) as H1'. destruct (start_depot blobs_alpn de e) as [e1 []]; [|done].
  pose proof (keeps_swarm re de e1) as H2'. destruct (start_swarm gossip_alpn re de e1) as [e2 []]; cbn in *; [|by etrans].
  assert (keeps_lease e e2) as He by by etrans. destruct (dispatcher e2) as [d|]; [|done].
  destruct (Docs.start _ _ _ _) as [r s]. cbn. etrans; [exact He|]. etrans; [apply (keeps_registry r)|].
  by apply keeps_fields.
Qed.

Lemma keeps_emit_all l e : keeps_lease e (emit_all l e).
Proof. apply keeps_fold. intros e1 [s|]; [by apply keeps_fields|done]. Qed.

Lemma keeps_drain fresh e : keeps_lease e (_drain fresh e).
Proof.
  unfold _drain. trans (drain_bind fresh e).
  { unfold drain_bind. destruct (pending_bind e) as [[|o|]|] eqn:Hp; try done.
    - assert (∀ e', lease e' = lease e → keeps_lease e e') as Hk.
      { intros e' Hl. split; [done|]. intros _. unfold occupied. by rewrite Hp. }
      destruct o as [ep|reason]; [|by apply Hk]. apply Hk. cbn.
      set (e1 := set_pending_listens [] _). assert (lease e1 = lease e) as <- by done.
      apply (keeps_fold (λ e a, (claim a e).1)). intros e2 a. apply keeps_claim.
    - split; [done|]. intros _. unfold occupied. by rewrite Hp. }
  generalize (drain_bind fresh e). clear e. intros e. trans (drain_listeners e).
  { unfold drain_listeners. destruct (dispatcher e) as [d|]; [|done]. destruct (foldl _ _ _) as [arrived r].
    etrans; [apply (keeps_registry r)|]. apply keeps_fold. intros e1 a. by apply keeps_fields. }
  generalize (drain_listeners e). clear e. intros e. trans (drain_questions e).
  - unfold drain_questions. destruct (take_answers (questions e)) as [answered kept].
    etrans; [|apply keeps_refresh]. etrans; [|apply keeps_emit_all]. by apply keeps_fields.
  - generalize (drain_questions e). clear e. intros e.
    unfold drain_document_questions. destruct (take_replies (document_questions e)) as [answered kept].
    etrans; [|apply keeps_refresh]. etrans; [|apply keeps_emit_all]. by apply keeps_fields.
Qed.

Lemma teardown_leaves e w :
  lease (teardown e w).1.1 = false ∧ occupied (teardown e w).1.1 = false ∧
  (teardown e w).1.2 = (if lease e then Runtime.drop_lease w else w).
Proof.
  destruct (teardown_fields e w) as (_ & Hp & Hd & _). unfold occupied. rewrite Hp, Hd.
  split_and!; [done|done|]. unfold teardown. cbn.
  match goal with |- context [lease ?x] => assert (lease x = lease e) as ->; [|done] end.
  cbn. unfold release_all.
  repeat (etrans; [apply (keeps_fold (λ e g, release_on g e)); intros; apply keeps_release|cbn]). done.
Qed.

(** ** What the fleet keeps *)

Definition count (e : endpt) : nat := if lease e then 1 else 0.

(** Between an endpoint and the runtime. *)
Record accounted (e : endpt) (w : Runtime.World) (e' : endpt) (w' : Runtime.World) : Prop := {
  acc_coherent : Runtime.coherent w';
  acc_holders : (Runtime.holders (Runtime.shared w') + count e =
                 Runtime.holders (Runtime.shared w) + count e')%nat;
  acc_occupied : (occupied e = true → lease e = true) → occupied e' = true → lease e' = true;
}.

Lemma keeps_accounted e e' w : Runtime.coherent w → keeps_lease e e' → accounted e w e' w.
Proof. intros Hc [Hl Ho]. split; [done|by unfold count; rewrite Hl|]. rewrite Hl. auto. Qed.

Lemma bind_accounted b g e w : Runtime.coherent w → accounted e w (bind b g e w).1.1 (bind b g e w).1.2.
Proof.
  intros Hc. unfold bind. destruct (_ || _) eqn:Hoc; [by apply keeps_accounted|].
  destruct (lease e) eqn:Hl.
  - destruct (Runtime.spawn w); cbn; (split; [done|unfold count; by rewrite Hl|done]).
  - destruct (Runtime.acquire b w) as [w' ok] eqn:Ha.
    destruct (Runtime.acquire_coherent b w w' ok Hc Ha) as [Hc' Hh].
    assert (ok = false → Runtime.spawn w' = false) as Hs.
    { intros ->. unfold Runtime.acquire in Ha. destruct (Runtime.runtime (Runtime.shared w)) eqn:Hr; [done|].
      destruct b; [done|]. injection Ha as <-. unfold Runtime.spawn. by rewrite Hr. }
    destruct (Runtime.spawn w') eqn:Hsp; cbn; (split; [done|unfold count; cbn; rewrite Hl, Hh; lia|]).
    + intros _ _. by destruct ok; [|discriminate Hs].
    + intros _ Ho. unfold occupied in *. cbn in Ho. congruence.
Qed.

Lemma drop_accounted e w : Runtime.coherent w → (count e ≤ Runtime.holders (Runtime.shared w))%nat →
  accounted e w (teardown e w).1.1 (teardown e w).1.2.
Proof.
  intros Hc Hn. destruct (teardown_leaves e w) as (Hl & Ho & ->). split; rewrite ?Hl, ?Ho; try done.
  - destruct (lease e); [by apply Runtime.drop_coherent|done].
  - unfold count in *. rewrite Hl. destruct (lease e); [|lia].
    destruct (Runtime.drop_coherent w Hc) as [_ ->]. lia.
Qed.

Lemma act_accounted c e w :
  Runtime.coherent w → (count e ≤ Runtime.holders (Runtime.shared w))%nat →
  accounted e w (act c e w).1 (act c e w).2.
Proof.
  intros Hc Hn. destruct c; cbn [act]; try case_decide; cbn [fst snd];
    try (by apply keeps_accounted; [|by apply keeps_fields]); try by apply keeps_accounted.
  - by apply bind_accounted.
  - by apply keeps_accounted, keeps_listen.
  - by apply keeps_accounted, keeps_stop_listening.
  - by apply keeps_accounted, keeps_swarm.
  - by apply keeps_accounted, keeps_depot.
  - by apply keeps_accounted, keeps_library.
  - pose proof (drop_accounted e w Hc Hn) as [Hco Hh Ho].
    unfold close. destruct (teardown e w) as [[e' w'] d]. by split.
  - by apply keeps_accounted, keeps_drain.
  - apply keeps_accounted; [done|]. split; [done|]. intros _. unfold occupied. by rewrite bool_decide_true.
  - destruct (dispatcher e); [by apply keeps_accounted, keeps_registry|by apply keeps_accounted].
  - destruct (dispatcher e); by apply keeps_accounted.
Qed.

(** *** Counting *)

Definition leases (es : gmap nat endpt) : nat := map_fold (λ _ e n, (count e + n)%nat) 0%nat es.

Lemma leases_insert es k e : es !! k = None → leases (<[k := e]> es) = (count e + leases es)%nat.
Proof. intros Hk. unfold leases. rewrite map_fold_insert_L; [done|lia|done]. Qed.

Lemma leases_delete es k e : es !! k = Some e → leases es = (count e + leases (delete k es))%nat.
Proof. intros Hk. unfold leases. rewrite (map_fold_delete_L _ _ k e es); [done|lia|done]. Qed.

Lemma leases_update es k e e' : es !! k = Some e →
  (leases (<[k := e']> es) + count e = leases es + count e')%nat.
Proof.
  intros Hk. rewrite <- insert_delete_eq, leases_insert by apply lookup_delete_eq.
  rewrite (leases_delete es k e Hk). lia.
Qed.

Record fleet_ok (f : Fleet) : Prop := {
  f_coherent : Runtime.coherent f.2;
  f_leases : Runtime.holders (Runtime.shared f.2) = leases f.1;
  f_endpoints k e : f.1 !! k = Some e → ok e ∧ (occupied e = true → lease e = true);
}.

Lemma launched_ok : fleet_ok launched.
Proof. split; [apply Runtime.coherent_initial|done|]. intros k e Hk. cbn in Hk. by apply lookup_empty_Some in Hk. Qed.

Lemma count_leases es k e : es !! k = Some e → (count e ≤ leases es)%nat.
Proof. intros Hk. rewrite (leases_delete es k e Hk). lia. Qed.

Lemma fleet_step_ok f l : fleet_ok f → fleet_ok (fleet_step f l).
Proof.
  destruct f as [es w]. intros [Hc Hl He]. cbn [fst snd] in *. destruct l as [k|k c|k]; cbn [fleet_step].
  - destruct (es !! k) as [e|] eqn:Hk; [done|]. split; cbn; [done| |].
    + by rewrite leases_insert.
    + intros j e [[<- <-]|[Hne Hj]]%lookup_insert_Some; [split; [apply init_ok|done]|by eapply He].
  - destruct (es !! k) as [e|] eqn:Hk; [|done]. destruct (He k e Hk) as [Hok Hoc].
    pose proof (count_leases es k e Hk) as Hn.
    destruct (act_accounted c e w Hc) as [Hc' Hh' Ho']; [lia|].
    pose proof (act_steps c e w) as Hst. destruct (act c e w) as [e' w']. cbn [fst snd] in *.
    assert (ok e') as Hok'.
    { apply (rtc_invariant (step gossip_alpn blobs_alpn docs_alpn) (λ s, ok s.1) (e, w) (e', w')); [done| |done].
      intros s s' Hs. by eapply step_ok. }
    split; cbn [fst snd]; [done| |].
    + pose proof (leases_update es k e e' Hk). lia.
    + intros j e2 [[<- <-]|[Hne Hj]]%lookup_insert_Some; [by split; [|apply Ho']|by eapply He].
  - destruct (es !! k) as [e|] eqn:Hk; [|done]. pose proof (leases_delete es k e Hk) as Hd.
    destruct (drop_accounted e w Hc) as [Hc' Hh' _]; [lia|]. destruct (teardown_leaves e w) as (Hle & _ & _).
    split; cbn [fst snd]; [done| |].
    + unfold count in *. rewrite Hle in Hh'. lia.
    + intros j e2 [_ Hj]%lookup_delete_Some. by eapply He.
Qed.

Lemma fleet_run_ok ls : fleet_ok (fleet_run launched ls).
Proof. apply (foldl_preserves fleet_step fleet_ok); [apply launched_ok|apply fleet_step_ok]. Qed.

Lemma leases_some es : (0 < leases es)%nat ↔ ∃ k e, es !! k = Some e ∧ lease e = true.
Proof.
  split.
  - induction es as [|k e es Hk IH] using map_ind; [unfold leases; rewrite map_fold_empty; lia|].
    rewrite leases_insert by done. unfold count. destruct (lease e) eqn:Hl; intros Hpos.
    + exists k, e. split; [apply lookup_insert_eq|done].
    + destruct (IH Hpos) as (j & e' & Hj & Hl'). exists j, e'. split; [|done].
      rewrite lookup_insert_ne; [done|]. congruence.
  - intros (k & e & Hk & Hl). pose proof (count_leases es k e Hk) as Hn. unfold count in Hn. rewrite Hl in Hn. lia.
Qed.

(** Binding never lacks a runtime that can be had. *)
Lemma bind_proceeds f k e b g :
  fleet_ok f → f.1 !! k = Some e → occupied e = false →
  b = true ∨ is_Some (Runtime.runtime (Runtime.shared f.2)) →
  pending_bind (act (Bind b g) e f.2).1 = Some Blobs.Waiting.
Proof.
  destruct f as [es w]. intros [Hc Hl He] Hk Ho Hb. cbn [fst snd act] in *. unfold bind.
  fold (occupied e). rewrite Ho.
  assert (∀ w', is_Some (Runtime.runtime (Runtime.shared w')) → Runtime.spawn w' = true) as Hs
    by (intros w' Hw'; by apply bool_decide_eq_true).
  destruct (lease e) eqn:Hle.
  - rewrite Hs; [done|]. apply Hc. rewrite Hl. apply leases_some. by exists k, e.
  - destruct (Runtime.acquire b w) as [w' ok] eqn:Ha. rewrite Hs; [done|].
    unfold Runtime.acquire in Ha. destruct (Runtime.runtime (Runtime.shared w)); [by injection Ha as <- _|].
    destruct Hb as [->|[]]; [by injection Ha as <- _|done].
Qed.
End fleet.

(** ** Properties *)

(** C26: endpoints share one runtime, and those that need it have it. Whatever any
    number of endpoints do, in any order, and whenever each is created and dropped:
    the runtime is up exactly while some endpoint has a lease, which every endpoint
    that is bound or binding has. So a task started for a bound endpoint is always
    taken, and a bind always gets under way if a runtime is up or can be built. Each
    runtime built is stopped once, except the one that is up. *)
Theorem fleet_shares_one_runtime {R Reg Ep Store Addr} `{AlpnRegistry R Reg} `{Display Ep} `{HashOrder}
    gossip_alpn blobs_alpn docs_alpn ls :
  let f : Fleet (R := R) (Reg := Reg) (Ep := Ep) (Store := Store) (Addr := Addr) :=
    fleet_run gossip_alpn blobs_alpn docs_alpn launched ls in
  let w := f.2 in
  (is_Some (Runtime.runtime (Runtime.shared w)) ↔ ∃ k e, f.1 !! k = Some e ∧ lease e = true) ∧
  Runtime.holders (Runtime.shared w) = leases f.1 ∧
  Runtime.stopped w ++ option_list (Runtime.runtime (Runtime.shared w)) = seq 0 (Runtime.built w) ∧
  ∀ k e, f.1 !! k = Some e →
    (occupied e = true → lease e = true ∧ Runtime.detach None w = true) ∧
    (∀ b g, occupied e = false → b = true ∨ is_Some (Runtime.runtime (Runtime.shared w)) →
       pending_bind (act gossip_alpn blobs_alpn docs_alpn (Bind b g) e w).1 = Some Blobs.Waiting).
Proof.
  intros f w. assert (fleet_ok f) as Hok by apply fleet_run_ok.
  pose proof Hok as [[Hup Hst] Hl He]. fold w in Hup, Hst, Hl.
  assert (is_Some (Runtime.runtime (Runtime.shared w)) ↔ ∃ k e, f.1 !! k = Some e ∧ lease e = true) as Hiff.
  { by rewrite Hup, Hl, leases_some. }
  split_and!; [done|done|done|]. intros k e Hk. destruct (He k e Hk) as [_ Ho]. split.
  - intros Hoc. split; [by apply Ho|]. apply bool_decide_eq_true, Hiff. exists k, e. auto.
  - intros b g. by apply (bind_proceeds _ _ _ f k e).
Qed.

(** Two endpoints bind, the first closes, the second is dropped. *)
Definition two_endpoints :
    list (Label (R := Registry) (Ep := Z) (Addr := unit)) :=
  [Create 0; Call_ 0 (Bind true []); Create 1; Call_ 1 (Bind true []); Call_ 0 Close].

Lemma fleet_shares_one_runtime_witness :
  let dz : Display Z := λ z, pretty z in
  let f := @fleet_run Registry Registration Z unit unit _ dz listing_order [x01] [x02] [x03] launched
             two_endpoints in
  Runtime.runtime (Runtime.shared f.2) = Some 0%nat ∧ leases f.1 = 1%nat ∧
  Runtime.detach None f.2 = true ∧
  Runtime.stopped (fleet_step (H1 := listing_order) [x01] [x02] [x03] f (Free 1)).2 = [0%nat].
Proof.
  intros dz f.
  destruct (@fleet_shares_one_runtime Registry Registration Z unit unit _ dz listing_order [x01] [x02] [x03]
    two_endpoints) as (_ & Hl & _ & Hall).
  split_and!; [vm_compute; reflexivity|exact (eq_trans (eq_sym Hl) eq_refl)| |vm_compute; reflexivity].
  destruct (f.1 !! 1%nat) as [e|] eqn:He; [|exfalso; revert He; vm_compute; done].
  destruct (Hall 1%nat e He) as [Ho _]. apply Ho. revert He. vm_compute. by intros [= <-].
Defined.
