(* ===== verification/Answers.v ===== *)
(** * Questions and what becomes of them ([endpoint.rs], [blobs.rs], [docs.rs])

    A script asks the endpoint about its blobs and documents with a call that
    returns at once; a task asks the store, and a later frame emits a signal or
    logs an error. Here the calls of [Endpoint], the questions of [Blobs] and
    [Docs] and the poll are put together: a [Label] is a call, a task coming to
    its end, a frame, or anything else the endpoint does. *)

From S2P Require Import Prelude.
From S2P Require Blobs Docs Runtime.
From S2P Require Import Dispatch Endpoint.

Section answers.
Context {R Reg Ep Store Addr Hash NamespaceId AuthorId Engine : Type}.
Context `{AlpnRegistry R Reg} `{Display Ep} `{HashOrder}.
Abbreviation endpt := (IrohEndpoint R Reg Ep Store Addr).

(** [str::trim], and iroh's parsers and printer. *)
Variable trim : string → string.
Variable hash_from_str : string → option Hash.
Variable parse_id : string → option NamespaceId.
Variable parse_author : string → option AuthorId.
Variable hash_text : Hash → string.
Variables gossip_alpn blobs_alpn docs_alpn : bytes.

(** ** Calls, and what their tasks ask *)

Inductive Call : Type :=
  | RequestBlobStatus (hash : string)
  | RequestBlobList
  | TagBlob (hash tag : string)
  | UntagBlob (tag : string)
  | RequestTagList.

Inductive DocCall : Type :=
  | RequestDocumentList
  | DropDocument (id : string)
  | RequestAuthorList
  | CreateAuthor
  | SetDefaultAuthor (author : string).

(** The method of [Depot] or [Library] with its parsed arguments. *)
Inductive Query : Type :=
  | Status (hash : Hash)
  | ListBlobs
  | Tag (hash : Hash) (name : string)
  | Untag (name : string)
  | Tags.

Inductive DocQuery : Type :=
  | ListDocs
  | DropDoc (id : NamespaceId)
  | Authors
  | NewAuthor
  | DefaultAuthor (author : AuthorId).

Definition parse_hash (hash : string) : option Hash := Blobs.parse_hash hash_from_str hash.

Definition query_of (c : Call) : option Query :=
  match c with
  | RequestBlobStatus hash => Status <$> parse_hash hash
  | RequestBlobList => Some ListBlobs
  | TagBlob hash tag => hash ← parse_hash hash; Tag hash <$> optional trim tag
  | UntagBlob tag => Untag <$> optional trim tag
  | RequestTagList => Some Tags
  end.

Definition doc_query_of (c : DocCall) : option DocQuery :=
  match c with
  | RequestDocumentList => Some ListDocs
  | DropDocument id => DropDoc <$> parse_id id
  | RequestAuthorList => Some Authors
  | CreateAuthor => Some NewAuthor
  | SetDefaultAuthor author => DefaultAuthor <$> parse_author author
  end.

Definition some {A} (f : string → option A) (text : string) : bool :=
  bool_decide (is_Some (f text)).

(** A question whose task is spawned waits; one that could not be has lost its
    sender already. *)
Definition spawned {A} (up : bool) : Blobs.Oneshot A :=
  if up then Blobs.Waiting else Blobs.SenderGone.

(** [up]: whether the runtime takes tasks. *)
Definition perform (c : Call) (up : bool) : endpt → endpt * bool :=
  match c with
  | RequestBlobStatus hash => request_blob_status blobs_alpn (some parse_hash) hash up (spawned up)
  | RequestBlobList => request_blob_list blobs_alpn up (spawned up)
  | TagBlob hash tag => tag_blob blobs_alpn trim (some parse_hash) hash tag up (spawned up)
  | UntagBlob tag => untag_blob blobs_alpn trim tag up (spawned up)
  | RequestTagList => request_tag_list blobs_alpn up (spawned up)
  end.

Definition perform_doc (c : DocCall) (up : bool) : endpt → endpt * bool :=
  match c with
  | RequestDocumentList => request_document_list gossip_alpn blobs_alpn docs_alpn up up (spawned up)
  | DropDocument id =>
      drop_document gossip_alpn blobs_alpn docs_alpn (some parse_id) id up up (spawned up)
  | RequestAuthorList => request_author_list gossip_alpn blobs_alpn docs_alpn up up (spawned up)
  | CreateAuthor => create_author gossip_alpn blobs_alpn docs_alpn up up (spawned up)
  | SetDefaultAuthor author =>
      set_default_author gossip_alpn blobs_alpn docs_alpn (some parse_author) author up up (spawned up)
  end.

(** ** The tasks *)

(** What iroh's store says to each question. *)
Record StoreWorld : Type := mk_store_world {
  status_of : Store → Hash → Blobs.BlobStatus + string;
  hashes : Store → list Hash + string;
  set_tag : Store → Hash → string → option string;
  delete_tag : Store → string → option string;
  list_tags : Store → list (string + string) + string;
}.

Definition ask_store (w : StoreWorld) (q : Query) (s : Store) : Blobs.Answer :=
  match q with
  | Status hash => Blobs.status (status_of w s hash)
  | ListBlobs => Blobs.list_blobs hash_text (hashes w s)
  | Tag hash name => Blobs.mutation (set_tag w s hash name)
  | Untag name => Blobs.mutation (delete_tag w s name)
  | Tags => Blobs.tags (list_tags w s)
  end.

(** What iroh's document engine says. *)
Record EngineWorld : Type := mk_engine_world {
  list_ids : Engine → list (string + string) + string;
  forget : Engine → NamespaceId → option string;
  author_ids : Engine → list (string + string) + string;
  author_create : Engine → string + string;
  author_set_default : Engine → AuthorId → option string;
}.

Definition ask_engine (w : EngineWorld) (q : DocQuery) (s : Engine) : Docs.Reply :=
  match q with
  | ListDocs => Docs.list_docs (list_ids w s)
  | DropDoc id => Docs.drop_doc (forget w s id)
  | Authors => Docs.authors (author_ids w s)
  | NewAuthor => Docs.create_author (author_create w s)
  | DefaultAuthor author => Docs.set_default_author (author_set_default w s author)
  end.

(** [opened] is what opening the store gave the task. *)
Definition answered (opened : Store + string) (w : StoreWorld) (c : Call) : Blobs.Oneshot Blobs.Answer :=
  match query_of c with
  | Some q => Blobs.query true opened (ask_store w q)
  | None => Blobs.SenderGone
  end.

Definition doc_answered (opened : Engine + string) (w : EngineWorld) (c : DocCall)
  : Blobs.Oneshot Docs.Reply :=
  match doc_query_of c with
  | Some q => Docs.query true opened (ask_engine w q)
  | None => Blobs.SenderGone
  end.

(** ** The log

    The lines [answer] and [drain_document_questions] print. *)

Definition error_line (about : string) (k : Kind) (a : Blobs.Answer) : option string :=
  match k, a with
  | KStatus, Blobs.AnswerStatus _ _ _ | KBlobs, Blobs.AnswerNames _ | KTags, Blobs.AnswerNames _
  | KMutation, Blobs.AnswerDone => None
  | _, Blobs.AnswerFailed reason =>
      Some ("blob store: " +:+ about +:+ " failed: " +:+ reason)%string
  | _, _ => Some ("blob store: unexpected answer for " +:+ about)%string
  end.

Definition doc_error_line (about : string) (k : DocKind) (r : Docs.Reply) : option string :=
  match k, r with
  | KDocuments, Docs.Names _ | KAuthors, Docs.Names _ | KNewAuthor, Docs.Names _
  | KDocMutation, Docs.ReplyDone => None
  | _, Docs.ReplyFailed reason =>
      Some ("documents: " +:+ about +:+ " failed: " +:+ reason)%string
  | _, _ => Some ("documents: unexpected answer for " +:+ about)%string
  end.

Definition reply {A} (o : Blobs.Oneshot A) : option A := (Blobs.ask_try_recv o).1.

(** What a poll prints about the answers it takes. *)
Definition errors (e : endpt) : list string :=
  omap (λ q, a ← reply (ask q); error_line (about q) (kind q) a) (questions e)
  ++ omap (λ q, r ← reply (doc_ask q); doc_error_line (doc_about q) (doc_kind q) r)
       (document_questions e).

(** ** Everything else an endpoint does *)

Inductive Method : Type :=
  | Configure (c : Config)
  | Remember (l : list Addr)
  | Bind (buildable : bool) (generated : bytes) (w : Runtime.World)
  | BindSettles (o : Blobs.Oneshot (Ep + string))
  | Listen (alpn : bytes)
  | StopListening (alpn : bytes)
  | OthersRegister (r : R)
  | StartSwarm (reactor detached : bool)
  | StartDepot (detached : bool)
  | StartLibrary (reactor detached : bool)
  | Close (w : Runtime.World).

Definition elsewhere (m : Method) (e : endpt) : endpt :=
  match m with
  | Configure c => set_config c e
  | Remember l => set_lookup l e
  | Bind b k w => (bind b k e w).1.1
  | BindSettles o => match pending_bind e with Some _ => set_pending_bind (Some o) e | None => e end
  | Listen a => (listen a e).1
  | StopListening a => stop_listening a e
  | OthersRegister r => set_registry r e
  | StartSwarm re de => (start_swarm gossip_alpn re de e).1
  | StartDepot de => (start_depot blobs_alpn de e).1
  | StartLibrary re de => (start_library gossip_alpn blobs_alpn docs_alpn re de e).1
  | Close w => (close e w).1.1
  end.

(** ** The desk

    The endpoint, and who asked what: [asked] and [doc_asked] are the calls
    behind its two lists of questions, in the same order. [accepted], [settled]
    and [printed] only record what happened. *)

Record Desk : Type := mk_desk {
  ep : endpt;
  asked : list Call;
  doc_asked : list DocCall;
  accepted : list (Call + DocCall);
  settled : list (Call * Blobs.Answer + DocCall * Docs.Reply);
  printed : list string;
}.

Definition open_desk (e : endpt) : Desk := mk_desk e [] [] [] [] [].

Inductive Label : Type :=
  | AskStore (c : Call) (up : bool)
  | AskLibrary (c : DocCall) (up : bool)
  (** the task behind the [n]-th question is done, or dropped *)
  | Finishes (n : nat) (opened : Store + string) (w : StoreWorld)
  | DocFinishes (n : nat) (opened : Engine + string) (w : EngineWorld)
  | Dies (n : nat)
  | DocDies (n : nat)
  | Frame (fresh : R)
  | Elsewhere (m : Method).

(** The answers of a poll with the calls they are for, and the calls left. *)
Fixpoint sort {C A} (cs : list C) (os : list (Blobs.Oneshot A)) : list (C * A) * list C :=
  match cs, os with
  | c :: cs, o :: os =>
      let '(got, rest) := sort cs os in
      match reply o with
      | Some a => ((c, a) :: got, rest)
      | None => (got, c :: rest)
      end
  | _, _ => ([], [])
  end.

(** A oneshot sender sends once. *)
Definition resolve {A} (o now : Blobs.Oneshot A) : Blobs.Oneshot A :=
  match now with Blobs.Waiting => o | _ => now end.

Definition resolve_question (o : Blobs.Oneshot Blobs.Answer) (q : Question) : Question :=
  mk_question (kind q) (about q) (resolve o (ask q)).
Definition resolve_doc_question (o : Blobs.Oneshot Docs.Reply) (q : DocQuestion) : DocQuestion :=
  mk_doc_question (doc_kind q) (doc_about q) (resolve o (doc_ask q)).

Definition with_ep (e : endpt) (d : Desk) : Desk :=
  mk_desk e (asked d) (doc_asked d) (accepted d) (settled d) (printed d).

Definition resolve_nth (n : nat) (o : Blobs.Oneshot Blobs.Answer) (d : Desk) : Desk :=
  with_ep (set_questions (alter (resolve_question o) n (questions (ep d)))
             (document_questions (ep d)) (ep d)) d.
Definition resolve_doc_nth (n : nat) (o : Blobs.Oneshot Docs.Reply) (d : Desk) : Desk :=
  with_ep (set_questions (questions (ep d))
             (alter (resolve_doc_question o) n (document_questions (ep d))) (ep d)) d.

Definition desk_step (d : Desk) (l : Label) : Desk :=
  match l with
  | AskStore c up =>
      match perform c up (ep d) with
      | (e, true) => mk_desk e (asked d ++ [c]) (doc_asked d) (accepted d ++ [inl c]) (settled d) (printed d)
      | (e, false) => with_ep e d
      end
  | AskLibrary c up =>
      match perform_doc c up (ep d) with
      | (e, true) => mk_desk e (asked d) (doc_asked d ++ [c]) (accepted d ++ [inr c]) (settled d) (printed d)
      | (e, false) => with_ep e d
      end
  | Finishes n opened w =>
      match asked d !! n with
      | Some c => resolve_nth n (answered opened w c) d
      | None => d
      end
  | DocFinishes n opened w =>
      match doc_asked d !! n with
      | Some c => resolve_doc_nth n (doc_answered opened w c) d
      | None => d
      end
  | Dies n => resolve_nth n Blobs.SenderGone d
  | DocDies n => resolve_doc_nth n Blobs.SenderGone d
  | Frame fresh =>
      let '(got, rest) := sort (asked d) (ask <$> questions (ep d)) in
      let '(doc_got, doc_rest) := sort (doc_asked d) (doc_ask <$> document_questions (ep d)) in
      mk_desk (_drain fresh (ep d)) rest doc_rest (accepted d)
        (settled d ++ (inl <$> got) ++ (inr <$> doc_got)) (printed d ++ errors (ep d))
  | Elsewhere m => with_ep (elsewhere m (ep d)) d
  end.

Definition desk_run (d : Desk) (ls : list Label) : Desk := foldl desk_step d ls.

(** ** What a script should hear *)

Definition subject (c : Call) : string :=
  match c with
  | RequestBlobStatus hash => hash
  | RequestBlobList => "blob list"
  | TagBlob hash _ => "tagging " +:+ hash
  | UntagBlob tag => "untagging " +:+ tag
  | RequestTagList => "tag list"
  end.

Definition doc_subject (c : DocCall) : string :=
  match c with
  | RequestDocumentList => "document list"
  | DropDocument id => "dropping " +:+ id
  | RequestAuthorList => "author list"
  | CreateAuthor => "creating an author"
  | SetDefaultAuthor author => "choosing author " +:+ author
  end.

(** The signal a call ends in, if its answer was no failure. *)
Definition heard (x : Call * Blobs.Answer + DocCall * Docs.Reply) : option Signal :=
  match x with
  | inl (RequestBlobStatus hash, Blobs.AnswerStatus present complete size) =>
      Some (blob_status hash present complete (u64_as_i64 size))
  | inl (RequestBlobList, Blobs.AnswerNames names) => Some (blob_list names)
  | inl (RequestTagList, Blobs.AnswerNames names) => Some (tag_list names)
  | inr (RequestDocumentList, Docs.Names ids) => Some (document_list ids)
  | inr (RequestAuthorList, Docs.Names ids) => Some (author_list ids)
  | inr (CreateAuthor, Docs.Names ids) => Some (author_created (default "" (head ids)))
  | _ => None
  end.

(** The line printed for a failure. *)
Definition failure (x : Call * Blobs.Answer + DocCall * Docs.Reply) : option string :=
  match x with
  | inl (c, Blobs.AnswerFailed reason) =>
      Some ("blob store: " +:+ subject c +:+ " failed: " +:+ reason)%string
  | inr (c, Docs.ReplyFailed reason) =>
      Some ("documents: " +:+ doc_subject c +:+ " failed: " +:+ reason)%string
  | _ => None
  end.

(** The answer is what iroh told the task of that very call. *)
Definition genuine (x : Call * Blobs.Answer + DocCall * Docs.Reply) : Prop :=
  match x with
  | inl (c, a) => ∃ opened w, answered opened w c = Blobs.Replied a
  | inr (c, r) => ∃ opened w, doc_answered opened w c = Blobs.Replied r
  end.

Definition call_of (x : Call * Blobs.Answer + DocCall * Docs.Reply) : Call + DocCall :=
  match x with inl (c, _) => inl c | inr (c, _) => inr c end.

Definition is_answer (s : Signal) : bool :=
  match s with
  | bound _ | bind_failed _ | connection_received _ _ => false
  | _ => true
  end.

Definition answers (e : endpt) : list Signal := base.filter is_answer (emitted e).

(** ** What leaves the questions alone *)

Definition undisturbed (e e' : endpt) : Prop :=
  questions e' = questions e ∧ document_questions e' = document_questions e ∧
  answers e' = answers e.

#[local] Instance undisturbed_preorder : PreOrder undisturbed.
Proof.
  split; [done|]. intros e1 e2 e3 (Hq & Hd & Ha) (Hq' & Hd' & Ha').
  unfold undisturbed. by rewrite Hq', Hd', Ha'.
Qed.

Lemma undisturbed_foldl {B} (f : endpt → B → endpt) l e :
  (∀ e b, undisturbed e (f e b)) → undisturbed e (foldl f e l).
Proof.
  intros Hf. revert e. induction l as [|b l IH]; intros e; [reflexivity|]. cbn.
  by transitivity (f e b).
Qed.

Lemma undisturbed_registry r e : undisturbed e (set_registry r e).
Proof. unfold set_registry. by destruct (dispatcher e). Qed.

Lemma undisturbed_emit s e : is_answer s = false → undisturbed e (emit_later s e).
Proof.
  intros Hs. split_and!; [done..|]. unfold answers. cbn.
  rewrite filter_app, filter_cons_False by (by rewrite Hs; intros []).
  by rewrite filter_nil, app_nil_r.
Qed.

Lemma undisturbed_claim a e : undisturbed e (claim a e).1.
Proof.
  unfold claim. destruct (listeners e !! a); [done|]. destruct (dispatcher e) as [d|] eqn:Hd; [|done].
  destruct (register a (registry d)) as [r [g|]]; apply undisturbed_registry.
Qed.

Lemma undisturbed_listen a e : undisturbed e (listen a e).1.
Proof.
  unfold listen. do 2 (case_decide; [done|]). destruct (dispatcher e); [apply undisturbed_claim|].
  destruct (pending_bind e); [|done]. by case_decide.
Qed.

Lemma undisturbed_release g e : undisturbed e (release_on g e).
Proof. unfold release_on. destruct (dispatcher e); [apply undisturbed_registry|done]. Qed.

Lemma undisturbed_stop a e : undisturbed e (stop_listening a e).
Proof.
  unfold stop_listening. set (e1 := set_pending_listens _ e).
  transitivity e1; [done|]. destruct (listeners e1 !! a) as [g|]; [|done].
  apply (undisturbed_release g e1).
Qed.

Lemma undisturbed_drain_bind fresh e : undisturbed e (drain_bind fresh e).
Proof.
  unfold drain_bind. destruct (pending_bind e) as [[|[ep|reason]|]|]; try done;
    try by apply (undisturbed_emit (bind_failed _) (refresh_ticking (set_pending_bind None e))).
  set (e1 := set_dispatcher _ _). set (e2 := foldl _ _ _).
  transitivity e2; [|by apply undisturbed_emit].
  transitivity (set_pending_listens [] e1); [done|].
  apply (undisturbed_foldl (λ e a, (claim a e).1)). intros. apply undisturbed_claim.
Qed.

Lemma undisturbed_drain_listeners e : undisturbed e (drain_listeners e).
Proof.
  unfold drain_listeners. destruct (dispatcher e) as [d|]; [|done].
  destruct (foldl _ _ _) as [arrived r]. transitivity (set_registry r e); [apply undisturbed_registry|].
  apply undisturbed_foldl. intros. by apply undisturbed_emit.
Qed.

Lemma undisturbed_swarm re de e : undisturbed e (start_swarm gossip_alpn re de e).1.
Proof.
  unfold start_swarm. destruct (swarm _); [done|]. destruct (dispatcher e) as [d|]; [|done].
  destruct (Gossip.start _ _ _ _) as [r s]. apply undisturbed_registry.
Qed.

Lemma undisturbed_depot de e : undisturbed e (start_depot blobs_alpn de e).1.
Proof.
  unfold start_depot. destruct (depot _); [done|]. destruct (dispatcher e) as [d|]; [|done].
  destruct (Blobs.start _ _ _ _ _) as [r s]. apply undisturbed_registry.
Qed.

Lemma undisturbed_library re de e :
  undisturbed e (start_library gossip_alpn blobs_alpn docs_alpn re de e).1.
Proof.
  unfold start_library. destruct (library _); [done|]. destruct (dispatcher e); [|done].
  pose proof (undisturbed_depot de e) as Hu1. destruct (start_depot _ _ _) as [e1 [|]]; [|done].
  pose proof (undisturbed_swarm re de e1) as Hu2. destruct (start_swarm _ _ _ _) as [e2 [|]];
    [|by transitivity e1].
  cbn in *. transitivity e1; [done|]. transitivity e2; [done|].
  destruct (dispatcher e2) as [d2|]; [|done].
  destruct (Docs.start _ _ _ _) as [r s]. apply undisturbed_registry.
Qed.

Lemma undisturbed_release_all gs e : undisturbed e (release_all gs e).
Proof. apply undisturbed_foldl. intros. apply undisturbed_release. Qed.

Lemma undisturbed_close e w : undisturbed e (close e w).1.1.
Proof.
  unfold close, teardown. cbn. set (e1 := set_pending_bind None e).
  set (e2 := release_all _ e1). set (e3 := set_pending_listens [] (set_listeners ∅ e2)).
  transitivity e2; [apply (undisturbed_release_all _ e1)|].
  transitivity (release_all (service_claims (services e3)) e3); [|done].
  apply (undisturbed_release_all _ e3).
Qed.

Lemma undisturbed_elsewhere m e : undisturbed e (elsewhere m e).
Proof.
  destruct m as [c|l|b k w|o|a|a|r|re de|de|re de|w]; cbn [elsewhere]; try done.
  - unfold bind. destruct (_ || _); [done|].
    destruct (lease e); [|destruct (Runtime.acquire b w) as [w' h]]; by destruct (Runtime.spawn _).
  - by destruct (pending_bind e).
  - apply undisturbed_listen.
  - apply undisturbed_stop.
  - apply undisturbed_registry.
  - apply undisturbed_swarm.
  - apply undisturbed_depot.
  - apply undisturbed_library.
  - apply undisturbed_close.
Qed.

(** ** Calls *)

Definition kind_of (c : Call) : Kind :=
  match c with
  | RequestBlobStatus _ => KStatus
  | RequestBlobList => KBlobs
  | TagBlob _ _ | UntagBlob _ => KMutation
  | RequestTagList => KTags
  end.

Definition doc_kind_of (c : DocCall) : DocKind :=
  match c with
  | RequestDocumentList => KDocuments
  | DropDocument _ | SetDefaultAuthor _ => KDocMutation
  | RequestAuthorList => KAuthors
  | CreateAuthor => KNewAuthor
  end.

Lemma some_parses {A} (f : string → option A) text : some f text = true ↔ is_Some (f text).
Proof. apply bool_decide_eq_true. Qed.

(** Only a call whose arguments parse is accepted. *)
Lemma perform_parses c up e : (perform c up e).2 = true → is_Some (query_of c).
Proof.
  assert (∀ parsed k about, (ask_depot blobs_alpn parsed k about up (spawned up) e).2 = true →
    parsed = true) as Hask by (intros [] k about; [done|]; by cbn).
  destruct c; cbn [perform query_of]; intros Hp; try by eexists.
  - apply Hask, some_parses in Hp as [h ->]. by eexists.
  - apply Hask, andb_true_iff in Hp as [[h Hh]%some_parses [t Ht]%bool_decide_eq_true].
    rewrite Hh. cbn. rewrite Ht. by eexists.
  - apply Hask, bool_decide_eq_true in Hp as [t ->]. by eexists.
Qed.

Lemma perform_doc_parses c up e : (perform_doc c up e).2 = true → is_Some (doc_query_of c).
Proof.
  assert (∀ parsed k about,
    (ask_library gossip_alpn blobs_alpn docs_alpn parsed k about up up (spawned up) e).2 = true →
    parsed = true) as Hask by (intros [] k about; [done|]; by cbn).
  destruct c; cbn [perform_doc doc_query_of]; intros Hp; try by eexists.
  - apply Hask, some_parses in Hp as [h ->]. by eexists.
  - apply Hask, some_parses in Hp as [h ->]. by eexists.
Qed.

(** An accepted call puts one question at the end of the list. *)
Lemma perform_spec c up e :
  let '(e', taken) := perform c up e in
  undisturbed e (set_questions (questions e) (document_questions e) e') ∧
  document_questions e' = document_questions e ∧
  questions e' = questions e
    ++ (if taken then [mk_question (kind_of c) (subject c) (spawned up)] else []).
Proof.
  assert (∀ parsed k about, let '(e', taken) := ask_depot blobs_alpn parsed k about up (spawned up) e in
    undisturbed e (set_questions (questions e) (document_questions e) e') ∧
    document_questions e' = document_questions e ∧
    questions e' = questions e ++ (if taken then [mk_question k about (spawned up)] else [])) as Hask.
  { intros parsed k about. unfold ask_depot. destruct parsed; [|by rewrite app_nil_r].
    pose proof (undisturbed_depot up e) as (Hq & Hd & Ha).
    destruct (start_depot _ _ _) as [e1 [|]]; cbn [fst] in *; cbn.
    - rewrite Hq, Hd. done.
    - by rewrite app_nil_r. }
  destruct c; cbn [perform]; apply Hask.
Qed.

Lemma perform_doc_spec c up e :
  let '(e', taken) := perform_doc c up e in
  undisturbed e (set_questions (questions e) (document_questions e) e') ∧
  questions e' = questions e ∧
  document_questions e' = document_questions e
    ++ (if taken then [mk_doc_question (doc_kind_of c) (doc_subject c) (spawned up)] else []).
Proof.
  assert (∀ parsed k about,
    let '(e', taken) := ask_library gossip_alpn blobs_alpn docs_alpn parsed k about up up (spawned up) e in
    undisturbed e (set_questions (questions e) (document_questions e) e') ∧
    questions e' = questions e ∧
    document_questions e' = document_questions e
      ++ (if taken then [mk_doc_question k about (spawned up)] else [])) as Hask.
  { intros parsed k about. unfold ask_library. destruct parsed; [|by rewrite app_nil_r].
    pose proof (undisturbed_library up up e) as (Hq & Hd & Ha).
    destruct (start_library _ _ _ _ _ _) as [e1 [|]]; cbn [fst] in *; cbn.
    - rewrite Hq, Hd. done.
    - by rewrite app_nil_r. }
  destruct c; cbn [perform_doc]; apply Hask.
Qed.

(** ** Answers *)

Lemma collect_tags_shape names l :
  (∃ ns, Blobs.collect_tags names l = Blobs.AnswerNames ns) ∨
  ∃ err, Blobs.collect_tags names l = Blobs.AnswerFailed err.
Proof. revert names. induction l as [|[n|err] l IH]; intros names; cbn; eauto. Qed.

Lemma collect_shape names l :
  (∃ ns, Docs.collect names l = Docs.Names ns) ∨
  ∃ err, Docs.collect names l = Docs.ReplyFailed err.
Proof. revert names. induction l as [|[n|err] l IH]; intros names; cbn; eauto. Qed.

(** What the endpoint does with a genuine answer is what the script should hear. *)
Lemma genuine_answer c a :
  genuine (inl (c, a)) →
  answer (subject c) (kind_of c) a = heard (inl (c, a)) ∧
  error_line (subject c) (kind_of c) a = failure (inl (c, a)).
Proof.
  intros (opened & w & Ha). unfold answered in Ha.
  destruct (query_of c) as [q|] eqn:Hq; [|done]. injection Ha as <-.
  destruct opened as [s|err]; [|by destruct c].
  destruct c; cbn in Hq; simplify_option_eq; try (injection Hq as <-); cbn.
  - by destruct (status_of w s _) as [[|sz|sz]|err].
  - by destruct (hashes w s).
  - by destruct (set_tag w s _ _).
  - by destruct (delete_tag w s _).
  - unfold Blobs.tags. destruct (list_tags w s) as [l|err]; [|done].
    by destruct (collect_tags_shape [] l) as [[ns ->]|[err ->]].
Qed.

Lemma genuine_doc_answer c r :
  genuine (inr (c, r)) →
  document_answer (doc_kind_of c) r = heard (inr (c, r)) ∧
  doc_error_line (doc_subject c) (doc_kind_of c) r = failure (inr (c, r)).
Proof.
  intros (opened & w & Hr). unfold doc_answered in Hr.
  destruct (doc_query_of c) as [q|] eqn:Hq; [|done]. injection Hr as <-.
  destruct opened as [s|err]; [|by destruct c].
  destruct c; cbn in Hq; simplify_option_eq; try (injection Hq as <-); cbn.
  - unfold Docs.list_docs. destruct (list_ids w s) as [l|err]; [|done].
    by destruct (collect_shape [] l) as [[ns ->]|[err ->]].
  - by destruct (forget w s _).
  - unfold Docs.authors. destruct (author_ids w s) as [l|err]; [|done].
    by destruct (collect_shape [] l) as [[ns ->]|[err ->]].
  - by destruct (author_create w s).
  - by destruct (author_set_default w s _).
Qed.

(** *** A poll *)

Lemma take_answers_eq qs :
  take_answers qs =
    (omap (λ q, answer (about q) (kind q) <$> reply (ask q)) qs,
     base.filter (λ q, reply (ask q) = None) qs).
Proof.
  induction qs as [|q qs IH]; [done|]. rewrite filter_cons. cbn. rewrite IH.
  destruct q as [k a [|x|]]; by case_decide.
Qed.

Lemma take_replies_eq qs :
  take_replies qs =
    (omap (λ q, document_answer (doc_kind q) <$> reply (doc_ask q)) qs,
     base.filter (λ q, reply (doc_ask q) = None) qs).
Proof.
  induction qs as [|q qs IH]; [done|]. rewrite filter_cons. cbn. rewrite IH.
  destruct q as [k a [|x|]]; by case_decide.
Qed.

(** Sorting calls by their questions: what the poll makes of a question is what
    it makes of its call. *)
Lemma sort_spec {C A Q X} (asks : Q → Blobs.Oneshot A) (behind : C → Q → Prop)
    (P : C → A → Prop) cs qs :
  Forall2 behind cs qs →
  (∀ c q a, behind c q → reply (asks q) = Some a → P c a) →
  let '(got, rest) := sort cs (asks <$> qs) in
  Forall2 behind rest (base.filter (λ q, reply (asks q) = None) qs) ∧
  got.*1 ++ rest ≡ₚ cs ∧ Forall (λ x, P x.1 x.2) got ∧
  ∀ (f : Q → A → X) (g : C → A → X),
    (∀ c q a, behind c q → reply (asks q) = Some a → f q a = g c a) →
    omap (λ q, f q <$> reply (asks q)) qs = (λ x, g x.1 x.2) <$> got.
Proof.
  intros Hf HP. induction Hf as [|c q cs qs Hcq _ IH]; [by repeat constructor|].
  cbn [sort fmap list_fmap]. change (list_fmap _ _ asks qs) with (asks <$> qs).
  destruct (sort cs (asks <$> qs)) as [got rest]. destruct IH as (I1 & I2 & I3 & I4).
  rewrite filter_cons. destruct (reply (asks q)) as [a|] eqn:Ha; case_decide; try done.
  - split; [done|]. split; [by cbn; rewrite I2|]. split; [constructor; [by eapply HP|done]|].
    intros f g Hfg. cbn. rewrite Ha. cbn. f_equal; [by apply (Hfg c q)|]. by apply I4.
  - split; [by constructor|]. split; [by rewrite <- I2, Permutation_middle|]. split; [done|].
    intros f g Hfg. cbn. rewrite Ha. cbn. by apply I4.
Qed.

Definition behind (c : Call) (q : Question) : Prop :=
  kind q = kind_of c ∧ about q = subject c ∧ ∀ a, reply (ask q) = Some a → genuine (inl (c, a)).
Definition doc_behind (c : DocCall) (q : DocQuestion) : Prop :=
  doc_kind q = doc_kind_of c ∧ doc_about q = doc_subject c ∧
  ∀ r, reply (doc_ask q) = Some r → genuine (inr (c, r)).

Lemma heard_is_answer x s : heard x = Some s → is_answer s = true.
Proof. destruct x as [[[] []]|[[] []]]; cbn; try done; by intros [= <-]. Qed.

(** The signals of a poll, given the calls its answers are for. *)
Lemma emit_all_heard xs e :
  answers (emit_all (heard <$> xs) e) = answers e ++ omap heard xs.
Proof.
  unfold emit_all. revert e. induction xs as [|x xs IH]; intros e; cbn; [by rewrite app_nil_r|].
  rewrite IH. destruct (heard x) as [s|] eqn:Hx; [|done].
  unfold answers. cbn [emitted emit_later]. apply heard_is_answer in Hx.
  rewrite filter_app, filter_cons_True, filter_nil by (by rewrite Hx). by rewrite <- app_assoc.
Qed.

Lemma omap_reply {Q A X} (asks : Q → Blobs.Oneshot A) (f : Q → A → option X) (qs : list Q) :
  omap (λ q, a ← reply (asks q); f q a) qs = omap id (omap (λ q, f q <$> reply (asks q)) qs).
Proof.
  induction qs as [|q qs IH]; [done|]. cbn.
  destruct (reply (asks q)) as [a|]; cbn; [|done]. destruct (f q a); cbn; by rewrite IH.
Qed.

Lemma omap_fmap {B C X} (f : B → C) (g : C → option X) (l : list B) :
  omap g (f <$> l) = omap (λ b, g (f b)) l.
Proof. induction l as [|b l IH]; [done|]. cbn. destruct (g (f b)); cbn; by rewrite IH. Qed.

Lemma drain_questions_spec cs e :
  Forall2 behind cs (questions e) →
  let '(got, rest) := sort cs (ask <$> questions e) in
  let e' := drain_questions e in
  Forall2 behind rest (questions e') ∧ document_questions e' = document_questions e ∧
  answers e' = answers e ++ omap heard (inl <$> got) ∧
  got.*1 ++ rest ≡ₚ cs ∧ Forall genuine (inl <$> got) ∧
  omap (λ q, a ← reply (ask q); error_line (about q) (kind q) a) (questions e) =
    omap failure (inl <$> got) ∧
  Forall (λ q, reply (ask q) = None) (questions e').
Proof.
  intros Hb. unfold drain_questions. rewrite take_answers_eq, omap_reply.
  assert (∀ (c : Call) (q : Question) a, behind c q → reply (ask q) = Some a → genuine (inl (c, a)))
    as HP by (intros c q a (_ & _ & Hg); apply Hg).
  pose proof (sort_spec (X := option Signal) ask behind _ cs (questions e) Hb HP) as Hs.
  pose proof (sort_spec (X := option string) ask behind _ cs (questions e) Hb HP) as Hl.
  destruct (sort cs (ask <$> questions e)) as [got rest].
  destruct Hs as (S1 & S2 & S3 & S4), Hl as (_ & _ & _ & L4).
  assert (∀ xs (e0 : endpt), questions (emit_all xs e0) = questions e0 ∧
    document_questions (emit_all xs e0) = document_questions e0) as Hem by apply emit_all_questions.
  rewrite (S4 _ (λ c a, heard (inl (c, a)))), (L4 _ (λ c a, failure (inl (c, a)))).
  2,3: intros c q a (-> & -> & Hg) Ha; by apply genuine_answer, Hg.
  assert ((λ x : Call * Blobs.Answer, heard (inl (x.1, x.2))) <$> got = heard <$> (inl <$> got)) as ->.
  { rewrite <- list_fmap_compose. by apply list_fmap_ext; intros i [c a]. }
  cbn zeta. set (e1 := set_questions _ _ e).
  change (questions (refresh_ticking ?x)) with (questions x).
  change (document_questions (refresh_ticking ?x)) with (document_questions x).
  change (answers (refresh_ticking ?x)) with (answers x).
  rewrite emit_all_heard, !(proj1 (Hem _ _)), (proj2 (Hem _ _)).
  split; [done|]. split; [done|]. split; [done|]. split; [done|]. split; [|split].
  - apply Forall_fmap. eapply Forall_impl; [exact S3|]. by intros [c a].
  - rewrite !omap_fmap. apply list_omap_ext, Forall_Forall2_diag, Forall_true. by intros [c a].
  - apply Forall_forall. by intros q [Hq _]%list_elem_of_filter.
Qed.

Lemma drain_document_questions_spec cs e :
  Forall2 doc_behind cs (document_questions e) →
  let '(got, rest) := sort cs (doc_ask <$> document_questions e) in
  let e' := drain_document_questions e in
  Forall2 doc_behind rest (document_questions e') ∧ questions e' = questions e ∧
  answers e' = answers e ++ omap heard (inr <$> got) ∧
  got.*1 ++ rest ≡ₚ cs ∧ Forall genuine (inr <$> got) ∧
  omap (λ q, r ← reply (doc_ask q); doc_error_line (doc_about q) (doc_kind q) r)
    (document_questions e) = omap failure (inr <$> got) ∧
  Forall (λ q, reply (doc_ask q) = None) (document_questions e').
Proof.
  intros Hb. unfold drain_document_questions. rewrite take_replies_eq, omap_reply.
  assert (∀ (c : DocCall) (q : DocQuestion) r, doc_behind c q → reply (doc_ask q) = Some r →
    genuine (inr (c, r))) as HP by (intros c q r (_ & _ & Hg); apply Hg).
  pose proof (sort_spec (X := option Signal) doc_ask doc_behind _ cs (document_questions e) Hb HP) as Hs.
  pose proof (sort_spec (X := option string) doc_ask doc_behind _ cs (document_questions e) Hb HP) as Hl.
  destruct (sort cs (doc_ask <$> document_questions e)) as [got rest].
  destruct Hs as (S1 & S2 & S3 & S4), Hl as (_ & _ & _ & L4).
  assert (∀ xs (e0 : endpt), questions (emit_all xs e0) = questions e0 ∧
    document_questions (emit_all xs e0) = document_questions e0) as Hem by apply emit_all_questions.
  rewrite (S4 _ (λ c r, heard (inr (c, r)))), (L4 _ (λ c r, failure (inr (c, r)))).
  2,3: intros c q r (Hk & Ht & Hg) Hr; rewrite Hk, ?Ht; by apply genuine_doc_answer, Hg.
  assert ((λ x : DocCall * Docs.Reply, heard (inr (x.1, x.2))) <$> got = heard <$> (inr <$> got)) as ->.
  { rewrite <- list_fmap_compose. by apply list_fmap_ext; intros i [c r]. }
  cbn zeta. set (e1 := set_questions _ _ e).
  change (questions (refresh_ticking ?x)) with (questions x).
  change (document_questions (refresh_ticking ?x)) with (document_questions x).
  change (answers (refresh_ticking ?x)) with (answers x).
  rewrite emit_all_heard, (proj1 (Hem _ _)), !(proj2 (Hem _ _)).
  split; [done|]. split; [done|]. split; [done|]. split; [done|]. split; [|split].
  - apply Forall_fmap. eapply Forall_impl; [exact S3|]. by intros [c r].
  - rewrite !omap_fmap. apply list_omap_ext, Forall_Forall2_diag, Forall_true. by intros [c r].
  - apply Forall_forall. by intros q [Hq _]%list_elem_of_filter.
Qed.

(** ** The desk keeps its books *)

Record desk_ok (e0 : endpt) (d : Desk) : Prop := {
  d_asked : Forall2 behind (asked d) (questions (ep d));
  d_docs : Forall2 doc_behind (doc_asked d) (document_questions (ep d));
  d_once : (call_of <$> settled d) ++ (inl <$> asked d) ++ (inr <$> doc_asked d) ≡ₚ accepted d;
  d_heard : answers (ep d) = answers e0 ++ omap heard (settled d);
  d_printed : printed d = omap failure (settled d);
  d_genuine : Forall genuine (settled d);
  d_parsed : Forall (λ c, is_Some (query_of c)) (asked d);
  d_doc_parsed : Forall (λ c, is_Some (doc_query_of c)) (doc_asked d);
}.

Lemma open_desk_ok e : questions e = [] → document_questions e = [] → desk_ok e (open_desk e).
Proof. intros Hq Hd. split; cbn; rewrite ?Hq, ?Hd, ?app_nil_r; by try constructor. Qed.

(** A change that touches neither the questions nor what was answered. *)
Lemma desk_ok_undisturbed e0 d e : desk_ok e0 d → undisturbed (ep d) e → desk_ok e0 (with_ep e d).
Proof. intros [] (Hq & Hd & Ha). split; cbn; by rewrite ?Hq, ?Hd, ?Ha. Qed.

Lemma desk_ok_resolve e0 d n o :
  desk_ok e0 d → (∀ c a, asked d !! n = Some c → o = Blobs.Replied a → genuine (inl (c, a))) →
  desk_ok e0 (resolve_nth n o d).
Proof.
  intros [Da Dd Do Dh Dp Dg Dc Dk] Ho. split; cbn; try done.
  apply Forall2_alter_r; [done|]. intros c q Hc _ (Hk & Hb & Hg). split_and!; [done..|].
  intros a. cbn. destruct (ask q) as [|a'|]; [|apply Hg|done].
  destruct o; try done. intros [= ->]. by apply Ho.
Qed.

Lemma desk_ok_resolve_doc e0 d n o :
  desk_ok e0 d → (∀ c r, doc_asked d !! n = Some c → o = Blobs.Replied r → genuine (inr (c, r))) →
  desk_ok e0 (resolve_doc_nth n o d).
Proof.
  intros [Da Dd Do Dh Dp Dg Dc Dk] Ho. split; cbn; try done.
  apply Forall2_alter_r; [done|]. intros c q Hc _ (Hk & Hb & Hg). split_and!; [done..|].
  intros r. cbn. destruct (doc_ask q) as [|r'|]; [|apply Hg|done].
  destruct o; try done. intros [= ->]. by apply Ho.
Qed.

Lemma desk_ok_frame e0 d fresh :
  desk_ok e0 d →
  desk_ok e0 (desk_step d (Frame fresh)) ∧
  Forall (λ q, reply (ask q) = None) (questions (ep (desk_step d (Frame fresh)))) ∧
  Forall (λ q, reply (doc_ask q) = None) (document_questions (ep (desk_step d (Frame fresh)))).
Proof.
  intros [Da Dd Do Dh Dp Dg Dc Dk]. cbn [desk_step]. unfold _drain.
  assert (undisturbed (ep d) (drain_listeners (drain_bind fresh (ep d)))) as (Hq & Hd & Ha).
  { transitivity (drain_bind fresh (ep d)); [apply undisturbed_drain_bind|apply undisturbed_drain_listeners]. }
  set (e1 := drain_listeners _) in *. rewrite <- Hq in Da. rewrite <- Hd in Dd. rewrite <- Ha in Dh.
  pose proof (drain_questions_spec (asked d) e1 Da) as Hs.
  assert (document_questions (drain_questions e1) = document_questions e1) as Hd1.
  { destruct (sort _ _), Hs as (_ & -> & _). done. }
  rewrite <- Hd1 in Dd.
  pose proof (drain_document_questions_spec (doc_asked d) (drain_questions e1) Dd) as Ht.
  unfold errors. rewrite <- Hq, <- Hd, <- Hd1.
  destruct (sort (asked d) (ask <$> questions e1)) as [got rest].
  destruct (sort (doc_asked d) (doc_ask <$> document_questions (drain_questions e1))) as [doc_got doc_rest].
  destruct Hs as (S1 & _ & S3 & S4 & S5 & S6 & S7), Ht as (T1 & T2 & T3 & T4 & T5 & T6 & T7).
  rewrite <- T2 in S1, S7. split; [|done]. split; cbn [ep asked doc_asked settled printed accepted]; try done.
  - rewrite <- Do, <- S4, <- T4, !fmap_app, <- !list_fmap_compose. unfold compose.
    assert ((λ x : Call * Blobs.Answer, call_of (inl x)) <$> got =
      (λ x, inl x.1) <$> got) as -> by (by apply list_fmap_ext; intros i [c a]).
    assert ((λ x : DocCall * Docs.Reply, call_of (inr x)) <$> doc_got =
      (λ x, inr x.1) <$> doc_got) as -> by (by apply list_fmap_ext; intros i [c a]).
    rewrite <- !app_assoc. solve_Permutation.
  - by rewrite T3, S3, Dh, !omap_app, <- !app_assoc.
  - by rewrite Dp, S6, T6, !omap_app.
  - by rewrite !Forall_app.
  - rewrite <- S4, Forall_app in Dc. apply Dc.
  - rewrite <- T4, Forall_app in Dk. apply Dk.
Qed.

Lemma desk_ok_step e0 d l : desk_ok e0 d → desk_ok e0 (desk_step d l).
Proof.
  intros Hok. destruct l as [c up|c up|n opened w|n opened w|n|n|fresh|m]; cbn [desk_step].
  - pose proof (perform_spec c up (ep d)) as Hp. pose proof (perform_parses c up (ep d)) as Hc. destruct (perform c up (ep d)) as [e taken].
    destruct Hp as (Hu & Hd & Hq). destruct Hu as (_ & _ & Ha).
    change (answers (set_questions _ _ e)) with (answers e) in Ha. destruct taken.
    2:{ apply desk_ok_undisturbed; [done|]. rewrite app_nil_r in Hq. done. }
    destruct Hok as [Da Dd Do Dh Dp Dg Dc Dk]. split; cbn; rewrite ?Hq, ?Hd, ?Ha; try done.
    + apply Forall2_app; [done|]. constructor; [|constructor]. split_and!; [done..|].
      intros a. by destruct up.
    + rewrite <- Do, fmap_app, <- !app_assoc. solve_Permutation.
    + apply Forall_app. split; [done|]. constructor; [by apply Hc|constructor].
  - pose proof (perform_doc_spec c up (ep d)) as Hp. pose proof (perform_doc_parses c up (ep d)) as Hc. destruct (perform_doc c up (ep d)) as [e taken].
    destruct Hp as (Hu & Hq & Hd). destruct Hu as (_ & _ & Ha).
    change (answers (set_questions _ _ e)) with (answers e) in Ha. destruct taken.
    2:{ apply desk_ok_undisturbed; [done|]. rewrite app_nil_r in Hd. done. }
    destruct Hok as [Da Dd Do Dh Dp Dg Dc Dk]. split; cbn; rewrite ?Hq, ?Hd, ?Ha; try done.
    + apply Forall2_app; [done|]. constructor; [|constructor]. split_and!; [done..|].
      intros a. by destruct up.
    + by rewrite <- Do, fmap_app, <- !app_assoc.
    + apply Forall_app. split; [done|]. constructor; [by apply Hc|constructor].
  - destruct (asked d !! n) as [c|] eqn:Hc; [|done]. apply desk_ok_resolve; [done|].
    intros c' a. rewrite Hc. intros [= <-] Ha. by exists opened, w.
  - destruct (doc_asked d !! n) as [c|] eqn:Hc; [|done]. apply desk_ok_resolve_doc; [done|].
    intros c' a. rewrite Hc. intros [= <-] Ha. by exists opened, w.
  - by apply desk_ok_resolve.
  - by apply desk_ok_resolve_doc.
  - by apply desk_ok_frame.
  - apply desk_ok_undisturbed; [done|]. apply undisturbed_elsewhere.
Qed.

Lemma desk_ok_run e0 d ls : desk_ok e0 d → desk_ok e0 (desk_run d ls).
Proof. intros Hd. apply (foldl_preserves _ (desk_ok e0)); [done|]. intros. by apply desk_ok_step. Qed.

(** A question whose answer is there is settled by the next frame. *)
Lemma sort_settles {C A} (cs : list C) (os : list (Blobs.Oneshot A)) n c o a :
  cs !! n = Some c → os !! n = Some o → reply o = Some a → (c, a) ∈ (sort cs os).1.
Proof.
  revert os n. induction cs as [|c' cs IH]; intros [|o' os] [|n]; try done; cbn.
  - intros [= ->] [= ->] ->. destruct (sort cs os). cbn. left.
  - intros Hc Ho Ha. specialize (IH os n Hc Ho Ha). destruct (sort cs os) as [got rest]. cbn in IH.
    destruct (reply o'); cbn; [by right|done].
Qed.

Lemma finished_is_settled e0 d n c q opened w fresh :
  desk_ok e0 d → asked d !! n = Some c → questions (ep d) !! n = Some q → ask q = Blobs.Waiting →
  ∃ a, answered opened w c = Blobs.Replied a ∧
    inl (c, a) ∈ settled (desk_run d [Finishes n opened w; Frame fresh]).
Proof.
  intros Hok Hc Hq Hw.
  destruct (Forall_lookup_1 _ _ _ _ (d_parsed _ _ Hok) Hc) as [x Hx].
  eexists. unfold answered. rewrite Hx. split; [done|].
  unfold desk_run. cbn [foldl desk_step]. rewrite Hc. unfold answered. rewrite Hx.
  set (o := Blobs.query _ _ _). cbn [ep with_ep resolve_nth asked doc_asked].
  cbn [questions document_questions set_questions].
  pose proof (sort_settles (asked d) (ask <$> alter (resolve_question o) n (questions (ep d))) n c o) as Hs.
  destruct (sort (asked d) _) as [got rest]. destruct (sort (doc_asked d) _) as [doc_got doc_rest].
  cbn [settled fst] in *. apply elem_of_app. right. apply elem_of_app. left.
  apply list_elem_of_fmap. eexists. split; [done|]. apply Hs; [done| |done].
  rewrite list_lookup_fmap, list_lookup_alter_eq, Hq. cbn. by rewrite Hw.
Qed.

Lemma finished_doc_is_settled e0 d n c q opened w fresh :
  desk_ok e0 d → doc_asked d !! n = Some c → document_questions (ep d) !! n = Some q →
  doc_ask q = Blobs.Waiting →
  ∃ r, doc_answered opened w c = Blobs.Replied r ∧
    inr (c, r) ∈ settled (desk_run d [DocFinishes n opened w; Frame fresh]).
Proof.
  intros Hok Hc Hq Hw.
  destruct (Forall_lookup_1 _ _ _ _ (d_doc_parsed _ _ Hok) Hc) as [x Hx].
  eexists. unfold doc_answered. rewrite Hx. split; [done|].
  unfold desk_run. cbn [foldl desk_step]. rewrite Hc. unfold doc_answered. rewrite Hx.
  set (o := Docs.query _ _ _). cbn [ep with_ep resolve_doc_nth asked doc_asked].
  cbn [questions document_questions set_questions].
  pose proof (sort_settles (doc_asked d)
    (doc_ask <$> alter (resolve_doc_question o) n (document_questions (ep d))) n c o) as Hs.
  destruct (sort (asked d) _) as [got rest]. destruct (sort (doc_asked d) _) as [doc_got doc_rest].
  cbn [settled fst] in *. apply elem_of_app. right. apply elem_of_app. right.
  apply list_elem_of_fmap. eexists. split; [done|]. apply Hs; [done| |done].
  rewrite list_lookup_fmap, list_lookup_alter_eq, Hq. cbn. by rewrite Hw.
Qed.

(** ** Properties *)

(** C20: every question is answered once, and truly. Whatever else the endpoint is
    used for, in whatever order the tasks end, and if some never do: each call
    that returned true is settled once or still waiting; the signals are those
    the settled calls should end in, in the order of settling, each carrying what
    iroh told the task of that very call; what is printed is their failures, and
    never that an answer was unexpected. A frame leaves no answer untaken, and a
    task that finishes is reported by the next one. *)
Theorem questions_are_answered_once e ls :
  questions e = [] → document_questions e = [] →
  let d := desk_run (open_desk e) ls in
  (call_of <$> settled d) ++ (inl <$> asked d) ++ (inr <$> doc_asked d) ≡ₚ accepted d ∧
  answers (ep d) = answers e ++ omap heard (settled d) ∧
  printed d = omap failure (settled d) ∧
  Forall genuine (settled d) ∧
  (∀ fresh, let e' := ep (desk_step d (Frame fresh)) in
     Forall (λ q, reply (ask q) = None) (questions e') ∧
     Forall (λ q, reply (doc_ask q) = None) (document_questions e')) ∧
  (∀ n c q opened w fresh,
     asked d !! n = Some c → questions (ep d) !! n = Some q → ask q = Blobs.Waiting →
     ∃ a, answered opened w c = Blobs.Replied a ∧
       inl (c, a) ∈ settled (desk_run d [Finishes n opened w; Frame fresh])) ∧
  (∀ n c q opened w fresh,
     doc_asked d !! n = Some c → document_questions (ep d) !! n = Some q → doc_ask q = Blobs.Waiting →
     ∃ r, doc_answered opened w c = Blobs.Replied r ∧
       inr (c, r) ∈ settled (desk_run d [DocFinishes n opened w; Frame fresh])).
Proof.
  intros Hq Hdq d. assert (desk_ok e d) as Hok by (by apply desk_ok_run, open_desk_ok).
  split; [by apply d_once with e|]. split; [by apply d_heard|]. split; [by apply d_printed with e|].
  split; [by apply d_genuine with e|]. split; [intros fresh; by apply (desk_ok_frame e)|].
  split; intros; [by eapply finished_is_settled|by eapply finished_doc_is_settled].
Qed.
End answers.

(** A list of blobs, a new author, a tag to remove and the tags are asked for in
    one go, with an empty tag refused and the last question not spawned. The
    author is made first, the list fails, and the task of the tag is dropped. *)
Section example.
#[local] Existing Instance listing_order.
#[local] Instance shown : Display Z := λ z, pretty z.

Definition example_endpoint : IrohEndpoint Registry Registration Z unit unit :=
  set_dispatcher (Some (mk_dispatcher 7 start)) init.

Definition example_store : StoreWorld (Store := unit) (Hash := string) :=
  mk_store_world (λ _ _, inl (Blobs.Partial None)) (λ _, inl ["b1"%string; "b2"%string])
    (λ _ _ _, Some "disk full"%string) (λ _ _, None) (λ _, inl []).
Definition example_engine : EngineWorld (NamespaceId := string) (AuthorId := string) (Engine := unit) :=
  mk_engine_world (λ _, inl []) (λ _ _, None) (λ _, inl []) (λ _, inl "a1"%string) (λ _ _, None).

Definition example_day :
    list (Label (R := Registry) (Ep := Z) (Store := unit) (Addr := unit) (Hash := string)
            (NamespaceId := string) (AuthorId := string) (Engine := unit)) :=
  [AskStore RequestBlobList true; AskLibrary CreateAuthor true; AskStore (UntagBlob "") true;
   AskStore (UntagBlob "old") true; AskStore RequestTagList false;
   DocFinishes 0 (inl tt) example_engine; Frame start; Dies 1;
   Finishes 0 (inr "no room"%string) example_store; Finishes 0 (inl tt) example_store;
   Frame start; Frame start].

Abbreviation run_example := (desk_run (λ s, s) Some Some Some (λ s, s) [x01] [x02] [x03]
  (open_desk example_endpoint)).

Lemma questions_are_answered_once_witness :
  let d := run_example example_day in
  (call_of <$> settled d) ++ (inl <$> asked d) ++ (inr <$> doc_asked d) ≡ₚ accepted d ∧
  answers (ep d) = [author_created "a1"] ∧
  printed d = ["blob store: blob list failed: no room"%string] ∧
  asked d = [UntagBlob "old"; RequestTagList] ∧ doc_asked d = [].
Proof.
  pose proof (questions_are_answered_once (λ s, s) Some Some Some (λ s, s) [x01] [x02] [x03]
    example_endpoint example_day eq_refl eq_refl) as (H1 & H2 & H3 & _).
  split_and!; [exact H1|rewrite H2; reflexivity|rewrite H3; reflexivity|reflexivity..].
Defined.
End example.
