(* ===== verification/Requests.v ===== *)
(** * What scripts ask of the endpoint ([endpoint.rs], the calls that hand out objects)

    Every blob and document call parses its arguments, starts the service it
    needs and wraps the task the service runs. Here each call is the one of
    [endpoint.rs], the task of a blob call is the one of [blobs.rs], and the two
    are followed through to the signals of the object the script holds. Also the
    readouts of a bound endpoint. *)

From S2P Require Import Prelude Polled.
From S2P Require Blobs Docs Transfer Stats.
From S2P Require Import Dispatch Endpoint.

(** ** The calls *)

Section requests.
Context {R Reg Ep Store Addr Id Hash : Type}.
Context `{AlpnRegistry R Reg} `{Display Ep}.
Abbreviation endpt := (IrohEndpoint R Reg Ep Store Addr).

(** [str::trim], [ProjectSettings::globalize_path], and iroh's parsers. *)
Variables trim globalize : string → string.
Variable parse_id : string → option Id.
Variable hash_from_str : string → option Hash.
Variable parse_blob_ticket : string → option (Addr * Hash).
(** [EndpointAddr]'s field [id]. *)
Variable addr_id : Addr → Id.
Variable blobs_alpn : bytes.

(** What the depot is asked to run. *)
Inductive Job : Type :=
  | JAddBytes (data : bytes) (tag : option string)
  | JAddFile (path : string) (tag : option string)
  | JFetch (hash : Hash) (providers : list Id) (tag : option string)
  | JExport (hash : Hash) (path : string)
  | JRead (hash : Hash).

Definition global_path (path : string) : option string :=
  if decide (trim path = "") then None else Some (globalize path).

Definition parse_hash (hash : string) : option Hash := Blobs.parse_hash hash_from_str hash.

Definition add_bytes (data : bytes) (tag : string) (detached : bool) (e : endpt)
  : endpt * option Job :=
  start_transfer blobs_alpn (Some (JAddBytes data (optional trim tag))) [] detached e.

Definition add_file (path tag : string) (detached : bool) (e : endpt) : endpt * option Job :=
  start_transfer blobs_alpn
    (path ← global_path path; Some (JAddFile path (optional trim tag))) [] detached e.

Definition fetch_blob (hash : string) (providers : list string) (tag : string) (detached : bool)
    (e : endpt) : endpt * option Job :=
  start_transfer blobs_alpn
    (hash ← parse_hash hash; peers ← mapM parse_id providers;
     Some (JFetch hash peers (optional trim tag))) [] detached e.

Definition fetch_blob_ticket (ticket tag : string) (detached : bool) (e : endpt)
  : endpt * option Job :=
  match parse_blob_ticket ticket with
  | None => (e, None)
  | Some (addr, hash) =>
      start_transfer blobs_alpn (Some (JFetch hash [addr_id addr] (optional trim tag))) [addr]
        detached e
  end.

Definition export_blob (hash path : string) (detached : bool) (e : endpt) : endpt * option Job :=
  start_transfer blobs_alpn
    (hash ← parse_hash hash; path ← global_path path; Some (JExport hash path)) [] detached e.

Definition read_blob (hash : string) (detached : bool) (e : endpt) : endpt * option Job :=
  start_transfer blobs_alpn (hash ← parse_hash hash; Some (JRead hash)) [] detached e.

(** ** The tasks *)

(** What iroh's store and downloader would do, and what setting a tag returns. *)
Record Iroh : Type := mk_iroh {
  adding : Store → bytes → list (Blobs.AddItem (Hash := Hash));
  adding_path : Store → string → list (Blobs.AddItem (Hash := Hash));
  download : Store → Hash → list Id → list Blobs.DownloadItem + string;
  exporting : Store → Hash → string → list Blobs.ExportItem;
  get_bytes : Store → Hash → bytes + string;
  tag_set : Store → Hash → string → option string;
}.

(** The tag is set on the hash the work came to. *)
Definition tagging (w : Iroh) (s : Store) (tag : option string) (r : Hash + string)
  : option string :=
  match tag, r with
  | Some tag, inl hash => tag_set w s hash tag
  | _, _ => None
  end.

(** [Depot::add_bytes], [add_file], [fetch], [export] and [read]: everything the
    queue of the transfer is ever sent. *)
Definition run_job (w : Iroh) (detached : bool) (opened : Store + string) (j : Job)
  : list (Blobs.Event Hash) :=
  match j with
  | JAddBytes data tag =>
      Blobs.run detached opened (λ s,
        let items := adding w s data in
        Blobs.add items tag (tagging w s tag (Blobs.forward_add items).2))
  | JAddFile path tag =>
      Blobs.run detached opened (λ s,
        let items := adding_path w s path in
        Blobs.add items tag (tagging w s tag (Blobs.forward_add items).2))
  | JFetch hash providers tag =>
      Blobs.run detached opened (λ s,
        Blobs.fetch hash (download w s hash providers) tag (tagging w s tag (inl hash)))
  | JExport hash path =>
      Blobs.run detached opened (λ s, Blobs.export hash (exporting w s hash path))
  | JRead hash => Blobs.read detached hash opened (λ s, get_bytes w s hash)
  end.

(** The hash the script named, if it named one. *)
Definition named (j : Job) : option Hash :=
  match j with
  | JAddBytes _ _ | JAddFile _ _ => None
  | JFetch hash _ _ | JExport hash _ | JRead hash => Some hash
  end.

Definition reads (j : Job) : bool := match j with JRead _ => true | _ => false end.

Lemma then_keep_hash tag set (w : Blobs.Work (Hash := Hash)) h :
  (Blobs.then_keep tag set w).2 = inl h → w.2 = inl h.
Proof.
  destruct w as [evs [h'|err]]; cbn; [|done]. by destruct (Blobs.keep tag set).
Qed.

Lemma fetch_hash (hash : Hash) stream tag set h :
  (Blobs.fetch hash stream tag set).2 = inl h → h = hash.
Proof.
  destruct stream as [items|err]; [|done]. intros Hk%then_keep_hash. revert Hk.
  induction items as [|[] items IH]; cbn; try congruence; try done;
    destruct (Blobs.fetch_loop hash items); done.
Qed.

Lemma export_hash (hash : Hash) items h : (Blobs.export hash items).2 = inl h → h = hash.
Proof.
  induction items as [|[] items IH]; cbn; try congruence; try done;
    destruct (Blobs.export hash items); done.
Qed.

(** The last word of a job that only reports progress on the way. *)
Lemma run_last detached (opened : Store + string) work (P : Hash → Prop) :
  (∀ s, Blobs.quiet (work s)) → (∀ s h, (work s).2 = inl h → P h) →
  ∃ evs e, Blobs.run detached opened work = evs ++ [e] ∧
    Forall (λ e, Blobs.terminal e = false) evs ∧ Blobs.terminal e = true ∧
    (∀ h d, e = Blobs.Done h d → P h ∧ d = []).
Proof.
  intros Hq Hp. unfold Blobs.run. destruct detached; [|by eexists [], _].
  destruct opened as [s|err]; [|by eexists [], _].
  specialize (Hq s). specialize (Hp s). destruct (work s) as [evs [h|err]]; eexists evs, _; split_and!; try done.
  intros h' d [= <- <-]. eauto.
Qed.

Lemma run_job_last w detached opened j :
  ∃ evs e, run_job w detached opened j = evs ++ [e] ∧
    Forall (λ e, Blobs.terminal e = false) evs ∧ Blobs.terminal e = true ∧
    (∀ h d, e = Blobs.Done h d →
       (∀ hash, named j = Some hash → h = hash) ∧ (d ≠ [] → reads j = true)).
Proof.
  assert (∀ work, (∀ s, Blobs.quiet (work s)) →
    (∀ s h, (work s).2 = inl h → ∀ hash, named j = Some hash → h = hash) →
    ∃ evs e, Blobs.run detached opened work = evs ++ [e] ∧
      Forall (λ e, Blobs.terminal e = false) evs ∧ Blobs.terminal e = true ∧
      (∀ h d, e = Blobs.Done h d →
         (∀ hash, named j = Some hash → h = hash) ∧ (d ≠ [] → reads j = true))) as Hrun.
  { intros work Hq Hp.
    destruct (run_last detached opened work _ Hq Hp) as (evs & e & ? & ? & ? & Hd).
    exists evs, e. split_and!; [done..|]. by intros h d [? ->]%Hd. }
  destruct j as [data tag|path tag|hash providers tag|hash path|hash]; cbn [run_job].
  - apply Hrun; [|done]. intros s. apply Blobs.add_quiet.
  - apply Hrun; [|done]. intros s. apply Blobs.add_quiet.
  - apply Hrun; [intros s; apply Blobs.fetch_quiet|].
    intros s h Hh%fetch_hash ? [= <-]. done.
  - apply Hrun; [intros s; apply Blobs.export_quiet|].
    intros s h Hh%export_hash ? [= <-]. done.
  - unfold Blobs.read. destruct detached; [|by eexists [], _].
    eexists [], _. split_and!; [done..| |]; destruct opened as [s|err]; try done;
      destruct (get_bytes w s hash) as [data|err]; try done.
    intros ?? [= <- <-]. split; [by intros ? [= <-]|done].
Qed.

(** ** Any call *)

Inductive Call : Type :=
  | AddBytes (data : bytes) (tag : string)
  | AddFile (path tag : string)
  | FetchBlob (hash : string) (providers : list string) (tag : string)
  | FetchBlobTicket (ticket tag : string)
  | ExportBlob (hash path : string)
  | ReadBlob (hash : string).

Definition perform (c : Call) : bool → endpt → endpt * option Job :=
  match c with
  | AddBytes data tag => add_bytes data tag
  | AddFile path tag => add_file path tag
  | FetchBlob hash providers tag => fetch_blob hash providers tag
  | FetchBlobTicket ticket tag => fetch_blob_ticket ticket tag
  | ExportBlob hash path => export_blob hash path
  | ReadBlob hash => read_blob hash
  end.

(** Whether the arguments of a call parse, and what they name. *)
Definition well_formed (c : Call) : Prop :=
  match c with
  | AddBytes _ _ => True
  | AddFile path _ => trim path ≠ ""
  | FetchBlob hash providers _ =>
      is_Some (parse_hash hash) ∧ Forall (λ p, is_Some (parse_id p)) providers
  | FetchBlobTicket ticket _ => is_Some (parse_blob_ticket ticket)
  | ExportBlob hash path => is_Some (parse_hash hash) ∧ trim path ≠ ""
  | ReadBlob hash => is_Some (parse_hash hash)
  end.

Definition wanted_hash (c : Call) : option Hash :=
  match c with
  | AddBytes _ _ | AddFile _ _ => None
  | FetchBlob hash _ _ | ExportBlob hash _ | ReadBlob hash => parse_hash hash
  | FetchBlobTicket ticket _ => snd <$> parse_blob_ticket ticket
  end.

(** The depot runs already, or it can be started now. *)
Definition depot_available (detached : bool) (e : endpt) : Prop :=
  is_Some (depot (services e)) ∨
  ∃ d, dispatcher e = Some d ∧ (blobs_alpn ∉ held (registry d)) ∧ detached = true.

Lemma start_depot_available detached (e : endpt) :
  (start_depot blobs_alpn detached e).2 = true ↔ depot_available detached e.
Proof.
  unfold start_depot, depot_available. destruct (depot (services e)) as [dp|]; [by split; eauto|].
  destruct (dispatcher e) as [d|] eqn:Hd; [|split; [done|by intros [[]|(? & ? & _)]]].
  unfold Blobs.start. destruct (register blobs_alpn (registry d)) as [r [g|]] eqn:Hr.
  - apply register_some in Hr as (Hf & _).
    destruct detached; cbn; split; intros Hx; try done; [by right; exists d|].
    by destruct Hx as [[]|(? & _ & _ & ?)].
  - apply register_none in Hr as [Hin _]. cbn. split; [done|].
    intros [[]|(? & [= <-] & ? & _)]; done.
Qed.

Lemma start_transfer_result {J : Type} (job : option J) remembered detached (e : endpt) j :
  (start_transfer blobs_alpn job remembered detached e).2 = Some j ↔
    job = Some j ∧ depot_available detached e.
Proof.
  unfold start_transfer. destruct job as [j'|]; [|by split; [|intros [? _]]].
  assert ((depot_available detached (set_lookup (lookup e ++ remembered) e)) ↔ (depot_available detached e))
    as Hda by done.
  rewrite <- Hda, <- start_depot_available.
  destruct (start_depot blobs_alpn detached _) as [e' []]; cbn; naive_solver.
Qed.

(** The job of a call whose arguments parse. *)
Lemma perform_result c detached (e : endpt) :
  (is_Some (perform c detached e).2 ↔ well_formed c ∧ depot_available detached e) ∧
  ∀ j, (perform c detached e).2 = Some j →
    named j = wanted_hash c ∧ (reads j = true ↔ ∃ hash, c = ReadBlob hash).
Proof.
  assert (∀ job remembered (P : Prop),
    (is_Some job ↔ P) → (∀ j, job = Some j →
       named j = wanted_hash c ∧ (reads j = true ↔ ∃ hash, c = ReadBlob hash)) →
    (is_Some (start_transfer blobs_alpn job remembered detached e).2 ↔
       P ∧ depot_available detached e) ∧
    ∀ j, (start_transfer blobs_alpn job remembered detached e).2 = Some j →
      named j = wanted_hash c ∧ (reads j = true ↔ ∃ hash, c = ReadBlob hash)) as Hst.
  { intros job remembered P HP Hj. split.
    - rewrite <- HP. split.
      + intros [j [-> ?]%start_transfer_result]. eauto.
      + intros [[j ->] ?]. exists j. by apply start_transfer_result.
    - intros j [-> ?]%start_transfer_result. by apply Hj. }
  assert (∀ path, is_Some (global_path path) ↔ trim path ≠ "") as Hpath.
  { intros path. unfold global_path. case_decide; unfold is_Some; naive_solver. }
  destruct c as [data tag|path tag|hash providers tag|ticket tag|hash path|hash]; cbn [perform];
    unfold add_bytes, add_file, fetch_blob, export_blob, read_blob, fetch_blob_ticket;
    try (apply Hst; cbn [well_formed]).
  - unfold is_Some. naive_solver.
  - naive_solver.
  - rewrite <- Hpath. destruct (global_path path); cbn; unfold is_Some; naive_solver.
  - intros j. destruct (global_path path); cbn; naive_solver.
  - assert (is_Some (mapM parse_id providers) ↔ Forall (λ p, is_Some (parse_id p)) providers) as <-
      by apply mapM_is_Some.
    destruct (parse_hash hash); cbn; [|unfold is_Some; naive_solver].
    destruct (mapM parse_id providers); cbn; unfold is_Some; naive_solver.
  - intros j. destruct (parse_hash hash) eqn:Hh; cbn; [|done].
    destruct (mapM parse_id providers); cbn; rewrite ?Hh; naive_solver.
  - destruct (parse_blob_ticket ticket) as [[addr hash]|] eqn:Hp.
    + apply Hst; cbn; rewrite Hp; unfold is_Some; naive_solver.
    + cbn. rewrite Hp. unfold is_Some. naive_solver.
  - rewrite <- Hpath. destruct (parse_hash hash); cbn; [|unfold is_Some; naive_solver].
    destruct (global_path path); cbn; unfold is_Some; naive_solver.
  - intros j. destruct (parse_hash hash) eqn:Hh; cbn; [|done].
    destruct (global_path path); cbn; rewrite ?Hh; naive_solver.
  - destruct (parse_hash hash); cbn; unfold is_Some; naive_solver.
  - intros j. destruct (parse_hash hash) eqn:Hh; cbn; rewrite ?Hh; naive_solver.
Qed.
End requests.

Arguments Job : clear implicits.
Arguments Iroh : clear implicits.

(** ** Documents *)

Section documents.
Context {R Reg Ep Store Addr DocId DocTicket : Type}.
Context `{AlpnRegistry R Reg} `{Display Ep}.
Abbreviation endpt := (IrohEndpoint R Reg Ep Store Addr).
Variable parse_doc_id : string → option DocId.
Variable parse_doc_ticket : string → option DocTicket.
Variables gossip_alpn blobs_alpn docs_alpn : bytes.

Abbreviation Source := (Docs.Source (NamespaceId := DocId) (Ticket := DocTicket)).

Definition create_document (reactor detached : bool) (e : endpt) : endpt * option Source :=
  start_document gossip_alpn blobs_alpn docs_alpn (Some Docs.Create) reactor detached e.

Definition open_document (id : string) (reactor detached : bool) (e : endpt)
  : endpt * option Source :=
  start_document gossip_alpn blobs_alpn docs_alpn (Docs.Open <$> parse_doc_id id) reactor detached e.

Definition join_document (ticket : string) (reactor detached : bool) (e : endpt)
  : endpt * option Source :=
  start_document gossip_alpn blobs_alpn docs_alpn (Docs.JoinTicket <$> parse_doc_ticket ticket)
    reactor detached e.
End documents.

(** ** Readouts

    iroh's side of an endpoint: its address, and the texts of tickets. *)

Section readouts.
Context {R Reg Ep Store Addr Hash F Relay Transport : Type}.
Context `{AlpnRegistry R Reg} `{Display Ep} `{Display Relay} `{Display Transport}.
Abbreviation endpt := (IrohEndpoint R Reg Ep Store Addr).

Variable addr : Ep → Addr.
Variable addrs : Addr → list Transport.
Variable encode_ticket : Addr → string.
Variable encode_blob_ticket : Addr → Hash → string.
Variable hash_from_str : string → option Hash.
Variable endpoint_metrics : Ep → list (string * Stats.Item F).
(** The urls of [home_relay_status]. *)
Variable home_relay_urls : Ep → list Relay.

Definition ticket (e : endpt) : string :=
  match dispatcher e with
  | Some d => encode_ticket (addr (endpoint d))
  | None => ""
  end.

Definition blob_ticket (hash : string) (e : endpt) : string :=
  match dispatcher e, Blobs.parse_hash hash_from_str hash with
  | Some d, Some hash => encode_blob_ticket (addr (endpoint d)) hash
  | _, _ => ""
  end.

Definition get_metrics (e : endpt) : Stats.VarDictionary F :=
  match dispatcher e with
  | Some d => Stats.metrics (endpoint_metrics (endpoint d))
  | None => []
  end.

Definition home_relays (e : endpt) : list string :=
  match dispatcher e with
  | Some d => to_string <$> home_relay_urls (endpoint d)
  | None => []
  end.

Definition direct_addresses (e : endpt) : list string :=
  match dispatcher e with
  | Some d => to_string <$> addrs (addr (endpoint d))
  | None => []
  end.
End readouts.

(** ** Properties *)

(** C19: a blob call hands out an object exactly when its arguments parse and the
    blob service runs or can be started, and that object then tells one whole
    story: progress signals and exactly one outcome, whatever the store and the
    network do and however the events are spread over frames. [completed] names
    the hash the script asked for, where it named one; only [read_blob] delivers
    bytes. *)
Theorem blob_calls_report_their_job {R Reg Ep Store Addr Id Hash}
    `{AlpnRegistry R Reg} `{Display Ep} `{Display Hash}
    trim globalize parse_id hash_from_str parse_blob_ticket (addr_id : Addr → Id) blobs_alpn
    c detached (e : IrohEndpoint R Reg Ep Store Addr) :
  let out := perform trim globalize parse_id hash_from_str parse_blob_ticket addr_id blobs_alpn
               c detached e in
  (is_Some out.2 ↔
     well_formed trim parse_id hash_from_str parse_blob_ticket c ∧
     depot_available blobs_alpn detached e) ∧
  ∀ j w running (opened : Store + string) batches a,
    out.2 = Some j → mjoin batches = run_job w running opened j →
    let o := foldl (frame true) (Transfer.wrap (Hash := Hash) true (mk_chan [] a)) batches in
    (∃ ps last, Transfer.emitted o = ps ++ [last] ∧
       Forall (λ s, Transfer.outcome s = false) ps ∧ Transfer.outcome last = true ∧
       ∀ text data, last = Transfer.completed text data →
         (∀ hash, wanted_hash hash_from_str parse_blob_ticket c = Some hash → text = to_string hash) ∧
         (data ≠ [] → ∃ hash, c = ReadBlob hash)) ∧
    Transfer.is_running o = false ∧ Transfer.tick o = idle.
Proof.
  intros out.
  destruct (perform_result trim globalize parse_id hash_from_str parse_blob_ticket addr_id blobs_alpn
              c detached e) as [Hiff Hjob].
  split; [exact Hiff|]. intros j w running opened batches a Hj Hb o.
  destruct (Hjob j Hj) as [Hnamed Hreads].
  destruct (run_job_last w running opened j) as (evs & ev & Hrun & Hq & Ht & Hd).
  rewrite Hrun in Hb.
  destruct (Transfer.frames_report evs ev batches a) as ((ps & Hps & Hall) & Hend); [done..|].
  split; [|exact Hend]. exists ps, (Transfer.outcome_of ev).
  split_and!; [done..|by destruct ev|].
  intros text data Hev. destruct ev as [| |h d|]; cbn in Hev; simplify_eq.
  destruct (Hd h data eq_refl) as [Hh Hr]. split.
  - intros hash Hw. rewrite <- Hnamed in Hw. by rewrite (Hh hash Hw).
  - intros Hne. by apply Hreads, Hr.
Qed.

Lemma blob_calls_report_their_job_witness :
  let text : Display Z := λ z, pretty z in
  let e : IrohEndpoint Registry Registration Z unit Z :=
    set_dispatcher (Some (mk_dispatcher 7 start)) init in
  let world : Iroh unit Z Z :=
    mk_iroh (λ _ _, []) (λ _ _, []) (λ _ _ _, inr "") (λ _ _ _, []) (λ _ _, inl [x01]) (λ _ _ _, None) in
  let o := foldl (frame true) (Transfer.wrap (Hash := Z) true (mk_chan [] true))
             [[]; [Blobs.Done 3 [x01]]] in
  (∃ ps last, Transfer.emitted o = ps ++ [last] ∧
     Forall (λ s, Transfer.outcome s = false) ps ∧ Transfer.outcome last = true ∧
     ∀ text data, last = Transfer.completed text data →
       (∀ hash, wanted_hash (λ _, Some 3) (λ _ : string, Some (0, 3))
                  (ReadBlob (String.concat "" (replicate 64 "a"))) = Some hash →
          text = to_string hash) ∧
       (data ≠ [] → ∃ hash, ReadBlob (String.concat "" (replicate 64 "a")) = ReadBlob hash)) ∧
  Transfer.is_running o = false ∧ Transfer.tick o = idle.
Proof.
  intros text e world.
  refine (proj2 (@blob_calls_report_their_job Registry Registration Z unit Z Z Z _ text text
    (λ s, s) (λ s, s) (λ _, Some 1) (λ _, Some 3) (λ _, Some (0, 3)) (λ z, z) [x02]
    (ReadBlob (String.concat "" (replicate 64 "a"))) true e)
    (JRead 3) world true (inl tt) [[]; [Blobs.Done 3 [x01]]] true _ _); reflexivity.
Defined.

(** C33: a ticket leads back to the endpoint that wrote it. For tickets iroh
    parses back to what it was given, the ticket of a bound endpoint makes
    another one dial exactly its address and remember it under its id; its blob
    ticket makes another one remember that address and fetch that very hash
    from that very peer. An unbound endpoint's tickets are empty. *)
Theorem tickets_lead_back {R Reg Ep Store Addr Id Hash}
    `{AlpnRegistry R Reg} `{Display Ep}
    (addr : Ep → Addr) encode_ticket parse_ticket encode_blob_ticket parse_blob_ticket
    (addr_id : Addr → Id) id_text hash_from_str trim globalize parse_id blobs_alpn
    (mine other : IrohEndpoint R Reg Ep Store Addr) alpn hash h tag detached :
  (∀ a, parse_ticket (encode_ticket a) = Some a) →
  (∀ a (h : Hash), parse_blob_ticket (encode_blob_ticket a h) = Some (a, h)) →
  parse_hash hash_from_str hash = Some h →
  (∀ d, dispatcher mine = Some d →
     (∀ d', dispatcher other = Some d' → alpn ≠ [] →
        connect_to parse_ticket (ticket addr encode_ticket mine) alpn other =
          Some (endpoint d', addr (endpoint d), alpn)) ∧
     remember_peer parse_ticket id_text (ticket addr encode_ticket mine) other =
       (set_lookup (lookup other ++ [addr (endpoint d)]) other, id_text (addr (endpoint d))) ∧
     let c := FetchBlobTicket (blob_ticket addr encode_blob_ticket hash_from_str hash mine) tag in
     let out := perform trim globalize parse_id hash_from_str parse_blob_ticket addr_id blobs_alpn
                  c detached other in
     addr (endpoint d) ∈ lookup out.1 ∧
     (depot_available blobs_alpn detached other →
        out.2 = Some (JFetch h [addr_id (addr (endpoint d))] (optional trim tag)))) ∧
  (dispatcher mine = None →
     ticket addr encode_ticket mine = ""%string ∧
     blob_ticket addr encode_blob_ticket hash_from_str hash mine = ""%string).
Proof.
  intros Ht Hbt Hh. unfold parse_hash in Hh. unfold ticket, blob_ticket. rewrite Hh.
  split; [|by intros ->]. intros d ->. split_and!.
  - intros d' Hd' Hne. unfold connect_to, dial. by rewrite Ht, decide_False, Hd'.
  - unfold remember_peer. by rewrite Ht.
  - cbv zeta. cbn [perform]. unfold fetch_blob_ticket. rewrite Hbt.
    unfold start_transfer, start_depot. cbn.
    destruct (depot (services other)); cbn; [apply elem_of_app; right; left|].
    destruct (dispatcher other) as [d'|] eqn:Hd'; cbn; [|apply elem_of_app; right; left].
    destruct (Blobs.start _ _ _ _ _) as [r [s|]]; cbn; unfold set_registry; cbn; rewrite Hd';
      cbn; apply elem_of_app; right; left.
  - intros Ha. cbv zeta. cbn [perform]. unfold fetch_blob_ticket. rewrite Hbt.
    by apply start_transfer_result.
Qed.

Lemma tickets_lead_back_witness :
  let text : Display Z := λ z, pretty z in
  let mine : IrohEndpoint Registry Registration Z unit bool :=
    set_dispatcher (Some (mk_dispatcher 7 start)) init in
  let code (b : bool) : string := if b then "yes" else "no" in
  let decode (s : string) := Some (if decide (s = "yes") then true else false) in
  let hash := String.concat "" (replicate 64 "a") in
  let parse_blob s := decode s ≫= λ b, Some (b, tt) in
  connect_to decode (ticket (λ z, Z.odd z) code mine) [x61] mine = Some (7, true, [x61]) ∧
  (perform (λ s, s) (λ s, s) Some (λ _, Some tt) parse_blob code [x02]
     (FetchBlobTicket (blob_ticket (λ z, Z.odd z) (λ b _, code b) (λ _, Some tt) hash mine) "") true mine).2
    = Some (JFetch tt ["yes"] None).
Proof.
  intros text mine code decode hash parse_blob.
  assert (∀ a, decode (code a) = Some a) as Hdc by (intros []; vm_compute; reflexivity).
  assert (∀ a h, parse_blob (code a) = Some (a, h)) as Hbt by (by intros [] []).
  destruct (proj1 (@tickets_lead_back Registry Registration Z unit bool string unit _ text
    (λ z, Z.odd z) code decode (λ b _, code b) parse_blob code code (λ _, Some tt)
    (λ s, s) (λ s, s) Some [x02] mine mine [x61] hash tt "" true Hdc Hbt eq_refl)
    (mk_dispatcher 7 start) eq_refl) as (Hc & _ & _ & Hf).
  split; [apply (Hc (mk_dispatcher 7 start) eq_refl); discriminate|].
  apply Hf. right. exists (mk_dispatcher 7 start). split_and!; [done| |done]. by apply not_elem_of_empty.
Defined.
