(* ===== verification/TopicTask.v ===== *)
(** * A topic and its task, from [subscribe] to the last signal

    [subscribe] hands a script an object whose handle leads to a task on the
    runtime. Object and task are shown to be of the shape of [Attended]; what that
    gives is stated of the script's calls against iroh's, and of iroh's events
    against the signals. *)

From S2P Require Import Prelude Polled Attended.
From S2P Require Gossip Topic.
From S2P Require Import Dispatch Endpoint.

Section topic.
Context {Id : Type} `{Countable Id} {TopicId : Type} `{Display Id} `{Display TopicId}.
Abbreviation obj := (Topic.IrohTopic Id TopicId).
Abbreviation cmd := (Gossip.Command Id).
Abbreviation task := (@Gossip.Task Id _ _).

Definition orders (o : obj) : option (Chan cmd) := Gossip.commands <$> Topic.topic o.

Definition with_orders (c : Chan cmd) (o : obj) : obj :=
  match Topic.topic o with
  | Some t => Topic.set_topic (Some (Gossip.mk_topic (Gossip.id t) (Gossip.events t) c)) o
  | None => o
  end.

Definition order (c : cmd) (o : obj) : obj * bool := Topic.commanding (Gossip.command c) o.

Definition takes (i : Gossip.Input Id) : option (option cmd) :=
  match i with Gossip.OnCommand c _ => Some c | _ => None end.

Definition own (i : Gossip.Input Id) : bool :=
  match i with Gossip.OnIncoming _ => true | _ => false end.

Lemma topic_told_grows (t : task) i : Gossip.sent t `prefix_of` Gossip.sent (Gossip.step t i).
Proof.
  destruct i as [[c|] [err|]|[[[]|]|]|], t as [sent ns calls [] []]; cbn; try done; by apply prefix_app_r.
Qed.

Lemma topic_alive_stops (t : task) i : Gossip.running t = false →
  Gossip.running (Gossip.step t i) = false ∧ Gossip.sent (Gossip.step t i) = Gossip.sent t.
Proof. destruct i as [[c|] [err|]|[[[]|]|]|], t as [sent ns calls [] []]; by cbn. Qed.

#[global] Program Instance topic_attended :
  Attended obj (Gossip.Event Id) Topic.Signal cmd task (Gossip.Input Id) (option string) := {|
  Attended.orders := orders;
  Attended.with_orders := with_orders;
  signal := Topic.signal_of;
  Attended.order := order;
  let_go := Topic.leave;
  work := Gossip.step;
  told := Gossip.sent;
  alive := Gossip.running;
  on_command out c := Gossip.OnCommand c out;
  Attended.takes := takes;
  Attended.own := own;
  listened := Gossip.held;
  handle_dropped := Gossip.DropHandle;
  Attended.told_grows := topic_told_grows;
  Attended.alive_stops := topic_alive_stops;
|}.
Solve All Obligations with
  (intros; repeat match goal with
                  | o : Topic.IrohTopic _ _ |- _ => destruct o as [[[? ? [? []]]|] ? ?]
                  | H : is_Some _ |- _ => by destruct H
                  | e : Gossip.Event Id |- _ => destruct e
                  | i : Gossip.Input Id |- _ => destruct i
                  | t : task |- _ => destruct t as [? ? ? [] []]
                  | c : option cmd |- _ => destruct c
                  | out : option string |- _ => destruct out
                  | e : option (Gossip.SwarmEvent + string) |- _ => destruct e as [[[]|]|]
                  | |- _ ↔ _ => split
                  end; cbn in *; simplify_eq; try done; eauto).
(** ** What the task was asked to do *)

Lemma calls_step (t : task) i :
  (is_Some (takes i) → Gossip.running t = true) →
  Gossip.calls (Gossip.step t i) = Gossip.calls t ++ option_list (mjoin (takes i)).
Proof.
  destruct t as [? ? ? hd []]; cbn; intros Hi.
  - destruct i as [[c|] [err|]|[[[]|]|]|], hd; cbn; by rewrite ?app_nil_r.
  - destruct i as [[c|] out|[[[]|]|]|]; cbn in *; rewrite ?app_nil_r; try done;
      discriminate Hi; eauto.
Qed.

Lemma calls_taken subscribed (ins : list (Gossip.Input Id)) :
  taken_alive (Gossip.begin subscribed : task) ins →
  Gossip.calls (foldl Gossip.step (Gossip.begin subscribed) ins) = taken ins.
Proof.
  induction ins as [|i ins IH] using rev_ind; intros Hal; [by destruct subscribed|].
  apply taken_alive_inv in Hal as [Hal Hi]. rewrite foldl_snoc, taken_snoc, <- (IH Hal).
  by apply calls_step.
Qed.

(** ** The methods of the object are orders *)

Lemma topic_methods_are_orders (o : obj) data :
  Topic.broadcast data o = order (Gossip.Broadcast data) o ∧
  Topic.broadcast_neighbors data o = order (Gossip.BroadcastNeighbors data) o ∧
  ∀ parse peers, Topic.join_peers parse peers o =
    match mapM parse peers with
    | Some parsed => order (Gossip.Join parsed) o
    | None => (o, false)
    end.
Proof.
  split_and!; [done..|]. intros parse peers. unfold Topic.join_peers, order, Topic.commanding, Gossip.join.
  destruct (Topic.topic o); by destruct (mapM parse peers).
Qed.

Lemma topic_begin_listened subscribed : Gossip.held (Gossip.begin subscribed : task) = true.
Proof. by destruct subscribed. Qed.

Lemma wrapped_source tree tid detached :
  is_Some (source (Topic.wrap tree (Gossip.subscribe tid detached) : obj)) ∧
  Topic.emitted (Topic.wrap tree (Gossip.subscribe tid detached) : obj) = [].
Proof. cbn. eauto. Qed.

(** ** What holds of a topic *)

(** A topic and its task; [subscribed] is why [gossip.subscribe] failed, if it
    did. *)
Definition run (subscribed : option string) (o : obj) (ls : list Label) :
    Pair (Obj := obj) (Ev := Gossip.Event Id) (Cmd := cmd) (Task := task) (In := Gossip.Input Id) :=
  pair_run (Gossip.begin subscribed) (pair_start o) ls.

Lemma topic_pair subscribed (o : obj) ls t :
  is_Some (source o) → Topic.emitted o = [] →
  let s := run subscribed o ls in
  Attended.task s = Some t →
  let gone := negb (Attended.held s) in
  Gossip.calls t `prefix_of` accepted s ∧
  (Gossip.running t = true → Gossip.calls t ++ queue (commands s) = accepted s) ∧
  Topic.emitted (object s) = Topic.signal_of <$> heard s ∧
  heard s `prefix_of` Gossip.sent t ∧
  (gone = false →
     heard s ++ queue (events s) = Gossip.sent t ∧ existsb Gossip.terminal (heard s) = false ∧
     Gossip.neighbors t = Gossip.neighbors_after (heard s ++ queue (events s)) ∧
     (Gossip.running t = false → existsb Gossip.terminal (queue (events s)) = true)) ∧
  (Forall (λ l, lets_go l = false) ls → gone = existsb Gossip.terminal (heard s)).
Proof.
  intros Hsrc He s Htask gone.
  pose proof (pair_run_ok _ (topic_begin_listened subscribed) o ls Hsrc) as Hok.
  fold (run subscribed o ls) in Hok. fold s in Hok.
  pose proof Hok as [Ht Hc Hr Hev Hh Hq Hli Hn Hal Hs].
  unfold told_so_far in Hh, Hq. rewrite Htask in Ht, Hr, Hh, Hq, Hli. cbn in Ht.
  assert (Gossip.calls t = taken (inputs s)) as Hcalls by (rewrite Ht; by apply calls_taken).
  pose proof (Gossip.topic_ok_run subscribed (inputs s)) as Hto.
  change (Gossip.run subscribed (inputs s)) with (foldl Gossip.step (Gossip.begin subscribed) (inputs s)) in Hto.
  rewrite <- Ht in Hto. destruct Hto as [Hl (live & last & Hsent & Hlive & Hlast) Hnb].
  split_and!.
  - rewrite Hcalls. destruct (receiver_alive (commands s)); [rewrite Hc; by apply prefix_app_r|by destruct Hc].
  - intros Hrun. change (receiver_alive (commands s) = Gossip.running t) in Hr. rewrite Hrun in Hr.
    rewrite Hr in Hc. by rewrite Hcalls.
  - cbn in Hs. by rewrite Hs, He.
  - done.
  - subst gone. intros Hheld%negb_false_iff. change (Gossip.held t = Attended.held s) in Hli.
    rewrite Hheld in Hli. specialize (Hq Hheld). specialize (Hn Hheld). cbn in Hq.
    split_and!; [done|done|by rewrite Hq, Hnb|]. intros Hrun.
    destruct (Hlast Hrun Hli) as (e & -> & Hterm). cbn in Hsent.
    assert (existsb Gossip.terminal (Gossip.sent t) = true) as Hend.
    { rewrite Hsent, existsb_app. cbn. by rewrite Hterm, orb_true_r. }
    rewrite <- Hq, existsb_app in Hend. change (existsb Gossip.terminal (heard s) = false) in Hn.
    by rewrite Hn in Hend.
  - intros Hls. pose proof (pair_run_held _ (topic_begin_listened subscribed) o ls Hsrc Hls) as Hd.
    cbv zeta in Hd.
    fold (run subscribed o ls) in Hd. fold s in Hd. subst gone. rewrite Hd, negb_involutive. done.
Qed.

Lemma topic_settled subscribed (o : obj) ls :
  is_Some (source o) → Topic.emitted o = [] →
  let s := run subscribed o ls in
  running s = true → Attended.held s = true →
  let s' := run subscribed o (ls ++ settling None s) in
  accepted s' = accepted s ∧
  ∃ t, Attended.task s' = Some t ∧ Gossip.calls t = accepted s ∧
    Topic.emitted (object s') = Topic.signal_of <$> Gossip.sent t.
Proof.
  intros Hsrc He s Hrun Hheld s'.
  destruct (pair_settles (H0 := topic_attended) _ (topic_begin_listened subscribed) o ls None Hsrc)
    as (Hr & Ha & Hk & Hh & Hs & Hgone);
    [by intros t c Ht; cbn in *; rewrite Ht|done|done|].
  fold (run subscribed o ls) in *. fold s in Hr, Ha, Hk, Hh, Hs, Hgone.
  fold (run subscribed o (ls ++ settling None s)) in *. fold s' in Hr, Ha, Hk, Hh, Hs, Hgone.
  split; [done|]. unfold running, told_so_far in *. cbn in Hs. rewrite He in Hs.
  pose proof (pair_run_ok _ (topic_begin_listened subscribed) o (ls ++ settling None s) Hsrc) as Hok.
  fold (run subscribed o (ls ++ settling None s)) in Hok. fold s' in Hok.
  pose proof (ok_task _ _ _ _ Hok) as Ht. destruct (Attended.task s') as [t|]; [|done].
  exists t. split_and!; [done| |done].
  rewrite Ht, <- Ha, Hk. apply calls_taken. apply (ok_alive _ _ _ _ Hok).
Qed.

(** A topic whose task the runtime dropped before its last word: whatever frames pass
    and whatever the script calls, it keeps its handle and its frame subscription,
    says neither that it lagged nor that it closed, and takes no more commands. *)
Lemma orphaned_topic subscribed (o : obj) ls ks :
  is_Some (source o) → Topic.emitted o = [] →
  Forall (λ l, by_script l = true) ks → Forall (λ l, lets_go l = false) (ls ++ ks) →
  let s := run subscribed o ls in
  existsb Gossip.terminal (told_so_far s) = false →
  let s' := pair_run (Gossip.begin subscribed) (kill s) ks in
  is_Some (Topic.topic (object s')) ∧ accepted s' = accepted s ∧
  Topic.emitted (object s') = Topic.signal_of <$> heard s' ∧ existsb Gossip.terminal (heard s') = false.
Proof.
  intros Hsrc He Hks Hls s Hend s'.
  destruct (orphaned (H0 := topic_attended) _ (topic_begin_listened subscribed) o ls ks Hsrc Hks) as (Ha & Hs & [k Hh] & Hq & Hk).
  fold (run subscribed o ls) in Ha, Hs, Hh, Hq, Hk. fold s in Ha, Hs, Hh, Hq, Hk. fold s' in Ha, Hs, Hh, Hq, Hk.
  split_and!; [|done|by cbn in Hs; rewrite Hs, He|].
  - specialize (Hk Hls Hend). apply held_spec in Hk. by apply fmap_is_Some in Hk.
  - rewrite Hh, existsb_app in Hend. by apply orb_false_iff in Hend as [? _].
Qed.

(** ** Handing out the object *)

Context {R Reg Ep Store Addr : Type} `{AlpnRegistry R Reg}.
Abbreviation endpt := (IrohEndpoint R Reg Ep Store Addr).
Variable gossip_alpn : bytes.
Variable topic_id : string → TopicId.
Variable parse : string → option Id.

(** [subscribe]; [running] is whether the runtime takes the topic's task. *)
Definition subscribe (reactor detached running tree : bool) (topic : string) (bootstrap : list string)
    (e : endpt) : endpt * option obj :=
  let '(e, r) := Endpoint.subscribe gossip_alpn topic_id parse reactor detached topic bootstrap e in
  (e, (λ '(tid, _), Topic.wrap tree (Gossip.subscribe tid running)) <$> r).

Definition swarm_available (reactor detached : bool) (e : endpt) : Prop :=
  is_Some (swarm (services e)) ∨
  ∃ d, dispatcher e = Some d ∧ (gossip_alpn ∉ Dispatch.held (registry d)) ∧ reactor && detached = true.

Lemma start_swarm_available reactor detached (e : endpt) :
  (start_swarm gossip_alpn reactor detached e).2 = true ↔ swarm_available reactor detached e.
Proof.
  unfold start_swarm, swarm_available. destruct (swarm (services e)) as [sw|]; [by split; eauto|].
  destruct (dispatcher e) as [d|] eqn:Hd; [|split; [done|by intros [[]|(? & ? & _)]]].
  unfold Gossip.start. destruct (register gossip_alpn (registry d)) as [r [g|]] eqn:Hr.
  - apply register_some in Hr as (Hf & _).
    destruct (reactor && detached); cbn; split; intros Hx; try done; [by right; exists d|].
    by destruct Hx as [[]|(? & _ & _ & ?)].
  - apply register_none in Hr as [Hin _]. cbn. split; [done|].
    intros [[]|(? & [= <-] & ? & _)]; done.
Qed.

Lemma subscribe_result reactor detached running tree topic bootstrap (e : endpt) :
  let out := (subscribe reactor detached running tree topic bootstrap e).2 in
  (is_Some out ↔
     is_Some (dispatcher e) ∧ is_Some (mapM parse bootstrap) ∧ swarm_available reactor detached e) ∧
  ∀ o, out = Some o → o = Topic.wrap tree (Gossip.subscribe (topic_id topic) running).
Proof.
  unfold subscribe, Endpoint.subscribe. pose proof (start_swarm_available reactor detached e) as Ha.
  destruct (dispatcher e) as [d|]; [|split; [|done]; unfold is_Some; naive_solver].
  destruct (mapM parse bootstrap) as [peers|]; [|split; [|done]; unfold is_Some; naive_solver].
  destruct (start_swarm gossip_alpn reactor detached e) as [e' []]; cbn in *.
  - split; [|by intros o [= <-]]. split; [|eauto]. intros _. split_and!; eauto. by apply Ha.
  - split; [|done]. split; [by intros []|]. intros (_ & _ & Hx). by apply Ha in Hx.
Qed.
End topic.

(** ** Properties *)

(** C17: a topic, from [subscribe] to its last signal. [subscribe] hands out an
    object exactly when the endpoint is bound, every bootstrap id parses and the
    swarm runs or can be started. From there, whatever the script, the frames,
    the task and iroh do, in any interleaving: each broadcast and join that
    answered [true] reaches iroh once and in that order, until the topic ends;
    the signals are the task's events, in order, none lost as long as the script
    keeps the object; what the script reads as neighbours is what the events
    add up to; if the task returns while the object is kept, its last word
    waits in the queue; and the object gives up its handle only for that last
    word or because the script left. *)
Theorem subscription_carries_both_ways {Id} `{Countable Id} {TopicId} `{Display Id} `{Display TopicId}
    {R Reg Ep Store Addr} `{AlpnRegistry R Reg} gossip_alpn (topic_id : string → TopicId)
    (parse : string → option Id) reactor detached tree topic bootstrap (e : IrohEndpoint R Reg Ep Store Addr) :
  let out := (subscribe gossip_alpn topic_id parse reactor detached true tree topic bootstrap e).2 in
  (is_Some out ↔
     is_Some (dispatcher e) ∧ is_Some (mapM parse bootstrap) ∧
     swarm_available gossip_alpn reactor detached e) ∧
  ∀ o subscribed ls t,
    out = Some o →
    let s := run subscribed o ls in
    Attended.task s = Some t →
    let kept := is_Some (Topic.topic (object s)) in
    Topic.get_topic_id o = to_string (topic_id topic) ∧
    Gossip.calls t `prefix_of` accepted s ∧
    (Gossip.running t = true → Gossip.calls t ++ queue (commands s) = accepted s) ∧
    Topic.emitted (object s) = Topic.signal_of <$> heard s ∧
    heard s `prefix_of` Gossip.sent t ∧
    (kept →
       heard s ++ queue (events s) = Gossip.sent t ∧ existsb Gossip.terminal (heard s) = false ∧
       Gossip.neighbors t = Gossip.neighbors_after (heard s ++ queue (events s)) ∧
       (Gossip.running t = false → existsb Gossip.terminal (queue (events s)) = true)) ∧
    (Forall (λ l, lets_go l = false) ls → ¬ kept → existsb Gossip.terminal (heard s) = true).
Proof.
  intros out.
  destruct (subscribe_result gossip_alpn topic_id parse reactor detached true tree topic bootstrap e)
    as [Hiff Hout].
  split; [exact Hiff|]. intros o subscribed ls t Ho s Htask kept.
  specialize (Hout o Ho).
  assert (is_Some (source o) ∧ Topic.emitted o = []) as [Hsrc He] by (rewrite Hout; apply wrapped_source).
  destruct (topic_pair subscribed o ls t Hsrc He Htask) as (Hc & Hrc & Hs & Hh & Hk & Hg).
  assert (kept ↔ negb (Attended.held s) = false) as Hkept.
  { rewrite negb_false_iff, held_spec. symmetry. apply fmap_is_Some. }
  split_and!; try done.
  - by rewrite Hout.
  - intros Hx%Hkept. by apply Hk.
  - intros Hls Hx. etrans; [symmetry; exact (Hg Hls)|]. apply not_false_iff_true.
    intros E. by apply Hx, Hkept.
Qed.

Lemma subscription_carries_both_ways_witness :
  let text : Display Z := λ z, pretty z in
  let e : IrohEndpoint Registry Registration Z unit Z :=
    set_dispatcher (Some (mk_dispatcher 7 start)) init in
  let o := Topic.wrap (Id := Z) true (Gossip.subscribe (3 : Z) true) in
  let ls :=
    [Order (Gossip.Broadcast [x61]); Start; TakeCommand None;
     Works (Gossip.OnIncoming (Some (inl (Gossip.SwarmNeighborUp 5)))); Frame true;
     Order (Gossip.Join [5]); Works (Gossip.OnIncoming (Some (inl Gossip.SwarmLagged))); Frame true] in
  let s := run None o ls in
  is_Some (subscribe [x01] (λ _, 3) (λ _, Some 5) true true true true "chat" [] e).2 ∧
  ∃ t, Attended.task s = Some t ∧
    Gossip.calls t `prefix_of` accepted s ∧ Topic.emitted (object s) = Topic.signal_of <$> heard s ∧
    heard s `prefix_of` Gossip.sent t ∧ existsb Gossip.terminal (heard s) = true.
Proof.
  intros text e o ls s.
  destruct (@subscription_carries_both_ways Z _ _ Z text text Registry Registration Z unit Z _ [x01] (λ _, 3)
    (λ _, Some 5) true true true "chat" [] e) as [_ Hall].
  split; [vm_compute; eauto|]. eexists. split; [vm_compute; reflexivity|].
  edestruct (Hall o None ls) as (_ & Hc & _ & Hs & Hh & _ & Hg); [reflexivity|vm_compute; reflexivity|].
  split; [exact Hc|]. split; [exact Hs|]. split; [exact Hh|].
  apply Hg; [repeat constructor|]. vm_compute. by intros [? [=]].
Defined.
