(* ===== verification/DocTask.v ===== *)
(** * A document and its task, from the call that opens it to the last signal

    [create_document], [open_document] and [join_document] hand a script an object
    whose handle leads to a task on the runtime. Object and task are shown to be
    of the shape of [Attended]; what that gives is stated of the script's questions
    against the answers it hears. *)

From S2P Require Import Prelude Polled Attended.
From S2P Require Docs Document Requests TopicTask.
From S2P Require Import Dispatch Endpoint.

Section document.
Context {N A P H Addr : Type} `{Display N} `{Display A} `{Display P} `{Display H}.
Variable utf8_lossy : bytes → string.
(** The author the task writes as. *)
Variable me : A.
Abbreviation obj := (Document.IrohDocument N A P H Addr).
Abbreviation ev := (Docs.Event N A P H).
Abbreviation cmd := (Docs.Command Addr).
Abbreviation task := (Docs.Task (NamespaceId := N) (AuthorId := A) (PublicKey := P) (Hash := H)).
Abbreviation input := (Docs.Input A P H Addr).
Abbreviation engine := (Docs.Engine (AuthorId := A) (Hash := H) (Addr := Addr)).

Definition orders (o : obj) : option (Chan cmd) := Docs.commands <$> Document.document o.

Definition with_orders (c : Chan cmd) (o : obj) : obj :=
  match Document.document o with
  | Some d =>
      Document.mk_iroh_document (Some (Docs.mk_document (Docs.events d) c)) (Document.id o)
        (Document.tick o) (Document.emitted o)
  | None => o
  end.

Definition order (c : cmd) (o : obj) : obj * bool := Document.requesting (Docs.command c) o.

Definition takes (i : input) : option (option cmd) :=
  match i with Docs.OnCommand _ c => Some c | _ => None end.

Definition own (i : input) : bool := match i with Docs.OnUpdate _ => true | _ => false end.

Definition step (t : task) (i : input) : task := Docs.step me t i.

Lemma document_told_grows (t : task) i : Docs.sent t `prefix_of` Docs.sent (step t i).
Proof.
  destruct t as [sent [] [] cl], i as [e [c|]|[[u|]|]|]; cbn; try done;
    try (by apply prefix_app_r);
    try (destruct (Docs.apply e me c) as [[]|]; cbn; done || by apply prefix_app_r);
    unfold Docs.report; destruct (Docs.translate u); cbn; done || by apply prefix_app_r.
Qed.

Lemma document_alive_stops (t : task) i : Docs.running t = false →
  Docs.running (step t i) = false ∧ Docs.sent (step t i) = Docs.sent t.
Proof. destruct t as [sent hd [] cl], i as [e [c|]|[[u|]|]|]; by cbn. Qed.

(** Only [DropHandle] takes the task's listener away. *)
Lemma listened_step (t : task) i : i ≠ Docs.DropHandle → Docs.held (step t i) = Docs.held t.
Proof.
  destruct t as [sent [] [] cl], i as [e [c|]|[[u|]|]|]; cbn; try done; intros _;
    try (destruct (Docs.apply e me c) as [[]|]; done);
    unfold Docs.report; by destruct (Docs.translate u).
Qed.

Lemma listened_own (t : task) i : own i = true → Docs.held (step t i) = Docs.held t.
Proof. intros Hi. apply listened_step. by intros ->. Qed.

Lemma listened_command (t : task) e c : Docs.held (step t (Docs.OnCommand e c)) = Docs.held t.
Proof. by apply listened_step. Qed.

#[local] Instance polled : Polled obj ev Document.Signal := Document.document_polled utf8_lossy.

#[global] Program Instance document_attended :
  Attended obj ev Document.Signal cmd task input engine := {|
  Attended.orders := orders;
  Attended.with_orders := with_orders;
  signal := Document.signal_of utf8_lossy;
  Attended.order := order;
  let_go := Document.close;
  work := step;
  told := Docs.sent;
  alive := Docs.running;
  listened := Docs.held;
  on_command e c := Docs.OnCommand e c;
  Attended.takes := takes;
  Attended.own := own;
  handle_dropped := Docs.DropHandle;
  Attended.told_grows := document_told_grows;
  Attended.alive_stops := document_alive_stops;
  Attended.listened_command := listened_command;
  Attended.listened_own := listened_own;
|}.
Solve All Obligations with
  (intros; repeat match goal with
                  | o : Document.IrohDocument _ _ _ _ _ |- _ => destruct o as [[[? [? []]]|] ? ? ?]
                  | H : is_Some _ |- _ => by destruct H
                  | e : Docs.Event _ _ _ _ |- _ => destruct e
                  | i : input |- _ => destruct i
                  | |- _ ↔ _ => split
                  end; cbn in *; simplify_eq; try done; eauto).

(** ** The methods of the object are orders *)

Lemma document_methods_are_orders (o : obj) k v w :
  Document.set k v o = order (Docs.Set_ k v) o ∧ Document.delete_prefix k o = order (Docs.Delete k) o ∧
  Document.read k o = order (Docs.Read k) o ∧ Document.list_keys k o = order (Docs.ListKeys k) o ∧
  Document.request_status o = order Docs.GetStatus o ∧ Document.share w o = order (Docs.Share w) o ∧
  Document.leave o = order Docs.Leave o ∧
  ∀ parse peers, Document.join_peers parse peers o =
    match mapM parse peers with
    | Some parsed => order (Docs.Join parsed) o
    | None => (o, false)
    end.
Proof.
  split_and!; [done..|]. intros parse peers.
  unfold Document.join_peers, order, Document.requesting, Docs.join.
  destruct (Document.document o); by destruct (mapM parse peers).
Qed.

(** ** What holds of a document *)

(** A document and its task. *)
Definition run (s : Docs.Startup N A) (o : obj) (ls : list Label) :
    Pair (Obj := obj) (Ev := ev) (Cmd := cmd) (Task := task) (In := input) :=
  pair_run (Docs.begin s : task) (pair_start o) ls.

Lemma document_begin_listened (s : Docs.Startup N A) : Docs.held (Docs.begin s : task) = true.
Proof. by destruct s as [[[]|] [id|] [a|] [[]|] [[]|]]. Qed.

Lemma asked_taken (ins : list input) : Docs.asked ins = omap Docs.question_of (taken ins).
Proof.
  unfold Docs.asked, taken. induction ins as [|i ins IH]; [done|].
  destruct i as [e [c|]|u|]; cbn; [|done..]. destruct (Docs.question_of c); cbn; [by f_equal|done].
Qed.

Lemma answers_app (l k : list ev) : Docs.answers (l ++ k) = Docs.answers l ++ Docs.answers k.
Proof. apply omap_app. Qed.

(** What the task's own theorem says of its answers, whether or not it ever
    entered its loop. *)
Lemma task_answers s ins :
  match Docs.default_author s with inl a => a = me | inr _ => True end →
  let t := foldl step (Docs.begin s : task) ins in
  Docs.answers (Docs.sent t) `prefix_of` Docs.asked ins ∧
  (Docs.running t = true → Docs.held t = true → Docs.answers (Docs.sent t) = Docs.asked ins) ∧
  (Docs.running t = true → existsb Docs.terminal (Docs.sent t) = false) ∧
  (Docs.running t = false → Docs.held t = true → existsb Docs.terminal (Docs.sent t) = true) ∧
  Forall (λ e, Docs.opens e = false) (tail (Docs.sent t)).
Proof.
  intros Hme t. destruct (Docs.begin_cases (PublicKey := P) (Hash := H) s) as [Hst|(id & me' & Hd & Ha & Hok)].
  - destruct (Docs.stillborn_run me _ ins Hst) as (Hs & Hr & Hc).
    change (foldl (Docs.step me) (Docs.begin s) ins) with t in Hs, Hr.
    destruct Hst as (_ & _ & Hst). rewrite Hs, Hr.
    destruct Hst as [(err & ->)|(id & err & ->)]; cbn; (split_and!; [apply prefix_nil|done..|by repeat constructor]).
  - rewrite Ha in Hme. subst me'. apply (Docs.doc_ok_run id me [] _ ins) in Hok.
    change (foldl (Docs.step me) (Docs.begin s) ins) with t in Hok.
    destruct Hok as [(live & last & Hs & Hl & Hlast & Hr & Hh) [Hp Han] _]. split_and!; [done|done| | |].
    + intros Hrun. rewrite Hs, (Hr Hrun). cbn. rewrite app_nil_r. clear -Hl.
      induction Hl as [|e live He _ IH]; [done|]. cbn. rewrite IH. by destruct e.
    + intros Hrun Hheld. destruct (Hh Hrun Hheld) as [e ->]. rewrite Hs.
      change (Docs.Opened id :: live ++ option_list (Some e)) with ((Docs.Opened id :: live) ++ [e]).
      rewrite existsb_app. cbn. by rewrite (Hlast e eq_refl), orb_true_r.
    + rewrite Hs. cbn. apply Forall_app_2; [eapply Forall_impl; [exact Hl|]; by intros []|].
      destruct last as [e|]; constructor; [|done]. specialize (Hlast e eq_refl). by destruct e.
Qed.

Lemma object_id s (o : obj) ls :
  Forall (λ e, Docs.opens e = false) (tail (heard (run s o ls))) →
  Document.id (object (run s o ls)) =
    match head (heard (run s o ls)) with Some (Docs.Opened i) => to_string i | _ => Document.id o end.
Proof.
  intros Ht. unfold run in *.
  set (upd := λ (v : string) (e : ev), match e with Docs.Opened i => to_string i | _ => v end).
  pose proof (view_run (H0 := document_attended) (Docs.begin s : task) Document.id upd) as Hview.
  rewrite Hview; [|by intros tree u []|by intros c [[] ? ? ?]|by intros c [[] ? ? ?]|done].
  destruct (heard _) as [|e es]; [done|]. cbn in *. clear Hview.
  assert (∀ v, foldl upd v es = v) as ->; [|by destruct e].
  induction Ht as [|x es Hx _ IH]; intros v; [done|]. cbn. rewrite IH. by destruct x.
Qed.

Lemma document_pair s (o : obj) ls t :
  is_Some (source o) → Document.emitted o = [] → Document.id o = "" →
  match Docs.default_author s with inl a => a = me | inr _ => True end →
  let s' := run s o ls in
  Attended.task s' = Some t →
  Document.emitted (object s') = Document.signal_of utf8_lossy <$> heard s' ∧
  heard s' `prefix_of` Docs.sent t ∧
  Document.id (object s') = (match head (heard s') with Some (Docs.Opened i) => to_string i | _ => "" end) ∧
  Docs.answers (heard s') `prefix_of` omap Docs.question_of (accepted s') ∧
  (Attended.held s' = true →
     heard s' ++ queue (events s') = Docs.sent t ∧ existsb Docs.terminal (heard s') = false ∧
     (Docs.running t = true →
        Docs.answers (heard s') ++ Docs.answers (queue (events s')) ++ omap Docs.question_of (queue (commands s'))
          = omap Docs.question_of (accepted s')) ∧
     (Docs.running t = false → existsb Docs.terminal (queue (events s')) = true)) ∧
  (Forall (λ l, lets_go l = false) ls → Attended.held s' = negb (existsb Docs.terminal (heard s'))).
Proof.
  intros Hsrc He Hid Hme s' Htask.
  pose proof (pair_run_ok (H0 := document_attended) (Docs.begin s : task) (document_begin_listened s) o ls Hsrc) as Hok.
  fold (run s o ls) in Hok. fold s' in Hok. pose proof Hok as [Ht Hc Hr Hev Hh Hq Hli Hn Hal Hs].
  unfold told_so_far in Hh, Hq. rewrite Htask in Ht, Hr, Hh, Hq, Hli.
  destruct (task_answers s (inputs s') Hme) as (Hp & Hall & _ & Hlast & Hop). cbv zeta in *.
  change (foldl step (Docs.begin s) (inputs s')) with (foldl work (Docs.begin s : task) (inputs s')) in *.
  rewrite <- Ht in Hp, Hall, Hlast, Hop. rewrite asked_taken in Hp, Hall.
  assert (omap Docs.question_of (taken (inputs s')) `prefix_of` omap Docs.question_of (accepted s')) as Htk.
  { destruct (receiver_alive (commands s')).
    - rewrite Hc, omap_app. by apply prefix_app_r.
    - destruct Hc as [_ [k ->]]. rewrite omap_app. by apply prefix_app_r. }
  change (Docs.held t = Attended.held s') in Hli. change (receiver_alive (commands s') = Docs.running t) in Hr.
  split_and!.
  - cbn in Hs. by rewrite Hs, He.
  - done.
  - destruct Hh as [k Hk]. cbn in Hk. rewrite Hk in Hop. unfold s' in *. rewrite object_id, Hid; [done|].
    clear -Hop. destruct (heard _); [by constructor|]. cbn in *. by apply Forall_app in Hop as [? _].
  - etrans; [|etrans; [exact Hp|exact Htk]]. destruct Hh as [k Hk]. cbn in Hk. rewrite Hk, answers_app.
    by apply prefix_app_r.
  - intros Hd. specialize (Hq Hd). specialize (Hn Hd). rewrite Hd in Hli. cbn in Hq.
    split_and!; [done|done| |].
    + intros Hrun. rewrite Hrun in Hr. rewrite Hr in Hc.
      by rewrite app_assoc, <- answers_app, Hq, Hall, Hc, omap_app.
    + intros Hrun. specialize (Hlast Hrun Hli). rewrite <- Hq, existsb_app in Hlast.
      change (existsb Docs.terminal (heard s') = false) in Hn. by rewrite Hn in Hlast.
  - intros Hls. exact (pair_run_held (H0 := document_attended) _ (document_begin_listened s) o ls Hsrc Hls).
Qed.

Lemma document_settled s (o : obj) ls (e : engine) :
  is_Some (source o) → Document.emitted o = [] →
  match Docs.default_author s with inl a => a = me | inr _ => True end →
  (∀ c, ∃ answer : option ev, Docs.apply e me c = inl answer) →
  let s' := run s o ls in
  running s' = true → Attended.held s' = true →
  let s'' := run s o (ls ++ settling e s') in
  accepted s'' = accepted s' ∧
  Document.emitted (object s'') = Document.signal_of utf8_lossy <$> heard s'' ∧
  Docs.answers (heard s'') = omap Docs.question_of (accepted s').
Proof.
  intros Hsrc He Hme Hgood s' Hrun Hheld s''.
  destruct (pair_settles (H0 := document_attended) _ (document_begin_listened s) o ls e Hsrc)
    as (Hr & Ha & Hk & Hh & Hs & Hgone);
    [|done|done|].
  { intros t c Ht. cbn in *. unfold step. cbn. rewrite Ht. destruct (Hgood c) as [[x|] ->]; [|done].
    unfold Docs.emit. by destruct (Docs.held t). }
  fold (run s o ls) in *. fold s' in Hr, Ha, Hk, Hh, Hs, Hgone.
  fold (run s o (ls ++ settling e s')) in *. fold s'' in Hr, Ha, Hk, Hh, Hs, Hgone.
  pose proof (pair_run_ok (H0 := document_attended) _ (document_begin_listened s) o (ls ++ settling e s') Hsrc) as Hok.
  fold (run s o (ls ++ settling e s')) in Hok. fold s'' in Hok.
  unfold running, told_so_far in *. cbn in Hs. rewrite He in Hs.
  pose proof (ok_task _ _ _ _ Hok) as Ht. pose proof (ok_listened _ _ _ _ Hok) as Hli.
  destruct (Attended.task s'') as [t|]; [|done].
  destruct (task_answers s (inputs s'') Hme) as (_ & Hall & Hlive & _). cbv zeta in Hall, Hlive.
  change (foldl step (Docs.begin s) (inputs s'')) with (foldl work (Docs.begin s : task) (inputs s'')) in Hall, Hlive.
  rewrite <- Ht in Hall, Hlive. specialize (Hlive Hr). rewrite asked_taken, <- Hk, Ha in Hall.
  split_and!; [done|by rewrite Hs, Hh|]. rewrite Hh. apply Hall; [done|].
  change (Docs.held t = Attended.held s'') in Hli. rewrite Hli.
  destruct (Attended.held s''); [done|]. specialize (Hgone eq_refl). rewrite Hh in Hgone.
  change (existsb Docs.terminal (Docs.sent t) = true) in Hgone. by rewrite Hlive in Hgone.
Qed.

(** [Opened] names the document the task opened. *)
Lemma opened_is_the_document s ins i :
  head (Docs.sent (foldl step (Docs.begin s : task) ins)) = Some (Docs.Opened i) → Docs.doc s = inl i.
Proof.
  assert (∃ x es, Docs.sent (Docs.begin s : task) = x :: es ∧ (∀ i, x = Docs.Opened i → Docs.doc s = inl i))
    as (x & es & Hb & Hx).
  { destruct s as [[[]|] [id|] [a|] [[]|] [[]|]]; cbn; do 2 eexists; (split; [done|]); by intros j [= <-]. }
  assert (Docs.sent (Docs.begin s : task) `prefix_of` Docs.sent (foldl step (Docs.begin s) ins)) as [k ->].
  { generalize (Docs.begin s : task). induction ins as [|j ins IH]; intros u; [done|].
    cbn. etrans; [apply document_told_grows|apply IH]. }
  rewrite Hb. cbn. intros [= ->]. by apply Hx.
Qed.

Lemma opened_first s (o : obj) ls t i :
  is_Some (source o) → Attended.task (run s o ls) = Some t →
  head (heard (run s o ls)) = Some (Docs.Opened i) → Docs.doc s = inl i.
Proof.
  intros Hsrc Htask Hi.
  pose proof (pair_run_ok (H0 := document_attended) (Docs.begin s : task) (document_begin_listened s) o ls Hsrc) as Hok.
  fold (run s o ls) in Hok. pose proof (ok_task _ _ _ _ Hok) as Ht. pose proof (ok_heard _ _ _ _ Hok) as [k Hk].
  unfold told_so_far in Hk. rewrite Htask in Ht, Hk.
  apply (opened_is_the_document s (inputs (run s o ls)) i).
  change (foldl step (Docs.begin s) (inputs (run s o ls)))
    with (foldl work (Docs.begin s : task) (inputs (run s o ls))).
  rewrite <- Ht. change (told t) with (Docs.sent t) in Hk. rewrite Hk. by destruct (heard _).
Qed.

End document.

(** ** Handing out the object *)

Section calls.
Context {N A P H Addr : Type}.
Abbreviation obj := (Document.IrohDocument N A P H Addr).
Context {R Reg Ep Store EpAddr DocTicket : Type} `{AlpnRegistry R Reg}.
Abbreviation endpt := (IrohEndpoint R Reg Ep Store EpAddr).
Variable parse_doc_id : string → option N.
Variable parse_doc_ticket : string → option DocTicket.
Variables gossip_alpn blobs_alpn docs_alpn : bytes.

Inductive Call : Type :=
  | CreateDocument
  | OpenDocument (id : string)
  | JoinDocument (ticket : string).

Definition well_formed (c : Call) : Prop :=
  match c with
  | CreateDocument => True
  | OpenDocument id => is_Some (parse_doc_id id)
  | JoinDocument ticket => is_Some (parse_doc_ticket ticket)
  end.

(** The object, and what its task starts from; [running] is whether the runtime
    takes the task. *)
Definition perform (c : Call) (reactor detached running tree : bool) (e : endpt)
  : endpt * option (Docs.Source * obj) :=
  let '(e, src) :=
    match c with
    | CreateDocument => Requests.create_document gossip_alpn blobs_alpn docs_alpn reactor detached e
    | OpenDocument id =>
        Requests.open_document parse_doc_id gossip_alpn blobs_alpn docs_alpn id reactor detached e
    | JoinDocument ticket =>
        Requests.join_document parse_doc_ticket gossip_alpn blobs_alpn docs_alpn ticket reactor detached e
    end in
  (e, (λ src, (src, Document.wrap tree (Docs.spawn running))) <$> src).

(** A service that starts claims its ALPN and touches no other. *)
Lemma depot_started detached (e e' : endpt) d :
  dispatcher e = Some d → start_depot blobs_alpn detached e = (e', true) →
  services e' = mk_services (swarm (services e)) (depot (services e')) (library (services e)) ∧
  ∃ d', dispatcher e' = Some d' ∧
    ∀ a, a ≠ blobs_alpn → (a ∈ Dispatch.held (registry d') ↔ a ∈ Dispatch.held (registry d)).
Proof.
  unfold start_depot. intros Hd. destruct (depot (services e)) as [dp|] eqn:Hdp.
  { intros [= <-]. split; [rewrite Hdp; by destruct (services e); cbn in *; subst|]. by exists d. }
  rewrite Hd. unfold Blobs.start. destruct (register blobs_alpn (registry d)) as [r [g|]] eqn:Hr; [|done].
  apply register_some in Hr as (Hf & Hg & Hheld). destruct detached; [|done]. intros [= <-].
  unfold set_registry. rewrite Hd. cbn. split; [done|]. eexists. split; [done|]. cbn. intros a Ha.
  rewrite Hheld. set_solver.
Qed.

Lemma swarm_started reactor detached (e e' : endpt) d :
  dispatcher e = Some d → start_swarm gossip_alpn reactor detached e = (e', true) →
  services e' = mk_services (swarm (services e')) (depot (services e)) (library (services e)) ∧
  ∃ d', dispatcher e' = Some d' ∧
    ∀ a, a ≠ gossip_alpn → (a ∈ Dispatch.held (registry d') ↔ a ∈ Dispatch.held (registry d)).
Proof.
  unfold start_swarm. intros Hd. destruct (swarm (services e)) as [sw|] eqn:Hsw.
  { intros [= <-]. split; [rewrite Hsw; by destruct (services e); cbn in *; subst|]. by exists d. }
  rewrite Hd. unfold Gossip.start. destruct (register gossip_alpn (registry d)) as [r [g|]] eqn:Hr; [|done].
  apply register_some in Hr as (Hf & Hg & Hheld). destruct (reactor && detached); [|done]. intros [= <-].
  unfold set_registry. rewrite Hd. cbn. split; [done|]. eexists. split; [done|]. cbn. intros a Ha.
  rewrite Hheld. set_solver.
Qed.

(** The library runs, or it and the services it needs can be started. *)
Definition library_available (reactor detached : bool) (e : endpt) : Prop :=
  is_Some (library (services e)) ∨
  ∃ d, dispatcher e = Some d ∧ (docs_alpn ∉ Dispatch.held (registry d)) ∧ detached = true ∧
    (is_Some (depot (services e)) ∨ (blobs_alpn ∉ Dispatch.held (registry d))) ∧
    (is_Some (swarm (services e)) ∨ (gossip_alpn ∉ Dispatch.held (registry d)) ∧ reactor = true).

(** Starting the docs service itself, once the others run. *)
Lemma start_docs_available path detached (r : R) :
  is_Some (Docs.start docs_alpn path detached r).2 ↔ (docs_alpn ∉ Dispatch.held r) ∧ detached = true.
Proof.
  unfold Docs.start. destruct (register docs_alpn r) as [r' [g|]] eqn:Hr.
  - apply register_some in Hr as (Hf & _). destruct detached; cbn; unfold is_Some; naive_solver.
  - apply register_none in Hr as [Hin _]. cbn. split; [by intros []|by intros [? _]].
Qed.

Lemma start_library_cases reactor detached (e : endpt) :
  (start_library gossip_alpn blobs_alpn docs_alpn reactor detached e).2 = true ↔
    is_Some (library (services e)) ∨
    ∃ d e1 e2 d2, library (services e) = None ∧ dispatcher e = Some d ∧
      start_depot blobs_alpn detached e = (e1, true) ∧ start_swarm gossip_alpn reactor detached e1 = (e2, true) ∧
      dispatcher e2 = Some d2 ∧ (docs_alpn ∉ Dispatch.held (registry d2)) ∧ detached = true.
Proof.
  unfold start_library. destruct (library (services e)) as [lib|]; [by split; eauto|].
  destruct (dispatcher e) as [d|]; [|split; [done|by intros [[]|(? & ? & ? & ? & _ & ? & _)]]].
  destruct (start_depot blobs_alpn detached e) as [e1 []] eqn:He1;
    [|split; [done|by intros [[]|(? & ? & ? & ? & _ & _ & ? & _)]]].
  destruct (start_swarm gossip_alpn reactor detached e1) as [e2 []] eqn:He2;
    [|split; [done|intros [[]|(? & ? & ? & ? & _ & _ & ? & ? & _)]; simplify_eq; congruence]].
  destruct (dispatcher e2) as [d2|] eqn:Hd2;
    [|split; [done|intros [[]|(? & ? & ? & ? & _ & _ & ? & ? & ? & _)]; simplify_eq; congruence]].
  pose proof (start_docs_available (store_path (config e2)) detached (registry d2)) as Hdocs.
  destruct (Docs.start docs_alpn _ detached (registry d2)) as [r s]. cbn in Hdocs |- *.
  rewrite bool_decide_eq_true, Hdocs. split.
  - intros [Hf Hdet]. right. exists d, e1, e2, d2. by split_and!.
  - intros [[]|(d' & e1' & e2' & d2' & _ & _ & Heq1 & Heq2 & Heq3 & Hf & Hdet)]; [done|].
    injection Heq1 as <-. rewrite He2 in Heq2. injection Heq2 as <-. rewrite Hd2 in Heq3. by simplify_eq.
Qed.

Lemma start_library_available reactor detached (e : endpt) :
  NoDup [gossip_alpn; blobs_alpn; docs_alpn] →
  (start_library gossip_alpn blobs_alpn docs_alpn reactor detached e).2 = true ↔
    library_available reactor detached e.
Proof.
  intros Hnd.
  assert (gossip_alpn ≠ blobs_alpn ∧ docs_alpn ≠ blobs_alpn ∧ docs_alpn ≠ gossip_alpn) as (Hgb & Hdb & Hdg).
  { rewrite !NoDup_cons in Hnd. set_solver. }
  rewrite start_library_cases. unfold library_available. split.
  - intros [?|(d & e1 & e2 & d2 & _ & Hd & He1 & He2 & Hd2 & Hf & Hdet)]; [by left|right]. exists d.
    destruct (depot_started detached e e1 d Hd He1) as (Hs1 & d1 & Hd1 & Hheld1).
    destruct (swarm_started reactor detached e1 e2 d1 Hd1 He2) as (_ & d2' & Hd2' & Hheld2).
    simplify_eq. rewrite Hheld2, Hheld1 in Hf by done.
    pose proof (Requests.start_depot_available blobs_alpn true e) as [Hdp _]. rewrite He1 in Hdp.
    pose proof (TopicTask.start_swarm_available gossip_alpn reactor true e1) as [Hsw _]. rewrite He2 in Hsw.
    split_and!; [done..| |].
    + destruct (Hdp eq_refl) as [?|(d' & Hd' & ? & _)]; [by left|right]. by simplify_eq.
    + destruct (Hsw eq_refl) as [Hx|(d' & Hd' & Hx & Hre)].
      * left. by rewrite Hs1 in Hx.
      * right. rewrite Hd1 in Hd'. injection Hd' as <-. rewrite Hheld1 in Hx by done.
        by rewrite andb_true_r in Hre.
  - intros [?|(d & Hd & Hf & -> & Hdp & Hsw)]; [by left|].
    destruct (library (services e)) eqn:Hlib; [by left; eauto|right].
    pose proof (proj2 (Requests.start_depot_available blobs_alpn true e)) as Hx. unfold Requests.depot_available in Hx.
    destruct (start_depot blobs_alpn true e) as [e1 ok] eqn:He1. cbn in Hx.
    assert (ok = true) as -> by (apply Hx; naive_solver).
    destruct (depot_started true e e1 d Hd He1) as (Hs1 & d1 & Hd1 & Hheld1).
    pose proof (proj2 (TopicTask.start_swarm_available gossip_alpn reactor true e1)) as Hy.
    unfold TopicTask.swarm_available in Hy. rewrite Hs1 in Hy.
    destruct (start_swarm gossip_alpn reactor true e1) as [e2 ok2] eqn:He2. cbn in Hy.
    assert (ok2 = true) as ->; [apply Hy|].
    + destruct Hsw as [?|[? ->]]; [by left|right]. exists d1. by rewrite Hheld1.
    + destruct (swarm_started reactor true e1 e2 d1 Hd1 He2) as (_ & d2 & Hd2 & Hheld2).
      exists d, e1, e2, d2. split_and!; try done. by rewrite Hheld2, Hheld1.
Qed.

(** The source a well-formed call gives the task. *)
Definition source_of (c : Call) : option (Docs.Source (NamespaceId := N) (Ticket := DocTicket)) :=
  match c with
  | CreateDocument => Some Docs.Create
  | OpenDocument id => Docs.Open <$> parse_doc_id id
  | JoinDocument ticket => Docs.JoinTicket <$> parse_doc_ticket ticket
  end.

Lemma opening_result c reactor detached running tree (e : endpt) :
  NoDup [gossip_alpn; blobs_alpn; docs_alpn] →
  let out := (perform c reactor detached running tree e).2 in
  (is_Some out ↔ well_formed c ∧ library_available reactor detached e) ∧
  ∀ src o, out = Some (src, o) → source_of c = Some src ∧ o = Document.wrap tree (Docs.spawn running).
Proof.
  intros Hnd out.
  assert (out = (λ src, (src, Document.wrap tree (Docs.spawn running))) <$>
            (start_document gossip_alpn blobs_alpn docs_alpn (source_of c) reactor detached e).2) as ->.
  { subst out. unfold perform. destruct c; cbn [source_of];
      unfold Requests.create_document, Requests.open_document, Requests.join_document;
      by destruct (start_document _ _ _ _ _ _ _). }
  assert (is_Some (source_of c) ↔ well_formed c) as <- by (destruct c; cbn; rewrite ?fmap_is_Some; by split).
  unfold start_document. rewrite <- (start_library_available reactor detached e Hnd).
  destruct (source_of c) as [src|]; cbn; [|unfold is_Some; naive_solver].
  destruct (start_library _ _ _ _ _ e) as [e' []]; cbn; unfold is_Some; naive_solver.
Qed.
End calls.

(** ** Properties *)

(** C16: a document, from the call that opens it to its last signal. The call
    hands out an object exactly when its argument parses and the docs service,
    with the blob and gossip services under it, runs or can be started. From
    there, whatever the script, the frames, the task and the engine do, in any
    interleaving: the signals are the task's events in order, none lost as long
    as the script keeps the object; its id is the one of the document the engine
    opened for this very call, as soon as [opened] was emitted; reads, listings,
    status requests and shares that answered [true] are answered in order, each
    by its own kind of answer and for its own key or prefix, and as long as the
    task runs an unanswered one is on its way, as a command or as an answer; and
    the object gives up its handle only for [closed] or because the script closed
    it. *)
Theorem document_answers_its_script {N A P H Addr} `{Display N} `{Display A} `{Display P} `{Display H}
    {R Reg Ep Store EpAddr DocTicket} `{AlpnRegistry R Reg}
    parse_doc_id (parse_doc_ticket : string → option DocTicket)
    gossip_alpn blobs_alpn docs_alpn c reactor detached tree (e : IrohEndpoint R Reg Ep Store EpAddr) :
  NoDup [gossip_alpn; blobs_alpn; docs_alpn] →
  let out := (perform (N := N) (A := A) (P := P) (H := H) (Addr := Addr) parse_doc_id parse_doc_ticket
                gossip_alpn blobs_alpn docs_alpn c reactor detached true tree e).2 in
  (is_Some out ↔
     well_formed parse_doc_id parse_doc_ticket c ∧
     library_available gossip_alpn blobs_alpn docs_alpn reactor detached e) ∧
  ∀ src o create open import startup me utf8_lossy ls t,
    out = Some (src, o) →
    Docs.doc startup = Docs.open_doc create open import src →
    match Docs.default_author startup with inl a => a = me | inr _ => True end →
    let s := run utf8_lossy me startup o ls in
    Attended.task s = Some t →
    let kept := is_Some (Document.document (object s)) in
    Document.emitted (object s) = Document.signal_of utf8_lossy <$> heard s ∧
    heard s `prefix_of` Docs.sent t ∧
    Document.id (object s) = (match head (heard s) with Some (Docs.Opened i) => to_string i | _ => "" end) ∧
    (∀ i, head (heard s) = Some (Docs.Opened i) → Docs.open_doc create open import src = inl i) ∧
    Docs.answers (heard s) `prefix_of` omap Docs.question_of (accepted s) ∧
    (kept →
       heard s ++ queue (events s) = Docs.sent t ∧ existsb Docs.terminal (heard s) = false ∧
       (Docs.running t = true →
          Docs.answers (heard s) ++ Docs.answers (queue (events s)) ++ omap Docs.question_of (queue (commands s))
            = omap Docs.question_of (accepted s)) ∧
       (Docs.running t = false → existsb Docs.terminal (queue (events s)) = true)) ∧
    (Forall (λ l, lets_go l = false) ls → ¬ kept → existsb Docs.terminal (heard s) = true).
Proof.
  intros Hnd out.
  destruct (opening_result (A := A) (P := P) (H := H) (Addr := Addr) parse_doc_id parse_doc_ticket
    gossip_alpn blobs_alpn docs_alpn c reactor detached true tree e Hnd) as [Hiff Hout].
  split; [exact Hiff|]. intros src o create open import startup me utf8_lossy ls t Ho Hdoc Hme s Htask kept.
  destruct (Hout src o Ho) as [_ Hwrap].
  pose (polled := polled utf8_lossy : Polled (Document.IrohDocument N A P H Addr) _ _).
  assert (is_Some (source o)) as Hsrc by (rewrite Hwrap; cbn; eauto).
  destruct (document_pair utf8_lossy me startup o ls t Hsrc) as (Hs & Hh & Hid & Ha & Hk & Hg);
    [by rewrite Hwrap|by rewrite Hwrap|done|done|].
  assert (Attended.held s = true ↔ kept) as Hkept.
  { unfold Attended.held. rewrite bool_decide_eq_true. apply fmap_is_Some. }
  split_and!; try done.
  - intros i Hi. rewrite <- Hdoc. by apply (opened_first utf8_lossy me startup o ls t).
  - intros Hx%Hkept. by apply Hk.
  - intros Hls Hx. specialize (Hg Hls). change (Attended.held s = negb (existsb Docs.terminal (heard s))) in Hg.
    destruct (existsb Docs.terminal (heard s)); [done|]. exfalso. by apply Hx, Hkept.
Qed.

(** An engine in which every key is missing, and the document it opens. *)
Definition blank_engine : Docs.Engine (AuthorId := Z) (Hash := Z) (Addr := Z) :=
  Docs.mk_engine (λ _ _ _, None) (λ _ _, None) (λ _, inl None) (λ _, None) (λ _, inl [])
    (inl (true, 1, 1)) (λ _, inl "ticket"%string) (λ _, None) None.

Lemma document_answers_its_script_witness :
  let text : Display Z := λ z, pretty z in
  let e : IrohEndpoint Registry Registration Z unit Z :=
    set_dispatcher (Some (mk_dispatcher 7 start)) init in
  let startup : Docs.Startup Z Z := Docs.mk_startup (inl tt) (inl 7) (inl 1) (inl tt) (inl tt) in
  let o : Document.IrohDocument Z Z Z Z Z := Document.wrap true (Docs.spawn true) in
  let ls :=
    [Order (Docs.Read [x61]); Start; TakeCommand blank_engine; Order Docs.GetStatus; Frame true;
     TakeCommand blank_engine; Frame true; Works (Docs.OnUpdate None); Frame true] in
  let s := run (λ _, ""%string) 1 startup o ls in
  is_Some (perform (N := Z) (A := Z) (P := Z) (H := Z) (Addr := Z) (λ _, Some 7) (λ _, Some 0)
             [x01] [x02] [x03] (OpenDocument "7") true true true true e).2 ∧
  ∃ t, Attended.task s = Some t ∧
    Document.emitted (object s) = Document.signal_of (λ _, ""%string) <$> heard s ∧
    Document.id (object s) = (match head (heard s) with Some (Docs.Opened i) => to_string i | _ => ""%string end) ∧
    Docs.answers (heard s) `prefix_of` omap Docs.question_of (accepted s) ∧
    existsb Docs.terminal (heard s) = true.
Proof.
  intros text e startup o ls s.
  destruct (@document_answers_its_script Z Z Z Z Z text text text text Registry Registration Z unit Z Z _
    (λ _, Some 7) (λ _, Some 0) [x01] [x02] [x03] (OpenDocument "7") true true true e) as [_ Hall];
    [by_decision|].
  split; [vm_compute; eauto|]. eexists. split; [vm_compute; reflexivity|].
  edestruct (Hall (Docs.Open 7) o (inl 0) (λ n, inl (Some n)) (λ _, inl 0) startup 1 (λ _, ""%string) ls)
    as (Hs & _ & Hid & _ & Ha & _ & Hg); [reflexivity|reflexivity|reflexivity|vm_compute; reflexivity|].
  split; [exact Hs|]. split; [exact Hid|]. split; [exact Ha|].
  apply Hg; [repeat constructor|]. vm_compute. by intros [? [=]].
Defined.
