(* ===== verification/Subscriptions.v ===== *)
(** * What topics and documents accept is carried out *)

From S2P Require Import Prelude Polled Attended.
From S2P Require Gossip Topic Docs Document TopicTask DocTask.

(** ** Properties *)

(** C18: nothing accepted is forgotten. From every state a topic or a document
    can reach in which its task runs and the object is kept: once the task has
    taken the commands that wait, none of its calls failing, and a frame has
    passed, iroh was asked for every broadcast and join that answered [true],
    once and in order, and everything it reported was signalled; and every
    question a document took has its answer among the signals, in order. *)
Theorem accepted_commands_are_carried_out {Id} `{Countable Id} {TopicId} `{Display Id} `{Display TopicId}
    {N A P Hash Addr} `{Display N} `{Display A} `{Display P} `{Display Hash} tree :
  (∀ (tid : TopicId) subscribed ls t0,
     let o := Topic.wrap (Id := Id) tree (Gossip.subscribe tid true) in
     let s := TopicTask.run subscribed o ls in
     Attended.task s = Some t0 → Gossip.running t0 = true → is_Some (Topic.topic (object s)) →
     let s' := TopicTask.run subscribed o (ls ++ settling None s) in
     accepted s' = accepted s ∧
     ∃ t, Attended.task s' = Some t ∧ Gossip.calls t = accepted s ∧
       Topic.emitted (object s') = Topic.signal_of <$> Gossip.sent t) ∧
  (∀ utf8_lossy (me : A) (startup : Docs.Startup N A) ls (e : Docs.Engine (Hash := Hash) (Addr := Addr)) t0,
     match Docs.default_author startup with inl a => a = me | inr _ => True end →
     (∀ c, ∃ answer : option (Docs.Event N A P Hash), Docs.apply e me c = inl answer) →
     let o : Document.IrohDocument N A P Hash Addr := Document.wrap tree (Docs.spawn true) in
     let s := DocTask.run utf8_lossy me startup o ls in
     Attended.task s = Some t0 → Docs.running t0 = true → is_Some (Document.document (object s)) →
     let s' := DocTask.run utf8_lossy me startup o (ls ++ settling e s) in
     accepted s' = accepted s ∧
     Document.emitted (object s') = Document.signal_of utf8_lossy <$> heard s' ∧
     Docs.answers (heard s') = omap Docs.question_of (accepted s)).
Proof.
  split.
  - intros tid subscribed ls t0 o s Htask Hrun Hkept s'.
    destruct (TopicTask.wrapped_source (Id := Id) tree tid true) as [Hsrc He].
    apply (TopicTask.topic_settled subscribed o ls); try done.
    { unfold running. change (match Attended.task s with Some t => Gossip.running t | None => false end = true).
      by rewrite Htask. }
    apply held_spec, fmap_is_Some. exact Hkept.
  - intros utf8_lossy me startup ls e t0 Hme Hgood o s Htask Hrun Hkept s'.
    pose (polled := DocTask.polled utf8_lossy : Polled (Document.IrohDocument N A P Hash Addr) _ _).
    apply (DocTask.document_settled utf8_lossy me startup o ls e); try done.
    + change (match Attended.task s with Some t => Docs.running t | None => false end = true). by rewrite Htask.
    + unfold Attended.held. apply bool_decide_eq_true, fmap_is_Some. exact Hkept.
Qed.

Lemma accepted_commands_are_carried_out_witness :
  let text : Display Z := λ z, pretty z in
  let startup : Docs.Startup Z Z := Docs.mk_startup (inl tt) (inl 7) (inl 1) (inl tt) (inl tt) in
  let o := Topic.wrap (Id := Z) true (Gossip.subscribe (3 : Z) true) in
  let ls := [Start; Order (Gossip.Broadcast [x61]); Order (Gossip.Join [5])] in
  let s := TopicTask.run None o ls in
  let d : Document.IrohDocument Z Z Z Z Z := Document.wrap true (Docs.spawn true) in
  let ls' := [Start; Order (Docs.Read [x61]); Order Docs.GetStatus] in
  let s' := DocTask.run (λ _, ""%string) 1 startup d ls' in
  (∃ t, Attended.task (TopicTask.run None o (ls ++ settling None s)) = Some t ∧
     Gossip.calls t = accepted s ∧ accepted s = [Gossip.Broadcast [x61]; Gossip.Join [5]]) ∧
  Docs.answers (heard (DocTask.run (λ _, ""%string) 1 startup d (ls' ++ settling DocTask.blank_engine s'))) =
    omap Docs.question_of (accepted s').
Proof.
  intros text startup o ls s d ls' s'.
  destruct (@accepted_commands_are_carried_out Z _ _ Z text text Z Z Z Z Z text text text text true) as [Ht Hd].
  split.
  - edestruct (Ht (3 : Z) None ls) as (_ & t & Htask & Hc & _);
      [vm_compute; reflexivity|reflexivity|vm_compute; eauto|].
    exists t. split; [exact Htask|]. split; [exact Hc|vm_compute; reflexivity].
  - edestruct (Hd (λ _, ""%string) 1 startup ls' DocTask.blank_engine) as (_ & _ & Ha);
      [reflexivity|intros []; eexists; reflexivity|vm_compute; reflexivity|reflexivity|vm_compute; eauto|].
    exact Ha.
Defined.
