(* ===== verification/Live.v ===== *)
(** * A session at work ([session.rs], [start] and the two channels)

    The handle the main thread holds and the task the runtime drives, joined by
    the two unbounded channels and the shared connection map. A [Label] is one
    thing that can happen, on either side or in the network; a run is any
    sequence of them. The record also keeps what happened so far (inputs taken,
    commands called, events sent and received), which no step looks at. *)

From S2P Require Import Prelude Wire.
From S2P Require Import Session.
From S2P Require Handle.

(** ** State *)

Record Live : Type := mk_live {
  (** [None] until the task has come past the start of [run] *)
  task : option Task;
  handle : Handle.Handle;
  held : bool;
  (** what happened so far *)
  inputs : list ((Conn → option Z) * Input);
  called : list Command;
  sent : list (bool * Event);
  received : list Event;
}.

(** A session as [Session::start] leaves it. *)
Definition start (refuse : option nat) : Live :=
  mk_live None (Handle.fresh_handle [] refuse) true [] [] [] [].

Definition running (s : Live) : bool :=
  match task s with Some t => Session.running t | None => false end.

Definition set_handle (h : Handle.Handle) (s : Live) : Live :=
  mk_live (task s) h (held s) (inputs s) (called s) (sent s) (received s).

(** [events.send(event)], by the task or by a reader it spawned: both have a
    sender of the same channel. *)
Definition tell (by_task : bool) (s : Live) (e : Event) : Live :=
  let h := handle s in
  mk_live (task s)
    (Handle.mk_handle (chan_send (Handle.events h) e).1 (Handle.commands h) (Handle.refuse h)
       (Handle.shared_connections h))
    (held s) (inputs s) (called s) (sent s ++ [(by_task, e)]) (received s).

(** The task has moved on to [t']: its new events are sent, the shared map is
    what it made of it, and a task that returned has dropped its receiver. *)
Definition moved (old : nat) (t' : Task) (s : Live) : Live :=
  let s := foldl (tell true) s (drop old (sent_events (state t'))) in
  let h := handle s in
  mk_live (Some t')
    (Handle.mk_handle (Handle.events h)
       (if Session.running t' then Handle.commands h else chan_drop_receiver (Handle.commands h))
       (Handle.refuse h) (connections (state t')))
    (held s) (inputs s) (called s) (sent s) (received s).

(** ** Labels *)

Inductive Label : Type :=
  (** the runtime starts the task; a guest has dialled by then *)
  | Begin
  (** the arms of the [select!], with the datagram sizes of the moment *)
  | TakeCommand (sizes : Conn → option Z)
  | TakeInternal (sizes : Conn → option Z) (m : option Internal)
  | TakeConnection (sizes : Conn → option Z) (c : option Conn)
  (** a reader of a connection passes on a packet *)
  | ReaderTells (p : Packet)
  (** the main thread *)
  | Call (c : Command)
  | TryRecv
  | DropHandle.

Section live.
Context `{HashOrder}.
(** What [endpoint.connect] returns; [None] hosts. *)
Variable dialled : option (Conn + string).

Definition take_input (sizes : Conn → option Z) (i : Input) (s : Live) : Live :=
  match task s with
  | Some t =>
      if Session.running t then
        let s := mk_live (task s) (handle s) (held s) (inputs s ++ [(sizes, i)]) (called s)
                   (sent s) (received s) in
        moved (length (sent_events (state t))) (step sizes t i) s
      else s
  | None => s
  end.

(** [commands.recv()]: nothing is taken while the queue is empty and the handle
    is held, and [None] once it is not. *)
Definition take_command (sizes : Conn → option Z) (s : Live) : Live :=
  let h := handle s in
  if running s then
    match chan_try_recv (Handle.commands h) with
    | (Some c, ch) =>
        take_input sizes (OnCommand (Some c))
          (set_handle (Handle.mk_handle (Handle.events h) ch (Handle.refuse h)
                         (Handle.shared_connections h)) s)
    | (None, _) => if held s then s else take_input sizes (OnCommand None) s
    end
  else s.

Definition call (c : Command) (s : Live) : Live :=
  if held s then
    let s' := set_handle (Handle.command c (handle s)) s in
    mk_live (task s') (handle s') (held s') (inputs s') (called s ++ [c]) (sent s') (received s')
  else s.

Definition try_recv (s : Live) : Live :=
  if held s then
    let '(e, h) := Handle.try_recv (handle s) in
    mk_live (task s) h (held s) (inputs s) (called s) (sent s) (received s ++ option_list e)
  else s.

(** Dropping a [Session] drops its receiver of events and its sender of commands;
    what is queued for the task stays. *)
Definition drop_handle (s : Live) : Live :=
  let h := handle s in
  mk_live (task s)
    (Handle.mk_handle (chan_drop_receiver (Handle.events h)) (Handle.commands h) (Handle.refuse h)
       (Handle.shared_connections h))
    false (inputs s) (called s) (sent s) (received s).

Definition live_step (s : Live) (l : Label) : Live :=
  match l with
  | Begin =>
      match task s with
      | None => moved 0 (begin dialled) s
      | Some _ => s
      end
  | TakeCommand sizes => take_command sizes s
  | TakeInternal sizes m => take_input sizes (OnInternal m) s
  | TakeConnection sizes c => take_input sizes (OnConnection c) s
  | ReaderTells p => match task s with Some _ => tell false s (PacketEvent p) | None => s end
  | Call c => call c s
  | TryRecv => try_recv s
  | DropHandle => if held s then drop_handle s else s
  end.

Definition live_run (s : Live) (ls : list Label) : Live := foldl live_step s ls.
End live.

(** ** What a run keeps *)

(** The commands among the inputs. *)
Definition commands_in (l : list ((Conn → option Z) * Input)) : list Command :=
  omap (λ i, match i.2 with OnCommand (Some c) => Some c | _ => None end) l.

(** What the task itself said. *)
Definition by_task (l : list (bool * Event)) : list Event :=
  omap (λ e : bool * Event, if e.1 then Some e.2 else None) l.

Definition readers_tell_packets (l : list (bool * Event)) : Prop :=
  Forall (λ e : bool * Event, e.1 = false → ∃ p, e.2 = PacketEvent p) l.

Lemma commands_in_snoc l i :
  commands_in (l ++ [i]) =
    commands_in l ++ match i.2 with OnCommand (Some c) => [c] | _ => [] end.
Proof. unfold commands_in. rewrite omap_snoc. by destruct i as [? [[]|?|?]]. Qed.

Section invariant.
Context `{HashOrder}.
Variable dialled : option (Conn + string).

Record live_ok (s : Live) : Prop := {
  lo_task : match task s with
            | Some t => t = run (begin dialled) (inputs s)
            | None => inputs s = []
            end;
  lo_alive : receiver_alive (Handle.commands (handle s)) = from_option Session.running true (task s);
  lo_commands :
    if receiver_alive (Handle.commands (handle s))
    then called s = commands_in (inputs s) ++ queue (Handle.commands (handle s))
    else commands_in (inputs s) `prefix_of` called s;
  lo_events :
    if held s then
      receiver_alive (Handle.events (handle s)) = true ∧
      received s ++ queue (Handle.events (handle s)) = (sent s).*2
    else receiver_alive (Handle.events (handle s)) = false ∧ received s `prefix_of` (sent s).*2;
  lo_sent : by_task (sent s) = from_option (λ t, sent_events (state t)) [] (task s);
  lo_packets : readers_tell_packets (sent s);
  lo_map : Handle.shared_connections (handle s)
             = from_option (λ t, connections (state t)) ∅ (task s);
}.

Lemma start_ok refuse : live_ok (start refuse).
Proof. split; try done. by constructor. Qed.

(** Telling appends to the queue, if somebody still listens. *)
Lemma tell_fields b e s :
  task (tell b s e) = task s ∧ held (tell b s e) = held s ∧ inputs (tell b s e) = inputs s ∧
  called (tell b s e) = called s ∧ received (tell b s e) = received s ∧
  sent (tell b s e) = sent s ++ [(b, e)] ∧
  Handle.commands (handle (tell b s e)) = Handle.commands (handle s) ∧
  Handle.shared_connections (handle (tell b s e)) = Handle.shared_connections (handle s) ∧
  Handle.events (handle (tell b s e)) =
    mk_chan (if receiver_alive (Handle.events (handle s))
             then queue (Handle.events (handle s)) ++ [e] else queue (Handle.events (handle s)))
      (receiver_alive (Handle.events (handle s))).
Proof.
  unfold tell, chan_send. split_and!; try done. cbn.
  by destruct (Handle.events (handle s)) as [q []].
Qed.

Lemma tell_all_fields b evs s :
  let s' := foldl (tell b) s evs in
  task s' = task s ∧ held s' = held s ∧ inputs s' = inputs s ∧
  called s' = called s ∧ received s' = received s ∧
  sent s' = sent s ++ ((b,.) <$> evs) ∧
  Handle.commands (handle s') = Handle.commands (handle s) ∧
  Handle.shared_connections (handle s') = Handle.shared_connections (handle s) ∧
  Handle.events (handle s') =
    mk_chan (if receiver_alive (Handle.events (handle s))
             then queue (Handle.events (handle s)) ++ evs else queue (Handle.events (handle s)))
      (receiver_alive (Handle.events (handle s))).
Proof.
  revert s. induction evs as [|e evs IH]; intros s; cbn [foldl].
  { rewrite fmap_nil, !app_nil_r. split_and!; try done. by destruct (Handle.events (handle s)) as [q []]. }
  destruct (tell_fields b e s) as (E1 & E2 & E3 & E4 & E5 & E6 & E7 & E8 & E9).
  destruct (IH (tell b s e)) as (F1 & F2 & F3 & F4 & F5 & F6 & F7 & F8 & F9).
  rewrite F1, F2, F3, F4, F5, F6, F7, F8, F9, E1, E2, E3, E4, E5, E6, E7, E8, E9.
  rewrite <- app_assoc. split_and!; try done. cbn.
  destruct (receiver_alive (Handle.events (handle s))); [|done]. by rewrite <- app_assoc.
Qed.

Lemma by_task_app l (b : bool) (evs : list Event) :
  by_task (l ++ ((b,.) <$> evs)) = by_task l ++ (if b then evs else []).
Proof.
  unfold by_task. rewrite omap_app. f_equal. induction evs as [|e evs IH]; cbn; destruct b; cbn in *; congruence.
Qed.

(** Events reach the channel whoever sends them. *)
Lemma tell_all_events b evs s :
  live_ok s → (b = false → Forall (λ e, ∃ p, e = PacketEvent p) evs) →
  let s' := foldl (tell b) s evs in
  (if held s' then
     receiver_alive (Handle.events (handle s')) = true ∧
     received s' ++ queue (Handle.events (handle s')) = (sent s').*2
   else receiver_alive (Handle.events (handle s')) = false ∧ received s' `prefix_of` (sent s').*2) ∧
  readers_tell_packets (sent s').
Proof.
  intros Hok Hp. destruct (tell_all_fields b evs s) as (_ & E2 & _ & _ & E5 & E6 & _ & _ & E9).
  cbv zeta. rewrite E2, E5, E6, E9. cbn [queue receiver_alive].
  rewrite fmap_app, <- list_fmap_compose. cbn. rewrite list_fmap_id.
  pose proof (lo_events s Hok) as He. split.
  - destruct (held s); destruct He as [-> He].
    + by rewrite <- He, app_assoc.
    + split; [done|]. by apply prefix_app_r.
  - apply Forall_app. split; [apply Hok|]. apply Forall_fmap, Forall_forall. cbn.
    intros e Hin Hb. by apply (proj1 (Forall_forall _ _) (Hp Hb)).
Qed.

(** One move of the task, from a state that agrees with it but for the input. *)
Lemma moved_ok s t' old :
  live_ok s → old = length (from_option (λ t, sent_events (state t)) [] (task s)) →
  from_option (λ t, sent_events (state t)) [] (task s) `prefix_of` sent_events (state t') →
  ∀ ins q,
    t' = run (begin dialled) ins →
    (if Session.running t' then called s = commands_in ins ++ q
     else commands_in ins `prefix_of` called s) →
    from_option Session.running true (task s) = true →
    let s0 := mk_live (task s)
                (Handle.mk_handle (Handle.events (handle s))
                   (mk_chan q (receiver_alive (Handle.commands (handle s)))) (Handle.refuse (handle s))
                   (Handle.shared_connections (handle s)))
                (held s) ins (called s) (sent s) (received s) in
    live_ok (moved old t' s0).
Proof.
  intros Hok -> [new Hnew] ins q Ht Hq Hrun s0. unfold moved. rewrite Hnew, drop_app_length.
  pose proof (tell_all_events true new s Hok ltac:(done)) as Hev.
  destruct (tell_all_fields true new s) as (_ & F2 & _ & _ & F5 & F6 & _ & _ & F9).
  destruct (tell_all_fields true new s0) as (E1 & E2 & E3 & E4 & E5 & E6 & E7 & E8 & E9).
  cbv zeta in Hev. rewrite F2, F5, F6, F9 in Hev. cbn [s0 handle Handle.events] in *.
  pose proof (lo_alive s Hok) as Ha. rewrite Hrun in Ha.
  split; cbn [task handle held inputs called sent received Handle.events Handle.commands
    Handle.shared_connections from_option]; rewrite ?E2, ?E3, ?E4, ?E5, ?E6, ?E7, ?E9;
    cbn [s0 task handle held inputs called sent received Handle.commands].
  - done.
  - destruct (Session.running t'); cbn; [exact Ha|done].
  - destruct (Session.running t'); cbn; [by rewrite Ha|done].
  - apply Hev.
  - rewrite by_task_app, (lo_sent s Hok). by rewrite Hnew.
  - apply Hev.
  - done.
Qed.

Lemma take_input_ok sizes i s q :
  live_ok s → running s = true →
  (called s = commands_in (inputs s ++ [(sizes, i)]) ++ q) →
  live_ok (take_input sizes i
    (set_handle (Handle.mk_handle (Handle.events (handle s))
       (mk_chan q (receiver_alive (Handle.commands (handle s)))) (Handle.refuse (handle s))
       (Handle.shared_connections (handle s))) s)).
Proof.
  intros Hok Hr Hq. unfold take_input, running in *. cbn.
  pose proof (lo_task s Hok) as Ht. destruct (task s) as [t|] eqn:Htask; [|done]. rewrite Hr.
  pose proof (moved_ok s (step sizes t i) (length (sent_events (state t))) Hok) as Hm.
  rewrite Htask in Hm. cbn [from_option] in Hm.
  apply (Hm eq_refl (grows_prefix _ _ (step_grows sizes t i)) (inputs s ++ [(sizes, i)]) q); [| |exact Hr].
  - rewrite Ht. unfold run. by rewrite foldl_app.
  - destruct (Session.running (step sizes t i)); [exact Hq|]. rewrite Hq. by apply prefix_app_r.
Qed.

Lemma set_handle_id s :
  set_handle (Handle.mk_handle (Handle.events (handle s))
       (mk_chan (queue (Handle.commands (handle s))) (receiver_alive (Handle.commands (handle s))))
       (Handle.refuse (handle s)) (Handle.shared_connections (handle s))) s = s.
Proof. by destruct s as [? [? [] ? ?] ? ? ? ? ?]. Qed.

(** An input that is not a command. *)
Lemma take_other_ok sizes i s :
  live_ok s → (∀ c, i ≠ OnCommand (Some c)) → live_ok (take_input sizes i s).
Proof.
  intros Hok Hi. destruct (running s) eqn:Hr.
  - rewrite <- (set_handle_id s). apply take_input_ok; [done|done|].
    rewrite commands_in_snoc. cbn.
    assert (match i with OnCommand (Some c) => [c] | _ => [] end = []) as ->
      by (destruct i as [[c|]|?|?]; try done; by destruct (Hi c)).
    rewrite app_nil_r. pose proof (lo_commands s Hok) as Hc. rewrite (lo_alive s Hok) in Hc.
    unfold running in Hr. destruct (task s); [|done]. cbn in Hc. by rewrite Hr in Hc.
  - unfold take_input, running in *. destruct (task s) as [t|]; [|done]. by rewrite Hr.
Qed.

Lemma live_step_ok s l : live_ok s → live_ok (live_step dialled s l).
Proof.
  intros Hok. destruct l as [|sizes|sizes m|sizes c|p|c| |]; cbn [live_step].
  - destruct (task s) as [t|] eqn:Ht; [done|].
    pose proof (moved_ok s (begin dialled) 0 Hok) as Hm. rewrite Ht in Hm. cbn in Hm.
    specialize (Hm eq_refl (prefix_nil _) [] (queue (Handle.commands (handle s))) eq_refl).
    pose proof (lo_commands s Hok) as Hc. rewrite (lo_alive s Hok), Ht in Hc. cbn in Hc.
    pose proof (lo_task s Hok) as Hi. rewrite Ht in Hi. rewrite Hi in Hc.
    destruct s as [? [? [] ? ?] ? ? ? ? ?]; cbn in *; subst.
    apply Hm; [|done]. destruct (Session.running _); [done|apply prefix_nil].
  - unfold take_command. destruct (running s) eqn:Hr; [|done].
    pose proof (lo_commands s Hok) as Hc. rewrite (lo_alive s Hok) in Hc.
    assert (from_option Session.running true (task s) = true) as Hr'
      by (unfold running in Hr; by destruct (task s)).
    rewrite Hr' in Hc. unfold chan_try_recv.
    destruct (queue (Handle.commands (handle s))) as [|c q].
    + destruct (held s); [done|]. by apply take_other_ok.
    + apply take_input_ok; [done..|]. rewrite commands_in_snoc. cbn. by rewrite <- app_assoc.
  - by apply take_other_ok.
  - by apply take_other_ok.
  - destruct (task s) as [t|] eqn:Ht; [|done].
    destruct (tell_all_events false [PacketEvent p] s Hok) as [Hev Hp]; [intros _; by repeat econstructor|].
    destruct (tell_fields false (PacketEvent p) s) as (E1 & E2 & E3 & E4 & E5 & E6 & E7 & E8 & E9).
    cbn [foldl] in *. destruct Hok as [H1 H2 H3 H4 H5 H6 H7]. rewrite Ht in *.
    split; try done; rewrite ?E1, ?E3, ?E4, ?E7, ?E8, ?Ht; try done.
    rewrite E6. change [(false, PacketEvent p)] with ((false,.) <$> [PacketEvent p]).
    by rewrite by_task_app, app_nil_r.
  - unfold call. destruct (held s) eqn:Hh; [|done]. destruct Hok as [H1 H2 H3 H4 H5 H6 H7].
    unfold Handle.command, chan_send.
    destruct (receiver_alive (Handle.commands (handle s))) eqn:Ha; split; cbn; rewrite ?Ha; try done.
    + by rewrite H3, app_assoc.
    + by apply prefix_app_r.
  - unfold try_recv. destruct (held s) eqn:Hh; [|done]. destruct Hok as [H1 H2 H3 H4 H5 H6 H7].
    rewrite Hh in H4. unfold Handle.try_recv, chan_try_recv.
    destruct (Handle.events (handle s)) as [[|e q] a]; split; cbn in *; try done.
    + by rewrite app_nil_r.
    + by rewrite <- app_assoc.
  - destruct (held s) eqn:Hh; [|done]. destruct Hok as [H1 H2 H3 H4 H5 H6 H7]. rewrite Hh in H4.
    split; cbn; try done. split; [done|]. destruct H4 as [_ <-]. by apply prefix_app_r.
Qed.

Lemma live_run_ok s ls : live_ok s → live_ok (live_run dialled s ls).
Proof. intros Hok. apply (foldl_preserves _ live_ok); [done|]. intros. by apply live_step_ok. Qed.
End invariant.

(** What one move leaves. *)
Lemma moved_fields n t' s :
  task (moved n t' s) = Some t' ∧ held (moved n t' s) = held s ∧
  received (moved n t' s) = received s ∧ called (moved n t' s) = called s ∧
  (receiver_alive (Handle.events (handle s)) = true →
   Handle.events (handle (moved n t' s)) =
     mk_chan (queue (Handle.events (handle s)) ++ drop n (sent_events (state t'))) true).
Proof.
  unfold moved.
  destruct (tell_all_fields true (drop n (sent_events (state t'))) s)
    as (_ & E2 & _ & E4 & E5 & _ & _ & _ & E9).
  cbn. rewrite E2, E4, E5, E9. split_and!; try done. by intros ->.
Qed.

Lemma take_input_fields `{HashOrder} sizes i s t :
  task s = Some t → Session.running t = true →
  let s' := take_input sizes i s in
  task s' = Some (step sizes t i) ∧ held s' = held s ∧ received s' = received s ∧
  (receiver_alive (Handle.events (handle s)) = true →
   Handle.events (handle s') =
     mk_chan (queue (Handle.events (handle s))
              ++ drop (length (sent_events (state t))) (sent_events (state (step sizes t i)))) true).
Proof.
  intros Ht Hr. unfold take_input. rewrite Ht, Hr. set (s1 := mk_live _ _ _ _ _ _ _).
  destruct (moved_fields (length (sent_events (state t))) (step sizes t i) s1) as (? & ? & ? & _ & ?).
  by split_and!.
Qed.

(** ** Ending *)

(** The history of one peer, as far as it was read, is legal too. *)
Lemma present_prefix now l k b : l `prefix_of` k → present now k = Some b → is_Some (present now l).
Proof.
  intros [m ->]. revert now. induction l as [|c l IH]; intros now; cbn; [eauto|].
  by destruct (eqb c now); [|apply IH].
Qed.

Lemma presence_by_task p l : readers_tell_packets l → presence p l.*2 = presence p (by_task l).
Proof.
  unfold presence. induction 1 as [|[[] e] l He _ IH]; cbn; [done| |].
  - destruct e; cbn; try done; by case_decide; rewrite IH.
  - destruct He as [q Hq]; [done|]. cbn in Hq. by subst.
Qed.

Lemma presence_prefix p l k : l `prefix_of` k → presence p l `prefix_of` presence p k.
Proof. intros [m ->]. unfold presence. rewrite omap_app. by eexists. Qed.

Section reading.
Context `{HashOrder}.
Variable dialled : option (Conn + string).

(** What the main thread has read is a beginning of what was sent, and legal. *)
Lemma received_prefix s : live_ok dialled s → received s `prefix_of` (sent s).*2.
Proof.
  intros [_ _ _ He _ _ _]. destruct (held s); destruct He as [_ He]; [|done].
  rewrite <- He. by apply prefix_app_r.
Qed.

Lemma received_presence s p : live_ok dialled s → is_Some (present false (presence p (received s))).
Proof.
  intros Hok. assert (is_Some (present false (presence p (sent s).*2))) as [b Hb].
  { rewrite presence_by_task, (lo_sent _ _ Hok) by apply Hok.
    pose proof (lo_task _ _ Hok) as Ht. destruct (task s) as [t|]; [|by eexists].
    cbn. rewrite Ht. eexists. apply announcements_run. }
  eapply present_prefix; [by apply presence_prefix, received_prefix|exact Hb].
Qed.

(** The commands taken are those called, as far as they go. *)
Lemma taken_prefix s : live_ok dialled s → commands_in (inputs s) `prefix_of` called s.
Proof.
  intros [_ _ Hc _ _ _ _]. destruct (receiver_alive _); [|done]. rewrite Hc. by apply prefix_app_r.
Qed.

Lemma taken_queued s : live_ok dialled s → running s = true →
  called s = commands_in (inputs s) ++ queue (Handle.commands (handle s)).
Proof.
  intros [_ Ha Hc _ _ _ _] Hr. unfold running in Hr. destruct (task s); [|done]. cbn in Ha.
  by rewrite Ha, Hr in Hc.
Qed.

Lemma drop_history s :
  let s' := live_step dialled s DropHandle in
  held s' = false ∧ received s' = received s ∧ called s' = called s.
Proof. cbn. by destruct (held s) eqn:Hh. Qed.
End reading.

Section ending.
Context `{HashOrder}.
Variable dialled : option (Conn + string).

(** What a task that returned leaves behind. *)
Definition told_end (t : Task) : Prop :=
  Session.running t = false →
  links (state t) = ∅ ∧ ∃ reason, last (sent_events (state t)) = Some (Closed reason).

Lemma run_told_end ins : told_end (run (begin dialled) ins).
Proof.
  apply (foldl_preserves _ told_end).
  - destruct dialled as [[c|err]|]; try done. intros _. split; [done|]. by exists err.
  - intros t [sizes i] Ht. unfold told_end, step in *. cbn [fst snd].
    destruct (Session.running t) eqn:Hr; [|by intros _; apply Ht].
    assert (links (state (finish t)) = ∅ ∧
      ∃ reason, last (sent_events (state (finish t))) = Some (Closed reason)) as Hf.
    { split; [done|]. exists "session closed"%string. cbn. by rewrite last_snoc. }
    destruct i as [[[| |]|]|[[|]|]|c]; cbn; try done; try (intros Hn; congruence).
    destruct (inbound t); [|intros Hn; congruence]. destruct c; cbn; intros Hn; congruence.
Qed.

Definition is_take (l : Label) : bool := match l with TakeCommand _ => true | _ => false end.

(** What is still to be taken before a task nobody holds ends. *)
Definition left_over (s : Live) : nat :=
  match task s with
  | Some t => if Session.running t then S (length (queue (Handle.commands (handle s)))) else 0
  | None => 0
  end.

Lemma moved_left_over n t' s :
  task (moved n t' s) = Some t' ∧ held (moved n t' s) = held s ∧
  (left_over (moved n t' s) ≤ S (length (queue (Handle.commands (handle s)))))%nat ∧
  (Session.running t' = false → left_over (moved n t' s) = 0%nat).
Proof.
  unfold moved. set (new := drop n _).
  destruct (tell_all_fields true new s) as (_ & E2 & _ & _ & _ & _ & E7 & _).
  unfold left_over. cbn. rewrite E2, E7.
  split_and!; [done|done| |by intros ->]. destruct (Session.running t'); cbn; lia.
Qed.

Lemma take_input_left_over sizes i s :
  (is_Some (task s) → is_Some (task (take_input sizes i s))) ∧
  held (take_input sizes i s) = held s ∧
  (left_over (take_input sizes i s) ≤ left_over s)%nat.
Proof.
  unfold take_input. destruct (task s) as [t|] eqn:Ht; [|rewrite Ht; split_and!; [done..|lia]].
  destruct (Session.running t) eqn:Hr; [|rewrite Ht; split_and!; [done..|lia]].
  set (s1 := mk_live _ _ _ _ _ _ _).
  destruct (moved_left_over (length (sent_events (state t))) (step sizes t i) s1) as (E1 & E2 & E3 & _).
  rewrite E1, E2. split_and!; [by eexists|done|]. etrans; [exact E3|].
  unfold left_over. rewrite Ht, Hr. done.
Qed.

Lemma take_command_left_over sizes s :
  held s = false → is_Some (task s) →
  held (take_command sizes s) = false ∧ is_Some (task (take_command sizes s)) ∧
  (left_over (take_command sizes s) ≤ pred (left_over s))%nat.
Proof.
  intros Hh [t Ht]. unfold take_command, running. rewrite Ht, Hh.
  destruct (Session.running t) eqn:Hr.
  2:{ unfold left_over. rewrite Ht, Hr, Hh. split_and!; [done|eauto|lia]. }
  unfold chan_try_recv. destruct (queue (Handle.commands (handle s))) as [|c q] eqn:Hq.
  - unfold take_input. rewrite Ht, Hr. set (s1 := mk_live _ _ _ _ _ _ _).
    destruct (moved_left_over (length (sent_events (state t))) (step sizes t (OnCommand None)) s1)
      as (E1 & E2 & _ & E4).
    rewrite E1, E2. split_and!; [done|eauto|]. rewrite E4; [lia|].
    unfold step. by rewrite Hr.
  - set (s1 := set_handle _ _).
    destruct (take_input_left_over sizes (OnCommand (Some c)) s1) as (E1 & E2 & E3).
    rewrite E2. split_and!; [done|apply E1; by eexists|]. etrans; [exact E3|].
    unfold left_over. cbn. rewrite Ht, Hr, Hq. cbn. lia.
Qed.

Lemma unheld_step s l :
  held s = false → is_Some (task s) →
  let s' := live_step dialled s l in
  held s' = false ∧ is_Some (task s') ∧
  (left_over s' ≤ left_over s - (if is_take l then 1 else 0))%nat.
Proof.
  intros Hh Hs. cbv zeta. destruct l as [|sizes|sizes m|sizes c|p|c| |]; cbn [live_step is_take].
  - destruct Hs as [t Ht]. rewrite Ht. split_and!; [done|eauto|lia].
  - destruct (take_command_left_over sizes s Hh Hs) as (? & ? & ?). split_and!; [done..|lia].
  - destruct (take_input_left_over sizes (OnInternal m) s) as (E1 & E2 & E3).
    rewrite E2. split_and!; [done|auto|lia].
  - destruct (take_input_left_over sizes (OnConnection c) s) as (E1 & E2 & E3).
    rewrite E2. split_and!; [done|auto|lia].
  - destruct Hs as [t Ht]. rewrite Ht.
    destruct (tell_fields false (PacketEvent p) s) as (E1 & E2 & _ & _ & _ & _ & E7 & _).
    unfold left_over. rewrite E1, E2, E7. split_and!; [done|eauto|lia].
  - unfold call. rewrite Hh. split_and!; [done..|lia].
  - unfold try_recv. rewrite Hh. split_and!; [done..|lia].
  - rewrite Hh. split_and!; [done..|lia].
Qed.

Lemma unheld_run s ls :
  held s = false → is_Some (task s) →
  (left_over (live_run dialled s ls) ≤ left_over s - length (base.filter is_take ls))%nat.
Proof.
  revert s. induction ls as [|l ls IH]; intros s Hh Hs; cbn [live_run foldl].
  { cbn. lia. }
  destruct (unheld_step s l Hh Hs) as (Hh' & Hs' & Hl). specialize (IH _ Hh' Hs').
  unfold live_run in *. rewrite filter_cons. destruct (is_take l) eqn:E; cbn in *.
  - rewrite decide_True by done. cbn. lia.
  - rewrite decide_False by auto. lia.
Qed.
End ending.

(** ** Properties *)

(** C12: the two halves of a session agree, however they interleave. Whatever the
    main thread calls, the task is scheduled to do and the network brings: the
    task is always where running it on the inputs it took leads; it takes the
    commands in the order they were called, each once, and while it runs none is
    lost; the main thread reads what the task and the readers sent, in order and
    once, without a gap; the map it looks peers up in is the task's; and what it
    reads about one peer alternates between connected and disconnected. *)
Theorem session_halves_agree `{HashOrder} dialled refuse ls :
  let s := live_run dialled (start refuse) ls in
  (∀ t, task s = Some t →
     t = run (begin dialled) (inputs s) ∧ by_task (sent s) = sent_events (state t) ∧
     Handle.shared_connections (handle s) = connections (state t)) ∧
  (commands_in (inputs s) `prefix_of` called s) ∧
  (running s = true → called s = commands_in (inputs s) ++ queue (Handle.commands (handle s))) ∧
  (received s `prefix_of` (sent s).*2) ∧
  (held s = true → received s ++ queue (Handle.events (handle s)) = (sent s).*2) ∧
  ∀ p, is_Some (present false (presence p (received s))).
Proof.
  intros s. assert (live_ok dialled s) as Hok by apply live_run_ok, start_ok.
  pose proof Hok as [H1 H2 H3 H4 H5 H6 H7]. split_and!.
  - intros t Ht. rewrite Ht in *. done.
  - by apply (taken_prefix dialled).
  - by apply (taken_queued dialled).
  - by apply (received_prefix dialled).
  - intros Hh. rewrite Hh in H4. apply H4.
  - intros p. by apply (received_presence dialled).
Qed.

(** C13: letting go of a session ends it. From any moment at which the handle is
    dropped, whatever else happens, the task has returned once its command arm
    was taken once for each command still queued and once more to find the
    channel closed; it then holds no link any more, and the last thing it said
    is that the session is closed. *)
Theorem dropped_session_ends `{HashOrder} dialled refuse ls ls' :
  let s := live_run dialled (start refuse) ls in
  is_Some (task s) →
  (length (queue (Handle.commands (handle s))) < length (base.filter is_take ls'))%nat →
  let s' := live_run dialled s (DropHandle :: ls') in
  ∃ t reason, task s' = Some t ∧ Session.running t = false ∧ links (state t) = ∅ ∧
    last (by_task (sent s')) = Some (Closed reason).
Proof.
  intros s Hs Hn s'. assert (live_ok dialled s) as Hok by apply live_run_ok, start_ok.
  set (s1 := live_step dialled s DropHandle).
  assert (held s1 = false ∧ is_Some (task s1) ∧
    queue (Handle.commands (handle s1)) = queue (Handle.commands (handle s))) as (Hh & Ht1 & Hq).
  { subst s1. cbn. destruct (held s) eqn:E; [done|]. by split_and!. }
  pose proof (unheld_run dialled s1 ls' Hh Ht1) as Hl.
  assert (live_ok dialled s') as Hok' by (by apply live_run_ok).
  assert (held s' = false ∧ is_Some (task s')) as [_ [t Ht]].
  { subst s'. change (live_run dialled s (DropHandle :: ls')) with (live_run dialled s1 ls').
    apply (foldl_preserves _ (λ s, held s = false ∧ is_Some (task s))); [done|].
    intros s2 l [Hh2 Ht2]. destruct (unheld_step dialled s2 l Hh2 Ht2) as (? & ? & _). done. }
  change (live_run dialled s1 ls') with s' in Hl.
  assert (Session.running t = false) as Hr.
  { destruct (Session.running t) eqn:Hr; [|done]. exfalso.
    assert (left_over s1 ≤ S (length (queue (Handle.commands (handle s1)))))%nat as Hle.
    { unfold left_over. repeat case_match; lia. }
    unfold left_over at 1 in Hl. rewrite Ht, Hr in Hl. rewrite Hq in Hle. lia. }
  destruct Hok' as [H1 _ _ _ H5 _ _]. rewrite Ht in *.
  destruct (run_told_end dialled (inputs s')) as [Hnone [reason Hlast]]; [by rewrite <- H1|].
  exists t, reason. rewrite H5. cbn. rewrite H1. split_and!; try done. by rewrite <- H1.
Qed.

Lemma dropped_session_ends_witness :
  let none := (λ _ : Conn, @None Z) in
  let s := live_run (H := listing_order) None (start None)
             [Begin; Call (Disconnect 2); TakeConnection none (Some 4%nat)] in
  let s' := live_run (H := listing_order) None s
              (DropHandle :: [TakeCommand none; TakeConnection none (Some 5%nat); TakeCommand none]) in
  ∃ t reason, task s' = Some t ∧ Session.running t = false ∧ links (state t) = ∅ ∧
    last (by_task (sent s')) = Some (Closed reason).
Proof.
  intros none s.
  refine (@dropped_session_ends listing_order None None
    [Begin; Call (Disconnect 2); TakeConnection none (Some 4%nat)]
    [TakeCommand none; TakeConnection none (Some 5%nat); TakeCommand none] _ _); [by eexists|].
  vm_compute. lia.
Defined.

(** The end of a session is not always the end of its events: a guest's task
    that lost its host reports [Closed] and goes on, and what the reader of the
    control stream had read by then is still applied. *)
Example closed_guest_goes_on `{HashOrder} :
  let none := (λ _ : Conn, @None Z) in
  let s := live_run (Some (inl 0%nat)) (start None)
             [Begin; TakeInternal none (Some (Lost HOST_ID));
              TakeInternal none (Some (InternalControl (Welcome 3 [])))] in
  running s = true ∧
  queue (Handle.events (handle s)) = [Closed "host disconnected"; Ready 3; PeerConnected HOST_ID].
Proof. by vm_compute. Qed.
