(* ===== verification/Game.v ===== *)
(** * A game on a session ([peer.rs] over [session.rs])

    [IrohPeer] as the main thread of a game uses it from the moment [host] or
    [join] returned, while the runtime drives the task behind the session. The
    peer is the one of [Peer] and the session the one of [Live]; a step is a
    method call or something the runtime or the network does. [coupled] says
    that every call on the peer is, on the session, the labels of [labels]. *)

From S2P Require Import Prelude Wire.
From S2P Require Session Handle Live.
From S2P Require Import Dispatch.
From S2P Require Import Peer.
Import Live (Label, Begin, TakeCommand, TakeInternal, TakeConnection, ReaderTells, Call, TryRecv,
  DropHandle, live_step, live_run, live_ok).

Section game.
Context {E : Type} `{Countable E} `{AlpnRegistry R Reg} {Addr : Type} `{HashOrder}.
Abbreviation world := (World (E := E) (R := R) (Reg := Reg) (Addr := Addr)).
Variable dialled : option (Conn + string).
(** What is connected to the signals: see [Peer]. *)
Variable react : Signal → world → world.

(** [puts] are the commands of the sends that answered [OK], [fetched] the
    packets handed out, and [closing] whether the game called [close]. *)
Record Game : Type := mk_game {
  game_world : world;
  live : Live.Live;
  puts : list Session.Command;
  fetched : list Packet;
  closing : bool;
}.

Inductive Op : Type :=
  | Network (l : Label)
  | PutPacket (buffer : bytes) (size : Z)
  | PutPacketScript (buffer : bytes)
  | GetPacket
  | SetTarget (target : Z)
  | SetChannel (channel : Z)
  | SetMode (mode : TransferMode)
  | SetRefuse (refuse : bool)
  | DisconnectPeer (peer : Z)
  | Poll
  | CloseSession.

(** The labels that are not calls of the main thread. *)
Definition is_network (l : Label) : bool :=
  match l with Call _ | TryRecv | DropHandle => false | _ => true end.

(** What a call does to the peer. *)
Definition perform (op : Op) (w : world) : world :=
  let p := this w in
  match op with
  | Network _ => w
  | PutPacket buffer size => with_this (put_packet_rawptr buffer size p).1 w
  | PutPacketScript buffer => with_this (put_packet_script buffer p).1 w
  | GetPacket => with_this (get_packet_rawptr p).1 w
  | SetTarget target => with_this (set_target_peer target p) w
  | SetChannel channel => with_this (set_transfer_channel channel p) w
  | SetMode mode => with_this (set_transfer_mode mode p) w
  | SetRefuse refuse => set_refuse_new_connections refuse w
  | DisconnectPeer peer => with_this (disconnect_peer peer p) w
  | Poll => poll react w
  | CloseSession => with_this (close p) w
  end.

(** The command of a send, with the settings in force. *)
Definition send_command (data : bytes) (p : IrohPeer (E := E)) : Session.Command :=
  Session.Send (target_peer p) (transfer_channel p) (to_session_mode (transfer_mode p)) data.

Definition bytes_put (buffer : bytes) (size : Z) : bytes :=
  if decide (size = 0) then [] else take (Z.to_nat size) buffer.

(** The send an operation amounts to, if it answered [OK]. *)
Definition put_of (op : Op) (w : world) : list Session.Command :=
  let p := this w in
  match op with
  | PutPacket buffer size =>
      match (put_packet_rawptr buffer size p).2 with
      | OK => [send_command (bytes_put buffer size) p]
      | _ => []
      end
  | PutPacketScript buffer =>
      match (put_packet_script buffer p).2 with OK => [send_command buffer p] | _ => [] end
  | _ => []
  end.

Definition fetched_by (op : Op) (w : world) : list Packet :=
  match op with
  | GetPacket => option_list (head (incoming (this w)))
  | _ => []
  end.

(** The events one poll takes. *)
Definition taken (w : world) : list Event :=
  match session (this w) with Some s => queue (Handle.events s) | None => [] end.

(** The same call, seen on the session. *)
Definition labels (op : Op) (w : world) : list Label :=
  match session (this w) with
  | None => []
  | Some _ =>
      match op with
      | PutPacket _ _ | PutPacketScript _ => Call <$> put_of op w
      | DisconnectPeer peer => [Call (Session.Disconnect peer)]
      | Poll => ((λ _, TryRecv) <$> taken w) ++ (if ends (taken w) then [DropHandle] else [])
      | CloseSession => [Call Session.Close; DropHandle]
      | _ => []
      end
  end.

(** The handle lives in the peer and is one end of the session. *)
Definition attach (s : Live.Live) (w : world) : world :=
  match session (this w) with
  | Some _ => with_this (set_session (Some (Live.handle s)) (this w)) w
  | None => w
  end.

Definition game_step (g : Game) (op : Op) : Game :=
  let w := game_world g in
  match op with
  | Network l =>
      if is_network l then
        let s := live_step dialled (live g) l in
        mk_game (attach s w) s (puts g) (fetched g) (closing g)
      else g
  | _ =>
      mk_game (perform op w) (live_run dialled (live g) (labels op w)) (puts g ++ put_of op w)
        (fetched g ++ fetched_by op w)
        (closing g || match op with CloseSession => true | _ => false end)
  end.

Definition game_run (g : Game) (ops : list Op) : Game := foldl game_step g ops.

(** A peer that was given a session just now. *)
Definition begin_game (w : world) (refuse : option nat) : Game :=
  mk_game w (Live.start refuse) [] [] false.
End game.

(** ** What the game is told, from the events *)

Definition signal_of (e : Event) : option Signal :=
  match e with
  | PeerConnected id => Some (peer_connected id)
  | PeerDisconnected id => Some (peer_disconnected id)
  | Warning text => Some (warning text)
  | _ => None
  end.

Lemma signals_of_fst queued evs : (signals_of queued evs).*1 = omap signal_of evs.
Proof. revert queued. induction evs as [|[] evs IH]; intros queued; cbn; by rewrite ?IH. Qed.

(** What a game hears about one peer: [true] for connected. *)
Definition heard (p : Z) (l : list Signal) : list bool :=
  omap (λ s, match s with
             | peer_connected q => if decide (q = p) then Some true else None
             | peer_disconnected q => if decide (q = p) then Some false else None
             | warning _ => None
             end) l.

Lemma heard_signals p evs : heard p (omap signal_of evs) = Session.presence p evs.
Proof.
  unfold heard, Session.presence. induction evs as [|[] evs IH]; cbn; try done;
    case_decide; by rewrite IH.
Qed.

Definition is_send (c : Session.Command) : Prop :=
  match c with Session.Send _ _ _ _ => True | _ => False end.

#[export] Instance is_send_dec c : Decision (is_send c).
Proof. destruct c; cbn; apply _. Defined.

Section proofs.
Context {E : Type} `{Countable E} `{AlpnRegistry R Reg} {Addr : Type} `{HashOrder}.
Abbreviation world := (World (E := E) (R := R) (Reg := Reg) (Addr := Addr)).
Variable dialled : option (Conn + string).
Variable react : Signal → world → world.
Hypothesis Hpassive : passive react.
Abbreviation game := (Game (E := E) (R := R) (Reg := Reg) (Addr := Addr)).
Implicit Types w : world.
Implicit Types s : Live.Live.

(** The handle the peer holds is the session's. *)
Definition coupled (w : world) (s : Live.Live) : Prop :=
  session (this w) = if Live.held s then Some (Live.handle s) else None.

Lemma coupled_network w s l :
  is_network l = true → coupled w s → coupled (attach (live_step dialled s l) w) (live_step dialled s l).
Proof.
  intros Hl Hc. assert (Live.held (live_step dialled s l) = Live.held s) as Hh.
  { assert (∀ n t' s, Live.held (Live.moved n t' s) = Live.held s) as Hm.
    { intros n t' s'. by destruct (Live.moved_left_over n t' s') as (_ & -> & _). }
    assert (∀ sizes i s, Live.held (Live.take_input sizes i s) = Live.held s) as Ht
      by (intros; apply Live.take_input_left_over).
    destruct l as [|sizes|sizes m|sizes c|p|c| |]; try done; cbn [live_step].
    - by destruct (Live.task s).
    - unfold Live.take_command. destruct (Live.running s); [|done].
      destruct (chan_try_recv _) as [[c|] ch]; [by rewrite Ht|].
      destruct (Live.held s) eqn:E1; [done|]. by rewrite Ht.
    - apply Ht.
    - apply Ht.
    - by destruct (Live.task s). }
  unfold coupled, attach in *. rewrite Hh. destruct (Live.held s); rewrite Hc; cbn; [done|by rewrite Hc].
Qed.

(** Reading until nothing is queued. *)
Definition read_all (s : Live.Live) : Live.Live :=
  let h := Live.handle s in
  Live.mk_live (Live.task s)
    (Handle.mk_handle (mk_chan [] (receiver_alive (Handle.events h))) (Handle.commands h)
       (Handle.refuse h) (Handle.shared_connections h))
    (Live.held s) (Live.inputs s) (Live.called s) (Live.sent s)
    (Live.received s ++ queue (Handle.events h)).

Lemma live_run_app s ls ls' : live_run dialled s (ls ++ ls') = live_run dialled (live_run dialled s ls) ls'.
Proof. apply foldl_app. Qed.

Lemma try_recv_all s :
  Live.held s = true →
  live_run dialled s ((λ _, TryRecv) <$> queue (Handle.events (Live.handle s))) = read_all s.
Proof.
  remember (queue (Handle.events (Live.handle s))) as evs eqn:Hq. revert s Hq.
  induction evs as [|e evs IH]; intros s Hq Hh; cbn [fmap list_fmap live_run foldl].
  - unfold read_all. rewrite <- Hq, app_nil_r.
    destruct s as [t [[q a] ? ? ?] ? ? ? ? ?]; cbn in *; by subst.
  - unfold live_run in IH. rewrite IH.
    + unfold read_all, live_step, Live.try_recv. rewrite Hh. unfold Handle.try_recv, chan_try_recv.
      rewrite <- Hq. cbn. by rewrite <- app_assoc.
    + cbn. unfold Live.try_recv. rewrite Hh. unfold Handle.try_recv, chan_try_recv. by rewrite <- Hq.
    + cbn. unfold Live.try_recv. rewrite Hh. unfold Handle.try_recv, chan_try_recv. by rewrite <- Hq.
Qed.

(** What one poll leaves, on both sides. *)
Lemma poll_spec w s :
  coupled w s →
  let w' := poll react w in
  let s' := live_run dialled s (labels Poll w) in
  coupled w' s' ∧
  incoming (this w') = incoming (this w) ++ packets_of (taken w) ∧
  (signals w').*1 = (signals w).*1 ++ omap signal_of (taken w) ∧
  (unique_id (this w'), status (this w')) = standing (unique_id (this w), status (this w)) (taken w) ∧
  Live.received s' = Live.received s ++ taken w ∧ Live.called s' = Live.called s ∧
  Live.held s' = Live.held s && negb (ends (taken w)).
Proof.
  intros Hc. unfold coupled in Hc. unfold poll, drain_session, labels, taken.
  destruct (session (this w)) as [h|] eqn:Hs.
  - destruct (Live.held s) eqn:Hh; [|done]. injection Hc as ->.
    rewrite chan_drain_spec. set (evs := queue (Handle.events (Live.handle s))).
    set (p1 := set_session _ _).
    destruct (events_batch react evs (with_this p1 w) Hpassive) as (Hi & Hsg & Hst & Hse & _).
    rewrite live_run_app. unfold evs at 6 7 8 9. rewrite try_recv_all by done. fold evs.
    set (w' := foldl (handle react) (with_this p1 w) evs) in *.
    cbn [with_this this p1 set_session incoming signals unique_id status session endpoint] in *.
    rewrite Hi, Hsg, Hst, fmap_app, signals_of_fst.
    destruct (ends evs) eqn:He; injection Hse as Hse _; cbn.
    + unfold coupled. cbn. rewrite Hh. cbn. by split_and!.
    + unfold coupled. cbn. rewrite Hh. by split_and!.
  - cbn. rewrite !app_nil_r. split_and!; try done.
    + unfold coupled. destruct w; cbn in *. congruence.
    + by rewrite andb_true_r.
Qed.

(** A call on the session's side. *)
Lemma call_spec s c :
  Live.held s = true →
  Live.handle (live_step dialled s (Call c)) = Handle.command c (Live.handle s) ∧
  Live.held (live_step dialled s (Call c)) = true ∧
  Live.received (live_step dialled s (Call c)) = Live.received s ∧
  Live.called (live_step dialled s (Call c)) = Live.called s ++ [c].
Proof. intros Hh. cbn. unfold Live.call. by rewrite Hh. Qed.

Lemma send_spec w s data :
  coupled w s →
  let cs := match (send data (this w)).2 with OK => [send_command data (this w)] | _ => [] end in
  coupled (with_this (send data (this w)).1 w)
    (live_run dialled s (match session (this w) with Some _ => Call <$> cs | None => [] end)) ∧
  (session (this w) = None → cs = []) ∧
  incoming (send data (this w)).1 = incoming (this w) ∧
  (unique_id (send data (this w)).1, status (send data (this w)).1) =
    (unique_id (this w), status (this w)).
Proof.
  unfold coupled, send. intros Hc. case_decide as Hst.
  - destruct (session (this w)) as [h|] eqn:Hs; [|cbn; by rewrite Hs].
    destruct (Live.held s) eqn:Hh; [|done]. injection Hc as ->. cbn.
    destruct (call_spec s (send_command data (this w)) Hh) as (E1 & E2 & _).
    cbn in E1, E2. by rewrite E1, E2.
  - cbn. by destruct (session (this w)).
Qed.

(** A send, with the task's queue behind it. *)
Lemma sends_spec w s data cs :
  coupled w s →
  cs = match (send data (this w)).2 with OK => [send_command data (this w)] | _ => [] end →
  let s' := live_run dialled s (match session (this w) with Some _ => Call <$> cs | None => [] end) in
  coupled (with_this (send data (this w)).1 w) s' ∧ Live.received s' = Live.received s ∧
  base.filter is_send (Live.called s') = base.filter is_send (Live.called s) ++ cs ∧
  Live.held s' = Live.held s && true ∧ incoming (send data (this w)).1 = incoming (this w) ∧
  (unique_id (send data (this w)).1, status (send data (this w)).1) =
    (unique_id (this w), status (this w)).
Proof.
  intros Hc Hcs. destruct (send_spec w s data Hc) as (Hco & Hno & Hi & Hst).
  rewrite <- Hcs in Hco, Hno. rewrite andb_true_r. unfold coupled in Hc.
  destruct (session (this w)) as [h|] eqn:Hs; [|rewrite Hno, app_nil_r by done; by split_and!].
  destruct (Live.held s) eqn:Hh; [|done].
  destruct (decide (cs = [])) as [->|Hne]; [rewrite app_nil_r; by split_and!|].
  assert (cs = [send_command data (this w)]) as -> by (destruct (send data (this w)).2; by subst).
  destruct (call_spec s (send_command data (this w)) Hh) as (_ & E2 & E3 & E4).
  cbn [fmap list_fmap live_run foldl] in *. rewrite E2, E3, E4, filter_app. by split_and!.
Qed.

(** The operations that are not [poll] and not the network. *)
Lemma op_spec op w s :
  coupled w s → (∀ l, op ≠ Network l) → op ≠ Poll →
  let w' := perform react op w in
  let s' := live_run dialled s (labels op w) in
  coupled w' s' ∧ signals w' = signals w ∧ Live.received s' = Live.received s ∧
  base.filter is_send (Live.called s') = base.filter is_send (Live.called s) ++ put_of op w ∧
  Live.held s' = Live.held s && match op with CloseSession => false | _ => true end ∧
  match op with
  | CloseSession => incoming (this w') = [] ∧ (unique_id (this w'), status (this w')) = (0, DISCONNECTED)
  | _ => fetched_by op w ++ incoming (this w') = incoming (this w) ∧
         (unique_id (this w'), status (this w')) = (unique_id (this w), status (this w))
  end.
Proof.
  intros Hc Hn Hp.
  pose proof (λ data cs, sends_spec w s data cs Hc) as Hsend.
  destruct op as [l|buffer size|buffer| |t|c|m|b|p| |]; try done; try (by destruct (Hn l));
    unfold labels; cbn [perform put_of fetched_by this with_this].
  - unfold put_packet_rawptr. case_decide; cbn [fst snd].
    + unfold coupled in *. destruct (session (this w)) eqn:Hs; cbn; rewrite ?andb_true_r, ?app_nil_r, ?Hs; by split_and!.
    + destruct (Hsend (bytes_put buffer size) _ eq_refl) as (? & ? & ? & ? & ? & ?). by split_and!.
  - destruct (Hsend buffer _ eq_refl) as (? & ? & ? & ? & ? & ?). by split_and!.
  - unfold coupled, get_packet_rawptr in *. destruct (session (this w)) eqn:Hs;
      destruct (incoming (this w)) eqn:Hi; cbn; rewrite ?andb_true_r, ?app_nil_r, ?Hs, ?Hi; by split_and!.
  - unfold coupled in *. destruct (session (this w)) eqn:Hs; cbn; rewrite ?andb_true_r, ?app_nil_r, ?Hs; by split_and!.
  - unfold coupled in *. destruct (session (this w)) eqn:Hs; cbn; rewrite ?andb_true_r, ?app_nil_r, ?Hs; by split_and!.
  - unfold coupled in *. destruct (session (this w)) eqn:Hs; cbn; rewrite ?andb_true_r, ?app_nil_r, ?Hs; by split_and!.
  - unfold coupled, set_refuse_new_connections in *. destruct (session (this w)) eqn:Hs;
      destruct (endpoint (this w)); [|cbn; rewrite ?andb_true_r, ?app_nil_r; by split_and!..].
    cbn. destruct (dispatchers w !! _); cbn; rewrite ?andb_true_r, ?app_nil_r; by split_and!.
  - unfold coupled, disconnect_peer in *. destruct (session (this w)) as [h|] eqn:Hs;
      [|cbn; rewrite ?andb_true_r, ?app_nil_r; by split_and!].
    destruct (Live.held s) eqn:Hh; [|done]. injection Hc as ->.
    destruct (call_spec s (Session.Disconnect p) Hh) as (E1 & E2 & E3 & E4).
    cbn [fmap list_fmap live_run foldl] in *. rewrite E1, E2, E3, E4, filter_app. cbn.
    by rewrite ?app_nil_r; split_and!.
  - unfold coupled, close in *. destruct (session (this w)) as [h|] eqn:Hs.
    + destruct (Live.held s) eqn:Hh; [|done].
      destruct (call_spec s Session.Close Hh) as (E1 & E2 & E3 & E4).
      change (live_run dialled s [Call Session.Close; DropHandle])
        with (live_step dialled (live_step dialled s (Call Session.Close)) DropHandle).
      set (s1 := live_step dialled s (Call Session.Close)) in *. clearbody s1.
      cbn [live_step]. rewrite E2. cbn. rewrite E3, E4, filter_app. cbn. rewrite !app_nil_r. by split_and!.
    + cbn. destruct (Live.held s) eqn:Hh; [done|]. rewrite app_nil_r. by split_and!.
Qed.

(** ** What a run keeps

    [w0] is the world the session was started in. *)

Record game_ok (w0 : world) (g : game) : Prop := {
  go_live : live_ok dialled (live g);
  go_coupled : coupled (game_world g) (live g);
  go_signals : (signals (game_world g)).*1
                 = (signals w0).*1 ++ omap signal_of (Live.received (live g));
  go_closing : closing g = true → Live.held (live g) = false;
  go_packets :
    if closing g then incoming (this (game_world g)) = [] ∧
         fetched g `prefix_of` incoming (this w0) ++ packets_of (Live.received (live g))
    else fetched g ++ incoming (this (game_world g))
           = incoming (this w0) ++ packets_of (Live.received (live g));
  go_status : (unique_id (this (game_world g)), status (this (game_world g))) =
    if closing g then (0, DISCONNECTED)
    else standing (unique_id (this w0), status (this w0)) (Live.received (live g));
  go_puts : puts g = base.filter is_send (Live.called (live g));
}.

Lemma begin_game_ok w0 refuse :
  session (this w0) = Some (Handle.fresh_handle [] refuse) → game_ok w0 (begin_game w0 refuse).
Proof.
  intros Hs. split; cbn; try done; [apply Live.start_ok|by rewrite app_nil_r..].
Qed.

(** The network moves the session, and nothing else of what is kept. *)
Lemma network_history s l :
  is_network l = true →
  Live.received (live_step dialled s l) = Live.received s ∧
  Live.called (live_step dialled s l) = Live.called s.
Proof.
  assert (∀ n t' s, Live.received (Live.moved n t' s) = Live.received s ∧
    Live.called (Live.moved n t' s) = Live.called s) as Hm.
  { intros n t' s'. unfold Live.moved. cbn.
    by destruct (Live.tell_all_fields true (drop n (Session.sent_events (Session.state t'))) s')
      as (_ & _ & _ & -> & -> & _). }
  assert (∀ sizes i s, Live.received (Live.take_input sizes i s) = Live.received s ∧
    Live.called (Live.take_input sizes i s) = Live.called s) as Ht.
  { intros sizes i s'. unfold Live.take_input. destruct (Live.task s') as [t|]; [|done].
    destruct (Session.running t); [|done]. set (s1 := Live.mk_live _ _ _ _ _ _ _).
    by destruct (Hm (length (Session.sent_events (Session.state t))) (Session.step sizes t i) s1) as [-> ->]. }
  destruct l as [|sizes|sizes m|sizes c|p|c| |]; intros Hl; try done; cbn [live_step].
  - destruct (Live.task s); [done|]. apply Hm.
  - unfold Live.take_command. destruct (Live.running s); [|done].
    destruct (chan_try_recv _) as [[c|] ch].
    + set (s1 := Live.set_handle _ s). by destruct (Ht sizes (Session.OnCommand (Some c)) s1) as [-> ->].
    + destruct (Live.held s); [done|apply Ht].
  - apply Ht.
  - apply Ht.
  - destruct (Live.task s); [|done]. done.
Qed.

Lemma packets_of_app l k : packets_of (l ++ k) = packets_of l ++ packets_of k.
Proof. apply omap_app. Qed.

Lemma standing_app st l k : standing st (l ++ k) = standing (standing st l) k.
Proof. apply foldl_app. Qed.

Lemma network_step_ok w0 g l : game_ok w0 g → game_ok w0 (game_step dialled react g (Network l)).
Proof.
  intros [K1 K2 K3 K4 K5 K6 K7]. cbn. destruct (is_network l) eqn:Hl; [|by split].
  pose proof (coupled_network _ _ l Hl K2) as Hc.
  destruct (network_history (live g) l Hl) as [Hr Hca].
  assert (Live.held (live_step dialled (live g) l) = Live.held (live g)) as Hh.
  { unfold coupled, attach in Hc, K2. rewrite K2 in Hc.
    destruct (Live.held (live g)), (Live.held (live_step dialled (live g) l)); cbn in Hc; congruence. }
  assert (∀ s, this (attach s (game_world g)) =
      match session (this (game_world g)) with
      | Some _ => set_session (Some (Live.handle s)) (this (game_world g))
      | None => this (game_world g)
      end ∧ signals (attach s (game_world g)) = signals (game_world g)) as Hat.
  { intros s. unfold attach. by destruct (session (this (game_world g))). }
  destruct (Hat (live_step dialled (live g) l)) as [Eth Esg].
  split; cbn; rewrite ?Hr, ?Hca, ?Hh, ?Esg; try done.
  - by apply Live.live_step_ok.
  - rewrite Eth. by destruct (session (this (game_world g))).
  - rewrite Eth. by destruct (session (this (game_world g))).
Qed.

Lemma poll_step_ok w0 g : game_ok w0 g → game_ok w0 (game_step dialled react g Poll).
Proof.
  intros [K1 K2 K3 K4 K5 K6 K7].
  destruct (poll_spec (game_world g) (live g) K2) as (E1 & E2 & E3 & E4 & E5 & E6 & E7).
  assert (closing g = true → taken (game_world g) = []) as Hclosed.
  { intros Hc%K4. unfold taken. unfold coupled in K2. by rewrite K2, Hc. }
  split; cbn [game_step perform game_world live closing fetched puts put_of fetched_by];
    rewrite ?app_nil_r, ?orb_false_r, ?E2, ?E3, ?E4, ?E5, ?E6, ?E7, ?K3; try done.
  - by apply Live.live_run_ok.
  - by rewrite omap_app, app_assoc.
  - by intros ->%K4.
  - destruct (closing g).
    + rewrite Hclosed by done. cbn. rewrite !app_nil_r. done.
    + by rewrite packets_of_app, !app_assoc, K5.
  - destruct (closing g).
    + by rewrite Hclosed by done.
    + by rewrite standing_app, <- K6.
Qed.

Lemma op_step_ok w0 g op :
  (∀ l, op ≠ Network l) → op ≠ Poll → game_ok w0 g → game_ok w0 (game_step dialled react g op).
Proof.
  intros Hn Hp [K1 K2 K3 K4 K5 K6 K7].
  destruct (op_spec op (game_world g) (live g) K2 Hn Hp) as (E1 & E2 & E3 & E4 & E5 & E6).
  assert (game_step dialled react g op =
    mk_game (perform react op (game_world g)) (live_run dialled (live g) (labels op (game_world g)))
      (puts g ++ put_of op (game_world g)) (fetched g ++ fetched_by op (game_world g))
      (closing g || match op with CloseSession => true | _ => false end)) as ->
    by (destruct op; [by destruct (Hn l)|done..]).
  split; cbn [game_world live closing fetched puts]; rewrite ?E2, ?E3, ?E4, ?E5, ?K3, ?K7; try done.
  - by apply Live.live_run_ok.
  - destruct op; rewrite ?andb_false_r, ?orb_false_r; try done; intros ->%K4; done.
  - assert (op = CloseSession ∨ (op ≠ CloseSession ∧
      fetched_by op (game_world g) ++ incoming (this (perform react op (game_world g)))
        = incoming (this (game_world g)))) as [->|[Hne Hi]]
      by (destruct op; try (right; split; [done|apply E6]); by left).
    + rewrite orb_true_r. cbn [fetched_by]. rewrite app_nil_r. split; [apply E6|].
      destruct (closing g); [apply K5|]. rewrite <- K5. by apply prefix_app_r.
    + assert (match op with CloseSession => true | _ => false end = false) as -> by (by destruct op).
      rewrite orb_false_r. destruct (closing g); [|by rewrite <- app_assoc, Hi].
      destruct K5 as [Hin Hpre]. rewrite Hin in Hi. apply app_eq_nil in Hi as [-> ->].
      by rewrite app_nil_r.
  - destruct op; rewrite ?orb_true_r, ?orb_false_r; try (rewrite <- K6; apply E6). apply E6.
Qed.

Lemma game_run_ok w0 g ops : game_ok w0 g → game_ok w0 (game_run dialled react g ops).
Proof.
  intros Hok. apply (foldl_preserves _ (game_ok w0)); [done|]. clear g Hok. intros g op Hok.
  destruct op; try (by apply op_step_ok); [by apply network_step_ok|by apply poll_step_ok].
Qed.
End proofs.

(** ** Where a game begins *)

(** [host] on an endpoint nobody hosts on, and [join], when the runtime takes the
    task: the peer holds a fresh handle. *)
Lemma host_begins `{Countable E} `{AlpnRegistry R Reg} {Addr} (e : E) (r : R)
    (w : World (E := E) (R := R) (Reg := Reg) (Addr := Addr)) :
  dispatchers w !! e = Some r → ALPN ∉ held r →
  (host true e w).2 = true ∧
  ∃ refuse, session (this (host true e w).1) = Some (Handle.fresh_handle [] refuse).
Proof.
  intros Hr Hfree. unfold host. rewrite Hr. unfold Handle.host, Handle.start.
  destruct (register_free ALPN r Hfree) as (r' & g & -> & _). cbn. eauto.
Qed.

Lemma join_begins `{Countable E} `{AlpnRegistry R Reg} {Addr Id} `{EqDecision Id}
    (addr_id : Addr → Id) own_id (e : E) (r : R) addr
    (w : World (E := E) (R := R) (Reg := Reg) (Addr := Addr)) :
  dispatchers w !! e = Some r → addr_id addr ≠ own_id r →
  (start_join addr_id own_id true e addr w).2 = true ∧
  ∃ refuse, session (this (start_join addr_id own_id true e addr w).1)
              = Some (Handle.fresh_handle [] refuse).
Proof.
  intros Hr Hid. unfold start_join. rewrite Hr, decide_False by done. cbn. eauto.
Qed.

(** Without a session neither polling nor the network changes the peer. *)
Lemma sessionless_world `{Countable E} `{AlpnRegistry R Reg} {Addr} `{HashOrder} dialled react
    (g : Game (E := E) (R := R) (Reg := Reg) (Addr := Addr)) op :
  session (this (game_world g)) = None →
  match op with Network _ | Poll => True | _ => False end →
  game_world (game_step dialled react g op) = game_world g.
Proof.
  intros Hs Hop. destruct op as [l| | | | | | | | | |]; try done; cbn.
  - destruct (is_network l); [|done]. cbn. unfold attach. by rewrite Hs.
  - unfold poll, drain_session. rewrite Hs. cbn. by destruct (game_world g).
Qed.

(** What a guest's task says when the loss of the host comes before its welcome. *)
Definition late_welcome (sizes : Conn → option Z) (id : Z) (peers : list Z) : list Label :=
  [Begin; TakeInternal sizes (Some (Lost HOST_ID));
   TakeInternal sizes (Some (InternalControl (Welcome id peers)))].

Lemma apply_welcome_events id peers st :
  ∃ more, Session.sent_events (Session.apply (Welcome id peers) st)
            = Session.sent_events st ++ Ready id :: more ∧
    Forall (λ e, ∃ p, e = PeerConnected p) more.
Proof.
  assert (∀ p st, ∃ more, Session.sent_events (Session.announce p st) = Session.sent_events st ++ more ∧
    Forall (λ e, ∃ p, e = PeerConnected p) more) as Ha.
  { intros p st0. unfold Session.announce. case_decide.
    - exists []. by rewrite app_nil_r.
    - eexists. split; [done|]. by repeat econstructor. }
  cbn. destruct (Ha HOST_ID (Session.send_event (Ready id) st)) as (m0 & E0 & F0).
  set (st1 := Session.announce HOST_ID _) in *.
  assert (∃ more, Session.sent_events (foldl (λ st p, Session.announce p st) st1 peers)
    = Session.sent_events st1 ++ more ∧ Forall (λ e, ∃ p, e = PeerConnected p) more) as (m1 & E1 & F1).
  { clearbody st1. clear E0. revert st1. induction peers as [|p ps IH]; intros st1; cbn.
    - exists []. by rewrite app_nil_r.
    - destruct (Ha p st1) as (m & E & F). destruct (IH (Session.announce p st1)) as (m' & E' & F').
      exists (m ++ m'). rewrite E', E, app_assoc. split; [done|]. by apply Forall_app. }
  exists (m0 ++ m1). rewrite E1, E0. cbn. rewrite <- !app_assoc. split; [done|]. by apply Forall_app.
Qed.

Lemma late_welcome_events `{HashOrder} c refuse sizes id peers :
  let s := live_run (Some (inl c)) (Live.start refuse) (late_welcome sizes id peers) in
  Live.held s = true ∧
  ∃ more, queue (Handle.events (Live.handle s)) = Closed "host disconnected" :: Ready id :: more ∧
    Forall (λ e, ∃ p, e = PeerConnected p) more.
Proof.
  cbv zeta. cbn [live_run foldl late_welcome].
  set (s1 := live_step _ (Live.start refuse) Begin).
  assert (Live.task s1 = Some (Session.begin (Some (inl c))) ∧ Live.held s1 = true ∧
    Handle.events (Live.handle s1) = unbounded_channel) as (T1 & H1 & Q1) by done.
  clearbody s1. cbn [live_step].
  set (t2 := Session.step sizes (Session.begin (Some (inl c))) (Session.OnInternal (Some (Lost HOST_ID)))).
  assert (Session.running t2 = true ∧
    Session.sent_events (Session.state t2) = [Closed "host disconnected"]) as (R2 & S2).
  { subst t2. cbn. unfold Session.lost. cbn. done. }
  destruct (Live.take_input_fields sizes (Session.OnInternal (Some (Lost HOST_ID))) s1 _ T1 eq_refl)
    as (T2 & H2 & _ & Q2).
  fold t2 in T2, Q2. rewrite Q1 in Q2. specialize (Q2 eq_refl). rewrite S2 in Q2. cbn in Q2.
  set (s2 := Live.take_input _ _ s1) in *. clearbody s2 t2.
  destruct (Live.take_input_fields sizes
    (Session.OnInternal (Some (InternalControl (Welcome id peers)))) s2 t2 T2 R2) as (_ & H3 & _ & Q3).
  rewrite Q2 in Q3. specialize (Q3 eq_refl). rewrite H3, Q3, H2. split; [done|].
  destruct (apply_welcome_events id peers (Session.state t2)) as (more & E & F).
  exists more. split; [|done]. unfold Session.step. rewrite R2. cbn [Session.state Session.with_state queue].
  by rewrite E, drop_app_length.
Qed.

Lemma standing_announcements st more :
  Forall (λ e, ∃ p, e = PeerConnected p) more → standing st more = st.
Proof. intros Hf. revert st. by induction Hf as [|e more [p ->] _ IH]. Qed.

(** ** Properties *)

(** A game hears exactly what its session says. From the moment [host] or
    [join] returned, whatever the game calls and whatever the runtime and the
    network do in between: the signals are those of the events received, in
    order, the events received are a gapless beginning of what the task and the
    readers sent, and for every peer the signals alternate between connected and
    disconnected. Every packet that arrived is handed out once and in order; the
    unique id and the status are those the events received so far leave, until
    the game closes the peer. *)
Lemma game_hears_its_session `{Countable E} `{AlpnRegistry R Reg} {Addr} `{HashOrder}
    dialled react (w0 : World (E := E) (R := R) (Reg := Reg) (Addr := Addr)) refuse ops :
  passive react → session (this w0) = Some (Handle.fresh_handle [] refuse) →
  let g := game_run dialled react (begin_game w0 refuse) ops in
  ∃ evs, evs `prefix_of` (Live.sent (live g)).*2 ∧
    (signals (game_world g)).*1 = (signals w0).*1 ++ omap signal_of evs ∧
    (∀ p, is_Some (Session.present false (heard p (omap signal_of evs)))) ∧
    (fetched g `prefix_of` incoming (this w0) ++ packets_of evs) ∧
    (closing g = false →
       fetched g ++ incoming (this (game_world g)) = incoming (this w0) ++ packets_of evs ∧
       (unique_id (this (game_world g)), status (this (game_world g))) =
         standing (unique_id (this w0), status (this w0)) evs) ∧
    (∀ t, Live.task (live g) = Some t →
       Live.by_task (Live.sent (live g)) = Session.sent_events (Session.state t)).
Proof.
  intros Hp Hs g.
  assert (game_ok dialled w0 g) as [K1 K2 K3 K4 K5 K6 K7]
    by (by apply game_run_ok, begin_game_ok).
  pose proof K1 as [_ _ _ _ L5 _ _]. exists (Live.received (live g)). split_and!.
  - by apply (Live.received_prefix dialled).
  - done.
  - intros p. rewrite heard_signals. by apply (Live.received_presence dialled).
  - destruct (closing g); [apply K5|]. rewrite <- K5. by apply prefix_app_r.
  - intros Hc. by rewrite Hc in K5, K6.
  - intros t Ht. by rewrite L5, Ht.
Qed.

(** A guest of a host whose connection is 9, in an empty world. *)
Definition example_world : World (E := nat) (R := Registry) (Reg := Registration) (Addr := nat) :=
  mk_world (set_status CONNECTING (set_session (Some (Handle.fresh_handle [] None)) init)) ∅ [] [].

Definition no_reaction (s : Signal) (w : World (E := nat) (R := Registry) (Reg := Registration) (Addr := nat)) :=
  w.

Lemma no_reaction_passive : passive no_reaction.
Proof. by intros s w. Qed.

Definition example_ops : list Op :=
  [Network Begin;
   Network (TakeInternal (λ _, None) (Some (InternalControl (Welcome 3 [2]))));
   Network (ReaderTells (Wire.mk_packet 1 0 Reliable [x61])); Poll; GetPacket;
   SetTarget 1; PutPacketScript [x62]; DisconnectPeer 2; PutPacketScript [x63];
   Network (TakeCommand (λ _, None))].

Lemma game_hears_its_session_witness :
  let g := game_run (H1 := listing_order) (Some (inl 9%nat)) no_reaction
             (begin_game example_world None) example_ops in
  ∃ evs, evs `prefix_of` (Live.sent (live g)).*2 ∧
    (signals (game_world g)).*1 = [] ++ omap signal_of evs ∧
    (∀ p, is_Some (Session.present false (heard p (omap signal_of evs)))) ∧
    (fetched g `prefix_of` [] ++ packets_of evs) ∧
    (closing g = false →
       fetched g ++ incoming (this (game_world g)) = [] ++ packets_of evs ∧
       (unique_id (this (game_world g)), status (this (game_world g))) =
         standing (0, CONNECTING) evs) ∧
    (∀ t, Live.task (live g) = Some t →
       Live.by_task (Live.sent (live g)) = Session.sent_events (Session.state t)).
Proof.
  refine (@game_hears_its_session _ _ _ _ _ _ _ listing_order (Some (inl 9%nat)) no_reaction
    example_world None example_ops _ _); [apply no_reaction_passive|reflexivity].
Defined.

(** A welcome that comes late leaves a ghost. The watcher of a connection and
    the reader of its control stream are tasks of their own: when the host goes
    away right after the welcome, the loss can be handled first. The end of the
    session and the guest's own id then reach the game in one poll, the id last:
    the peer has let its session go but says it is connected, cannot send, and
    no poll and nothing in the network ever changes that. *)
Lemma late_welcome_leaves_a_ghost `{Countable E} `{AlpnRegistry R Reg} {Addr} `{HashOrder}
    react (w0 : World (E := E) (R := R) (Reg := Reg) (Addr := Addr)) refuse sizes c id peers ops :
  passive react → session (this w0) = Some (Handle.fresh_handle [] refuse) →
  Forall (λ op, match op with Network _ | Poll => True | _ => False end) ops →
  let g := game_run (Some (inl c)) react (begin_game w0 refuse)
             ([Network Begin; Network (TakeInternal sizes (Some (Lost HOST_ID)));
               Network (TakeInternal sizes (Some (InternalControl (Welcome id peers)))); Poll] ++ ops) in
  let p := this (game_world g) in
  session p = None ∧ status p = CONNECTED ∧ unique_id p = id ∧
  ∀ data, (send data p).2 = ERR_UNCONFIGURED.
Proof.
  intros Hp Hs Hops. cbv zeta. unfold game_run. rewrite foldl_app.
  set (g4 := foldl (game_step (Some (inl c)) react) (begin_game w0 refuse) _).
  set (g3 := game_run (Some (inl c)) react (begin_game w0 refuse) (Network <$> late_welcome sizes id peers)).
  assert (game_ok (Some (inl c)) w0 g3) as [_ K2 _ _ _ _ _] by (by apply game_run_ok, begin_game_ok).
  destruct (late_welcome_events c refuse sizes id peers) as (Hh & more & Hq & Hm).
  change (live_run _ (Live.start refuse) _) with (live g3) in Hh, Hq.
  assert (taken (game_world g3) = Closed "host disconnected" :: Ready id :: more) as Ht.
  { unfold taken. unfold coupled in K2. by rewrite K2, Hh. }
  destruct (poll_spec (Some (inl c)) react Hp (game_world g3) (live g3) K2)
    as (Hc & _ & _ & Hst & _ & _ & Hend).
  rewrite Ht in Hst, Hend. cbn [standing foldl] in Hst. fold (standing (id, CONNECTED) more) in Hst. rewrite standing_announcements in Hst by done.
  unfold coupled in Hc. cbn [ends existsb orb negb] in Hend. rewrite Hend, andb_false_r in Hc.
  pose proof (f_equal fst Hst) as Hid. apply (f_equal snd) in Hst. cbn [fst snd] in Hid, Hst.
  assert (game_world g4 = poll react (game_world g3)) as Hg4 by done.
  rewrite <- Hg4 in Hc, Hst, Hid. clearbody g4 g3.
  assert (game_world (foldl (game_step (Some (inl c)) react) g4 ops) = game_world g4) as ->.
  { induction ops as [|op ops IH] using rev_ind; [done|].
    apply Forall_app in Hops as [Hops [Hop _]%Forall_cons]. rewrite foldl_app. cbn [foldl].
    rewrite sessionless_world; [by apply IH| |done]. by rewrite IH. }
  split_and!; [done..|]. intros data. unfold send. by rewrite Hst, Hc.
Qed.

Lemma late_welcome_leaves_a_ghost_witness :
  let g := game_run (H1 := listing_order) (Some (inl 9%nat)) no_reaction (begin_game example_world None)
             ([Network Begin; Network (TakeInternal (λ _, None) (Some (Lost HOST_ID)));
               Network (TakeInternal (λ _, None) (Some (InternalControl (Welcome 3 [2])))); Poll]
              ++ [Poll; Network (TakeConnection (λ _, None) None); Poll]) in
  let p := this (game_world g) in
  session p = None ∧ status p = CONNECTED ∧ unique_id p = 3 ∧
  ∀ data, (send data p).2 = ERR_UNCONFIGURED.
Proof.
  refine (@late_welcome_leaves_a_ghost _ _ _ _ _ _ _ listing_order no_reaction example_world None
    (λ _, None) 9%nat 3 [2] [Poll; Network (TakeConnection (λ _, None) None); Poll] _ _ _);
    [apply no_reaction_passive|reflexivity|by repeat constructor].
Defined.
