(* ===== verification/Reentry.v ===== *)
(** * Callables that use the peer while it polls ([peer.rs])

    [poll] emits its signals inline, between the events it has taken up front, and
    what is connected to them (Godot's [MultiplayerAPI] among others) calls back into
    the peer: sends, fetches, changes settings, disconnects a peer, closes. [script]
    is what the callables do, which may depend on everything they can see. Starting
    another session from a signal is [Peer.rejoining_in_the_signal_is_undone]. *)

From S2P Require Import Prelude Wire.
From S2P Require Session Handle Live.
From S2P Require Import Dispatch.
From S2P Require Import Peer Game.

Section reentry.
Context {E : Type} `{Countable E} `{AlpnRegistry R Reg} {Addr : Type} `{HashOrder}.
Abbreviation world := (World (E := E) (R := R) (Reg := Reg) (Addr := Addr)).
Variable dialled : option (Conn + string).
Variable script : Signal → world → list Op.

(** What a callable may do. *)
Definition allowed (op : Op) : bool :=
  match op with Network _ | Poll => false | _ => true end.

Definition quiet (s : Signal) (w : world) : world := w.

(** The callables, as [Peer.poll] takes them. *)
Definition reacts (s : Signal) (w : world) : world :=
  foldl (λ w op, perform quiet op w) w (script s w).

(** A peer on a session. [batch] are the events of a poll that is under way, and
    [handled] those it is done with. *)
Record Turn : Type := mk_turn {
  scene : world;
  link : Live.Live;
  batch : list Event;
  handled : list Event;
  sends : list Session.Command;
  fetches : list Packet;
  closed : bool;
}.

Definition do_op (t : Turn) (op : Op) : Turn :=
  let w := scene t in
  mk_turn (perform quiet op w) (Live.live_run dialled (link t) (labels op w)) (batch t) (handled t)
    (sends t ++ put_of op w) (fetches t ++ fetched_by op w)
    (closed t || match op with CloseSession => true | _ => false end).

(** [while let Some(event) = session.try_recv() { events.push(event) }]. *)
Definition collect (t : Turn) : Turn :=
  let '(evs, p) := drain_session (this (scene t)) in
  mk_turn (with_this p (scene t)) (Live.live_run dialled (link t) ((λ _, Live.TryRecv) <$> evs)) evs
    (handled t) (sends t) (fetches t) (closed t).

(** One round of [for event in events], up to the signal, ... *)
Definition next (e : Event) (rest : list Event) (t : Turn) : Turn :=
  mk_turn (handle quiet (scene t) e)
    (match e with Closed _ => Live.live_step dialled (link t) Live.DropHandle | _ => link t end)
    rest (handled t ++ [e]) (sends t) (fetches t) (closed t).

(** ... and with the callables. *)
Definition round (t : Turn) : Turn :=
  match batch t with
  | [] => t
  | e :: rest =>
      let t := next e rest t in
      match signal_of e with
      | Some s => foldl do_op t (script s (scene t))
      | None => t
      end
  end.

Definition poll_turn (t : Turn) : Turn :=
  let t := collect t in Nat.iter (length (batch t)) round t.

Definition turn_step (t : Turn) (op : Op) : Turn :=
  match op with
  | Network l =>
      if is_network l then
        let s := Live.live_step dialled (link t) l in
        mk_turn (attach s (scene t)) s (batch t) (handled t) (sends t) (fetches t) (closed t)
      else t
  | Poll => poll_turn t
  | _ => do_op t op
  end.

Definition turn_run (t : Turn) (ops : list Op) : Turn := foldl turn_step t ops.

Definition begin_turn (w : world) (refuse : option nat) : Turn :=
  mk_turn w (Live.start refuse) [] [] [] [] false.

(** *** The poll is the source's *)

Lemma do_ops_scene ops t :
  scene (foldl do_op t ops) = foldl (λ w op, perform quiet op w) (scene t) ops ∧
  batch (foldl do_op t ops) = batch t ∧ handled (foldl do_op t ops) = handled t.
Proof. revert t. induction ops as [|op ops IH]; intros t; [done|]. apply (IH (do_op t op)). Qed.

Lemma round_scene e rest t :
  batch t = e :: rest → scene (round t) = handle reacts (scene t) e ∧ batch (round t) = rest.
Proof.
  intros Hb. unfold round. rewrite Hb. destruct e as [id|id|id|p|text|reason]; cbn; try done.
  all: match goal with |- context [foldl do_op ?t ?ops] => destruct (do_ops_scene ops t) as (-> & -> & _) end.
  all: done.
Qed.

Lemma poll_turn_scene t : scene (poll_turn t) = poll reacts (scene t).
Proof.
  unfold poll_turn, poll, collect. destruct (drain_session (this (scene t))) as [evs p].
  cbn [batch]. set (t1 := mk_turn _ _ evs _ _ _ _).
  assert (batch t1 = evs ∧ scene t1 = with_this p (scene t)) as [Hb <-] by done. clearbody t1.
  revert t1 Hb. induction evs as [|e evs IH]; intros t1 Hb; [done|].
  destruct (round_scene e evs t1 Hb) as [Hs Hr]. cbn [length foldl]. rewrite <- Hs.
  rewrite Nat.iter_succ_r. by apply IH.
Qed.
End reentry.

(** ** What a run keeps *)

Section proofs.
Context {E : Type} `{Countable E} `{AlpnRegistry R Reg} {Addr : Type} `{HashOrder}.
Abbreviation world := (World (E := E) (R := R) (Reg := Reg) (Addr := Addr)).
Abbreviation turn := (Turn (E := E) (R := R) (Reg := Reg) (Addr := Addr)).
Variable dialled : option (Conn + string).
Variable script : Signal → world → list Op.
Hypothesis polite : ∀ s w, Forall (λ op, allowed op = true) (script s w).

Record turn_ok (w0 : world) (t : turn) : Prop := {
  tu_live : Live.live_ok dialled (link t);
  tu_coupled : coupled (scene t) (link t);
  tu_batch : Live.received (link t) = handled t ++ batch t;
  tu_signals : (signals (scene t)).*1 = (signals w0).*1 ++ omap signal_of (handled t);
  tu_sends : sends t = base.filter is_send (Live.called (link t));
  tu_packets : (fetches t ++ incoming (this (scene t))) `sublist_of`
    incoming (this w0) ++ packets_of (handled t);
  tu_open : closed t = false →
    fetches t ++ incoming (this (scene t)) = incoming (this w0) ++ packets_of (handled t) ∧
    (unique_id (this (scene t)), status (this (scene t))) =
      standing (unique_id (this w0), status (this w0)) (handled t);
}.

Lemma begin_turn_ok w0 refuse :
  session (this w0) = Some (Handle.fresh_handle [] refuse) → turn_ok w0 (begin_turn w0 refuse).
Proof. intros Hs. split; cbn; rewrite ?app_nil_r; try done. apply Live.start_ok. Qed.

Lemma do_op_ok w0 t op : allowed op = true → turn_ok w0 t → turn_ok w0 (do_op dialled t op).
Proof.
  intros Ha [K1 K2 K3 K4 K5 K6 K7].
  assert ((∀ l, op ≠ Network l) ∧ op ≠ Poll) as [Hn Hp] by (by destruct op).
  destruct (op_spec dialled quiet op (scene t) (link t) K2 Hn Hp) as (E1 & E2 & E3 & E4 & _ & E6).
  split; cbn [do_op scene link batch handled sends fetches closed].
  - by apply Live.live_run_ok.
  - done.
  - by rewrite E3.
  - by rewrite E2.
  - by rewrite E4, K5.
  - assert (incoming (this (perform quiet op (scene t))) = [] ∧ fetched_by op (scene t) = [] ∨
      fetched_by op (scene t) ++ incoming (this (perform quiet op (scene t))) = incoming (this (scene t)))
      as [[-> ->]|Hi] by (destruct op; try (right; apply E6); left; by split; [apply E6|]).
    + rewrite !app_nil_r. etrans; [|exact K6]. by apply sublist_inserts_r.
    + by rewrite <- app_assoc, Hi.
  - intros [Hc Hop]%orb_false_iff. destruct (K7 Hc) as [Hpk Hst].
    destruct op; try done; destruct E6 as [Hi ->]; by rewrite <- app_assoc, Hi.
Qed.

Lemma do_ops_ok w0 t ops : Forall (λ op, allowed op = true) ops → turn_ok w0 t → turn_ok w0 (foldl (do_op dialled) t ops).
Proof.
  intros Ho. revert t. induction Ho as [|op ops Hop Ho IH]; intros t Ht; [done|]. by apply IH, do_op_ok.
Qed.

Lemma next_ok w0 t e rest : batch t = e :: rest → turn_ok w0 t → turn_ok w0 (next dialled e rest t).
Proof.
  intros Hb [K1 K2 K3 K4 K5 K6 K7]. rewrite Hb in K3.
  assert (Live.live_ok dialled (link (next dialled e rest t)) ∧
    coupled (scene (next dialled e rest t)) (link (next dialled e rest t)) ∧
    Live.received (link (next dialled e rest t)) = Live.received (link t) ∧
    Live.called (link (next dialled e rest t)) = Live.called (link t)) as (L1 & L2 & L3 & L4).
  { destruct e as [id|id|id|p|text|reason]; try by split_and!.
    cbn [next link scene]. destruct (Live.drop_history dialled (link t)) as (D1 & D2 & D3).
    split_and!; [by apply Live.live_step_ok| |done|done]. unfold coupled. by rewrite D1. }
  split; try done.
  - rewrite L3, K3. cbn [next handled batch]. by rewrite <- app_assoc.
  - cbn [next handled]. rewrite omap_snoc, app_assoc, <- K4.
    destruct e; cbn; by rewrite ?fmap_app, ?app_nil_r.
  - by rewrite L4.
  - cbn [next handled fetches scene]. rewrite packets_of_app, app_assoc.
    destruct e as [id|id|id|p|text|reason]; cbn; rewrite ?app_nil_r; try done.
    rewrite app_assoc. by apply sublist_app.
  - cbn [next closed fetches scene handled]. intros Hc. destruct (K7 Hc) as [Hpk Hst].
    rewrite packets_of_app, app_assoc, standing_app, <- Hst, <- Hpk.
    destruct e; cbn; by rewrite ?app_nil_r, ?app_assoc.
Qed.

Lemma round_ok w0 t : turn_ok w0 t → turn_ok w0 (round dialled script t).
Proof.
  intros Ht. unfold round. destruct (batch t) as [|e rest] eqn:Hb; [done|].
  pose proof (next_ok w0 t e rest Hb Ht) as Hn. destruct (signal_of e); [|done]. by apply do_ops_ok.
Qed.

Lemma collect_ok w0 t : batch t = [] → turn_ok w0 t → turn_ok w0 (collect dialled t).
Proof.
  intros Hb [K1 K2 K3 K4 K5 K6 K7]. unfold collect, drain_session.
  pose proof K2 as Hc. unfold coupled in Hc. rewrite Hc.
  destruct (Live.held (link t)) eqn:Hh.
  - rewrite chan_drain_spec. set (evs := queue (Handle.events (Live.handle (link t)))).
    rewrite try_recv_all by done. split; cbn [scene link batch handled sends fetches closed]; try done.
    + rewrite <- (try_recv_all dialled (link t) Hh). by apply Live.live_run_ok.
    + unfold coupled. cbn. by rewrite Hh.
    + cbn. by rewrite K3, Hb, app_nil_r.
  - split; cbn [scene link batch handled sends fetches closed]; rewrite ?Hb in *; try done.
Qed.

Lemma poll_rounds t n : length (batch t) = n → batch (Nat.iter n (round dialled script) t) = [].
Proof.
  revert t. induction n as [|n IH]; intros t Hn; [by apply length_zero_iff_nil in Hn|].
  rewrite Nat.iter_succ_r. apply IH. destruct (batch t) as [|e rest] eqn:Hb; [done|].
  destruct (round_scene dialled script e rest t Hb) as [_ ->]. by injection Hn.
Qed.

Definition between (w0 : world) (t : turn) : Prop := turn_ok w0 t ∧ batch t = [].

Lemma turn_step_ok w0 t op : between w0 t → between w0 (turn_step dialled script t op).
Proof.
  intros [Ht Hb]. assert (allowed op = true → between w0 (do_op dialled t op)) as Hop.
  { intros Ha. split; [by apply do_op_ok|done]. }
  destruct op as [l| | | | | | | | | |]; try (by apply Hop); cbn [turn_step].
  - destruct (is_network l) eqn:Hl; [|done]. split; [|done]. destruct Ht as [K1 K2 K3 K4 K5 K6 K7].
    destruct (network_history dialled (link t) l Hl) as [Hr Hc].
    pose proof (coupled_network dialled _ _ l Hl K2) as Hco.
    assert (∀ s, incoming (this (attach s (scene t))) = incoming (this (scene t)) ∧
      unique_id (this (attach s (scene t))) = unique_id (this (scene t)) ∧
      status (this (attach s (scene t))) = status (this (scene t)) ∧
      signals (attach s (scene t)) = signals (scene t)) as Hat.
    { intros s. unfold attach. by destruct (session (this (scene t))). }
    destruct (Hat (Live.live_step dialled (link t) l)) as (A1 & A2 & A3 & A4).
    split; cbn [scene link batch handled sends fetches closed]; rewrite ?Hr, ?Hc, ?A1, ?A2, ?A3, ?A4; try done.
    by apply Live.live_step_ok.
  - unfold poll_turn. split; [|by apply poll_rounds].
    apply Nat.iter_invariant; [intros t' Ht'; by apply round_ok|by apply collect_ok].
Qed.

Lemma turn_run_ok w0 t ops : between w0 t → between w0 (turn_run dialled script t ops).
Proof. intros Ht. apply (foldl_preserves _ (between w0)); [done|]. intros. by apply turn_step_ok. Qed.
End proofs.

(** ** Properties *)

(** C5: callables that use the peer while it polls. Whatever the callables connected
    to the signals call in the middle of a poll (sends, fetches, settings, closing;
    not [poll] itself, nor [host] or [join]), on top of whatever the game, the
    runtime and the network do: the poll is the source's, and all of the events taken
    are handled by its end; the signals are those of the events the session sent, in
    order and without a gap, alternating for every peer; the sends the task carries out
    are those that answered [OK], from callables or not, in the order they were made.
    Packets are handed out in order and each once; until the game closes the peer none
    is missing, and the unique id and the status are what the events leave. *)
Theorem callables_may_use_the_peer `{Countable E} `{AlpnRegistry R Reg} {Addr} `{HashOrder}
    dialled script (w0 : World (E := E) (R := R) (Reg := Reg) (Addr := Addr)) refuse ops :
  (∀ s w, Forall (λ op, allowed op = true) (script s w)) →
  session (this w0) = Some (Handle.fresh_handle [] refuse) →
  let t := turn_run dialled script (begin_turn w0 refuse) ops in
  let w := scene t in let evs := Live.received (link t) in
  let done_ := base.filter is_send (Live.commands_in (Live.inputs (link t))) in
  scene (turn_step dialled script t Poll) = poll (reacts script) w ∧
  evs = handled t ∧ (evs `prefix_of` (Live.sent (link t)).*2) ∧
  (signals w).*1 = (signals w0).*1 ++ omap signal_of evs ∧
  (∀ p, is_Some (Session.present false (heard p (omap signal_of evs)))) ∧
  (done_ `prefix_of` sends t) ∧
  (Live.running (link t) = true →
   sends t = done_ ++ base.filter is_send (queue (Handle.commands (Live.handle (link t))))) ∧
  (fetches t ++ incoming (this w) `sublist_of` incoming (this w0) ++ packets_of evs) ∧
  (closed t = false →
   fetches t ++ incoming (this w) = incoming (this w0) ++ packets_of evs ∧
   (unique_id (this w), status (this w)) = standing (unique_id (this w0), status (this w0)) evs).
Proof.
  intros Hpol Hs t w evs done_.
  destruct (turn_run_ok dialled script Hpol w0 _ ops (conj (begin_turn_ok dialled w0 refuse Hs) eq_refl))
    as [Ht Hb]. fold t in Ht, Hb. destruct Ht as [K1 K2 K3 K4 K5 K6 K7].
  rewrite Hb, app_nil_r in K3. fold evs in K3. rewrite <- K3 in K4, K6, K7. split_and!; try done.
  - apply poll_turn_scene.
  - by apply (Live.received_prefix dialled).
  - intros p. rewrite heard_signals. by apply (Live.received_presence dialled).
  - rewrite K5. by apply filter_prefix, (Live.taken_prefix dialled).
  - intros Hr. rewrite K5. unfold done_. rewrite <- filter_app. f_equal. by apply (Live.taken_queued dialled).
Qed.

(** A callable that says hello to whoever connects, and one that leaves. *)
Definition greets (s : Signal) (w : World (E := nat) (R := Registry) (Reg := Registration) (Addr := nat)) : list Op :=
  match s with
  | peer_connected id => [SetTarget id; PutPacketScript [x68; x69]; GetPacket]
  | _ => []
  end.

Definition leaves (s : Signal) (w : World (E := nat) (R := Registry) (Reg := Registration) (Addr := nat)) : list Op :=
  match s with peer_connected id => [CloseSession] | _ => [] end.

Definition greeted : list Op :=
  let none := (λ _ : Conn, @None Z) in
  [Network Live.Begin;
   Network (Live.TakeInternal none (Some (InternalControl (Welcome 3 []))));
   Network (Live.ReaderTells (Wire.mk_packet HOST_ID 0 Reliable [x61])); Poll; Network (Live.TakeCommand none)].

Lemma callables_may_use_the_peer_witness :
  let t := turn_run (H1 := listing_order) (Some (inl 9%nat)) greets (begin_turn example_world None) greeted in
  (base.filter is_send (Live.commands_in (Live.inputs (link t))) `prefix_of` sends t) ∧
  sends t = [Session.Send HOST_ID 0 Reliable [x68; x69]] ∧
  fetches t ++ incoming (this (scene t)) = [] ++ packets_of (Live.received (link t)).
Proof.
  destruct (@callables_may_use_the_peer _ _ _ _ _ _ _ listing_order (Some (inl 9%nat)) greets example_world None greeted)
    as (_ & _ & _ & _ & _ & Hd & _ & _ & Hk); [intros [] w; by repeat constructor|reflexivity|].
  split_and!; [exact Hd|vm_compute; reflexivity|apply Hk; vm_compute; reflexivity].
Defined.

(** [close] empties the queue at once, but the poll it was called from goes on: what
    came after the signal is queued on the closed peer, for the next session to find. *)
Lemma closing_in_a_signal_leaves_packets :
  let t := turn_run (H1 := listing_order) (Some (inl 9%nat)) leaves (begin_turn example_world None) greeted in
  closed t = true ∧ session (this (scene t)) = None ∧
  incoming (this (scene t)) = [mk_packet HOST_ID 0 RELIABLE [x61]].
Proof. by vm_compute. Qed.
