(* ===== verification/Career.v ===== *)
(** * One peer, session after session ([peer.rs])

    An [IrohPeer] outlives its sessions: a game hosts or joins, plays, lets go (by
    [close], because the session ended, or by starting the next one on top of it)
    and starts again. The session at hand is a [Game]; those before it are [Live]
    sessions whose handle was dropped and whose tasks may still be at work. *)

From S2P Require Import Prelude Wire.
From S2P Require Session Handle Live.
From S2P Require Import Dispatch.
From S2P Require Import Peer Game.

Section career.
Context {E : Type} `{Countable E} `{AlpnRegistry R Reg} {Addr Id : Type} `{EqDecision Id} `{HashOrder}.
Abbreviation world := (World (E := E) (R := R) (Reg := Reg) (Addr := Addr)).
Abbreviation game := (Game (E := E) (R := R) (Reg := Reg) (Addr := Addr)).
Variable addr_id : Addr → Id.
Variable own_id : R → Id.
Variable react : Signal → world → world.

(** How a session starts; of a guest's, what dialling comes to. *)
Inductive Start : Type :=
  | Hosting (e : E)
  | Joining (e : E) (addr : Addr) (connects : Conn + string).

Definition dialled (s : Start) : option (Conn + string) :=
  match s with Hosting _ => None | Joining _ _ connects => Some connects end.

Definition begins (s : Start) (w : world) : world * bool :=
  match s with
  | Hosting e => host true e w
  | Joining e addr _ => start_join addr_id own_id true e addr w
  end.

(** A session the peer has let go, with the sends it was given. *)
Record Past : Type := mk_past {
  dial : option (Conn + string);
  rest : Live.Live;
  given : list Session.Command;
}.

(** [out] are the packets handed out before the session at hand, and [cleared] is
    whether the game ever called [close]. *)
Record Career : Type := mk_career {
  dial_now : option (Conn + string);
  now : game;
  past : list Past;
  out : list Packet;
  cleared : bool;
}.

Inductive Act : Type :=
  | Begins (s : Start)
  | Plays (op : Op)
  (** the runtime or the network moves a session let go before *)
  | Lingers (k : nat) (l : Live.Label)
  (** endpoints are bound and closed, claims made and released *)
  | Endpoints (ds : gmap E R).

Definition set_game_world (w : world) (g : game) : game :=
  mk_game w (live g) (puts g) (fetched g) (closing g).

(** Assigning [self.session] drops the handle it held. *)
Definition let_go (c : Career) : Past :=
  mk_past (dial_now c) (Live.live_step (dial_now c) (live (now c)) Live.DropHandle) (puts (now c)).

(** [None]: the session was over before it started, as [Peer.hosting_twice_loses_both]
    describes; a run ends there. *)
Definition career_step (c : Career) (a : Act) : option Career :=
  let g := now c in
  match a with
  | Begins s =>
      let '(w, ok) := begins s (game_world g) in
      if ok then
        h ← session (this w);
        if decide (queue (Handle.events h) = []) then
          Some (mk_career (dialled s) (begin_game w (Handle.refuse h)) (past c ++ [let_go c])
                  (out c ++ fetched g) (cleared c || closing g))
        else None
      else Some c
  | Plays op =>
      Some (mk_career (dial_now c) (game_step (dial_now c) react g op) (past c) (out c) (cleared c))
  | Lingers k l =>
      Some (if is_network l then
              mk_career (dial_now c) g
                (alter (λ p, mk_past (dial p) (Live.live_step (dial p) (rest p) l) (given p)) k (past c))
                (out c) (cleared c)
            else c)
  | Endpoints ds =>
      let w := game_world g in
      Some (mk_career (dial_now c) (set_game_world (mk_world (this w) ds (Peer.tasks w) (signals w)) g)
              (past c) (out c) (cleared c))
  end.

Definition career_run (c : Career) (acts : list Act) : option Career := foldl (λ c a, c ≫= λ c, career_step c a) (Some c) acts.

(** The first session has just started. *)
Definition career (d : option (Conn + string)) (w : world) (refuse : option nat) : Career :=
  mk_career d (begin_game w refuse) [] [] false.

(** Every session so far, and every packet handed out. *)
Definition sessions (c : Career) : list Live.Live := (rest <$> past c) ++ [live (now c)].
Definition handed_out (c : Career) : list Packet := out c ++ fetched (now c).
Definition cleared_ever (c : Career) : bool := cleared c || closing (now c).
End career.

(** ** Sessions let go *)

Lemma network_held `{HashOrder} d s l : is_network l = true → Live.held (Live.live_step d s l) = Live.held s.
Proof.
  intros Hl. destruct l as [|sizes|sizes m|sizes c|p|c| |]; try done; cbn [Live.live_step].
  - destruct (Live.task s); [done|]. by destruct (Live.moved_fields 0 (Session.begin d) s) as (_ & -> & _).
  - unfold Live.take_command. destruct (Live.running s); [|done].
    destruct (chan_try_recv _) as [[c|] ch].
    + by destruct (Live.take_input_left_over sizes (Session.OnCommand (Some c))
        (Live.set_handle (Handle.mk_handle (Handle.events (Live.handle s)) ch (Handle.refuse (Live.handle s))
           (Handle.shared_connections (Live.handle s))) s)) as (_ & -> & _).
    + destruct (Live.held s) eqn:Hh; [done|].
      by destruct (Live.take_input_left_over sizes (Session.OnCommand None) s) as (_ & -> & _).
  - by destruct (Live.take_input_left_over sizes (Session.OnInternal m) s) as (_ & -> & _).
  - by destruct (Live.take_input_left_over sizes (Session.OnConnection c) s) as (_ & -> & _).
  - by destruct (Live.task s).
Qed.

(** A task nobody holds ends once its command arm was taken often enough. *)
Lemma unheld_ends `{HashOrder} d s :
  Live.held s = false →
  ∃ ls, Forall (λ l, is_network l = true) ls ∧ Live.running (Live.live_run d s ls) = false.
Proof.
  intros Hh. destruct (Live.running s) eqn:Hr; [|by exists []].
  assert (is_Some (Live.task s)) as Ht by (unfold Live.running in Hr; by destruct (Live.task s)).
  pose (ls := replicate (Live.left_over s) (Live.TakeCommand (λ _, None))).
  exists ls. split; [by apply Forall_replicate|].
  pose proof (Live.unheld_run d s ls Hh Ht) as Hl.
  assert (length (base.filter Live.is_take ls) = Live.left_over s) as Hlen.
  { subst ls. clear. induction (Live.left_over s) as [|n IH]; [done|]. cbn [replicate].
    rewrite filter_cons, decide_True by done. cbn. by rewrite IH. }
  rewrite Hlen, Nat.sub_diag in Hl. unfold Live.left_over in Hl. unfold Live.running.
  destruct (Live.task (Live.live_run d s ls)) as [t|]; [|done]. by destruct (Session.running t); [lia|].
Qed.

Section proofs.
Context {E : Type} `{Countable E} `{AlpnRegistry R Reg} {Addr Id : Type} `{EqDecision Id} `{HashOrder}.
Abbreviation world := (World (E := E) (R := R) (Reg := Reg) (Addr := Addr)).
Abbreviation game := (Game (E := E) (R := R) (Reg := Reg) (Addr := Addr)).
Variable addr_id : Addr → Id.
Variable own_id : R → Id.
Variable react : Signal → world → world.
Hypothesis Hpassive : passive react.
Abbreviation careering := (Career (E := E) (R := R) (Reg := Reg) (Addr := Addr)).

(** Starting changes neither what is queued nor what was signalled. *)
Lemma begins_keeps (s : Start) (w : world) :
  let '(w', ok) := begins addr_id own_id s w in
  if ok then incoming (this w') = incoming (this w) ∧ signals w' = signals w
  else w' = w.
Proof.
  unfold begins. destruct s as [e|e addr c]; unfold host, start_join.
  - destruct (dispatchers w !! e); [|done]. by destruct (Handle.host true _) as [[? ?] ?].
  - destruct (dispatchers w !! e); [|done]. case_decide; [done|].
    by destruct (Handle.join addr true _) as [[? ?] ?].
Qed.

(** The handle of a session that has just started, and reports nothing yet. *)
Lemma begins_handle (s : Start) (w w' : world) h :
  begins addr_id own_id s w = (w', true) → session (this w') = Some h → queue (Handle.events h) = [] →
  h = Handle.fresh_handle [] (Handle.refuse h).
Proof.
  unfold begins, host, start_join, Handle.host, Handle.join, Handle.start.
  destruct s as [e|e addr c]; (destruct (dispatchers w !! e) as [r|]; [|done]).
  - destruct (register ALPN r) as [r' [g|]]; intros [= <-] [= <-] Hq; [done|by cbn in Hq].
  - case_decide; [done|]. by intros [= <-] [= <-] _.
Qed.

(** What a session let go keeps. *)
Record past_ok (p : Past) : Prop := {
  po_live : Live.live_ok (dial p) (rest p);
  po_held : Live.held (rest p) = false;
  po_given : given p = base.filter is_send (Live.called (rest p));
}.

Definition told (s : Live.Live) : list Signal := omap signal_of (Live.received s).
Definition brought (s : Live.Live) : list Packet := packets_of (Live.received s).

Record career_ok (w0 : world) (c : careering) : Prop := {
  co_now : ∃ wk, game_ok (dial_now c) wk (now c) ∧
    (signals wk).*1 = (signals w0).*1 ++ mjoin (told ∘ rest <$> past c) ∧
    (out c ++ incoming (this wk)) `sublist_of` incoming (this w0) ++ mjoin (brought ∘ rest <$> past c) ∧
    (cleared c = false →
     out c ++ incoming (this wk) = incoming (this w0) ++ mjoin (brought ∘ rest <$> past c));
  co_past : Forall past_ok (past c);
}.

Lemma career_begins_ok d (w : world) refuse :
  session (this w) = Some (Handle.fresh_handle [] refuse) → career_ok w (career d w refuse).
Proof.
  intros Hs. split; [|by constructor]. exists w. cbn. rewrite !app_nil_r.
  split_and!; [by apply begin_game_ok|done|done|done].
Qed.

(** What a game leaves in the queue, in terms of what came before it. *)
Lemma game_packets d wk (g : game) :
  game_ok d wk g →
  (fetched g ++ incoming (this (game_world g))) `sublist_of` incoming (this wk) ++ brought (live g) ∧
  (closing g = false →
   fetched g ++ incoming (this (game_world g)) = incoming (this wk) ++ brought (live g)).
Proof.
  intros [_ _ _ _ Hp _ _]. unfold brought. destruct (closing g); [|by rewrite Hp].
  destruct Hp as [-> Hp]. rewrite app_nil_r. split; [|done].
  destruct Hp as [k ->]. by apply sublist_inserts_r.
Qed.

Lemma linger_ok l (p : Past) :
  is_network l = true → past_ok p →
  past_ok (mk_past (dial p) (Live.live_step (dial p) (rest p) l) (given p)) ∧
  Live.received (Live.live_step (dial p) (rest p) l) = Live.received (rest p).
Proof.
  intros Hl [P1 P2 P3]. destruct (network_history (dial p) (rest p) l Hl) as [Hr Hc].
  split; [|done]. split; cbn; [by apply Live.live_step_ok|by rewrite network_held|by rewrite Hc].
Qed.

Lemma fmap_alter_same {A B} (f : A → B) (g : A → A) (k : nat) (l : list A) :
  (∀ x, f (g x) = f x) → f <$> alter g k l = f <$> l.
Proof. intros Hf. revert k. induction l as [|x l IH]; intros [|k]; cbn; by rewrite ?Hf, ?IH. Qed.

Lemma Forall_alter_ok {A} (P : A → Prop) (g : A → A) (k : nat) (l : list A) :
  (∀ x, P x → P (g x)) → Forall P l → Forall P (alter g k l).
Proof. intros Hg Hl. revert k. induction Hl as [|x l Hx Hl IH]; intros [|k]; cbn; constructor; auto. Qed.

Lemma begins_step_ok w0 (c c' : careering) s :
  career_ok w0 c → career_step addr_id own_id react c (Begins s) = Some c' → career_ok w0 c'.
Proof.
  intros Hok. pose proof Hok as [(wk & Hg & Hs & Hp & Hpe) Hpast]. cbn.
  pose proof (begins_keeps s (game_world (now c))) as Hk.
  pose proof (begins_handle s (game_world (now c))) as Hh.
  destruct (begins addr_id own_id s (game_world (now c))) as [w [|]]; [|by intros [= <-]].
  destruct (session (this w)) as [h|] eqn:Hse; [|done]. cbn. case_decide as Hq; [|done]. intros [= <-].
  destruct Hk as [Hi Hsg]. destruct (game_packets _ _ _ Hg) as [Hsub Heq].
  destruct (Live.drop_history (dial_now c) (live (now c))) as (Hd & Hr & Hc). pose proof Hg as [K1 K2 K3 K4 K5 K6 K7].
  split; cbn [past].
  - exists w. split_and!.
    + cbn. apply begin_game_ok. rewrite Hse. f_equal. by eapply Hh.
    + rewrite fmap_app, join_app, app_assoc, <- Hs. cbn [fmap list_fmap mjoin list_join let_go rest compose].
      rewrite app_nil_r. unfold told. rewrite Hr, Hsg. exact K3.
    + cbn [out]. rewrite fmap_app, join_app, app_assoc, Hi, <- app_assoc.
      cbn [fmap list_fmap mjoin list_join let_go rest compose]. rewrite app_nil_r. unfold brought at 2. rewrite Hr.
      etrans; [by apply sublist_app|]. rewrite app_assoc. by apply sublist_app.
    + cbn [out cleared]. intros [Hc1 Hc2]%orb_false_iff. rewrite Hi, <- app_assoc, (Heq Hc2), app_assoc, (Hpe Hc1).
      rewrite fmap_app, join_app. cbn [fmap list_fmap mjoin list_join let_go rest compose].
      rewrite app_nil_r, <- app_assoc. unfold brought. by rewrite Hr.
  - apply Forall_app. split; [done|]. constructor; [|done]. split; cbn [let_go dial rest given].
    + by apply Live.live_step_ok.
    + done.
    + by rewrite K7, Hc.
Qed.

Lemma career_step_ok w0 (c c' : careering) a :
  career_ok w0 c → career_step addr_id own_id react c a = Some c' → career_ok w0 c'.
Proof.
  destruct a as [s|op|k l|ds]; [by apply begins_step_ok|..]; intros [(wk & Hg & Hs & Hp & Hpe) Hpast]; cbn.
  - intros [= <-]. split; [|done]. exists wk. cbn. split_and!; try done.
    by apply (game_run_ok (dial_now c) react Hpassive wk (now c) [op]).
  - intros [= <-]. destruct (is_network l) eqn:Hl; [|split; [by exists wk|done]].
    split; cbn.
    + exists wk. cbn. rewrite !fmap_alter_same; [by split_and!|intros p..];
        unfold compose, told, brought; cbn [rest];
        by rewrite (proj1 (network_history (dial p) (rest p) l Hl)).
    + apply Forall_alter_ok; [|done]. intros p Hpo. by apply linger_ok.
  - intros [= <-]. split; [|done]. exists wk. cbn. split_and!; try done. destruct Hg as [K1 K2 K3 K4 K5 K6 K7].
    by split.
Qed.

Lemma career_run_ok w0 acts (c c' : careering) :
  career_ok w0 c → career_run addr_id own_id react c acts = Some c' → career_ok w0 c'.
Proof.
  unfold career_run. revert c. induction acts as [|a acts IH]; intros c Hok; cbn; [by intros [= <-]|].
  destruct (career_step addr_id own_id react c a) as [c1|] eqn:Hc.
  - apply IH. by eapply career_step_ok.
  - intros Hn. exfalso. clear -Hn. by induction acts.
Qed.
End proofs.

(** ** Properties *)

(** C8: sessions of one peer follow one another. However often a game hosts,
    joins, closes or starts again, however long the tasks of sessions it has let go
    stay at work, and whatever happens to its endpoints meanwhile: the peer holds at
    most the latest session; each earlier one was dropped, was asked to send nothing
    but what was put while it was the current one, and can end. The signals are those
    of the sessions' events, session by session, and about each peer of a session they
    alternate. The packets handed out or still queued are those the sessions brought,
    in order, each once; [close] is the only thing that loses any. *)
Theorem sessions_follow_one_another `{Countable E} `{AlpnRegistry R Reg} {Addr Id} `{EqDecision Id} `{HashOrder}
    (addr_id : Addr → Id) own_id react d (w0 : World (E := E) (R := R) (Reg := Reg) (Addr := Addr)) refuse acts c :
  passive react → session (this w0) = Some (Handle.fresh_handle [] refuse) →
  career_run addr_id own_id react (career d w0 refuse) acts = Some c →
  let w := game_world (now c) in
  session (this w) = (if Live.held (live (now c)) then Some (Live.handle (live (now c))) else None) ∧
  Forall (λ p, Live.held (rest p) = false ∧
    (base.filter is_send (Live.commands_in (Live.inputs (rest p))) `prefix_of` given p) ∧
    ∃ ls, Forall (λ l, is_network l = true) ls ∧
      Live.running (Live.live_run (dial p) (rest p) ls) = false) (past c) ∧
  (signals w).*1 = (signals w0).*1 ++ mjoin (told <$> sessions c) ∧
  (∀ s p, s ∈ sessions c → is_Some (Session.present false (heard p (told s)))) ∧
  (handed_out c ++ incoming (this w) `sublist_of` incoming (this w0) ++ mjoin (brought <$> sessions c)) ∧
  (cleared_ever c = false →
   handed_out c ++ incoming (this w) = incoming (this w0) ++ mjoin (brought <$> sessions c)).
Proof.
  intros Hp Hs Hrun w.
  destruct (career_run_ok addr_id own_id react Hp w0 acts _ c (career_begins_ok d w0 refuse Hs) Hrun)
    as [(wk & Hg & Hsg & Hsub & Heq) Hpast].
  destruct (game_packets _ _ _ Hg) as [Hgs Hge]. pose proof Hg as [K1 K2 K3 K4 K5 K6 K7].
  assert (∀ A (f : Live.Live → list A), mjoin (f <$> sessions c) = mjoin (f ∘ rest <$> past c) ++ f (live (now c)))
    as Hj.
  { intros A f. unfold sessions. rewrite fmap_app, join_app, <- list_fmap_compose. cbn. by rewrite app_nil_r. }
  rewrite !Hj. unfold handed_out, cleared_ever. split_and!.
  - exact K2.
  - eapply Forall_impl; [exact Hpast|]. intros p [Hl Hh Hgi]. split_and!; [done| |by apply unheld_ends].
    rewrite Hgi. by apply filter_prefix, (Live.taken_prefix (dial p)).
  - unfold w. by rewrite K3, Hsg, app_assoc.
  - intros s p Hin. unfold told. rewrite heard_signals.
    apply elem_of_app in Hin as [(q & -> & Hq)%list_elem_of_fmap|Hl%list_elem_of_singleton]; [|subst s].
    + apply (Live.received_presence (dial q)). by apply (proj1 (Forall_forall _ _) Hpast q Hq).
    + by apply (Live.received_presence (dial_now c)).
  - unfold w. rewrite <- app_assoc. etrans; [apply sublist_app; [done|exact Hgs]|].
    rewrite !app_assoc. by apply sublist_app.
  - intros [Hc1 Hc2]%orb_false_iff. unfold w. by rewrite <- app_assoc, (Hge Hc2), app_assoc, (Heq Hc1), app_assoc.
Qed.

(** A guest gets a packet, its host leaves, and it joins another one: the packet it had
    not fetched is handed out in the new session, as one of the new host's. *)
Definition rejoins : list (Act (E := nat) (R := Registry) (Addr := nat)) :=
  let none := (λ _ : Conn, @None Z) in
  [Endpoints {[ 4%nat := Dispatch.start ]};
   Plays (Network Live.Begin);
   Plays (Network (Live.TakeInternal none (Some (InternalControl (Welcome 3 [2])))));
   Plays (Network (Live.ReaderTells (Wire.mk_packet HOST_ID 0 Reliable [x61])));
   Plays (Network (Live.TakeInternal none (Some (Lost HOST_ID)))); Plays Poll;
   Begins (Joining 4%nat 9%nat (inl 8%nat)); Lingers 0 (Live.TakeCommand none);
   Plays (Network Live.Begin); Plays GetPacket; Plays Poll].

Lemma leftover_packets_cross_over :
  match career_run (H1 := listing_order) (λ a, a) (λ _, 0%nat) no_reaction
          (career (Some (inl 9%nat)) example_world None) rejoins with
  | Some c =>
      fetched (now c) = [mk_packet HOST_ID 0 RELIABLE [x61]] ∧ brought (live (now c)) = [] ∧
      length (past c) = 1%nat ∧ cleared_ever c = false
  | None => False
  end.
Proof. vm_compute. by split_and!. Qed.

Lemma sessions_follow_one_another_witness :
  ∃ c, career_run (H1 := listing_order) (λ a, a) (λ _, 0%nat) no_reaction
         (career (Some (inl 9%nat)) example_world None) rejoins = Some c ∧
    let w := game_world (now c) in
    (signals w).*1 = [] ++ mjoin (told <$> sessions c) ∧
    handed_out c ++ incoming (this w) = [] ++ mjoin (brought <$> sessions c).
Proof.
  destruct (career_run (H1 := listing_order) (λ a, a) (λ _, 0%nat) no_reaction
         (career (Some (inl 9%nat)) example_world None) rejoins) as [c|] eqn:Hc.
  - exists c. split; [done|].
    destruct (sessions_follow_one_another (λ a, a) (λ _, 0%nat) no_reaction (Some (inl 9%nat)) example_world None
      rejoins c no_reaction_passive eq_refl Hc) as (_ & _ & Hs & _ & _ & He).
    split; [exact Hs|]. apply He. revert Hc. vm_compute. by intros [= <-].
  - exfalso. revert Hc. vm_compute. done.
Defined.
