(* ===== verification/Crossing.v ===== *)
(** * From one game to another ([peer.rs] and [session.rs], end to end)

    Two games with a connection between them. What one puts becomes commands of
    its session ([Game]), the session's task turns them into frames and datagrams
    on the connection ([Outgoing]), bytes and datagrams cross the network, the
    readers of the other end cut them into packets ([Wire], [Landing]), and the
    other session's handle and peer hand those out ([Live], [Game]). Both games
    run as they please meanwhile, with other peers too. *)

From S2P Require Import Prelude Wire.
From S2P Require Session Membership Handle Live.
From S2P Require Import Dispatch.
From S2P Require Import Outgoing Landing.
From S2P Require Import Peer Game.
Import Live (Label, Begin, TakeCommand, TakeInternal, TakeConnection, ReaderTells, Call, TryRecv,
  DropHandle, live_step, live_run, live_ok).

(** ** State *)

Section crossing.
Context {E : Type} `{Countable E} `{AlpnRegistry R Reg} {Addr : Type} `{HashOrder}.
Abbreviation world := (World (E := E) (R := R) (Reg := Reg) (Addr := Addr)).
Abbreviation game := (Game (E := E) (R := R) (Reg := Reg) (Addr := Addr)).
(** How the two sessions started, and what is connected to the peers' signals. *)
Variables dialled_s dialled_r : option (Conn + string).
Variables react_s react_r : Signal → world → world.
(** The sender's end of the connection, and the id its readers have at the other
    end. *)
Variable c0 : Conn.
Variable from : Z.

(** For each stream the bytes that arrived and the packets its reader passed on;
    the datagram task's [last] and the datagrams it was given, by position. *)
Record Crossing : Type := mk_crossing {
  sender : game;
  receiver : game;
  arrived : gmap Z nat;
  passed : gmap Z nat;
  seen : gmap Z Z;
  landed : list nat;
}.

(** What the sender's task did to the outside world. *)
Definition put_out (g : game) : list Session.Effect :=
  match Live.task (live g) with Some t => Session.effects (Session.state t) | None => [] end.

Definition reader_packets (r : Wire.Reader) : list Wire.Packet :=
  omap (λ e, match e with PacketEvent p => Some p | _ => None end) (queue (events r)).

(** What the reader of a channel's stream makes of the bytes that are there. *)
Definition readable (x : Crossing) (ch : Z) : list Wire.Packet :=
  match read_stream from
          (mk_reader (take (default 0%nat (arrived x !! ch)) (stream_bytes ch (stream_on c0 ch (put_out (sender x)))))
             unbounded_channel unbounded_channel) with
  | Some r => reader_packets r
  | None => []
  end.

(** A reader of the connection sends on the receiver's event channel. *)
Definition hears (p : Wire.Packet) (g : game) : game :=
  game_step dialled_r react_r g (Network (ReaderTells p)).

Definition listening (g : game) : Prop := is_Some (Live.task (live g)).

(** ** Steps *)

Inductive Label : Type :=
  | SenderDoes (op : Op)
  | ReceiverDoes (op : Op)
  (** more bytes of a stream arrive *)
  | Travel (ch : Z) (upto : nat)
  (** a reader passes on its next packet; the control stream's is in [Lobby] *)
  | Passes (ch : Z)
  (** a datagram arrives, in any order, but no datagram twice *)
  | Lands (i : nat).

(** The types of the arguments; a frame longer than [u32::MAX] would have its
    length cut. *)
Definition sendable (c : Session.Command) : Prop :=
  match c with
  | Session.Send target ch _ data => is_i32 target ∧ is_i32 ch ∧ is_u32 (len data)
  | _ => True
  end.

#[export] Instance sendable_dec c : Decision (sendable c).
Proof. destruct c; cbn; apply _. Defined.

Definition sender_may (op : Op) (g : game) : Prop :=
  Forall sendable (put_of op (game_world g)) ∧
  match op with Network (TakeConnection _ (Some c)) => c ∉ used (put_out g) | _ => True end.

#[export] Instance sender_may_dec op g : Decision (sender_may op g).
Proof. unfold sender_may. destruct op as [[| | |? [c|]| | | |]| | | | | | | | | |]; apply _. Defined.

(** What comes from [from] comes through [Passes] and [Lands]. *)
Definition receiver_may (op : Op) : Prop :=
  match op with Network (ReaderTells p) => Wire.peer p ≠ from | _ => True end.

#[export] Instance receiver_may_dec op : Decision (receiver_may op).
Proof. destruct op as [[]| | | | | | | | | |]; cbn; apply _. Defined.

#[export] Instance listening_dec g : Decision (listening g).
Proof. unfold listening. apply _. Defined.

Definition crossing_step (x : Crossing) (l : Label) : Crossing :=
  match l with
  | SenderDoes op =>
      if decide (sender_may op (sender x)) then
        mk_crossing (game_step dialled_s react_s (sender x) op) (receiver x) (arrived x) (passed x)
          (seen x) (landed x)
      else x
  | ReceiverDoes op =>
      if decide (receiver_may op) then
        mk_crossing (sender x) (game_step dialled_r react_r (receiver x) op) (arrived x) (passed x)
          (seen x) (landed x)
      else x
  | Travel ch upto =>
      mk_crossing (sender x) (receiver x)
        (<[ch := Nat.max (default 0%nat (arrived x !! ch)) upto]> (arrived x)) (passed x) (seen x) (landed x)
  | Passes ch =>
      if decide (is_i32 ch ∧ ch ≠ CONTROL_CHANNEL ∧ listening (receiver x)) then
        let n := default 0%nat (passed x !! ch) in
        match readable x ch !! n with
        | Some p =>
            mk_crossing (sender x) (hears p (receiver x)) (arrived x) (<[ch := S n]> (passed x)) (seen x)
              (landed x)
        | None => x
        end
      else x
  | Lands i =>
      if decide (listening (receiver x) ∧ (i ∉ landed x)) then
        match Session.datagrams_to c0 (put_out (sender x)) !! i with
        | Some d =>
            match read_datagram from (seen x) d with
            | Some (seen', p) =>
                mk_crossing (sender x) (match p with Some p => hears p (receiver x) | None => receiver x end)
                  (arrived x) (passed x) seen' (landed x ++ [i])
            | None => x
            end
        | None => x
        end
      else x
  end.

Definition crossing_run (x : Crossing) (ls : list Label) : Crossing := foldl crossing_step x ls.

Definition begin_crossing (ws wr : world) (refuse_s refuse_r : option nat) : Crossing :=
  mk_crossing (begin_game ws refuse_s) (begin_game wr refuse_r) ∅ ∅ ∅ [].

(** The parcels of the sender's session for the connection. *)
Definition sent_over (g : game) : list Parcel :=
  parcels c0 (Session.begin dialled_s) (Live.inputs (live g)).

(** What the receiver fetched from the sender, by channel and mode. *)
Definition got_on (ch : Z) (m : Mode) (g : game) : list bytes :=
  Peer.data <$> base.filter (λ p, Peer.peer p = from ∧ Peer.channel p = ch ∧
                                  Peer.mode p = from_session_mode m) (fetched g).
End crossing.

#[global] Arguments put_out : simpl never.
#[global] Arguments sent_over : simpl never.

(** ** How a session's inputs and events grow *)

(** What a reader of [from]'s connection told the main thread. *)
Definition told (from : Z) (s : Live.Live) : list Wire.Packet :=
  omap (λ e : bool * Event,
    match e with
    | (false, PacketEvent p) => if decide (Wire.peer p = from) then Some p else None
    | _ => None
    end) (Live.sent s).

#[global] Arguments told : simpl never.

Section growth.
Context `{HashOrder}.
Variable dialled : option (Conn + string).

Lemma told_sent from s s' evs :
  Live.sent s' = Live.sent s ++ ((true,.) <$> evs) → told from s' = told from s.
Proof.
  intros He. unfold told. rewrite He, omap_app.
  assert (∀ k : list Event, omap (λ e : bool * Event, match e with
     | (false, PacketEvent p) => if decide (Wire.peer p = from) then Some p else None | _ => None end)
     ((true,.) <$> k) = []) as ->; [|by rewrite app_nil_r].
  by induction k as [|e k IH].
Qed.

Lemma moved_growth n t' s :
  Live.inputs (Live.moved n t' s) = Live.inputs s ∧ ∀ from, told from (Live.moved n t' s) = told from s.
Proof.
  unfold Live.moved. set (evs := drop n _).
  destruct (Live.tell_all_fields true evs s) as (_ & _ & E3 & _ & _ & E6 & _).
  split; [exact E3|]. intros from. by apply (told_sent from s _ evs).
Qed.

Lemma take_input_growth sizes i s :
  (∀ from, told from (Live.take_input sizes i s) = told from s) ∧
  (Live.inputs (Live.take_input sizes i s) = Live.inputs s ∨
   Live.inputs (Live.take_input sizes i s) = Live.inputs s ++ [(sizes, i)]).
Proof.
  unfold Live.take_input. destruct (Live.task s) as [t|]; [|by split; [|left]].
  destruct (Session.running t); [|by split; [|left]]. set (s1 := Live.mk_live _ _ _ _ _ _ _).
  destruct (moved_growth (length (Session.sent_events (Session.state t))) (Session.step sizes t i) s1)
    as [E1 E2].
  split; [intros; apply E2|]. right. exact E1.
Qed.

(** One label takes at most one input, a connection only if it says so, and only
    readers tell packets. *)
Lemma live_step_growth s l :
  (∀ from, told from (live_step dialled s l) = told from s ++
     match l with
     | ReaderTells p => if decide (is_Some (Live.task s) ∧ Wire.peer p = from) then [p] else []
     | _ => []
     end) ∧
  (Live.inputs (live_step dialled s l) = Live.inputs s ∨
   ∃ sizes i, Live.inputs (live_step dialled s l) = Live.inputs s ++ [(sizes, i)] ∧
     ∀ c, i = Session.OnConnection (Some c) → l = TakeConnection sizes (Some c)).
Proof.
  destruct l as [|sizes|sizes m|sizes c|p|c| |]; cbn [live_step].
  - destruct (Live.task s); [split; [intros; by rewrite app_nil_r|by left]|].
    destruct (moved_growth 0 (Session.begin dialled) s) as [E1 E2].
    split; [intros; by rewrite E2, app_nil_r|by left].
  - unfold Live.take_command. destruct (Live.running s); [|split; [intros; by rewrite app_nil_r|by left]].
    destruct (chan_try_recv _) as [[c|] ch].
    + set (s1 := Live.set_handle _ s).
      destruct (take_input_growth sizes (Session.OnCommand (Some c)) s1) as [E1 E2].
      split; [intros; by rewrite E1, app_nil_r|]. destruct E2 as [E2|E2]; [by left|].
      right. by eexists _, _.
    + destruct (Live.held s); [split; [intros; by rewrite app_nil_r|by left]|].
      destruct (take_input_growth sizes (Session.OnCommand None) s) as [E1 E2].
      split; [intros; by rewrite E1, app_nil_r|]. destruct E2 as [E2|E2]; [by left|].
      right. by eexists _, _.
  - destruct (take_input_growth sizes (Session.OnInternal m) s) as [E1 E2].
    split; [intros; by rewrite E1, app_nil_r|]. destruct E2 as [E2|E2]; [by left|].
    right. by eexists _, _.
  - destruct (take_input_growth sizes (Session.OnConnection c) s) as [E1 E2].
    split; [intros; by rewrite E1, app_nil_r|]. destruct E2 as [E2|E2]; [by left|].
    right. eexists _, _. split; [exact E2|]. by intros c' [= ->].
  - destruct (Live.task s) as [t|] eqn:Ht.
    + split; [|by left]. intros from. unfold told. cbn. rewrite omap_app. cbn.
      f_equal. destruct (decide (Wire.peer p = from)) as [<-|Hne].
      * rewrite decide_True; [done|]. split; [by eexists|done].
      * by rewrite decide_False by naive_solver.
    + split; [|by left]. intros from. rewrite decide_False; [by rewrite app_nil_r|].
      by intros [[? ?] _].
  - unfold Live.call. destruct (Live.held s); (split; [intros; by rewrite app_nil_r|by left]).
  - unfold Live.try_recv. destruct (Live.held s); [|split; [intros; by rewrite app_nil_r|by left]].
    destruct (Handle.try_recv _) as [e h]. split; [intros; by rewrite app_nil_r|by left].
  - destruct (Live.held s); (split; [intros; by rewrite app_nil_r|by left]).
Qed.

(** The main thread's own calls touch neither, nor the task. *)
Lemma call_growth s l :
  is_network l = false →
  (∀ from, told from (live_step dialled s l) = told from s) ∧
  Live.inputs (live_step dialled s l) = Live.inputs s ∧ Live.task (live_step dialled s l) = Live.task s.
Proof.
  destruct l as [|sizes|sizes m|sizes c|p|c| |]; intros Hl; try done; cbn [live_step].
  - unfold Live.call. by destruct (Live.held s).
  - unfold Live.try_recv. destruct (Live.held s); [|done]. by destruct (Handle.try_recv _) as [e h].
  - by destruct (Live.held s).
Qed.

Lemma calls_growth s ls :
  Forall (λ l, is_network l = false) ls →
  (∀ from, told from (live_run dialled s ls) = told from s) ∧
  Live.inputs (live_run dialled s ls) = Live.inputs s ∧ Live.task (live_run dialled s ls) = Live.task s.
Proof.
  intros Hl. revert s. induction Hl as [|l ls Hl _ IH]; intros s; [done|].
  destruct (call_growth s l Hl) as (E1 & E2 & E3). destruct (IH (live_step dialled s l)) as (F1 & F2 & F3).
  cbn [live_run foldl]. unfold live_run in *. split_and!; [intros; by rewrite F1|by rewrite F2|by rewrite F3].
Qed.

(** The task never says a packet. *)
Lemma task_says_no_packet s :
  live_ok dialled s → Forall (λ e, ¬ Session.is_packet e) (Live.by_task (Live.sent s)).
Proof.
  intros [H1 _ _ _ H5 _ _]. rewrite H5. destruct (Live.task s) as [t|]; [|constructor]. cbn. rewrite H1.
  destruct (Session.run_grows (Session.begin dialled) (Live.inputs s)) as (new & -> & Hn).
  apply Forall_app. split; [|done]. destruct dialled as [[]|]; repeat constructor; intros [].
Qed.
End growth.

(** ** Parcels and commands *)

Section commands.
Context `{HashOrder}.

Lemma parcels_sound c t ins : Forall sendable (Live.commands_in ins) → Forall sound (parcels c t ins).
Proof.
  revert t. induction ins as [|[sizes i] ins IH]; intros t Hs; cbn [parcels]; [constructor|].
  unfold Live.commands_in in Hs. cbn in Hs. apply Forall_app. split.
  - destruct (Session.running t); [|constructor].
    destruct i as [[[target ch m d|p|]|]|m|k]; cbn [parcels_of]; try constructor.
    apply Forall_cons in Hs as [(_ & Hc & Hd) _]. case_decide; [|constructor].
    constructor; [|constructor]. split_and!; [done|done|]. cbn. unfold travels. by case_decide.
  - apply IH. destruct i as [[k|]|m|k]; try done. by apply Forall_cons in Hs as [_ Hs].
Qed.

Lemma parcels_ordered c t ins :
  ordered_by <$> parcels c t ins `sublist_of` base.filter is_send (Live.commands_in ins).
Proof.
  revert t. induction ins as [|[sizes i] ins IH]; intros t; cbn [parcels]; [constructor|].
  unfold Live.commands_in in *. cbn. rewrite fmap_app.
  destruct i as [[[target ch m d|p|]|]|m|k]; cbn [parcels_of];
    try (destruct (Session.running t); cbn; rewrite ?filter_cons; apply IH).
  rewrite filter_cons_True by exact I.
  destruct (Session.running t); [|cbn; by constructor]. case_decide; cbn; by constructor.
Qed.

Lemma fresh_run_snoc t ins sizes i :
  fresh_run t (ins ++ [(sizes, i)]) ↔ fresh_run t ins ∧ fresh_input (Session.state (Session.run t ins)) i.
Proof.
  revert t. induction ins as [|[sizes' j] ins IH]; intros t; cbn [app fresh_run]; [cbn; tauto|].
  rewrite IH. cbn. tauto.
Qed.

Lemma typed_inputs ins : Forall sendable (Live.commands_in ins) → Forall typed_send ins.*2.
Proof.
  intros Hs. apply Forall_fmap, Forall_forall. intros [sizes i] Hi.
  destruct i as [[[target ch m d|p|]|]|m|k]; try done. cbn.
  assert (Session.Send target ch m d ∈ Live.commands_in ins) as Hin
    by (apply list_elem_of_omap; by eexists).
  rewrite Forall_forall in Hs. apply (Hs _ Hin).
Qed.
End commands.

Section proofs.
Context {E : Type} `{Countable E} `{AlpnRegistry R Reg} {Addr : Type} `{HashOrder}.
Abbreviation world := (World (E := E) (R := R) (Reg := Reg) (Addr := Addr)).
Abbreviation game := (Game (E := E) (R := R) (Reg := Reg) (Addr := Addr)).

(** ** The same for a game *)

Lemma labels_are_calls op (w : world) : Forall (λ l, is_network l = false) (labels op w).
Proof.
  unfold labels. destruct (session (this w)); [|constructor].
  assert (∀ cs, Forall (λ l, is_network l = false) (Call <$> cs)) as Hc
    by (intros; apply Forall_fmap, Forall_true; done).
  destruct op; try (by repeat constructor); try apply Hc.
  apply Forall_app. split; [apply Forall_fmap, Forall_true; done|]. by destruct (ends _); repeat constructor.
Qed.

Lemma game_step_growth dialled react (g : game) op :
  let g' := game_step dialled react g op in
  (∀ from, told from (live g') = told from (live g) ++
     match op with
     | Network (ReaderTells p) => if decide (listening g ∧ Wire.peer p = from) then [p] else []
     | _ => []
     end) ∧
  (Live.inputs (live g') = Live.inputs (live g) ∨
   ∃ sizes i, Live.inputs (live g') = Live.inputs (live g) ++ [(sizes, i)] ∧
     ∀ c, i = Session.OnConnection (Some c) → op = Network (TakeConnection sizes (Some c))).
Proof.
  cbv zeta.
  destruct op as [l| | | | | | | | | |]; try (
    cbn [game_step live];
    match goal with |- context [live_run _ _ (labels ?o ?w)] =>
      destruct (calls_growth dialled (live g) (labels o w) (labels_are_calls o w)) as (E1 & E2 & _)
    end; split; [intros; by rewrite E1, app_nil_r|by left]).
  cbn [game_step]. destruct (is_network l) eqn:Hl; cbn [live].
  - destruct (live_step_growth dialled (live g) l) as [E1 E2]. split.
    + intros from. rewrite E1. unfold listening. by destruct l.
    + destruct E2 as [E2|(sizes & i & E2 & E3)]; [by left|]. right. exists sizes, i.
      split; [done|]. by intros c ->%E3.
  - split; [|by left]. intros from. destruct l; try done; by rewrite app_nil_r.
Qed.

(** ** What the sender's side puts on the connection *)

Lemma inputs_sendable dialled ws (g : game) :
  game_ok dialled ws g → Forall sendable (puts g) → Forall sendable (Live.commands_in (Live.inputs (live g))).
Proof.
  intros [[_ _ L3 _ _ _ _] _ _ _ _ _ K7] Hs.
  assert (∀ c, c ∈ Live.commands_in (Live.inputs (live g)) → c ∈ Live.called (live g)) as Hin.
  { intros c Hc. destruct (receiver_alive _); [rewrite L3; apply elem_of_app; by left|].
    destruct L3 as [more ->]. apply elem_of_app. by left. }
  apply Forall_forall. intros c Hc%Hin. destruct (decide (is_send c)) as [Hd|Hd]; [|by destruct c].
  rewrite Forall_forall in Hs. apply Hs. rewrite K7. by apply list_elem_of_filter.
Qed.

Lemma put_out_spec dialled ws (g : game) c :
  game_ok dialled ws g → Forall sendable (puts g) →
  fresh_run (Session.begin dialled) (Live.inputs (live g)) →
  (∀ ch, ch ≠ CONTROL_CHANNEL → stream_on c ch (put_out g) = reliable_on ch (sent_over dialled c g)) ∧
  Session.datagrams_to c (put_out g) = flights [] (sent_over dialled c g) ∧
  Forall sound (sent_over dialled c g).
Proof.
  intros Hok Hs Hf. pose proof (inputs_sendable _ _ _ Hok Hs) as Hi.
  destruct Hok as [[L1 _ _ _ _ _ _] _ _ _ _ _ _]. unfold put_out, sent_over.
  split_and!; [| |by apply parcels_sound].
  all: destruct (Live.task (live g)) as [t|]; rewrite L1; [|done].
  all: destruct (outgoing_ok dialled (Live.inputs (live g)) c Hf (typed_inputs _ Hi)); auto.
Qed.

(** It only ever grows. *)
Lemma sent_over_grows dialled react c (g : game) op :
  sent_over dialled c g `prefix_of` sent_over dialled c (game_step dialled react g op).
Proof.
  unfold sent_over. destruct (game_step_growth dialled react g op) as [_ [->|(sizes & i & -> & _)]]; [done|].
  rewrite parcels_app. by apply prefix_app_r.
Qed.

(** What a sender may do keeps it a sender. *)
Lemma sender_step dialled react ws (g : game) op :
  passive react → game_ok dialled ws g → Forall sendable (puts g) →
  fresh_run (Session.begin dialled) (Live.inputs (live g)) → sender_may op g →
  let g' := game_step dialled react g op in
  game_ok dialled ws g' ∧ Forall sendable (puts g') ∧
  fresh_run (Session.begin dialled) (Live.inputs (live g')).
Proof.
  intros Hp Hok Hs Hf [Hput Hfresh]. cbv zeta. split_and!.
  - by apply (game_run_ok dialled react Hp ws g [op]).
  - assert (puts (game_step dialled react g op) = puts g ++ put_of op (game_world g)) as ->.
    { destruct op as [l| | | | | | | | | |]; try done. cbn. destruct (is_network l); cbn; by rewrite app_nil_r. }
    by apply Forall_app.
  - destruct (game_step_growth dialled react g op) as [_ [->|(sizes & i & Hi & Hc)]]; [done|].
    rewrite Hi. apply fresh_run_snoc. split; [done|].
    destruct i as [|?|[c|]]; try done. rewrite (Hc c eq_refl) in Hfresh, Hi. cbn.
    destruct Hok as [[L1 _ _ _ _ _ _] _ _ _ _ _ _]. unfold put_out in Hfresh.
    cbn [game_step is_network live live_step] in Hi. unfold Live.take_input in Hi.
    destruct (Live.task (live g)) as [t|] eqn:Ht; [by rewrite <- L1|].
    apply (f_equal length) in Hi. rewrite length_app in Hi. cbn in Hi. lia.
Qed.

(** ** What the receiver hears of it *)

Variables dialled_s dialled_r : option (Conn + string).
Variables react_s react_r : Signal → world → world.
Hypothesis passive_s : passive react_s.
Hypothesis passive_r : passive react_r.
Variable c0 : Conn.
Variable from : Z.
Abbreviation crossing := (Crossing (E := E) (R := R) (Reg := Reg) (Addr := Addr)).
Abbreviation cstep := (crossing_step dialled_s dialled_r react_s react_r c0 from).

Definition unreliable_packets (ps : list Wire.Packet) : list Wire.Packet :=
  base.filter (λ p, Wire.mode p ≠ Reliable) ps.

Record crossing_ok (ws wr : world) (x : crossing) : Prop := {
  co_sender : game_ok dialled_s ws (sender x);
  co_receiver : game_ok dialled_r wr (receiver x);
  co_sendable : Forall sendable (puts (sender x));
  co_fresh : fresh_run (Session.begin dialled_s) (Live.inputs (live (sender x)));
  co_streams ch : ch ≠ CONTROL_CHANNEL →
    packets_on ch Reliable (told from (live (receiver x))) =
      take (default 0%nat (passed x !! ch)) (reliable_on ch (sent_over dialled_s c0 (sender x))) ∧
    (default 0%nat (passed x !! ch) ≤ length (reliable_on ch (sent_over dialled_s c0 (sender x))))%nat;
  co_landed : NoDup (landed x) ∧
    Forall (λ i, i < length (flights [] (sent_over dialled_s c0 (sender x))))%nat (landed x) ∧
    read_datagrams from ∅ (omap (flights [] (sent_over dialled_s c0 (sender x)) !!.) (landed x)) =
      Some (seen x, unreliable_packets (told from (live (receiver x))));
}.

Lemma begin_crossing_ok ws wr refuse_s refuse_r :
  session (this ws) = Some (Handle.fresh_handle [] refuse_s) →
  session (this wr) = Some (Handle.fresh_handle [] refuse_r) →
  crossing_ok ws wr (begin_crossing ws wr refuse_s refuse_r).
Proof.
  intros Hs Hr. split; try (by apply begin_game_ok); try done.
  by split_and!; constructor.
Qed.

(** Both ends of an unlinked moment: what stays when only the sender moves. *)
Lemma sender_moves ws wr (x : crossing) op :
  crossing_ok ws wr x → crossing_ok ws wr (cstep x (SenderDoes op)).
Proof.
  intros [K1 K2 K3 K4 K5 (K6 & K7 & K8)]. cbn [crossing_step]. case_decide as Hm; [|by split].
  destruct (sender_step dialled_s react_s ws (sender x) op passive_s K1 K3 K4 Hm) as (E1 & E2 & E3).
  destruct (sent_over_grows dialled_s react_s c0 (sender x) op) as [more Hmore].
  split; cbn [sender receiver passed seen landed]; try done; rewrite Hmore.
  - intros ch Hch. destruct (K5 ch Hch) as [F1 F2]. rewrite reliable_on_app, length_app.
    split; [|lia]. by rewrite take_app_le.
  - rewrite flights_app, length_app. split_and!; [done| |].
    + eapply Forall_impl; [exact K7|]. cbn. lia.
    + rewrite <- K8. f_equal. apply list_omap_ext, Forall_Forall2_diag.
      eapply Forall_impl; [exact K7|]. intros i Hi. by rewrite lookup_app_l.
Qed.

Lemma receiver_moves ws wr (x : crossing) op :
  crossing_ok ws wr x → crossing_ok ws wr (cstep x (ReceiverDoes op)).
Proof.
  intros [K1 K2 K3 K4 K5 K6]. cbn [crossing_step]. case_decide as Hm; [|by split].
  assert (told from (live (game_step dialled_r react_r (receiver x) op)) = told from (live (receiver x))) as Ht.
  { destruct (game_step_growth dialled_r react_r (receiver x) op) as [-> _].
    destruct op as [[]| | | | | | | | | |]; rewrite ?app_nil_r; try done.
    rewrite decide_False; [by rewrite app_nil_r|]. by intros [_ ?]. }
  split; cbn [sender receiver passed seen landed]; rewrite ?Ht; try done.
  by apply (game_run_ok dialled_r react_r passive_r wr (receiver x) [op]).
Qed.

(** A packet more. *)
Lemma hears_ok wr (g : game) p :
  game_ok dialled_r wr g → listening g → Wire.peer p = from →
  game_ok dialled_r wr (hears dialled_r react_r p g) ∧
  told from (live (hears dialled_r react_r p g)) = told from (live g) ++ [p].
Proof.
  intros Hok Hl Hp. unfold hears. split.
  - by apply (game_run_ok dialled_r react_r passive_r wr g [Network (ReaderTells p)]).
  - destruct (game_step_growth dialled_r react_r g (Network (ReaderTells p))) as [-> _].
    by rewrite decide_True.
Qed.

(** What the reader of a stream can pass on is what the sender put there. *)
Lemma readable_spec ws wr (x : crossing) ch :
  crossing_ok ws wr x → is_i32 ch → ch ≠ CONTROL_CHANNEL →
  ∃ frames, frames `prefix_of` reliable_on ch (sent_over dialled_s c0 (sender x)) ∧
    readable c0 from x ch = (λ d, Wire.mk_packet from ch Reliable d) <$> frames ∧
    ((length (stream_bytes ch (reliable_on ch (sent_over dialled_s c0 (sender x))))
        ≤ default 0 (arrived x !! ch))%nat →
     frames = reliable_on ch (sent_over dialled_s c0 (sender x))).
Proof.
  intros [K1 _ K3 K4 _ _] Hc Hch. destruct (put_out_spec dialled_s ws (sender x) c0 K1 K3 K4) as (Hs & _ & Hsd).
  unfold readable. rewrite Hs by done. set (F := reliable_on ch _).
  assert (Forall (λ f, is_u32 (len f)) F) as Hf.
  { apply Forall_fmap, Forall_forall. intros y [_ Hy]%list_elem_of_filter. rewrite Forall_forall in Hsd.
    by apply Hsd. }
  destruct (read_stream_prefix from ch F (default 0%nat (arrived x !! ch))
    (mk_reader [] unbounded_channel unbounded_channel)) as (ds & rest & Hpre & Hr & Hall); [done..|].
  unfold with_unread in Hr. cbn [events internal] in Hr. rewrite Hr.
  exists ds. split_and!; [done| |exact Hall]. rewrite deliver_data by done. unfold reader_packets. cbn.
  clear. induction ds as [|d ds IH]; cbn; [done|]. by rewrite IH.
Qed.

Lemma packet_passes ws wr (x : crossing) ch :
  crossing_ok ws wr x → crossing_ok ws wr (cstep x (Passes ch)).
Proof.
  intros Hok. cbn [crossing_step]. case_decide as Hm; [|done]. destruct Hm as (Hc & Hch & Hl).
  destruct (readable_spec ws wr x ch Hok Hc Hch) as (frames & [rest Hpre] & Hr & _).
  rewrite Hr. destruct Hok as [K1 K2 K3 K4 K5 K6]. rewrite list_lookup_fmap.
  set (n := default 0%nat (passed x !! ch)).
  destruct (frames !! n) as [d|] eqn:Hd; cbn [fmap option_fmap option_map]; [|by split].
  set (p := Wire.mk_packet from ch Reliable d).
  destruct (hears_ok wr (receiver x) p K2 Hl eq_refl) as [E1 E2].
  assert (reliable_on ch (sent_over dialled_s c0 (sender x)) !! n = Some d) as Hn
    by (rewrite Hpre; by apply lookup_app_l_Some).
  split; cbn [sender receiver passed seen landed]; try done; rewrite E2.
  - intros ch' Hch'. rewrite packets_on_app, packets_on_cons, packets_on_nil, app_nil_r. cbn [Wire.channel Wire.mode Wire.data p].
    destruct (K5 ch' Hch') as [F1 F2]. destruct (decide (ch = ch')) as [<-|Hne].
    + rewrite lookup_insert_eq, decide_True by done. cbn [default from_option id].
      rewrite F1. fold n. apply lookup_lt_Some in Hn as Hlt. split; [|lia]. by rewrite (take_S_r _ _ d).
    + rewrite lookup_insert_ne, decide_False, app_nil_r by naive_solver. done.
  - unfold unreliable_packets. rewrite filter_app, filter_cons_False, filter_nil, app_nil_r; [done|].
    by intros Hx.
Qed.

Lemma datagram_lands ws wr (x : crossing) i :
  crossing_ok ws wr x → crossing_ok ws wr (cstep x (Lands i)).
Proof.
  intros [K1 K2 K3 K4 K5 (K6 & K7 & K8)]. cbn [crossing_step]. case_decide as Hm; [|by split].
  destruct Hm as [Hl Hi]. destruct (put_out_spec dialled_s ws (sender x) c0 K1 K3 K4) as (_ & Hd & _).
  rewrite Hd. destruct (flights [] _ !! i) as [d|] eqn:Hlk; [|by split].
  destruct (read_datagram_result from (seen x) d) as (seen' & p & Hr & Hp). rewrite Hr.
  assert (∃ g, g = (match p with Some p => hears dialled_r react_r p (receiver x) | None => receiver x end) ∧
    game_ok dialled_r wr g ∧ told from (live g) = told from (live (receiver x)) ++ option_list p)
    as (g & <- & E1 & E2).
  { destruct p as [p|]; [|exists (receiver x); by rewrite app_nil_r].
    destruct (Hp p eq_refl) as [Hpf _]. eexists. split; [done|]. by apply hears_ok. }
  split; cbn [sender receiver passed seen landed]; try done; rewrite E2.
  - intros ch Hch. destruct (K5 ch Hch) as [F1 F2]. split; [|done].
    rewrite packets_on_app, F1. destruct p as [p|]; [|apply app_nil_r].
    destruct (Hp p eq_refl) as (_ & _ & Hmode). change (option_list (Some p)) with [p].
    by rewrite packets_on_cons, packets_on_nil, decide_False, !app_nil_r by naive_solver.
  - split_and!.
    + apply NoDup_app. split_and!; [done| |apply NoDup_singleton]. intros j Hj ->%list_elem_of_singleton. done.
    + apply Forall_app. split; [done|]. apply Forall_singleton. by eapply lookup_lt_Some.
    + rewrite omap_snoc, Hlk, read_datagrams_app, K8. cbn. rewrite Hr. cbn. rewrite app_nil_r.
      unfold unreliable_packets. rewrite filter_app. do 2 f_equal. f_equal.
      destruct p as [p|]; [|done]. destruct (Hp p eq_refl) as (_ & _ & Hmode).
      change (option_list (Some p)) with [p]. by rewrite filter_cons_True.
Qed.

Lemma crossing_run_ok ws wr (x : crossing) ls :
  crossing_ok ws wr x → crossing_ok ws wr (crossing_run dialled_s dialled_r react_s react_r c0 from x ls).
Proof.
  intros Hok. apply (foldl_preserves _ (crossing_ok ws wr)); [done|]. clear x Hok. intros x l Hok.
  destruct l; [by apply sender_moves|by apply receiver_moves| |by apply packet_passes|by apply datagram_lands].
  by destruct Hok.
Qed.

(** ** What the receiver fetches *)

Definition from_on (ch : Z) (m : Mode) (ps : list Packet) : list bytes :=
  Peer.data <$> base.filter (λ p, Peer.peer p = from ∧ Peer.channel p = ch ∧
                                  Peer.mode p = from_session_mode m) ps.

Lemma from_on_app ch m ps ps' : from_on ch m (ps ++ ps') = from_on ch m ps ++ from_on ch m ps'.
Proof. unfold from_on. by rewrite filter_app, fmap_app. Qed.

Lemma from_on_prefix ch m ps ps' : ps `prefix_of` ps' → from_on ch m ps `prefix_of` from_on ch m ps'.
Proof. intros [k ->]. rewrite from_on_app. by apply prefix_app_r. Qed.

Lemma from_session_mode_inj m m' : from_session_mode m = from_session_mode m' → m = m'.
Proof. by destruct m, m'. Qed.

Lemma from_on_told dialled s ch m :
  live_ok dialled s → from_on ch m (packets_of (Live.sent s).*2) = packets_on ch m (told from s).
Proof.
  intros Hok. pose proof (task_says_no_packet dialled s Hok) as Ht. unfold told, packets_of.
  induction (Live.sent s) as [|[b e] l IH]; [done|]. unfold Live.by_task in Ht. cbn in Ht |- *.
  destruct b.
  - apply Forall_cons in Ht as [He Ht]. destruct e as [| | |q| |]; try by apply IH. by destruct He.
  - destruct e as [| | |q| |]; try by apply IH.
    unfold from_on in *. rewrite filter_cons. cbn.
    assert (from_session_mode (Wire.mode q) = from_session_mode m ↔ Wire.mode q = m) as Hm
      by (split; [apply from_session_mode_inj|by intros ->]).
    destruct (decide (Wire.peer q = from)) as [Hq|Hq].
    + rewrite packets_on_cons, <- IH by done. repeat case_decide; naive_solver.
    + rewrite decide_False by naive_solver. by apply IH.
Qed.

Lemma got_told wr (g : game) ch m :
  game_ok dialled_r wr g → incoming (this wr) = [] →
  got_on from ch m g `prefix_of` packets_on ch m (told from (live g)) ∧
  (closing g = false → incoming (this (game_world g)) = [] → Live.received (live g) = (Live.sent (live g)).*2 →
   got_on from ch m g = packets_on ch m (told from (live g))).
Proof.
  intros [K1 K2 _ _ K5 _ _] Hw. rewrite Hw in K5. rewrite <- (from_on_told dialled_r) by done.
  destruct K1 as [_ _ _ L4 _ _ _]. unfold got_on. fold (from_on ch m (fetched g)). split.
  - apply from_on_prefix.
    assert (fetched g `prefix_of` packets_of (Live.received (live g))) as Hf.
    { destruct (closing g); [apply K5|]. cbn in K5. rewrite <- K5. by apply prefix_app_r. }
    etrans; [exact Hf|].
    assert (Live.received (live g) `prefix_of` (Live.sent (live g)).*2) as [k ->].
    { destruct (Live.held (live g)); destruct L4 as [_ L4]; [|done]. rewrite <- L4. by apply prefix_app_r. }
    rewrite packets_of_app. by apply prefix_app_r.
  - intros Hc Hi Hr. rewrite Hc, Hi, app_nil_r in K5. rewrite <- Hr. by rewrite K5.
Qed.

(** The three services, from the packets put to the packets fetched. *)
Lemma crossing_delivers ws wr (x : crossing) :
  crossing_ok ws wr x → incoming (this wr) = [] →
  let L := sent_over dialled_s c0 (sender x) in
  (∀ ch, ch ≠ CONTROL_CHANNEL → got_on from ch Reliable (receiver x) `prefix_of` reliable_on ch L) ∧
  (∀ ch, Z.of_nat (count_ordered ch L) ≤ 2147483647 →
     got_on from ch UnreliableOrdered (receiver x) `sublist_of` in_the_air ch UnreliableOrdered L) ∧
  (∀ ch, got_on from ch Unreliable (receiver x) ⊆+ in_the_air ch Unreliable L) ∧
  ordered_by <$> L `sublist_of` puts (sender x).
Proof.
  intros Hok Hw L. pose proof Hok as [K1 K2 K3 K4 K5 (K6 & K7 & K8)].
  destruct (put_out_spec dialled_s ws (sender x) c0 K1 K3 K4) as (_ & _ & Hsd).
  subst L. destruct (landed_packets from _ (landed x) Hsd K6 K7) as (last & ps & Hr & _ & U & O).
  rewrite K8 in Hr. injection Hr as _ <-.
  assert (∀ ch m, m ≠ Reliable → packets_on ch m (unreliable_packets (told from (live (receiver x))))
    = packets_on ch m (told from (live (receiver x)))) as Hu.
  { intros ch m Hm. unfold packets_on, unreliable_packets. rewrite list_filter_filter_l; [done|].
    by intros p [_ ->]. }
  split_and!.
  - intros ch Hch. etrans; [by apply (got_told wr)|]. destruct (K5 ch Hch) as [-> _]. apply prefix_take.
  - intros ch Hn. etrans; [|by apply O]. rewrite Hu by done.
    destruct (got_told wr (receiver x) ch UnreliableOrdered K2 Hw) as [[k ->] _]. by apply sublist_inserts_r.
  - intros ch. etrans; [|by apply U]. rewrite Hu by done.
    destruct (got_told wr (receiver x) ch Unreliable K2 Hw) as [[k ->] _]. by apply submseteq_inserts_r.
  - etrans; [apply parcels_ordered|]. destruct K1 as [[_ _ L3 _ _ _ _] _ _ _ _ _ K7']. rewrite K7'.
    apply sublist_filter_mono. destruct (receiver_alive _); [rewrite L3; by apply sublist_inserts_r|].
    destruct L3 as [k ->]. by apply sublist_inserts_r.
Qed.

(** ** Nothing gets stuck *)

(** What the network and the receiver's frame loop do. *)
Definition delivers (l : Label) : Prop :=
  match l with
  | Travel _ _ | Passes _ | ReceiverDoes Poll | ReceiverDoes GetPacket => True
  | _ => False
  end.

Abbreviation crun := (crossing_run dialled_s dialled_r react_s react_r c0 from).

Lemma hears_keeps (g : game) p :
  listening g → Live.held (live (hears dialled_r react_r p g)) = Live.held (live g) ∧
  listening (hears dialled_r react_r p g) ∧ closing (hears dialled_r react_r p g) = closing g.
Proof.
  intros [t Ht]. unfold hears, listening. cbn. rewrite Ht.
  destruct (Live.tell_fields false (PacketEvent p) (live g)) as (E1 & E2 & _).
  rewrite E1, E2, Ht. split_and!; [done|by eexists|done].
Qed.

(** The reader of a stream that arrived whole passes on every frame. *)
Lemma passes_all ws wr ch k (x : crossing) :
  crossing_ok ws wr x → is_i32 ch → ch ≠ CONTROL_CHANNEL → listening (receiver x) →
  let F := reliable_on ch (sent_over dialled_s c0 (sender x)) in
  (length (stream_bytes ch F) ≤ default 0 (arrived x !! ch))%nat →
  (default 0 (passed x !! ch) + k = length F)%nat →
  let x' := crun x (replicate k (Passes ch)) in
  sender x' = sender x ∧ default 0%nat (passed x' !! ch) = length F ∧
  Live.held (live (receiver x')) = Live.held (live (receiver x)) ∧ closing (receiver x') = closing (receiver x).
Proof.
  intros Hok Hc Hch Hl F Har. revert x Hok Hl F Har. induction k as [|k IH]; intros x Hok Hl F Har Hk.
  { cbn. split_and!; [done|lia|done..]. }
  cbn [replicate]. change (crun x (Passes ch :: ?ls)) with (crun (cstep x (Passes ch)) ls).
  destruct (readable_spec ws wr x ch Hok Hc Hch) as (frames & _ & Hr & Hall).
  specialize (Hall Har). subst frames. fold F in Hr.
  pose proof (packet_passes ws wr x ch Hok) as Hok'.
  set (n := default 0%nat (passed x !! ch)) in *.
  destruct (lookup_lt_is_Some_2 F n) as [d Hd]; [lia|].
  assert (cstep x (Passes ch) = mk_crossing (sender x)
    (hears dialled_r react_r (Wire.mk_packet from ch Reliable d) (receiver x)) (arrived x)
    (<[ch := S n]> (passed x)) (seen x) (landed x)) as Hx.
  { cbn [crossing_step]. rewrite decide_True by done. fold n. by rewrite Hr, list_lookup_fmap, Hd. }
  destruct (hears_keeps (receiver x) (Wire.mk_packet from ch Reliable d) Hl) as (E1 & E2 & E3).
  rewrite Hx in *. specialize (IH _ Hok').
  cbn [sender receiver arrived passed] in IH. rewrite lookup_insert_eq in IH. cbn [default from_option id] in IH.
  destruct IH as (F1 & F2 & F3 & F4); [done|done|fold F; lia|]. cbv zeta. split_and!.
  - exact F1.
  - exact F2.
  - etrans; [exact F3|exact E1].
  - etrans; [exact F4|exact E3].
Qed.

(** Fetching packet by packet. *)
Lemma gets_all (x : crossing) k :
  let x' := crun x (replicate k (ReceiverDoes GetPacket)) in
  sender x' = sender x ∧ passed x' = passed x ∧ live (receiver x') = live (receiver x) ∧
  closing (receiver x') = closing (receiver x) ∧
  incoming (this (game_world (receiver x'))) = drop k (incoming (this (game_world (receiver x)))).
Proof.
  revert x. induction k as [|k IH]; intros x; [done|].
  cbn [replicate]. change (crun x (ReceiverDoes GetPacket :: ?ls))
    with (crun (cstep x (ReceiverDoes GetPacket)) ls).
  destruct (IH (cstep x (ReceiverDoes GetPacket))) as (E1 & E2 & E3 & E4 & E5). cbv zeta.
  rewrite E1, E2, E3, E4, E5. cbn [crossing_step]. rewrite decide_True by done.
  cbn [sender receiver passed game_step live closing game_world perform this with_this].
  split_and!; [done|done| |by rewrite orb_false_r|].
  - unfold labels. by destruct (session _).
  - unfold get_packet_rawptr. destruct (incoming (this (game_world (receiver x)))) as [|q l] eqn:Hi; cbn; [|done].
    by rewrite Hi, drop_nil.
Qed.

(** One poll takes everything that was sent. *)
Lemma poll_takes_all wr (g : game) :
  game_ok dialled_r wr g → Live.held (live g) = true →
  let g' := game_step dialled_r react_r g Poll in
  Live.received (live g') = (Live.sent (live g')).*2 ∧ closing g' = closing g.
Proof.
  intros Hok Hh. destruct (game_run_ok dialled_r react_r passive_r wr g [Poll] Hok) as [K' _ _ _ _ _ _].
  destruct Hok as [[_ _ _ L4 _ _ _] K2 _ _ _ _ _]. rewrite Hh in L4. destruct L4 as [_ L4].
  destruct (poll_spec dialled_r react_r passive_r (game_world g) (live g) K2) as (_ & _ & _ & _ & E5 & _).
  assert (taken (game_world g) = queue (Handle.events (Live.handle (live g)))) as Ht.
  { unfold taken. unfold coupled in K2. by rewrite K2, Hh. }
  rewrite Ht, L4 in E5. cbv zeta. cbn [game_step live closing]. rewrite E5, orb_false_r. split; [|done].
  assert (∀ ls s, Forall (λ l, is_network l = false) ls →
    Live.sent (live_run dialled_r s ls) = Live.sent s) as Hs.
  { intros ls s Hl. revert s. induction Hl as [|l ls Hl _ IH]; intros s; [done|].
    cbn [live_run foldl]. unfold live_run in IH. rewrite IH.
    destruct l; try done; cbn [live_step]; unfold Live.call, Live.try_recv; destruct (Live.held s); try done.
    by destruct (Handle.try_recv _). }
  by rewrite Hs by apply labels_are_calls.
Qed.

Lemma crossing_settles ws wr (x : crossing) ch :
  crossing_ok ws wr x → incoming (this wr) = [] → is_i32 ch → ch ≠ CONTROL_CHANNEL →
  listening (receiver x) → Live.held (live (receiver x)) = true → closing (receiver x) = false →
  ∃ ls, Forall delivers ls ∧ sender (crun x ls) = sender x ∧
    got_on from ch Reliable (receiver (crun x ls)) = reliable_on ch (sent_over dialled_s c0 (sender x)).
Proof.
  intros Hok Hw Hc Hch Hl Hh Hcl. set (F := reliable_on ch (sent_over dialled_s c0 (sender x))).
  set (x1 := cstep x (Travel ch (length (stream_bytes ch F)))).
  assert (crossing_ok ws wr x1) as Hok1 by (by destruct Hok).
  set (n := (length F - default 0 (passed x !! ch))%nat).
  assert (default 0 (passed x !! ch) ≤ length F)%nat as Hle by (by destruct Hok as [_ _ _ _ K5 _]; apply K5).
  destruct (passes_all ws wr ch n x1 Hok1 Hc Hch Hl) as (E1 & E2 & E3 & E4).
  { subst x1. cbn [crossing_step arrived sender]. rewrite lookup_insert_eq. cbn. fold F. lia. }
  { subst x1. cbn [crossing_step passed sender]. fold F. lia. }
  set (x2 := crun x1 (replicate n (Passes ch))) in *.
  assert (crossing_ok ws wr x2) as Hok2 by (by apply crossing_run_ok).
  set (x3 := cstep x2 (ReceiverDoes Poll)).
  assert (crossing_ok ws wr x3) as Hok3 by (by apply receiver_moves).
  destruct (poll_takes_all wr (receiver x2)) as [P1 P2]; [by destruct Hok2|by rewrite E3|].
  assert (x3 = mk_crossing (sender x2) (game_step dialled_r react_r (receiver x2) Poll) (arrived x2)
    (passed x2) (seen x2) (landed x2)) as Hx3 by (subst x3; cbn [crossing_step]; by rewrite decide_True).
  set (m := length (incoming (this (game_world (receiver x3))))).
  destruct (gets_all x3 m) as (G1 & G2 & G3 & G4 & G5).
  set (x4 := crun x3 (replicate m (ReceiverDoes GetPacket))) in *.
  assert (crossing_ok ws wr x4) as Hok4 by (by apply crossing_run_ok).
  exists (Travel ch (length (stream_bytes ch F)) :: replicate n (Passes ch)
    ++ ReceiverDoes Poll :: replicate m (ReceiverDoes GetPacket)).
  assert (crun x (Travel ch (length (stream_bytes ch F)) :: replicate n (Passes ch)
    ++ ReceiverDoes Poll :: replicate m (ReceiverDoes GetPacket)) = x4) as ->.
  { unfold crossing_run. cbn [foldl]. rewrite foldl_app. done. }
  assert (sender x4 = sender x) as Hsend by (rewrite G1, Hx3; cbn [sender]; by rewrite E1).
  assert (passed x4 !! ch = passed x2 !! ch) as Hpass by (by rewrite G2, Hx3).
  split_and!.
  - constructor; [done|]. apply Forall_app. split; [by apply Forall_replicate|].
    constructor; [done|]. by apply Forall_replicate.
  - done.
  - destruct Hok4 as [_ K2 _ _ K5 _].
    destruct (got_told wr (receiver x4) ch Reliable K2 Hw) as [_ ->].
    + destruct (K5 ch Hch) as [-> _]. rewrite Hsend, Hpass, E2. fold F. subst x1. cbn [crossing_step sender].
      fold F. by rewrite take_ge.
    + rewrite G4, Hx3. cbn [receiver]. by rewrite P2, E4.
    + rewrite G5. by rewrite drop_ge.
    + rewrite G3, Hx3. exact P1.
Qed.
End proofs.

(** ** A guest's packets all go to its host *)

(** Everything but what is addressed to everyone except the host. *)
Definition for_the_host (c : Session.Command) : Prop :=
  match c with Session.Send target _ _ _ => target ≠ - HOST_ID | _ => False end.

#[export] Instance for_the_host_dec c : Decision (for_the_host c).
Proof. destruct c; cbn; apply _. Defined.

Section guest.
Context `{HashOrder}.

(** A guest has the one link, on the connection it dialled, until it loses it. *)
Definition guest_links (c : Conn) (t : Session.Task) : Prop :=
  Session.inbound t = false ∧ Session.is_host (Session.state t) = false ∧
  (Session.connection <$> Session.links (Session.state t) = {[HOST_ID := c]} ∨
   Session.links (Session.state t) = ∅).

Lemma finish_unlinks t :
  Session.inbound (Session.finish t) = false ∧ Session.links (Session.state (Session.finish t)) = ∅ ∧
  Session.is_host (Session.state (Session.finish t)) = Session.is_host (Session.state t).
Proof.
  split_and!; [done|done|]. unfold Session.finish. cbn.
  assert (Session.same_members (Session.state t) (Session.close_all (Session.state t))) as [-> _ _ _ _]; [|done].
  apply Session.same_members_foldl. intros st x. by destruct (Session.links st !! x).
Qed.

(** Membership messages leave the links alone. *)
Lemma apply_links control st :
  Session.links (Session.apply control st) = Session.links st ∧
  Session.is_host (Session.apply control st) = Session.is_host st.
Proof.
  destruct control as [id peers|id|id]; cbn [Session.apply].
  - apply (foldl_preserves _ (λ st', Session.links st' = Session.links st ∧
      Session.is_host st' = Session.is_host st)).
    + by destruct (Session.announce_links HOST_ID (Session.send_event (Ready id) st)) as (-> & _ & -> & _).
    + intros st' p [<- <-]. by destruct (Session.announce_links p st') as (-> & _ & -> & _).
  - by destruct (Session.announce_links id st) as (-> & _ & -> & _).
  - by destruct (Session.forget_links id st) as (-> & _ & -> & _).
Qed.

(** Losing its host, a guest has no link left. *)
Lemma guest_lost c p st :
  Session.is_host st = false → Session.connection <$> Session.links st = {[HOST_ID := c]} →
  is_Some (Session.links st !! p) →
  Session.links (Session.lost p st) = ∅ ∧ Session.is_host (Session.lost p st) = false.
Proof.
  intros Hh Hl [l Hp]. assert (p = HOST_ID) as ->.
  { apply (f_equal (lookup p)) in Hl. rewrite lookup_fmap, Hp in Hl. cbn in Hl.
    symmetry in Hl. apply lookup_singleton_Some in Hl as [He _]. by symmetry. }
  unfold Session.lost. rewrite Hp. set (st0 := Session.set_connections _ _).
  destruct (Session.forget_links HOST_ID st0) as (E1 & _ & E2 & _). rewrite E2.
  change (Session.is_host st0) with (Session.is_host st). rewrite Hh, decide_True by done.
  change (Session.links (Session.forget HOST_ID st0) = ∅ ∧ Session.is_host (Session.forget HOST_ID st0) = false).
  rewrite E1, E2. split; [|exact Hh]. cbn.
  apply map_eq. intros q. rewrite lookup_empty. destruct (decide (q = HOST_ID)) as [->|Hq];
    [by rewrite lookup_delete_eq|]. rewrite lookup_delete_ne by done.
  apply (f_equal (lookup q)) in Hl. rewrite lookup_fmap, lookup_singleton_ne in Hl by done.
  by apply fmap_None in Hl.
Qed.

Lemma guest_links_step c sizes t i : guest_links c t → guest_links c (Session.step sizes t i).
Proof.
  intros Hg. pose proof Hg as (H1 & H2 & H3).
  assert (∀ st', Session.same_members (Session.state t) st' → guest_links c (Session.with_state st' t)) as Hsame.
  { intros st' [Hh Hl _ _ _]. split_and!; [done|cbn; congruence|]. cbn.
    destruct H3 as [H3|H3]; [left; rewrite Hl; exact H3|right].
    rewrite H3, fmap_empty in Hl. by apply fmap_empty_iff in Hl. }
  assert (guest_links c (Session.finish t)) as Hfinish.
  { destruct (finish_unlinks t) as (E1 & E2 & E3). split_and!; [done|by rewrite E3|by right]. }
  unfold Session.step. destruct (Session.running t); [|exact Hg].
  destruct i as [[[target ch m d|p|]|]|[[control|p]|]|k]; [| |exact Hfinish|exact Hfinish| | |exact Hfinish|].
  - apply Hsame, Session.send_same.
  - apply Hsame, Session.drop_link_same.
  - destruct (apply_links control (Session.state t)) as [E1 E2].
    split_and!; cbn; [done|by rewrite E2|by rewrite E1].
  - destruct (Session.links (Session.state t) !! p) as [l|] eqn:Hl;
      [|unfold Session.lost; rewrite Hl; by destruct t].
    destruct H3 as [H3|H3]; [|by rewrite H3 in Hl].
    destruct (guest_lost c p (Session.state t) H2 H3) as [E1 E2]; [by eexists|].
    split_and!; [done|exact E2|right; exact E1].
  - by rewrite H1.
Qed.

(** A link that is gone stays gone. *)
Lemma guest_unlinked_step c sizes t i :
  guest_links c t → HOST_ID ∈ dom (Session.links (Session.state (Session.step sizes t i))) →
  HOST_ID ∈ dom (Session.links (Session.state t)).
Proof.
  intros (H1 & _ & H3) Hd. destruct (decide (Session.links (Session.state t) = ∅)) as [He|He].
  - exfalso. revert Hd.
    assert (Session.links (Session.state (Session.step sizes t i)) = ∅) as ->; [|by rewrite dom_empty_L, elem_of_empty].
    assert (∀ st', Session.same_members (Session.state t) st' → Session.links st' = ∅) as Hsame.
    { intros st' [_ Hl _ _ _]. rewrite He, fmap_empty in Hl. by apply fmap_empty_iff in Hl. }
    unfold Session.step. destruct (Session.running t); [|done].
    destruct i as [[[target ch m d|p|]|]|[[control|p]|]|k]; try done.
    + apply Hsame, Session.send_same.
    + apply Hsame, Session.drop_link_same.
    + cbn. by destruct (apply_links control (Session.state t)) as [-> _].
    + cbn. unfold Session.lost. by rewrite He, lookup_empty.
    + by rewrite H1.
  - destruct H3 as [H3|H3]; [|done]. rewrite <- (dom_fmap_L Session.connection), H3, dom_singleton_L.
    by apply elem_of_singleton.
Qed.

Lemma guest_links_run c ins :
  guest_links c (Session.run (Session.begin (Some (inl c))) ins).
Proof.
  apply (foldl_preserves _ (guest_links c)).
  - split_and!; [done|done|]. left. cbn. by rewrite fmap_insert, fmap_empty.
  - intros t i. apply guest_links_step.
Qed.

(** A send of a linked guest goes over its connection, unless it is to everyone
    but the host. *)
Lemma guest_reaches c t target :
  guest_links c t → HOST_ID ∈ dom (Session.links (Session.state t)) →
  reaches (Session.state t) target c ↔ target ≠ - HOST_ID.
Proof.
  intros (_ & _ & [Hl|Hl]) Hd; [|by rewrite Hl, dom_empty_L, elem_of_empty in Hd]. clear Hd.
  assert (dom (Session.links (Session.state t)) = {[HOST_ID]}) as Hdom
    by (by rewrite <- (dom_fmap_L Session.connection), Hl, dom_singleton_L).
  assert (Session.connection <$> Session.links (Session.state t) !! HOST_ID = Some c) as Hc
    by (by rewrite <- lookup_fmap, Hl, lookup_singleton_eq).
  assert (HOST_ID ∈ Membership.recipients (Session.state t) target ↔ target ≠ - HOST_ID) as Hr.
  { unfold Membership.recipients. rewrite Hdom. repeat case_decide;
      rewrite ?elem_of_difference, ?elem_of_intersection, ?elem_of_singleton in *; unfold HOST_ID in *; lia. }
  rewrite <- Hr. unfold reaches. rewrite list_elem_of_omap. split.
  - intros (p & Hp & Hpc). apply elem_of_elements in Hp.
    assert (p ∈ dom (Session.links (Session.state t))) as Hin.
    { apply elem_of_dom. by destruct (Session.links (Session.state t) !! p); [eexists|]. }
    rewrite Hdom in Hin. by apply elem_of_singleton in Hin as ->.
  - intros Hh. exists HOST_ID. split; [by apply elem_of_elements|done].
Qed.

Lemma guest_parcels c ins :
  let t := Session.run (Session.begin (Some (inl c))) ins in
  HOST_ID ∈ dom (Session.links (Session.state t)) →
  ordered_by <$> parcels c (Session.begin (Some (inl c))) ins = base.filter for_the_host (Live.commands_in ins).
Proof.
  cbv zeta. induction ins as [|[sizes i] ins IH] using rev_ind; intros Hd; [done|].
  rewrite parcels_app, Live.commands_in_snoc, filter_app, fmap_app.
  set (t := Session.run (Session.begin (Some (inl c))) ins) in *.
  assert (Session.run (Session.begin (Some (inl c))) (ins ++ [(sizes, i)]) = Session.step sizes t i) as Hs
    by (unfold Session.run; by rewrite foldl_app).
  rewrite Hs in Hd. pose proof (guest_links_run c ins) as Hg. fold t in Hg.
  apply (guest_unlinked_step c) in Hd; [|done]. rewrite IH by done. f_equal.
  assert (Session.running t = true) as Hr.
  { destruct (Session.running t) eqn:Hr; [done|]. destruct (Live.run_told_end (Some (inl c)) ins Hr) as [He _].
    fold t in He. by rewrite He, dom_empty_L, elem_of_empty in Hd. }
  cbn [parcels]. rewrite Hr, app_nil_r. cbn [snd].
  destruct i as [[[target ch m d|p|]|]|m|k]; cbn [parcels_of]; try done.
  pose proof (guest_reaches c t target Hg Hd) as Hre. rewrite filter_cons, filter_nil.
  change (for_the_host (Session.Send target ch m d)) with (target ≠ - HOST_ID).
  destruct (decide (reaches (Session.state t) target c)) as [Hx|Hx].
  - rewrite decide_True by tauto. done.
  - rewrite decide_False by tauto. done.
Qed.
End guest.

(** ** Properties *)

(** C1: what one game puts is what another fetches. Two games with a connection
    between them, each doing whatever it likes and talking to others too, over a
    network that cuts streams into pieces, stops delivering them at any byte,
    and loses and reorders datagrams. What the receiver's game has fetched from
    the sender, channel by channel: of the reliable packets a gapless beginning
    of those that were put, in order; of the ordered ones a subsequence, while
    no more than [2^31 - 1] of them were put on the channel; of the unreliable
    ones a choice, each at most once. Nothing else, and every packet with the
    bytes, the channel and the mode it was put with, but for those too large for
    a datagram: they are among the reliable ones. *)
Theorem one_game_fetches_what_another_put `{Countable E} `{AlpnRegistry R Reg} {Addr} `{HashOrder}
    dialled_s dialled_r react_s react_r c0 from
    (ws wr : World (E := E) (R := R) (Reg := Reg) (Addr := Addr)) refuse_s refuse_r ls :
  passive react_s → passive react_r →
  session (this ws) = Some (Handle.fresh_handle [] refuse_s) →
  session (this wr) = Some (Handle.fresh_handle [] refuse_r) → incoming (this wr) = [] →
  let x := crossing_run dialled_s dialled_r react_s react_r c0 from
             (begin_crossing ws wr refuse_s refuse_r) ls in
  let L := sent_over dialled_s c0 (sender x) in
  (ordered_by <$> L `sublist_of` puts (sender x)) ∧
  (∀ ch, ch ≠ CONTROL_CHANNEL → got_on from ch Reliable (receiver x) `prefix_of` reliable_on ch L) ∧
  (∀ ch, Z.of_nat (count_ordered ch L) ≤ 2147483647 →
     got_on from ch UnreliableOrdered (receiver x) `sublist_of` in_the_air ch UnreliableOrdered L) ∧
  (∀ ch, got_on from ch Unreliable (receiver x) ⊆+ in_the_air ch Unreliable L).
Proof.
  intros Hps Hpr Hs Hr Hi x L.
  assert (crossing_ok dialled_s dialled_r c0 from ws wr x) as Hok
    by (by apply crossing_run_ok, begin_crossing_ok).
  destruct (crossing_delivers dialled_s dialled_r c0 from ws wr x Hok Hi) as (H1' & H2' & H3' & H4').
  by split_and!.
Qed.

(** A guest and its host: the guest joins, puts two packets and a third that
    arrives first. *)
Definition example_peer (refuse : option nat) : World (E := nat) (R := Registry) (Reg := Registration) (Addr := nat) :=
  mk_world (set_status CONNECTED (set_session (Some (Handle.fresh_handle [] refuse)) init)) ∅ [] [].

Definition example_sizes : Conn → option Z := λ _, Some 1200.

Definition example_crossing : list Label :=
  [SenderDoes (Network Begin); ReceiverDoes (Network Begin);
   ReceiverDoes (Network (TakeConnection example_sizes (Some 4%nat)));
   SenderDoes (SetMode RELIABLE); SenderDoes (PutPacketScript [x61]); SenderDoes (PutPacketScript [x62]);
   SenderDoes (SetMode UNRELIABLE_ORDERED); SenderDoes (PutPacketScript [x63]);
   SenderDoes (PutPacketScript [x64]);
   SenderDoes (Network (TakeCommand example_sizes)); SenderDoes (Network (TakeCommand example_sizes));
   SenderDoes (Network (TakeCommand example_sizes)); SenderDoes (Network (TakeCommand example_sizes));
   Lands 1; Travel 0 9; Passes 0; Lands 0; Passes 0;
   ReceiverDoes Poll; ReceiverDoes GetPacket; ReceiverDoes GetPacket; ReceiverDoes GetPacket].

Definition example_end : Crossing (E := nat) (R := Registry) (Reg := Registration) (Addr := nat) :=
  crossing_run (H1 := listing_order) (Some (inl 9%nat)) None no_reaction no_reaction 9%nat 2
    (begin_crossing (example_peer None) (example_peer None) None None) example_crossing.

(** Of the two ordered packets the second arrived; of the two reliable ones only
    the first is there yet. *)
Example example_fetched :
  fetched (receiver example_end) = [mk_packet 2 0 UNRELIABLE_ORDERED [x64]; mk_packet 2 0 RELIABLE [x61]].
Proof. vm_compute. reflexivity. Qed.

Lemma one_game_fetches_what_another_put_witness :
  let x := example_end in
  let L := sent_over (H1 := listing_order) (Some (inl 9%nat)) 9%nat (sender x) in
  (ordered_by <$> L `sublist_of` puts (sender x)) ∧
  (∀ ch, ch ≠ CONTROL_CHANNEL → got_on 2 ch Reliable (receiver x) `prefix_of` reliable_on ch L) ∧
  (∀ ch, Z.of_nat (count_ordered ch L) ≤ 2147483647 →
     got_on 2 ch UnreliableOrdered (receiver x) `sublist_of` in_the_air ch UnreliableOrdered L) ∧
  (∀ ch, got_on 2 ch Unreliable (receiver x) ⊆+ in_the_air ch Unreliable L).
Proof.
  refine (@one_game_fetches_what_another_put _ _ _ _ _ _ _ listing_order (Some (inl 9%nat)) None
    no_reaction no_reaction 9%nat 2 (example_peer None) (example_peer None) None None example_crossing
    _ _ _ _ _); [apply no_reaction_passive|apply no_reaction_passive|reflexivity..].
Defined.

(** C2: what a guest puts arrives. Whatever two games went through, if the sender
    is a guest still linked to its host, whose task has taken what was put, and
    the receiver still has its session: the network's deliveries, a poll and some
    fetches are all it takes for the receiver's game to have, on any channel, all
    the packets that travel reliably and nothing else, in order; and what
    travels over the connection is every packet the guest put for anybody but
    everyone except the host. *)
Theorem what_a_guest_puts_arrives `{Countable E} `{AlpnRegistry R Reg} {Addr} `{HashOrder}
    dialled_r react_s react_r c0 from
    (ws wr : World (E := E) (R := R) (Reg := Reg) (Addr := Addr)) refuse_s refuse_r ls ch t :
  passive react_s → passive react_r →
  session (this ws) = Some (Handle.fresh_handle [] refuse_s) →
  session (this wr) = Some (Handle.fresh_handle [] refuse_r) → incoming (this wr) = [] →
  is_i32 ch → ch ≠ CONTROL_CHANNEL →
  let crossing := crossing_run (Some (inl c0)) dialled_r react_s react_r c0 from in
  let x := crossing (begin_crossing ws wr refuse_s refuse_r) ls in
  Live.task (live (sender x)) = Some t → HOST_ID ∈ dom (Session.links (Session.state t)) →
  queue (Handle.commands (Live.handle (live (sender x)))) = [] →
  listening (receiver x) → Live.held (live (receiver x)) = true → closing (receiver x) = false →
  let L := sent_over (Some (inl c0)) c0 (sender x) in
  ordered_by <$> L = base.filter for_the_host (puts (sender x)) ∧
  ∃ more, Forall delivers more ∧
    got_on from ch Reliable (receiver (crossing x more)) = reliable_on ch L.
Proof.
  intros Hps Hpr Hs Hr Hi Hc Hch crossing x Ht Hd Hq Hl Hh Hcl L.
  assert (crossing_ok (Some (inl c0)) dialled_r c0 from ws wr x) as Hok
    by (by apply crossing_run_ok, begin_crossing_ok).
  split.
  - subst L. unfold sent_over. destruct Hok as [[[L1 L2 L3 _ _ _ _] _ _ _ _ _ K7] _ _ _ _ _].
    rewrite Ht in L1, L2. cbn in L2. rewrite L1 in Hd. rewrite (guest_parcels c0) by done.
    assert (Session.running t = true) as Hrun.
    { destruct (Session.running t) eqn:Hrun; [done|]. rewrite L1 in Hrun.
      destruct (Live.run_told_end (Some (inl c0)) _ Hrun) as [He _].
      by rewrite He, dom_empty_L, elem_of_empty in Hd. }
    rewrite K7, list_filter_filter_l by (by intros []). rewrite L2, Hrun, Hq, app_nil_r in L3. by rewrite L3.
  - destruct (crossing_settles (Some (inl c0)) dialled_r react_s react_r Hps Hpr c0 from ws wr x ch)
      as (more & H1' & _ & H3'); [done..|]. by exists more.
Qed.

Lemma what_a_guest_puts_arrives_witness :
  let crossing := crossing_run (H1 := listing_order) (Some (inl 9%nat)) None no_reaction no_reaction 9%nat 2 in
  let x := crossing (begin_crossing (example_peer None) (example_peer None) None None) example_crossing in
  let L := sent_over (H1 := listing_order) (Some (inl 9%nat)) 9%nat (sender x) in
  ordered_by <$> L = base.filter for_the_host (puts (sender x)) ∧
  ∃ more, Forall delivers more ∧
    got_on 2 0 Reliable (receiver (crossing x more)) = reliable_on 0 L.
Proof.
  simple refine (@what_a_guest_puts_arrives _ _ _ _ _ _ _ listing_order None no_reaction no_reaction 9%nat 2
    (example_peer None) (example_peer None) None None example_crossing 0 _
    _ _ _ _ _ _ _ _ _ _ _ _ _).
  2,3: apply no_reaction_passive.
  2-4: reflexivity.
  2,3: by_decision.
  2: vm_compute; reflexivity.
  - by_decision.
  - vm_compute. reflexivity.
  - vm_compute. by eexists.
  - vm_compute. reflexivity.
  - vm_compute. reflexivity.
Defined.
