(* ===== verification/Lobby.v ===== *)
(** * A lobby: a host, its guests and the wire between them ([session.rs])

    The session task of a host and those of the guests that joined it, each the
    task of [Session]. What the host queues to a guest on the control channel is
    written to a stream; the bytes arrive in pieces of any size; the guest's
    reader cuts them into messages, and its task applies one at a time, whenever
    it is scheduled. Any of this may interleave, with commands, with departures
    and with guests losing the host. *)

From S2P Require Import Prelude Wire Session Membership.

(** ** State *)

(** A guest's end: its task, the frames queued to it so far, how many bytes of
    their stream have arrived, and how many messages its task has taken. *)
Record Guest : Type := mk_guest {
  guest_task : Task;
  frames : list bytes;
  arrived : nat;
  taken : nat;
}.

Record Lobby : Type := mk_lobby {
  host_task : Task;
  joined : Z;
  guests : gmap Z Guest;
}.

Definition open_lobby : Lobby := mk_lobby run_host 0 ∅.

(** A [Welcome] of this many peers still fits the [u32] length of its frame. *)
Definition max_joins : Z := 2 ^ 29.

Inductive Label : Type :=
  (** an arm of the host's loop; [back] is the newcomer's end of a connection *)
  | HostRuns (sizes : Conn → option Z) (i : Input) (back : Conn)
  (** bytes of the control stream reach guest [p] *)
  | Travel (p : Z) (upto : nat)
  (** guest [p] applies the next message its reader passed on *)
  | GuestReads (p : Z) (sizes : Conn → option Z)
  (** any other arm of guest [p]'s loop *)
  | GuestRuns (p : Z) (sizes : Conn → option Z) (i : Input).

(** What the reader of the control stream has passed on: [read_stream] on the
    bytes that are there. *)
Definition arrived_messages (g : Guest) : list Internal :=
  match read_stream HOST_ID
          (mk_reader (take (arrived g) (stream_bytes CONTROL_CHANNEL (frames g)))
             unbounded_channel unbounded_channel) with
  | Some r => queue (internal r)
  | None => []
  end.

(** What a linked guest's stream carries is what the host has queued to it. *)
Definition refresh (st : State) (p : Z) (g : Guest) : Guest :=
  if decide (p ∈ dom (links st)) then
    mk_guest (guest_task g) (outbox st p CONTROL_CHANNEL) (arrived g) (taken g)
  else g.

Section lobby.
Context `{HashOrder}.

(** The guest a connection accepted now belongs to. *)
Definition newcomer (t : Task) (i : Input) : option Z :=
  match i with
  | OnConnection (Some _) => if inbound t then Some (next_id t) else None
  | _ => None
  end.

Definition new_guest (back : Conn) : Guest := mk_guest (run_client (inl back)) [] 0 0.

Definition lobby_step (l : Lobby) (a : Label) : Lobby :=
  match a with
  | HostRuns sizes i back =>
      if decide (Session.running (host_task l) = true ∧ honest i ∧ joined l + accepts i ≤ max_joins)
      then
        let t := step sizes (host_task l) i in
        let gs := match newcomer (host_task l) i with
                  | Some p => <[p := new_guest back]> (guests l)
                  | None => guests l
                  end in
        mk_lobby t (joined l + accepts i) (map_imap (λ p g, Some (refresh (state t) p g)) gs)
      else l
  | Travel p upto =>
      mk_lobby (host_task l) (joined l)
        (alter (λ g, mk_guest (guest_task g) (frames g) (arrived g `max` upto) (taken g)) p (guests l))
  | GuestReads p sizes =>
      mk_lobby (host_task l) (joined l)
        (alter (λ g,
           match arrived_messages g !! taken g with
           | Some m =>
               if Session.running (guest_task g) then
                 mk_guest (step sizes (guest_task g) (OnInternal (Some m))) (frames g) (arrived g)
                   (S (taken g))
               else g
           | None => g
           end) p (guests l))
  | GuestRuns p sizes i =>
      if decide (honest i) then
        mk_lobby (host_task l) (joined l)
          (alter (λ g, mk_guest (step sizes (guest_task g) i) (frames g) (arrived g) (taken g)) p
             (guests l))
      else l
  end.

Definition lobby_run (l : Lobby) (ls : list Label) : Lobby := foldl lobby_step l ls.
End lobby.

(** ** What a host says to one guest

    A welcome, first, and then who came and who went. *)

Definition joins_or_leaves (c : Control) : Prop :=
  match c with Welcome _ _ => False | _ => True end.

Definition sendable (c : Control) : Prop := control_wf c ∧ is_u32 (len (encode c)).

Definition welcomed (p : Z) (cs : list Control) : Prop :=
  ∃ peers rest, cs = Welcome p peers :: rest ∧ Forall joins_or_leaves rest.

Record script (p : Z) (fs : list bytes) (cs : list Control) : Prop := {
  script_frames : fs = encode <$> cs;
  script_sendable : Forall sendable cs;
  script_welcome : welcomed p cs;
}.

Lemma script_snoc p fs cs c :
  script p fs cs → sendable c → joins_or_leaves c → script p (fs ++ [encode c]) (cs ++ [c]).
Proof.
  intros [-> Hs (peers & rest & -> & Hr)] Hc Hj. split.
  - by rewrite fmap_app.
  - by apply Forall_app_2; [|constructor].
  - exists peers, (rest ++ [c]). split; [done|]. by apply Forall_app_2; [|constructor].
Qed.

Lemma small_sendable c : joins_or_leaves c → control_wf c → sendable c.
Proof. intros Hj Hc. split; [done|]. by destruct c. Qed.

Lemma encode_welcome_len id peers : len (encode (Welcome id peers)) = 9 + 4 * len peers.
Proof.
  cbn [encode]. rewrite !len_app, len_peers. unfold len.
  rewrite length_put_i32, length_put_u32. change (length (put_u8 1)) with 1%nat. lia.
Qed.

(** What a host has said to [p] in [st] goes on in [st']. *)
Definition goes_on (st st' : State) (p : Z) : Prop :=
  p ∈ dom (links st) ∧
  ∀ cs, script p (outbox st p CONTROL_CHANNEL) cs →
    ∃ more, script p (outbox st' p CONTROL_CHANNEL) (cs ++ more).

Lemma goes_on_same st st' p :
  dom (links st') = dom (links st) →
  (∀ p, outbox st' p CONTROL_CHANNEL = outbox st p CONTROL_CHANNEL) →
  p ∈ dom (links st') → goes_on st st' p.
Proof.
  intros Hd Ho Hp. split; [by rewrite <- Hd|]. intros cs Hcs. exists []. by rewrite app_nil_r, Ho.
Qed.

Section scripts.
Context `{HashOrder}.

Lemma welcome_script n c st p :
  0 ≤ n → n ≤ max_joins → FIRST_CLIENT_ID + n ≤ i32_max → host_ok n st →
  p ∈ dom (links (welcome (FIRST_CLIENT_ID + n) c st)) →
  (p = FIRST_CLIENT_ID + n ∧
     ∃ cs, script p (outbox (welcome (FIRST_CLIENT_ID + n) c st) p CONTROL_CHANNEL) cs) ∨
  goes_on st (welcome (FIRST_CLIENT_ID + n) c st) p.
Proof.
  intros Hn Hmax Hids Hok. pose proof (welcome_frame_ok n st Hn Hids Hok) as Hwf.
  set (peer := FIRST_CLIENT_ID + n) in *.
  assert (∀ q, q ∈ hash_keys (links st) → FIRST_CLIENT_ID ≤ q < FIRST_CLIENT_ID + n) as Hr
    by (intros q Hq%elem_of_hash_keys; by apply (host_ids _ _ Hok)).
  pose proof (NoDup_range_length _ _ n Hn (NoDup_hash_keys _) Hr) as Hlen.
  assert (peer ∉ dom (links st)) as Hnew by (intros Hin%(host_ids _ _ Hok); subst peer; lia).
  destruct (welcome_members peer c st) as (_ & Hd & _).
  destruct (welcome_outbox peer c st (host_writers _ _ Hok) Hnew) as [_ Hout].
  rewrite Hd, Hout. intros Hp. destruct (decide (p = peer)) as [Hq|Hq]; [left|right].
  - split; [done|]. exists [Welcome peer (hash_keys (links st))]. subst p.
    split; [done| |by eexists _, []].
    constructor; [|constructor]. split; [done|]. rewrite encode_welcome_len.
    pose proof (len_nonneg (hash_keys (links st))). unfold max_joins in *. unfold_ints. lia.
  - assert (p ∈ dom (links st)) as Hin by set_solver. split; [done|]. intros cs Hcs.
    rewrite Hout, decide_False, decide_True by done. exists [PeerJoined peer].
    apply script_snoc; [done| |done]. apply small_sendable; [done|]. apply Hwf.
Qed.

Lemma lost_script n peer st p :
  host_ok n st → p ∈ dom (links (lost peer st)) → goes_on st (lost peer st) p.
Proof.
  intros Hok. destruct (links st !! peer) as [link|] eqn:Hl;
    [|unfold lost; rewrite Hl; intros ?; by apply goes_on_same].
  assert (peer ∈ dom (links st)) as Hpeer by (by apply elem_of_dom_2 in Hl).
  destruct (lost_spec peer st link (host_is_host _ _ Hok) (host_writers _ _ Hok) Hl)
    as (_ & _ & Hd & _ & Hout).
  rewrite Hd. intros Hp. split; [set_solver|]. intros cs Hcs.
  rewrite Hout, decide_False, decide_True by set_solver. exists [PeerLeft peer].
  apply script_snoc; [done| |done]. apply small_sendable; [done|].
  pose proof (host_ids _ _ Hok _ Hpeer). pose proof (host_bound _ _ Hok).
  cbn. unfold_ints. unfold FIRST_CLIENT_ID in *. lia.
Qed.

(** One round of the host's loop, for a guest it is linked to afterwards. *)
Lemma step_script sizes n t i p :
  honest i → n + accepts i ≤ max_joins → host_task_ok n t →
  Session.running (step sizes t i) = true → p ∈ dom (links (state (step sizes t i))) →
  (newcomer t i = Some p ∧
     ∃ cs, script p (outbox (state (step sizes t i)) p CONTROL_CHANNEL) cs) ∨
  (newcomer t i ≠ Some p ∧ goes_on (state t) (state (step sizes t i)) p).
Proof.
  intros Hi Hmax [Hn Hok Hnext] Hr.
  pose proof (step_running sizes t i Hr) as Hrun. unfold step in *. rewrite Hrun in *.
  destruct i as [[[target channel mode data|peer|]|]|[[control|peer]|]|[c|]];
    cbn in Hi, Hmax, Hr |- *; try done.
  - destruct (send_outbox sizes target channel mode data (state t)) as [_ Ho]; [apply Hok|].
    right. split; [done|]. apply goes_on_same; [apply same_members_dom, send_same| |done].
    intros q. by apply Ho.
  - right. split; [done|]. unfold drop_link in *. destruct (links (state t) !! peer); [|by apply goes_on_same].
    apply goes_on_same; [done| |done]. intros q. by apply perform_other_outbox.
  - right. split; [done|]. by apply (lost_script n).
  - destruct (inbound t); cbn in *; [|right; split; [done|by apply goes_on_same]].
    unfold max_joins in *. rewrite Hnext by (unfold max_accepts; unfold_ints; lia). intros Hp.
    destruct (decide (p = FIRST_CLIENT_ID + n)) as [Hq|Hq];
      destruct (welcome_script n c (state t) p) as [[? ?]|Hg]; try done;
      try (unfold max_joins, FIRST_CLIENT_ID; unfold_ints; lia).
    + left. split; [by rewrite Hq|done].
    + destruct Hg as [Hin _]. pose proof (host_ids _ _ Hok p Hin). lia.
    + right. split; [congruence|done].
  - right. split; [done|]. by destruct (inbound t); apply goes_on_same.
Qed.
End scripts.

(** ** One guest *)

(** The ids a task has reported as its own. *)
Definition own_ids (evs : list Event) : list Z :=
  omap (λ e, match e with Ready id => Some id | _ => None end) evs.

Definition view (cs : list Control) : gset Z := foldl view_step ∅ cs.

Definition linked (g : Guest) : Prop := HOST_ID ∈ dom (links (state (guest_task g))).

Record guest_task_ok (t : Task) : Prop := {
  gt_guest : is_host (state t) = false;
  gt_inbound : inbound t = false;
  gt_links : dom (links (state t)) ⊆ {[HOST_ID]};
  gt_said : announcements_ok (state t);
}.

Record guest_ok (p : Z) (g : Guest) (cs : list Control) : Prop := {
  g_script : script p (frames g) cs;
  g_taken : (taken g ≤ length cs)%nat;
  g_task : guest_task_ok (guest_task g);
  g_view : linked g → announced (state (guest_task g)) = view (take (taken g) cs);
  g_ready : own_ids (sent_events (state (guest_task g))) = if decide (taken g = 0%nat) then [] else [p];
}.

Lemma own_ids_app l k : own_ids (l ++ k) = own_ids l ++ own_ids k.
Proof. apply omap_app. Qed.

(** Events that are not [Ready]. *)
Lemma own_ids_quiet (more : list Event) :
  Forall (λ e, match e with Ready _ => False | _ => True end) more → own_ids more = [].
Proof. unfold own_ids. induction 1 as [|e more He _ IH]; [done|]. cbn. by destruct e. Qed.

Lemma announce_ids p st : own_ids (sent_events (announce p st)) = own_ids (sent_events st).
Proof. unfold announce. case_decide; [done|]. cbn. by rewrite own_ids_app, app_nil_r. Qed.

Lemma forget_ids p st : own_ids (sent_events (forget p st)) = own_ids (sent_events st).
Proof. unfold forget. case_decide; [|done]. cbn. by rewrite own_ids_app, app_nil_r. Qed.

Lemma apply_ids c st :
  own_ids (sent_events (apply c st)) =
    own_ids (sent_events st) ++ match c with Welcome id _ => [id] | _ => [] end.
Proof.
  destruct c as [id peers|id|id]; cbn [apply].
  - apply (foldl_preserves _ (λ st', own_ids (sent_events st') = own_ids (sent_events st) ++ [id])).
    + rewrite announce_ids. cbn. by rewrite own_ids_app.
    + intros st' p Hst. by rewrite announce_ids.
  - by rewrite announce_ids, app_nil_r.
  - by rewrite forget_ids, app_nil_r.
Qed.

Lemma apply_kept c st :
  is_host (apply c st) = is_host st ∧ links (apply c st) = links st.
Proof.
  destruct c as [id peers|id|id]; cbn [apply].
  - apply (foldl_preserves _ (λ st', is_host st' = is_host st ∧ links st' = links st)).
    + by destruct (announce_links HOST_ID (send_event (Ready id) st)) as (-> & _ & -> & _).
    + intros st' p [Hh Hl]. destruct (announce_links p st') as (-> & _ & -> & _). done.
  - by destruct (announce_links id st) as (-> & _ & -> & _).
  - by destruct (forget_links id st) as (-> & _ & -> & _).
Qed.

Section guests.
Context `{HashOrder}.

Lemma close_all_kept st :
  is_host (close_all st) = is_host st ∧ sent_events (close_all st) = sent_events st.
Proof.
  unfold close_all. apply (foldl_preserves _ (λ st', is_host st' = is_host st ∧ sent_events st' = sent_events st));
    [done|].
  intros st' p ?. by destruct (links st' !! p).
Qed.

(** A guest whose link to [peer], if it has one, is the host's, loses it. *)
Lemma guest_lost_spec t peer :
  guest_task_ok t → announcements_ok (state (with_state (lost peer (state t)) t)) →
  let t' := with_state (lost peer (state t)) t in
  guest_task_ok t' ∧ own_ids (sent_events (state t')) = own_ids (sent_events (state t)) ∧
  (HOST_ID ∈ dom (links (state t')) →
     HOST_ID ∈ dom (links (state t)) ∧ announced (state t') = announced (state t)).
Proof.
  intros [H1 H2 H3 H4] Hsaid. cbn [state with_state] in *. unfold lost in *.
  destruct (links (state t) !! peer) as [link|] eqn:Hl.
  2:{ split_and!; [split; done|done|done]. }
  assert (peer = HOST_ID) as ->.
  { apply elem_of_dom_2 in Hl. set_solver. }
  set (st0 := set_connections _ _) in *.
  destruct (forget_links HOST_ID st0) as (El & _ & Eh & _).
  rewrite Eh in *. cbn [st0 is_host set_connections set_links] in *. rewrite H1 in *.
  rewrite decide_True in * by done. cbn [send_event is_host links sent_events].
  assert (dom (links (forget HOST_ID st0)) = dom (links (state t)) ∖ {[HOST_ID]}) as Hd
    by (rewrite El; cbn; apply dom_delete_L).
  split_and!.
  - split; [|done| |done]; cbn; [by rewrite Eh|]. rewrite Hd. set_solver.
  - rewrite own_ids_app, forget_ids, app_nil_r. done.
  - rewrite Hd. set_solver.
Qed.

(** An input that is not a message, on a guest. *)
Lemma guest_step sizes t i :
  honest i → guest_task_ok t →
  let t' := step sizes t i in
  guest_task_ok t' ∧ own_ids (sent_events (state t')) = own_ids (sent_events (state t)) ∧
  (HOST_ID ∈ dom (links (state t')) →
     HOST_ID ∈ dom (links (state t)) ∧ announced (state t') = announced (state t)).
Proof.
  intros Hi [H1 H2 H3 H4] t'.
  assert (announcements_ok (state t')) as Hsaid by (by apply announcements_step).
  assert (∀ st, same_members (state t) st → only_warns (state t) st → state t' = st →
    inbound t' = inbound t →
    guest_task_ok t' ∧ own_ids (sent_events (state t')) = own_ids (sent_events (state t)) ∧
    (HOST_ID ∈ dom (links (state t')) →
       HOST_ID ∈ dom (links (state t)) ∧ announced (state t') = announced (state t))) as Hsame.
  { intros st Hs (ws & He & Hw) Hst Hin. subst st. pose proof (same_members_dom _ _ Hs) as Hd.
    split_and!.
    - split; [by rewrite (same_host _ _ Hs)|congruence|by rewrite Hd|done].
    - rewrite He, own_ids_app, (own_ids_quiet ws), app_nil_r; [done|].
      eapply Forall_impl; [exact Hw|]. by intros e [text ->].
    - rewrite Hd. split; [done|]. by rewrite (same_announced _ _ Hs). }
  assert (t' = finish t →
    guest_task_ok t' ∧ own_ids (sent_events (state t')) = own_ids (sent_events (state t)) ∧
    (HOST_ID ∈ dom (links (state t')) →
       HOST_ID ∈ dom (links (state t)) ∧ announced (state t') = announced (state t))) as Hfin.
  { intros Ht. rewrite Ht in Hsaid |- *. destruct (close_all_kept (state t)) as [Eh Ee].
    split_and!.
    - split; [by cbn; rewrite Eh|done|cbn; set_solver|done].
    - cbn. by rewrite own_ids_app, Ee, app_nil_r.
    - cbn. set_solver. }
  subst t'. unfold step in *. destruct (Session.running t) eqn:Hr; [|by apply (Hsame (state t))].
  destruct i as [[[target channel mode data|peer|]|]|[[control|peer]|]|c]; cbn in Hi; try done; try by apply Hfin.
  - eapply Hsame; [apply send_same|apply send_warns|done|done].
  - eapply Hsame; [apply drop_link_same| |done|done]. apply only_warns_eq. unfold drop_link.
    by destruct (links (state t) !! peer).
  - by apply guest_lost_spec.
  - destruct (inbound t) eqn:Hin; [done|]. by apply (Hsame (state t)).
Qed.

(** A message, on a guest. *)
Lemma guest_message sizes t c :
  Session.running t = true → guest_task_ok t →
  let t' := step sizes t (OnInternal (Some (InternalControl c))) in
  guest_task_ok t' ∧ Session.running t' = true ∧
  links (state t') = links (state t) ∧
  announced (state t') = view_step (announced (state t)) c ∧
  own_ids (sent_events (state t')) =
    own_ids (sent_events (state t)) ++ match c with Welcome id _ => [id] | _ => [] end.
Proof.
  intros Hr [H1 H2 H3 H4] t'.
  assert (announcements_ok (state t')) as Hsaid by (by apply announcements_step).
  subst t'. unfold step in *. rewrite Hr in *. cbn [state with_state Session.running inbound] in *.
  destruct (apply_kept c (state t)) as [Eh El]. split_and!.
  - split; [by cbn; rewrite Eh|done|by cbn; rewrite El|done].
  - done.
  - done.
  - apply apply_announced.
  - apply apply_ids.
Qed.
End guests.

(** The messages that have arrived are the first ones of the script. *)
Lemma arrived_messages_spec p g cs :
  script p (frames g) cs →
  ∃ delivered, delivered `prefix_of` cs ∧ arrived_messages g = InternalControl <$> delivered ∧
    ((length (stream_bytes CONTROL_CHANNEL (frames g)) ≤ arrived g)%nat → delivered = cs).
Proof.
  intros [Hf Hs _]. unfold arrived_messages. rewrite Hf.
  set (r := mk_reader [] unbounded_channel unbounded_channel).
  change (mk_reader (take ?k ?b) _ _) with (with_unread (take k b) r).
  destruct (read_stream_prefix HOST_ID CONTROL_CHANNEL (encode <$> cs) (arrived g) r)
    as (ds & rest & Hp & Hr & Hall);
    [by compute|apply Forall_fmap; eapply Forall_impl; [exact Hs|by intros c [_ ?]]|done|].
  assert (∃ ds', ds = encode <$> ds' ∧ ds' `prefix_of` cs) as (ds' & -> & Hds).
  { destruct Hp as [tl (ds' & tls & Heq1 & Heq2 & ->)%fmap_app_inv].
    exists ds'. split; [done|]. by exists tls. }
  assert (Forall control_wf ds') as Hwf.
  { destruct Hds as [tl ->]. apply Forall_app in Hs as [Hs _].
    eapply Forall_impl; [exact Hs|]. by intros c [? _]. }
  rewrite deliver_control in Hr by done.
  exists ds'. split_and!; [done| |].
  - by rewrite Hr.
  - intros Hk%Hall. destruct Hds as [tl ->]. apply (f_equal length) in Hk.
    rewrite fmap_app, length_app, !length_fmap in Hk. destruct tl; [by rewrite app_nil_r|cbn in Hk; lia].
Qed.

(** ** The whole lobby *)

Section invariant.
Context `{HashOrder}.

Record lobby_ok (l : Lobby) : Prop := {
  l_host : Session.running (host_task l) = true →
    ∃ n, n ≤ joined l ∧ joined l ≤ max_joins ∧ host_task_ok n (host_task l);
  l_gone : Session.running (host_task l) = false → links (state (host_task l)) = ∅;
  l_linked p : p ∈ dom (links (state (host_task l))) →
    ∃ g, guests l !! p = Some g ∧ frames g = outbox (state (host_task l)) p CONTROL_CHANNEL;
  l_guests p g : guests l !! p = Some g → ∃ cs, guest_ok p g cs;
}.

Lemma open_lobby_ok : lobby_ok open_lobby.
Proof.
  split; cbn; [|done|set_solver|].
  - intros _. exists 0. split_and!; [done|done|apply host_task_start].
  - by intros p g Hg%lookup_empty_Some.
Qed.

(** A change of one guest that keeps what was queued to it. *)
Lemma alter_guest_ok l f p :
  (∀ g cs, guest_ok p g cs → guest_ok p (f g) cs) → (∀ g, frames (f g) = frames g) →
  lobby_ok l → lobby_ok (mk_lobby (host_task l) (joined l) (alter f p (guests l))).
Proof.
  intros Hf Hfr [H1 H2 H3 H4]. split; cbn; [done|done| |].
  - intros q (g & Hg & Ho)%H3. destruct (decide (p = q)) as [->|Hne].
    + exists (f g). rewrite lookup_alter_eq, Hg. by rewrite Hfr.
    + exists g. by rewrite lookup_alter_ne.
  - intros q g. destruct (decide (p = q)) as [->|Hne].
    + rewrite lookup_alter_eq. intros (g0 & Hg0 & ->)%fmap_Some.
      destruct (H4 q g0 Hg0) as [cs Hcs]. eauto.
    + rewrite lookup_alter_ne by done. apply H4.
Qed.

Lemma travel_ok p upto g cs :
  guest_ok p g cs → guest_ok p (mk_guest (guest_task g) (frames g) (arrived g `max` upto) (taken g)) cs.
Proof. by intros []. Qed.

Lemma guest_runs_ok p sizes i g cs :
  honest i → guest_ok p g cs →
  guest_ok p (mk_guest (step sizes (guest_task g) i) (frames g) (arrived g) (taken g)) cs.
Proof.
  intros Hi [H1 H2 H3 H4 H5]. destruct (guest_step sizes (guest_task g) i Hi H3) as (K3 & K5 & K4).
  split; cbn; [done|done|done| |by rewrite K5].
  unfold linked. cbn. intros [Hl ->]%K4. by apply H4.
Qed.

Lemma guest_reads_ok p sizes g cs m :
  guest_ok p g cs → arrived_messages g !! taken g = Some m → Session.running (guest_task g) = true →
  guest_ok p (mk_guest (step sizes (guest_task g) (OnInternal (Some m))) (frames g) (arrived g)
                (S (taken g))) cs.
Proof.
  intros [H1 H2 H3 H4 H5] Hm Hr.
  destruct (arrived_messages_spec p g cs H1) as (ds & [tl ->] & Ha & _).
  rewrite Ha, list_lookup_fmap in Hm. apply fmap_Some in Hm as (c & Hc & ->).
  assert ((ds ++ tl) !! taken g = Some c) as Hlook by (by apply lookup_app_l_Some).
  destruct (guest_message sizes (guest_task g) c Hr H3) as (K1 & K2 & K3 & K4 & K5).
  split; cbn; [done|by apply lookup_lt_Some in Hlook|done| |].
  - unfold linked. cbn. rewrite K3. intros Hl. rewrite K4, H4 by done.
    rewrite (take_S_r _ _ c) by done. unfold view. by rewrite foldl_app.
  - rewrite K5, H5. destruct (script_welcome _ _ _ H1) as (peers & rest & Hcs & Hrest).
    destruct (taken g) as [|k] eqn:Ht; rewrite Hcs in Hlook; cbn in Hlook.
    + by injection Hlook as <-.
    + cbn. assert (joins_or_leaves c) as Hj.
      { apply list_elem_of_lookup_2 in Hlook. by apply (proj1 (Forall_forall _ _) Hrest). }
      by destruct c.
Qed.

Lemma new_guest_ok p back fs cs :
  script p fs cs → guest_ok p (mk_guest (guest_task (new_guest back)) fs 0 0) cs.
Proof.
  intros Hs. split; cbn; try done; try lia.
Qed.

Lemma guest_goes_on p g cs more fs :
  guest_ok p g cs → script p fs (cs ++ more) →
  guest_ok p (mk_guest (guest_task g) fs (arrived g) (taken g)) (cs ++ more).
Proof.
  intros [H1 H2 H3 H4 H5] Hs. split; cbn; [done|rewrite length_app; lia|done| |done].
  unfold linked in *. cbn. intros Hl. rewrite H4 by done. by rewrite take_app_le.
Qed.

(** A task that leaves its loop has no links left. *)
Lemma step_gone sizes t i :
  Session.running t = true → Session.running (step sizes t i) = false →
  links (state (step sizes t i)) = ∅.
Proof.
  intros Hr. unfold step. rewrite Hr.
  destruct i as [[[target channel mode data|peer|]|]|[[control|peer]|]|c]; cbn; try congruence.
  destruct (inbound t); [|congruence]. by destruct c.
Qed.

Lemma host_runs_ok l sizes i back :
  Session.running (host_task l) = true → honest i → joined l + accepts i ≤ max_joins → lobby_ok l →
  let t := step sizes (host_task l) i in
  let gs := match newcomer (host_task l) i with
            | Some p => <[p := new_guest back]> (guests l)
            | None => guests l
            end in
  lobby_ok (mk_lobby t (joined l + accepts i) (map_imap (λ p g, Some (refresh (state t) p g)) gs)).
Proof.
  intros Hr Hi Hmax [H1 H2 H3 H4] t gs. destruct (H1 Hr) as (n & Hn & Hj & Hok).
  assert (n + accepts i ≤ max_joins) as Hb by lia.
  assert (0 ≤ accepts i) as Hacc by (by destruct i as [|?|[|]]).
  assert (n + accepts i ≤ max_accepts) as Hb' by (unfold max_joins, max_accepts in *; unfold_ints; lia).
  assert (Session.running t = true → ∀ p, p ∈ dom (links (state t)) →
    (∃ cs, guest_ok p (mk_guest (guest_task (new_guest back)) (outbox (state t) p CONTROL_CHANNEL) 0 0) cs
       ∧ gs !! p = Some (new_guest back)) ∨
    (∃ g cs, guest_ok p (mk_guest (guest_task g) (outbox (state t) p CONTROL_CHANNEL) (arrived g) (taken g)) cs
       ∧ gs !! p = Some g)) as Hlinked.
  { intros Hrt p Hp.
    destruct (step_script sizes n (host_task l) i p Hi Hb Hok Hrt Hp) as [[Hnew [cs Hcs]]|[Hnew [Hp' Hgo]]].
    - left. exists cs. split; [by apply new_guest_ok|]. subst gs. rewrite Hnew. by rewrite lookup_insert_eq.
    - right. destruct (H3 p Hp') as (g & Hg & Hfr). destruct (H4 p g Hg) as [cs Hcs].
      destruct (Hgo cs) as [more Hmore]; [rewrite <- Hfr; apply Hcs|].
      exists g, (cs ++ more). split; [by apply guest_goes_on|]. subst gs.
      destruct (newcomer (host_task l) i) as [q|]; [|done]. by rewrite lookup_insert_ne by congruence. }
  assert (Session.running t = false → dom (links (state t)) = ∅) as Hgone.
  { intros Hf. unfold t. by rewrite step_gone, dom_empty_L. }
  split; cbn [host_task joined guests].
  - intros Hrt. destruct (step_host_ok sizes n (host_task l) i Hi Hb' Hok Hrt) as (n' & ? & ?).
    exists n'. split_and!; [lia|lia|done].
  - intros Hf. by apply step_gone.
  - intros p Hp. destruct (Session.running t) eqn:Hrt; [|rewrite Hgone in Hp; set_solver].
    setoid_rewrite map_lookup_imap.
    destruct (Hlinked eq_refl p Hp) as [(cs & _ & ->)|(g & cs & _ & ->)]; cbn;
      unfold refresh; rewrite decide_True by done; by eexists.
  - intros p g'. rewrite map_lookup_imap. intros (g & Hg & Hg')%bind_Some. injection Hg' as <-.
    unfold refresh. case_decide as Hp.
    + destruct (Session.running t) eqn:Hrt; [|rewrite Hgone in Hp; set_solver].
      destruct (Hlinked eq_refl p Hp) as [(cs & Hcs & Hgs)|(g0 & cs & Hcs & Hgs)];
        rewrite Hg in Hgs; injection Hgs as ->; eauto.
    + subst gs. destruct (newcomer (host_task l) i) as [q|] eqn:Hnew; [|by apply H4].
      destruct (decide (q = p)) as [->|Hne]; [|rewrite lookup_insert_ne in Hg by done; by apply H4].
      destruct i as [c|m|[c|]]; try done. cbn in Hnew.
      destruct (inbound (host_task l)) eqn:Hin; [|done]. injection Hnew as Hnew.
      exfalso. apply Hp. unfold t, step. rewrite Hr, Hin. cbn [state]. rewrite Hnew.
      destruct (welcome_members p c (state (host_task l))) as (_ & -> & _). set_solver.
Qed.

Lemma lobby_step_ok l a : lobby_ok l → lobby_ok (lobby_step l a).
Proof.
  intros Hok. destruct a as [sizes i back|p upto|p sizes|p sizes i]; cbn [lobby_step].
  - case_decide as Hg; [|done]. destruct Hg as (Hr & Hi & Hm). by apply host_runs_ok.
  - apply alter_guest_ok; [|done|done]. intros g cs. apply travel_ok.
  - apply alter_guest_ok; [| |done].
    + intros g cs Hcs. destruct (arrived_messages g !! taken g) as [m|] eqn:Hm; [|done].
      destruct (Session.running (guest_task g)) eqn:Hr; [|done]. by apply guest_reads_ok.
    + intros g. destruct (arrived_messages g !! taken g); [|done].
      by destruct (Session.running (guest_task g)).
  - case_decide; [|done]. apply alter_guest_ok; [|done|done]. intros g cs. by apply guest_runs_ok.
Qed.

Lemma lobby_run_ok l ls : lobby_ok l → lobby_ok (lobby_run l ls).
Proof. intros Hok. apply (foldl_preserves _ lobby_ok); [done|]. intros. by apply lobby_step_ok. Qed.
End invariant.

(** ** Catching up *)

Definition caught_up (g : Guest) : Prop := taken g = length (frames g).

(** A guest that has taken every message sees what its stream says. *)
Lemma view_client_view cs : Forall control_wf cs → view cs = client_view (encode <$> cs).
Proof.
  induction cs as [|c cs IH] using rev_ind; [done|].
  intros [Hcs [Hc _]%Forall_cons]%Forall_app. rewrite fmap_app. cbn.
  rewrite client_view_snoc, <- IH by done. unfold view. by rewrite foldl_app.
Qed.

Section catching_up.
Context `{HashOrder}.

Lemma caught_up_view l p g :
  lobby_ok l → Session.running (host_task l) = true → p ∈ dom (links (state (host_task l))) →
  guests l !! p = Some g → linked g → caught_up g →
  {[p]} ∪ announced (state (guest_task g)) = {[HOST_ID]} ∪ dom (links (state (host_task l))) ∧
  p ∉ announced (state (guest_task g)).
Proof.
  intros [H1 _ H3 H4] Hr Hp Hg Hl Hc. destruct (H1 Hr) as (n & _ & _ & [_ Hok _]).
  destruct (H3 p Hp) as (g' & Hg' & Hfr). rewrite Hg in Hg'. injection Hg' as <-.
  destruct (H4 p g Hg) as [cs [[Hf Hs _] _ _ Hv _]]. rewrite Hv by done.
  unfold caught_up in Hc. rewrite Hc, Hf, length_fmap, firstn_all.
  rewrite view_client_view.
  2:{ eapply Forall_impl; [exact Hs|]. by intros c [? _]. }
  rewrite <- Hf, Hfr, (host_views _ _ Hok) by done.
  pose proof (host_ids _ _ Hok p Hp). unfold FIRST_CLIENT_ID, HOST_ID in *.
  assert (p ≠ 1) by lia. split; [|set_solver].
  apply set_eq. intros q. destruct (decide (q = p)); set_solver.
Qed.

(** *** Delivery *)

Definition is_delivery (a : Label) : Prop :=
  match a with Travel _ _ | GuestReads _ _ => True | _ => False end.

Definition deliver_to (p : Z) (g : Guest) : list Label :=
  Travel p (length (stream_bytes CONTROL_CHANNEL (frames g)))
  :: replicate (length (frames g) - taken g) (GuestReads p (λ _, None)).

Lemma read_one l p g :
  lobby_ok l → guests l !! p = Some g → Session.running (guest_task g) = true →
  (length (stream_bytes CONTROL_CHANNEL (frames g)) ≤ arrived g)%nat →
  (taken g < length (frames g))%nat →
  ∃ g', lobby_step l (GuestReads p (λ _, None)) = mk_lobby (host_task l) (joined l) (<[p := g']> (guests l)) ∧
    Session.running (guest_task g') = true ∧ frames g' = frames g ∧ arrived g' = arrived g ∧
    taken g' = S (taken g).
Proof.
  intros Hok Hg Hr Harr Ht. destruct (l_guests _ Hok p g Hg) as [cs [H1 _ H3 _ _]].
  destruct (arrived_messages_spec p g cs H1) as (ds & _ & Ha & Hall).
  rewrite (Hall Harr) in Ha. pose proof (script_frames _ _ _ H1) as Hf.
  rewrite Hf, length_fmap in Ht. destruct (lookup_lt_is_Some_2 cs (taken g) Ht) as [c Hc].
  eexists (mk_guest (step (λ _, None) (guest_task g) (OnInternal (Some (InternalControl c)))) (frames g)
            (arrived g) (S (taken g))).
  split_and!; try done.
  - cbn. f_equal. apply map_eq. intros q. destruct (decide (p = q)) as [<-|Hne].
    + rewrite lookup_alter_eq, lookup_insert_eq, Hg. cbn.
      by rewrite Ha, list_lookup_fmap, Hc, Hr.
    + by rewrite lookup_alter_ne, lookup_insert_ne.
  - cbn. by apply (guest_message (λ _, None) (guest_task g) c Hr H3).
Qed.

Lemma read_rest n l p g :
  lobby_ok l → guests l !! p = Some g → Session.running (guest_task g) = true →
  (length (stream_bytes CONTROL_CHANNEL (frames g)) ≤ arrived g)%nat →
  n = (length (frames g) - taken g)%nat → (taken g ≤ length (frames g))%nat →
  let l' := lobby_run l (replicate n (GuestReads p (λ _, None))) in
  host_task l' = host_task l ∧ (∀ q, q ≠ p → guests l' !! q = guests l !! q) ∧
  ∃ g', guests l' !! p = Some g' ∧ caught_up g'.
Proof.
  revert l g. induction n as [|n IH]; intros l g Hok Hg Hr Ha Hn Ht; cbn [replicate lobby_run foldl].
  - split_and!; [done|done|]. exists g. split; [done|]. unfold caught_up. lia.
  - destruct (read_one l p g Hok Hg Hr Ha) as (g' & E & Hr' & Hf' & Ha' & Ht'); [lia|].
    pose proof (lobby_step_ok l (GuestReads p (λ _, None)) Hok) as Hok'. rewrite E in *.
    set (l1 := mk_lobby _ _ _) in *.
    destruct (IH l1 g') as (Eh & Eq & Eg); try done.
    + subst l1. cbn. by rewrite lookup_insert_eq.
    + by rewrite Hf', Ha'.
    + rewrite Hf', Ht'. lia.
    + rewrite Hf', Ht'. lia.
    + unfold lobby_run in *. rewrite Eh. split_and!; [done| |done].
      intros q Hq. rewrite Eq by done. subst l1. cbn. by rewrite lookup_insert_ne.
Qed.

Lemma deliver_one l p g :
  lobby_ok l → guests l !! p = Some g → Session.running (guest_task g) = true →
  let l' := lobby_run l (deliver_to p g) in
  host_task l' = host_task l ∧ (∀ q, q ≠ p → guests l' !! q = guests l !! q) ∧
  ∃ g', guests l' !! p = Some g' ∧ caught_up g'.
Proof.
  intros Hok Hg Hr. unfold deliver_to. cbn [lobby_run foldl].
  set (a := Travel p _). pose proof (lobby_step_ok l a Hok) as Hok1.
  set (l1 := lobby_step l a) in *.
  set (g1 := mk_guest (guest_task g) (frames g)
    (arrived g `max` length (stream_bytes CONTROL_CHANNEL (frames g))) (taken g)).
  assert (guests l1 !! p = Some g1) as Hg1 by (cbn; by rewrite lookup_alter_eq, Hg).
  destruct (l_guests _ Hok p g Hg) as [cs [Hs Ht _ _ _]].
  destruct (read_rest (length (frames g) - taken g) l1 p g1) as (Eh & Eq & Eg); try done.
  - cbn. lia.
  - cbn. by rewrite (script_frames _ _ _ Hs), length_fmap.
  - unfold lobby_run in *. rewrite Eh. split_and!; [done| |done].
    intros q Hq. rewrite Eq by done. cbn. by rewrite lookup_alter_ne.
Qed.

Lemma deliver_all l (ps : list Z) :
  lobby_ok l →
  ∃ ds, Forall is_delivery ds ∧
    let l' := lobby_run l ds in
    host_task l' = host_task l ∧
    ∀ p g, p ∈ ps → guests l' !! p = Some g → Session.running (guest_task g) = true → caught_up g.
Proof.
  intros Hok. induction ps as [|p ps (ds & Hds & Hh & Hc)].
  { exists []. split; [by apply Forall_nil_2|]. split; [reflexivity|]. intros p g ?%not_elem_of_nil. done. }
  set (l1 := lobby_run l ds) in *. assert (lobby_ok l1) as Hok1 by (by apply lobby_run_ok).
  destruct (guests l1 !! p) as [g|] eqn:Hg; [destruct (Session.running (guest_task g)) eqn:Hr|].
  - exists (ds ++ deliver_to p g). unfold lobby_run in *. rewrite foldl_app. fold l1.
    destruct (deliver_one l1 p g Hok1 Hg Hr) as (Eh & Eq & g' & Eg & Hcu). unfold lobby_run in *.
    split_and!; [|by rewrite Eh|].
    { apply Forall_app. split; [done|]. constructor; [done|]. by apply Forall_replicate. }
    intros q gq Hq. destruct (decide (q = p)) as [->|Hne].
    + rewrite Eg. by intros [= <-] _.
    + rewrite Eq by done. apply Hc. by apply elem_of_cons in Hq as [?|?].
  - exists ds. split; [done|]. split; [exact Hh|]. fold l1. intros q gq [->|Hq]%elem_of_cons; [|by apply Hc].
    rewrite Hg. intros [= <-]. congruence.
  - exists ds. split; [done|]. split; [exact Hh|]. fold l1. intros q gq [->|Hq]%elem_of_cons; [|by apply Hc].
    by rewrite Hg.
Qed.
End catching_up.

(** ** Properties *)

(** C3: a lobby agrees on who is there. Whatever commands, departures, closures
    and schedules have gone before, and in whatever pieces the bytes of the
    control streams arrived: a guest that is still linked and has taken every
    message queued to it has been told of exactly the host and every other
    linked guest, so that with its own id added all such guests, and the host,
    hold one and the same set; what it told its game is that set; and a guest
    learns its own id at most once, from its first message, as the one the host
    knows it by. *)
Theorem lobby_agrees `{HashOrder} ls p g :
  let l := lobby_run open_lobby ls in
  guests l !! p = Some g →
  own_ids (sent_events (state (guest_task g))) = (if decide (taken g = 0%nat) then [] else [p]) ∧
  (Session.running (host_task l) = true → p ∈ dom (links (state (host_task l))) →
   linked g → caught_up g →
     {[p]} ∪ announced (state (guest_task g)) = {[HOST_ID]} ∪ dom (links (state (host_task l))) ∧
     announced (state (host_task l)) = dom (links (state (host_task l))) ∧
     ∀ q, present false (presence q (sent_events (state (guest_task g)))) =
       Some (bool_decide (q ≠ p ∧ (q = HOST_ID ∨ q ∈ dom (links (state (host_task l))))))).
Proof.
  intros l Hg. assert (lobby_ok l) as Hok by apply lobby_run_ok, open_lobby_ok.
  destruct (l_guests _ Hok p g Hg) as [cs [_ _ Ht _ Hid]]. split; [done|].
  intros Hr Hp Hl Hc. destruct (caught_up_view l p g Hok Hr Hp Hg Hl Hc) as [Hv Hn].
  destruct (l_host _ Hok Hr) as (n & _ & _ & [_ Hhost _]).
  split_and!; [done|apply Hhost|]. intros q. rewrite (gt_said _ Ht q). f_equal.
  apply bool_decide_ext. split.
  - intros Hq. split; [by intros ->|]. assert (q ∈ {[p]} ∪ announced (state (guest_task g))) as Hin by set_solver.
    rewrite Hv in Hin. set_solver.
  - intros [Hne Hq]. assert (q ∈ {[p]} ∪ announced (state (guest_task g))) as Hin; [|set_solver].
    rewrite Hv. set_solver.
Qed.

(** Two guests join, the first leaves; the second has read all three messages
    it was sent, byte by byte. *)
Definition example_lobby : list Label :=
  let none := (λ _ : Conn, @None Z) in
  [HostRuns none (OnConnection (Some 10%nat)) 20%nat; Travel 2 9; GuestReads 2 none;
   HostRuns none (OnConnection (Some 11%nat)) 21%nat; Travel 3 30; GuestReads 3 none;
   GuestRuns 3 none (OnCommand (Some (Send 1 0 Reliable [x01])));
   HostRuns none (OnInternal (Some (Lost 2))) 0%nat; Travel 3 40; GuestReads 3 none].

Lemma lobby_agrees_witness :
  let l := lobby_run (H := listing_order) open_lobby example_lobby in
  ∃ g, guests l !! 3 = Some g ∧
    {[3]} ∪ announced (state (guest_task g)) = {[HOST_ID]} ∪ dom (links (state (host_task l))) ∧
    announced (state (host_task l)) = dom (links (state (host_task l))) ∧
    present false (presence 2 (sent_events (state (guest_task g)))) = Some false.
Proof.
  assert (∃ g, guests (lobby_run (H := listing_order) open_lobby example_lobby) !! 3 = Some g ∧
    linked g ∧ caught_up g) as (g & Hg & Hl & Hc)
    by (vm_compute; eexists; split_and!; [reflexivity|eexists; reflexivity|reflexivity]).
  destruct (@lobby_agrees listing_order example_lobby 3 g Hg) as [_ Ha].
  destruct Ha as (E1 & E2 & E3); [reflexivity|by_decision|done|done|].
  exists g. split_and!; [done..|]. rewrite E3. by_decision.
Defined.

(** C4: a lobby comes to agree. From every lobby that can be reached, however
    many messages are still under way, letting the bytes travel and the guests
    read is enough: it changes nothing at the host and leaves every guest whose
    task runs with all its messages taken, so that every one of them that is
    linked holds the host's set. *)
Theorem lobby_settles `{HashOrder} ls :
  let l := lobby_run open_lobby ls in
  Session.running (host_task l) = true →
  ∃ ds, Forall is_delivery ds ∧
    let l' := lobby_run l ds in
    host_task l' = host_task l ∧
    ∀ p g, p ∈ dom (links (state (host_task l'))) → guests l' !! p = Some g →
      Session.running (guest_task g) = true → linked g →
      caught_up g ∧
      {[p]} ∪ announced (state (guest_task g)) = {[HOST_ID]} ∪ dom (links (state (host_task l'))).
Proof.
  intros l Hr. assert (lobby_ok l) as Hok by apply lobby_run_ok, open_lobby_ok.
  destruct (deliver_all l (elements (dom (links (state (host_task l))))) Hok) as (ds & Hds & Hh & Hc).
  exists ds. split; [done|]. split; [done|]. intros p g Hp Hg Hrg Hl.
  assert (caught_up g) as Hcu.
  { apply (Hc p g); [|done..]. rewrite Hh in Hp. by apply elem_of_elements. }
  split; [done|]. apply caught_up_view; [by apply lobby_run_ok|by rewrite Hh|done..].
Qed.

Lemma lobby_settles_witness :
  let l := lobby_run (H := listing_order) open_lobby (take 7 example_lobby) in
  ∃ ds, Forall is_delivery ds ∧
    let l' := lobby_run (H := listing_order) l ds in
    host_task l' = host_task l ∧
    ∀ p g, p ∈ dom (links (state (host_task l'))) → guests l' !! p = Some g →
      Session.running (guest_task g) = true → linked g →
      caught_up g ∧
      {[p]} ∪ announced (state (guest_task g)) = {[HOST_ID]} ∪ dom (links (state (host_task l'))).
Proof. refine (@lobby_settles listing_order (take 7 example_lobby) _). reflexivity. Defined.
